(* ===== verification/_CoqProject ===== *)
-Q . S2P
Prelude.v
Errors.v
BTree.v
Checksum.v
Page.v
FileHeader.v
FileSys.v
Disk.v
WalRecord.v
WalLog.v
Recovery.v
BufferPool.v
PoolCache.v
PoolThreads.v
PoolLocks.v
PoolSim.v
PoolShared.v
PoolSolo.v
PoolClients.v
Database.v
DbState.v
Checkpoint.v
Commit.v
Reopen.v
Restart.v
Transactions.v
System.v
Threads.v
Concurrent.v
Serial.v
Conformance.v
UnitTests.v
StorageTests.v
PoolTests.v
DbTests.v
Guarantees.v
Isolation.v
Clients.v
LogSize.v
Solo.v
Races.v
