(* ===== verification/Prelude.v ===== *)
(** * OxenDB: a verification library for a crash-safe page store

    OxenDB (src/crates/oxendb/src) keeps a database in a file of fixed-size
    pages with a write-ahead log beside it.  A write transaction copies the
    pages it changes; [commit] logs the copies, syncs the log and then
    publishes them to a page cache; a checkpoint writes the cache back to the
    data file and empties the log; opening replays what the log still holds.
    One process has one [Database], shared by its threads.

    ** The program and its model

    The code is translated into functions of a state monad (this file): [M S A]
    runs on a state [S] and ends with a value ([Done]), a Rust panic
    ([Panicked]) or at the moment the process or the machine stops ([Crashed]);
    [let!] is sequencing and [let?] the question-mark operator.  [wp m Q C s]
    says that [m] does not panic, that [Q] holds if it returns and [C] if it is
    stopped.  [meq] is equality of computations, with the monad laws.

    - [Errors] is error.rs.
    - [Checksum] is storage/checksum: the tables, the byte-wise, slicing-by-8
      and hardware updates, the hasher.  The processor is the class [Cpu].
    - [Page] and [FileHeader] are storage/page.rs and storage/file_header.rs.
    - [FileSys] models what the code uses of std::fs.  Each system call takes
      its fate from a plan in the [World]: it succeeds, fails after part of its
      work, or is where the program stops, also after part of its work.
      Theorems quantify over the plan.
    - [Disk] is storage/disk.rs, [WalRecord] and [WalLog] are storage/wal,
      [Recovery] is storage/recovery.rs with [BTree] for the ordered map it and
      the transactions use.
    - [BufferPool] is storage/buffer_pool.rs: shards, page tables, pins, CLOCK
      replacement, handles, with every method as one call.  The order in which
      a hash map is listed is the class [HashOrder].
    - [PoolThreads] is storage/buffer_pool.rs once more, with the mutex of each
      shard and the read-write lock of each frame as part of the state and the
      methods cut at every lock operation and system call.  [pstep] is one step
      of one thread, [psteps] a run of any number of threads that fetch,
      install, flush, guard, read, change and drop pages.
    - [Database] is db/mod.rs and db/txn.rs with every method as one call.
    - [Threads] is db/mod.rs and db/txn.rs once more, with the WAL mutex and the
      publish lock as part of the state and the methods cut where another
      thread can run: at every lock operation, cache access and system call of a
      checkpoint; sealing the pages of a commit, logging them and publishing
      each of them are steps of their own.  [tstep] is one step of one thread, [csteps] a run of a
      process with any number of threads, crashes, kills and reopenings.
    - [Conformance] is tests/format_compat.rs: the programs that write and read
      the format fixture of the repository, run against its bytes.
    - [UnitTests], [StorageTests], [PoolTests] and [DbTests] are the test modules
      in the source files, each test a program over the operations above with
      the name it has there: the formats; the disk manager, the log and
      recovery; the buffer pool; the database and its transactions.

    ** What is proved

    - Formats: records, pages and the file header decode to what was encoded,
      decoding accepts only canonical encodings and rejects damage of up to 32
      consecutive bits; the checksum implementations agree ([Checksum], [Page],
      [FileHeader], [WalRecord]).
    - The log: what a flush reported as durable survives any crash, an
      interrupted flush leaves a prefix of the batch in whatever order its blocks
      reached the disk, a reset happens or does not, opening accepts any bytes
      ([WalLog]).  Replay restores exactly the committed
      images and can be interrupted and repeated ([Recovery]).
    - The cache: frames and file together represent one map from page ids to
      pages, and each operation of the pool refines an operation on that map
      ([PoolCache], invariant [pool_inv]); the clock hand finds a frame whenever
      one is unpinned ([BufferPool]).
    - The cache under concurrency: [PoolLocks] says which locks and frames a
      thread has at each place, [PoolSim] relates the shared pool to one map of
      pages (invariant [pinv]) and shows that each step of each thread keeps the
      relation.  [PoolShared] concludes: reads under a guard see the page last
      installed or written, a guarded page is stable, no step panics, a thread
      that has a shard's mutex never waits, and the locks do not deadlock, all
      of which buffer_pool.rs claims in its notes on lock order.  [PoolSolo]
      shows that the steps of a call, put together, are the method of
      [BufferPool], with the same result or error.  [PoolClients] is what threads
      can build on it: counters in pages, as in the stress tests of the source,
      lose no increment, and a flush that succeeds leaves the page in the
      file.
    - The database: [DbState] defines the abstract state (a page count and the
      pages), the invariant [db_inv] of an open handle, and what a crash leaves
      behind: [recovers], whatever it does to the unsynced bytes, and
      [recovers_checked], unless it forges a record of the log (see below).  [Checkpoint], [Commit], [Reopen] and [Transactions]
      show that each operation keeps the invariant and does what it should on
      every branch, errors and crashes included.  [Restart] does so for a
      process that was killed while the machine ran on.  [PageStore] is the interface
      between transactions and the committed pages, with one instance for the
      sequential and one for the concurrent model.
    - [System] composes them: runs with operations, failing calls, crashes,
      kills and reopenings refine an abstract machine with atomic durable
      transactions, which gives up ([SLost]) after the two events named below and
      only then.  [Guarantees] states this and what a client of one thread relies
      on.
    - [Concurrent] is the abstract machine for threads (one writer, many
      readers, a commit is one instant without open readers) and the relation
      to the threads' state; [Serial] shows that every step of every thread is a
      step of that machine.  [Isolation] draws the conclusions: serializability,
      snapshot reads, mutual exclusion, no deadlock, termination of calls, no
      failure without an I/O error or a page that does not verify.  Where the
      committed state matters they are about runs that are [covered]: no thread
      goes on, after a commit or checkpoint failed, past a poison check it had
      made before, a condition [Races] shows to be needed, and neither of the two
      events below occurs.  [Clients] derives
      that a relation between pages which every committed transaction keeps
      holds in what every reader sees, with the transfers of the stress test
      in db/txn.rs as an instance; [LogSize] that automatic checkpoints bound the
      log.  [Solo] shows that the steps of a commit or
      checkpoint, put together, are the method of [Database].
    - [Races] holds executions in which the code loses atomicity, outside the
      conditions of the theorems: a checkpoint or a reader that had passed the
      poison check when a commit failed, a log replayed before it was synced,
      and a crash while the database is created.
    - As a validation of the model, the tests of the repository pass on it:
      those of the formats on every processor ([UnitTests]), mostly by the
      theorems; the others ([DbTests], [component_tests_pass], and the format
      fixture in [Conformance]) by running them on one processor and one order
      of hash maps.

    ** Assumptions and bounds

    - Machine integers are [Z] with wrap-around written out (release profile).
      Of the two debug assertions, the one in [Shard::unpin] panics in the model
      ([release_pin]), so that the theorems on panics cover it; the one in
      [WalRecord::encode], on the length of what was written, is the lemma
      [length_record_bytes].
    - fsync: when it returns, what was written is durable; when it fails, the
      writes stay pending and may be lost or applied.  Unsynced writes survive a
      crash independently of one another.  A write across device sectors can be
      torn: any of its bytes may be there without any other, and where it extends
      the file it may end anywhere, with zeros where a block is missing.  A write
      within one 512-byte sector is atomic.
    - A checksum of 32 bits cannot tell every mixture of old and new blocks from
      a record.  [genuine_log] says of a reboot that it did not leave bytes in the
      log that verify as a record and are neither the synced nor the written ones
      at that place.  Theorems on a crash in the middle of a flush assume it;
      runs contain the reboots where it fails as the events [EvForged] and
      [CvForged], after which the abstract machines promise nothing.  Everything
      that was reported as durable needs no such assumption.
    - After a kill of the process the files are as the last call left them;
      after a stop of the machine the unsynced part may be lost.  Runs contain
      both, in any order.  If the machine stops when an open after a kill has
      itself failed or been killed (state [Reviving], events [EvStopReviving] and
      [CvStopReviving]), the abstract machines promise nothing: that open replays
      a log which may never have been synced, and [Races] has the execution in
      which half a transaction remains.
    - The loop that reads the log has fuel one more than the length of the
      file, and each record it consumes is at least a header long; [find_victim]
      runs twice the number of frames, as the code does.  [run_alone] in [Solo]
      is shown to reach its end for all fuel above some bound.
    - [Threads] takes a call on the pool as one step.  [PoolShared] justifies
      this: the calls of [PoolThreads] take effect one at a time.  The pages
      clients leave there are assumed to verify once sealed, not to be sealed;
      the database itself only installs sealed pages.
    - std's locks are modelled without fairness: it is proved that some thread
      can go on, not that each eventually does.
    - Logging a commit is one step, since only the holder of the WAL lock
      touches the log, and so is a write transaction's read of a page, whose
      pin is released before the call returns.
    - Fewer than 2^32 handles bound the pin counts, which are [u32].
    - [solo] in [PoolSolo] runs six steps, the most a call takes.
    - Two tests of db/txn.rs take the number of their rounds as an argument and
      run with 17 instead of 100 and 200: one page more than the pool has frames,
      and enough commits for an automatic checkpoint.

    ** Not modelled

    Every function of the library is modelled except [Debug] output.  Left out
    are module roots and re-exports (lib.rs, storage/mod.rs, storage/wal/mod.rs),
    which hold no code; the benchmarks; of the unit tests, the loops of those
    with threads, whose assertions are theorems on every interleaving
    ([increments_are_not_lost], [readers_see_whole_transfers]), and
    [pages_spread_across_shards], whose 512 pages are too many to evaluate in the
    kernel; the integration tests other than the format fixture, which kill
    processes and damage files at random to look for what the theorems exclude
    for every input; and the poisoning of std locks by a panicking thread:
    [no_operation_panics], [threads_fail_only_by_io] and
    [pool_steps_never_panic] show that the library itself does not panic. *)

From stdpp Require Export base gmap strings list pretty.
From coqutil Require Export Byte Word.LittleEndianList.

(** The notations of the development live in their own scope. *)
Declare Scope oxen_scope.
Delimit Scope oxen_scope with oxen.

(** The rewriting and resolution databases every component extends:
    [oxen_len] computes lengths of byte strings, [oxen] holds the
    well-formedness facts that components promise to each other. *)
Create HintDb oxen.
Create Rewrite HintDb oxen_len.

(** ** Machine integers

    A Rust [u8], [u32] or [u64] is a [Z] together with a range; arithmetic
    is written with its wrap-around (the release-profile semantics). *)

Definition u8_range (z : Z) : Prop := (0 ≤ z < 2 ^ 8)%Z.
Definition u32_range (z : Z) : Prop := (0 ≤ z < 2 ^ 32)%Z.
Definition u64_range (z : Z) : Prop := (0 ≤ z < 2 ^ 64)%Z.

Definition wrap_u32 (z : Z) : Z := (z `mod` 2 ^ 32)%Z.
Definition wrap_u64 (z : Z) : Z := (z `mod` 2 ^ 64)%Z.

Definition u64_add (a b : Z) : Z := wrap_u64 (a + b).
Definition u64_mul (a b : Z) : Z := wrap_u64 (a * b).

Lemma wrap_u64_range z : u64_range (wrap_u64 z).
Proof. unfold u64_range, wrap_u64. apply Z.mod_pos_bound. done. Qed.

Lemma wrap_u32_range z : u32_range (wrap_u32 z).
Proof. unfold u32_range, wrap_u32. apply Z.mod_pos_bound. done. Qed.

Lemma wrap_u64_id z : u64_range z → wrap_u64 z = z.
Proof. intros. by apply Z.mod_small. Qed.

Lemma wrap_u32_id z : u32_range z → wrap_u32 z = z.
Proof. intros. by apply Z.mod_small. Qed.

#[export] Hint Resolve wrap_u64_range wrap_u32_range : oxen.

(** ** Bytes and byte strings *)

Abbreviation byte := Init.Byte.byte.
Abbreviation bytes := (list Init.Byte.byte).

#[global] Instance byte_eq_dec : EqDecision byte.
Proof.
  intros x y.
  destruct (Byte.byte_eq_dec x y); [by left | by right].
Defined.

(** [v.to_le_bytes()] and [T::from_le_bytes(b)] for the integer widths of
    the on-disk formats. *)
Definition u32_to_le_bytes (v : Z) : bytes := le_split 4 v.
Definition u64_to_le_bytes (v : Z) : bytes := le_split 8 v.
Definition from_le_bytes (b : bytes) : Z := le_combine b.

Lemma from_to_le_u32 v : u32_range v → from_le_bytes (u32_to_le_bytes v) = v.
Proof.
  intros. unfold from_le_bytes, u32_to_le_bytes.
  rewrite le_combine_split. by apply Z.mod_small.
Qed.

Lemma from_to_le_u64 v : u64_range v → from_le_bytes (u64_to_le_bytes v) = v.
Proof.
  intros. unfold from_le_bytes, u64_to_le_bytes.
  rewrite le_combine_split. by apply Z.mod_small.
Qed.

Lemma u64_to_le_bytes_wrap v : u64_to_le_bytes (wrap_u64 v) = u64_to_le_bytes v.
Proof.
  unfold u64_to_le_bytes, wrap_u64.
  rewrite <- (split_le_combine' (le_split 8 v) 8) by apply length_le_split.
  by rewrite le_combine_split.
Qed.

Lemma to_from_le_u32 b : length b = 4 → u32_to_le_bytes (from_le_bytes b) = b.
Proof. apply split_le_combine'. Qed.

Lemma to_from_le_u64 b : length b = 8 → u64_to_le_bytes (from_le_bytes b) = b.
Proof. apply split_le_combine'. Qed.

Lemma from_le_bytes_u32_range b : length b = 4 → u32_range (from_le_bytes b).
Proof. intros H. pose proof (le_combine_bound b) as B. rewrite H in B. exact B. Qed.

Lemma from_le_bytes_u64_range b : length b = 8 → u64_range (from_le_bytes b).
Proof. intros H. pose proof (le_combine_bound b) as B. rewrite H in B. exact B. Qed.

Lemma length_u32_to_le_bytes v : length (u32_to_le_bytes v) = 4.
Proof. apply length_le_split. Qed.

Lemma length_u64_to_le_bytes v : length (u64_to_le_bytes v) = 8.
Proof. apply length_le_split. Qed.

#[global] Opaque u32_to_le_bytes u64_to_le_bytes from_le_bytes.

(** [n] zero bytes. *)
Definition zeros (n : nat) : bytes := replicate n Byte.x00.

(** [&b[lo..hi]]: the slice of a byte string. *)
Definition slice (lo hi : nat) (b : bytes) : bytes := take (hi - lo) (drop lo b).

(** [b[at..at + src.len()].copy_from_slice(src)]. *)
Definition splice (lo : nat) (src b : bytes) : bytes :=
  take lo b ++ src ++ drop (lo + length src) b.

Lemma length_zeros n : length (zeros n) = n.
Proof. apply length_replicate. Qed.

Lemma length_slice lo hi b : length (slice lo hi b) = Nat.min (hi - lo) (length b - lo).
Proof. unfold slice. by rewrite length_take, length_drop. Qed.

Lemma length_splice lo src b :
  lo + length src ≤ length b → length (splice lo src b) = length b.
Proof.
  intros. unfold splice. rewrite !length_app, length_take, length_drop. lia.
Qed.

Lemma length_cons {A} (x : A) l : length (x :: l) = S (length l).
Proof. done. Qed.

Lemma length_nil {A} : length (@nil A) = 0.
Proof. done. Qed.

#[export] Hint Rewrite @length_cons @length_nil length_zeros length_slice @length_app @length_take @length_drop
  length_u32_to_le_bytes length_u64_to_le_bytes @length_replicate : oxen_len.
#[export] Hint Rewrite length_splice using lia : oxen_len.

(** [len] normalises every length in sight and closes the goal with [lia]. *)
Ltac len := autorewrite with oxen_len in *; try lia.

Section Slices.
Implicit Types b src : bytes.

Lemma slice_all b : slice 0 (length b) b = b.
Proof. unfold slice. rewrite drop_0. apply take_ge. lia. Qed.

Lemma slice_app_l lo hi b1 b2 : hi ≤ length b1 → slice lo hi (b1 ++ b2) = slice lo hi b1.
Proof.
  intros. unfold slice. destruct (decide (lo ≤ hi)).
  - rewrite drop_app_le by lia. apply take_app_le. len.
  - replace (hi - lo) with 0 by lia. done.
Qed.

Lemma slice_app_r lo hi b1 b2 :
  length b1 ≤ lo → slice lo hi (b1 ++ b2) = slice (lo - length b1) (hi - length b1) b2.
Proof.
  intros. unfold slice. rewrite drop_app_ge by lia. f_equal. lia.
Qed.

(** A slice that a shortened byte string still has in full. *)
Lemma slice_take_full lo hi n b :
  length (slice lo hi (take n b)) = hi - lo → slice lo hi (take n b) = slice lo hi b.
Proof.
  unfold slice. rewrite skipn_firstn_comm, take_take, length_take, length_drop. intros Hl.
  destruct (decide (hi - lo = 0)) as [->|]; [done|]. f_equal. lia.
Qed.

Lemma slice_splice_same lo hi src b :
  hi = lo + length src → lo ≤ length b → slice lo hi (splice lo src b) = src.
Proof.
  intros -> ?. unfold slice, splice.
  rewrite drop_app_ge by len.
  replace (lo - length (take lo b)) with 0 by len.
  rewrite drop_0. rewrite take_app_le by lia. apply take_ge. lia.
Qed.

Lemma lookup_splice_ne lo src b i :
  lo + length src ≤ length b → (i < lo ∨ lo + length src ≤ i) →
  splice lo src b !! i = b !! i.
Proof.
  intros ? Hi. unfold splice. destruct Hi.
  - rewrite lookup_app_l by len. by rewrite lookup_take_lt.
  - rewrite lookup_app_r by len. rewrite lookup_app_r by len.
    rewrite lookup_drop. f_equal. len.
Qed.

Lemma lookup_splice_eq lo src b i :
  lo ≤ length b → lo ≤ i < lo + length src → splice lo src b !! i = src !! (i - lo).
Proof.
  intros ??. unfold splice.
  rewrite lookup_app_r by len. rewrite lookup_app_l by len.
  f_equal. len.
Qed.

Lemma lookup_slice lo hi b i :
  i < hi - lo → slice lo hi b !! i = b !! (lo + i).
Proof. intros. unfold slice. rewrite lookup_take_lt by done. apply lookup_drop. Qed.

Lemma slice_splice_ne lo hi at_ src b :
  at_ + length src ≤ length b → (hi ≤ at_ ∨ at_ + length src ≤ lo) →
  slice lo hi (splice at_ src b) = slice lo hi b.
Proof.
  intros ? Hd. apply list_eq. intros i.
  destruct (decide (i < hi - lo)) as [Hi|Hi].
  - rewrite !lookup_slice by done. apply lookup_splice_ne; [done|].
    destruct Hd; lia.
  - rewrite !lookup_ge_None_2 by len. done.
Qed.

Lemma slice_slice lo hi lo' hi' b :
  hi' ≤ hi - lo → slice lo' hi' (slice lo hi b) = slice (lo + lo') (lo + hi') b.
Proof.
  intros. unfold slice. rewrite skipn_firstn_comm, take_take, drop_drop.
  f_equal. lia.
Qed.

Lemma slice_cat lo mid hi b :
  lo ≤ mid → mid ≤ hi → slice lo mid b ++ slice mid hi b = slice lo hi b.
Proof.
  intros. unfold slice.
  replace (hi - lo) with ((mid - lo) + (hi - mid)) by lia.
  rewrite <- take_take_drop, drop_drop. repeat f_equal. lia.
Qed.

Lemma splice_slice lo hi b : hi ≤ length b → lo ≤ hi → splice lo (slice lo hi b) b = b.
Proof.
  intros. unfold splice, slice. len.
  replace (lo + (hi - lo) `min` (length b - lo)) with (lo + (hi - lo)) by lia.
  rewrite <- drop_drop, take_drop. apply take_drop.
Qed.

(** Overwriting the middle of three parts. *)
Lemma splice_middle lo src a x c :
  lo = length a → length src = length x → splice lo src (a ++ x ++ c) = a ++ src ++ c.
Proof.
  intros -> Hs. unfold splice. rewrite take_app_length. do 2 f_equal.
  rewrite app_assoc. apply drop_app_length'. rewrite length_app. lia.
Qed.

Lemma splice_nil lo b : splice lo [] b = b.
Proof. unfold splice. rewrite Nat.add_0_r. apply take_drop. Qed.

End Slices.

(** ** Results and effects

    [result E A] is Rust's [Result<A, E>]; the pure decoders of the program
    return it directly, and [x ← r; k] in that monad is the [?] operator. *)

Inductive result (E A : Type) : Type :=
  | Ok (a : A)
  | Err (e : E).
Arguments Ok {E A} a.
Arguments Err {E A} e.

#[global] Instance result_ret {E} : MRet (result E) := λ A, Ok.
#[global] Instance result_bind {E} : MBind (result E) := λ A B f r,
  match r with Ok a => f a | Err e => Err e end.

(** [r.map_err(f)]. *)
Definition map_err {E E' A} (f : E → E') (r : result E A) : result E' A :=
  match r with Ok a => Ok a | Err e => Err (f e) end.

Definition is_ok {E A} (r : result E A) : bool :=
  match r with Ok _ => true | Err _ => false end.

Definition is_err {E A} (r : result E A) : bool := negb (is_ok r).

(** Effectful code runs on a state [S].  A computation finishes with a
    value, panics (the thread unwinds), or is cut short by a crash of the
    machine; the state it leaves behind is kept in every case. *)

Inductive exec (A : Type) : Type :=
  | Done (a : A)
  | Panicked
  | Crashed.
Arguments Done {A} a.
Arguments Panicked {A}.
Arguments Crashed {A}.

Definition M (S A : Type) : Type := S → exec A * S.

Definition ret {S A} (a : A) : M S A := λ s, (Done a, s).

Definition bind {S A B} (m : M S A) (k : A → M S B) : M S B := λ s,
  match m s with
  | (Done a, s') => k a s'
  | (Panicked, s') => (Panicked, s')
  | (Crashed, s') => (Crashed, s')
  end.

Definition panic {S A} : M S A := λ s, (Panicked, s).

Definition get {S} : M S S := λ s, (Done s, s).
Definition gets {S A} (f : S → A) : M S A := λ s, (Done (f s), s).
Definition modify {S} (f : S → S) : M S unit := λ s, (Done tt, f s).

(** Runs a computation on a component [T] of the state [S]. *)
Definition zoom {S T A} (view : S → T) (upd : T → S → S) (m : M T A) : M S A := λ s,
  let '(r, t) := m (view s) in (r, upd t s).

(** The [?] operator inside effectful code: an [Err] returns early. *)
Definition bind_ok {S E A B} (m : M S (result E A)) (k : A → M S (result E B)) :
    M S (result E B) :=
  bind m (λ r, match r with Ok a => k a | Err e => ret (Err e) end).

Notation "'let!' x := m 'in' k" := (bind m (λ x, k))
  (at level 10, x binder, m at level 200, k at level 200,
   format "'[v' 'let!'  x  :=  m  'in' '/' k ']'") : oxen_scope.
Notation "'let?' x := m 'in' k" := (bind_ok m (λ x, k))
  (at level 10, x binder, m at level 200, k at level 200,
   format "'[v' 'let?'  x  :=  m  'in' '/' k ']'") : oxen_scope.
Open Scope oxen_scope.

(** Runs a pure [Result] as a computation. *)
Definition lift {S E A} (r : result E A) : M S (result E A) := ret r.

(** [for x in xs { body(x)?; }]. *)
Fixpoint for_each {S E A} (body : A → M S (result E unit)) (xs : list A) :
    M S (result E unit) :=
  match xs with
  | [] => ret (Ok tt)
  | x :: xs => let? _ := body x in for_each body xs
  end.

Section MonadLaws.
Context {S : Type}.

Lemma bind_ret {A B} (a : A) (k : A → M S B) s : bind (ret a) k s = k a s.
Proof. done. Qed.

Lemma bind_Done {A B} (m : M S A) (k : A → M S B) s a s' :
  m s = (Done a, s') → bind m k s = k a s'.
Proof. intros H. unfold bind. by rewrite H. Qed.

Lemma bind_ok_Ok {E A B} (m : M S (result E A)) (k : A → M S (result E B)) s a s' :
  m s = (Done (Ok a), s') → bind_ok m k s = k a s'.
Proof. intros H. unfold bind_ok, bind. by rewrite H. Qed.

Lemma bind_ok_Err {E A B} (m : M S (result E A)) (k : A → M S (result E B)) s e s' :
  m s = (Done (Err e), s') → bind_ok m k s = (Done (Err e), s').
Proof. intros H. unfold bind_ok, bind. by rewrite H. Qed.

(** A finished sequence finished both halves. *)
Lemma bind_Done_inv {A B} (m : M S A) (k : A → M S B) s b s' :
  bind m k s = (Done b, s') → ∃ a s1, m s = (Done a, s1) ∧ k a s1 = (Done b, s').
Proof. unfold bind. destruct (m s) as [[a| |] s1]; naive_solver. Qed.

Lemma bind_ok_inv {E A B} (m : M S (result E A)) (k : A → M S (result E B)) s b s' :
  bind_ok m k s = (Done (Ok b), s') →
  ∃ a s1, m s = (Done (Ok a), s1) ∧ k a s1 = (Done (Ok b), s').
Proof.
  unfold bind_ok. intros ([a|e] & s1 & Hm & Hk)%bind_Done_inv; [eauto|done].
Qed.

End MonadLaws.

(** ** Computations up to pointwise equality *)

Definition meq {S A} (m m' : M S A) : Prop := ∀ s, m s = m' s.

#[global] Instance meq_equivalence {S A} : Equivalence (@meq S A).
Proof. split; [by intros m s|by intros m m' E s|intros m m' m'' E E' s; by rewrite E]. Qed.

Section Equations.
Context {S : Type}.

#[global] Instance bind_proper {A B} :
  Proper (meq ==> pointwise_relation A meq ==> meq) (@bind S A B).
Proof.
  intros m m' E k k' Ek s. unfold bind. rewrite (E s). destruct (m' s) as [[a| |] s']; [apply Ek|done..].
Qed.

#[global] Instance bind_ok_proper {E A B} :
  Proper (meq ==> pointwise_relation A meq ==> meq) (@bind_ok S E A B).
Proof. intros m m' Em k k' Ek. apply bind_proper; [done|]. intros [a|e]; [apply Ek|reflexivity]. Qed.

Lemma bind_assoc {A B C} (m : M S A) (k : A → M S B) (k' : B → M S C) :
  meq (bind (bind m k) k') (let! x := m in bind (k x) k').
Proof. intros s. unfold bind. by destruct (m s) as [[]]. Qed.

Lemma bind_ok_assoc {E A B C} (m : M S (result E A)) (k : A → M S (result E B))
    (k' : B → M S (result E C)) :
  meq (bind_ok (bind_ok m k) k') (let? x := m in bind_ok (k x) k').
Proof. intros s. unfold bind_ok, bind. by destruct (m s) as [[[]| |]]. Qed.

Lemma for_each_proper {E A} (f g : A → M S (result E unit)) xs :
  (∀ x, meq (f x) (g x)) → meq (for_each f xs) (for_each g xs).
Proof.
  intros Hfg. induction xs as [|x xs IH]; [reflexivity|]. simpl. apply bind_ok_proper; [apply Hfg|by intros []].
Qed.

End Equations.

(** A way to run computations of one state in another that keeps their
    structure. *)
Class MonadMap {T S} (F : ∀ A, M T A → M S A) : Prop := {
  mm_ret : ∀ A (a : A), meq (F A (ret a)) (ret a);
  mm_bind : ∀ A B (m : M T A) (k : A → M T B), meq (F B (bind m k)) (bind (F A m) (λ x, F B (k x)));
}.

Section Maps.
Context {T S : Type} (F : ∀ A, M T A → M S A) `{!MonadMap F}.

Lemma mm_bind_ok {E A B} (m : M T (result E A)) (k : A → M T (result E B)) :
  meq (F _ (bind_ok m k)) (bind_ok (F _ m) (λ x, F _ (k x))).
Proof.
  unfold bind_ok. rewrite mm_bind. apply bind_proper; [reflexivity|].
  intros [a|e]; [reflexivity|apply mm_ret].
Qed.

Lemma mm_for_each {E A} (body : A → M T (result E unit)) xs :
  meq (F _ (for_each body xs)) (for_each (λ x, F _ (body x)) xs).
Proof.
  induction xs as [|x xs IH]; simpl; [apply mm_ret|].
  rewrite mm_bind_ok. apply bind_ok_proper; [reflexivity|by intros []].
Qed.

End Maps.

(** ** Crash Hoare logic

    [wp m Q C s]: run from [s], the computation [m] does not panic; if it
    finishes, [Q] holds of the value and the state, and if the machine
    crashes meanwhile, [C] holds of the state left behind. *)

Definition wp {S A} (m : M S A) (Q : A → S → Prop) (C : S → Prop) (s : S) : Prop :=
  match m s with
  | (Done a, s') => Q a s'
  | (Panicked, _) => False
  | (Crashed, s') => C s'
  end.

Section Wp.
Context {S : Type}.

Lemma wp_ret {A} (a : A) Q C (s : S) : Q a s → wp (ret a) Q C s.
Proof. done. Qed.

Lemma wp_bind {A B} (m : M S A) (k : A → M S B) Q C s :
  wp m (λ a, wp (k a) Q C) C s → wp (bind m k) Q C s.
Proof. unfold wp, bind. by destruct (m s) as [[] ?]. Qed.

Lemma wp_mono {A} (m : M S A) (Q Q' : A → S → Prop) (C C' : S → Prop) s :
  wp m Q C s → (∀ a s', Q a s' → Q' a s') → (∀ s', C s' → C' s') → wp m Q' C' s.
Proof. unfold wp. destruct (m s) as [[] ?]; naive_solver. Qed.

Lemma wp_bind_ok {E A B} (m : M S (result E A)) (k : A → M S (result E B)) Q C s :
  wp m (λ r s', match r with Ok a => wp (k a) Q C s' | Err e => Q (Err e) s' end) C s →
  wp (bind_ok m k) Q C s.
Proof.
  intros H. apply wp_bind. eapply wp_mono; [exact H| |done].
  intros [a|e] s' Hr; [done|by apply wp_ret].
Qed.

Lemma wp_get Q C (s : S) : Q s s → wp get Q C s.
Proof. done. Qed.

Lemma wp_gets {A} (f : S → A) Q C (s : S) : Q (f s) s → wp (gets f) Q C s.
Proof. done. Qed.

Lemma wp_modify f Q C (s : S) : Q tt (f s) → wp (modify f) Q C s.
Proof. done. Qed.

Lemma wp_zoom {T A} (view : S → T) (upd : T → S → S) (m : M T A) Q C s :
  wp m (λ a t, Q a (upd t s)) (λ t, C (upd t s)) (view s) → wp (zoom view upd m) Q C s.
Proof. unfold wp, zoom. by destruct (m (view s)) as [[] ?]. Qed.

(** A loop with early return keeps an invariant indexed by what is left. *)
Lemma wp_for_each {E A} (body : A → M S (result E unit)) (I : list A → S → Prop)
    (Q : result E unit → S → Prop) C xs s :
  I xs s →
  (∀ x xs s, I (x :: xs) s →
     wp (body x) (λ r s', match r with Ok _ => I xs s' | Err e => Q (Err e) s' end) C s) →
  (∀ s, I [] s → Q (Ok tt) s) →
  wp (for_each body xs) Q C s.
Proof.
  intros HI Hbody Hend. revert s HI. induction xs as [|x xs IH]; intros s HI; simpl.
  - apply wp_ret. auto.
  - apply wp_bind_ok. eapply wp_mono; [by apply Hbody| |done].
    intros [[]|e] s' Hr; [by apply IH|done].
Qed.

(** What [wp] says about a run. *)
Lemma wp_Done {A} (m : M S A) Q C s a s' : wp m Q C s → m s = (Done a, s') → Q a s'.
Proof. unfold wp. intros H E. by rewrite E in H. Qed.

Lemma wp_Crashed {A} (m : M S A) Q C s s' : wp m Q C s → m s = (Crashed, s') → C s'.
Proof. unfold wp. intros H E. by rewrite E in H. Qed.

Lemma wp_intro {A} (m : M S A) (Q : A → S → Prop) (C : S → Prop) s :
  (∀ a s', m s = (Done a, s') → Q a s') → (∀ s', m s = (Crashed, s') → C s') →
  (∀ s', m s ≠ (Panicked, s')) → wp m Q C s.
Proof. unfold wp. destruct (m s) as [[] ?] eqn:E; naive_solver. Qed.

End Wp.

(** [wp_step] applies the rule for the head of a computation. *)
Ltac wp_step :=
  lazymatch goal with
  | |- wp (bind _ _) _ _ _ => apply wp_bind
  | |- wp (bind_ok _ _) _ _ _ => apply wp_bind_ok
  | |- wp (ret _) _ _ _ => apply wp_ret
  | |- wp (lift _) _ _ _ => apply wp_ret
  | |- wp get _ _ _ => apply wp_get
  | |- wp (gets _) _ _ _ => apply wp_gets
  | |- wp (modify _) _ _ _ => apply wp_modify
  | |- wp (zoom _ _ _) _ _ _ => apply wp_zoom
  | |- wp (match ?x with _ => _ end) _ _ _ => destruct x eqn:?
  end.

(** ** Partial correctness

    What holds of a computation that may also panic or crash. *)

(** [returns m Q s]: if [m] returns, it does so in [Q]. *)
Definition returns {S A} (m : M S A) (Q : A → S → Prop) (s : S) : Prop :=
  ∀ a s', m s = (Done a, s') → Q a s'.

Lemma returns_ret {S A} (a : A) Q (s : S) : Q a s → returns (ret a) Q s.
Proof. intros HQ a' s' [= <- <-]. done. Qed.

Lemma returns_gets {S A} (f : S → A) Q s : Q (f s) s → returns (gets f) Q s.
Proof. intros HQ a' s' [= <- <-]. done. Qed.

Lemma returns_modify {S} (f : S → S) Q s : Q tt (f s) → returns (modify f) Q s.
Proof. intros HQ a' s' [= <- <-]. done. Qed.

Lemma returns_bind {S A B} (m : M S A) (k : A → M S B) Q s :
  returns m (λ a s', returns (k a) Q s') s → returns (bind m k) Q s.
Proof.
  intros Hm b s'. unfold bind. destruct (m s) as [[a| |] s1] eqn:E; intros Eb; try done.
  by apply (Hm a s1 E).
Qed.

Lemma returns_bind_ok {S E A B} (m : M S (result E A)) (k : A → M S (result E B)) Q s :
  returns m (λ r s', match r with Ok a => returns (k a) Q s' | Err e => Q (Err e) s' end) s →
  returns (bind_ok m k) Q s.
Proof.
  intros Hm. apply returns_bind. intros [a|e] s' Es; [exact (Hm _ _ Es)|].
  apply returns_ret. exact (Hm _ _ Es).
Qed.

Lemma returns_always {S A} (m : M S A) (Q : A → S → Prop) s : (∀ a s', Q a s') → returns m Q s.
Proof. intros HQ a s' _. apply HQ. Qed.

Lemma returns_mono {S A} (m : M S A) (Q Q' : A → S → Prop) s :
  returns m Q s → (∀ a s', Q a s' → Q' a s') → returns m Q' s.
Proof. intros HQ HQ' a s' E. by apply HQ', HQ. Qed.
