(* ===== verification/Errors.v ===== *)
(** * Errors (src/crates/oxendb/src/error.rs)

    The error type shared by every component, with the messages the code
    formats, and its [Display] implementation. *)

From S2P Require Import Prelude.

Local Open Scope string_scope.

(** The failures of [std::io] the program can meet: the kinds it produces
    itself through the standard library, and any other error of the
    operating system by number. *)
Inductive IoError : Type :=
  | NotFound
  | AlreadyExists
  | UnexpectedEof
  | Os (code : Z).

Definition io_error_to_string (e : IoError) : string :=
  match e with
  | NotFound => "No such file or directory (os error 2)"
  | AlreadyExists => "File exists (os error 17)"
  | UnexpectedEof => "failed to fill whole buffer"
  | Os code => "os error " +:+ pretty code
  end.

(** [enum Error]. *)
Inductive Error : Type :=
  | Io (err : IoError)
  | Corruption (msg : string)
  | UnsupportedFormat (msg : string)
  | InvalidArgument (msg : string)
  | ResourceExhausted (msg : string)
  | Poisoned (msg : string).

(** [Error::corruption]. *)
Definition corruption (msg : string) : Error := Corruption msg.

(** [impl Display for Error]. *)
Definition error_to_string (e : Error) : string :=
  match e with
  | Io err => "I/O error: " +:+ io_error_to_string err
  | Corruption msg => "data corruption detected: " +:+ msg
  | UnsupportedFormat msg => "unsupported file format: " +:+ msg
  | InvalidArgument msg => "invalid argument: " +:+ msg
  | ResourceExhausted msg => "resource exhausted: " +:+ msg
  | Poisoned msg => "unusable after earlier failure: " +:+ msg
  end.

(** [std::error::Error::source]: only I/O errors carry a cause. *)
Definition error_source (e : Error) : option IoError :=
  match e with Io err => Some err | _ => None end.

(** [impl From<io::Error> for Error], which the [?] operator applies. *)
Definition from_io_error (err : IoError) : Error := Io err.

(** Rust's [Result<T>] of this crate. *)
Abbreviation Result := (result Error).

(** The two kinds of error that report bad on-disk data. *)
Definition is_corruption (e : Error) : bool :=
  match e with Corruption _ => true | _ => false end.
Definition is_invalid_argument (e : Error) : bool :=
  match e with InvalidArgument _ => true | _ => false end.
Definition is_poisoned (e : Error) : bool :=
  match e with Poisoned _ => true | _ => false end.

Definition is_resource_exhausted (e : Error) : bool :=
  match e with ResourceExhausted _ => true | _ => false end.

(** [{v:#010x}]: a [u32] as [0x] and eight lower-case hexadecimal digits. *)
Definition hex_digit (v : Z) : string :=
  match String.get (Z.to_nat (v `mod` 16)) "0123456789abcdef" with
  | Some c => String c EmptyString
  | None => EmptyString
  end.

Fixpoint hex_digits (n : nat) (v : Z) : string :=
  match n with
  | O => EmptyString
  | S n => hex_digits n (v `div` 16) +:+ hex_digit v
  end.

Definition hex_u32 (v : Z) : string := "0x" +:+ hex_digits 8 v.

Example hex_u32_poly : hex_u32 2197175160 = "0x82f63b78".
Proof. reflexivity. Qed.

Example display_includes_kind_and_detail :
  error_to_string (corruption "page 7 checksum mismatch") =
  "data corruption detected: page 7 checksum mismatch".
Proof. reflexivity. Qed.
