(* ===== verification/BTree.v ===== *)
(** * Ordered maps

    [std::collections::BTreeMap] keyed by page ids, as the recovery code and
    write transactions use it: an association list in key order, so that
    iteration visits pages in file order. *)

From S2P Require Import Prelude.
From Stdlib Require Import Sorted.

Section BTree.
Context {A : Type}.
Implicit Types m : list (Z * A).

Fixpoint bt_get (k : Z) m : option A :=
  match m with
  | [] => None
  | (k', v) :: m => if (k =? k')%Z then Some v else bt_get k m
  end.

Fixpoint bt_insert (k : Z) (v : A) m : list (Z * A) :=
  match m with
  | [] => [(k, v)]
  | (k', v') :: m' =>
      if (k <? k')%Z then (k, v) :: m
      else if (k =? k')%Z then (k, v) :: m'
      else (k', v') :: bt_insert k v m'
  end.

Definition bt_contains (k : Z) m : bool := bool_decide (is_Some (bt_get k m)).

(** [m.values_mut().for_each(f)], and the same with the key at hand. *)
Definition bt_map (f : Z → A → A) m : list (Z * A) := (λ kv, (kv.1, f kv.1 kv.2)) <$> m.

Definition bt_sorted m : Prop := StronglySorted (λ x y, (x.1 < y.1)%Z) m.

Lemma bt_get_insert k k' v m :
  bt_get k (bt_insert k' v m) = if (k =? k')%Z then Some v else bt_get k m.
Proof.
  induction m as [|[j u] m IH]; simpl; [done|].
  destruct (Z.ltb_spec k' j); simpl; [done|].
  destruct (Z.eqb_spec k' j) as [->|]; simpl.
  - by destruct (Z.eqb_spec k j).
  - rewrite IH. destruct (Z.eqb_spec k j), (Z.eqb_spec k k'); (done || lia).
Qed.

Lemma bt_get_insert_eq k v m : bt_get k (bt_insert k v m) = Some v.
Proof. by rewrite bt_get_insert, Z.eqb_refl. Qed.

Lemma bt_get_insert_ne k k' v m : k ≠ k' → bt_get k (bt_insert k' v m) = bt_get k m.
Proof. intros. rewrite bt_get_insert. by rewrite (proj2 (Z.eqb_neq k k')). Qed.

Lemma bt_insert_elem k v m x : x ∈ bt_insert k v m → x = (k, v) ∨ x ∈ m.
Proof.
  induction m as [|[j u] m IH]; simpl; [set_solver|].
  destruct (Z.ltb_spec k j); [set_solver|]. destruct (Z.eqb_spec k j); set_solver.
Qed.

Lemma bt_insert_sorted k v m : bt_sorted m → bt_sorted (bt_insert k v m).
Proof.
  unfold bt_sorted. induction 1 as [|[j u] m Hm IH Hj]; simpl; [repeat constructor|].
  destruct (Z.ltb_spec k j).
  - constructor; [by constructor|]. constructor; [done|].
    eapply Forall_impl; [exact Hj|]. simpl. lia.
  - destruct (Z.eqb_spec k j) as [->|]; constructor; try done.
    apply Forall_forall. intros x [->|Hx]%bt_insert_elem; simpl; [lia|].
    rewrite Forall_forall in Hj. by apply Hj.
Qed.

(** In a sorted map, membership and lookup agree. *)
Lemma bt_get_elem k v m : bt_get k m = Some v → (k, v) ∈ m.
Proof.
  induction m as [|[j u] m IH]; simpl; [done|].
  destruct (Z.eqb_spec k j) as [->|]; [intros [= ->]; constructor|].
  intros. constructor. auto.
Qed.

Lemma bt_elem_get k v m : bt_sorted m → (k, v) ∈ m → bt_get k m = Some v.
Proof.
  unfold bt_sorted. induction 1 as [|[j u] m Hm IH Hj]; [by intros ?%not_elem_of_nil|].
  intros [[= -> ->]|Hin]%elem_of_cons; simpl; [by rewrite Z.eqb_refl|].
  rewrite Forall_forall in Hj. specialize (Hj _ Hin). simpl in Hj.
  rewrite (proj2 (Z.eqb_neq k j)) by lia. by apply IH.
Qed.

Lemma bt_get_map f k m : bt_get k (bt_map f m) = f k <$> bt_get k m.
Proof.
  induction m as [|[j u] m IH]; simpl; [done|].
  destruct (Z.eqb_spec k j) as [->|]; [done|]. apply IH.
Qed.

Lemma bt_map_sorted f m : bt_sorted m → bt_sorted (bt_map f m).
Proof.
  unfold bt_sorted. induction 1 as [|[j u] m Hm IH Hj]; simpl; constructor; [done|].
  by apply Forall_fmap.
Qed.

Lemma bt_sorted_NoDup m : bt_sorted m → NoDup m.*1.
Proof.
  unfold bt_sorted. induction 1 as [|[j u] m Hm IH Hj]; simpl; constructor; [|done].
  intros ([j' u'] & E & Hin)%list_elem_of_fmap. simpl in E. subst.
  rewrite Forall_forall in Hj. specialize (Hj _ Hin). simpl in Hj. lia.
Qed.

End BTree.

#[export] Hint Resolve bt_insert_sorted bt_map_sorted : oxen.
