(* ===== verification/Checksum.v ===== *)
(** * CRC32C (src/crates/oxendb/src/storage/checksum/)

    The slicing-by-8 and the hardware implementations of the Castagnoli
    checksum, the table construction they rely on, and the incremental
    hasher.  All of them are shown equal to one closed form, polynomial
    division of the message read as a little-endian integer, from which the
    error-detection properties follow. *)

From S2P Require Import Prelude.

Local Open Scope Z_scope.

(** ** Portable implementation (checksum/mod.rs) *)

(** Reflected CRC32C polynomial. *)
Definition POLY : Z := 0x82F63B78.

(** The body of the inner loop of [build_tables]: one bit of division. *)
Definition crc_bit (crc : Z) : Z :=
  if negb (Z.land crc 1 =? 0) then Z.lxor (Z.shiftr crc 1) POLY else Z.shiftr crc 1.

(** [while bit < n { crc = ... }]. *)
Definition crc_bits (n : nat) (crc : Z) : Z := Nat.iter n crc_bit crc.

Arguments crc_bits : simpl never.

(** Index [i] of table [k]; an array access, in range by construction. *)
Definition table_get (tables : list (list Z)) (k : nat) (i : Z) : Z :=
  default 0 (default [] (tables !! k) !! Z.to_nat i).

(** The first loop of [build_tables] fills [tables[0]]. *)
Definition build_table0 : list Z := crc_bits 8 <$> seqZ 0 256.

(** One iteration of the second loop: [tables[k]] from [tables[k - 1]]. *)
Definition build_next_table (table0 prev : list Z) : list Z :=
  (λ p, Z.lxor (Z.shiftr p 8) (default 0 (table0 !! Z.to_nat (Z.land p 0xFF)))) <$> prev.

Fixpoint build_tables_from (n : nat) (table0 prev : list Z) : list (list Z) :=
  match n with
  | O => []
  | S n => prev :: build_tables_from n table0 (build_next_table table0 prev)
  end.

Definition build_tables : list (list Z) := build_tables_from 8 build_table0 build_table0.

Definition TABLES : list (list Z) := build_tables.

(** Byte-at-a-time update. *)
Definition update_bytewise_step (crc : Z) (b : byte) : Z :=
  Z.lxor (table_get TABLES 0 (Z.land (Z.lxor crc (byte.unsigned b)) 0xFF)) (Z.shiftr crc 8).

Definition update_bytewise (crc : Z) (bs : bytes) : Z := foldl update_bytewise_step crc bs.

(** One chunk of the slicing-by-8 loop, on its two little-endian halves. *)
Definition slice8_step (crc : Z) (w0 w1 : bytes) : Z :=
  let lo := Z.lxor (from_le_bytes w0) crc in
  let hi := from_le_bytes w1 in
  Z.lxor (Z.lxor (Z.lxor (Z.lxor (Z.lxor (Z.lxor (Z.lxor
    (table_get TABLES 7 (Z.land lo 0xFF))
    (table_get TABLES 6 (Z.land (Z.shiftr lo 8) 0xFF)))
    (table_get TABLES 5 (Z.land (Z.shiftr lo 16) 0xFF)))
    (table_get TABLES 4 (Z.shiftr lo 24)))
    (table_get TABLES 3 (Z.land hi 0xFF)))
    (table_get TABLES 2 (Z.land (Z.shiftr hi 8) 0xFF)))
    (table_get TABLES 1 (Z.land (Z.shiftr hi 16) 0xFF)))
    (table_get TABLES 0 (Z.shiftr hi 24)).

(** [bytes.chunks_exact(8)]: the loop over whole chunks, then the tail. *)
Fixpoint update_slice8 (crc : Z) (bs : bytes) {struct bs} : Z :=
  match bs with
  | b0 :: b1 :: b2 :: b3 :: b4 :: b5 :: b6 :: b7 :: rest =>
      update_slice8 (slice8_step crc [b0; b1; b2; b3] [b4; b5; b6; b7]) rest
  | remainder => update_bytewise crc remainder
  end.

(** ** Hardware instructions (checksum/hw.rs)

    The intrinsics of [std::arch] by their architecture manuals: [__crc32cb]
    and [_mm_crc32_u8] divide one byte, [__crc32cd] and [_mm_crc32_u64]
    divide a 64-bit word, in the bit-reflected order; the x86-64 word form
    reads the low half of its 64-bit accumulator and zero-extends. *)
Module Intrinsics.
Definition __crc32cb (crc : Z) (b : byte) : Z := crc_bits 8 (Z.lxor crc (byte.unsigned b)).
Definition __crc32cd (crc word : Z) : Z := crc_bits 64 (Z.lxor crc word).
Definition _mm_crc32_u8 (crc : Z) (b : byte) : Z := crc_bits 8 (Z.lxor crc (byte.unsigned b)).
Definition _mm_crc32_u64 (crc word : Z) : Z := crc_bits 64 (Z.lxor (wrap_u32 crc) word).
End Intrinsics.

(** The target the crate is compiled for and what the CPU reports. *)
Inductive target_arch : Type := Aarch64 | X86_64 | OtherArch.

Class Cpu : Type := {
  cpu_arch : target_arch;
  cpu_feature_detected : bool;
}.

Fixpoint update_aarch64 (crc : Z) (bs : bytes) {struct bs} : Z :=
  match bs with
  | b0 :: b1 :: b2 :: b3 :: b4 :: b5 :: b6 :: b7 :: rest =>
      update_aarch64
        (Intrinsics.__crc32cd crc (from_le_bytes [b0; b1; b2; b3; b4; b5; b6; b7])) rest
  | remainder => foldl Intrinsics.__crc32cb crc remainder
  end.

(** The word loop keeps a 64-bit accumulator; the tail loop truncates it. *)
Fixpoint update_x86_64 (crc : Z) (bs : bytes) {struct bs} : Z :=
  match bs with
  | b0 :: b1 :: b2 :: b3 :: b4 :: b5 :: b6 :: b7 :: rest =>
      update_x86_64
        (Intrinsics._mm_crc32_u64 crc (from_le_bytes [b0; b1; b2; b3; b4; b5; b6; b7])) rest
  | remainder => foldl Intrinsics._mm_crc32_u8 (wrap_u32 crc) remainder
  end.

(** [hw::update]. *)
Definition hw_update `{Cpu} (crc : Z) (bs : bytes) : option Z :=
  match cpu_arch with
  | Aarch64 => if cpu_feature_detected then Some (update_aarch64 crc bs) else None
  | X86_64 => if cpu_feature_detected then Some (update_x86_64 crc bs) else None
  | OtherArch => None
  end.

(** ** The incremental hasher *)

Record Crc32c : Type := { crc_state : Z }.

(** [!v] on a [u32]. *)
Definition u32_not (v : Z) : Z := Z.lxor v 0xFFFFFFFF.

Definition crc_new : Crc32c := {| crc_state := u32_not 0 |}.

Definition crc_update `{Cpu} (h : Crc32c) (bs : bytes) : Crc32c :=
  {| crc_state :=
       match hw_update (crc_state h) bs with
       | Some crc => crc
       | None => update_slice8 (crc_state h) bs
       end |}.

Definition crc_finalize (h : Crc32c) : Z := u32_not (crc_state h).

(** [crc32c]: one-shot checksum. *)
Definition crc32c `{Cpu} (bs : bytes) : Z := crc_finalize (crc_update crc_new bs).

(** ** Algebra of the bit step

    One step of the division is linear over exclusive or and undoes a left
    shift; everything else follows from these two facts. *)

Section BitStep.
Implicit Types a b crc : Z.

Lemma crc_bit_alt a :
  crc_bit a = Z.lxor (Z.shiftr a 1) (if Z.testbit a 0 then POLY else 0).
Proof.
  unfold crc_bit.
  assert (Z.land a 1 = if Z.testbit a 0 then 1 else 0) as ->.
  { change 1 with (Z.ones 1) at 1. rewrite Z.land_ones by done. rewrite Z.bit0_odd. apply Zmod_odd. }
  destruct (Z.testbit a 0); simpl; [done|by rewrite Z.lxor_0_r].
Qed.

Lemma crc_bit_lxor a b : crc_bit (Z.lxor a b) = Z.lxor (crc_bit a) (crc_bit b).
Proof.
  rewrite !crc_bit_alt, Z.shiftr_lxor, Z.lxor_spec.
  destruct (Z.testbit a 0), (Z.testbit b 0); simpl;
    apply Z.bits_inj'; intros i Hi; rewrite !Z.lxor_spec, ?Z.bits_0;
    repeat match goal with |- context [Z.testbit ?x i] => destruct (Z.testbit x i) end; done.
Qed.

Lemma crc_bits_lxor n a b : crc_bits n (Z.lxor a b) = Z.lxor (crc_bits n a) (crc_bits n b).
Proof. unfold crc_bits. induction n as [|n IH]; simpl; [done|]. by rewrite IH, crc_bit_lxor. Qed.

Lemma crc_bits_add n m a : crc_bits (n + m) a = crc_bits n (crc_bits m a).
Proof. apply Nat.iter_add. Qed.

Lemma crc_bits_0 n : crc_bits n 0 = 0.
Proof. unfold crc_bits. induction n as [|n IH]; simpl; [done|]. by rewrite IH. Qed.

Lemma crc_bits_shiftl n a : crc_bits n (Z.shiftl a (Z.of_nat n)) = a.
Proof.
  revert a. induction n as [|n IH]; intros a; [done|].
  replace (S n) with (n + 1)%nat by lia. rewrite crc_bits_add.
  change (crc_bits 1) with crc_bit. rewrite crc_bit_alt.
  rewrite Z.shiftl_spec_low, Z.lxor_0_r by lia.
  rewrite Z.shiftr_shiftl_l by lia. rewrite <- (IH a) at 2. do 2 f_equal. lia.
Qed.

(** The step keeps 32-bit values and loses no information on them. *)
Lemma crc_bit_range a : u32_range a → u32_range (crc_bit a).
Proof.
  unfold u32_range. intros Ha. rewrite crc_bit_alt.
  assert (0 ≤ Z.shiftr a 1) by (apply Z.shiftr_nonneg; lia).
  assert (0 ≤ Z.lxor (Z.shiftr a 1) (if Z.testbit a 0 then POLY else 0)).
  { apply Z.lxor_nonneg. destruct (Z.testbit a 0); unfold POLY; lia. }
  split; [done|]. apply Z.bounded_iff_bits_nonneg; [lia..|]. intros l Hl.
  rewrite Z.lxor_spec, Z.shiftr_spec by lia.
  rewrite (proj1 (Z.bounded_iff_bits_nonneg 32 a ltac:(lia) ltac:(lia))) by lia.
  destruct (Z.testbit a 0); [|by rewrite Z.bits_0].
  by rewrite (proj1 (Z.bounded_iff_bits_nonneg 32 POLY ltac:(lia) ltac:(done))).
Qed.

Lemma crc_bits_range n a : u32_range a → u32_range (crc_bits n a).
Proof. intros. unfold crc_bits. induction n; simpl; auto using crc_bit_range. Qed.

Lemma crc_bit_eq_0 a : u32_range a → crc_bit a = 0 → a = 0.
Proof.
  unfold u32_range. intros Ha H0. rewrite crc_bit_alt in H0.
  apply Z.lxor_eq in H0.
  destruct (Z.testbit a 0) eqn:E.
  - exfalso. apply (f_equal (λ z, Z.testbit z 31)) in H0.
    rewrite Z.shiftr_spec in H0 by lia.
    rewrite (proj1 (Z.bounded_iff_bits_nonneg 32 a ltac:(lia) ltac:(lia))) in H0 by lia.
    discriminate.
  - apply Z.bits_inj'. intros i Hi. rewrite Z.bits_0.
    destruct (decide (i = 0)) as [->|]; [done|].
    apply (f_equal (λ z, Z.testbit z (i - 1))) in H0.
    rewrite Z.shiftr_spec, Z.bits_0 in H0 by lia. by replace (i - 1 + 1) with i in H0 by lia.
Qed.

Lemma crc_bits_eq_0 n a : u32_range a → crc_bits n a = 0 → a = 0.
Proof.
  intros Ha. induction n as [|n IH]; [done|]. intros H.
  apply IH, crc_bit_eq_0; [by apply crc_bits_range|done].
Qed.

End BitStep.

#[global] Opaque crc_bits.

(** ** The closed form

    [crc_ref crc bs] divides the message, read as one little-endian integer
    and combined with the running value, by the polynomial. *)
Definition crc_ref (crc : Z) (bs : bytes) : Z :=
  crc_bits (8 * length bs) (Z.lxor crc (from_le_bytes bs)).

Section ClosedForm.
Implicit Types crc : Z.
Implicit Types bs : bytes.

Lemma byte_testbit_high (b : byte) i : 8 ≤ i → Z.testbit (byte.unsigned b) i = false.
Proof.
  intros. pose proof (byte.unsigned_range b).
  apply (Z.bounded_iff_bits_nonneg 8); lia.
Qed.

Lemma from_le_bytes_nonneg bs : 0 ≤ from_le_bytes bs.
Proof. apply le_combine_bound. Qed.

Lemma from_le_bytes_cons b bs :
  from_le_bytes (b :: bs) = Z.lxor (byte.unsigned b) (Z.shiftl (from_le_bytes bs) 8).
Proof.
  change (from_le_bytes (b :: bs))
    with (Z.lor (byte.unsigned b) (Z.shiftl (from_le_bytes bs) 8)).
  apply Z.bits_inj'. intros i Hi. rewrite Z.lor_spec, Z.lxor_spec.
  destruct (decide (i < 8)).
  - rewrite Z.shiftl_spec_low by done. by rewrite orb_false_r, xorb_false_r.
  - rewrite byte_testbit_high by lia. done.
Qed.

Lemma crc_ref_cons crc b bs :
  crc_ref crc (b :: bs) = crc_ref (crc_bits 8 (Z.lxor crc (byte.unsigned b))) bs.
Proof.
  unfold crc_ref. rewrite from_le_bytes_cons, <- Z.lxor_assoc.
  replace (8 * length (b :: bs))%nat with (8 * length bs + 8)%nat by (simpl; lia).
  rewrite crc_bits_add. f_equal. rewrite crc_bits_lxor. f_equal.
  exact (crc_bits_shiftl 8 _).
Qed.

Lemma crc_ref_nil crc : crc_ref crc [] = crc.
Proof. exact (Z.lxor_0_r crc). Qed.

Lemma crc_ref_app crc bs1 bs2 : crc_ref crc (bs1 ++ bs2) = crc_ref (crc_ref crc bs1) bs2.
Proof.
  revert crc. induction bs1 as [|b bs1 IH]; intros crc; [by rewrite crc_ref_nil|].
  simpl. rewrite !crc_ref_cons. apply IH.
Qed.

Lemma crc_ref_range crc bs : u32_range crc → u32_range (crc_ref crc bs).
Proof.
  revert crc. induction bs as [|b bs IH]; intros crc Hc; [by rewrite crc_ref_nil|].
  rewrite crc_ref_cons. apply IH, crc_bits_range.
  unfold u32_range in *. pose proof (byte.unsigned_range b).
  split; [apply Z.lxor_nonneg; lia|].
  apply Z.bounded_iff_bits_nonneg; [lia|apply Z.lxor_nonneg; lia|].
  intros l Hl. rewrite Z.lxor_spec, byte_testbit_high by lia.
  rewrite (proj1 (Z.bounded_iff_bits_nonneg 32 crc ltac:(lia) ltac:(lia))) by lia. done.
Qed.

End ClosedForm.

(** ** Every implementation computes the closed form *)

Section Implementations.
Implicit Types crc x : Z.
Implicit Types bs : bytes.

(** The byte step splits off the low byte. *)
Lemma crc_bits_low_byte n x :
  crc_bits (n + 8) x =
  Z.lxor (crc_bits (n + 8) (Z.land x 0xFF)) (crc_bits n (Z.shiftr x 8)).
Proof.
  assert (x = Z.lxor (Z.land x 0xFF) (Z.shiftl (Z.shiftr x 8) 8)) as Hx.
  { apply Z.bits_inj'. intros i Hi. rewrite Z.lxor_spec.
    change 0xFF with (Z.ones 8). rewrite Z.land_spec.
    destruct (decide (i < 8)).
    - rewrite Z.ones_spec_low, Z.shiftl_spec_low by lia.
      by rewrite andb_true_r, xorb_false_r.
    - rewrite Z.ones_spec_high, andb_false_r, Z.shiftl_spec, Z.shiftr_spec by lia.
      rewrite xorb_false_l. f_equal. lia. }
  rewrite Hx at 1. rewrite crc_bits_lxor. f_equal. rewrite crc_bits_add. f_equal.
  exact (crc_bits_shiftl 8 _).
Qed.

Lemma crc_bits_8 x :
  crc_bits 8 x = Z.lxor (crc_bits 8 (Z.land x 0xFF)) (Z.shiftr x 8).
Proof. exact (crc_bits_low_byte 0 x). Qed.

Lemma land_FF_range x : 0 ≤ Z.land x 0xFF < 256.
Proof. change 0xFF with (Z.ones 8). rewrite Z.land_ones by done. by apply Z.mod_pos_bound. Qed.

Lemma table0_lookup i : 0 ≤ i < 256 → build_table0 !! Z.to_nat i = Some (crc_bits 8 i).
Proof.
  intros. unfold build_table0. rewrite list_lookup_fmap, lookup_seqZ_lt by lia.
  simpl. by rewrite Z.add_0_l, Z2Nat.id by lia.
Qed.

Lemma build_next_table_lookup n prev i :
  0 ≤ i < 256 → prev !! Z.to_nat i = Some (crc_bits n i) →
  build_next_table build_table0 prev !! Z.to_nat i = Some (crc_bits (n + 8) i).
Proof.
  intros Hi Hp. unfold build_next_table. rewrite list_lookup_fmap, Hp. simpl. f_equal.
  rewrite table0_lookup by apply land_FF_range. simpl.
  replace (n + 8)%nat with (8 + n)%nat by lia. rewrite crc_bits_add.
  rewrite (crc_bits_8 (crc_bits n i)). apply Z.lxor_comm.
Qed.

Lemma build_tables_from_lookup m n prev k :
  (∀ i, 0 ≤ i < 256 → prev !! Z.to_nat i = Some (crc_bits n i)) → (k < m)%nat →
  ∃ t, build_tables_from m build_table0 prev !! k = Some t ∧
    ∀ i, 0 ≤ i < 256 → t !! Z.to_nat i = Some (crc_bits (n + 8 * k) i).
Proof.
  revert n prev k. induction m as [|m IH]; intros n prev k Hp Hk; [lia|].
  destruct k as [|k]; simpl build_tables_from.
  - exists prev. split; [done|]. intros i Hi. by rewrite Nat.mul_0_r, Nat.add_0_r, Hp.
  - destruct (IH (n + 8)%nat (build_next_table build_table0 prev) k) as (t & Ht & Hl).
    + intros i Hi. by apply build_next_table_lookup, Hp.
    + lia.
    + exists t. split; [done|]. intros i Hi. rewrite Hl by done.
      by replace (n + 8 + 8 * k)%nat with (n + 8 * S k)%nat by lia.
Qed.

Lemma table_get_spec k i :
  (k < 8)%nat → 0 ≤ i < 256 → table_get TABLES k i = crc_bits (8 * (k + 1)) i.
Proof.
  intros Hk Hi. unfold table_get, TABLES, build_tables.
  destruct (build_tables_from_lookup 8 8 build_table0 k) as (t & -> & Hl); [|done|].
  { intros. by apply table0_lookup. }
  cbn [default]. rewrite Hl by done. cbn [default].
  by replace (8 + 8 * k)%nat with (8 * (k + 1))%nat by lia.
Qed.

Lemma update_bytewise_step_spec crc b :
  update_bytewise_step crc b = crc_bits 8 (Z.lxor crc (byte.unsigned b)).
Proof.
  unfold update_bytewise_step. rewrite table_get_spec by (first [lia | apply land_FF_range]).
  rewrite (crc_bits_8 (Z.lxor crc _)). f_equal.
  rewrite Z.shiftr_lxor.
  assert (Z.shiftr (byte.unsigned b) 8 = 0) as ->; [|by rewrite Z.lxor_0_r].
  apply Z.bits_inj'. intros i Hi. rewrite Z.shiftr_spec, Z.bits_0 by done.
  apply byte_testbit_high. lia.
Qed.

Lemma update_bytewise_ref crc bs : update_bytewise crc bs = crc_ref crc bs.
Proof.
  revert crc. induction bs as [|b bs IH]; intros crc; [by rewrite crc_ref_nil|].
  rewrite crc_ref_cons. unfold update_bytewise in *. simpl.
  by rewrite IH, update_bytewise_step_spec.
Qed.

(** The four lookups for a 32-bit half. *)
Lemma crc_bits_four_bytes n x :
  u32_range x →
  crc_bits (n + 32) x =
  Z.lxor (Z.lxor (Z.lxor (crc_bits (n + 32) (Z.land x 0xFF))
    (crc_bits (n + 24) (Z.land (Z.shiftr x 8) 0xFF)))
    (crc_bits (n + 16) (Z.land (Z.shiftr x 16) 0xFF)))
    (crc_bits (n + 8) (Z.shiftr x 24)).
Proof.
  intros Hx.
  replace (n + 32)%nat with (n + 24 + 8)%nat by lia. rewrite crc_bits_low_byte.
  replace (n + 24)%nat with (n + 16 + 8)%nat by lia. rewrite (crc_bits_low_byte _ (Z.shiftr x 8)).
  replace (n + 16)%nat with (n + 8 + 8)%nat by lia.
  rewrite (crc_bits_low_byte _ (Z.shiftr (Z.shiftr x 8) 8)).
  rewrite !Z.shiftr_shiftr by lia. by rewrite !Z.lxor_assoc.
Qed.

Lemma u32_shiftr_24 x : u32_range x → 0 ≤ Z.shiftr x 24 < 256.
Proof.
  unfold u32_range. intros. rewrite Z.shiftr_div_pow2 by lia.
  split; [apply Z.div_pos; lia|apply Z.div_lt_upper_bound; lia].
Qed.

Lemma from_le_bytes_app b1 b2 :
  from_le_bytes (b1 ++ b2) =
  Z.lxor (from_le_bytes b1) (Z.shiftl (from_le_bytes b2) (8 * Z.of_nat (length b1))).
Proof.
  induction b1 as [|b b1 IH].
  - rewrite Z.mul_0_r, Z.shiftl_0_r. done.
  - simpl app. rewrite !from_le_bytes_cons, IH, Z.shiftl_lxor, Z.shiftl_shiftl by lia.
    rewrite Z.lxor_assoc. do 3 f_equal. simpl length. lia.
Qed.

Lemma u32_lxor_range a b : u32_range a → u32_range b → u32_range (Z.lxor a b).
Proof.
  unfold u32_range. intros. assert (0 ≤ Z.lxor a b) by (apply Z.lxor_nonneg; lia).
  split; [done|]. apply Z.bounded_iff_bits_nonneg; [lia..|]. intros l Hl.
  rewrite Z.lxor_spec.
  rewrite (proj1 (Z.bounded_iff_bits_nonneg 32 a ltac:(lia) ltac:(lia))) by lia.
  by rewrite (proj1 (Z.bounded_iff_bits_nonneg 32 b ltac:(lia) ltac:(lia))) by lia.
Qed.

Lemma slice8_step_spec crc w0 w1 :
  u32_range crc → length w0 = 4%nat → length w1 = 4%nat →
  slice8_step crc w0 w1 = crc_ref crc (w0 ++ w1).
Proof.
  intros Hc H0 H1. unfold crc_ref, slice8_step.
  rewrite length_app, H0, H1, from_le_bytes_app, H0.
  rewrite <- Z.lxor_assoc, (Z.lxor_comm crc), crc_bits_lxor.
  pose proof (from_le_bytes_u32_range w0 H0) as R0.
  pose proof (from_le_bytes_u32_range w1 H1) as R1.
  set (lo := Z.lxor (from_le_bytes w0) crc). set (hi := from_le_bytes w1) in *.
  assert (u32_range lo) as Rl by by apply u32_lxor_range.
  pose proof (u32_shiftr_24 _ Rl). pose proof (u32_shiftr_24 _ R1).
  rewrite !table_get_spec by (first [lia | apply land_FF_range]).
  change (8 * (4 + 4))%nat with (32 + 32)%nat.
  rewrite (crc_bits_add 32 32 (Z.shiftl hi _)).
  rewrite (crc_bits_shiftl 32 hi : crc_bits 32 (Z.shiftl hi (8 * Z.of_nat 4)) = hi).
  rewrite (crc_bits_four_bytes 32 lo) by done.
  change (crc_bits 32 hi) with (crc_bits (0 + 32) hi).
  rewrite (crc_bits_four_bytes 0 hi) by done.
  by rewrite !Z.lxor_assoc.
Qed.

(** Induction over [chunks_exact(8)]. *)
Lemma chunks8_ind (P : bytes → Prop) :
  (∀ bs, (length bs < 8)%nat → P bs) →
  (∀ b0 b1 b2 b3 b4 b5 b6 b7 rest,
     P rest → P (b0 :: b1 :: b2 :: b3 :: b4 :: b5 :: b6 :: b7 :: rest)) →
  ∀ bs, P bs.
Proof.
  intros Hshort Hchunk bs. remember (length bs) as n eqn:E. revert bs E.
  induction (lt_wf n) as [n _ IH]; intros bs ->.
  do 8 (destruct bs as [|? bs]; [apply Hshort; simpl; lia|]).
  apply Hchunk. eapply IH; [|done]. simpl. lia.
Qed.

Lemma update_slice8_ref crc bs : u32_range crc → update_slice8 crc bs = crc_ref crc bs.
Proof.
  revert crc. induction bs as [bs Hs|b0 b1 b2 b3 b4 b5 b6 b7 rest IH] using chunks8_ind;
    intros crc Hc.
  - rewrite <- update_bytewise_ref.
    do 8 (destruct bs as [|? bs]; [done|]). simpl in Hs. lia.
  - cbn [update_slice8]. rewrite slice8_step_spec by done.
    rewrite IH by by apply crc_ref_range.
    by rewrite <- crc_ref_app.
Qed.

Lemma foldl_bytes_ref (step : Z → byte → Z) crc bs :
  (∀ c b, step c b = crc_bits 8 (Z.lxor c (byte.unsigned b))) →
  foldl step crc bs = crc_ref crc bs.
Proof.
  intros Hs. revert crc. induction bs as [|b bs IH]; intros crc; [by rewrite crc_ref_nil|].
  simpl. by rewrite IH, Hs, crc_ref_cons.
Qed.

Lemma crc_ref_word crc bs :
  length bs = 8%nat → crc_bits 64 (Z.lxor crc (from_le_bytes bs)) = crc_ref crc bs.
Proof. intros H. unfold crc_ref. by rewrite H. Qed.

Lemma update_aarch64_ref crc bs : update_aarch64 crc bs = crc_ref crc bs.
Proof.
  revert crc. induction bs as [bs Hs|b0 b1 b2 b3 b4 b5 b6 b7 rest IH] using chunks8_ind;
    intros crc.
  - rewrite <- (foldl_bytes_ref Intrinsics.__crc32cb) by done.
    do 8 (destruct bs as [|? bs]; [done|]). simpl in Hs. lia.
  - cbn [update_aarch64]. set (chunk := [b0; b1; b2; b3; b4; b5; b6; b7]).
    unfold Intrinsics.__crc32cd. rewrite crc_ref_word by done.
    by rewrite IH, <- crc_ref_app.
Qed.

Lemma update_x86_64_ref crc bs : u32_range crc → update_x86_64 crc bs = crc_ref crc bs.
Proof.
  revert crc. induction bs as [bs Hs|b0 b1 b2 b3 b4 b5 b6 b7 rest IH] using chunks8_ind;
    intros crc Hc.
  - rewrite <- (foldl_bytes_ref Intrinsics._mm_crc32_u8) by done.
    rewrite <- (wrap_u32_id crc) at 2 by done.
    do 8 (destruct bs as [|? bs]; [done|]). simpl in Hs. lia.
  - cbn [update_x86_64].
    set (chunk := [b0; b1; b2; b3; b4; b5; b6; b7]).
    unfold Intrinsics._mm_crc32_u64. rewrite wrap_u32_id, crc_ref_word by done.
    rewrite IH by by apply crc_ref_range.
    by rewrite <- crc_ref_app.
Qed.

End Implementations.

(** ** What the rest of the storage layer relies on *)

Section Crc32c.
Context `{Cpu}.
Implicit Types bs : bytes.

Lemma crc_update_ref h bs :
  u32_range (crc_state h) → crc_state (crc_update h bs) = crc_ref (crc_state h) bs.
Proof.
  intros Hh. simpl. unfold hw_update.
  destruct cpu_arch, cpu_feature_detected;
    auto using update_aarch64_ref, update_x86_64_ref, update_slice8_ref.
Qed.

Lemma u32_not_range v : u32_range v → u32_range (u32_not v).
Proof. intros. by apply u32_lxor_range. Qed.

Lemma u32_not_inj v w : u32_not v = u32_not w → v = w.
Proof.
  unfold u32_not. intros Heq.
  rewrite <- (Z.lxor_0_r v), <- (Z.lxor_nilpotent 0xFFFFFFFF), <- Z.lxor_assoc, Heq.
  by rewrite Z.lxor_assoc, Z.lxor_nilpotent, Z.lxor_0_r.
Qed.

Lemma crc_new_range : u32_range (crc_state crc_new).
Proof. by apply u32_not_range. Qed.

Lemma crc32c_ref bs : crc32c bs = u32_not (crc_ref (crc_state crc_new) bs).
Proof. unfold crc32c, crc_finalize. by rewrite crc_update_ref by apply crc_new_range. Qed.

Lemma crc32c_range bs : u32_range (crc32c bs).
Proof. rewrite crc32c_ref. apply u32_not_range, crc_ref_range, crc_new_range. Qed.

(** Equal-length messages whose difference is a nonzero burst of at most 32
    bits, starting at any bit, have different checksums. *)
Lemma crc32c_bit_burst bs1 bs2 d k :
  length bs1 = length bs2 →
  Z.lxor (from_le_bytes bs1) (from_le_bytes bs2) = Z.shiftl d (Z.of_nat k) →
  u32_range d → d ≠ 0 → (k ≤ 8 * length bs1)%nat →
  crc32c bs1 ≠ crc32c bs2.
Proof.
  intros Hlen Hd Hr Hnz Hk Heq. rewrite !crc32c_ref in Heq. apply u32_not_inj in Heq.
  unfold crc_ref in Heq. rewrite <- Hlen in Heq.
  apply Hnz, (crc_bits_eq_0 (8 * length bs1 - k)); [done|].
  rewrite <- (crc_bits_shiftl k d) at 1. rewrite <- crc_bits_add, <- Hd.
  replace (8 * length bs1 - k + k)%nat with (8 * length bs1)%nat by lia.
  rewrite !crc_bits_lxor in Heq. rewrite crc_bits_lxor.
  set (u := crc_bits _ (crc_state crc_new)) in *.
  apply (f_equal (Z.lxor u)) in Heq.
  rewrite <- !Z.lxor_assoc, Z.lxor_nilpotent, !Z.lxor_0_l in Heq.
  rewrite Heq. apply Z.lxor_nilpotent.
Qed.

(** Corruption confined to four consecutive bytes is always detected. *)
Lemma crc32c_window pre x y post :
  length x = length y → (length x ≤ 4)%nat → x ≠ y →
  crc32c (pre ++ x ++ post) ≠ crc32c (pre ++ y ++ post).
Proof.
  intros Hxy H4 Hne.
  apply (crc32c_bit_burst _ _ (Z.lxor (from_le_bytes x) (from_le_bytes y)) (8 * length pre)).
  - rewrite !length_app. lia.
  - rewrite !from_le_bytes_app, Hxy, !Z.shiftl_lxor, Nat2Z.inj_mul.
    set (p := from_le_bytes pre). set (q := Z.shiftl (Z.shiftl (from_le_bytes post) _) _).
    change (Z.of_nat 8) with 8.
    rewrite (Z.lxor_comm p), Z.lxor_assoc, <- (Z.lxor_assoc p), Z.lxor_nilpotent, Z.lxor_0_l.
    rewrite Z.lxor_assoc, (Z.lxor_comm _ q), <- (Z.lxor_assoc q), Z.lxor_nilpotent.
    by rewrite Z.lxor_0_l.
  - assert (∀ z, (length z ≤ 4)%nat → u32_range (from_le_bytes z)) as R.
    { intros z Hz. unfold u32_range. pose proof (le_combine_bound z) as [L U].
      split; [exact L|]. eapply Z.lt_le_trans; [exact U|]. apply Z.pow_le_mono_r; lia. }
    apply u32_lxor_range; apply R; lia.
  - intros E%Z.lxor_eq. by apply Hne, le_combine_inj.
  - rewrite !length_app. lia.
Qed.

End Crc32c.

#[export] Hint Resolve crc32c_range : oxen.
#[global] Opaque crc32c.

(** ** Properties *)

(** C35. Whatever CPU the program runs on, the checksum of a message is the
    one the byte-at-a-time reference computes: the slicing-by-8 routine and
    both hardware routines return, for every starting value and every input
    length, exactly [update_bytewise]. *)
Theorem crc_implementations_agree (crc : Z) (bs : bytes) :
  u32_range crc →
  update_slice8 crc bs = update_bytewise crc bs ∧
  ∀ cpu : Cpu,
    (∀ v, hw_update crc bs = Some v → v = update_bytewise crc bs) ∧
    crc32c bs = u32_not (update_bytewise (u32_not 0) bs).
Proof.
  intros Hc. rewrite !update_bytewise_ref. split; [by apply update_slice8_ref|].
  intros cpu. split; [|apply crc32c_ref].
  intros v. unfold hw_update.
  destruct cpu_arch, cpu_feature_detected; try done; intros [= <-];
    auto using update_aarch64_ref, update_x86_64_ref.
Qed.

Lemma crc_implementations_agree_witness :
  update_slice8 305419896 [Byte.x31; Byte.x32] =
  update_bytewise 305419896 [Byte.x31; Byte.x32].
Proof.
  apply (crc_implementations_agree 305419896 [Byte.x31; Byte.x32]).
  unfold u32_range. lia.
Defined.

(** Table [k] holds at index [b] the contribution of byte [b] followed
    by [k] zero bytes, for the eight tables [build_tables] fills. *)
Theorem tables_contribution (k : nat) (b : byte) :
  (k < 8)%nat →
  table_get TABLES k (byte.unsigned b) = update_bytewise 0 (b :: zeros k).
Proof.
  intros Hk. pose proof (byte.unsigned_range b).
  rewrite table_get_spec, update_bytewise_ref by lia.
  unfold crc_ref. rewrite Z.lxor_0_l. simpl length. rewrite length_zeros.
  replace (8 * S k)%nat with (8 * (k + 1))%nat by lia. f_equal.
  rewrite from_le_bytes_cons.
  assert (from_le_bytes (zeros k) = 0) as ->.
  { rewrite <- (le_combine_0 k). unfold zeros. f_equal.
    clear. induction k; simpl; congruence. }
  by rewrite Z.shiftl_0_l, Z.lxor_0_r.
Qed.

Lemma tables_contribution_witness :
  table_get TABLES 3 1 = update_bytewise 0 [Byte.x01; Byte.x00; Byte.x00; Byte.x00].
Proof. apply (tables_contribution 3 Byte.x01). lia. Defined.

(** Feeding a message in pieces gives the checksum of the whole, for any
    split point and any hasher state. *)
Theorem crc_update_app `{Cpu} (h : Crc32c) (a b : bytes) :
  u32_range (crc_state h) →
  crc_update (crc_update h a) b = crc_update h (a ++ b).
Proof.
  intros Hh. pose proof (crc_update_ref h (a ++ b) Hh) as E.
  destruct (crc_update h (a ++ b)) as [s]. simpl in E. subst s.
  destruct (crc_update (crc_update h a) b) as [s] eqn:E. f_equal.
  apply (f_equal crc_state) in E. simpl crc_state in E at 2. rewrite <- E.
  rewrite crc_update_ref by (rewrite crc_update_ref by done; by apply crc_ref_range).
  by rewrite crc_update_ref, crc_ref_app by done.
Qed.

Lemma crc_update_app_witness :
  let cpu := {| cpu_arch := X86_64; cpu_feature_detected := true |} in
  crc_finalize (crc_update (crc_update crc_new [Byte.x31; Byte.x32; Byte.x33; Byte.x34])
    [Byte.x35; Byte.x36; Byte.x37; Byte.x38; Byte.x39]) = 0xE3069283.
Proof. intros cpu. rewrite crc_update_app by (by split). vm_compute. reflexivity. Defined.

(** Two messages of the same length whose difference is an error burst
    of at most 32 bits, starting at any bit position, never share a checksum;
    in particular every single bit flip is detected. *)
Theorem crc32c_detects_burst `{Cpu} (bs1 bs2 : bytes) (d : Z) (k : nat) :
  length bs1 = length bs2 →
  Z.lxor (from_le_bytes bs1) (from_le_bytes bs2) = Z.shiftl d (Z.of_nat k) →
  u32_range d → d ≠ 0 → (k ≤ 8 * length bs1)%nat →
  crc32c bs1 ≠ crc32c bs2.
Proof. apply crc32c_bit_burst. Qed.

Lemma crc32c_detects_burst_witness :
  let cpu := {| cpu_arch := OtherArch; cpu_feature_detected := false |} in
  crc32c [Byte.x5a; Byte.x5a; Byte.x5a] ≠ crc32c [Byte.x5a; Byte.x5b; Byte.x5a].
Proof.
  intros cpu. by apply (crc32c_detects_burst _ _ 1 8); [..|simpl; lia].
Defined.

(** Test vectors of RFC 3720, appendix B.4, and the standard check value. *)
Example rfc3720_vectors :
  let cpu := {| cpu_arch := OtherArch; cpu_feature_detected := false |} in
  crc32c (byte.of_Z <$> [49; 50; 51; 52; 53; 54; 55; 56; 57]) = 0xE3069283 ∧
  crc32c (zeros 32) = 0x8A9136AA ∧
  crc32c (replicate 32 Byte.xff) = 0x62A8AB43 ∧
  crc32c (byte.of_Z <$> seqZ 0 32) = 0x46DD794E ∧
  crc32c (byte.of_Z <$> reverse (seqZ 0 32)) = 0x113FDB5C.
Proof. vm_compute. repeat split. Qed.
