(* ===== verification/Page.v ===== *)
(** * Pages (src/crates/oxendb/src/storage/page.rs)

    The fixed-size page buffer with its 24-byte header: construction, field
    access, sealing and verification. *)

From S2P Require Import Prelude Errors Checksum.

(** ** Layout *)

Definition PAGE_SIZE : nat := 4096.

Lemma PAGE_SIZE_val : PAGE_SIZE = 4096.
Proof. reflexivity. Qed.
#[global] Opaque PAGE_SIZE.


(** [struct PageId(pub u64)]. *)
Abbreviation PageId := Z.

Definition HEADER : PageId := 0%Z.

(** [PageId::file_offset]: a [u64] multiplication. *)
Definition file_offset (id : PageId) : Z := u64_mul id (Z.of_nat PAGE_SIZE).

(** [impl Display for PageId]. *)
Definition page_id_to_string (id : PageId) : string := ("page " +:+ pretty id)%string.

Definition PAGE_HEADER_SIZE : nat := 24.

Definition TYPE_OFFSET : nat := 4.

(** [page_lia]: arithmetic with the layout constants known. *)
Ltac page_lia := pose proof PAGE_SIZE_val; unfold TYPE_OFFSET, PAGE_HEADER_SIZE in *; len; lia.

(** [enum PageType] with its [repr(u8)] discriminants. *)
Inductive PageType : Type :=
  | Free
  | Heap.

#[global] Instance PageType_eq_dec : EqDecision PageType.
Proof. solve_decision. Defined.

Definition page_type_as_u8 (t : PageType) : byte :=
  match t with Free => Byte.x01 | Heap => Byte.x02 end.

(** [impl TryFrom<u8> for PageType]. *)
Definition page_type_try_from (value : byte) : result byte PageType :=
  match value with
  | Byte.x01 => Ok Free
  | Byte.x02 => Ok Heap
  | other => Err other
  end.

Record PageHeader : Type := {
  page_type : PageType;
  header_page_id : PageId;
  lsn : Z;
}.

(** [struct Page]: the type [[u8; PAGE_SIZE]] of the buffer is the
    predicate [page_wf]. *)
Record Page : Type := { data : bytes }.

Definition page_wf (p : Page) : Prop := length (data p) = PAGE_SIZE.

#[global] Instance Page_eq_dec : EqDecision Page.
Proof. solve_decision. Defined.

(** ** Operations *)

Definition zeroed : Page := {| data := zeros PAGE_SIZE |}.

Definition set_range (lo : nat) (src : bytes) (p : Page) : Page :=
  {| data := splice lo src (data p) |}.

(** [self.data[i]]. *)
Definition byte_at (i : nat) (p : Page) : byte := default Byte.x00 (data p !! i).

(** [Page::new]. *)
Definition page_new (id : PageId) (t : PageType) : Page :=
  let page := zeroed in
  let page := set_range TYPE_OFFSET [page_type_as_u8 t] page in
  set_range 8 (u64_to_le_bytes id) page.

(** [Page::page_id]. *)
Definition page_id (p : Page) : PageId := from_le_bytes (slice 8 16 (data p)).

(** [Page::set_lsn]. *)
Definition set_lsn (v : Z) (p : Page) : Page := set_range 16 (u64_to_le_bytes v) p.

(** [Page::payload]. *)
Definition payload (p : Page) : bytes := drop PAGE_HEADER_SIZE (data p).

(** Writing [src] at offset [off] of the slice [Page::payload_mut] returns. *)
Definition payload_write (off : nat) (src : bytes) (p : Page) : Page :=
  set_range (PAGE_HEADER_SIZE + off) src p.

(** Writing [src] at offset [off] of the array [Page::as_bytes_mut] returns. *)
Definition raw_write (off : nat) (src : bytes) (p : Page) : Page := set_range off src p.

(** [Page::as_bytes]. *)
Definition as_bytes (p : Page) : bytes := data p.

Section Sealing.
Local Open Scope string_scope.
Context `{Cpu}.

(** [Page::seal]. *)
Definition seal (p : Page) : Page :=
  set_range 0 (u32_to_le_bytes (crc32c (drop 4 (data p)))) p.

(** [Page::decode_header]. *)
Definition decode_header (expected : PageId) (p : Page) : Result PageHeader :=
  t ← map_err
        (λ raw, corruption (page_id_to_string expected +:+ ": unknown page type " +:+
                            pretty (byte.unsigned raw)))
        (page_type_try_from (byte_at TYPE_OFFSET p));
  if existsb (λ b, bool_decide (b ≠ Byte.x00)) (slice 5 8 (data p)) then
    Err (corruption (page_id_to_string expected +:+ ": reserved header bytes are set"))
  else
    let id := from_le_bytes (slice 8 16 (data p)) in
    let l := from_le_bytes (slice 16 24 (data p)) in
    Ok {| page_type := t; header_page_id := id; lsn := l |}.

(** [Page::verify]. *)
Definition verify (expected : PageId) (p : Page) : Result PageHeader :=
  let stored := from_le_bytes (slice 0 4 (data p)) in
  let actual := crc32c (drop 4 (data p)) in
  if negb (stored =? actual)%Z then
    Err (corruption (page_id_to_string expected +:+ ": checksum mismatch (stored " +:+
                     hex_u32 stored +:+ ", computed " +:+ hex_u32 actual +:+ ")"))
  else
    header ← decode_header expected p;
    if negb (header_page_id header =? expected)%Z then
      Err (corruption (page_id_to_string expected +:+ ": header says it is " +:+
                       page_id_to_string (header_page_id header)))
    else Ok header.

End Sealing.

(** ** Well-formedness *)

Section Wf.
Implicit Types p : Page.

Lemma zeroed_wf : page_wf zeroed.
Proof. apply length_zeros. Qed.

Lemma set_range_wf lo src p :
  lo + length src ≤ PAGE_SIZE → page_wf p → page_wf (set_range lo src p).
Proof. unfold page_wf. simpl. intros ? Hp. rewrite length_splice; lia. Qed.

Lemma page_new_wf id t : page_wf (page_new id t).
Proof. apply set_range_wf; [page_lia|]. apply set_range_wf; [page_lia|apply zeroed_wf]. Qed.

Lemma set_lsn_wf v p : page_wf p → page_wf (set_lsn v p).
Proof. apply set_range_wf. page_lia. Qed.

Lemma payload_write_wf off src p :
  PAGE_HEADER_SIZE + off + length src ≤ PAGE_SIZE → page_wf p → page_wf (payload_write off src p).
Proof. apply set_range_wf. Qed.

Lemma seal_wf `{Cpu} p : page_wf p → page_wf (seal p).
Proof. apply set_range_wf. page_lia. Qed.

Lemma page_id_range p : page_wf p → u64_range (page_id p).
Proof. intros Hp. apply from_le_bytes_u64_range. unfold page_wf in Hp. page_lia. Qed.

End Wf.

#[export] Hint Resolve zeroed_wf page_new_wf set_lsn_wf seal_wf page_id_range : oxen.

(** Reading a slice of a page after an update of another range, or of the
    same one. *)
Section Fields.
Implicit Types p : Page.

Lemma slice_set_range_same lo hi src p :
  page_wf p → hi = lo + length src → hi ≤ PAGE_SIZE →
  slice lo hi (data (set_range lo src p)) = src.
Proof. unfold page_wf. intros. simpl. apply slice_splice_same; lia. Qed.

Lemma slice_set_range_ne lo hi off src p :
  page_wf p → off + length src ≤ PAGE_SIZE → (hi ≤ off ∨ off + length src ≤ lo) →
  slice lo hi (data (set_range off src p)) = slice lo hi (data p).
Proof. unfold page_wf. intros. simpl. apply slice_splice_ne; lia. Qed.

Lemma drop_slice lo p : page_wf p → drop lo (data p) = slice lo PAGE_SIZE (data p).
Proof. unfold page_wf. intros Hp. unfold slice. rewrite take_ge; [done|]. len. Qed.

Lemma byte_at_slice i p : page_wf p → i < PAGE_SIZE → slice i (S i) (data p) = [byte_at i p].
Proof.
  unfold page_wf, byte_at. intros Hp Hi.
  destruct (lookup_lt_is_Some_2 (data p) i) as [b Hb]; [lia|].
  rewrite Hb. unfold slice. rewrite (drop_S _ _ _ Hb).
  replace (S i - i) with 1 by lia. done.
Qed.

Lemma byte_at_set_range_same i b p :
  page_wf p → i < PAGE_SIZE → byte_at i (set_range i [b] p) = b.
Proof.
  unfold page_wf, byte_at. intros. simpl. rewrite lookup_splice_eq by (simpl; lia).
  by replace (i - i) with 0 by lia.
Qed.

Lemma byte_at_set_range_ne i off src p :
  page_wf p → off + length src ≤ PAGE_SIZE → (i < off ∨ off + length src ≤ i) →
  byte_at i (set_range off src p) = byte_at i p.
Proof. unfold page_wf, byte_at. intros. simpl. by rewrite lookup_splice_ne by lia. Qed.

(** A page is its checksum field followed by its body. *)
Lemma page_eq_split p p' :
  slice 0 4 (data p) = slice 0 4 (data p') → drop 4 (data p) = drop 4 (data p') → p = p'.
Proof.
  destruct p as [d], p' as [d']. unfold slice. simpl. rewrite !drop_0. intros E1 E2.
  f_equal. rewrite <- (take_drop 4 d), <- (take_drop 4 d'). congruence.
Qed.

End Fields.

(** ** Sealed pages *)

Section Sealed.
Context `{Cpu}.
Implicit Types p : Page.

(** The stored checksum matches the contents. *)
Definition checksum_ok (p : Page) : Prop :=
  from_le_bytes (slice 0 4 (data p)) = crc32c (drop 4 (data p)).

#[global] Instance checksum_ok_dec p : Decision (checksum_ok p).
Proof. unfold checksum_ok. apply _. Defined.

Lemma seal_drop p : page_wf p → drop 4 (data (seal p)) = drop 4 (data p).
Proof.
  intros. rewrite !drop_slice by auto with oxen.
  apply slice_set_range_ne; [done|page_lia|]. right. page_lia.
Qed.

Lemma seal_slice lo hi p :
  page_wf p → 4 ≤ lo → slice lo hi (data (seal p)) = slice lo hi (data p).
Proof. intros. apply slice_set_range_ne; [done|page_lia|]. right. page_lia. Qed.

Lemma seal_byte_at i p : page_wf p → 4 ≤ i → byte_at i (seal p) = byte_at i p.
Proof. intros. apply byte_at_set_range_ne; [done|page_lia|]. right. page_lia. Qed.

Lemma seal_checksum_ok p : page_wf p → checksum_ok (seal p).
Proof.
  intros. unfold checksum_ok. rewrite seal_drop by done.
  unfold seal. rewrite slice_set_range_same by (done || page_lia).
  apply from_to_le_u32. auto with oxen.
Qed.

Lemma seal_id p : page_wf p → checksum_ok p → seal p = p.
Proof.
  intros Hp Hc. unfold seal, set_range. destruct p as [d]. f_equal. simpl in *.
  unfold checksum_ok in Hc. simpl in Hc. rewrite <- Hc.
  unfold page_wf in Hp. simpl in Hp.
  rewrite to_from_le_u32 by page_lia. apply splice_slice; page_lia.
Qed.

Lemma seal_page_id p : page_wf p → page_id (seal p) = page_id p.
Proof. intros. unfold page_id. by rewrite seal_slice by (done || lia). Qed.

Lemma page_type_roundtrip b t : page_type_try_from b = Ok t ↔ b = page_type_as_u8 t.
Proof.
  split; [|by destruct t; intros ->].
  destruct b; try discriminate; intros [= <-]; done.
Qed.

Lemma existsb_nonzero bs :
  existsb (λ b, bool_decide (b ≠ Byte.x00)) bs = false ↔ bs = zeros (length bs).
Proof.
  induction bs as [|b bs IH]; [done|]. simpl. rewrite orb_false_iff, IH.
  rewrite bool_decide_eq_false. split.
  - intros [Hb%dec_stable ->]. by rewrite Hb, length_zeros.
  - intros [= -> ?]. auto.
Qed.

(** The header fields stored in a page. *)
Definition has_header (p : Page) (h : PageHeader) : Prop :=
  byte_at TYPE_OFFSET p = page_type_as_u8 (page_type h) ∧
  slice 5 8 (data p) = zeros 3 ∧
  page_id p = header_page_id h ∧
  from_le_bytes (slice 16 24 (data p)) = lsn h.

Lemma decode_header_ok_iff id p h :
  page_wf p → decode_header id p = Ok h ↔ has_header p h.
Proof.
  intros Hp. unfold decode_header, has_header, map_err, mbind, result_bind.
  assert (length (slice 5 8 (data p)) = 3) as H3 by (unfold page_wf in Hp; page_lia).
  destruct (page_type_try_from (byte_at TYPE_OFFSET p)) as [t|raw] eqn:Ht; simpl.
  2:{ split; [done|]. intros (E & _). apply page_type_roundtrip in E. congruence. }
  apply page_type_roundtrip in Ht as Hb.
  destruct (existsb _ _) eqn:Hr.
  { split; [done|]. intros (_ & E & _).
    assert (slice 5 8 (data p) = zeros (length (slice 5 8 (data p)))) as E'%existsb_nonzero
      by (by rewrite H3). congruence. }
  apply existsb_nonzero in Hr. rewrite H3 in Hr. split.
  - intros [= <-]. done.
  - intros (E & _ & Hid & Hl). destruct h as [t' id' l']. simpl in *. subst id' l'.
    apply page_type_roundtrip in E. by assert (t = t') as -> by congruence.
Qed.

(** What a successful [verify] establishes, and nothing less. *)
Lemma verify_ok_iff id p h :
  page_wf p → verify id p = Ok h ↔ checksum_ok p ∧ has_header p h ∧ header_page_id h = id.
Proof.
  intros Hp. unfold verify, checksum_ok, mbind, result_bind.
  destruct (Z.eqb_spec (from_le_bytes (slice 0 4 (data p))) (crc32c (drop 4 (data p))));
    simpl; [|naive_solver].
  rewrite <- (decode_header_ok_iff id) by done.
  destruct (decode_header id p) as [h'|]; [|naive_solver].
  destruct (Z.eqb_spec (header_page_id h') id); naive_solver.
Qed.

(** [verify] reports every failure as corruption. *)
Lemma verify_err_corruption id p e : verify id p = Err e → is_corruption e = true.
Proof.
  unfold verify, decode_header, map_err, mbind, result_bind. intros Hv.
  repeat (case_match || simplify_eq/=); done.
Qed.

Lemma verify_ok_id id p h : page_wf p → verify id p = Ok h → page_id p = id.
Proof.
  intros Hp Hv. apply verify_ok_iff in Hv as (_ & (_ & _ & E & _) & <-); done.
Qed.

Lemma verify_ok_checksum id p h : page_wf p → verify id p = Ok h → checksum_ok p.
Proof. intros Hp Hv. by apply verify_ok_iff in Hv as [? _]. Qed.

(** How the constructors and setters act on the header. *)
Lemma page_new_header id t :
  u64_range id →
  has_header (page_new id t) {| page_type := t; header_page_id := id; lsn := 0 |}.
Proof.
  intros Hid. unfold has_header, page_id, page_new. simpl page_type. simpl header_page_id.
  simpl lsn. set (p0 := set_range TYPE_OFFSET _ zeroed).
  assert (page_wf p0) as W by (apply set_range_wf; [page_lia|auto with oxen]).
  rewrite byte_at_set_range_ne, (slice_set_range_ne 5 8), (slice_set_range_ne 16 24),
    slice_set_range_same, from_to_le_u64 by (done || page_lia).
  unfold p0. rewrite byte_at_set_range_same, !slice_set_range_ne by (auto with oxen || page_lia).
  repeat split; by vm_compute.
Qed.

(** Updates of disjoint ranges keep the header. *)
Lemma set_range_header off src p h :
  page_wf p → off + length src ≤ PAGE_SIZE → (off + length src ≤ 4 ∨ 24 ≤ off) →
  has_header p h → has_header (set_range off src p) h.
Proof.
  intros W ? Hd. unfold has_header, page_id.
  by rewrite byte_at_set_range_ne, !slice_set_range_ne by (done || page_lia).
Qed.

Lemma set_lsn_header v p h :
  page_wf p → u64_range v → has_header p h →
  has_header (set_lsn v p)
    {| page_type := page_type h; header_page_id := header_page_id h; lsn := v |}.
Proof.
  intros W Hv. unfold has_header, page_id, set_lsn.
  rewrite byte_at_set_range_ne, slice_set_range_same, (slice_set_range_ne 5 8),
    (slice_set_range_ne 8 16), from_to_le_u64 by (done || page_lia).
  naive_solver.
Qed.

Lemma payload_write_header off src p h :
  page_wf p → PAGE_HEADER_SIZE + off + length src ≤ PAGE_SIZE →
  has_header p h → has_header (payload_write off src p) h.
Proof. intros. apply set_range_header; [done|done|right; page_lia|done]. Qed.

Lemma seal_header p h : page_wf p → has_header p h → has_header (seal p) h.
Proof. intros. apply set_range_header; [done|page_lia|left; page_lia|done]. Qed.

(** A sealed page verifies under the id in its header. *)
Lemma verify_seal p h :
  page_wf p → has_header p h → verify (header_page_id h) (seal p) = Ok h.
Proof.
  intros. apply verify_ok_iff; auto using seal_wf, seal_checksum_ok, seal_header.
Qed.

End Sealed.

(** ** Offsets *)

(** Page ids whose byte offset fits a [u64]. *)
Definition page_addressable (id : PageId) : Prop := (0 ≤ id < 2 ^ 52)%Z.

Lemma file_offset_exact id :
  page_addressable id → file_offset id = (id * Z.of_nat PAGE_SIZE)%Z.
Proof.
  unfold page_addressable, file_offset, u64_mul. intros. rewrite PAGE_SIZE_val.
  apply wrap_u64_id. unfold u64_range. lia.
Qed.

(** ** Properties *)

Section Properties.
Context `{Cpu}.
Implicit Types p : Page.

(** Round trip of a page through its header: a page created with an id,
    a type, an LSN and any payload, once sealed, verifies under that id,
    decodes to exactly those header fields and keeps its payload. *)
Theorem sealed_page_round_trips (id v : Z) (t : PageType) (pl : bytes) :
  u64_range id → u64_range v → length pl = PAGE_SIZE - PAGE_HEADER_SIZE →
  let p := seal (payload_write 0 pl (set_lsn v (page_new id t))) in
  verify id p = Ok {| page_type := t; header_page_id := id; lsn := v |} ∧ payload p = pl.
Proof.
  intros Hid Hv Hpl p.
  set (p2 := payload_write 0 pl (set_lsn v (page_new id t))) in p.
  assert (page_wf (set_lsn v (page_new id t))) as W1 by auto with oxen.
  assert (page_wf p2) as W2 by (apply payload_write_wf; [page_lia|done]).
  split.
  - apply (verify_seal p2 {| page_type := t; header_page_id := id; lsn := v |}); [done|].
    apply payload_write_header; [done|page_lia|].
    exact (set_lsn_header v _ _ (page_new_wf id t) Hv (page_new_header id t Hid)).
  - unfold payload. rewrite drop_slice by auto with oxen.
    unfold p. rewrite seal_slice by (done || page_lia).
    unfold p2, payload_write. rewrite Nat.add_0_r.
    apply slice_set_range_same; [done|page_lia..].
Qed.

(** [verify] accepts a page exactly when its checksum matches, its type
    byte is a known type, its reserved bytes are zero and its stored id is the
    expected one; it then returns the stored fields, and every rejection is a
    corruption error. *)
Theorem verify_accepts_exactly (id : PageId) (p : Page) :
  page_wf p →
  (∀ h, verify id p = Ok h ↔ checksum_ok p ∧ has_header p h ∧ page_id p = id) ∧
  (∀ e, verify id p = Err e → is_corruption e = true).
Proof.
  intros Hp. split; [|apply verify_err_corruption].
  intros h. rewrite verify_ok_iff by done.
  split; intros (? & Hh & ?); (split; [done|split; [done|]]); destruct Hh as (_ & _ & ? & _);
    congruence.
Qed.

(** Changing the checksum field alone, or the body alone within four
    consecutive bytes, breaks the checksum. *)
Lemma checksum_window off w p :
  page_wf p → checksum_ok p → length w ≤ 4 →
  (off + length w ≤ 4 ∨ 4 ≤ off) → off + length w ≤ PAGE_SIZE →
  set_range off w p ≠ p → ¬ checksum_ok (set_range off w p).
Proof.
  intros Hp Hc Hw Hd Hin Hne Hc'. unfold checksum_ok in *.
  assert (page_wf (set_range off w p)) as Hp' by by apply set_range_wf.
  assert (slice off (off + length w) (data p) ≠ w) as Hx.
  { intros E. apply Hne. destruct p as [d]. unfold set_range. simpl in *. f_equal.
    rewrite <- E at 1. apply splice_slice; [|lia]. unfold page_wf in Hp. simpl in Hp. lia. }
  destruct Hd as [Hd|Hd].
  - apply Hne.
    assert (drop 4 (data (set_range off w p)) = drop 4 (data p)) as Ed.
    { rewrite !drop_slice by done. apply slice_set_range_ne; [done|lia|right; lia]. }
    rewrite Ed, <- Hc in Hc'.
    assert (slice 0 4 (data (set_range off w p)) = slice 0 4 (data p)) as Es.
    { apply le_combine_inj; [unfold page_wf in *; page_lia|exact Hc']. }
    by apply page_eq_split.
  - rewrite slice_set_range_ne in Hc' by (done || lia).
    rewrite Hc in Hc'. revert Hc'. simpl. unfold splice.
    set (x := slice off (off + length w) (data p)) in *.
    assert (length x = length w) as Hlx by (unfold x, page_wf in *; len).
    assert (drop 4 (data p) =
      slice 4 off (data p) ++ x ++ drop (off + length w) (data p)) as ->.
    { rewrite !drop_slice by done. unfold x. rewrite slice_cat by lia.
      by rewrite slice_cat by lia. }
    assert (drop 4 (take off (data p) ++ w ++ drop (off + length w) (data p)) =
      slice 4 off (data p) ++ w ++ drop (off + length w) (data p)) as ->.
    { rewrite drop_app_le by (unfold page_wf in *; len).
      f_equal. unfold slice. by rewrite skipn_firstn_comm. }
    apply crc32c_window; [done|lia|done].
Qed.

(** C36. Bit rot is caught: when a verified page is altered anywhere within
    four consecutive bytes, all in the checksum field or all in the rest of
    the page (so any change of a single byte), it no longer verifies under any
    id. *)
Theorem verify_rejects_corruption (id id' : PageId) (p : Page) (h : PageHeader)
    (off : nat) (w : bytes) :
  page_wf p → verify id p = Ok h → length w ≤ 4 →
  (off + length w ≤ 4 ∨ 4 ≤ off) → off + length w ≤ PAGE_SIZE →
  raw_write off w p ≠ p →
  ∃ e, verify id' (raw_write off w p) = Err e ∧ is_corruption e = true.
Proof.
  intros Hp Hv Hw Hd Hin Hne.
  assert (¬ checksum_ok (raw_write off w p)) as Hbad
    by (apply checksum_window; eauto using verify_ok_checksum).
  destruct (verify id' (raw_write off w p)) as [h'|e] eqn:E.
  - apply verify_ok_checksum in E; [done|by apply set_range_wf].
  - eauto using verify_err_corruption.
Qed.

(** A page is never taken for another one: a page that verifies under
    some id is rejected under every other id, and an all-zero page (a hole in
    the file) is rejected under every id. *)
Theorem verify_rejects_misdirected (id id' : PageId) (p : Page) (h : PageHeader) :
  page_wf p → verify id p = Ok h → id' ≠ id →
  is_err (verify id' p) = true ∧ is_err (verify id zeroed) = true.
Proof.
  intros Hp Hv Hne. split.
  - destruct (verify id' p) as [h'|] eqn:E; [|done].
    apply verify_ok_id in Hv, E; [congruence|done..].
  - destruct (verify id zeroed) as [h'|] eqn:E; [|done].
    apply verify_ok_iff in E as (_ & (E & _) & _); [|apply zeroed_wf].
    by destruct (page_type h').
Qed.

(** Pages do not overlap in the file: below the 2^52 pages whose offset
    fits a [u64], the offset is the exact product and distinct pages occupy
    disjoint byte ranges. *)
Theorem file_offsets_disjoint (id id' : PageId) :
  page_addressable id → page_addressable id' → id ≠ id' →
  file_offset id = (id * Z.of_nat PAGE_SIZE)%Z ∧
  ((file_offset id + Z.of_nat PAGE_SIZE ≤ file_offset id')%Z ∨
   (file_offset id' + Z.of_nat PAGE_SIZE ≤ file_offset id)%Z).
Proof.
  intros H1 H2 Hne. rewrite !file_offset_exact by done. rewrite PAGE_SIZE_val. lia.
Qed.

End Properties.

(** ** Witnesses *)

Module PageWitness.
Definition cpu : Cpu := {| cpu_arch := OtherArch; cpu_feature_detected := false |}.

(** The page the unit tests build: id 9, LSN 77, payload "hello". *)
Definition sealed_page (id : Z) : Page :=
  @seal cpu (payload_write 0 [Byte.x68; Byte.x65; Byte.x6c; Byte.x6c; Byte.x6f]
    (set_lsn 77 (page_new id Heap))).

Lemma sealed_page_wf id : page_wf (sealed_page id).
Proof.
  apply seal_wf, payload_write_wf; [|auto with oxen]. page_lia.
Qed.

Lemma sealed_page_verifies :
  @verify cpu 9 (sealed_page 9) = Ok {| page_type := Heap; header_page_id := 9; lsn := 77 |}.
Proof. vm_compute. reflexivity. Qed.
End PageWitness.

Lemma sealed_page_round_trips_witness :
  let pl := zeros (PAGE_SIZE - PAGE_HEADER_SIZE) in
  payload (@seal PageWitness.cpu (payload_write 0 pl (set_lsn 77 (page_new 9 Heap)))) = pl.
Proof.
  intros pl.
  exact (proj2 (@sealed_page_round_trips PageWitness.cpu 9 77 Heap pl
    ltac:(done) ltac:(done) (length_zeros _))).
Defined.

Lemma verify_accepts_exactly_witness :
  @checksum_ok PageWitness.cpu (PageWitness.sealed_page 9).
Proof.
  destruct (@verify_accepts_exactly PageWitness.cpu 9 _ (PageWitness.sealed_page_wf 9))
    as [Hok _].
  exact (proj1 (proj1 (Hok _) PageWitness.sealed_page_verifies)).
Defined.

Lemma verify_rejects_corruption_witness :
  ∃ e, @verify PageWitness.cpu 9 (raw_write 100 [Byte.xff] (PageWitness.sealed_page 9)) = Err e
       ∧ is_corruption e = true.
Proof.
  eapply (@verify_rejects_corruption PageWitness.cpu 9 9).
  - apply PageWitness.sealed_page_wf.
  - exact PageWitness.sealed_page_verifies.
  - simpl. lia.
  - right. lia.
  - page_lia.
  - vm_compute. intros E. discriminate E.
Defined.

Lemma verify_rejects_misdirected_witness :
  is_err (@verify PageWitness.cpu 10 (PageWitness.sealed_page 9)) = true.
Proof.
  exact (proj1 (@verify_rejects_misdirected PageWitness.cpu 9 10 _ _
    (PageWitness.sealed_page_wf 9) PageWitness.sealed_page_verifies ltac:(lia))).
Defined.

Lemma file_offsets_disjoint_witness : file_offset 3 = (3 * Z.of_nat PAGE_SIZE)%Z.
Proof.
  refine (proj1 (file_offsets_disjoint 3 4 _ _ _)); unfold page_addressable; lia.
Defined.
