(* ===== verification/FileHeader.v ===== *)
(** * The database file header (src/crates/oxendb/src/storage/file_header.rs)

    Encoding and decoding of page 0. *)

From S2P Require Import Prelude Errors Checksum Page.

(** [b"oxenDB\0\0"]. *)
Definition MAGIC : bytes :=
  [Byte.x6f; Byte.x78; Byte.x65; Byte.x6e; Byte.x44; Byte.x42; Byte.x00; Byte.x00].

Definition FORMAT_VERSION : Z := 1.

(** [struct FileHeader]. *)
Record FileHeader : Type := { page_count : Z }.

Definition file_header_new : FileHeader := {| page_count := 1 |}.

(** [read_u32(bytes, range)]. *)
Definition read_u32 (b : bytes) (lo hi : nat) : Z := from_le_bytes (slice lo hi b).

Section Codec.
Local Open Scope string_scope.
Context `{Cpu}.

(** [FileHeader::encode]. *)
Definition encode (h : FileHeader) : Page :=
  let page := zeroed in
  let page := set_range 4 MAGIC page in
  let page := set_range 12 (u32_to_le_bytes FORMAT_VERSION) page in
  let page := set_range 16 (u32_to_le_bytes (Z.of_nat PAGE_SIZE)) page in
  let page := set_range 20 (u64_to_le_bytes (page_count h)) page in
  let checksum := crc32c (drop 4 (data page)) in
  set_range 0 (u32_to_le_bytes checksum) page.

(** [FileHeader::decode]. *)
Definition decode (page : Page) : Result FileHeader :=
  let b := as_bytes page in
  if bool_decide (slice 4 12 b ≠ MAGIC) then
    Err (UnsupportedFormat "not an oxenDB database file")
  else
    let stored := read_u32 b 0 4 in
    let actual := crc32c (drop 4 b) in
    if negb (stored =? actual)%Z then
      Err (corruption ("file header checksum mismatch (stored " +:+ hex_u32 stored +:+
                       ", computed " +:+ hex_u32 actual +:+ ")"))
    else
      let version := read_u32 b 12 16 in
      if negb (version =? FORMAT_VERSION)%Z then
        Err (UnsupportedFormat ("file format version " +:+ pretty version +:+
               ", this build supports version " +:+ pretty FORMAT_VERSION))
      else
        let page_size := read_u32 b 16 20 in
        if negb (page_size =? Z.of_nat PAGE_SIZE)%Z then
          Err (UnsupportedFormat ("page size " +:+ pretty page_size +:+
                 ", this build supports " +:+ pretty (Z.of_nat PAGE_SIZE)))
        else
          let count := from_le_bytes (slice 20 28 b) in
          if (count =? 0)%Z then Err (corruption "file header reports zero pages")
          else Ok {| page_count := count |}.

End Codec.

(** ** Lemmas *)

Section Lemmas.
Context `{Cpu}.
Implicit Types p : Page.

(** The page [encode] seals: the header fields over zeroes. *)
Definition header_body (h : FileHeader) : Page :=
  set_range 20 (u64_to_le_bytes (page_count h))
    (set_range 16 (u32_to_le_bytes (Z.of_nat PAGE_SIZE))
      (set_range 12 (u32_to_le_bytes FORMAT_VERSION) (set_range 4 MAGIC zeroed))).

Lemma encode_seal h : encode h = seal (header_body h).
Proof. done. Qed.

Lemma header_body_wf h : page_wf (header_body h).
Proof. unfold header_body. repeat (apply set_range_wf; [unfold MAGIC; page_lia|]). auto with oxen. Qed.

Lemma encode_wf h : page_wf (encode h).
Proof. rewrite encode_seal. apply seal_wf, header_body_wf. Qed.

(** What the fields of an accepted header page are. *)
Definition header_fields (p : Page) (h : FileHeader) : Prop :=
  slice 4 12 (data p) = MAGIC ∧
  read_u32 (data p) 12 16 = FORMAT_VERSION ∧
  read_u32 (data p) 16 20 = Z.of_nat PAGE_SIZE ∧
  from_le_bytes (slice 20 28 (data p)) = page_count h ∧
  page_count h ≠ 0%Z.

Lemma decode_ok_iff p h : decode p = Ok h ↔ checksum_ok p ∧ header_fields p h.
Proof.
  unfold decode, checksum_ok, header_fields, as_bytes.
  case_bool_decide as Hm; simpl; [naive_solver|].
  unfold read_u32 at 1. destruct (Z.eqb_spec (from_le_bytes (slice 0 4 (data p)))
    (crc32c (drop 4 (data p)))); simpl; [|naive_solver].
  destruct (Z.eqb_spec (read_u32 (data p) 12 16) FORMAT_VERSION); simpl; [|naive_solver].
  destruct (Z.eqb_spec (read_u32 (data p) 16 20) (Z.of_nat PAGE_SIZE)); simpl; [|naive_solver].
  destruct (Z.eqb_spec (from_le_bytes (slice 20 28 (data p))) 0); destruct h as [c]; simpl.
  - split; [done|]. intros (_ & _ & _ & _ & ? & ?). congruence.
  - split; [intros [= <-]; auto 10|]. by intros (_ & _ & _ & _ & -> & _).
Qed.

Lemma header_body_fields h :
  u64_range (page_count h) → page_count h ≠ 0%Z → header_fields (header_body h) h.
Proof.
  intros Hr Hnz. unfold header_fields, read_u32, header_body.
  set (p1 := set_range 4 MAGIC zeroed). set (p2 := set_range 12 _ p1).
  set (p3 := set_range 16 _ p2).
  assert (page_wf p1) as W1 by (apply set_range_wf; [unfold MAGIC; page_lia|auto with oxen]).
  assert (page_wf p2) as W2 by (apply set_range_wf; [page_lia|done]).
  assert (page_wf p3) as W3 by (apply set_range_wf; [page_lia|done]).
  rewrite (slice_set_range_same 20 28), !(slice_set_range_ne _ _ 20), from_to_le_u64
    by (done || page_lia).
  unfold p3. rewrite (slice_set_range_same 16 20), !(slice_set_range_ne _ _ 16)
    by (done || page_lia).
  unfold p2. rewrite (slice_set_range_same 12 16), !(slice_set_range_ne _ _ 12)
    by (done || page_lia).
  unfold p1. rewrite slice_set_range_same by (auto with oxen || unfold MAGIC; page_lia).
  rewrite !from_to_le_u32 by (unfold u32_range, FORMAT_VERSION; page_lia). done.
Qed.

Lemma seal_fields p h : page_wf p → header_fields p h → header_fields (seal p) h.
Proof.
  intros Hp. unfold header_fields, read_u32. by rewrite !seal_slice by (done || lia).
Qed.

Lemma decode_encode h :
  u64_range (page_count h) → page_count h ≠ 0%Z → decode (encode h) = Ok h.
Proof.
  intros. rewrite encode_seal. apply decode_ok_iff.
  split; [apply seal_checksum_ok, header_body_wf|].
  by apply seal_fields, header_body_fields; [apply header_body_wf|..].
Qed.

Lemma decode_page_count_range p h : page_wf p → decode p = Ok h → (1 ≤ page_count h < 2 ^ 64)%Z.
Proof.
  intros Hp (_ & _ & _ & _ & E & Hnz)%decode_ok_iff.
  assert (u64_range (page_count h)) as Hr.
  { rewrite <- E. apply from_le_bytes_u64_range. unfold page_wf in Hp. page_lia. }
  unfold u64_range in Hr. lia.
Qed.

End Lemmas.

#[export] Hint Resolve encode_wf : oxen.

(** ** Properties *)

Section Properties.
Context `{Cpu}.

(** The header round-trips: every page count a database can have comes
    back unchanged from the encoded page, and a decoded count is never zero. *)
Theorem file_header_round_trip (h : FileHeader) :
  u64_range (page_count h) → page_count h ≠ 0%Z →
  decode (encode h) = Ok h ∧
  ∀ p h', page_wf p → decode p = Ok h' → (1 ≤ page_count h' < 2 ^ 64)%Z.
Proof. split; [by apply decode_encode|apply decode_page_count_range]. Qed.

(** The checks run in the documented order: magic, checksum, format
    version, page size, page count.  A foreign file is reported as such
    whatever its checksum says, a damaged header as corruption, and a header of
    another version or page size as unsupported; what remains is accepted. *)
Theorem decode_check_order (p : Page) :
  page_wf p →
  let b := data p in
  match decode p with
  | Ok h => checksum_ok p ∧ header_fields p h
  | Err (UnsupportedFormat _) =>
      slice 4 12 b ≠ MAGIC ∨
      checksum_ok p ∧ (read_u32 b 12 16 ≠ FORMAT_VERSION ∨ read_u32 b 16 20 ≠ Z.of_nat PAGE_SIZE)
  | Err (Corruption _) =>
      slice 4 12 b = MAGIC ∧
      (¬ checksum_ok p ∨
       read_u32 b 12 16 = FORMAT_VERSION ∧ read_u32 b 16 20 = Z.of_nat PAGE_SIZE ∧
       from_le_bytes (slice 20 28 b) = 0%Z)
  | Err _ => False
  end.
Proof.
  intros Hp b. destruct (decode p) as [h|e] eqn:E; [by apply decode_ok_iff|].
  revert E. unfold decode, as_bytes, checksum_ok, read_u32. fold b.
  case_bool_decide; [intros [= <-]; auto|].
  case (Z.eqb_spec (from_le_bytes (slice 0 4 b))); intros; simplify_eq/=; [|naive_solver].
  case (Z.eqb_spec (from_le_bytes (slice 12 16 b)) FORMAT_VERSION) in *; simplify_eq/=; [|auto].
  case (Z.eqb_spec (from_le_bytes (slice 16 20 b)) (Z.of_nat PAGE_SIZE)) in *; simplify_eq/=; [|auto].
  case (Z.eqb_spec (from_le_bytes (slice 20 28 b)) 0) in *; simplify_eq/=.
  auto 10.
Qed.

(** A damaged header is never accepted: altering an accepted header page
    within four consecutive bytes (all in the checksum field or all outside
    it) makes [decode] fail. *)
Theorem decode_rejects_corruption (p : Page) (h : FileHeader) (off : nat) (w : bytes) :
  page_wf p → decode p = Ok h → length w ≤ 4 →
  (off + length w ≤ 4 ∨ 4 ≤ off) → off + length w ≤ PAGE_SIZE →
  raw_write off w p ≠ p → is_err (decode (raw_write off w p)) = true.
Proof.
  intros Hp [Hc _]%decode_ok_iff Hw Hd Hin Hne.
  destruct (decode (raw_write off w p)) as [h'|] eqn:E; [|done].
  apply decode_ok_iff in E as [Hc' _]. by destruct (checksum_window off w p).
Qed.

End Properties.

Lemma file_header_round_trip_witness :
  @decode PageWitness.cpu (@encode PageWitness.cpu {| page_count := 12345 |}) =
  Ok {| page_count := 12345 |}.
Proof.
  exact (proj1 (@file_header_round_trip PageWitness.cpu {| page_count := 12345 |}
    ltac:(done) ltac:(done))).
Defined.

(** The freshly created header with its page count altered: the checksum no
    longer matches. *)
Definition torn_header : Page :=
  raw_write 20 [Byte.x11] (@encode PageWitness.cpu file_header_new).

Lemma torn_header_rejected :
  match @decode PageWitness.cpu torn_header with Err (Corruption _) => true | _ => false end = true.
Proof. vm_compute. reflexivity. Qed.

Lemma decode_check_order_witness : slice 4 12 (data torn_header) = MAGIC.
Proof.
  pose proof (@decode_check_order PageWitness.cpu torn_header
    (set_range_wf 20 [Byte.x11] _ ltac:(page_lia) (encode_wf file_header_new))) as H.
  pose proof torn_header_rejected as R. simpl in H.
  destruct (decode torn_header) as [h|[]]; try discriminate R. exact (proj1 H).
Defined.

Lemma decode_rejects_corruption_witness :
  is_err (@decode PageWitness.cpu torn_header) = true.
Proof.
  eapply (@decode_rejects_corruption PageWitness.cpu).
  - apply encode_wf.
  - by apply decode_encode.
  - simpl; lia.
  - right. lia.
  - page_lia.
  - intros E. apply (f_equal (byte_at 20)) in E. vm_compute in E. discriminate E.
Defined.
