(* ===== verification/FileSys.v ===== *)
(** * Files and the operating system

    The part of [std::fs] and [std::os::unix::fs::FileExt] the storage layer
    uses: positional reads and writes, truncation, fsync, creation.  Every
    call can succeed, fail after writing part of its data, or be the moment
    the machine crashes; the fate of each call is read off a plan carried by
    the world, so that theorems quantify over all plans.

    A file remembers what is durable and what was written since the last
    fsync; the crash relation at the end says what a reboot may find. *)

From S2P Require Import Prelude Errors.

(** ** Paths

    A [std::path::Path] is the sequence of its components. *)

Inductive component : Type :=
  | RootDir
  | CurDir
  | ParentDir
  | Normal (name : string).

#[global] Instance component_eq_dec : EqDecision component.
Proof. solve_decision. Defined.

Definition component_encode (c : component) : nat * string :=
  match c with
  | RootDir => (0, EmptyString)
  | CurDir => (1, EmptyString)
  | ParentDir => (2, EmptyString)
  | Normal s => (3, s)
  end.

Definition component_decode (c : nat * string) : component :=
  match c with
  | (0, _) => RootDir
  | (1, _) => CurDir
  | (2, _) => ParentDir
  | (_, s) => Normal s
  end.

#[global] Instance component_countable : Countable component.
Proof. refine (inj_countable' component_encode component_decode _). by intros []. Defined.

Abbreviation path := (list component).

(** [Path::file_name]. *)
Definition file_name (p : path) : option string :=
  match last p with
  | Some (Normal s) => Some s
  | _ => None
  end.

(** [Path::parent]. *)
Definition parent (p : path) : option path :=
  match last p with
  | None | Some RootDir => None
  | Some _ => Some (take (length p - 1) p)
  end.

(** [Path::with_file_name]. *)
Definition with_file_name (p : path) (name : string) : path :=
  match file_name p with
  | Some _ => take (length p - 1) p ++ [Normal name]
  | None => p ++ [Normal name]
  end.

(** [Path::display]. *)
Definition component_to_string (c : component) : string :=
  match c with
  | RootDir => ""
  | CurDir => "."
  | ParentDir => ".."
  | Normal s => s
  end.

Fixpoint display (p : path) : string :=
  match p with
  | [] => ""
  | [RootDir] => "/"
  | [c] => component_to_string c
  | c :: p => component_to_string c +:+ "/" +:+ display p
  end.

(** ** File contents *)

(** An unsynced change of a file. *)
Inductive file_op : Type :=
  | WriteAt (off : nat) (src : bytes)
  | SetLen (n : nat).

(** A positional write past the end leaves a hole of zeroes. *)
Definition write_bytes (off : nat) (src b : bytes) : bytes :=
  match src with
  | [] => b
  | _ => splice off src (b ++ zeros (off + length src - length b))
  end.

Definition set_len_bytes (n : nat) (b : bytes) : bytes := take n b ++ zeros (n - length b).

Definition apply_op (b : bytes) (op : file_op) : bytes :=
  match op with
  | WriteAt off src => write_bytes off src b
  | SetLen n => set_len_bytes n b
  end.

Record file : Type := {
  f_cur : bytes;              (* what a read sees *)
  f_synced : bytes;           (* contents at the last fsync *)
  f_pending : list file_op;   (* changes since then, oldest first *)
  f_entry_synced : bool;      (* the directory entry is durable *)
}.

Definition file_wf (f : file) : Prop := f_cur f = foldl apply_op (f_synced f) (f_pending f).

Definition file_new : file :=
  {| f_cur := []; f_synced := []; f_pending := []; f_entry_synced := false |}.

Definition file_apply (op : file_op) (f : file) : file :=
  {| f_cur := apply_op (f_cur f) op; f_synced := f_synced f;
     f_pending := f_pending f ++ [op]; f_entry_synced := f_entry_synced f |}.

Definition file_sync (f : file) : file :=
  {| f_cur := f_cur f; f_synced := f_cur f; f_pending := [];
     f_entry_synced := f_entry_synced f |}.

Definition file_link (f : file) : file :=
  {| f_cur := f_cur f; f_synced := f_synced f; f_pending := f_pending f;
     f_entry_synced := true |}.

(** ** The world *)

(** What happens to one call: [IoFail code n] reports an error (a write
    after [n] bytes), [IoCrash n] stops the process or the machine during the
    call (a write after [n] bytes). *)
Inductive io_fate : Type :=
  | IoOk
  | IoFail (code : Z) (n : nat)
  | IoCrash (n : nat).

#[global] Instance io_fate_eq_dec : EqDecision io_fate.
Proof. solve_decision. Defined.

Record World : Type := {
  w_files : gmap path file;
  w_plan : list io_fate;    (* [IoOk] once the plan is used up *)
}.

(** Every call of the library runs under its own plan of failures. *)
Definition set_plan (plan : list io_fate) (w : World) : World :=
  {| w_files := w_files w; w_plan := plan |}.

Definition set_files (fs : gmap path file) (w : World) : World :=
  {| w_files := fs; w_plan := w_plan w |}.

Definition next_fate : M World io_fate := λ w,
  match w_plan w with
  | [] => (Done IoOk, w)
  | fate :: plan => (Done fate, {| w_files := w_files w; w_plan := plan |})
  end.

Definition crash {S A} : M S A := λ s, (Crashed, s).

Definition alter_file (f : file → file) (p : path) : M World unit :=
  modify (λ w, set_files (alter f p (w_files w)) w).

(** A call that changes nothing but may fail. *)
Definition io_call {A} (m : M World (Result A)) : M World (Result A) :=
  let! fate := next_fate in
  match fate with
  | IoOk => m
  | IoFail code _ => ret (Err (from_io_error (Os code)))
  | IoCrash _ => crash
  end.

(** [path.exists()]. *)
Definition path_exists (p : path) : M World bool :=
  gets (λ w, bool_decide (is_Some (w_files w !! p))).

(** [OpenOptions::new().write(true).open(path)], with or without [read]. *)
Definition open_file (p : path) : M World (Result path) :=
  io_call (let! w := get in
           ret (match w_files w !! p with
                | Some _ => Ok p
                | None => Err (from_io_error NotFound)
                end)).

(** The same with [create_new(true)]. *)
Definition create_new_file (p : path) : M World (Result path) :=
  io_call (let! w := get in
           match w_files w !! p with
           | Some _ => ret (Err (from_io_error AlreadyExists))
           | None =>
               let! _ := modify (λ w, set_files (<[p := file_new]> (w_files w)) w) in
               ret (Ok p)
           end).

(** The device writes whole sectors: a write inside one sector happens
    entirely or not at all. *)
Definition SECTOR : nat := 512.

Definition within_sector (off n : nat) : Prop := off / SECTOR = (off + n - 1) / SECTOR.

#[global] Instance within_sector_dec off n : Decision (within_sector off n).
Proof. unfold within_sector. apply _. Defined.

(** [file.write_all_at(src, off)]: the loop over partial writes, so that a
    failure may leave a prefix behind, and so may a crash.  What becomes of an
    unsynced write when the machine stops is left to the crash relation below. *)
Definition write_all_at (p : path) (src : bytes) (off : Z) : M World (Result unit) :=
  let! fate := next_fate in
  let write src := alter_file (file_apply (WriteAt (Z.to_nat off) src)) p in
  let atomic := bool_decide (within_sector (Z.to_nat off) (length src)) in
  match fate with
  | IoOk => let! _ := write src in ret (Ok tt)
  | IoFail code n =>
      let! _ := write (take (if atomic then 0 else n) src) in
      ret (Err (from_io_error (Os code)))
  | IoCrash n =>
      let! _ := write (if atomic && negb (n =? 0) then src else take n src) in
      crash
  end.

(** [file.read_exact_at(buf, off)] with [buf.len() = n]. *)
Definition read_exact_at (p : path) (n : nat) (off : Z) : M World (Result bytes) :=
  io_call (let! w := get in
           ret (match w_files w !! p with
                | None => Err (from_io_error NotFound)
                | Some f =>
                    let lo := Z.to_nat off in
                    if decide (lo + n ≤ length (f_cur f))
                    then Ok (slice lo (lo + n) (f_cur f))
                    else Err (from_io_error UnexpectedEof)
                end)).

(** [file.read_to_end(&mut contents)] from the start. *)
Definition read_to_end (p : path) : M World (Result bytes) :=
  io_call (let! w := get in
           ret (match w_files w !! p with
                | None => Err (from_io_error NotFound)
                | Some f => Ok (f_cur f)
                end)).

(** [file.metadata()?.len()]. *)
Definition metadata_len (p : path) : M World (Result Z) :=
  io_call (let! w := get in
           ret (match w_files w !! p with
                | None => Err (from_io_error NotFound)
                | Some f => Ok (Z.of_nat (length (f_cur f)))
                end)).

(** [file.set_len(n)]. *)
Definition set_len (p : path) (n : Z) : M World (Result unit) :=
  io_call (let! _ := alter_file (file_apply (SetLen (Z.to_nat n))) p in ret (Ok tt)).

(** [file.sync_all()] and [file.sync_data()]: the length is part of the data
    both make durable. *)
Definition sync_all (p : path) : M World (Result unit) :=
  io_call (let! _ := alter_file file_sync p in ret (Ok tt)).

Definition sync_data (p : path) : M World (Result unit) := sync_all p.

(** [File::open(dir)?.sync_all()?]: makes the entries of a directory durable.
    The directory itself is taken to exist. *)
Definition in_dir (dir p : path) : bool :=
  match parent p with
  | Some d => bool_decide (d = dir) || bool_decide (d = [] ∧ dir = [CurDir])
  | None => false
  end.

Definition link_dir (dir : path) (fs : gmap path file) : gmap path file :=
  map_imap (λ p f, Some (if in_dir dir p then file_link f else f)) fs.

Definition sync_dir (dir : path) : M World (Result unit) :=
  let? _ := io_call (ret (Ok tt)) in
  io_call (let! _ := modify (λ w, set_files (link_dir dir (w_files w)) w) in ret (Ok tt)).

(** ** Reasoning about calls *)

(** No failure and no crash is planned. *)
Definition io_ok (w : World) : Prop := Forall (λ f, f = IoOk) (w_plan w).

#[global] Instance io_ok_dec w : Decision (io_ok w).
Proof. unfold io_ok. apply _. Defined.

(** [w'] differs from [w] by its files and a used-up part of the plan. *)
Definition files_to (fs : gmap path file) (w w' : World) : Prop :=
  w_files w' = fs ∧ (io_ok w → io_ok w').

Lemma files_to_refl w : files_to (w_files w) w w.
Proof. by split. Qed.

Section Calls.
Implicit Types w : World.
Implicit Types p : path.

Lemma wp_next_fate (Q : io_fate → World → Prop) C w :
  (∀ w', files_to (w_files w) w w' → Q IoOk w') →
  (¬ io_ok w → ∀ fate w', files_to (w_files w) w w' → Q fate w') →
  wp next_fate Q C w.
Proof.
  intros Hok Hbad. unfold wp, next_fate.
  destruct (w_plan w) as [|fate plan] eqn:E.
  - apply Hok, files_to_refl.
  - assert (files_to (w_files w) w {| w_files := w_files w; w_plan := plan |}) as Hf.
    { split; [done|]. unfold io_ok. rewrite E. intros H. by inversion H. }
    destruct (decide (io_ok w)) as [H|]; [|by apply Hbad].
    unfold io_ok in H. rewrite E in H. inversion H; subst. by apply Hok.
Qed.

Lemma wp_io_call {A} (m : M World (Result A)) Q C w :
  (∀ w', files_to (w_files w) w w' → wp m Q C w') →
  (¬ io_ok w → ∀ w', files_to (w_files w) w w' → C w' ∧ ∀ code, Q (Err (Io (Os code))) w') →
  wp (io_call m) Q C w.
Proof.
  intros Hm Hbad. unfold io_call. apply wp_bind, wp_next_fate; [done|].
  intros Hn [|code n|] w' Hw'; [by apply Hm|apply wp_ret|]; by apply (Hbad Hn w' Hw').
Qed.

Lemma alter_file_insert p g f w w' :
  w_files w !! p = Some f → files_to (w_files w) w w' →
  files_to (<[p := g f]> (w_files w)) w (set_files (alter g p (w_files w')) w').
Proof.
  intros Hf [E1 E2]. split; [|done]. simpl. rewrite E1.
  apply map_eq. intros q. destruct (decide (p = q)) as [->|].
  - by rewrite lookup_alter_eq, lookup_insert_eq, Hf.
  - by rewrite lookup_alter_ne, lookup_insert_ne.
Qed.

(** How much of a write that did not succeed may be in the file. *)
Definition partial_write (off len n : nat) : Prop :=
  n = 0 ∨ n = len ∨ ¬ within_sector off len.

Lemma wp_write_all_at p src off f (Q : Result unit → World → Prop) C w :
  w_files w !! p = Some f →
  (∀ w', files_to (<[p := file_apply (WriteAt (Z.to_nat off) src) f]> (w_files w)) w w' →
     Q (Ok tt) w') →
  (¬ io_ok w → ∀ n w', partial_write (Z.to_nat off) (length src) n →
     files_to (<[p := file_apply (WriteAt (Z.to_nat off) (take n src)) f]> (w_files w)) w w' →
     C w' ∧ ∀ code, Q (Err (Io (Os code))) w') →
  wp (write_all_at p src off) Q C w.
Proof.
  intros Hf Hok Hbad. unfold write_all_at. apply wp_bind.
  apply wp_next_fate; [|intros Hn [|code n|n]]; intros w' Hw'; apply wp_bind, wp_modify.
  1,2: by apply wp_ret, Hok, alter_file_insert.
  - apply wp_ret. set (k := if bool_decide _ then 0 else n).
    assert (partial_write (Z.to_nat off) (length src) k) as Hk
      by (unfold k, partial_write; case_bool_decide; auto).
    exact (proj2 (Hbad Hn k _ Hk (alter_file_insert _ _ _ _ _ Hf Hw')) code).
  - set (at_once := bool_decide _ && negb (n =? 0)).
    set (k := if at_once then length src else n).
    assert ((if at_once then src else take n src) = take k src) as ->
      by (unfold k; destruct at_once; by rewrite ?firstn_all).
    refine (proj1 (Hbad Hn k _ _ (alter_file_insert _ _ _ _ _ Hf Hw'))).
    unfold k, at_once, partial_write. case_bool_decide; [|by auto].
    destruct (Nat.eqb_spec n 0); simpl; auto.
Qed.

(** Calls that only look at the files. *)
Lemma wp_io_query {A} (g : World → Result A) (Q : Result A → World → Prop) C w :
  (∀ w', files_to (w_files w) w w' → Q (g w') w') →
  (¬ io_ok w → ∀ w', files_to (w_files w) w w' → C w' ∧ ∀ code, Q (Err (Io (Os code))) w') →
  wp (io_call (let! w := get in ret (g w))) Q C w.
Proof.
  intros Hok Hbad. apply wp_io_call; [|done].
  intros w' Hw'. wp_step. wp_step. wp_step. by apply Hok.
Qed.

Lemma wp_read_exact_at p n off f (Q : Result bytes → World → Prop) C w :
  w_files w !! p = Some f →
  (∀ w', files_to (w_files w) w w' →
     if decide (Z.to_nat off + n ≤ length (f_cur f))
     then Q (Ok (slice (Z.to_nat off) (Z.to_nat off + n) (f_cur f))) w'
     else Q (Err (Io UnexpectedEof)) w') →
  (¬ io_ok w → ∀ w', files_to (w_files w) w w' → C w' ∧ ∀ code, Q (Err (Io (Os code))) w') →
  wp (read_exact_at p n off) Q C w.
Proof.
  intros Hf Hok Hbad. apply wp_io_query; [|done].
  intros w' Hw'. rewrite (proj1 Hw'), Hf. specialize (Hok w' Hw'). revert Hok. simpl.
  by destruct (decide _).
Qed.

Lemma wp_read_to_end p f (Q : Result bytes → World → Prop) C w :
  w_files w !! p = Some f →
  (∀ w', files_to (w_files w) w w' → Q (Ok (f_cur f)) w') →
  (¬ io_ok w → ∀ w', files_to (w_files w) w w' → C w' ∧ ∀ code, Q (Err (Io (Os code))) w') →
  wp (read_to_end p) Q C w.
Proof.
  intros Hf Hok Hbad. apply wp_io_query; [|done].
  intros w' Hw'. rewrite (proj1 Hw'), Hf. by apply Hok.
Qed.

Lemma wp_metadata_len p f (Q : Result Z → World → Prop) C w :
  w_files w !! p = Some f →
  (∀ w', files_to (w_files w) w w' → Q (Ok (Z.of_nat (length (f_cur f)))) w') →
  (¬ io_ok w → ∀ w', files_to (w_files w) w w' → C w' ∧ ∀ code, Q (Err (Io (Os code))) w') →
  wp (metadata_len p) Q C w.
Proof.
  intros Hf Hok Hbad. apply wp_io_query; [|done].
  intros w' Hw'. rewrite (proj1 Hw'), Hf. by apply Hok.
Qed.

Lemma wp_open_file p (Q : Result path → World → Prop) C w :
  (∀ w', files_to (w_files w) w w' →
     Q (match w_files w !! p with Some _ => Ok p | None => Err (Io NotFound) end) w') →
  (¬ io_ok w → ∀ w', files_to (w_files w) w w' → C w' ∧ ∀ code, Q (Err (Io (Os code))) w') →
  wp (open_file p) Q C w.
Proof.
  intros Hok Hbad. apply wp_io_query; [|done].
  intros w' Hw'. rewrite (proj1 Hw'). by apply Hok.
Qed.

(** Calls that change the file. *)
Lemma wp_create_new_file p (Q : Result path → World → Prop) C w :
  w_files w !! p = None →
  (∀ w', files_to (<[p := file_new]> (w_files w)) w w' → Q (Ok p) w') →
  (¬ io_ok w → ∀ w', files_to (w_files w) w w' → C w' ∧ ∀ code, Q (Err (Io (Os code))) w') →
  wp (create_new_file p) Q C w.
Proof.
  intros Hf Hok Hbad. apply wp_io_call; [|done].
  intros w' [E1 E2]. wp_step. wp_step. rewrite E1, Hf. wp_step. wp_step. wp_step.
  apply Hok. split; [by simpl; rewrite E1|done].
Qed.

Lemma wp_set_len p n f (Q : Result unit → World → Prop) C w :
  w_files w !! p = Some f →
  (∀ w', files_to (<[p := file_apply (SetLen (Z.to_nat n)) f]> (w_files w)) w w' → Q (Ok tt) w') →
  (¬ io_ok w → ∀ w', files_to (w_files w) w w' → C w' ∧ ∀ code, Q (Err (Io (Os code))) w') →
  wp (set_len p n) Q C w.
Proof.
  intros Hf Hok Hbad. apply wp_io_call; [|done].
  intros w' Hw'. wp_step. apply wp_modify, wp_ret. by apply Hok, alter_file_insert.
Qed.

Lemma wp_sync_all p f (Q : Result unit → World → Prop) C w :
  w_files w !! p = Some f →
  (∀ w', files_to (<[p := file_sync f]> (w_files w)) w w' → Q (Ok tt) w') →
  (¬ io_ok w → ∀ w', files_to (w_files w) w w' → C w' ∧ ∀ code, Q (Err (Io (Os code))) w') →
  wp (sync_all p) Q C w.
Proof.
  intros Hf Hok Hbad. apply wp_io_call; [|done].
  intros w' Hw'. wp_step. apply wp_modify, wp_ret. by apply Hok, alter_file_insert.
Qed.

Lemma link_dir_lookup dir fs p :
  link_dir dir fs !! p = (λ f, if in_dir dir p then file_link f else f) <$> fs !! p.
Proof. unfold link_dir. rewrite map_lookup_imap. by destruct (fs !! p). Qed.

Lemma wp_sync_dir dir (Q : Result unit → World → Prop) C w :
  (∀ w', files_to (link_dir dir (w_files w)) w w' → Q (Ok tt) w') →
  (¬ io_ok w → ∀ w', files_to (w_files w) w w' → C w' ∧ ∀ code, Q (Err (Io (Os code))) w') →
  wp (sync_dir dir) Q C w.
Proof.
  intros Hok Hbad. apply wp_bind_ok, wp_io_call; [|done].
  intros w1 [E1 I1]. wp_step. apply wp_io_call.
  - intros w2 [E2 I2]. wp_step. apply wp_modify, wp_ret, Hok.
    split; [simpl; congruence|]. intros Hi. exact (I2 (I1 Hi)).
  - intros Hn w2 [E2 I2]. apply Hbad; [auto|]. split; [congruence|auto].
Qed.

End Calls.

(** ** File contents *)

Section Contents.
Implicit Types b src : bytes.

Lemma write_bytes_inside off src b :
  off + length src ≤ length b → write_bytes off src b = splice off src b.
Proof.
  intros. unfold write_bytes. destruct src as [|x src]; [symmetry; apply splice_nil|].
  replace (off + length (x :: src) - length b) with 0 by lia.
  change (zeros 0) with (@nil byte). by rewrite app_nil_r.
Qed.

Lemma write_bytes_append src b : write_bytes (length b) src b = b ++ src.
Proof.
  unfold write_bytes. destruct src as [|x src]; [by rewrite app_nil_r|].
  unfold splice. rewrite take_app_le, take_ge, drop_ge by len.
  by rewrite app_nil_r.
Qed.

Lemma length_write_bytes off src b :
  src ≠ [] → length (write_bytes off src b) = Nat.max (length b) (off + length src).
Proof.
  intros Hs. unfold write_bytes. destruct src as [|x src]; [done|].
  rewrite length_splice; len.
Qed.

Lemma length_write_bytes_ge off src b : length b ≤ length (write_bytes off src b).
Proof.
  destruct (decide (src = [])) as [->|]; [done|]. rewrite length_write_bytes by done. lia.
Qed.

Lemma slice_write_bytes_same off src b :
  slice off (off + length src) (write_bytes off src b) = src.
Proof.
  unfold write_bytes. destruct src as [|x src].
  - unfold slice. by replace (off + length [] - off) with 0 by (simpl; lia).
  - apply slice_splice_same; [done|len].
Qed.

Lemma slice_write_bytes_ne lo hi off src b :
  hi ≤ length b → (hi ≤ off ∨ off + length src ≤ lo) →
  slice lo hi (write_bytes off src b) = slice lo hi b.
Proof.
  intros Hh Hd. unfold write_bytes. destruct src as [|x src]; [done|].
  rewrite slice_splice_ne; [by apply slice_app_l|len|done].
Qed.

Lemma length_set_len_bytes n b : length (set_len_bytes n b) = n.
Proof. unfold set_len_bytes. len. Qed.

Lemma file_apply_wf op f : file_wf f → file_wf (file_apply op f).
Proof. unfold file_wf. simpl. intros ->. by rewrite foldl_app. Qed.

Lemma file_sync_wf f : file_wf (file_sync f).
Proof. done. Qed.

End Contents.

#[export] Hint Resolve file_apply_wf file_sync_wf : oxen.

(** ** Crashes

    Changes that were not synced when the machine stops may be lost or
    applied, each one independently of the others.  A write that spans device
    sectors may also be torn, and its blocks reach the device in any order: any
    mixture of old and new bytes may be found, and where the write extends the
    file it may end anywhere and a later part may be there without an earlier
    one, which then reads as zeros.  A write within one sector is atomic. *)

Inductive torn (b : bytes) : file_op → bytes → Prop :=
  | torn_lost op : torn b op b
  | torn_done op : torn b op (apply_op b op)
  | torn_mixed off src b' :
      ¬ within_sector off (length src) →
      length b ≤ length b' ≤ length (write_bytes off src b) →
      (∀ i x, b' !! i = Some x →
         b !! i = Some x ∨ write_bytes off src b !! i = Some x ∨ (length b ≤ i ∧ x = Byte.x00)) →
      torn b (WriteAt off src) b'.

Inductive torn_list : bytes → list file_op → bytes → Prop :=
  | torn_nil b : torn_list b [] b
  | torn_cons b b1 b2 op ops : torn b op b1 → torn_list b1 ops b2 → torn_list b (op :: ops) b2.

(** [crash_content f b]: after a crash the file may hold [b]. *)
Definition crash_content (f : file) (b : bytes) : Prop := torn_list (f_synced f) (f_pending f) b.

(** A file as found after a reboot. *)
Definition file_at_rest (b : bytes) : file :=
  {| f_cur := b; f_synced := b; f_pending := []; f_entry_synced := true |}.

(** [reboot w w']: the files of [w'] are what a crash of [w] may leave.  A
    file whose directory entry was never synced may be gone altogether. *)
Definition reboot (w w' : World) : Prop :=
  ∀ p, match w_files w !! p, w_files w' !! p with
       | Some f, Some f' => ∃ b, crash_content f b ∧ f' = file_at_rest b
       | Some f, None => f_entry_synced f = false
       | None, Some _ => False
       | None, None => True
       end.

Lemma crash_content_clean f b : f_pending f = [] → crash_content f b → b = f_synced f.
Proof. unfold crash_content. intros ->. by inversion 1. Qed.

(** Nothing is lost when the process dies but the machine does not. *)
Lemma crash_content_cur f : file_wf f → crash_content f (f_cur f).
Proof.
  unfold file_wf, crash_content. intros ->. generalize (f_synced f).
  induction (f_pending f) as [|op ops IH]; intros b; simpl; [constructor|].
  econstructor; [apply torn_done|apply IH].
Qed.

(** The bytes an unsynced change may have touched. *)
Definition op_covers (op : file_op) (i : nat) : Prop :=
  match op with
  | WriteAt off src => off ≤ i < off + length src
  | SetLen n => n ≤ i
  end.

Lemma apply_op_untouched op b i :
  i < length b → ¬ op_covers op i → apply_op b op !! i = b !! i.
Proof.
  intros Hi Hc. destruct op as [off src|n]; simpl in *.
  - unfold write_bytes. destruct src as [|x src]; [done|].
    rewrite lookup_splice_ne by (len; simpl in *; lia). by rewrite lookup_app_l.
  - unfold set_len_bytes. rewrite lookup_app_l by len. apply lookup_take_lt. lia.
Qed.

(** A file with nothing left to sync. *)
Definition file_clean (f : file) : Prop := f_synced f = f_cur f ∧ f_pending f = [].

Lemma file_clean_wf f : file_clean f → file_wf f.
Proof. intros [E1 E2]. unfold file_wf. by rewrite E1, E2. Qed.

Lemma file_clean_crash f b : file_clean f → crash_content f b → b = f_cur f.
Proof. intros [<- Hp]. by apply crash_content_clean. Qed.

Lemma file_at_rest_clean b : file_clean (file_at_rest b).
Proof. done. Qed.

#[export] Hint Resolve file_clean_wf file_at_rest_clean : oxen.

(** The mildest crash: every change had already reached the disk. *)
Definition settle (w : World) : World :=
  {| w_files := (λ f, file_at_rest (f_cur f)) <$> w_files w; w_plan := [] |}.

Lemma reboot_settle w : map_Forall (λ _ f, file_wf f) (w_files w) → reboot w (settle w).
Proof.
  intros Hwf p. simpl. rewrite lookup_fmap.
  destruct (w_files w !! p) as [f|] eqn:E; simpl; [|done].
  exists (f_cur f). split; [|done]. apply crash_content_cur. exact (Hwf p f E).
Qed.
