(* ===== verification/Disk.v ===== *)
(** * The disk manager (src/crates/oxendb/src/storage/disk.rs)

    Page-granular access to the database file: sealing on write, verifying
    on read, and the in-memory page count. *)

From S2P Require Import Prelude Errors Checksum Page FileHeader FileSys.

(** [struct DiskManager]. *)
Record DiskManager : Type := {
  dm_file : path;
  dm_page_count : Z;
}.

Section Operations.
Local Open Scope string_scope.
Context `{Cpu}.

(** [sync_parent_dir]. *)
Definition parent_dir (p : path) : path :=
  match parent p with
  | Some d => if bool_decide (d = []) then [CurDir] else d
  | None => [CurDir]
  end.

Definition sync_parent_dir (p : path) : M World (Result unit) := sync_dir (parent_dir p).

(** [DiskManager::create]. *)
Definition disk_create (p : path) : M World (Result DiskManager) :=
  let? file := create_new_file p in
  let header := file_header_new in
  let? _ := write_all_at file (as_bytes (encode header)) (file_offset HEADER) in
  let? _ := sync_all file in
  let? _ := sync_parent_dir p in
  ret (Ok {| dm_file := file; dm_page_count := page_count header |}).

(** [DiskManager::open].  The expected length is a [u64] product. *)
Definition disk_open (p : path) : M World (Result DiskManager) :=
  let? file := open_file p in
  let? file_len := metadata_len file in
  if (file_len <? Z.of_nat PAGE_SIZE)%Z then
    ret (Err (UnsupportedFormat ("file is " +:+ pretty file_len +:+
           " bytes, too small to be an oxenDB database")))
  else
    let? b := read_exact_at file PAGE_SIZE (file_offset HEADER) in
    let page := {| data := b |} in
    let? header := lift (decode page) in
    let expected_len := u64_mul (page_count header) (Z.of_nat PAGE_SIZE) in
    if (file_len <? expected_len)%Z then
      ret (Err (corruption ("file is " +:+ pretty file_len +:+ " bytes but header lists " +:+
             pretty (page_count header) +:+ " pages (" +:+ pretty expected_len +:+ " bytes)")))
    else
      ret (Ok {| dm_file := file; dm_page_count := page_count header |}).

(** [DiskManager::set_page_count]: the result and the new atomic value. *)
Definition set_page_count (count : Z) (d : DiskManager) : Result unit * DiskManager :=
  let current := dm_page_count d in
  if (count <? current)%Z then
    (Err (InvalidArgument ("cannot shrink database from " +:+ pretty current +:+ " to " +:+
            pretty count +:+ " pages")), d)
  else (Ok tt, {| dm_file := dm_file d; dm_page_count := count |}).

(** [DiskManager::write_file_header]. *)
Definition write_file_header (d : DiskManager) : M World (Result unit) :=
  let header := {| page_count := dm_page_count d |} in
  write_all_at (dm_file d) (as_bytes (encode header)) (file_offset HEADER).

(** [DiskManager::check_data_page]. *)
Definition disk_check_data_page (id : PageId) (d : DiskManager) : Result unit :=
  if (id =? HEADER)%Z then
    Err (InvalidArgument "page 0 is the file header and cannot be accessed as a data page")
  else if (dm_page_count d <=? id)%Z then
    Err (InvalidArgument (page_id_to_string id +:+ " is out of bounds (file has " +:+
           pretty (dm_page_count d) +:+ " pages)"))
  else Ok tt.

(** [DiskManager::read_page]. *)
Definition read_page (id : PageId) (d : DiskManager) : M World (Result Page) :=
  let? _ := lift (disk_check_data_page id d) in
  let? b := read_exact_at (dm_file d) PAGE_SIZE (file_offset id) in
  let page := {| data := b |} in
  let? _ := lift (verify id page) in
  ret (Ok page).

(** [DiskManager::write_page]: the page is sealed in place, so it is
    returned next to the result. *)
Definition write_page (id : PageId) (page : Page) (d : DiskManager) :
    M World (Result unit * Page) :=
  match disk_check_data_page id d with
  | Err e => ret (Err e, page)
  | Ok _ =>
      if negb (page_id page =? id)%Z then
        ret (Err (InvalidArgument ("refusing to write " +:+ page_id_to_string (page_id page) +:+
               " to the location of " +:+ page_id_to_string id)), page)
      else
        let page := seal page in
        let! r := write_all_at (dm_file d) (as_bytes page) (file_offset id) in
        ret (r, page)
  end.

(** [DiskManager::sync]. *)
Definition disk_sync (d : DiskManager) : M World (Result unit) := sync_all (dm_file d).

End Operations.

(** ** Pages of a file *)

Section Pages.
Context `{Cpu}.
Implicit Types b : bytes.

(** The bytes of page [id] in a file; meaningful when the file is long
    enough. *)
Definition page_of (b : bytes) (id : PageId) : Page :=
  {| data := slice (Z.to_nat id * PAGE_SIZE) (Z.to_nat id * PAGE_SIZE + PAGE_SIZE) b |}.

(** The file reaches the end of page [id]. *)
Definition has_page (b : bytes) (id : PageId) : Prop :=
  (Z.to_nat id + 1) * PAGE_SIZE ≤ length b.

Lemma file_offset_nat id : page_addressable id → Z.to_nat (file_offset id) = Z.to_nat id * PAGE_SIZE.
Proof. intros Hid. rewrite file_offset_exact by done. unfold page_addressable in Hid. lia. Qed.

Lemma page_of_wf b id : has_page b id → page_wf (page_of b id).
Proof. unfold has_page, page_wf. simpl. intros. len. Qed.

(** Writing one page replaces that page and no other. *)
Lemma page_of_write_same b id p :
  page_wf p → page_of (write_bytes (Z.to_nat id * PAGE_SIZE) (data p) b) id = p.
Proof.
  unfold page_wf. intros Hp. destruct p as [d]. unfold page_of. simpl in *. f_equal.
  replace (Z.to_nat id * PAGE_SIZE + PAGE_SIZE) with (Z.to_nat id * PAGE_SIZE + length d) by lia.
  apply slice_write_bytes_same.
Qed.

Lemma page_of_write_ne b id id' p :
  page_wf p → (0 ≤ id)%Z → (0 ≤ id')%Z → id ≠ id' → has_page b id' →
  page_of (write_bytes (Z.to_nat id * PAGE_SIZE) (data p) b) id' = page_of b id'.
Proof.
  unfold page_wf, has_page. intros Hp H1 H2 Hne Hb. unfold page_of. f_equal.
  apply slice_write_bytes_ne; [lia|]. rewrite Hp.
  assert (Z.to_nat id < Z.to_nat id' ∨ Z.to_nat id' < Z.to_nat id) as [|] by lia; nia.
Qed.

Lemma has_page_write_same b id p :
  page_wf p → has_page (write_bytes (Z.to_nat id * PAGE_SIZE) (data p) b) id.
Proof.
  unfold page_wf, has_page. intros Hp. rewrite length_write_bytes; [lia|].
  intros E. rewrite E in Hp. simpl in Hp. page_lia.
Qed.

Lemma has_page_write b id off src : has_page b id → has_page (write_bytes off src b) id.
Proof. unfold has_page. intros. pose proof (length_write_bytes_ge off src b). lia. Qed.

Lemma has_page_le b id id' : (0 ≤ id' ≤ id)%Z → has_page b id → has_page b id'.
Proof. unfold has_page. intros. nia. Qed.

End Pages.

(** ** Specifications of the operations *)

Section Specs.
Context `{Cpu}.
Implicit Types w : World.

(** Ids the disk manager serves. *)
Definition data_page (d : DiskManager) (id : PageId) : Prop := (0 < id < dm_page_count d)%Z.

(** The page count fits the file offsets. *)
Definition disk_wf (d : DiskManager) : Prop := (1 ≤ dm_page_count d ≤ 2 ^ 52)%Z.

Lemma data_page_addressable d id : disk_wf d → data_page d id → page_addressable id.
Proof. unfold disk_wf, data_page, page_addressable. lia. Qed.

Lemma disk_check_data_page_ok id d :
  (0 ≤ id)%Z → disk_check_data_page id d = Ok tt ↔ data_page d id.
Proof.
  intros. unfold disk_check_data_page, data_page, HEADER.
  destruct (Z.eqb_spec id 0); [naive_solver lia|].
  destruct (Z.leb_spec (dm_page_count d) id); naive_solver lia.
Qed.

Lemma disk_check_data_page_err id d e :
  disk_check_data_page id d = Err e → is_invalid_argument e = true.
Proof. unfold disk_check_data_page. intros. repeat case_match; simplify_eq/=; done. Qed.

(** A read never changes the file; it returns the page only if it verifies,
    and fails on a good page only when the operating system does. *)
Lemma wp_read_page id d f w :
  disk_wf d → (0 ≤ id)%Z → w_files w !! dm_file d = Some f →
  wp (read_page id d)
    (λ r w', files_to (w_files w) w w' ∧
       match r with
       | Ok p => data_page d id ∧ has_page (f_cur f) id ∧ p = page_of (f_cur f) id ∧
                 ∃ h, verify id p = Ok h
       | Err e => ¬ (io_ok w ∧ data_page d id ∧ has_page (f_cur f) id ∧
                     is_ok (verify id (page_of (f_cur f) id)) = true)
       end)
    (λ w', ¬ io_ok w ∧ files_to (w_files w) w w') w.
Proof.
  intros Hd Hid Hf. unfold read_page. wp_step. wp_step.
  destruct (disk_check_data_page id d) as [[]|e] eqn:Hc.
  2:{ split; [apply files_to_refl|]. intros (_ & Hdp & _).
      apply disk_check_data_page_ok in Hdp; [congruence|done]. }
  apply disk_check_data_page_ok in Hc; [|done].
  pose proof (data_page_addressable d id Hd Hc) as Ha.
  wp_step. eapply wp_read_exact_at; [done| |].
  2:{ intros Hn w' Hw'. split; [done|]. intros code. split; [done|]. naive_solver. }
  intros w' Hw'. rewrite file_offset_nat by done.
  destruct (decide _) as [Hb|Hb].
  - change {| data := _ |} with (page_of (f_cur f) id).
    assert (has_page (f_cur f) id) as Hp by (unfold has_page; lia).
    wp_step. wp_step. destruct (verify id (page_of (f_cur f) id)) as [h|e] eqn:Hv.
    + wp_step. split; [done|]. eauto 10.
    + split; [done|]. by intros (_ & _ & _ & ?).
  - split; [done|]. intros (_ & _ & Hp & _). unfold has_page in Hp. lia.
Qed.

(** A write replaces exactly one page by its sealed form; a refused write
    leaves the file alone; a failed or interrupted one leaves a prefix. *)
Lemma wp_write_page id p d f (Q : Result unit * Page → World → Prop) C w :
  disk_wf d → (0 ≤ id)%Z → page_wf p → w_files w !! dm_file d = Some f →
  let put n := file_apply (WriteAt (Z.to_nat id * PAGE_SIZE) (take n (data (seal p)))) f in
  (¬ (data_page d id ∧ page_id p = id) → ∀ e, is_invalid_argument e = true → Q (Err e, p) w) →
  (data_page d id → page_id p = id → ∀ w',
     files_to (<[dm_file d := put PAGE_SIZE]> (w_files w)) w w' → Q (Ok tt, seal p) w') →
  (data_page d id → page_id p = id → ¬ io_ok w → ∀ n w',
     files_to (<[dm_file d := put n]> (w_files w)) w w' →
     C w' ∧ ∀ code, Q (Err (Io (Os code)), seal p) w') →
  wp (write_page id p d) Q C w.
Proof.
  intros Hd Hid Hp Hf put Hrej Hok Hbad. unfold write_page.
  destruct (disk_check_data_page id d) as [[]|e] eqn:Hc.
  2:{ wp_step. apply Hrej; [|by eapply disk_check_data_page_err].
      intros [Hdp _]. apply disk_check_data_page_ok in Hdp; [congruence|done]. }
  apply disk_check_data_page_ok in Hc; [|done].
  pose proof (data_page_addressable d id Hd Hc) as Ha.
  destruct (Z.eqb_spec (page_id p) id) as [E|E]; simpl.
  2:{ wp_step. apply Hrej; [|done]. by intros [_ ?]. }
  wp_step. unfold as_bytes.
  assert (take PAGE_SIZE (data (seal p)) = data (seal p)) as Ht.
  { apply take_ge. rewrite (seal_wf p Hp : length _ = _). done. }
  eapply wp_write_all_at; [done| |]; rewrite file_offset_nat by done.
  - intros w' Hw'. wp_step. apply Hok; [done..|]. unfold put. by rewrite Ht.
  - intros Hn n w' _ Hw'. destruct (Hbad Hc E Hn n w' Hw') as [HC HQ].
    split; [done|]. intros code. by wp_step.
Qed.

(** What [DiskManager::open] accepts. *)
Definition openable (b : bytes) (h : FileHeader) : Prop :=
  has_page b HEADER ∧ decode (page_of b HEADER) = Ok h ∧
  (u64_mul (page_count h) (Z.of_nat PAGE_SIZE) ≤ Z.of_nat (length b))%Z.

Lemma openable_fun b h h' : openable b h → openable b h' → h = h'.
Proof. intros (_ & E & _) (_ & E' & _). congruence. Qed.

Lemma wp_disk_open p f w :
  w_files w !! p = Some f →
  wp (disk_open p)
    (λ r w', files_to (w_files w) w w' ∧
       match r with
       | Ok d => ∃ h, openable (f_cur f) h ∧ d = {| dm_file := p; dm_page_count := page_count h |}
       | Err e => ¬ (io_ok w ∧ ∃ h, openable (f_cur f) h)
       end)
    (λ w', ¬ io_ok w ∧ files_to (w_files w) w w') w.
Proof.
  intros Hf. unfold disk_open.
  wp_step. apply wp_open_file; rewrite ?Hf.
  2:{ intros Hn w' Hw'. split; [done|]. intros code. split; [done|naive_solver]. }
  intros w1 [E1 I1]. wp_step. eapply wp_metadata_len; [by rewrite E1| |]; rewrite E1.
  2:{ intros Hn w' [E I]. split; [split; [auto|by split; auto]|]. intros code.
      split; [by split; auto|naive_solver]. }
  intros w2 [E2 I2].
  destruct (Z.ltb_spec (Z.of_nat (length (f_cur f))) (Z.of_nat PAGE_SIZE)) as [Hs|Hs].
  { wp_step. split; [by split; auto|]. intros (_ & h & Hb & _). unfold has_page in Hb.
    change (Z.to_nat HEADER) with 0 in Hb. lia. }
  assert (has_page (f_cur f) HEADER) as Hb
    by (unfold has_page; change (Z.to_nat HEADER) with 0; lia).
  wp_step. eapply wp_read_exact_at; [by rewrite E2| |]; rewrite E2.
  2:{ intros Hn w' [E I]. split; [split; [auto|by split; auto]|]. intros code.
      split; [by split; auto|naive_solver]. }
  intros w3 [E3 I3]. rewrite file_offset_nat by (unfold page_addressable, HEADER; lia).
  rewrite decide_True by (unfold has_page in Hb; lia).
  change {| data := _ |} with (page_of (f_cur f) HEADER).
  wp_step. wp_step. destruct (decode (page_of (f_cur f) HEADER)) as [h|e] eqn:Hdec.
  2:{ split; [by split; auto|]. intros (_ & h & _ & ? & _). congruence. }
  destruct (Z.ltb_spec (Z.of_nat (length (f_cur f)))
    (u64_mul (page_count h) (Z.of_nat PAGE_SIZE))) as [Hl|Hl]; wp_step.
  - split; [by split; auto|]. intros (_ & h' & _ & Hd' & Hl').
    assert (h' = h) as -> by congruence. lia.
  - split; [by split; auto|]. exists h. by repeat split.
Qed.

Lemma disk_open_run p f h w :
  w_files w !! p = Some f → openable (f_cur f) h → io_ok w →
  ∃ w', disk_open p w = (Done (Ok {| dm_file := p; dm_page_count := page_count h |}), w') ∧
        files_to (w_files w) w w'.
Proof.
  intros Hf Hop Hio. pose proof (wp_disk_open p f w Hf) as Ho. unfold wp in Ho.
  destruct (disk_open p w) as [[[d|e]| |] w'].
  - destruct Ho as (Hw & h' & Hop' & ->). rewrite (openable_fun _ _ _ Hop Hop'). eauto.
  - destruct Ho as (_ & []). eauto.
  - done.
  - destruct Ho as [[] _]. done.
Qed.

(** A file that is just one page. *)
Lemma page_of_single p : page_wf p → page_of (data p) HEADER = p.
Proof.
  intros Hp. destruct p as [d]. unfold page_of. f_equal. change (Z.to_nat HEADER) with 0.
  simpl Nat.mul. rewrite Nat.add_0_l, <- (Hp : length _ = _). apply slice_all.
Qed.

Lemma has_header_page b : has_page b HEADER ↔ PAGE_SIZE ≤ length b.
Proof. unfold has_page. change (Z.to_nat HEADER) with 0. lia. Qed.

(** A file [DiskManager::create] has finished writing. *)
Definition fresh_data_file : file :=
  file_link (file_sync (file_apply (WriteAt 0 (as_bytes (encode file_header_new))) file_new)).

Lemma in_parent_dir p : is_Some (parent p) → in_dir (parent_dir p) p = true.
Proof.
  intros [d Hd]. unfold in_dir, parent_dir. rewrite Hd.
  destruct (decide (d = [])) as [->|]; [done|].
  rewrite (bool_decide_eq_false_2 (d = [])), bool_decide_eq_true_2 by done. done.
Qed.

(** Creation without failures produces a durable, openable file. *)
Lemma wp_disk_create p w :
  is_Some (parent p) → w_files w !! p = None → io_ok w →
  wp (disk_create p)
    (λ r w', r = Ok {| dm_file := p; dm_page_count := 1 |} ∧
       w_files w' = link_dir (parent_dir p) (<[p := fresh_data_file]> (w_files w)) ∧
       io_ok w')
    (λ _, False) w.
Proof.
  intros Hp Hf Hio. unfold disk_create.
  wp_step. apply wp_create_new_file; [done| |done]. intros w1 [E1 I1].
  wp_step. eapply wp_write_all_at; [rewrite E1; apply lookup_insert_eq| |]; [|naive_solver].
  rewrite file_offset_nat by (unfold page_addressable, HEADER; lia).
  intros w2 [E2 I2].
  wp_step. eapply wp_sync_all; [rewrite E2; apply lookup_insert_eq| |]; [|naive_solver].
  intros w3 [E3 I3].
  wp_step. unfold sync_parent_dir. apply wp_sync_dir; [|naive_solver].
  intros w4 [E4 I4]. wp_step. split; [done|]. split; [|auto].
  rewrite E4, E3, E2, E1, !insert_insert_eq.
  apply map_eq. intros q. rewrite !link_dir_lookup.
  destruct (decide (p = q)) as [<-|].
  - rewrite !lookup_insert_eq. simpl. by rewrite in_parent_dir.
  - by rewrite !lookup_insert_ne.
Qed.

End Specs.

(** ** Properties *)

Section Properties.
Context `{Cpu}.

(** What is written is read back: a page whose header carries its id,
    written through the disk manager, is returned by the next read in its
    sealed form, and every other page present in the file is unchanged. *)
Theorem write_then_read (id : PageId) (p : Page) (h : PageHeader) (d : DiskManager)
    (f : file) (w : World) :
  disk_wf d → data_page d id → page_wf p → has_header p h → header_page_id h = id →
  w_files w !! dm_file d = Some f → io_ok w →
  ∃ f' w1 w2,
    write_page id p d w = (Done (Ok tt, seal p), w1) ∧
    read_page id d w1 = (Done (Ok (seal p)), w2) ∧
    w_files w1 = <[dm_file d := f']> (w_files w) ∧
    ∀ id', (0 ≤ id')%Z → id' ≠ id → has_page (f_cur f) id' →
      has_page (f_cur f') id' ∧ page_of (f_cur f') id' = page_of (f_cur f) id'.
Proof.
  intros Hd Hdp Hp Hh Hid Hf Hio.
  assert (0 ≤ id)%Z as Hpos by (unfold data_page in Hdp; lia).
  assert (page_id p = id) as Hpid by (destruct Hh as (_ & _ & ? & _); congruence).
  pose proof (seal_wf p Hp) as Hsp.
  set (f' := file_apply (WriteAt (Z.to_nat id * PAGE_SIZE) (data (seal p))) f).
  assert (wp (write_page id p d) (λ r w', r = (Ok tt, seal p) ∧
    files_to (<[dm_file d := f']> (w_files w)) w w') (λ _, False) w) as Hw.
  { eapply wp_write_page; [done..| | |done].
    - intros Hn. by destruct Hn.
    - intros _ _ w'. rewrite take_ge; [done|]. by rewrite Hsp. }
  destruct (write_page id p d w) as [[r| |] w1] eqn:E1; unfold wp in Hw; rewrite E1 in Hw;
    [|done..]. destruct Hw as [-> [Ew Hio1]].
  assert (w_files w1 !! dm_file d = Some f') as Hf1 by (rewrite Ew; apply lookup_insert_eq).
  pose proof (wp_read_page id d f' w1 Hd Hpos Hf1) as Hr.
  assert (page_of (f_cur f') id = seal p) as Hpo by by apply page_of_write_same.
  unfold wp in Hr. destruct (read_page id d w1) as [[[p'|e]| |] w2] eqn:E2.
  - exists f', w1, w2. destruct Hr as (_ & _ & _ & -> & _). rewrite Hpo in E2.
    split; [done|]. split; [done|]. split; [done|]. intros id' H0 Hne Hb.
    split; [by apply has_page_write|]. by apply page_of_write_ne.
  - destruct Hr as [_ []]. split; [auto|]. split; [done|].
    split; [by apply has_page_write_same|].
    rewrite Hpo, <- Hid. by rewrite verify_seal.
  - done.
  - destruct Hr as [[] _]. auto.
Qed.

(** Only verified pages enter the engine: whatever the file holds and
    whatever the operating system does, a read that returns a page returns
    the bytes at that page's offset, inside the database, passing
    verification under the requested id; and no read changes a file. *)
Theorem read_page_verified (id : PageId) (d : DiskManager) (f : file) (w w' : World)
    (r : exec (Result Page)) :
  disk_wf d → (0 ≤ id)%Z → w_files w !! dm_file d = Some f →
  read_page id d w = (r, w') →
  w_files w' = w_files w ∧ r ≠ Panicked ∧
  ∀ p, r = Done (Ok p) →
    data_page d id ∧ has_page (f_cur f) id ∧ p = page_of (f_cur f) id ∧
    ∃ h, verify id p = Ok h.
Proof.
  intros Hd Hid Hf E. pose proof (wp_read_page id d f w Hd Hid Hf) as Hr.
  unfold wp in Hr. rewrite E in Hr. destruct r as [[p|e]| |]; [..|done|].
  - destruct Hr as [[Hw _] Hr]. split; [done|]. split; [done|]. by intros p' [= <-].
  - destruct Hr as [[Hw _] _]. by split.
  - destruct Hr as [_ [Hw _]]. by split.
Qed.

(** A write that would damage the file is refused without touching it:
    the header page, a page out of bounds, and a page whose own header names
    another location are all invalid arguments. *)
Theorem write_page_refusals (id : PageId) (p : Page) (d : DiskManager) (f : file) (w : World) :
  disk_wf d → (0 ≤ id)%Z → page_wf p → w_files w !! dm_file d = Some f →
  id = HEADER ∨ (dm_page_count d ≤ id)%Z ∨ page_id p ≠ id →
  ∃ e, write_page id p d w = (Done (Err e, p), w) ∧ is_invalid_argument e = true.
Proof.
  intros Hd Hid Hp Hf Hbad.
  assert (¬ (data_page d id ∧ page_id p = id)) as Hn
    by (unfold data_page, HEADER in *; lia).
  unfold write_page. destruct (disk_check_data_page id d) as [[]|e] eqn:Hc.
  - apply disk_check_data_page_ok in Hc; [|done].
    destruct (Z.eqb_spec (page_id p) id) as [|]; [naive_solver|]. eauto.
  - eauto using disk_check_data_page_err.
Qed.

(** Opening checks the length: whenever the size of the database
    computed from the header fits a [u64], an accepted file holds every page
    the header lists, and an intact file is accepted with that page count. *)
Theorem disk_open_complete_file (p : path) (f : file) (h : FileHeader) (w : World) :
  w_files w !! p = Some f → has_page (f_cur f) HEADER →
  decode (page_of (f_cur f) HEADER) = Ok h → (page_count h < 2 ^ 52)%Z →
  (∀ d w', disk_open p w = (Done (Ok d), w') →
     dm_page_count d = page_count h ∧
     ∀ id, (0 ≤ id < dm_page_count d)%Z → has_page (f_cur f) id) ∧
  (io_ok w → has_page (f_cur f) (page_count h - 1) →
     ∃ w', disk_open p w = (Done (Ok {| dm_file := p; dm_page_count := page_count h |}), w')).
Proof.
  intros Hf Hb Hdec Hlt.
  pose proof (decode_page_count_range _ _ (page_of_wf _ _ Hb) Hdec) as Hc.
  assert (u64_mul (page_count h) (Z.of_nat PAGE_SIZE) = page_count h * Z.of_nat PAGE_SIZE)%Z as Hmul.
  { apply file_offset_exact. unfold page_addressable. lia. }
  pose proof (wp_disk_open p f w Hf) as Ho. unfold wp in Ho. split.
  - intros d w' E. rewrite E in Ho. destruct Ho as (_ & h' & Hop & ->).
    assert (h' = h) as -> by (destruct Hop as (_ & ? & _); congruence).
    destruct Hop as (_ & _ & Hl). split; [done|]. intros id Hid. unfold has_page.
    simpl in Hid. rewrite Hmul in Hl. nia.
  - intros Hio Hlast.
    assert (openable (f_cur f) h) as Hop.
    { split; [done|]. split; [done|]. rewrite Hmul. unfold has_page in Hlast. nia. }
    destruct (disk_open_run p f h w Hf Hop Hio) as (w' & E & _). eauto.
Qed.

(** C32. The length check compares the file with a product that wraps around: a
    file is opened, if the system calls succeed, whenever its length is at least
    the header's page count times the page size modulo 2^64, and so, for every
    validly sealed header with 2^52 pages or more for which that is the case,
    although the last page it lists lies beyond the end of the file. *)
Theorem disk_open_overflow (p : path) (f : file) (h : FileHeader) (w : World) :
  w_files w !! p = Some f → has_page (f_cur f) HEADER →
  decode (page_of (f_cur f) HEADER) = Ok h → (2 ^ 52 ≤ page_count h)%Z →
  (Z.of_nat (length (f_cur f)) < 2 ^ 64)%Z → io_ok w →
  ((page_count h * Z.of_nat PAGE_SIZE) `mod` 2 ^ 64 ≤ Z.of_nat (length (f_cur f)))%Z →
  (∃ w', disk_open p w = (Done (Ok {| dm_file := p; dm_page_count := page_count h |}), w')) ∧
  ¬ has_page (f_cur f) (page_count h - 1).
Proof.
  intros Hf Hb Hdec Hbig Hlen Hio Hwrap. split.
  - destruct (disk_open_run p f h w Hf) as (w' & E & _); [|done|by exists w'].
    split; [done|]. by split.
  - unfold has_page. rewrite PAGE_SIZE_val in *. lia.
Qed.

(** A created database is durable and opens empty: creation leaves a
    file whose contents and directory entry survive any crash, and opening it
    gives a database of one page, the header. *)
Theorem create_then_open (p : path) (w : World) :
  is_Some (parent p) → w_files w !! p = None → io_ok w →
  ∃ w1 f,
    disk_create p w = (Done (Ok {| dm_file := p; dm_page_count := 1 |}), w1) ∧
    w_files w1 !! p = Some f ∧ f_entry_synced f = true ∧
    (∀ b, crash_content f b → b = as_bytes (encode file_header_new)) ∧
    ∃ w2, disk_open p w1 = (Done (Ok {| dm_file := p; dm_page_count := 1 |}), w2).
Proof.
  intros Hp Hf Hio. pose proof (wp_disk_create p w Hp Hf Hio) as Hc.
  unfold wp in Hc. destruct (disk_create p w) as [[r| |] w1] eqn:E; [|done..].
  destruct Hc as (-> & Hw & Hio1). exists w1, fresh_data_file.
  assert (w_files w1 !! p = Some fresh_data_file) as Hf1.
  { rewrite Hw, link_dir_lookup, lookup_insert_eq. simpl. by rewrite in_parent_dir. }
  assert (f_cur fresh_data_file = as_bytes (encode file_header_new)) as Hcur.
  { exact (write_bytes_append (as_bytes (encode file_header_new)) []). }
  split; [done|]. split; [done|]. split; [done|]. split.
  { intros b Hb. apply crash_content_clean in Hb; [|done]. rewrite Hb. exact Hcur. }
  assert (openable (f_cur fresh_data_file) file_header_new) as Hop.
  { rewrite Hcur. unfold as_bytes. split; [apply has_header_page; rewrite encode_wf; lia|]. split.
    - rewrite page_of_single by apply encode_wf. by apply decode_encode.
    - rewrite encode_wf, PAGE_SIZE_val. done. }
  destruct (disk_open_run p _ _ w1 Hf1 Hop Hio1) as (w2 & E2 & _). eauto.
Qed.

End Properties.

(** ** Witnesses *)

Module DiskWitness.
Import PageWitness.

Definition db : path := [RootDir; Normal "data"; Normal "db.oxen"].

(** A database file of two pages; the disk manager already counts a third
    one, which was never written. *)
Definition contents : bytes :=
  data (@encode cpu {| page_count := 2 |}) ++ data (sealed_page 1).

Lemma length_contents : length contents = PAGE_SIZE + PAGE_SIZE.
Proof.
  unfold contents. rewrite length_app.
  by rewrite (encode_wf {| page_count := 2 |} : length _ = _), (sealed_page_wf 1 : length _ = _).
Qed.

Definition world : World :=
  {| w_files := {[ db := file_at_rest contents ]}; w_plan := [] |}.

Definition disk : DiskManager := {| dm_file := db; dm_page_count := 3 |}.

Definition page2 : Page := page_new 2 Heap.

Lemma world_file : w_files world !! db = Some (file_at_rest contents).
Proof. apply lookup_singleton_eq. Qed.

Lemma world_ok : io_ok world.
Proof. constructor. Qed.

(** One page, whose header is sealed but claims 2^52 + 1 pages. *)
Definition huge_world : World :=
  {| w_files := {[ db := file_at_rest (data (@encode cpu {| page_count := 2 ^ 52 + 1 |})) ]};
     w_plan := [] |}.

Definition empty_world : World := {| w_files := ∅; w_plan := [] |}.
End DiskWitness.

Lemma write_then_read_witness :
  ∃ w1 w2, @write_page PageWitness.cpu 2 DiskWitness.page2 DiskWitness.disk DiskWitness.world =
           (Done (Ok tt, @seal PageWitness.cpu DiskWitness.page2), w1) ∧
           @read_page PageWitness.cpu 2 DiskWitness.disk w1 =
           (Done (Ok (@seal PageWitness.cpu DiskWitness.page2)), w2).
Proof.
  destruct (@write_then_read PageWitness.cpu 2 DiskWitness.page2
    {| page_type := Heap; header_page_id := 2; lsn := 0 |} DiskWitness.disk
    (file_at_rest DiskWitness.contents) DiskWitness.world)
    as (f' & w1 & w2 & E1 & E2 & _).
  - unfold disk_wf. simpl. lia.
  - unfold data_page. simpl. lia.
  - apply page_new_wf.
  - by apply page_new_header.
  - done.
  - apply DiskWitness.world_file.
  - apply DiskWitness.world_ok.
  - eauto.
Defined.

Lemma read_page_verified_witness :
  w_files (read_page (H := PageWitness.cpu) 1 DiskWitness.disk DiskWitness.world).2 =
  w_files DiskWitness.world.
Proof.
  destruct (read_page (H := PageWitness.cpu) 1 DiskWitness.disk DiskWitness.world) as [r w'] eqn:E.
  refine (proj1 (@read_page_verified PageWitness.cpu 1 DiskWitness.disk
    (file_at_rest DiskWitness.contents) DiskWitness.world w' r _ _ DiskWitness.world_file E)).
  - unfold disk_wf. simpl. lia.
  - lia.
Defined.

Lemma write_page_refusals_witness :
  ∃ e, @write_page PageWitness.cpu 1 DiskWitness.page2 DiskWitness.disk DiskWitness.world =
       (Done (Err e, DiskWitness.page2), DiskWitness.world) ∧ is_invalid_argument e = true.
Proof.
  eapply (@write_page_refusals PageWitness.cpu).
  - unfold disk_wf. simpl. lia.
  - lia.
  - apply page_new_wf.
  - apply DiskWitness.world_file.
  - right. right. vm_compute. intros E. discriminate E.
Defined.

Lemma disk_open_complete_file_witness :
  ∃ w', @disk_open PageWitness.cpu DiskWitness.db DiskWitness.world =
        (Done (Ok {| dm_file := DiskWitness.db; dm_page_count := 2 |}), w').
Proof.
  refine (proj2 (@disk_open_complete_file PageWitness.cpu DiskWitness.db
    (file_at_rest DiskWitness.contents) {| page_count := 2 |} DiskWitness.world
    DiskWitness.world_file _ _ _) DiskWitness.world_ok _).
  - apply has_header_page. simpl. rewrite DiskWitness.length_contents. lia.
  - vm_compute. reflexivity.
  - simpl. lia.
  - unfold has_page. simpl f_cur. rewrite DiskWitness.length_contents. simpl. lia.
Defined.

(** One page, whose header claims 2^52 + 1 pages. *)
Lemma disk_open_overflow_witness :
  ∃ w', @disk_open PageWitness.cpu DiskWitness.db DiskWitness.huge_world =
        (Done (Ok {| dm_file := DiskWitness.db; dm_page_count := 2 ^ 52 + 1 |}), w').
Proof.
  assert (length (f_cur (file_at_rest (data (@encode PageWitness.cpu {| page_count := 2 ^ 52 + 1 |})))) = PAGE_SIZE)
    as Hlen by apply encode_wf.
  refine (proj1 (@disk_open_overflow PageWitness.cpu DiskWitness.db
    (file_at_rest (data (@encode PageWitness.cpu {| page_count := 2 ^ 52 + 1 |}))) {| page_count := 2 ^ 52 + 1 |}
    DiskWitness.huge_world (lookup_singleton_eq _ _) _ _ _ _ (Forall_nil_2 _) _)).
  - apply has_header_page. lia.
  - cbn [f_cur file_at_rest]. rewrite page_of_single by apply encode_wf. by apply decode_encode.
  - simpl. lia.
  - rewrite Hlen, PAGE_SIZE_val. lia.
  - rewrite Hlen, PAGE_SIZE_val. by vm_compute.
Defined.

Lemma create_then_open_witness :
  ∃ w1, @disk_create PageWitness.cpu DiskWitness.db DiskWitness.empty_world =
        (Done (Ok {| dm_file := DiskWitness.db; dm_page_count := 1 |}), w1).
Proof.
  destruct (@create_then_open PageWitness.cpu DiskWitness.db DiskWitness.empty_world)
    as (w1 & f & E & _).
  - eexists. reflexivity.
  - apply lookup_empty.
  - constructor.
  - eauto.
Defined.
