(* ===== verification/WalRecord.v ===== *)
(** * WAL records (src/crates/oxendb/src/storage/wal/record.rs)

    Encoding and decoding of the records of the write-ahead log. *)

From S2P Require Import Prelude Errors Checksum Page.

Definition RECORD_HEADER_SIZE : nat := 25.
Definition PAGE_IMAGE_LEN : nat := RECORD_HEADER_SIZE + 8 + PAGE_SIZE.
Definition COMMIT_LEN : nat := RECORD_HEADER_SIZE.

Definition TYPE_PAGE_IMAGE : byte := Byte.x01.
Definition TYPE_COMMIT : byte := Byte.x02.

(** [struct TxnId(pub u64)]. *)
Abbreviation TxnId := Z.

(** [enum WalRecord]. *)
Inductive WalRecord : Type :=
  | PageImage (txn : TxnId) (id : PageId) (page : Page)
  | Commit (txn : TxnId).

#[global] Instance WalRecord_eq_dec : EqDecision WalRecord.
Proof. solve_decision. Defined.

(** [struct DecodedRecord]. *)
Record DecodedRecord : Type := {
  seq : Z;
  record : WalRecord;
  rec_len : nat;
}.

(** [enum DecodeError]. *)
Inductive DecodeError : Type :=
  | Incomplete
  | Invalid (reason : string).

(** [WalRecord::txn]. *)
Definition record_txn (r : WalRecord) : TxnId :=
  match r with PageImage txn _ _ => txn | Commit txn => txn end.

(** [read_u32(bytes, at)] and [read_u64(bytes, at)]. *)
Definition read_u32_at (b : bytes) (i : nat) : Z := from_le_bytes (slice i (i + 4) b).
Definition read_u64_at (b : bytes) (i : nat) : Z := from_le_bytes (slice i (i + 8) b).

Section Codec.
Local Open Scope string_scope.
Context `{Cpu}.

(** [WalRecord::encode]: appends the record to [out], then patches its
    checksum in place. *)
Definition record_encode (r : WalRecord) (sq : Z) (out : bytes) : bytes :=
  let start := length out in
  let '(len, record_type) :=
    match r with
    | PageImage _ _ _ => (PAGE_IMAGE_LEN, TYPE_PAGE_IMAGE)
    | Commit _ => (COMMIT_LEN, TYPE_COMMIT)
    end in
  let out := app out (u32_to_le_bytes (Z.of_nat len)) in
  let out := app out (zeros 4) in
  let out := app out (u64_to_le_bytes sq) in
  let out := app out [record_type] in
  let out := app out (u64_to_le_bytes (record_txn r)) in
  let out := match r with
             | PageImage _ id page => app (app out (u64_to_le_bytes id)) (as_bytes page)
             | Commit _ => out
             end in
  let checksum := crc32c (drop (start + 8) out) in
  splice (start + 4) (u32_to_le_bytes checksum) out.

(** [WalRecord::decode]. *)
Definition record_decode (buf : bytes) : result DecodeError DecodedRecord :=
  if decide (length buf < 4) then Err Incomplete
  else
    let len := read_u32_at buf 0 in
    if decide (len ≠ Z.of_nat PAGE_IMAGE_LEN ∧ len ≠ Z.of_nat COMMIT_LEN) then
      Err (Invalid ("impossible record length " +:+ pretty len))
    else
    let len := Z.to_nat len in
    if decide (length buf < len) then Err Incomplete
    else
      let b := take len buf in
      let stored := read_u32_at b 4 in
      let actual := crc32c (drop 8 b) in
      if negb (stored =? actual)%Z then
        Err (Invalid ("checksum mismatch (stored " +:+ hex_u32 stored +:+ ", computed " +:+
                      hex_u32 actual +:+ ")"))
      else
        let sq := read_u64_at b 8 in
        let txn := read_u64_at b 17 in
        let record_type := default Byte.x00 (b !! 16) in
        if decide (record_type = TYPE_PAGE_IMAGE ∧ len = PAGE_IMAGE_LEN) then
          let id := read_u64_at b RECORD_HEADER_SIZE in
          let page := {| data := drop (RECORD_HEADER_SIZE + 8) b |} in
          Ok {| seq := sq; record := PageImage txn id page; rec_len := len |}
        else if decide (record_type = TYPE_COMMIT ∧ len = COMMIT_LEN) then
          Ok {| seq := sq; record := Commit txn; rec_len := len |}
        else
          Err (Invalid ("record type " +:+ pretty (byte.unsigned record_type) +:+
                        " with length " +:+ pretty len)).

End Codec.

(** ** Shape of an encoded record *)

Section Shape.
Context `{Cpu}.
Implicit Types r : WalRecord.

(** The type invariants of the fields: [u64] ids and 4096-byte pages. *)
Definition record_wf (r : WalRecord) : Prop :=
  match r with
  | PageImage txn id page => u64_range txn ∧ u64_range id ∧ page_wf page
  | Commit txn => u64_range txn
  end.

Definition record_size (r : WalRecord) : nat :=
  match r with PageImage _ _ _ => PAGE_IMAGE_LEN | Commit _ => COMMIT_LEN end.

Definition record_tag (r : WalRecord) : byte :=
  match r with PageImage _ _ _ => TYPE_PAGE_IMAGE | Commit _ => TYPE_COMMIT end.

Definition record_body (r : WalRecord) : bytes :=
  match r with
  | PageImage _ id page => u64_to_le_bytes id ++ data page
  | Commit _ => []
  end.

(** The part covered by the checksum, and the whole record. *)
Definition record_payload (r : WalRecord) (sq : Z) : bytes :=
  u64_to_le_bytes sq ++ [record_tag r] ++ u64_to_le_bytes (record_txn r) ++ record_body r.

Definition record_bytes (r : WalRecord) (sq : Z) : bytes :=
  u32_to_le_bytes (Z.of_nat (record_size r)) ++
  u32_to_le_bytes (crc32c (record_payload r sq)) ++ record_payload r sq.

Lemma length_record_payload r sq :
  record_wf r → length (record_payload r sq) = record_size r - 8.
Proof.
  unfold record_payload, record_size, PAGE_IMAGE_LEN, COMMIT_LEN, RECORD_HEADER_SIZE.
  destruct r as [txn id [d]|txn]; simpl.
  - intros (_ & _ & Hp). unfold page_wf in Hp. simpl in Hp. len.
  - intros _. len.
Qed.

Lemma length_record_bytes r sq : record_wf r → length (record_bytes r sq) = record_size r.
Proof.
  intros Hr. unfold record_bytes. rewrite !length_app, length_record_payload by done.
  unfold record_size, PAGE_IMAGE_LEN, COMMIT_LEN, RECORD_HEADER_SIZE. destruct r; len.
Qed.

Lemma record_encode_app r sq out :
  record_encode r sq out = out ++ record_bytes r sq.
Proof.
  unfold record_encode, record_bytes.
  assert (∀ l4 pl : bytes, length l4 = 4 →
    splice (length out + 4) (u32_to_le_bytes (crc32c (drop (length out + 8) (out ++ l4 ++ zeros 4 ++ pl))))
      (out ++ l4 ++ zeros 4 ++ pl) = out ++ l4 ++ u32_to_le_bytes (crc32c pl) ++ pl) as Hpatch.
  { intros l4 pl H4.
    assert (∀ k, drop (length out + k) (out ++ l4 ++ zeros 4 ++ pl) =
      drop k (l4 ++ zeros 4 ++ pl)) as Hd.
    { intros k. rewrite drop_app_ge by lia. f_equal. lia. }
    assert (drop 8 (l4 ++ zeros 4 ++ pl) = pl) as H8.
    { rewrite app_assoc. apply drop_app_length'. len. }
    unfold splice. rewrite length_u32_to_le_bytes, <- Nat.add_assoc, !Hd, H8.
    rewrite take_app_ge by lia. replace (length out + 4 - length out) with 4 by lia.
    rewrite take_app_length' by done. rewrite <- !app_assoc.
    change (4 + 4) with 8. by rewrite H8. }
  destruct r as [txn id page|txn]; unfold record_payload, as_bytes; simpl record_body;
    rewrite <- !app_assoc, ?app_nil_r; by rewrite Hpatch by apply length_u32_to_le_bytes.
Qed.

End Shape.

(** ** Decoding *)

Section Decoding.
Context `{Cpu}.
Implicit Types r : WalRecord.
Implicit Types buf : bytes.

Lemma record_size_range r : u32_range (Z.of_nat (record_size r)).
Proof.
  unfold u32_range, record_size, PAGE_IMAGE_LEN, COMMIT_LEN, RECORD_HEADER_SIZE.
  destruct r; page_lia.
Qed.

Lemma record_size_ge r : 25 ≤ record_size r.
Proof. destruct r; unfold record_size, PAGE_IMAGE_LEN, COMMIT_LEN, RECORD_HEADER_SIZE; lia. Qed.

(** The length field, readable as soon as four bytes are there. *)
Lemma record_length_field r sq k tail :
  4 ≤ k → read_u32_at (take k (record_bytes r sq ++ tail)) 0 = Z.of_nat (record_size r).
Proof.
  intros Hk. unfold read_u32_at, record_bytes, slice. rewrite drop_0, take_take.
  replace ((0 + 4 - 0) `min` k) with 4 by lia.
  rewrite <- !app_assoc, take_app_length' by len.
  by rewrite from_to_le_u32 by apply record_size_range.
Qed.

(** The three parts of a complete record. *)
Lemma record_parts r sq tail :
  record_wf r →
  let b := take (record_size r) (record_bytes r sq ++ tail) in
  b = record_bytes r sq ∧ drop 8 b = record_payload r sq ∧
  read_u32_at b 4 = crc32c (record_payload r sq).
Proof.
  intros Hr b. assert (b = record_bytes r sq) as Hb.
  { unfold b. apply take_app_length'. by rewrite length_record_bytes. }
  rewrite Hb. split; [done|]. unfold record_bytes, read_u32_at, slice. split.
  - rewrite app_assoc. apply drop_app_length'. len.
  - rewrite drop_app_length' by len. rewrite take_app_length' by len.
    apply from_to_le_u32, crc32c_range.
Qed.

(** The fields of the payload. *)
Lemma record_fields r sq :
  record_wf r → u64_range sq →
  read_u64_at (record_bytes r sq) 8 = sq ∧
  record_bytes r sq !! 16 = Some (record_tag r) ∧
  read_u64_at (record_bytes r sq) 17 = record_txn r ∧
  drop 25 (record_bytes r sq) = record_body r.
Proof.
  intros Hr Hs. set (h := u32_to_le_bytes (Z.of_nat (record_size r)) ++
    u32_to_le_bytes (crc32c (record_payload r sq))).
  assert (length h = 8) as H8 by (unfold h; len).
  assert (record_bytes r sq = h ++ record_payload r sq) as ->
    by (unfold record_bytes, h; by rewrite <- app_assoc).
  assert (u64_range (record_txn r)) as Ht by (destruct r; simpl in *; naive_solver).
  unfold record_payload, read_u64_at, slice. split; [|split; [|split]].
  - rewrite drop_app_length', take_app_length' by len. by apply from_to_le_u64.
  - rewrite lookup_app_r, lookup_app_r by len. rewrite H8, length_u64_to_le_bytes. done.
  - rewrite app_assoc, app_assoc, drop_app_length', take_app_length' by len.
    by apply from_to_le_u64.
  - rewrite !app_assoc, drop_app_length' by len. done.
Qed.

(** A complete record followed by anything decodes to itself. *)
Lemma record_decode_complete r sq tail :
  record_wf r → u64_range sq →
  record_decode (record_bytes r sq ++ tail) =
  Ok {| seq := sq; record := r; rec_len := record_size r |}.
Proof.
  intros Hr Hs. unfold record_decode.
  pose proof (length_record_bytes r sq Hr) as Hlen. pose proof (record_size_ge r) as Hge.
  rewrite decide_False by len.
  assert (read_u32_at (record_bytes r sq ++ tail) 0 = Z.of_nat (record_size r)) as ->.
  { rewrite <- (firstn_all (record_bytes r sq ++ tail)). apply record_length_field. len. }
  rewrite decide_False by (destruct r; simpl; tauto). rewrite Nat2Z.id.
  rewrite decide_False by len.
  destruct (record_parts r sq tail Hr) as (-> & -> & ->).
  rewrite Z.eqb_refl. simpl negb. cbv iota.
  destruct (record_fields r sq Hr Hs) as (-> & -> & -> & Hbody). simpl default.
  destruct r as [txn id page|txn].
  - rewrite decide_True by done. do 2 f_equal.
    simpl record_body in Hbody. destruct Hr as (_ & Hid & Hp). unfold RECORD_HEADER_SIZE.
    assert (read_u64_at (record_bytes (PageImage txn id page) sq) 25 = id) as ->.
    { unfold read_u64_at, slice. rewrite Hbody, take_app_length' by len. by apply from_to_le_u64. }
    assert (drop (25 + 8) (record_bytes (PageImage txn id page) sq) = data page) as ->.
    { rewrite <- drop_drop, Hbody. apply drop_app_length'. len. }
    by destruct page.
  - rewrite decide_False, decide_True by (done || by intros [? _]). done.
Qed.

(** A record cut anywhere is incomplete. *)
Lemma record_decode_truncated r sq cut :
  record_wf r → cut < record_size r →
  record_decode (take cut (record_bytes r sq)) = Err Incomplete.
Proof.
  intros Hr Hc. unfold record_decode. pose proof (length_record_bytes r sq Hr) as Hlen.
  destruct (decide (length (take cut (record_bytes r sq)) < 4)); [done|].
  assert (read_u32_at (take cut (record_bytes r sq)) 0 = Z.of_nat (record_size r)) as ->.
  { rewrite <- (app_nil_r (record_bytes r sq)). apply record_length_field. len. }
  rewrite decide_False by (destruct r; simpl; tauto). rewrite Nat2Z.id.
  by rewrite decide_True by len.
Qed.

(** A byte string with the fields of a record is that record. *)
Lemma record_reassemble b r sq :
  25 ≤ length b → read_u32_at b 0 = Z.of_nat (record_size r) →
  read_u32_at b 4 = crc32c (drop 8 b) → read_u64_at b 8 = sq →
  b !! 16 = Some (record_tag r) → read_u64_at b 17 = record_txn r →
  drop 25 b = record_body r → b = record_bytes r sq.
Proof.
  unfold read_u32_at, read_u64_at. intros Hl Hsz Hcrc Hsq Htag Htxn Hbody.
  assert (drop 8 b = record_payload r sq) as Hpl.
  { unfold record_payload. rewrite <- Hsq, <- Htxn, <- Hbody.
    rewrite !to_from_le_u64 by len.
    assert ([record_tag r] = slice 16 17 b) as ->
      by (unfold slice; by rewrite (drop_S _ _ _ Htag)).
    assert (∀ k, drop k b = slice k (length b) b) as Hd
      by (intros; unfold slice; rewrite take_ge; [done|len]).
    rewrite !Hd, app_assoc, slice_cat, app_assoc, slice_cat, slice_cat by lia. done. }
  unfold record_bytes. rewrite <- Hsz, <- Hpl, <- Hcrc, !to_from_le_u32 by len.
  assert (drop 8 b = slice 8 (length b) b) as ->
    by (unfold slice; rewrite take_ge; [done|len]).
  rewrite !slice_cat by lia. by rewrite slice_all.
Qed.

(** What is accepted is a complete, well-formed record. *)
Lemma record_decode_ok buf d :
  record_decode buf = Ok d →
  record_wf (record d) ∧ u64_range (seq d) ∧ rec_len d = record_size (record d) ∧
  rec_len d ≤ length buf ∧ take (rec_len d) buf = record_bytes (record d) (seq d).
Proof.
  unfold record_decode. intros E.
  destruct (decide (length buf < 4)) as [|H4]; [done|].
  destruct (decide (_ ∧ _)) as [|Hn]; [done|].
  set (n := Z.to_nat (read_u32_at buf 0)) in *.
  destruct (decide (length buf < n)) as [|Hlen]; [done|].
  assert (25 ≤ n) as H25.
  { unfold PAGE_IMAGE_LEN, COMMIT_LEN, RECORD_HEADER_SIZE in Hn. lia. }
  set (b := take n buf) in *.
  assert (length b = n) as Hb by (unfold b; len).
  assert (read_u32_at b 0 = Z.of_nat n) as Hsz.
  { unfold read_u32_at, b, slice. rewrite !drop_0, take_take.
    replace ((0 + 4 - 0) `min` n) with (0 + 4 - 0) by lia.
    unfold n, read_u32_at, slice. rewrite drop_0, Z2Nat.id; [done|].
    apply from_le_bytes_nonneg. }
  destruct (Z.eqb_spec (read_u32_at b 4) (crc32c (drop 8 b))) as [Hcrc|]; [|done].
  simpl in E.
  assert (∀ i, i + 8 ≤ n → u64_range (read_u64_at b i)) as Hu64
    by (intros; apply from_le_bytes_u64_range; len).
  destruct (lookup_lt_is_Some_2 b 16) as [tag Htag]; [lia|]. rewrite Htag in E. simpl in E.
  destruct (decide (tag = TYPE_PAGE_IMAGE ∧ n = PAGE_IMAGE_LEN)) as [[-> En]|_];
    [|destruct (decide (tag = TYPE_COMMIT ∧ n = COMMIT_LEN)) as [[-> En]|_]; [|done]];
    injection E as <-; simpl.
  - assert (n = 33 + PAGE_SIZE) as En' by (rewrite En; unfold PAGE_IMAGE_LEN, RECORD_HEADER_SIZE; lia).
    unfold RECORD_HEADER_SIZE in *.
    assert (page_wf {| data := drop (25 + 8) b |}) as Hp by (unfold page_wf; simpl; len).
    repeat split; try (apply Hu64; lia); try done; try lia.
    fold b. apply record_reassemble; simpl; rewrite ?Hb; try done; [by rewrite <- En|].
    unfold read_u64_at. rewrite to_from_le_u64 by len.
    rewrite <- (take_drop 8 (drop 25 b)), drop_drop. unfold slice. f_equal.
  - repeat split; try (apply Hu64; lia); try done; try lia.
    fold b. apply record_reassemble; simpl; rewrite ?Hb; try done; [by rewrite <- En|].
    apply drop_ge. rewrite Hb, En. unfold COMMIT_LEN, RECORD_HEADER_SIZE. lia.
Qed.

(** Two records that agree outside one byte of their checksummed part, or
    outside one byte of the checksum, are equal. *)
Lemma record_bytes_one_byte r sq r' sq' i x :
  record_wf r → record_wf r' → record_size r' = record_size r → i < record_size r →
  <[i:=x]> (record_bytes r sq) = record_bytes r' sq' → record_bytes r sq !! i = Some x.
Proof.
  intros Hr Hr' Hsz Hi E.
  pose proof (length_record_bytes r sq Hr) as Hlen.
  pose proof (length_record_payload r sq Hr) as Hpl.
  pose proof (length_record_payload r' sq' Hr') as Hpl'.
  assert (∀ l k, k + l ≤ i ∨ i < k → slice k (k + l) (record_bytes r sq) =
    slice k (k + l) (record_bytes r' sq')) as Hsame.
  { intros l k Hk. apply list_eq. intros j. rewrite <- E.
    destruct (decide (j < l)).
    - rewrite !lookup_slice by lia. rewrite list_lookup_insert_ne; [done|lia].
    - rewrite !lookup_ge_None_2 by (rewrite ?length_insert; len). done. }
  assert (∀ r sq, slice 4 (4 + 4) (record_bytes r sq) = u32_to_le_bytes (crc32c (record_payload r sq)))
    as Hc by (intros; unfold record_bytes, slice; rewrite drop_app_length', take_app_length' by len; done).
  assert (∀ r sq, drop 8 (record_bytes r sq) = record_payload r sq) as Hp
    by (intros; unfold record_bytes; rewrite app_assoc, drop_app_length' by len; done).
  destruct (lookup_lt_is_Some_2 (record_bytes r sq) i) as [y Hy]; [lia|].
  rewrite Hy. f_equal. destruct (decide (y = x)) as [|Hne]; [done|exfalso].
  destruct (decide (i < 8)) as [Hi8|Hi8].
  - (* the length or the checksum: both follow from the rest *)
    assert (record_payload r sq = record_payload r' sq') as Epl.
    { rewrite <- !Hp, <- E. by rewrite drop_insert_lt by lia. }
    assert (record_bytes r sq = record_bytes r' sq') as Eb
      by (unfold record_bytes; by rewrite Epl, Hsz).
    rewrite <- Eb in E. apply (f_equal (.!! i)) in E.
    rewrite list_lookup_insert_eq in E by lia. congruence.
  - assert (crc32c (record_payload r sq) = crc32c (record_payload r' sq')) as Ecrc.
    { pose proof (Hsame 4 4 ltac:(lia)) as Es. rewrite !Hc in Es.
      apply (f_equal from_le_bytes) in Es. by rewrite !from_to_le_u32 in Es by apply crc32c_range. }
    assert (<[i-8:=x]> (record_payload r sq) = record_payload r' sq') as Epl.
    { rewrite <- !Hp, <- E. rewrite drop_insert_ge by lia. done. }
    assert (record_payload r sq !! (i - 8) = Some y) as Hy'.
    { rewrite <- Hp, lookup_drop. by replace (8 + (i - 8)) with i by lia. }
    revert Ecrc. rewrite <- Epl, insert_take_drop by (apply lookup_lt_Some in Hy'; lia).
    rewrite <- (take_drop_middle _ _ _ Hy') at 1.
    apply (crc32c_window _ [y] [x]); [done|simpl; lia|congruence].
Qed.

(** The two record lengths differ in two bytes, so no change of one byte
    turns one into the other. *)
Lemma record_size_one_byte r r' i x :
  <[i:=x]> (u32_to_le_bytes (Z.of_nat (record_size r))) =
  u32_to_le_bytes (Z.of_nat (record_size r')) → record_size r' = record_size r.
Proof.
  assert (∀ a b : Z,
    u32_to_le_bytes a !! 0 ≠ u32_to_le_bytes b !! 0 →
    u32_to_le_bytes a !! 1 ≠ u32_to_le_bytes b !! 1 →
    <[i:=x]> (u32_to_le_bytes a) ≠ u32_to_le_bytes b) as Hd.
  { intros a b H0 H1 E. rewrite <- E in H0, H1. destruct i as [|i].
    - by rewrite list_lookup_insert_ne in H1.
    - by rewrite list_lookup_insert_ne in H0. }
  assert (∀ P : Z → Z → Prop, P 25%Z 4129%Z → P 4129%Z 25%Z →
    ∀ a b, record_size a ≠ record_size b →
    P (Z.of_nat (record_size a)) (Z.of_nat (record_size b))) as Hcases.
  { intros P P1 P2 a b Hab. unfold record_size, PAGE_IMAGE_LEN, COMMIT_LEN, RECORD_HEADER_SIZE in *.
    rewrite PAGE_SIZE_val in *. by destruct a, b. }
  intros E. destruct (decide (record_size r' = record_size r)) as [|Hne]; [done|exfalso].
  revert E. apply (Hcases (λ a b, <[i:=x]> (u32_to_le_bytes a) ≠ u32_to_le_bytes b)); [..|congruence];
    apply Hd; by vm_compute.
Qed.

Lemma record_decode_one_byte r sq tail i x :
  record_wf r → i < record_size r → record_bytes r sq !! i ≠ Some x →
  is_err (record_decode (<[i:=x]> (record_bytes r sq) ++ tail)) = true.
Proof.
  intros Hr Hi Hx. pose proof (length_record_bytes r sq Hr) as Hlen.
  destruct (record_decode _) as [d|e] eqn:E; [exfalso|done].
  apply record_decode_ok in E as (Hd & _ & Hsz & Hle & Ht). rewrite Hsz in *.
  pose proof (record_size_ge r). pose proof (record_size_ge (record d)).
  assert (record_size (record d) = record_size r) as Es.
  { destruct (decide (i < 4)).
    - apply (record_size_one_byte _ _ i x). apply (f_equal (take 4)) in Ht.
      rewrite take_take, Nat.min_l, take_app_le in Ht by (rewrite ?length_insert; lia).
      unfold record_bytes in Ht. rewrite insert_app_l in Ht by len.
      by rewrite !take_app_length' in Ht by (rewrite ?length_insert; len).
    - apply Nat2Z.inj. apply (f_equal (λ b, read_u32_at (take 4 (b ++ [])) 0)) in Ht.
      rewrite record_length_field in Ht by lia. rewrite <- Ht, app_nil_r, take_take, Nat.min_l by lia.
      rewrite take_app_le by (rewrite length_insert; lia).
      rewrite take_insert_ge by lia. rewrite <- (app_nil_r (record_bytes r sq)).
      by apply record_length_field. }
  rewrite Es, take_app_length' in Ht by (rewrite length_insert; lia).
  by apply Hx, record_bytes_one_byte with (record d) (seq d).
Qed.

End Decoding.

(** ** The codec *)

Section Properties.
Context `{Cpu}.

(** C33. Records round trip: encoding appends exactly one record after what
    the buffer already held, and decoding there gives the record back with its
    sequence number and length, whatever follows it. *)
Theorem record_round_trip (r : WalRecord) (sq : Z) (out tail : bytes) :
  record_wf r → u64_range sq →
  take (length out) (record_encode r sq out) = out ∧
  record_decode (drop (length out) (record_encode r sq out) ++ tail) =
    Ok {| seq := sq; record := r; rec_len := length (record_encode r sq out) - length out |}.
Proof.
  intros Hr Hs. rewrite record_encode_app, length_app, length_record_bytes by done.
  rewrite take_app_length, drop_app_length. split; [done|].
  rewrite record_decode_complete by done. repeat f_equal. lia.
Qed.

(** A torn record is recognised as such: cut at any byte, an encoded
    record decodes to [Incomplete], so the end of a log interrupted by a crash
    is told from a corrupt record. *)
Theorem record_truncation_incomplete (r : WalRecord) (sq : Z) (cut : nat) :
  record_wf r → cut < length (record_encode r sq []) →
  record_decode (take cut (record_encode r sq [])) = Err Incomplete.
Proof.
  rewrite record_encode_app. simpl. intros Hr. rewrite length_record_bytes by done.
  by apply record_decode_truncated.
Qed.

(** The format is canonical: whatever bytes are accepted are exactly the
    encoding of the record returned, whose fields are in range; the decoder
    accepts nothing else and never reads past the buffer. *)
Theorem record_decode_canonical (buf : bytes) (d : DecodedRecord) :
  record_decode buf = Ok d →
  record_wf (record d) ∧ u64_range (seq d) ∧ rec_len d ≤ length buf ∧
  take (rec_len d) buf = record_encode (record d) (seq d) [].
Proof.
  intros (Hwf & Hs & _ & Hle & Ht)%record_decode_ok. rewrite record_encode_app. naive_solver.
Qed.

(** C34. Corruption of any single byte of a record, the length field
    included, is rejected, whatever follows the record. *)
Theorem record_rejects_corruption (r : WalRecord) (sq : Z) (tail : bytes) (i : nat) (x : byte) :
  record_wf r → i < length (record_encode r sq []) →
  record_encode r sq [] !! i ≠ Some x →
  is_err (record_decode (<[i:=x]> (record_encode r sq []) ++ tail)) = true.
Proof.
  rewrite record_encode_app. simpl. intros Hr. rewrite length_record_bytes by done.
  by apply record_decode_one_byte.
Qed.

End Properties.

(** ** Witnesses *)

Module RecordWitness.
(** The [image(3, 9, ..)] and [Commit] records of the unit tests. *)
Definition image : WalRecord := PageImage 3 9 (PageWitness.sealed_page 9).
Definition commit : WalRecord := Commit 1.

Lemma image_wf : record_wf image.
Proof.
  split; [unfold u64_range; lia|]. split; [unfold u64_range; lia|apply PageWitness.sealed_page_wf].
Qed.

Lemma commit_wf : record_wf commit.
Proof. unfold commit, record_wf, u64_range. lia. Qed.
End RecordWitness.

Lemma record_round_trip_witness :
  @record_decode PageWitness.cpu
    (drop 3 (@record_encode PageWitness.cpu RecordWitness.image 41 (zeros 3)) ++ zeros 7) =
  Ok {| seq := 41; record := RecordWitness.image;
        rec_len := length (@record_encode PageWitness.cpu RecordWitness.image 41 (zeros 3)) - 3 |}.
Proof.
  exact (proj2 (@record_round_trip PageWitness.cpu RecordWitness.image 41 (zeros 3) (zeros 7)
    RecordWitness.image_wf ltac:(unfold u64_range; lia))).
Defined.

Lemma record_truncation_incomplete_witness :
  @record_decode PageWitness.cpu (take 24 (@record_encode PageWitness.cpu RecordWitness.commit 1 [])) =
  Err Incomplete.
Proof.
  exact (@record_truncation_incomplete PageWitness.cpu RecordWitness.commit 1 24
    RecordWitness.commit_wf ltac:(vm_compute; lia)).
Defined.

Lemma record_decode_canonical_witness :
  let buf := @record_encode PageWitness.cpu RecordWitness.commit 5 [] in
  take 25 (buf ++ zeros 2) = @record_encode PageWitness.cpu RecordWitness.commit 5 [].
Proof.
  intros buf.
  exact (proj2 (proj2 (proj2 (@record_decode_canonical PageWitness.cpu (buf ++ zeros 2)
    {| seq := 5; record := RecordWitness.commit; rec_len := 25 |}
    ltac:(vm_compute; reflexivity))))).
Defined.

Lemma record_rejects_corruption_witness :
  is_err (@record_decode PageWitness.cpu
    (<[16 := Byte.x01]> (@record_encode PageWitness.cpu RecordWitness.commit 1 []) ++ zeros 9)) = true.
Proof.
  exact (@record_rejects_corruption PageWitness.cpu RecordWitness.commit 1 (zeros 9) 16 Byte.x01
    RecordWitness.commit_wf ltac:(vm_compute; lia) ltac:(vm_compute; discriminate)).
Defined.
