(* ===== verification/WalLog.v ===== *)
(** * The write-ahead log file (src/crates/oxendb/src/storage/wal/log.rs)

    The WAL header, the log handle with its buffered records, and the reader
    that stops at the first record it cannot trust. *)

From S2P Require Import Prelude Errors Checksum Page WalRecord FileSys Disk.

(** [b"oxenWAL\0"]. *)
Definition WAL_MAGIC : bytes :=
  [Byte.x6f; Byte.x78; Byte.x65; Byte.x6e; Byte.x57; Byte.x41; Byte.x4c; Byte.x00].
Definition WAL_FORMAT_VERSION : Z := 1.
Definition WAL_HEADER_SIZE : nat := 24.

(** [struct DiscardedTail]. *)
Record DiscardedTail : Type := {
  tail_bytes : Z;
  tail_reason : string;
}.

(** [struct Wal]. *)
Record Wal : Type := {
  wal_file : path;
  durable_len : Z;
  wal_pending : bytes;
  next_seq : Z;
  wal_poisoned : bool;
}.

(** [struct OpenedWal]. *)
Record OpenedWal : Type := {
  opened_wal : Wal;
  opened_records : list DecodedRecord;
  opened_discarded : option DiscardedTail;
}.

Section Operations.
Local Open Scope string_scope.
Context `{Cpu}.

(** [encode_header]. *)
Definition encode_header (first_seq : Z) : bytes :=
  let header := zeros WAL_HEADER_SIZE in
  let header := splice 4 WAL_MAGIC header in
  let header := splice 12 (u32_to_le_bytes WAL_FORMAT_VERSION) header in
  let header := splice 16 (u64_to_le_bytes first_seq) header in
  let checksum := crc32c (drop 4 header) in
  splice 0 (u32_to_le_bytes checksum) header.

(** [decode_header]. *)
Definition decode_header (contents : bytes) : Result Z :=
  if decide (length contents < WAL_HEADER_SIZE ∨ slice 4 12 contents ≠ WAL_MAGIC) then
    Err (UnsupportedFormat "not an oxenDB WAL file")
  else
    let header := take WAL_HEADER_SIZE contents in
    let stored := from_le_bytes (slice 0 4 header) in
    if negb (stored =? crc32c (drop 4 header))%Z then
      Err (corruption "WAL header checksum mismatch")
    else
      let version := from_le_bytes (slice 12 16 header) in
      if negb (version =? WAL_FORMAT_VERSION)%Z then
        Err (UnsupportedFormat ("WAL format version " +:+ pretty version +:+
               ", this build supports version " +:+ pretty WAL_FORMAT_VERSION))
      else Ok (from_le_bytes (slice 16 24 header)).

(** [Wal::create]. *)
Definition wal_create (p : path) : M World (Result Wal) :=
  let? file := create_new_file p in
  let? _ := write_all_at file (encode_header 0) 0 in
  let? _ := sync_all file in
  let? _ := sync_parent_dir p in
  ret (Ok {| wal_file := file; durable_len := Z.of_nat WAL_HEADER_SIZE; wal_pending := [];
             next_seq := 0; wal_poisoned := false |}).

(** The reading loop of [Wal::open]: the records, the offset and sequence
    number reached, and why it stopped before the end.  [None] when the fuel
    runs out, which the length of the file rules out. *)
Fixpoint wal_read_loop (fuel : nat) (contents : bytes) (offset : nat) (next_seq : Z)
    (records : list DecodedRecord) :
    option (list DecodedRecord * nat * Z * option string) :=
  match fuel with
  | 0 => None
  | S fuel =>
      if decide (offset < length contents) then
        match record_decode (drop offset contents) with
        | Ok decoded =>
            if (seq decoded =? next_seq)%Z then
              wal_read_loop fuel contents (offset + rec_len decoded) (u64_add next_seq 1)
                (app records [decoded])
            else
              Some (records, offset, next_seq,
                Some ("expected sequence number " +:+ pretty next_seq +:+ ", found " +:+
                      pretty (seq decoded)))
        | Err Incomplete => Some (records, offset, next_seq, Some "incomplete record")
        | Err (Invalid reason) => Some (records, offset, next_seq, Some reason)
        end
      else Some (records, offset, next_seq, None)
  end.

(** [Wal::open]. *)
Definition wal_open (p : path) : M World (Result OpenedWal) :=
  let? file := open_file p in
  let? contents := read_to_end file in
  let? first_seq := lift (decode_header contents) in
  match wal_read_loop (S (length contents)) contents WAL_HEADER_SIZE first_seq [] with
  | None => panic
  | Some (records, offset, next_seq, stop_reason) =>
      let discarded :=
        (λ reason, {| tail_bytes := Z.of_nat (length contents - offset);
                      tail_reason := reason |}) <$> stop_reason in
      let? _ :=
        match discarded with
        | Some _ =>
            let? _ := set_len file (Z.of_nat offset) in
            sync_all file
        | None => ret (Ok tt)
        end in
      let wal := {| wal_file := file; durable_len := Z.of_nat offset; wal_pending := [];
                    next_seq := next_seq; wal_poisoned := false |} in
      ret (Ok {| opened_wal := wal; opened_records := records;
                 opened_discarded := discarded |})
  end.

(** [Wal::check_poisoned]. *)
Definition wal_check_poisoned (wal : Wal) : Result unit :=
  if wal_poisoned wal then
    Err (Poisoned "an earlier WAL write failed; reopen the database to recover")
  else Ok tt.

Definition set_wal_poisoned (wal : Wal) : Wal :=
  {| wal_file := wal_file wal; durable_len := durable_len wal; wal_pending := wal_pending wal;
     next_seq := next_seq wal; wal_poisoned := true |}.

(** [Wal::append]: the result and the updated handle. *)
Definition wal_append (r : WalRecord) (wal : Wal) : Result Z * Wal :=
  match wal_check_poisoned wal with
  | Err e => (Err e, wal)
  | Ok _ =>
      let sq := next_seq wal in
      (Ok sq, {| wal_file := wal_file wal; durable_len := durable_len wal;
                 wal_pending := record_encode r sq (wal_pending wal);
                 next_seq := u64_add sq 1; wal_poisoned := wal_poisoned wal |})
  end.

(** [Wal::flush]. *)
Definition wal_flush (wal : Wal) : M World (Result unit * Wal) :=
  match wal_check_poisoned wal with
  | Err e => ret (Err e, wal)
  | Ok _ =>
      if decide (wal_pending wal = []) then ret (Ok tt, wal)
      else
        let! result :=
          let? _ := write_all_at (wal_file wal) (wal_pending wal) (durable_len wal) in
          sync_data (wal_file wal) in
        match result with
        | Err err => ret (Err err, set_wal_poisoned wal)
        | Ok _ =>
            ret (Ok tt,
              {| wal_file := wal_file wal;
                 durable_len := u64_add (durable_len wal) (Z.of_nat (length (wal_pending wal)));
                 wal_pending := []; next_seq := next_seq wal;
                 wal_poisoned := wal_poisoned wal |})
        end
  end.

(** [Wal::reset]. *)
Definition wal_reset (wal : Wal) : M World (Result unit * Wal) :=
  match wal_check_poisoned wal with
  | Err e => ret (Err e, wal)
  | Ok _ =>
      if negb (bool_decide (wal_pending wal = [])) then
        ret (Err (InvalidArgument "cannot reset a WAL with unflushed records"), wal)
      else
        let! result :=
          let? _ := set_len (wal_file wal) (Z.of_nat WAL_HEADER_SIZE) in
          let? _ := write_all_at (wal_file wal) (encode_header (next_seq wal)) 0 in
          sync_all (wal_file wal) in
        match result with
        | Err err => ret (Err err, set_wal_poisoned wal)
        | Ok _ =>
            ret (Ok tt,
              {| wal_file := wal_file wal; durable_len := Z.of_nat WAL_HEADER_SIZE;
                 wal_pending := wal_pending wal; next_seq := next_seq wal;
                 wal_poisoned := wal_poisoned wal |})
        end
  end.

End Operations.

(** ** The header *)

Section Header.
Context `{Cpu}.

Definition wal_header_body (first : Z) : bytes :=
  WAL_MAGIC ++ u32_to_le_bytes WAL_FORMAT_VERSION ++ u64_to_le_bytes first.

Lemma length_WAL_MAGIC : length WAL_MAGIC = 8.
Proof. done. Qed.
Hint Rewrite length_WAL_MAGIC : oxen_len.

Lemma encode_header_eq first :
  encode_header first =
  u32_to_le_bytes (crc32c (wal_header_body first)) ++ wal_header_body first.
Proof.
  unfold encode_header. change (zeros WAL_HEADER_SIZE) with (zeros 4 ++ zeros 8 ++ zeros 12).
  rewrite (splice_middle 4 WAL_MAGIC) by done. change (zeros 12) with (zeros 4 ++ zeros 8).
  rewrite (app_assoc (zeros 4) WAL_MAGIC), (splice_middle 12 (u32_to_le_bytes _)) by len.
  rewrite <- (app_nil_r (zeros 8)), (app_assoc _ (u32_to_le_bytes _)).
  rewrite (splice_middle 16 (u64_to_le_bytes first)), app_nil_r by len.
  rewrite <- !app_assoc. fold (wal_header_body first).
  change (drop 4 (zeros 4 ++ wal_header_body first)) with (wal_header_body first).
  exact (splice_middle 0 _ [] (zeros 4) (wal_header_body first) eq_refl
    (length_u32_to_le_bytes _)).
Qed.

Lemma length_encode_header first : length (encode_header first) = WAL_HEADER_SIZE.
Proof. rewrite encode_header_eq. unfold wal_header_body. len. done. Qed.

(** The header round trips and is canonical. *)
Lemma decode_header_iff contents first :
  decode_header contents = Ok first ↔
  u64_range first ∧ WAL_HEADER_SIZE ≤ length contents ∧
  take WAL_HEADER_SIZE contents = encode_header first.
Proof.
  unfold decode_header, WAL_HEADER_SIZE. split.
  - intros E. case_decide as Hd; [done|].
    apply Decidable.not_or in Hd as [Hlen Hm%dec_stable].
    set (h := take 24 contents) in *.
    assert (length h = 24) as Hh by (unfold h; len).
    assert (slice 4 12 h = WAL_MAGIC) as Hmh.
    { rewrite <- Hm. unfold h. symmetry. rewrite <- (take_drop 24 contents) at 1.
      apply slice_app_l. len. }
    destruct (Z.eqb_spec (from_le_bytes (slice 0 4 h)) (crc32c (drop 4 h))) as [Hc|]; [|done].
    destruct (Z.eqb_spec (from_le_bytes (slice 12 16 h)) WAL_FORMAT_VERSION) as [Hv|]; [|done].
    injection E as <-. split; [apply from_le_bytes_u64_range; len|]. split; [lia|].
    assert (drop 4 h = wal_header_body (from_le_bytes (slice 16 24 h))) as Hb.
    { unfold wal_header_body. rewrite <- Hmh, <- Hv, to_from_le_u32, to_from_le_u64 by len.
      rewrite !slice_cat by lia. unfold slice. rewrite take_ge; [done|len]. }
    rewrite encode_header_eq, <- Hb, <- Hc, to_from_le_u32 by len.
    unfold slice. rewrite drop_0. symmetry. apply take_drop.
  - intros (Hr & Hlen & Ht).
    assert (slice 4 12 contents = WAL_MAGIC) as Hm.
    { rewrite <- (take_drop 24 contents), Ht, encode_header_eq. unfold wal_header_body, slice.
      rewrite <- !app_assoc, drop_app_length' by len. by apply take_app_length'. }
    rewrite decide_False by (intros [?|?]; [lia|done]).
    rewrite Ht, encode_header_eq.
    assert (drop 4 (u32_to_le_bytes (crc32c (wal_header_body first)) ++ wal_header_body first) =
      wal_header_body first) as -> by (apply drop_app_length'; len).
    assert (∀ x y z : bytes, length x = 4 → slice 0 4 (x ++ y) = x) as H04.
    { intros x y z Hx. unfold slice. rewrite drop_0. by apply take_app_length'. }
    rewrite H04 by (exact [] || len). rewrite from_to_le_u32 by apply crc32c_range.
    rewrite Z.eqb_refl. simpl negb. cbv iota. unfold wal_header_body, slice.
    rewrite (app_assoc _ WAL_MAGIC), drop_app_length', take_app_length' by len.
    rewrite from_to_le_u32 by by vm_compute. rewrite Z.eqb_refl. simpl negb. cbv iota.
    rewrite !app_assoc, drop_app_length' by len.
    rewrite take_ge by len. by rewrite from_to_le_u64.
Qed.

Lemma decode_header_encode first tail :
  u64_range first → decode_header (encode_header first ++ tail) = Ok first.
Proof.
  intros Hr. apply decode_header_iff. rewrite <- (length_encode_header first).
  rewrite take_app_length. rewrite length_app. naive_solver lia.
Qed.

End Header.

(** ** Sequences of records *)

Section Records.
Context `{Cpu}.
Implicit Types rs ps : list WalRecord.

(** The sequence number [n] records after [first]. *)
Definition seq_at (first : Z) (n : nat) : Z := wrap_u64 (first + Z.of_nat n).

Fixpoint log_bytes rs (sq : Z) : bytes :=
  match rs with
  | [] => []
  | r :: rs => record_bytes r sq ++ log_bytes rs (u64_add sq 1)
  end.

Fixpoint log_records rs (sq : Z) : list DecodedRecord :=
  match rs with
  | [] => []
  | r :: rs => {| seq := sq; record := r; rec_len := record_size r |}
                 :: log_records rs (u64_add sq 1)
  end.

(** Nothing after this point is a record of the log. *)
Definition log_stops (tail : bytes) (sq : Z) : Prop :=
  ∀ d, record_decode tail = Ok d → seq d ≠ sq.

Lemma seq_at_0 sq : u64_range sq → seq_at sq 0 = sq.
Proof. intros. unfold seq_at. rewrite Z.add_0_r. by apply wrap_u64_id. Qed.

Lemma seq_at_S sq n : seq_at (u64_add sq 1) n = seq_at sq (S n).
Proof.
  unfold seq_at, u64_add, wrap_u64. rewrite Zplus_mod_idemp_l. f_equal. lia.
Qed.

Lemma seq_at_add sq n m : seq_at (seq_at sq n) m = seq_at sq (n + m).
Proof. unfold seq_at, wrap_u64. rewrite Zplus_mod_idemp_l. f_equal. lia. Qed.

Lemma u64_add_seq_at sq n : u64_add (seq_at sq n) 1 = seq_at sq (S n).
Proof. unfold u64_add, seq_at, wrap_u64. rewrite Zplus_mod_idemp_l. f_equal. lia. Qed.

Lemma seq_at_range sq n : u64_range (seq_at sq n).
Proof. apply wrap_u64_range. Qed.

Lemma seq_at_ne sq n : u64_range sq → 0 < n → (Z.of_nat n < 2 ^ 64)%Z → seq_at sq n ≠ sq.
Proof.
  unfold seq_at, wrap_u64, u64_range. intros Hs Hn Hb E.
  pose proof (Z.div_mod (sq + Z.of_nat n) (2 ^ 64) ltac:(lia)). rewrite E in *.
  assert ((sq + Z.of_nat n) / 2 ^ 64 < 1 ∨ 1 ≤ (sq + Z.of_nat n) / 2 ^ 64)%Z as [|] by lia; nia.
Qed.

Lemma log_bytes_app rs ps sq :
  log_bytes (rs ++ ps) sq = log_bytes rs sq ++ log_bytes ps (seq_at sq (length rs)).
Proof.
  revert sq. induction rs as [|r rs IH]; intros sq; simpl.
  - destruct ps as [|p ps]; [done|]. simpl. unfold seq_at. rewrite Z.add_0_r.
    f_equal; [|unfold u64_add, wrap_u64; by rewrite Zplus_mod_idemp_l].
    unfold record_bytes, record_payload. rewrite u64_to_le_bytes_wrap. done.
  - by rewrite IH, seq_at_S, app_assoc.
Qed.

Lemma log_records_app rs ps sq :
  u64_range sq →
  log_records (rs ++ ps) sq = log_records rs sq ++ log_records ps (seq_at sq (length rs)).
Proof.
  revert sq. induction rs as [|r rs IH]; intros sq Hs; simpl.
  - by rewrite seq_at_0.
  - rewrite IH by apply wrap_u64_range. by rewrite seq_at_S.
Qed.

Lemma log_records_record rs sq : record <$> log_records rs sq = rs.
Proof. revert sq. induction rs as [|r rs IH]; intros sq; [done|]. csimpl. by rewrite IH. Qed.

Lemma length_log_records rs sq : length (log_records rs sq) = length rs.
Proof. rewrite <- (length_fmap record). by rewrite log_records_record. Qed.

Lemma length_log_bytes_ge rs sq : Forall record_wf rs → 25 * length rs ≤ length (log_bytes rs sq).
Proof.
  intros Hrs. revert sq. induction Hrs as [|r rs Hr _ IH]; intros sq; simpl; [lia|].
  rewrite length_app, length_record_bytes by done. pose proof (record_size_ge r).
  specialize (IH (u64_add sq 1)). lia.
Qed.

Lemma log_stops_nil sq : log_stops [] sq.
Proof. by intros d. Qed.

(** The reader reads the records in front of a stop, and no more. *)
Lemma wal_read_loop_run fuel pre rs tail sq acc :
  length (log_bytes rs sq ++ tail) < fuel → Forall record_wf rs → u64_range sq →
  log_stops tail (seq_at sq (length rs)) →
  ∃ reason,
    wal_read_loop fuel (pre ++ log_bytes rs sq ++ tail) (length pre) sq acc =
    Some (acc ++ log_records rs sq, length pre + length (log_bytes rs sq),
          seq_at sq (length rs), reason) ∧
    (reason = None ↔ tail = []).
Proof.
  intros Hfuel Hrs. revert fuel pre sq acc Hfuel.
  induction Hrs as [|r rs Hr _ IH]; intros fuel pre sq acc Hfuel Hs Hstop;
    (destruct fuel as [|fuel]; [lia|]); simpl in *; rewrite drop_app_length.
  - rewrite seq_at_0 in * by done. rewrite app_nil_r, Nat.add_0_r, length_app.
    case_decide as Hlt.
    + assert (tail ≠ []) as Hne by (intros ->; simpl in *; lia).
      destruct (record_decode tail) as [d|[|reason]] eqn:E.
      * rewrite (proj2 (Z.eqb_neq _ _)) by by apply Hstop. eexists. split; [done|naive_solver].
      * eexists. split; [done|naive_solver].
      * eexists. split; [done|naive_solver].
    + assert (tail = []) as -> by (apply nil_length_inv; lia). by eexists.
  - pose proof (record_size_ge r). rewrite decide_True
      by (rewrite !length_app, length_record_bytes by done; lia).
    rewrite <- (app_assoc (record_bytes r sq)), record_decode_complete by done. simpl.
    rewrite Z.eqb_refl.
    destruct (IH fuel (pre ++ record_bytes r sq) (u64_add sq 1)
      (acc ++ [{| seq := sq; record := r; rec_len := record_size r |}])) as (reason & E & Hr').
    + rewrite !length_app, length_record_bytes in * by done. lia.
    + apply wrap_u64_range.
    + by rewrite seq_at_S.
    + exists reason. split; [|done]. revert E.
      rewrite !length_app, length_record_bytes, seq_at_S, <- !app_assoc, Nat.add_assoc by done.
      done.
Qed.

(** Every byte string is a run of records up to some stop. *)
Lemma log_decompose b sq :
  u64_range sq → ∃ rs tail, b = log_bytes rs sq ++ tail ∧ Forall record_wf rs ∧
                            log_stops tail (seq_at sq (length rs)).
Proof.
  remember (length b) as n eqn:Hn. revert b sq Hn.
  induction (lt_wf n) as [n _ IH]. intros b sq -> Hs.
  destruct (record_decode b) as [d|e] eqn:E.
  2:{ exists [], b. repeat split; [done|]. intros d. congruence. }
  destruct (decide (seq d = sq)) as [<-|Hne].
  2:{ exists [], b. repeat split; [done|]. intros d'. rewrite E. intros [= <-].
      by rewrite seq_at_0. }
  apply record_decode_ok in E as (Hd & _ & Hl & Hle & Ht).
  pose proof (record_size_ge (record d)).
  destruct (IH (length (drop (rec_len d) b)) ltac:(len) (drop (rec_len d) b)
    (u64_add (seq d) 1) eq_refl (wrap_u64_range _)) as (rs & tail & Eb & Hrs & Hst).
  exists (record d :: rs), tail. simpl. rewrite <- app_assoc, <- Eb, <- Ht, take_drop.
  split; [done|]. split; [by constructor|]. by rewrite <- seq_at_S.
Qed.

End Records.

(** ** What a log file says *)

Section Reading.
Context `{Cpu}.
Implicit Types rs ps : list WalRecord.
Implicit Types b tail : bytes.
Implicit Types w : World.

(** [reads_as b first rs]: the contents [b] are a valid header for [first],
    the records [rs], and then nothing the reader would accept. *)
Definition reads_as b first rs : Prop :=
  u64_range first ∧ Forall record_wf rs ∧
  ∃ tail, b = encode_header first ++ log_bytes rs first ++ tail ∧
          log_stops tail (seq_at first (length rs)).

(** Every file with a valid header reads as something, and only as that. *)
Lemma reads_as_total b first :
  decode_header b = Ok first → ∃ rs, reads_as b first rs.
Proof.
  intros (Hr & Hlen & Ht)%decode_header_iff.
  destruct (log_decompose (drop WAL_HEADER_SIZE b) first Hr) as (rs & tail & Eb & Hrs & Hst).
  exists rs. split; [done|]. split; [done|]. exists tail. split; [|done].
  rewrite <- Ht, <- Eb. symmetry. apply take_drop.
Qed.

Lemma reads_as_loop b first rs :
  reads_as b first rs → ∃ tail reason,
    b = encode_header first ++ log_bytes rs first ++ tail ∧
    decode_header b = Ok first ∧
    wal_read_loop (S (length b)) b WAL_HEADER_SIZE first [] =
    Some (log_records rs first, length b - length tail, seq_at first (length rs), reason) ∧
    (reason = None ↔ tail = []).
Proof.
  intros (Hf & Hrs & tail & -> & Hst). exists tail.
  destruct (wal_read_loop_run (S (length (encode_header first ++ log_bytes rs first ++ tail)))
    (encode_header first) rs tail first [] ltac:(rewrite !length_app; lia) Hrs Hf Hst)
    as (reason & E & Hr).
  exists reason. split; [done|]. split; [by apply decode_header_encode|]. split; [|done].
  rewrite length_encode_header in E.
  replace (length (encode_header first ++ log_bytes rs first ++ tail) - length tail)
    with (WAL_HEADER_SIZE + length (log_bytes rs first)); [done|].
  rewrite !length_app, length_encode_header. lia.
Qed.

Lemma reads_as_fun b first rs first' rs' :
  reads_as b first rs → reads_as b first' rs' → first = first' ∧ rs = rs'.
Proof.
  intros (tail & reason & _ & E1 & E2 & _)%reads_as_loop
         (tail' & reason' & _ & E1' & E2' & _)%reads_as_loop.
  assert (first = first') as <- by congruence. split; [done|].
  rewrite <- (log_records_record rs first), <- (log_records_record rs' first). congruence.
Qed.

(** A clean log: no tail. *)
Lemma reads_as_clean first rs :
  u64_range first → Forall record_wf rs →
  reads_as (encode_header first ++ log_bytes rs first) first rs.
Proof.
  intros. split; [done|]. split; [done|]. exists []. rewrite app_nil_r.
  split; [done|apply log_stops_nil].
Qed.

(** Bytes in which only records of [ps] verify, each in its place, read as a
    prefix of [ps], whatever else they hold. *)
Lemma log_bytes_genuine ps sq t :
  Forall record_wf ps → u64_range sq →
  (∀ off d, record_decode (drop off t) = Ok d →
     slice off (off + rec_len d) t = slice off (off + rec_len d) (log_bytes ps sq)) →
  ∃ k tail, t = log_bytes (take k ps) sq ++ tail ∧ log_stops tail (seq_at sq (length (take k ps))).
Proof.
  intros Hps. revert sq t. induction Hps as [|r ps Hr Hps IH]; intros sq t Hs Hgen.
  all: assert (log_stops t sq ∨ ∃ d, record_decode t = Ok d ∧ seq d = sq) as [Hst|(d & Ed & Hsq)]
    by (destruct (record_decode t) as [d|] eqn:E; [destruct (decide (seq d = sq)); [eauto|]|];
        left; intros d'; congruence).
  1,3: exists 0, t; split; [done|]; simpl; by rewrite seq_at_0.
  all: pose proof (Hgen 0 d) as H0; rewrite drop_0 in H0; specialize (H0 Ed); unfold slice in H0;
    rewrite !drop_0, Nat.sub_0_r in H0; simpl Nat.add in H0.
  all: apply record_decode_ok in Ed as (Hd & _ & Hl & Hle & Ht);
    pose proof (record_size_ge (record d)); rewrite H0 in Ht.
  - simpl in Ht. rewrite take_nil in Ht. apply (f_equal length) in Ht.
    rewrite length_record_bytes in Ht by done. simpl in Ht. lia.
  - assert (record d = r) as Er.
    { pose proof (record_decode_complete r sq (log_bytes ps (u64_add sq 1)) Hr Hs) as E1.
      pose proof (take_drop (rec_len d) (log_bytes (r :: ps) sq)) as E2. rewrite Ht, Hsq in E2.
      simpl in E2. rewrite <- E2, record_decode_complete in E1 by done. by injection E1. }
    rewrite Er, Hsq in Ht. rewrite Er in Hl. simpl in Ht, Hgen.
    destruct (IH (u64_add sq 1) (drop (record_size r) t) (wrap_u64_range _)) as (k & tail & E & Hst).
    { intros off d' E'. rewrite drop_drop in E'. apply Hgen in E'. unfold slice in *.
      rewrite drop_drop. replace (off + rec_len d' - off) with (rec_len d') by lia.
      replace (record_size r + off + rec_len d' - (record_size r + off)) with (rec_len d') in E' by lia.
      rewrite E', drop_app_ge by (rewrite length_record_bytes by done; lia).
      rewrite length_record_bytes by done. by replace (record_size r + off - record_size r) with off by lia. }
    exists (S k), tail. simpl. rewrite <- app_assoc, <- E. split; [|by rewrite <- seq_at_S].
    simpl in H0. rewrite <- (take_drop (record_size r) t) at 1. f_equal. by rewrite <- Ht, <- H0, Hl.
Qed.

(** A log with such bytes behind its records. *)
Lemma reads_as_genuine first rs ps t :
  u64_range first → Forall record_wf (rs ++ ps) →
  (∀ off d, record_decode (drop off t) = Ok d →
     slice off (off + rec_len d) t =
     slice off (off + rec_len d) (log_bytes ps (seq_at first (length rs)))) →
  ∃ k, reads_as (encode_header first ++ log_bytes rs first ++ t) first (rs ++ take k ps).
Proof.
  intros Hf [Hrs Hps]%Forall_app Hgen.
  destruct (log_bytes_genuine ps _ t Hps (seq_at_range first (length rs)) Hgen) as (k & tail & -> & Hst).
  exists k. split; [done|]. split; [apply Forall_app; auto using Forall_take|].
  exists tail. rewrite log_bytes_app. split; [by rewrite <- !app_assoc|].
  by rewrite length_app, <- seq_at_add.
Qed.

(** A new header in front of old records rejects them all. *)
Lemma reads_as_stale first rs :
  u64_range first → Forall record_wf rs → (Z.of_nat (length rs) < 2 ^ 64)%Z →
  reads_as (encode_header (seq_at first (length rs)) ++ log_bytes rs first)
    (seq_at first (length rs)) [].
Proof.
  intros Hf Hrs Hb. split; [apply seq_at_range|]. split; [done|].
  exists (log_bytes rs first). split; [done|]. simpl. rewrite seq_at_0 by apply seq_at_range.
  destruct rs as [|r rs]; [apply log_stops_nil|]. intros d. simpl.
  inversion Hrs as [|? ? Hr]; subst. rewrite record_decode_complete by done.
  intros [= <-]. simpl. apply not_eq_sym, seq_at_ne; simpl in *; [done|lia|lia].
Qed.

(** ** The log handle *)

(** Contents and sync state of a log file holding exactly [rs]. *)
Definition log_file (f : file) first rs : Prop :=
  f_cur f = encode_header first ++ log_bytes rs first ∧ f_synced f = f_cur f ∧ f_pending f = [].

(** [wal_rep wal f first rs ps]: the handle [wal] on the file [f] has the
    durable records [rs] and the buffered records [ps]. *)
Record wal_rep (wal : Wal) (f : file) (first : Z) (rs ps : list WalRecord) : Prop := {
  rep_first : u64_range first;
  rep_wf : Forall record_wf (rs ++ ps);
  rep_file : log_file f first rs;
  rep_durable : durable_len wal = Z.of_nat (length (f_cur f));
  rep_pending : wal_pending wal = log_bytes ps (seq_at first (length rs));
  rep_next : next_seq wal = seq_at first (length (rs ++ ps));
  rep_clean : wal_poisoned wal = false;
}.

(** The log, buffered records included, fits a 64-bit file. *)
Definition log_fits (first : Z) (rs : list WalRecord) : Prop :=
  (Z.of_nat (WAL_HEADER_SIZE + length (log_bytes rs first)) < 2 ^ 64)%Z.

Lemma log_fits_length first rs :
  Forall record_wf rs → log_fits first rs → (Z.of_nat (length rs) < 2 ^ 64)%Z.
Proof.
  unfold log_fits. intros Hrs. pose proof (length_log_bytes_ge rs first Hrs). lia.
Qed.

Lemma length_log_file f first rs :
  log_file f first rs → length (f_cur f) = WAL_HEADER_SIZE + length (log_bytes rs first).
Proof. intros (-> & _). by rewrite length_app, length_encode_header. Qed.

Lemma wal_append_rep r wal f first rs ps :
  wal_rep wal f first rs ps → record_wf r →
  ∃ wal', wal_append r wal = (Ok (seq_at first (length (rs ++ ps))), wal') ∧
          wal_file wal' = wal_file wal ∧ wal_rep wal' f first rs (ps ++ [r]).
Proof.
  intros [Hf Hwf Hfile Hd Hp Hn Hc] Hr. unfold wal_append, wal_check_poisoned. rewrite Hc, Hn.
  eexists. split; [done|]. split; [done|]. split; simpl; try done.
  - rewrite app_assoc. apply Forall_app. auto.
  - rewrite record_encode_app, Hp, log_bytes_app, seq_at_add, <- length_app. simpl.
    by rewrite app_nil_r.
  - rewrite u64_add_seq_at, app_assoc, (length_app _ [r]). simpl. f_equal. lia.
Qed.

(** *** Flushing *)

Lemma log_file_wf f first rs : log_file f first rs → file_wf f.
Proof. intros (_ & Hs & Hp). unfold file_wf. by rewrite Hp, Hs. Qed.

(** An append in flight leaves what was there before. *)
Lemma crash_append f first rs src b :
  log_file f first rs →
  crash_content (file_apply (WriteAt (length (f_cur f)) src) f) b → ∃ t, b = f_cur f ++ t.
Proof.
  intros (_ & Hs & Hp). unfold crash_content. simpl. rewrite Hp, Hs. simpl.
  intros Hb. inversion Hb as [|? b1 ? ? ? Ht Hn]; subst. inversion Hn; subst.
  inversion Ht as [|op Eop|off src' b' Hsec Hlen Hmix]; subst.
  - exists []. by rewrite app_nil_r.
  - exists src. simpl. by rewrite write_bytes_append.
  - exists (drop (length (f_cur f)) b). rewrite write_bytes_append in Hmix.
    rewrite <- (take_drop (length (f_cur f)) b) at 1. f_equal.
    apply list_eq_same_length with (length (f_cur f)); [done|len|].
    intros i x y Hi Hx Hy. apply lookup_take_Some in Hx as [Hx _].
    destruct (Hmix i x Hx) as [E|[E|[Hge _]]]; [congruence| |lia].
    rewrite lookup_app_l in E by done. congruence.
Qed.

(** The damage a crash does to the log is noticed: where the contents [b] it
    leaves verify as a record, they are bytes the file had, before or after
    the changes that were not synced.  (A checksum of 32 bits cannot promise
    this of every mixture of blocks.) *)
Definition no_forgery (f : file) (b : bytes) : Prop :=
  ∀ off d, WAL_HEADER_SIZE ≤ off → record_decode (drop off b) = Ok d →
    slice off (off + rec_len d) b = slice off (off + rec_len d) (f_synced f) ∨
    slice off (off + rec_len d) b = slice off (off + rec_len d) (f_cur f).

Lemma no_forgery_cur f : no_forgery f (f_cur f).
Proof. intros off d _ _. by right. Qed.

Lemma no_forgery_synced f : no_forgery f (f_synced f).
Proof. intros off d _ _. by left. Qed.

(** After a flush that failed or was cut short the file reads, whatever
    happens next, as the durable records and some of the new ones. *)
Definition torn_flush (f : file) first rs ps : Prop :=
  file_wf f ∧ ∀ b, crash_content f b → no_forgery f b → ∃ k, reads_as b first (rs ++ take k ps).

Lemma torn_flush_none f first rs ps :
  u64_range first → Forall record_wf (rs ++ ps) → log_file f first rs → torn_flush f first rs ps.
Proof.
  intros Hf Hwf Hfile. split; [by eapply log_file_wf|]. intros b Hb _.
  destruct Hfile as (Hcur & Hs & Hp). apply crash_content_clean in Hb as ->; [|done].
  rewrite Hs, Hcur. exists 0. rewrite app_nil_r. apply reads_as_clean; [done|].
  by apply Forall_app in Hwf as [? _].
Qed.

Lemma torn_flush_write f first rs ps n :
  u64_range first → Forall record_wf (rs ++ ps) → log_file f first rs →
  torn_flush (file_apply (WriteAt (length (f_cur f))
    (take n (log_bytes ps (seq_at first (length rs))))) f) first rs ps.
Proof.
  intros Hf Hwf Hfile. split; [by eapply file_apply_wf, log_file_wf|].
  intros b Hb Hgen. eapply crash_append in Hb as [t ->]; [|done].
  pose proof (length_log_file _ _ _ Hfile) as Hlen. destruct Hfile as (Hcur & Hs & _).
  assert (∃ k, reads_as (encode_header first ++ log_bytes rs first ++ t) first (rs ++ take k ps)) as [k Hk].
  { apply reads_as_genuine; [done..|]. intros off d E.
    destruct (Hgen (length (f_cur f) + off) d) as [G|G]; [lia| | |].
    { by rewrite drop_app_add'. }
    all: simpl in G; rewrite slice_app_r in G by lia;
      replace (length (f_cur f) + off - length (f_cur f)) with off in G by lia;
      replace (length (f_cur f) + off + rec_len d - length (f_cur f)) with (off + rec_len d) in G by lia.
    all: apply record_decode_ok in E as (Hd & _ & Hl & Hle & _); pose proof (record_size_ge (record d));
      rewrite length_drop in Hle.
    - exfalso. rewrite Hs in G. apply (f_equal length) in G. revert G. unfold slice. len.
    - rewrite write_bytes_append, slice_app_r in G by lia.
      replace (length (f_cur f) + off - length (f_cur f)) with off in G by lia.
      replace (length (f_cur f) + off + rec_len d - length (f_cur f)) with (off + rec_len d) in G by lia.
      rewrite G. apply slice_take_full. rewrite <- G. unfold slice. len. }
  exists k. by rewrite Hcur, <- app_assoc.
Qed.

Lemma wp_wal_flush wal f first rs ps w :
  wal_rep wal f first rs ps → w_files w !! wal_file wal = Some f → log_fits first (rs ++ ps) →
  wp (wal_flush wal)
    (λ r w', wal_file r.2 = wal_file wal ∧
       ∃ f', files_to (<[wal_file wal := f']> (w_files w)) w w' ∧
         f_entry_synced f' = f_entry_synced f ∧
         match r.1 with
         | Ok _ => wal_rep r.2 f' first (rs ++ ps) []
         | Err _ => ¬ io_ok w ∧ wal_poisoned r.2 = true ∧ torn_flush f' first rs ps
         end)
    (λ w', ¬ io_ok w ∧ ∃ f', files_to (<[wal_file wal := f']> (w_files w)) w w' ∧
       f_entry_synced f' = f_entry_synced f ∧ torn_flush f' first rs ps) w.
Proof.
  intros [Hf Hwf Hfile Hd Hp Hn Hc] Hw Hfit. unfold wal_flush, wal_check_poisoned. rewrite Hc.
  case_decide as Hpe.
  { assert (ps = []) as ->.
    { destruct ps as [|p ps]; [done|]. apply (f_equal length) in Hpe. rewrite Hp in Hpe.
      apply Forall_app in Hwf as [_ Hps]. pose proof (length_log_bytes_ge _ (seq_at first (length rs)) Hps).
      simpl in *. lia. }
    wp_step. split; [done|]. exists f. rewrite insert_id by done. split; [apply files_to_refl|].
    split; [done|]. rewrite app_nil_r. by split. }
  rewrite Hp, Hd. wp_step. wp_step.
  eapply wp_write_all_at; [done| |]; rewrite Nat2Z.id.
  2:{ intros Hio n w' _ Hw'. pose proof (torn_flush_write f first rs ps n Hf Hwf Hfile).
      split; [split; [done|]; eexists; by split; [exact Hw'|]|].
      intros code. wp_step. split; [done|]. eexists. by split; [exact Hw'|]. }
  intros w1 [E1 I1]. pose proof (torn_flush_write f first rs ps
    (length (log_bytes ps (seq_at first (length rs)))) Hf Hwf Hfile) as Htorn.
  rewrite firstn_all in Htorn.
  eapply wp_sync_all; [by rewrite E1, lookup_insert_eq| |]; rewrite E1.
  2:{ intros Hio w' [E2 I2]. assert (¬ io_ok w) by auto.
      assert (files_to (w_files w') w w') as Hw' by (split; auto). rewrite E2 in Hw'.
      split; [split; [done|]; eexists; by split; [exact Hw'|]|].
      intros code. wp_step. split; [done|]. eexists. by split; [exact Hw'|]. }
  intros w2 [E2 I2]. rewrite insert_insert_eq in E2. wp_step. simpl. split; [done|].
  eexists. split; [by split; [|auto]|]. split; [done|].
  assert (f_cur f ++ log_bytes ps (seq_at first (length rs)) =
    encode_header first ++ log_bytes (rs ++ ps) first) as Hcur.
  { by rewrite (proj1 Hfile), <- app_assoc, log_bytes_app. }
  split; simpl; rewrite ?write_bytes_append; try done.
  - by rewrite app_nil_r.
  - split; simpl; rewrite ?write_bytes_append; [|done..]. done.
  - rewrite Hcur, length_app, length_encode_header. unfold u64_add. rewrite wrap_u64_id; [|].
    + apply length_log_file in Hfile. rewrite Hfile, log_bytes_app, length_app. lia.
    + apply length_log_file in Hfile. unfold log_fits in Hfit.
      rewrite log_bytes_app, length_app in Hfit. unfold u64_range. lia.
  - by rewrite app_nil_r.
Qed.

(** *** Resetting *)

(** After a reset that failed or was cut short, the file reads as the old
    records or as an empty log. *)
Definition torn_reset (f : file) first rs : Prop :=
  file_wf f ∧ ∀ b, crash_content f b →
    reads_as b first rs ∨ reads_as b first [] ∨ reads_as b (seq_at first (length rs)) [].

Lemma torn_within_sector b off src b1 :
  within_sector off (length src) → torn b (WriteAt off src) b1 →
  b1 = b ∨ b1 = write_bytes off src b.
Proof. intros Hs Ht. inversion Ht; subst; [by left|by right|done..]. Qed.

Lemma torn_set_len b n b1 : torn b (SetLen n) b1 → b1 = b ∨ b1 = set_len_bytes n b.
Proof. intros Ht. inversion Ht; subst; [by left|by right]. Qed.

Lemma set_len_header first tail :
  set_len_bytes WAL_HEADER_SIZE (encode_header first ++ tail) = encode_header first.
Proof.
  unfold set_len_bytes. rewrite length_app, length_encode_header, take_app_length'
    by by rewrite length_encode_header.
  replace (WAL_HEADER_SIZE - _) with 0 by lia. apply app_nil_r.
Qed.

Lemma write_header first first' tail :
  write_bytes 0 (encode_header first') (encode_header first ++ tail) = encode_header first' ++ tail.
Proof.
  rewrite write_bytes_inside by (rewrite !length_app, !length_encode_header; lia).
  apply (splice_middle 0 _ [] (encode_header first) tail); [done|].
  by rewrite !length_encode_header.
Qed.

Lemma torn_reset_ops f first rs n ops :
  u64_range first → Forall record_wf rs → (Z.of_nat (length rs) < 2 ^ 64)%Z →
  log_file f first rs → n = 0 ∨ n = WAL_HEADER_SIZE →
  ops = [] ∨ ops = [SetLen WAL_HEADER_SIZE] ∨
  ops = [SetLen WAL_HEADER_SIZE; WriteAt 0 (take n (encode_header (seq_at first (length rs))))] →
  torn_reset (foldr file_apply f (rev ops)) first rs.
Proof.
  intros Hf Hrs Hb Hfile Hn Hops. set (h' := encode_header (seq_at first (length rs))) in *.
  pose proof (reads_as_clean first rs Hf Hrs) as R1.
  pose proof (reads_as_clean first [] Hf ltac:(done)) as R2. simpl in R2. rewrite app_nil_r in R2.
  pose proof (reads_as_clean (seq_at first (length rs)) [] (seq_at_range _ _) ltac:(done)) as R3.
  simpl in R3. rewrite app_nil_r in R3.
  pose proof (reads_as_stale first rs Hf Hrs Hb) as R4.
  pose proof (log_file_wf _ _ _ Hfile) as Hwf. destruct Hfile as (Hcur & Hs & Hp).
  split; [destruct Hops as [->|[->| ->]]; simpl; auto with oxen|].
  assert (within_sector 0 (length (take n h'))) as Hsec.
  { unfold h'. destruct Hn as [->| ->]; [done|].
    by rewrite <- (length_encode_header (seq_at first (length rs))), firstn_all,
      length_encode_header. }
  assert (take n h' = [] ∨ take n h' = h') as Htk.
  { destruct Hn as [->| ->]; [by left|right].
    by rewrite <- (length_encode_header (seq_at first (length rs))), firstn_all. }
  intros b Hcr. destruct Hops as [->|[->| ->]]; simpl in Hcr.
  - apply crash_content_clean in Hcr as ->; [|done]. left. by rewrite Hs, Hcur.
  - unfold crash_content in Hcr. simpl in Hcr. rewrite Hp, Hs, Hcur in Hcr.
    inversion Hcr as [|? b1 ? ? ? Ht Hn1]; subst. inversion Hn1; subst.
    apply torn_set_len in Ht as [->| ->]; [by left|]. right. left. by rewrite set_len_header.
  - unfold crash_content in Hcr. simpl in Hcr. rewrite Hp, Hs, Hcur in Hcr.
    inversion Hcr as [|? b1 ? ? ? Ht Hn1]; subst. inversion Hn1 as [|? b2 ? ? ? Ht2 Hn2]; subst.
    inversion Hn2; subst. apply torn_within_sector in Ht2; [|done].
    assert (b = b1 ∨ b = write_bytes 0 h' b1) as Hb1
      by (destruct Htk as [E|E]; rewrite E in Ht2; simpl in Ht2; tauto).
    apply torn_set_len in Ht as [->| ->]; rewrite ?set_len_header in *;
      destruct Hb1 as [->| ->]; try tauto; right; right; unfold h'.
    by rewrite write_header.
Qed.

Lemma wp_wal_reset wal f first rs w :
  wal_rep wal f first rs [] → w_files w !! wal_file wal = Some f → log_fits first rs →
  wp (wal_reset wal)
    (λ r w', wal_file r.2 = wal_file wal ∧
       ∃ f', files_to (<[wal_file wal := f']> (w_files w)) w w' ∧
         f_entry_synced f' = f_entry_synced f ∧
         match r.1 with
         | Ok _ => wal_rep r.2 f' (seq_at first (length rs)) [] []
         | Err _ => ¬ io_ok w ∧ wal_poisoned r.2 = true ∧ torn_reset f' first rs
         end)
    (λ w', ¬ io_ok w ∧ ∃ f', files_to (<[wal_file wal := f']> (w_files w)) w w' ∧
       f_entry_synced f' = f_entry_synced f ∧ torn_reset f' first rs) w.
Proof.
  intros [Hf Hwf Hfile Hd Hp Hn Hc] Hw Hfit. rewrite app_nil_r in *.
  pose proof (log_fits_length _ _ Hwf Hfit) as Hb.
  pose proof (λ n ops, torn_reset_ops f first rs n ops Hf Hwf Hb Hfile) as Htorn.
  unfold wal_reset, wal_check_poisoned. rewrite Hc, Hp, Hn, bool_decide_eq_true_2 by done.
  simpl negb. cbv iota. wp_step. wp_step.
  eapply wp_set_len; [done| |]; rewrite ?Nat2Z.id.
  2:{ intros Hio w' Hw'. rewrite <- (insert_id _ _ _ Hw) in Hw'.
      pose proof (Htorn 0 [] ltac:(auto) ltac:(auto)).
      split; [split; [done|]; eexists; by split; [exact Hw'|]|].
      intros code. wp_step. split; [done|]. eexists. by split; [exact Hw'|]. }
  intros w1 [E1 I1]. wp_step. eapply wp_write_all_at; [by rewrite E1, lookup_insert_eq| |];
    rewrite E1; change (Z.to_nat 0) with 0.
  2:{ intros Hio n w' Hpw [E I]. assert (¬ io_ok w) by auto. rewrite insert_insert_eq in E.
      assert (n = 0 ∨ n = WAL_HEADER_SIZE) as Hn0.
      { rewrite length_encode_header in Hpw. destruct Hpw as [->|[->|[]]]; [auto..|].
        done. }
      pose proof (Htorn n _ Hn0 ltac:(right; right; reflexivity)) as Ht.
      split; [split; [done|]; eexists; by split; [split; [exact E|auto]|]|].
      intros code. wp_step. split; [done|]. eexists. by split; [split; [exact E|auto]|]. }
  intros w2 [E2 I2]. rewrite insert_insert_eq in E2.
  eapply wp_sync_all; [by rewrite E2, lookup_insert_eq| |]; rewrite E2.
  2:{ intros Hio w' [E I]. assert (¬ io_ok w) by auto.
      pose proof (Htorn WAL_HEADER_SIZE _ ltac:(auto) ltac:(right; right; reflexivity)) as Ht.
      rewrite take_ge in Ht by (rewrite length_encode_header; lia).
      split; [split; [done|]; eexists; by split; [split; [exact E|auto]|]|].
      intros code. wp_step. split; [done|]. eexists. by split; [split; [exact E|auto]|]. }
  intros w3 [E3 I3]. rewrite insert_insert_eq in E3. wp_step. split; [done|].
  eexists. split; [split; [exact E3|auto]|]. split; [done|]. simpl.
  assert (write_bytes 0 (encode_header (seq_at first (length rs)))
    (set_len_bytes WAL_HEADER_SIZE (f_cur f)) = encode_header (seq_at first (length rs))) as Hcur.
  { rewrite (proj1 Hfile), set_len_header, <- (app_nil_r (encode_header first)), write_header.
    apply app_nil_r. }
  split; simpl; rewrite ?Hcur, ?seq_at_0 by apply seq_at_range; try done.
  apply seq_at_range.
Qed.

(** *** Creating and opening *)

(** A log file [Wal::create] has finished writing. *)
Definition fresh_log_file : file :=
  file_link (file_sync (file_apply (WriteAt 0 (encode_header 0)) file_new)).

Lemma wp_wal_create p w :
  is_Some (parent p) → w_files w !! p = None → io_ok w →
  wp (wal_create p)
    (λ r w', ∃ wal, r = Ok wal ∧ wal_file wal = p ∧ wal_rep wal fresh_log_file 0 [] [] ∧
       w_files w' = link_dir (parent_dir p) (<[p := fresh_log_file]> (w_files w)) ∧ io_ok w')
    (λ _, False) w.
Proof.
  intros Hp Hf Hio. unfold wal_create.
  wp_step. apply wp_create_new_file; [done| |done]. intros w1 [E1 I1].
  wp_step. eapply wp_write_all_at; [rewrite E1; apply lookup_insert_eq| |]; [|naive_solver].
  intros w2 [E2 I2].
  wp_step. eapply wp_sync_all; [rewrite E2; apply lookup_insert_eq| |]; [|naive_solver].
  intros w3 [E3 I3].
  wp_step. unfold sync_parent_dir. apply wp_sync_dir; [|naive_solver].
  intros w4 [E4 I4]. wp_step. eexists. split; [done|]. split; [done|]. split; [|split; [|auto]].
  - assert (write_bytes 0 (encode_header 0) [] = encode_header 0) as Hcur
      by exact (write_bytes_append (encode_header 0) []).
    split; simpl; rewrite ?Hcur; try done.
  - rewrite E4, E3, E2, E1, !insert_insert_eq.
    apply map_eq. intros q. rewrite !link_dir_lookup.
    destruct (decide (p = q)) as [<-|].
    + rewrite !lookup_insert_eq. simpl. by rewrite in_parent_dir.
    + by rewrite !lookup_insert_ne.
Qed.

(** The handle [Wal::open] returns for a log that reads as [rs]. *)
Definition reopened (p : path) first rs : Wal :=
  {| wal_file := p;
     durable_len := Z.of_nat (WAL_HEADER_SIZE + length (log_bytes rs first));
     wal_pending := []; next_seq := seq_at first (length rs); wal_poisoned := false |}.

Lemma reopened_rep p f first rs :
  u64_range first → Forall record_wf rs → log_file f first rs →
  wal_rep (reopened p first rs) f first rs [].
Proof.
  intros Hf Hrs Hfile. split; try done; rewrite ?app_nil_r; try done.
  simpl. f_equal. symmetry. by apply length_log_file.
Qed.

Lemma set_len_log first rs tail :
  set_len_bytes (WAL_HEADER_SIZE + length (log_bytes rs first))
    (encode_header first ++ log_bytes rs first ++ tail) = encode_header first ++ log_bytes rs first.
Proof.
  unfold set_len_bytes.
  rewrite app_assoc, take_app_length' by by rewrite length_app, length_encode_header.
  rewrite !length_app, length_encode_header.
  replace (_ - _) with 0 by lia. apply app_nil_r.
Qed.

(** Truncating the tail keeps the records, also if it is lost in a crash. *)
Lemma crash_truncate b first rs b' :
  reads_as b first rs →
  crash_content (file_apply (SetLen (WAL_HEADER_SIZE + length (log_bytes rs first)))
    (file_at_rest b)) b' → reads_as b' first rs.
Proof.
  intros Hb. remember (WAL_HEADER_SIZE + _) as n eqn:En. intros Hcr.
  inversion Hcr as [|? b1 ? ? ? Ht Hn]. inversion Hn; subst.
  apply torn_set_len in Ht as [->| ->]; [done|].
  destruct Hb as (Hf & Hrs & tail & -> & _). simpl f_synced. rewrite set_len_log.
  by apply reads_as_clean.
Qed.

(** Opening a log found after a reboot returns its records and leaves the
    file with exactly them; it fails only when the operating system does, and
    a crash meanwhile loses nothing. *)
Lemma wp_wal_open p b first rs w :
  w_files w !! p = Some (file_at_rest b) → reads_as b first rs →
  wp (wal_open p)
    (λ r w', ∃ f', files_to (<[p := f']> (w_files w)) w w' ∧ f_entry_synced f' = true ∧
       match r with
       | Ok o => opened_wal o = reopened p first rs ∧
                 opened_records o = log_records rs first ∧ log_file f' first rs ∧
                 (opened_discarded o = None ↔
                    length b = WAL_HEADER_SIZE + length (log_bytes rs first))
       | Err _ => ¬ io_ok w ∧ file_wf f' ∧ ∀ b', crash_content f' b' → reads_as b' first rs
       end)
    (λ w', ¬ io_ok w ∧ ∃ f', files_to (<[p := f']> (w_files w)) w w' ∧ f_entry_synced f' = true ∧
       file_wf f' ∧ ∀ b', crash_content f' b' → reads_as b' first rs) w.
Proof.
  intros Hf Hb. destruct (reads_as_loop b first rs Hb) as (tail & reason & Eb & Hdec & Hloop & Hre).
  set (n := WAL_HEADER_SIZE + length (log_bytes rs first)).
  assert (length b - length tail = n) as Hoff.
  { rewrite Eb, !length_app, length_encode_header. unfold n. lia. }
  assert (length b = n + length tail) as Hlen
    by (rewrite Eb, !length_app, length_encode_header; unfold n; lia).
  pose proof (λ b', crash_truncate b first rs b' Hb) as Htr. fold n in Htr.
  assert (∀ b', crash_content (file_at_rest b) b' → reads_as b' first rs) as Hrest
    by (by intros b' ->%crash_content_clean).
  assert (∀ w', files_to (w_files w) w w' → files_to (<[p:=file_at_rest b]> (w_files w)) w w')
    as Hid by (intros w'; by rewrite insert_id).
  assert (file_wf (file_at_rest b)) as Hwf by done.
  unfold wal_open. wp_step. apply wp_open_file; rewrite ?Hf.
  2:{ intros Hn w' Hw'%Hid. split; [by eauto 7|]. intros code. by eauto 7. }
  intros w1 [E1 I1]. wp_step. eapply wp_read_to_end; [by rewrite E1| |]; rewrite E1.
  2:{ intros Hn w' [E I]. assert (files_to (w_files w) w w') as Hw'%Hid by (split; auto).
      assert (¬ io_ok w) by auto. split; [by eauto 7|]. intros code. by eauto 7. }
  intros w2 [E2 I2]. wp_step. wp_step. simpl f_cur. rewrite Hdec, Hloop, Hoff.
  assert (files_to (w_files w) w w2) as Hw2 by (split; auto).
  destruct reason as [reason|]; simpl fmap; cbv iota beta; wp_step.
  - assert (tail ≠ []) as Hne by naive_solver.
    assert (length tail ≠ 0) by (by intros ?%nil_length_inv).
    wp_step. eapply wp_set_len; [by rewrite E2| |]; rewrite E2, ?Nat2Z.id.
    2:{ intros Hn w' [E I]. assert (files_to (w_files w) w w') as Hw'%Hid by (split; auto).
        assert (¬ io_ok w) by auto. split; [by eauto 7|]. intros code. by eauto 7. }
    intros w3 [E3 I3]. eapply wp_sync_all; [by rewrite E3, lookup_insert_eq| |]; rewrite E3.
    2:{ intros Hn w' [E I]. assert (¬ io_ok w) by tauto.
        assert (file_wf (file_apply (SetLen n) (file_at_rest b))) by (apply file_apply_wf; done).
        split; [split; [done|]|intros code]; eexists; by split; [split; [exact E|auto]|]. }
    intros w4 [E4 I4]. wp_step. rewrite insert_insert_eq in E4.
    eexists. split; [split; [exact E4|auto]|]. split; [done|]. simpl. split; [done|].
    split; [done|]. split; [|split; [done|lia]].
    split; simpl; [|done]. rewrite Eb at 1. apply set_len_log.
  - assert (tail = []) as -> by naive_solver. wp_step. wp_step.
    exists (file_at_rest b). split; [by apply Hid|]. split; [done|]. simpl.
    split; [done|]. split; [done|]. split; [|simpl in *; split; [lia|done]].
    split; simpl; [|done]. rewrite Eb at 1. by rewrite app_nil_r.
Qed.

End Reading.

(** ** Properties *)

Section Properties.
Context `{Cpu}.
Implicit Types rs ps : list WalRecord.

Lemma wal_open_run p b first rs w :
  w_files w !! p = Some (file_at_rest b) → reads_as b first rs → io_ok w →
  ∃ o w' f', wal_open p w = (Done (Ok o), w') ∧ w_files w' !! p = Some f' ∧
    wal_rep (opened_wal o) f' first rs [] ∧ wal_file (opened_wal o) = p ∧
    opened_records o = log_records rs first ∧
    (opened_discarded o = None ↔ length b = WAL_HEADER_SIZE + length (log_bytes rs first)).
Proof.
  intros Hf Hb Hio. pose proof (wp_wal_open p b first rs w Hf Hb) as Ho. unfold wp in Ho.
  destruct (wal_open p w) as [[[o|e]| |] w'].
  - destruct Ho as (f' & [E _] & _ & Hw & Hr & Hfile & Hd). exists o, w', f'.
    split; [done|]. split; [by rewrite E, lookup_insert_eq|]. rewrite Hw.
    destruct Hb as (Hfr & Hrs & _). split; [by apply reopened_rep|]. done.
  - by destruct Ho as (f' & _ & _ & [] & _).
  - done.
  - by destruct Ho as [[] _].
Qed.

(** What a reboot makes of one file. *)
Lemma reboot_file w w' p f :
  reboot w w' → w_files w !! p = Some f → f_entry_synced f = true →
  ∃ b, crash_content f b ∧ w_files w' !! p = Some (file_at_rest b).
Proof.
  intros Hr Hf He. specialize (Hr p). rewrite Hf in Hr.
  destruct (w_files w' !! p) as [f'|]; [|congruence]. destruct Hr as (b & Hb & ->). eauto.
Qed.

(** [w1] is found after a reboot from [w], and the log at [wl] shows what
    damage was done to it. *)
Definition genuine_log (wl : path) (w w1 : World) : Prop :=
  ∀ f b, w_files w !! wl = Some f → w_files w1 !! wl = Some (file_at_rest b) → no_forgery f b.

Lemma genuine_settle wl w : genuine_log wl w (settle w).
Proof.
  intros f b Hf. simpl. rewrite lookup_fmap, Hf. intros [= <-]. apply no_forgery_cur.
Qed.

(** C27. Flushed records are durable: once [flush] returns [Ok], every record
    appended so far is found, in order and with nothing discarded, by an open
    after any crash, and numbering continues after them. *)
Theorem flushed_records_survive (wal wal' : Wal) (f : file) (first : Z) rs ps (w w1 w2 : World) :
  wal_rep wal f first rs ps → w_files w !! wal_file wal = Some f → f_entry_synced f = true →
  log_fits first (rs ++ ps) →
  wal_flush wal w = (Done (Ok tt, wal'), w1) → reboot w1 w2 → io_ok w2 →
  ∃ o w3, wal_open (wal_file wal) w2 = (Done (Ok o), w3) ∧
    record <$> opened_records o = rs ++ ps ∧ opened_discarded o = None ∧
    next_seq (opened_wal o) = next_seq wal'.
Proof.
  intros Hrep Hf He Hfit Efl Hre Hio.
  destruct (wp_Done _ _ _ _ _ _ (wp_wal_flush _ _ _ _ _ _ Hrep Hf Hfit) Efl)
    as (_ & f' & [E1 _] & He' & Hrep'). simpl in *.
  destruct (reboot_file w1 w2 (wal_file wal) f') as (b & Hb & Hw2);
    [done|by rewrite E1, lookup_insert_eq|congruence|].
  destruct Hrep' as [Hfr Hwf' Hfile Hd Hp Hn Hc]. rewrite app_nil_r in Hwf', Hn.
  pose proof (length_log_file _ _ _ Hfile) as Hlen. destruct Hfile as (Hcur & Hs & Hpend).
  apply crash_content_clean in Hb as ->; [|done]. rewrite Hs in Hw2.
  destruct (wal_open_run _ _ first (rs ++ ps) w2 Hw2) as (o & w3 & f3 & Eo & _ & Hrep3 & _ & Hr & Hd3).
  - rewrite Hcur. by apply reads_as_clean.
  - done.
  - exists o, w3. split; [done|]. split; [by rewrite Hr, log_records_record|].
    split; [by apply Hd3|]. rewrite (rep_next _ _ _ _ _ Hrep3), Hn, app_nil_r. done.
Qed.

(** C28. A flush that fails or is cut short by a crash keeps what was durable
    and nothing but whole records in order: in whatever order the blocks of the
    batch reached the disk, the next open, if no system call fails in it, finds
    the old records followed by some prefix of the new ones, discards the rest,
    and returns a handle that can be appended to.  It is assumed that the crash
    does not leave bytes that were never written together and yet match a
    checksum ([genuine_log]). *)
Theorem torn_flush_keeps_prefix (wal : Wal) (f : file) (first : Z) rs ps (w w1 w2 : World)
    (r : exec (Result unit * Wal)) :
  wal_rep wal f first rs ps → w_files w !! wal_file wal = Some f → f_entry_synced f = true →
  log_fits first (rs ++ ps) →
  wal_flush wal w = (r, w1) → (∀ wal', r ≠ Done (Ok tt, wal')) →
  reboot w1 w2 → genuine_log (wal_file wal) w1 w2 → io_ok w2 →
  r ≠ Panicked ∧
  ∃ k o w3 f3, wal_open (wal_file wal) w2 = (Done (Ok o), w3) ∧
    record <$> opened_records o = rs ++ take k ps ∧
    w_files w3 !! wal_file wal = Some f3 ∧
    wal_rep (opened_wal o) f3 first (rs ++ take k ps) [].
Proof.
  intros Hrep Hf He Hfit Efl Hnok Hre Hgen Hio.
  pose proof (wp_wal_flush _ _ _ _ _ _ Hrep Hf Hfit) as Hwp. unfold wp in Hwp. rewrite Efl in Hwp.
  assert (r ≠ Panicked ∧ ∃ f', files_to (<[wal_file wal := f']> (w_files w)) w w1 ∧
    f_entry_synced f' = f_entry_synced f ∧ torn_flush f' first rs ps) as [Hnp (f' & [E1 _] & He' & _ & Ht)].
  { destruct r as [[[[]|e] wal']| |].
    - by destruct (Hnok wal').
    - destruct Hwp as (_ & f' & Hw1 & He' & _ & _ & Ht). eauto.
    - done.
    - destruct Hwp as (_ & f' & Hw1 & He' & Ht). eauto. }
  split; [done|].
  destruct (reboot_file w1 w2 (wal_file wal) f') as (b & Hb & Hw2);
    [done|by rewrite E1, lookup_insert_eq|congruence|].
  destruct (Ht b Hb) as [k Hk]; [apply Hgen; [by rewrite E1, lookup_insert_eq|done]|].
  destruct (wal_open_run _ _ _ _ w2 Hw2 Hk Hio) as (o & w3 & f3 & Eo & Hf3 & Hrep3 & _ & Hr & _).
  exists k, o, w3, f3. split; [done|]. split; [by rewrite Hr, log_records_record|]. done.
Qed.


(** C31. Opening never trusts and never panics: for any bytes whatsoever, a
    bad header is reported without touching the file; behind a good header the
    reader returns exactly the longest run of well-formed records numbered
    from the header on, truncates the file to it, and hands out a log that can
    be appended to. *)
Theorem wal_open_any_bytes (p : path) (b : bytes) (w : World) :
  w_files w !! p = Some (file_at_rest b) → io_ok w →
  match decode_header b with
  | Err e => ∃ w', wal_open p w = (Done (Err e), w') ∧ w_files w' = w_files w
  | Ok first =>
      ∃ rs tail o w' f',
        b = encode_header first ++ log_bytes rs first ++ tail ∧
        Forall record_wf rs ∧ log_stops tail (seq_at first (length rs)) ∧
        wal_open p w = (Done (Ok o), w') ∧ opened_records o = log_records rs first ∧
        (opened_discarded o = None ↔ tail = []) ∧
        w_files w' !! p = Some f' ∧ f_cur f' = encode_header first ++ log_bytes rs first ∧
        wal_rep (opened_wal o) f' first rs []
  end.
Proof.
  intros Hf Hio. destruct (decode_header b) as [first|e] eqn:Hdec.
  - destruct (reads_as_total b first Hdec) as [rs Hrd].
    destruct (wal_open_run p b first rs w Hf Hrd Hio)
      as (o & w' & f' & Eo & Hf' & Hrep & _ & Hrec & Hd).
    destruct Hrd as (_ & Hrs & tail & Eb & Hst). exists rs, tail, o, w', f'.
    split_and!; try done; [|by apply (rep_file _ _ _ _ _ Hrep)].
    rewrite Hd, Eb, !length_app, length_encode_header. split; [|intros ->; simpl; lia].
    intros. apply nil_length_inv. lia.
  - assert (wp (wal_open p) (λ r w', r = Err e ∧ files_to (w_files w) w w') (λ _, False) w) as Hwp.
    { unfold wal_open. wp_step. apply wp_open_file; rewrite ?Hf; [|done]. intros w1 [E1 I1].
      wp_step. eapply wp_read_to_end; [by rewrite E1| |]; rewrite E1; [|naive_solver].
      intros w2 [E2 I2]. wp_step. wp_step. simpl f_cur. rewrite Hdec.
      split; [done|]. by split; auto. }
    unfold wp in Hwp. destruct (wal_open p w) as [[r| |] w']; [|done..].
    destruct Hwp as [-> [E _]]. eauto.
Qed.

(** A failed flush or reset poisons the log for good: from then on no
    operation succeeds, writes to the file, or changes the handle. *)
Theorem failed_log_is_poisoned (wal wal' : Wal) (f : file) (first : Z) rs ps (w w1 : World)
    (e : Error) (r : WalRecord) :
  wal_rep wal f first rs ps → w_files w !! wal_file wal = Some f → log_fits first (rs ++ ps) →
  wal_flush wal w = (Done (Err e, wal'), w1) ∨
    (ps = [] ∧ wal_reset wal w = (Done (Err e, wal'), w1)) →
  ∃ e', is_poisoned e' = true ∧
    wal_append r wal' = (Err e', wal') ∧
    (∀ w2, wal_flush wal' w2 = (Done (Err e', wal'), w2)) ∧
    (∀ w2, wal_reset wal' w2 = (Done (Err e', wal'), w2)).
Proof.
  intros Hrep Hf Hfit Hrun.
  assert (wal_poisoned wal' = true) as Hp.
  { destruct Hrun as [E|[-> E]].
    - destruct (wp_Done _ _ _ _ _ _ (wp_wal_flush _ _ _ _ _ _ Hrep Hf Hfit) E)
        as (_ & f' & _ & _ & _ & Hp & _). done.
    - rewrite app_nil_r in Hfit.
      destruct (wp_Done _ _ _ _ _ _ (wp_wal_reset _ _ _ _ _ Hrep Hf Hfit) E)
        as (_ & f' & _ & _ & _ & Hp & _). done. }
  unfold wal_append, wal_flush, wal_reset, wal_check_poisoned. rewrite Hp.
  eexists. split_and!; cycle 1; done.
Qed.

End Properties.

(** ** Witnesses *)

Module WalWitness.
Import PageWitness RecordWitness.

Definition log : path := [RootDir; Normal "data"; Normal "db.oxen-wal"].

(** A log with one durable record and another one buffered. *)
Definition log_contents : bytes := @encode_header cpu 0 ++ @log_bytes cpu [commit] 0.
Definition log_world (plan : list io_fate) : World :=
  {| w_files := {[ log := file_at_rest log_contents ]}; w_plan := plan |}.

Definition handle (ps : list WalRecord) : Wal :=
  {| wal_file := log; durable_len := 49; wal_pending := @log_bytes cpu ps 1;
     next_seq := 1 + Z.of_nat (length ps); wal_poisoned := false |}.

Lemma world_log plan : w_files (log_world plan) !! log = Some (file_at_rest log_contents).
Proof. apply lookup_singleton_eq. Qed.

Lemma handle_rep : @wal_rep cpu (handle [Commit 2]) (file_at_rest log_contents) 0 [commit] [Commit 2].
Proof.
  split; [unfold u64_range; lia|repeat constructor; unfold u64_range; lia|by split_and!|..];
    vm_compute; reflexivity.
Qed.


Lemma world_wf f' : file_wf f' →
  map_Forall (λ _ f, file_wf f) (<[log := f']> (w_files (log_world []))).
Proof.
  intros Hf. apply map_Forall_insert_2; [done|]. simpl. rewrite map_Forall_singleton.
  unfold file_wf. reflexivity.
Qed.

Lemma handle_fits : @log_fits cpu 0 [commit; Commit 2].
Proof. vm_compute. reflexivity. Qed.


Lemma flush_reboots plan r w1 :
  wal_flush (handle [Commit 2]) (log_world plan) = (r, w1) → reboot w1 (settle w1).
Proof.
  intros E. pose proof (@wp_wal_flush cpu _ _ _ _ _ _ handle_rep (world_log plan) handle_fits) as Hw.
  unfold wp in Hw. rewrite E in Hw. apply reboot_settle.
  destruct r as [[[[]|e] wal']| |]; [| |done|].
  - destruct Hw as (_ & f' & [-> _] & _ & Hrep). apply world_wf.
    exact (log_file_wf _ _ _ (rep_file _ _ _ _ _ Hrep)).
  - destruct Hw as (_ & f' & [-> _] & _ & _ & _ & Ht). apply world_wf, Ht.
  - destruct Hw as (_ & f' & [-> _] & _ & Ht). apply world_wf, Ht.
Qed.


(** A flush that succeeds and one that writes 7 bytes and fails. *)
Lemma flush_succeeds : ∃ wal' w1,
  wal_flush (handle [Commit 2]) (log_world []) = (Done (Ok tt, wal'), w1).
Proof. eexists _, _. vm_compute. reflexivity. Qed.

Lemma flush_fails : ∃ wal' w1,
  wal_flush (handle [Commit 2]) (log_world [IoFail 5 7]) = (Done (Err (Io (Os 5)), wal'), w1).
Proof. eexists _, _. vm_compute. reflexivity. Qed.
End WalWitness.

Lemma flushed_records_survive_witness :
  ∃ w2 o w3, @wal_open PageWitness.cpu WalWitness.log w2 = (Done (Ok o), w3) ∧
    record <$> opened_records o = [RecordWitness.commit; Commit 2].
Proof.
  destruct WalWitness.flush_succeeds as (wal' & w1 & E).
  destruct (@flushed_records_survive PageWitness.cpu _ wal' _ _ _ _ _ w1 (settle w1)
    WalWitness.handle_rep (WalWitness.world_log []) eq_refl WalWitness.handle_fits E
    (WalWitness.flush_reboots _ _ _ E) ltac:(constructor)) as (o & w3 & Eo & Hr & _).
  eauto.
Defined.

Lemma torn_flush_keeps_prefix_witness :
  ∃ w2 k o w3, @wal_open PageWitness.cpu WalWitness.log w2 = (Done (Ok o), w3) ∧
    record <$> opened_records o = [RecordWitness.commit] ++ take k [Commit 2].
Proof.
  destruct WalWitness.flush_fails as (wal' & w1 & E).
  destruct (@torn_flush_keeps_prefix PageWitness.cpu _ _ _ _ _ _ w1 (settle w1) _
    WalWitness.handle_rep (WalWitness.world_log _) eq_refl WalWitness.handle_fits E
    ltac:(done) (WalWitness.flush_reboots _ _ _ E) (genuine_settle _ _) ltac:(constructor))
    as (_ & k & o & w3 & f3 & Eo & Hr & _).
  eauto 10.
Defined.


Lemma wal_open_any_bytes_witness :
  ∃ e w', @wal_open PageWitness.cpu WalWitness.log
    {| w_files := {[ WalWitness.log := file_at_rest (zeros 9) ]}; w_plan := [] |} = (Done (Err e), w').
Proof.
  destruct (@wal_open_any_bytes PageWitness.cpu WalWitness.log (zeros 9)
    {| w_files := {[ WalWitness.log := file_at_rest (zeros 9) ]}; w_plan := [] |}
    (lookup_singleton_eq _ _) ltac:(constructor)) as (w' & E & _).
  eauto.
Defined.

Lemma failed_log_is_poisoned_witness :
  ∃ wal' e', wal_append RecordWitness.commit (H := PageWitness.cpu) wal' = (Err e', wal') ∧
             is_poisoned e' = true.
Proof.
  destruct WalWitness.flush_fails as (wal' & w1 & E).
  destruct (@failed_log_is_poisoned PageWitness.cpu _ wal' _ _ _ _ _ w1 _ RecordWitness.commit
    WalWitness.handle_rep (WalWitness.world_log _) WalWitness.handle_fits (or_introl E))
    as (e' & Hp & Ha & _).
  eauto.
Defined.
