(* ===== verification/Recovery.v ===== *)
(** * Crash recovery (src/crates/oxendb/src/storage/recovery.rs)

    Replaying the committed page images of a log into the data file. *)

From S2P Require Import Prelude Errors BTree Checksum Page FileHeader FileSys Disk WalRecord.

(** [struct RecoveryStats].  [incomplete_txns] is a [usize] subtraction. *)
Record RecoveryStats : Type := {
  committed_txns : nat;
  incomplete_txns : Z;
  pages_restored : nat;
}.

Section Operations.
Local Open Scope string_scope.
Context `{Cpu}.

(** [validate_image]. *)
Definition validate_image (id : PageId) (page : Page) (sq : Z) : Result unit :=
  let result :=
    if (id =? HEADER)%Z then decode page ≫= λ _, Ok tt
    else verify id page ≫= λ _, Ok tt in
  map_err (λ err, corruption ("WAL record " +:+ pretty sq +:+ " holds an invalid image of " +:+
             page_id_to_string id +:+ ": " +:+ error_to_string err)) result.

(** The two sets of transactions. *)
Definition committed_set (records : list DecodedRecord) : gset TxnId :=
  list_to_set (omap (λ r, match record r with
                          | Commit txn => Some txn
                          | PageImage _ _ _ => None
                          end) records).

Definition all_txns_set (records : list DecodedRecord) : gset TxnId :=
  list_to_set ((λ r, record_txn (record r)) <$> records).

(** The loop that collects the latest committed image of every page. *)
Fixpoint collect_latest (committed : gset TxnId) (records : list DecodedRecord)
    (latest : list (PageId * Page)) : Result (list (PageId * Page)) :=
  match records with
  | [] => Ok latest
  | decoded :: records =>
      match record decoded with
      | PageImage txn id page =>
          if decide (txn ∈ committed) then
            validate_image id page (seq decoded) ≫= λ _,
            collect_latest committed records (bt_insert id page latest)
          else collect_latest committed records latest
      | Commit _ => collect_latest committed records latest
      end
  end.

(** The loop that writes them. *)
Definition write_images (file : path) (latest : list (PageId * Page)) : M World (Result unit) :=
  for_each (λ '(id, page), write_all_at file (as_bytes page) (file_offset id)) latest.

(** [replay]. *)
Definition replay (data_path : path) (records : list DecodedRecord) :
    M World (Result RecoveryStats) :=
  let committed := committed_set records in
  let all_txns := all_txns_set records in
  let? latest := lift (collect_latest committed records []) in
  let? _ :=
    if negb (bool_decide (latest = [])) then
      let? file := open_file data_path in
      let? _ := write_images file latest in
      sync_all file
    else ret (Ok tt) in
  ret (Ok {| committed_txns := size committed;
             incomplete_txns := wrap_u64 (Z.of_nat (size all_txns) - Z.of_nat (size committed));
             pages_restored := length latest |}).

End Operations.

(** ** What a log says about the pages *)

Lemma size_list_to_set_le (l : list Z) : size (list_to_set l : gset Z) ≤ length l.
Proof.
  induction l as [|x l IH]; simpl; [done|].
  rewrite size_union_alt, size_singleton.
  assert (size (list_to_set l ∖ {[x]} : gset Z) ≤ size (list_to_set l : gset Z))
    by (apply subseteq_size; set_solver). lia.
Qed.

Section Latest.
Implicit Types rs : list WalRecord.

(** The transactions with a commit record. *)
Definition commits rs : gset TxnId :=
  list_to_set (omap (λ r, match r with Commit txn => Some txn | PageImage _ _ _ => None end) rs).

(** The last image of a page among those of the transactions in [C]. *)
Fixpoint latest_in (C : gset TxnId) rs (id : PageId) : option Page :=
  match rs with
  | [] => None
  | r :: rs =>
      match latest_in C rs id, r with
      | Some p, _ => Some p
      | None, PageImage txn id' p => if decide (txn ∈ C ∧ id' = id) then Some p else None
      | None, Commit _ => None
      end
  end.

Definition latest_image rs (id : PageId) : option Page := latest_in (commits rs) rs id.

Lemma elem_of_commits rs txn : txn ∈ commits rs ↔ Commit txn ∈ rs.
Proof.
  unfold commits. rewrite elem_of_list_to_set, list_elem_of_omap. split.
  - intros ([] & Hin & [= ->]). done.
  - intros Hin. by exists (Commit txn).
Qed.

Lemma committed_set_commits records : committed_set records = commits (record <$> records).
Proof.
  unfold committed_set, commits. f_equal.
  induction records as [|d records IH]; [done|]. csimpl. rewrite IH. by destruct (record d).
Qed.

Lemma latest_in_app C rs rs' id :
  latest_in C (rs ++ rs') id =
  match latest_in C rs' id with Some p => Some p | None => latest_in C rs id end.
Proof.
  induction rs as [|r rs IH]; simpl; [by destruct (latest_in C rs' id)|].
  rewrite IH. by destruct (latest_in C rs' id).
Qed.

(** Only the transactions of the images matter. *)
Lemma latest_in_ext C C' rs id :
  (∀ txn id' p, PageImage txn id' p ∈ rs → txn ∈ C ↔ txn ∈ C') →
  latest_in C rs id = latest_in C' rs id.
Proof.
  induction rs as [|r rs IH]; simpl; [done|]. intros HC.
  rewrite IH by (intros; eapply HC; by constructor).
  destruct (latest_in C' rs id); [done|]. destruct r as [txn id' p|]; [|done].
  assert (txn ∈ C ↔ txn ∈ C') as HCC by (eapply HC; by constructor).
  destruct (decide (txn ∈ C ∧ id' = id)), (decide (txn ∈ C' ∧ id' = id)); tauto.
Qed.

Lemma latest_in_elem C rs id p :
  latest_in C rs id = Some p → ∃ txn, txn ∈ C ∧ PageImage txn id p ∈ rs.
Proof.
  induction rs as [|r rs IH]; simpl; [done|].
  destruct (latest_in C rs id) as [p'|].
  - intros [= ->]. destruct IH as (txn & ? & ?); [done|]. exists txn. split; [done|]. by constructor.
  - destruct r as [txn id' p'|]; [|done]. case_decide as Hd; [|done]. intros [= ->].
    destruct Hd as [? ->]. exists txn. split; [done|]. constructor.
Qed.

End Latest.

Section Collect.
Context `{Cpu}.
Implicit Types rs : list WalRecord.

(** An image recovery accepts: a header or a page that verifies. *)
Definition valid_image (id : PageId) (p : Page) : Prop :=
  if (id =? HEADER)%Z then is_ok (decode p) = true else is_ok (verify id p) = true.

Definition valid_images (C : gset TxnId) rs : Prop :=
  ∀ txn id p, PageImage txn id p ∈ rs → txn ∈ C → valid_image id p.

Lemma validate_image_ok id p sq : validate_image id p sq = Ok tt ↔ valid_image id p.
Proof.
  unfold validate_image, valid_image.
  destruct (id =? HEADER)%Z; [destruct (decode p)|destruct (verify id p)]; simpl; split; done.
Qed.

Lemma validate_image_err id p sq e :
  validate_image id p sq = Err e → ¬ valid_image id p ∧ is_corruption e = true.
Proof.
  intros E. split.
  - intros Hv. apply (validate_image_ok _ _ sq) in Hv. congruence.
  - revert E. unfold validate_image.
    destruct (id =? HEADER)%Z; [destruct (decode p)|destruct (verify id p)]; simpl;
      intros [= <-]; done.
Qed.

Lemma collect_latest_ok C records acc latest :
  collect_latest C records acc = Ok latest → bt_sorted acc →
  bt_sorted latest ∧ valid_images C (record <$> records) ∧
  ∀ id, bt_get id latest =
        match latest_in C (record <$> records) id with Some p => Some p | None => bt_get id acc end.
Proof.
  revert acc. induction records as [|d records IH]; intros acc; simpl.
  { intros [= ->] Hs. split; [done|]. split; [|done]. by intros ??? ?%not_elem_of_nil. }
  destruct (record d) as [txn id' p|txn] eqn:Ed.
  - case_decide as Hc.
    + destruct (validate_image id' p (seq d)) as [[]|e] eqn:Ev; [|done]. simpl. intros E Hs.
      apply validate_image_ok in Ev.
      destruct (IH _ E ltac:(auto with oxen)) as (Hs' & Hv & Hget). split; [done|]. split.
      { intros txn' id'' p' [[= -> -> ->]|Hin]%elem_of_cons ?; [done|]. by eapply Hv. }
      intros id. rewrite Hget. destruct (latest_in C _ id); [done|].
      rewrite bt_get_insert. destruct (Z.eqb_spec id id') as [->|].
      * by rewrite decide_True.
      * rewrite decide_False; [done|]. naive_solver.
    + intros E Hs. destruct (IH _ E Hs) as (Hs' & Hv & Hget). split; [done|]. split.
      { intros txn' id'' p' [[= -> -> ->]|Hin]%elem_of_cons ?; [done|]. by eapply Hv. }
      intros id. rewrite Hget. destruct (latest_in C _ id); [done|].
      rewrite decide_False; [done|]. naive_solver.
  - intros E Hs. destruct (IH _ E Hs) as (Hs' & Hv & Hget). split; [done|]. split.
    { intros txn' id'' p' [[=]|Hin]%elem_of_cons ?. by eapply Hv. }
    intros id. rewrite Hget. by destruct (latest_in C _ id).
Qed.

Lemma collect_latest_err C records acc e :
  collect_latest C records acc = Err e →
  ¬ valid_images C (record <$> records) ∧ is_corruption e = true.
Proof.
  revert acc. induction records as [|d records IH]; intros acc; simpl; [done|].
  assert (¬ valid_images C (record <$> records) →
    ¬ valid_images C (record d :: (record <$> records))) as Hcons.
  { intros Hn Hv. apply Hn. intros txn id p Hin. apply (Hv txn id p). by constructor. }
  destruct (record d) as [txn id' p|txn] eqn:Ed.
  - case_decide as Hc; [|naive_solver].
    destruct (validate_image id' p (seq d)) as [[]|e'] eqn:Ev; simpl; [naive_solver|].
    intros [= <-]. apply validate_image_err in Ev as [Hn He]. split; [|done].
    intros Hv. apply Hn, (Hv txn); [constructor|done].
  - naive_solver.
Qed.

End Collect.

(** ** The file after replay *)

Section Images.
Implicit Types m : list (PageId * Page).
Implicit Types b : bytes.

(** A byte of a file; zero past its end, like a hole. *)
Definition byte_or_zero b (i : nat) : byte := default Byte.x00 (b !! i).

Lemma byte_or_zero_ge b i : length b ≤ i → byte_or_zero b i = Byte.x00.
Proof. intros. unfold byte_or_zero. by rewrite lookup_ge_None_2. Qed.

Lemma bytes_eq b b' : length b = length b' → (∀ i, byte_or_zero b i = byte_or_zero b' i) → b = b'.
Proof.
  intros Hlen Hz. apply list_eq_same_length with (length b); [done|done|].
  intros i x y Hi Hx Hy. specialize (Hz i). unfold byte_or_zero in Hz.
  by rewrite Hx, Hy in Hz.
Qed.

Lemma byte_or_zero_write off src b i :
  byte_or_zero (write_bytes off src b) i =
  if decide (off ≤ i < off + length src) then byte_or_zero src (i - off) else byte_or_zero b i.
Proof.
  unfold write_bytes. destruct src as [|x src].
  { rewrite decide_False by (simpl; lia). done. }
  set (s := x :: src). set (b1 := b ++ zeros (off + length s - length b)).
  assert (off + length s ≤ length b1) as Hlen by (unfold b1; len).
  unfold byte_or_zero. case_decide as Hi.
  - by rewrite lookup_splice_eq by lia.
  - rewrite lookup_splice_ne by lia. unfold b1.
    destruct (decide (i < length b)); [by rewrite lookup_app_l|].
    rewrite lookup_app_r by lia. rewrite (lookup_ge_None_2 b) by lia.
    destruct (zeros _ !! _) as [z|] eqn:E; [|done]. by apply lookup_replicate in E as [-> _].
Qed.

(** The byte range of a page. *)
Definition page_start (id : PageId) : nat := Z.to_nat id * PAGE_SIZE.
Definition in_page (id : PageId) (i : nat) : Prop := page_start id ≤ i < page_start id + PAGE_SIZE.

(** Bytes that belong to a page of [m], and how far those pages reach. *)
Definition covered m (i : nat) : Prop := ∃ id p, (id, p) ∈ m ∧ in_page id i.
Definition images_end m : nat := foldr (λ x n, Nat.max (page_start x.1 + PAGE_SIZE) n) 0 m.

(** The contents once every image of [m] is written over [b]. *)
Definition images_bytes m b : bytes :=
  foldl (λ b x, write_bytes (page_start x.1) (data x.2) b) b m.

Lemma images_bytes_cons id p m b :
  images_bytes ((id, p) :: m) b = images_bytes m (write_bytes (page_start id) (data p) b).
Proof. done. Qed.

Definition images_wf m : Prop := ∀ id p, (id, p) ∈ m → (0 ≤ id)%Z ∧ page_wf p.

Lemma images_wf_cons id p m : images_wf ((id, p) :: m) → (0 ≤ id)%Z ∧ page_wf p ∧ images_wf m.
Proof.
  intros Hm. destruct (Hm id p); [constructor|]. split; [done|]. split; [done|].
  intros id' p' Hin. apply Hm. by constructor.
Qed.

Lemma in_page_inj id id' i : (0 ≤ id)%Z → (0 ≤ id')%Z → in_page id i → in_page id' i → id = id'.
Proof. unfold in_page, page_start. intros. assert (Z.to_nat id = Z.to_nat id') by nia. lia. Qed.

Lemma images_end_elem id p m : (id, p) ∈ m → page_start id + PAGE_SIZE ≤ images_end m.
Proof.
  induction m as [|x m IH]; [by intros ?%not_elem_of_nil|].
  intros [<-|Hin]%elem_of_cons; simpl; [lia|]. specialize (IH Hin). lia.
Qed.

Lemma covered_end m i : covered m i → i < images_end m.
Proof. intros (id & p & Hin & Hi). apply images_end_elem in Hin. unfold in_page in Hi. lia. Qed.

Lemma length_images_bytes m b :
  images_wf m → length (images_bytes m b) = Nat.max (length b) (images_end m).
Proof.
  revert b. induction m as [|[id p] m IH]; intros b Hm; [simpl; lia|].
  apply images_wf_cons in Hm as (_ & Hp & Hm). rewrite images_bytes_cons, IH by done.
  simpl. rewrite length_write_bytes, Hp; [lia|]. intros E. unfold page_wf in Hp.
  rewrite E in Hp. simpl in Hp. page_lia.
Qed.

Lemma images_bytes_other m b i :
  images_wf m → ¬ covered m i → byte_or_zero (images_bytes m b) i = byte_or_zero b i.
Proof.
  revert b. induction m as [|[id p] m IH]; intros b Hm Hi; [done|].
  apply images_wf_cons in Hm as (_ & Hp & Hm). rewrite images_bytes_cons, IH; [|done|].
  2:{ intros (id' & p' & Hin & ?). apply Hi. exists id', p'. split; [by constructor|done]. }
  rewrite byte_or_zero_write, decide_False; [done|]. simpl. intros Hr. apply Hi.
  exists id, p. split; [constructor|]. by rewrite Hp in Hr.
Qed.

Lemma images_bytes_page m b id p i :
  images_wf m → bt_sorted m → (id, p) ∈ m → in_page id i →
  byte_or_zero (images_bytes m b) i = byte_or_zero (data p) (i - page_start id).
Proof.
  intros Hm Hs. revert b Hm. induction Hs as [|[id' p'] m Hs IH Hlt]; intros b Hm;
    [by intros ?%not_elem_of_nil|].
  pose proof (images_wf_cons _ _ _ Hm) as (Hid' & Hp' & Hm').
  intros [[= -> ->]|Hin]%elem_of_cons Hi.
  - rewrite images_bytes_cons, images_bytes_other; [|done|].
    + rewrite byte_or_zero_write, decide_True; [done|]. simpl. by rewrite Hp'.
    + intros (id2 & p2 & Hin2 & Hi2). rewrite Forall_forall in Hlt. specialize (Hlt _ Hin2).
      simpl in Hlt. assert (id' = id2); [|lia]. eapply in_page_inj; [done|lia|done|done].
  - rewrite images_bytes_cons. by apply IH.
Qed.

(** Writing the images hides whatever their pages held before. *)
Definition agree_outside m b b' : Prop :=
  length b ≤ length b' ≤ Nat.max (length b) (images_end m) ∧
  ∀ i, ¬ covered m i → byte_or_zero b' i = byte_or_zero b i.

Lemma covered_dec m i : covered m i ∨ ¬ covered m i.
Proof.
  induction m as [|[id p] m [IH|IH]].
  - right. by intros (id & p & ?%not_elem_of_nil & _).
  - left. destruct IH as (id' & p' & Hin & Hi). exists id', p'. split; [by constructor|done].
  - destruct (decide (page_start id ≤ i < page_start id + PAGE_SIZE)) as [Hi|Hi].
    + left. exists id, p. split; [constructor|done].
    + right. intros (id' & p' & [[= -> ->]|Hin]%elem_of_cons & Hi'); [done|].
      apply IH. by exists id', p'.
Qed.

Lemma images_bytes_agree m b b' :
  images_wf m → bt_sorted m → agree_outside m b b' → images_bytes m b' = images_bytes m b.
Proof.
  intros Hm Hs [Hlen Hz]. apply bytes_eq; [rewrite !length_images_bytes by done; lia|].
  intros i. destruct (covered_dec m i) as [(id & p & Hin & Hi)|Hn].
  - by rewrite !(images_bytes_page _ _ _ _ _ Hm Hs Hin Hi).
  - rewrite !images_bytes_other by done. by apply Hz.
Qed.

End Images.

(** ** Crashes while pages are written *)

Section Harmless.
Implicit Types m : list (PageId * Page).
Implicit Types b : bytes.

(** A write that only changes bytes some image of [m] will overwrite, or
    repeats what the synced contents already hold. *)
Definition harmless (b0 : bytes) m (op : file_op) : Prop :=
  match op with
  | WriteAt off src => ∀ j x, src !! j = Some x → covered m (off + j) ∨ b0 !! (off + j) = Some x
  | SetLen _ => False
  end.

(** A data file none of whose unsynced changes can hurt: the log has an
    image for every page they touch. *)
Definition data_safe (f : file) m : Prop :=
  file_wf f ∧ Forall (harmless (f_synced f) m) (f_pending f).

Lemma agree_outside_refl m b : agree_outside m b b.
Proof. split; [lia|done]. Qed.

Lemma agree_outside_write b0 b m off src :
  agree_outside m b0 b → harmless b0 m (WriteAt off src) →
  agree_outside m b0 (write_bytes off src b).
Proof.
  intros [Hlen Hz] Hh. destruct (decide (src = [])) as [->|Hne]; [done|]. split.
  - rewrite length_write_bytes by done.
    destruct (last src) as [x|] eqn:El; [|by apply last_None in El].
    rewrite last_lookup in El. destruct (Hh _ _ El) as [Hc|Hb].
    + apply covered_end in Hc. destruct src; [done|]. simpl in *. lia.
    + apply lookup_lt_Some in Hb. destruct src; [done|]. simpl in *. lia.
  - intros i Hi. rewrite byte_or_zero_write. case_decide as Hr; [|by apply Hz].
    destruct (lookup_lt_is_Some_2 src (i - off)) as [x Hx]; [lia|].
    unfold byte_or_zero at 1. rewrite Hx. simpl.
    destruct (Hh _ _ Hx) as [Hc|Hb]; replace (off + (i - off)) with i in * by lia; [done|].
    unfold byte_or_zero. by rewrite Hb.
Qed.

Lemma agree_outside_torn b0 b b1 m op :
  agree_outside m b0 b → harmless b0 m op → torn b op b1 → agree_outside m b0 b1.
Proof.
  intros Ha Hh Ht. destruct Ht as [op|op|off src b' Hs Hlen Hmix].
  - done.
  - destruct op as [off src|]; [|done]. by apply agree_outside_write.
  - pose proof (agree_outside_write _ _ _ _ _ Ha Hh) as [Hl Hz]. destruct Ha as [Hl0 Hz0].
    split; [lia|]. intros i Hi. unfold byte_or_zero at 1.
    destruct (b' !! i) as [x|] eqn:Ex; simpl.
    + destruct (Hmix i x Ex) as [E|[E|[Hge ->]]].
      * rewrite <- Hz0 by done. unfold byte_or_zero. by rewrite E.
      * rewrite <- Hz by done. unfold byte_or_zero. by rewrite E.
      * rewrite <- Hz0 by done. unfold byte_or_zero. by rewrite lookup_ge_None_2.
    + rewrite <- Hz0 by done. apply lookup_ge_None in Ex.
      unfold byte_or_zero. by rewrite lookup_ge_None_2 by lia.
Qed.

Lemma data_safe_crash f m b : data_safe f m → crash_content f b → agree_outside m (f_synced f) b.
Proof.
  intros [_ Hh]. unfold crash_content.
  assert (∀ b1, agree_outside m (f_synced f) b1 → torn_list b1 (f_pending f) b →
    agree_outside m (f_synced f) b) as Hgen; [|intros; by eapply Hgen; [apply agree_outside_refl|]].
  induction Hh as [|op ops Hop _ IH]; intros b1 Ha Ht; inversion Ht; subst; [done|].
  eapply IH; [|done]. by eapply agree_outside_torn.
Qed.

Lemma data_safe_cur f m : data_safe f m → agree_outside m (f_synced f) (f_cur f).
Proof. intros Hd. apply (data_safe_crash f); [done|]. apply crash_content_cur, Hd. Qed.

Lemma data_safe_apply f m op :
  data_safe f m → harmless (f_synced f) m op → data_safe (file_apply op f) m.
Proof.
  intros [Hwf Hh] Hop. split; [by apply file_apply_wf|]. simpl. apply Forall_app. auto.
Qed.

Lemma data_safe_sync f m : data_safe (file_sync f) m.
Proof. by split. Qed.

(** Writing inside a page that has an image is harmless. *)
Lemma harmless_page b0 m id p src :
  (id, p) ∈ m → length src ≤ PAGE_SIZE → harmless b0 m (WriteAt (page_start id) src).
Proof.
  intros Hin Hl j x Hj. left. exists id, p. split; [done|].
  apply lookup_lt_Some in Hj. unfold in_page. lia.
Qed.

End Harmless.

#[export] Hint Resolve data_safe_sync agree_outside_refl : oxen.

Section Replay.
Context `{Cpu}.
Implicit Types m : list (PageId * Page).
Implicit Types w : World.

(** Images whose file offset is the exact product. *)
Definition images_addressable m : Prop := ∀ id p, (id, p) ∈ m → page_addressable id.

Lemma wp_write_images file m f (Q : Result unit → World → Prop) (C : World → Prop) w :
  images_wf m → images_addressable m → w_files w !! file = Some f → data_safe f m →
  (∀ f' w', files_to (<[file := f']> (w_files w)) w w' → data_safe f' m →
     f_synced f' = f_synced f → f_entry_synced f' = f_entry_synced f →
     (f_cur f' = images_bytes m (f_cur f) → Q (Ok tt) w') ∧
     (¬ io_ok w → C w' ∧ ∀ code, Q (Err (Io (Os code))) w')) →
  wp (write_images file m) Q C w.
Proof.
  intros Hwf Haddr Hf Hsafe Hpost. unfold write_images.
  eapply (wp_for_each _ (λ xs w', ∃ f', files_to (<[file := f']> (w_files w)) w w' ∧
    data_safe f' m ∧ f_synced f' = f_synced f ∧ f_entry_synced f' = f_entry_synced f ∧
    images_bytes xs (f_cur f') = images_bytes m (f_cur f) ∧ ∀ x, x ∈ xs → x ∈ m)).
  - exists f. rewrite insert_id by done. split; [apply files_to_refl|]. done.
  - intros [id p] xs w' (f' & [Ew Iw] & Hs & Hsy & He & Hbytes & Hsub). simpl.
    assert ((id, p) ∈ m) as Hin by (apply Hsub; constructor).
    destruct (Hwf _ _ Hin) as [Hid Hp]. pose proof (Haddr _ _ Hin) as Ha.
    assert (∀ n, data_safe (file_apply (WriteAt (page_start id) (take n (data p))) f') m) as Hs'.
    { intros n. apply data_safe_apply; [done|]. eapply harmless_page; [done|].
      rewrite length_take, Hp. lia. }
    eapply wp_write_all_at; [by rewrite Ew, lookup_insert_eq| |];
      rewrite file_offset_nat by done; rewrite Ew; setoid_rewrite insert_insert_eq;
      unfold as_bytes; fold (page_start id).
    + intros w1 [E1 I1]. eexists. split; [split; [exact E1|auto]|].
      split; [rewrite <- (firstn_all (data p)); apply Hs'|].
      split; [done|]. split; [done|]. rewrite <- Hbytes. split; [done|].
      intros x Hx. apply Hsub. by constructor.
    + intros Hio n w1 _ [E1 I1].
      eapply Hpost; [split; [exact E1|auto]|apply Hs'|done..|tauto].
  - intros w' (f' & Hw & Hs & Hsy & He & Hbytes & _). by eapply Hpost.
Qed.

(** *** The whole replay *)

Implicit Types rs : list WalRecord.

(** The images [collect_latest] ends up with. *)
Fixpoint latest_list (C : gset TxnId) rs m : list (PageId * Page) :=
  match rs with
  | [] => m
  | PageImage txn id p :: rs =>
      latest_list C rs (if decide (txn ∈ C) then bt_insert id p m else m)
  | Commit _ :: rs => latest_list C rs m
  end.

Definition latest_map rs : list (PageId * Page) := latest_list (commits rs) rs [].

Lemma collect_latest_valid C records m :
  valid_images C (record <$> records) →
  collect_latest C records m = Ok (latest_list C (record <$> records) m).
Proof.
  revert m. induction records as [|d records IH]; intros m Hv; csimpl in *; [done|].
  assert (valid_images C (record <$> records)) as Hv'
    by (intros txn id p Hin; apply (Hv txn id p); by constructor).
  destruct (record d) as [txn id p|txn] eqn:Ed; [|by apply IH].
  case_decide as Hc; [|by apply IH].
  assert (validate_image id p (seq d) = Ok tt) as ->
    by (apply validate_image_ok, (Hv txn); [constructor|done]).
  by apply IH.
Qed.

Lemma latest_list_get C rs m id :
  bt_get id (latest_list C rs m) =
  match latest_in C rs id with Some p => Some p | None => bt_get id m end.
Proof.
  revert m. induction rs as [|[txn id' p|txn] rs IH]; intros m; simpl; [done| |].
  - rewrite IH. destruct (latest_in C rs id); [done|]. case_decide as Hc.
    + rewrite bt_get_insert. destruct (Z.eqb_spec id id') as [->|].
      * by rewrite decide_True.
      * rewrite decide_False; [done|]. naive_solver.
    + rewrite decide_False; [done|]. naive_solver.
  - rewrite IH. by destruct (latest_in C rs id).
Qed.

Lemma latest_list_sorted C rs m : bt_sorted m → bt_sorted (latest_list C rs m).
Proof.
  revert m. induction rs as [|[txn id p|txn] rs IH]; intros m Hm; simpl; [done| |by apply IH].
  apply IH. case_decide; auto with oxen.
Qed.

Lemma latest_map_get rs id : bt_get id (latest_map rs) = latest_image rs id.
Proof.
  unfold latest_map, latest_image. rewrite latest_list_get. by destruct (latest_in _ rs id).
Qed.

Lemma latest_map_sorted rs : bt_sorted (latest_map rs).
Proof. apply latest_list_sorted. constructor. Qed.

Lemma latest_map_elem rs id p : (id, p) ∈ latest_map rs ↔ latest_image rs id = Some p.
Proof.
  rewrite <- latest_map_get. split; [apply bt_elem_get, latest_map_sorted|apply bt_get_elem].
Qed.

Lemma latest_map_wf rs : Forall record_wf rs → images_wf (latest_map rs).
Proof.
  intros Hrs id p (txn & _ & Hin)%latest_map_elem%latest_in_elem.
  rewrite Forall_forall in Hrs. destruct (Hrs _ Hin) as (_ & Hid & Hp).
  split; [|done]. unfold u64_range in Hid. lia.
Qed.

(** A log recovery replays: every committed image is a valid page at an
    exact file offset. *)
Record replayable rs : Prop := {
  replay_wf : Forall record_wf rs;
  replay_valid : valid_images (commits rs) rs;
  replay_addressable : images_addressable (latest_map rs);
}.

Lemma wp_replay p records f w :
  let rs := record <$> records in
  replayable rs → w_files w !! p = Some f → data_safe f (latest_map rs) →
  wp (replay p records)
    (λ r w', ∃ f', files_to (<[p := f']> (w_files w)) w w' ∧
       f_entry_synced f' = f_entry_synced f ∧
       match r with
       | Ok stats => f_cur f' = images_bytes (latest_map rs) (f_cur f) ∧
                     (file_clean f' ∨ latest_map rs = [] ∧ f' = f)
       | Err _ => ¬ io_ok w ∧ data_safe f' (latest_map rs) ∧ f_synced f' = f_synced f
       end)
    (λ w', ¬ io_ok w ∧ ∃ f', files_to (<[p := f']> (w_files w)) w w' ∧
       f_entry_synced f' = f_entry_synced f ∧ data_safe f' (latest_map rs) ∧
       f_synced f' = f_synced f) w.
Proof.
  intros rs [Hwf Hv Ha] Hf Hsafe.
  unfold replay. wp_step. wp_step.
  rewrite committed_set_commits, collect_latest_valid by done. fold rs (latest_map rs).
  destruct (decide (latest_map rs = [])) as [E|E].
  { rewrite bool_decide_eq_true_2 by done. simpl negb. cbv iota. wp_step. wp_step. wp_step.
    exists f.
    rewrite insert_id by done. split; [apply files_to_refl|]. split; [done|]. rewrite E. by auto. }
  rewrite bool_decide_eq_false_2 by done. simpl negb. cbv iota. wp_step. wp_step.
  apply wp_open_file; rewrite ?Hf.
  2:{ intros Hio w' Hw'. rewrite <- (insert_id _ _ _ Hf) in Hw'.
      split; [split; [done|]; by exists f|intros code; by exists f]. }
  intros w1 [E1 I1]. wp_step.
  eapply wp_write_images; [by apply latest_map_wf|done|by rewrite E1|done|].
  rewrite E1. intros f2 w2 [E2 I2] Hs2 Hsy2 He2. split.
  2:{ intros Hio. split; [split; [tauto|]|intros code]; exists f2; 
      (split; [split; [exact E2|auto]|]); by split_and!; auto. }
  intros Hcur. eapply wp_sync_all; [by rewrite E2, lookup_insert_eq| |]; rewrite E2.
  2:{ intros Hio w' [E' I']. split; [split; [tauto|]|intros code]; exists f2;
      (split; [split; [exact E'|auto]|]); split_and!; auto; tauto. }
  intros w3 [E3 I3]. wp_step. rewrite insert_insert_eq in E3. eexists.
  split; [split; [exact E3|auto]|]. split; [done|]. split; [done|]. by left.
Qed.

(** On a file with nothing to sync, as after a reboot. *)
Lemma wp_replay_clean p records f w :
  let rs := record <$> records in
  replayable rs → w_files w !! p = Some f → file_clean f →
  wp (replay p records)
    (λ r w', ∃ f', files_to (<[p := f']> (w_files w)) w w' ∧
       f_entry_synced f' = f_entry_synced f ∧
       match r with
       | Ok stats => file_clean f' ∧ f_cur f' = images_bytes (latest_map rs) (f_cur f)
       | Err _ => ¬ io_ok w ∧ data_safe f' (latest_map rs) ∧ f_synced f' = f_cur f
       end)
    (λ w', ¬ io_ok w ∧ ∃ f', files_to (<[p := f']> (w_files w)) w w' ∧
       f_entry_synced f' = f_entry_synced f ∧ data_safe f' (latest_map rs) ∧
       f_synced f' = f_cur f) w.
Proof.
  intros rs Hr Hf Hclean. eapply wp_mono; [apply wp_replay; [done..|]| |].
  - split; [auto with oxen|]. by rewrite (proj2 Hclean).
  - intros [stats|e] w' (f' & ? & ? & Hr'); exists f'; (split; [done|]); (split; [done|]).
    + by destruct Hr' as [? [?|[_ ->]]].
    + by rewrite <- (proj1 Hclean).
  - intros w' (? & f' & Hr'). split; [done|]. exists f'. by rewrite <- (proj1 Hclean).
Qed.

End Replay.

(** ** Pages after replay *)

Section Pages.
Implicit Types m : list (PageId * Page).
Implicit Types b : bytes.

Lemma page_of_is b id p :
  has_page b id → page_wf p →
  (∀ i, in_page id i → byte_or_zero b i = byte_or_zero (data p) (i - page_start id)) →
  page_of b id = p.
Proof.
  intros Hb Hp Hz. pose proof (page_of_wf b id Hb) as Hw. destruct p as [d].
  unfold page_wf, page_of in *. simpl in *. f_equal.
  apply bytes_eq; [congruence|]. intros i. destruct (decide (i < PAGE_SIZE)) as [Hi|Hi].
  2:{ by rewrite !byte_or_zero_ge by lia. }
  specialize (Hz (page_start id + i)). simpl in Hz. unfold in_page in Hz.
  replace (page_start id + i - page_start id) with i in Hz by lia. rewrite <- Hz by lia.
  unfold byte_or_zero. rewrite lookup_slice by lia. done.
Qed.

Lemma page_of_agree b b' id :
  has_page b id → has_page b' id →
  (∀ i, in_page id i → byte_or_zero b i = byte_or_zero b' i) → page_of b id = page_of b' id.
Proof.
  intros Hb Hb' Hz. apply page_of_is; [done|by apply page_of_wf|].
  intros i Hi. rewrite Hz by done. unfold byte_or_zero. simpl. unfold in_page in Hi.
  rewrite lookup_slice by lia. unfold page_start in *. do 2 f_equal. lia.
Qed.

Lemma page_of_images_some m b id p :
  images_wf m → bt_sorted m → bt_get id m = Some p →
  has_page (images_bytes m b) id ∧ page_of (images_bytes m b) id = p.
Proof.
  intros Hm Hs Hin%bt_get_elem. destruct (Hm _ _ Hin) as [Hid Hp].
  assert (has_page (images_bytes m b) id) as Hb.
  { unfold has_page. rewrite length_images_bytes by done.
    apply images_end_elem in Hin. unfold page_start in Hin. lia. }
  split; [done|]. apply page_of_is; [done..|]. intros i Hi. by apply images_bytes_page.
Qed.

Lemma page_of_images_none m b id :
  images_wf m → bt_sorted m → (0 ≤ id)%Z → bt_get id m = None → has_page b id →
  has_page (images_bytes m b) id ∧ page_of (images_bytes m b) id = page_of b id.
Proof.
  intros Hm Hs Hid Hn Hb.
  assert (has_page (images_bytes m b) id) as Hb'.
  { unfold has_page in *. rewrite length_images_bytes by done. lia. }
  split; [done|]. apply page_of_agree; [done..|]. intros i Hi. apply images_bytes_other; [done|].
  intros (id' & p' & Hin & Hi'). destruct (Hm _ _ Hin) as [Hid' _].
  assert (id = id') as <- by by eapply in_page_inj.
  apply bt_elem_get in Hin; [congruence|done].
Qed.

Lemma images_bytes_idem m b :
  images_wf m → bt_sorted m → images_bytes m (images_bytes m b) = images_bytes m b.
Proof.
  intros Hm Hs. apply images_bytes_agree; [done..|]. split.
  - rewrite length_images_bytes by done. lia.
  - intros i Hi. by apply images_bytes_other.
Qed.

End Pages.

(** ** Properties *)

Section Properties.
Context `{Cpu}.
Implicit Types w : World.

Lemma replay_run p records f w :
  replayable (record <$> records) → w_files w !! p = Some f → file_clean f → io_ok w →
  ∃ stats w' f', replay p records w = (Done (Ok stats), w') ∧ io_ok w' ∧
    w_files w' = <[p := f']> (w_files w) ∧ file_clean f' ∧
    f_entry_synced f' = f_entry_synced f ∧
    f_cur f' = images_bytes (latest_map (record <$> records)) (f_cur f).
Proof.
  intros Hr Hf Hc Hio. pose proof (wp_replay_clean p records f w Hr Hf Hc) as Hw. unfold wp in Hw.
  destruct (replay p records w) as [[[stats|e]| |] w'].
  - destruct Hw as (f' & [Ew Iw] & He & Hcl & Hcur). exists stats, w', f'. by split_and!; auto.
  - by destruct Hw as (f' & _ & _ & [] & _).
  - done.
  - by destruct Hw as [[] _].
Qed.

(** C25. Replay restores exactly the committed state: it always succeeds on a
    log of valid images, and afterwards every page with an image of a
    committed transaction holds the last such image, every other page is as it
    was, and the result is durable. *)
Theorem replay_restores_committed (p : path) (records : list DecodedRecord) (f : file) w :
  let rs := record <$> records in
  replayable rs → w_files w !! p = Some f → file_clean f → io_ok w →
  ∃ stats w' f', replay p records w = (Done (Ok stats), w') ∧
    w_files w' = <[p := f']> (w_files w) ∧ (∀ b, crash_content f' b → b = f_cur f') ∧
    ∀ id, (0 ≤ id)%Z →
      match latest_image rs id with
      | Some img => has_page (f_cur f') id ∧ page_of (f_cur f') id = img
      | None => has_page (f_cur f) id →
                has_page (f_cur f') id ∧ page_of (f_cur f') id = page_of (f_cur f) id
      end.
Proof.
  intros rs Hr Hf Hc Hio.
  destruct (replay_run p records f w Hr Hf Hc Hio) as (stats & w' & f' & E & _ & Ew & Hc' & _ & Hcur).
  exists stats, w', f'. split; [done|]. split; [done|]. split; [by intros; eapply file_clean_crash|].
  intros id Hid. rewrite Hcur. fold rs.
  pose proof (latest_map_wf rs (replay_wf _ Hr)) as Hwf. pose proof (latest_map_sorted rs) as Hs.
  rewrite <- latest_map_get. destruct (bt_get id (latest_map rs)) as [img|] eqn:Eg.
  - by apply page_of_images_some.
  - intros. by apply page_of_images_none.
Qed.

(** C26. Replay can be interrupted and repeated: however a replay ends (an
    I/O error or a crash at any point, with any of its page writes lost or
    torn), replaying the same log over what the crash left, if no system call
    fails then, produces the very same file, byte for byte, as one undisturbed
    replay. *)
Theorem replay_restartable (p : path) (records : list DecodedRecord) (f : file) w w1 w2
    (r : exec (Result RecoveryStats)) :
  let rs := record <$> records in
  replayable rs → w_files w !! p = Some f → file_clean f → f_entry_synced f = true →
  replay p records w = (r, w1) → reboot w1 w2 → io_ok w2 →
  r ≠ Panicked ∧
  ∃ stats w3 f3, replay p records w2 = (Done (Ok stats), w3) ∧
    w_files w3 !! p = Some f3 ∧ file_clean f3 ∧
    f_cur f3 = images_bytes (latest_map rs) (f_cur f).
Proof.
  intros rs Hr Hf Hc He E Hre Hio. pose proof (wp_replay_clean p records f w Hr Hf Hc) as Hw.
  unfold wp in Hw. rewrite E in Hw. fold rs in Hw.
  pose proof (latest_map_wf rs (replay_wf _ Hr)) as Hwf. pose proof (latest_map_sorted rs) as Hs.
  assert (r ≠ Panicked ∧ ∃ f1, w_files w1 !! p = Some f1 ∧ f_entry_synced f1 = true ∧
    ∀ b, crash_content f1 b → images_bytes (latest_map rs) b = images_bytes (latest_map rs) (f_cur f))
    as [Hnp (f1 & Hf1 & He1 & Hb1)].
  { assert (∀ f1, files_to (<[p := f1]> (w_files w)) w w1 → f_entry_synced f1 = f_entry_synced f →
      data_safe f1 (latest_map rs) → f_synced f1 = f_cur f → ∃ f1, w_files w1 !! p = Some f1 ∧
      f_entry_synced f1 = true ∧ ∀ b, crash_content f1 b →
      images_bytes (latest_map rs) b = images_bytes (latest_map rs) (f_cur f)) as Hpart.
    { intros f1 [Ew _] He1 Hs1 Hsy1. exists f1. split; [by rewrite Ew, lookup_insert_eq|].
      split; [congruence|]. intros b Hb. rewrite <- Hsy1. apply images_bytes_agree; [done..|].
      by apply data_safe_crash. }
    destruct r as [[stats|e]| |]; [..|done|].
    - split; [done|]. destruct Hw as (f1 & [Ew _] & He1 & Hcl & Hcur). exists f1.
      split; [by rewrite Ew, lookup_insert_eq|]. split; [congruence|].
      intros b Hb%file_clean_crash; [|done]. rewrite Hb, Hcur. by apply images_bytes_idem.
    - split; [done|]. destruct Hw as (f1 & Ew & He1 & _ & ? & ?). by eapply Hpart.
    - split; [done|]. destruct Hw as (_ & f1 & Ew & He1 & ? & ?). by eapply Hpart. }
  split; [done|]. specialize (Hre p). rewrite Hf1 in Hre.
  destruct (w_files w2 !! p) as [f2|] eqn:Hf2; [|congruence]. destruct Hre as (b & Hb & ->).
  destruct (replay_run p records _ w2 Hr Hf2 (file_at_rest_clean b) Hio)
    as (stats & w3 & f3 & E3 & _ & Ew3 & Hc3 & _ & Hcur3).
  exists stats, w3, f3. split; [done|]. split; [by rewrite Ew3, lookup_insert_eq|].
  split; [done|]. rewrite Hcur3. by apply Hb1.
Qed.

(** A bad image never reaches the data file: if any committed
    transaction logged a page that does not verify (or a header that does not
    decode), replay reports corruption before it opens or writes anything. *)
Theorem replay_refuses_invalid (p : path) (records : list DecodedRecord) w :
  let rs := record <$> records in
  ¬ valid_images (commits rs) rs →
  ∃ e, replay p records w = (Done (Err e), w) ∧ is_corruption e = true.
Proof.
  intros rs Hbad. unfold replay. rewrite committed_set_commits. fold rs.
  destruct (collect_latest (commits rs) records []) as [latest|e] eqn:E.
  - apply collect_latest_ok in E as (_ & Hv & _); [done|constructor].
  - exists e. split; [|by eapply collect_latest_err]. by apply bind_ok_Err.
Qed.

(** The statistics are exact and never underflow: the committed and the
    incomplete transactions are disjoint and make up all transactions of the
    log, and the restored pages are the distinct pages with a committed
    image. *)
Theorem replay_stats_exact (p : path) (records : list DecodedRecord) (stats : RecoveryStats)
    w w' :
  let rs := record <$> records in
  (Z.of_nat (length records) < 2 ^ 64)%Z → replay p records w = (Done (Ok stats), w') →
  committed_txns stats = size (commits rs) ∧
  incomplete_txns stats = Z.of_nat (size (all_txns_set records ∖ commits rs)) ∧
  (Z.of_nat (committed_txns stats) + incomplete_txns stats =
   Z.of_nat (size (all_txns_set records)))%Z ∧
  ∃ ids, NoDup ids ∧ length ids = pages_restored stats ∧
         ∀ id, id ∈ ids ↔ is_Some (latest_image rs id).
Proof.
  intros rs Hlen E. unfold replay in E.
  apply bind_ok_inv in E as (latest & w1 & [= El <-] & E).
  apply bind_ok_inv in E as ([] & w2 & _ & [= <- _]). simpl.
  rewrite committed_set_commits. rewrite committed_set_commits in El. fold rs. fold rs in El.
  assert (commits rs ⊆ all_txns_set records) as Hsub.
  { intros txn (d & Ed & Hin)%elem_of_commits%list_elem_of_fmap.
    apply elem_of_list_to_set, list_elem_of_fmap. exists d. by rewrite <- Ed. }
  assert (size (all_txns_set records) ≤ length records) as Hle.
  { unfold all_txns_set. etrans; [apply size_list_to_set_le|]. by rewrite length_fmap. }
  pose proof (subseteq_size _ _ Hsub) as Hsz. pose proof (size_difference _ _ Hsub) as Hdiff.
  assert (wrap_u64 (Z.of_nat (size (all_txns_set records)) - Z.of_nat (size (commits rs))) =
    Z.of_nat (size (all_txns_set records ∖ commits rs))) as ->.
  { rewrite wrap_u64_id by (unfold u64_range; lia). lia. }
  split; [done|]. split; [done|]. split; [lia|].
  apply collect_latest_ok in El as (Hs & _ & Hget); [|constructor].
  exists latest.*1. split; [by apply bt_sorted_NoDup|]. split; [apply length_fmap|].
  intros id. fold rs in Hget. unfold latest_image. simpl in Hget. split.
  - intros ([id' img] & -> & Hin)%list_elem_of_fmap. apply bt_elem_get in Hin; [|done].
    rewrite Hget in Hin. simpl. destruct (latest_in _ rs id'); [by eexists|done].
  - intros [img Himg]. specialize (Hget id). rewrite Himg in Hget.
    apply bt_get_elem in Hget. apply list_elem_of_fmap. by exists (id, img).
Qed.

End Properties.

(** ** Witnesses *)

Module RecoveryWitness.
Import PageWitness DiskWitness.

Definition decoded (sq : Z) (r : WalRecord) : DecodedRecord :=
  {| seq := sq; record := r; rec_len := 0 |}.

(** One committed transaction, and one without a commit record whose image
    would not even verify. *)
Definition records : list DecodedRecord :=
  [decoded 0 (PageImage 1 1 (sealed_page 1)); decoded 1 (Commit 1); decoded 2 (PageImage 2 1 zeroed)].

(** The invalid image, committed. *)
Definition bad_records : list DecodedRecord :=
  [decoded 0 (PageImage 2 1 zeroed); decoded 1 (Commit 2)].

Lemma sealed_page_1_verifies : is_ok (@verify cpu 1 (sealed_page 1)) = true.
Proof. vm_compute. reflexivity. Qed.

Lemma zeroed_invalid : is_ok (@verify cpu 1 zeroed) = false.
Proof. vm_compute. reflexivity. Qed.

Lemma records_images txn id p :
  PageImage txn id p ∈ record <$> records → txn = 1%Z ∧ id = 1%Z ∧ p = sealed_page 1 ∨ txn = 2%Z ∧ id = 1%Z.
Proof.
  intros [E|[E|[E|E%not_elem_of_nil]%elem_of_cons]%elem_of_cons]%elem_of_cons;
    [|discriminate E| |done]; injection E as -> -> ->; auto.
Qed.

Lemma records_commits : commits (record <$> records) = {[ 1%Z ]}.
Proof. reflexivity. Qed.

Lemma records_replayable : @replayable cpu (record <$> records).
Proof.
  split.
  - repeat constructor; unfold u64_range; try lia; apply sealed_page_wf || apply zeroed_wf.
  - rewrite records_commits. intros txn id p Hin ->%elem_of_singleton.
    apply records_images in Hin as [(_ & -> & ->)|[E _]]; [apply sealed_page_1_verifies|].
    discriminate E.
  - intros id p (txn & _ & Hin)%latest_map_elem%latest_in_elem.
    apply records_images in Hin as [(_ & -> & _)|[_ ->]]; unfold page_addressable; lia.
Qed.

Lemma bad_records_invalid :
  ¬ @valid_images cpu (commits (record <$> bad_records)) (record <$> bad_records).
Proof.
  intros Hv. specialize (Hv 2%Z 1%Z zeroed).
  assert (is_ok (@verify cpu 1 zeroed) = true) as E.
  { apply Hv; [constructor|]. apply elem_of_commits. constructor. constructor. }
  rewrite zeroed_invalid in E. done.
Qed.

(** The same database on a machine that crashes at the first call. *)
Definition doomed : World := {| w_files := w_files world; w_plan := [IoCrash 0] |}.

Lemma replay_crashes : @replay cpu db records doomed = (Crashed, world).
Proof. vm_compute. reflexivity. Qed.

Lemma world_reboots : reboot world (settle world).
Proof.
  apply reboot_settle. unfold world. cbv beta iota delta [w_files].
  rewrite map_Forall_singleton. unfold file_wf. reflexivity.
Qed.
End RecoveryWitness.

Lemma replay_restores_committed_witness :
  ∃ stats w', @replay PageWitness.cpu DiskWitness.db RecoveryWitness.records DiskWitness.world =
              (Done (Ok stats), w').
Proof.
  destruct (@replay_restores_committed PageWitness.cpu DiskWitness.db RecoveryWitness.records
    (file_at_rest DiskWitness.contents) DiskWitness.world RecoveryWitness.records_replayable
    DiskWitness.world_file (file_at_rest_clean _) DiskWitness.world_ok) as (stats & w' & f' & E & _).
  eauto.
Defined.

Lemma replay_restartable_witness :
  ∃ w2 stats w3, @replay PageWitness.cpu DiskWitness.db RecoveryWitness.records w2 =
                 (Done (Ok stats), w3).
Proof.
  destruct (@replay_restartable PageWitness.cpu DiskWitness.db RecoveryWitness.records
    (file_at_rest DiskWitness.contents) RecoveryWitness.doomed DiskWitness.world
    (settle DiskWitness.world) Crashed
    RecoveryWitness.records_replayable DiskWitness.world_file (file_at_rest_clean _) eq_refl
    RecoveryWitness.replay_crashes RecoveryWitness.world_reboots ltac:(constructor))
    as (_ & stats & w3 & f3 & E3 & _).
  eauto.
Defined.

Lemma replay_refuses_invalid_witness :
  ∃ e, @replay PageWitness.cpu DiskWitness.db RecoveryWitness.bad_records DiskWitness.world =
       (Done (Err e), DiskWitness.world) ∧ is_corruption e = true.
Proof.
  exact (@replay_refuses_invalid PageWitness.cpu DiskWitness.db RecoveryWitness.bad_records
    DiskWitness.world RecoveryWitness.bad_records_invalid).
Defined.

Lemma replay_stats_exact_witness :
  ∃ stats w', @replay PageWitness.cpu DiskWitness.db RecoveryWitness.records DiskWitness.world =
              (Done (Ok stats), w') ∧ committed_txns stats = size (commits (record <$> RecoveryWitness.records)).
Proof.
  destruct (@replay_run PageWitness.cpu DiskWitness.db RecoveryWitness.records
    (file_at_rest DiskWitness.contents) DiskWitness.world RecoveryWitness.records_replayable
    DiskWitness.world_file (file_at_rest_clean _) DiskWitness.world_ok)
    as (stats & w' & f' & E & _).
  exists stats, w'. split; [exact E|].
  refine (proj1 (@replay_stats_exact PageWitness.cpu _ _ stats _ _ _ E)). simpl. lia.
Defined.
