(* ===== verification/BufferPool.v ===== *)
(** * The buffer pool (src/crates/oxendb/src/storage/buffer_pool.rs)

    A page cache in front of the disk manager: shards of frames with a page
    table, pin counts and CLOCK replacement.  An operation runs under the
    shard's state lock, so it is one step here; pins taken by one operation
    and released by a later one are kept in the pin counts. *)

From S2P Require Import Prelude Errors Checksum Page FileHeader FileSys Disk.

Abbreviation FrameId := nat.

(** [impl Hasher for PageIdHasher]. *)
Definition HASH_MULTIPLIER : Z := 0x9E3779B97F4A7C15.

Definition hasher_write_u64 (value : Z) : Z := u64_mul value HASH_MULTIPLIER.

Definition u64_rotate_left (x : Z) (n : Z) : Z :=
  Z.lor (wrap_u64 (Z.shiftl x n)) (Z.shiftr x (64 - n)).

Definition hasher_write (st : Z) (bs : bytes) : Z :=
  foldl (λ st b, u64_mul (Z.lxor (u64_rotate_left st 5) (byte.unsigned b)) HASH_MULTIPLIER) st bs.

Definition hasher_finish (st : Z) : Z := st.

(** What the page table hashes a page id to. *)
Definition hash_one (id : PageId) : Z := hasher_finish (hasher_write_u64 id).

(** [struct Frame]. *)
Record Frame : Type := {
  frame_page : Page;
  frame_dirty : bool;
}.

(** [struct PoolState]; a [Vec] grows and shrinks at the end of the list. *)
Record PoolState : Type := {
  page_table : gmap PageId FrameId;
  frame_pages : list (option PageId);
  pin_counts : list Z;
  ref_bits : list bool;
  clock_hand : FrameId;
  free_frames : list FrameId;
}.

(** [struct Shard]; the disk manager is shared by all and passed along. *)
Record Shard : Type := {
  shard_frames : list Frame;
  shard_state : PoolState;
}.

(** [struct BufferPool]. *)
Record BufferPool : Type := { shards : list Shard }.

(** [struct PageHandle]. *)
Record PageHandle : Type := {
  handle_frame : FrameId;
  handle_page : PageId;
}.

(** The order in which a [HashMap] yields its keys is unspecified. *)
Class HashOrder := {
  hash_keys : gmap PageId FrameId → list PageId;
  hash_keys_perm m : hash_keys m ≡ₚ (map_to_list m).*1;
}.

(** [v[i]] and [v[i] = f(v[i])], which panic out of bounds. *)
Definition index {S A} (field : S → list A) (i : nat) : M S A := λ s,
  match field s !! i with
  | Some x => (Done x, s)
  | None => (Panicked, s)
  end.

Definition update {S A} (field : S → list A) (set : list A → S → S) (i : nat) (f : A → A) :
    M S unit := λ s,
  match field s !! i with
  | Some x => (Done tt, set (<[i := f x]> (field s)) s)
  | None => (Panicked, s)
  end.

Definition set_page_table v (s : PoolState) : PoolState :=
  {| page_table := v; frame_pages := frame_pages s; pin_counts := pin_counts s;
     ref_bits := ref_bits s; clock_hand := clock_hand s; free_frames := free_frames s |}.
Definition set_frame_pages v (s : PoolState) : PoolState :=
  {| page_table := page_table s; frame_pages := v; pin_counts := pin_counts s;
     ref_bits := ref_bits s; clock_hand := clock_hand s; free_frames := free_frames s |}.
Definition set_pin_counts v (s : PoolState) : PoolState :=
  {| page_table := page_table s; frame_pages := frame_pages s; pin_counts := v;
     ref_bits := ref_bits s; clock_hand := clock_hand s; free_frames := free_frames s |}.
Definition set_ref_bits v (s : PoolState) : PoolState :=
  {| page_table := page_table s; frame_pages := frame_pages s; pin_counts := pin_counts s;
     ref_bits := v; clock_hand := clock_hand s; free_frames := free_frames s |}.
Definition set_clock_hand v (s : PoolState) : PoolState :=
  {| page_table := page_table s; frame_pages := frame_pages s; pin_counts := pin_counts s;
     ref_bits := ref_bits s; clock_hand := v; free_frames := free_frames s |}.
Definition set_free_frames v (s : PoolState) : PoolState :=
  {| page_table := page_table s; frame_pages := frame_pages s; pin_counts := pin_counts s;
     ref_bits := ref_bits s; clock_hand := clock_hand s; free_frames := v |}.

(** [pin_counts[i] += 1], [pin_counts[i] -= 1] on [u32] with the debug
    assertion in front of it, and the others. *)
Definition pin (i : FrameId) : M PoolState unit :=
  update pin_counts set_pin_counts i (λ n, wrap_u32 (n + 1)).
Definition release_pin (i : FrameId) : M PoolState unit :=
  let! n := index pin_counts i in
  if (0 <? n)%Z then update pin_counts set_pin_counts i (λ n, wrap_u32 (n - 1)) else panic.
Definition set_pin_count (i : FrameId) (n : Z) : M PoolState unit :=
  update pin_counts set_pin_counts i (λ _, n).
Definition set_ref_bit (i : FrameId) (b : bool) : M PoolState unit :=
  update ref_bits set_ref_bits i (λ _, b).
Definition set_frame_page (i : FrameId) (id : option PageId) : M PoolState unit :=
  update frame_pages set_frame_pages i (λ _, id).
Definition table_insert (id : PageId) (i : FrameId) : M PoolState unit :=
  modify (λ s, set_page_table (<[id := i]> (page_table s)) s).
Definition table_remove (id : PageId) : M PoolState unit :=
  modify (λ s, set_page_table (delete id (page_table s)) s).

(** [free_frames.pop()] and [free_frames.push(i)]. *)
Definition pop_free : M PoolState (option FrameId) := λ s,
  match last (free_frames s) with
  | Some i => (Done (Some i), set_free_frames (take (length (free_frames s) - 1) (free_frames s)) s)
  | None => (Done None, s)
  end.
Definition push_free (i : FrameId) : M PoolState unit :=
  modify (λ s, set_free_frames (free_frames s ++ [i]) s).

(** [Shard::find_victim]. *)
Fixpoint find_victim_loop (n : nat) : M PoolState (option FrameId) :=
  match n with
  | 0 => ret None
  | S n =>
      let! frame_id := gets clock_hand in
      let! _ := modify (λ s, set_clock_hand ((clock_hand s + 1) mod length (frame_pages s)) s) in
      let! pins := index pin_counts frame_id in
      if (0 <? pins)%Z then find_victim_loop n
      else
        let! referenced := index ref_bits frame_id in
        if (referenced : bool) then
          let! _ := set_ref_bit frame_id false in
          find_victim_loop n
        else ret (Some frame_id)
  end.

Definition find_victim : M PoolState (option FrameId) :=
  let! capacity := gets (λ s, length (frame_pages s)) in
  find_victim_loop (2 * capacity).

(** ** A shard *)

Section ShardOperations.
Local Open Scope string_scope.
Context `{Cpu} `{HashOrder}.

(** A shard and the world it does I/O in. *)
Abbreviation SW := (Shard * World)%type.

Definition with_state {A} (m : M PoolState A) : M SW A :=
  zoom (λ s, shard_state s.1)
       (λ t s, ({| shard_frames := shard_frames s.1; shard_state := t |}, s.2)) m.

Definition with_disk {A} (m : M World A) : M SW A := zoom snd (λ w s, (s.1, w)) m.

(** [*self.write_frame(i) = frame] and [self.frames[i]]. *)
Definition read_frame (i : FrameId) : M SW Frame := index (λ s, shard_frames s.1) i.
Definition write_frame (i : FrameId) (f : Frame) : M SW unit :=
  update (λ s, shard_frames s.1)
    (λ v s, ({| shard_frames := v; shard_state := shard_state s.1 |}, s.2)) i (λ _, f).

(** [Shard::new]. *)
Definition shard_new (capacity : nat) : Shard :=
  {| shard_frames := replicate capacity {| frame_page := zeroed; frame_dirty := false |};
     shard_state :=
       {| page_table := ∅; frame_pages := replicate capacity None;
          pin_counts := replicate capacity 0%Z; ref_bits := replicate capacity false;
          clock_hand := 0; free_frames := reverse (seq 0 capacity) |} |}.

(** [Shard::write_back]. *)
Definition write_back (frame_id : FrameId) (id : PageId) (d : DiskManager) : M SW (Result unit) :=
  let! frame := read_frame frame_id in
  if frame_dirty frame then
    let! '(r, page) := with_disk (write_page id (frame_page frame) d) in
    match r with
    | Err e =>
        let! _ := write_frame frame_id {| frame_page := page; frame_dirty := true |} in
        ret (Err e)
    | Ok _ =>
        let! _ := write_frame frame_id {| frame_page := page; frame_dirty := false |} in
        ret (Ok tt)
    end
  else ret (Ok tt).

(** [Shard::acquire_frame]. *)
Definition acquire_frame (d : DiskManager) : M SW (Result FrameId) :=
  let! popped := with_state pop_free in
  match popped with
  | Some frame_id => ret (Ok frame_id)
  | None =>
      let! found := with_state find_victim in
      match found with
      | None =>
          let! n := gets (λ s, length (shard_frames s.1)) in
          ret (Err (ResourceExhausted ("all " +:+ pretty n +:+
                 " frames in a buffer pool shard are pinned")))
      | Some victim =>
          let! old := with_state (index frame_pages victim) in
          match old with
          | None => panic
          | Some old_id =>
              let? _ := write_back victim old_id d in
              let! _ := with_state (table_remove old_id) in
              let! _ := with_state (set_frame_page victim None) in
              ret (Ok victim)
          end
      end
  end.

(** [Shard::fetch_page]. *)
Definition shard_fetch_page (id : PageId) (d : DiskManager) : M SW (Result PageHandle) :=
  let! cached := with_state (gets (λ s, page_table s !! id)) in
  match cached with
  | Some frame_id =>
      let! _ := with_state (pin frame_id) in
      let! _ := with_state (set_ref_bit frame_id true) in
      ret (Ok {| handle_frame := frame_id; handle_page := id |})
  | None =>
      let? frame_id := acquire_frame d in
      let! r := with_disk (read_page id d) in
      match r with
      | Err err =>
          let! _ := with_state (push_free frame_id) in
          ret (Err err)
      | Ok page =>
          let! _ := write_frame frame_id {| frame_page := page; frame_dirty := false |} in
          let! _ := with_state (table_insert id frame_id) in
          let! _ := with_state (set_frame_page frame_id (Some id)) in
          let! _ := with_state (set_pin_count frame_id 1) in
          let! _ := with_state (set_ref_bit frame_id true) in
          ret (Ok {| handle_frame := frame_id; handle_page := id |})
      end
  end.

(** [Shard::unpin], run when a handle is dropped. *)
Definition unpin (frame_id : FrameId) : M SW unit := with_state (release_pin frame_id).

(** [Shard::install_page]. *)
Definition shard_install_page (id : PageId) (page : Page) (d : DiskManager) : M SW (Result unit) :=
  let! cached := with_state (gets (λ s, page_table s !! id)) in
  match cached with
  | Some frame_id =>
      let! _ := with_state (pin frame_id) in
      let! _ := with_state (set_ref_bit frame_id true) in
      let! _ := write_frame frame_id {| frame_page := page; frame_dirty := true |} in
      let! _ := unpin frame_id in
      ret (Ok tt)
  | None =>
      let? frame_id := acquire_frame d in
      let! _ := write_frame frame_id {| frame_page := page; frame_dirty := true |} in
      let! _ := with_state (table_insert id frame_id) in
      let! _ := with_state (set_frame_page frame_id (Some id)) in
      let! _ := with_state (set_ref_bit frame_id true) in
      ret (Ok tt)
  end.

(** [Shard::flush_page]: the handle is dropped on the way out, also on
    failure. *)
Definition shard_flush_page (id : PageId) (d : DiskManager) : M SW (Result unit) :=
  let! cached := with_state (gets (λ s, page_table s !! id)) in
  match cached with
  | None => ret (Ok tt)
  | Some frame_id =>
      let! _ := with_state (pin frame_id) in
      let! r := write_back frame_id id d in
      let! _ := unpin frame_id in
      ret r
  end.

(** [Shard::flush_cached]. *)
Definition flush_cached (d : DiskManager) : M SW (Result unit) :=
  let! cached := with_state (gets (λ s, hash_keys (page_table s))) in
  for_each (λ id, shard_flush_page id d) cached.

(** [PageHandle::read] and [PageHandle::write]. *)
Definition handle_read (h : PageHandle) : M SW Page :=
  let! frame := read_frame (handle_frame h) in
  ret (frame_page frame).

Definition handle_write (h : PageHandle) (f : Page → Page) : M SW unit :=
  let! frame := read_frame (handle_frame h) in
  write_frame (handle_frame h) {| frame_page := f (frame_page frame); frame_dirty := true |}.

(** [impl Drop for PageHandle]. *)
Definition handle_drop (h : PageHandle) : M SW unit := unpin (handle_frame h).

End ShardOperations.

(** ** The pool *)

Definition TARGET_SHARD_FRAMES : nat := 64.
Definition MAX_SHARDS : nat := 64.

(** [shard_count_for]: [1 << clamp(capacity / 64, 1, 64).ilog2()]. *)
Definition shard_count_for (capacity : nat) : nat :=
  let wanted := Nat.min (Nat.max (capacity / TARGET_SHARD_FRAMES) 1) MAX_SHARDS in
  2 ^ Nat.log2 wanted.

Section PoolOperations.
Local Open Scope string_scope.
Context `{Cpu} `{HashOrder}.

Abbreviation PW := (BufferPool * World)%type.

(** [BufferPool::new]. *)
Definition pool_new (capacity : nat) : Result BufferPool :=
  if decide (capacity = 0) then
    Err (InvalidArgument "buffer pool capacity must be at least 1")
  else
    let shard_count := shard_count_for capacity in
    Ok {| shards :=
            (λ i, shard_new (capacity / shard_count +
                             (if decide (i < capacity mod shard_count) then 1 else 0)))
              <$> seq 0 shard_count |}.

(** [BufferPool::capacity]. *)
Definition pool_capacity (p : BufferPool) : nat :=
  sum_list ((λ sh, length (shard_frames sh)) <$> shards p).

(** The shard index of [BufferPool::shard_for]. *)
Definition shard_index (count : nat) (id : PageId) : nat :=
  let hash := Z.shiftr (u64_mul id HASH_MULTIPLIER) 32 in
  Z.to_nat (Z.land hash (Z.of_nat count - 1)).

(** Runs an operation on shard [i], which panics if there is none. *)
Definition on_shard {A} (i : nat) (m : M (Shard * World) A) : M PW A := λ s,
  match shards s.1 !! i with
  | None => (Panicked, s)
  | Some sh =>
      let '(r, (sh', w')) := m (sh, s.2) in
      (r, ({| shards := <[i := sh']> (shards s.1) |}, w'))
  end.

Definition shard_for {A} (id : PageId) (m : M (Shard * World) A) : M PW A := λ s,
  on_shard (shard_index (length (shards s.1)) id) m s.

(** [BufferPool::fetch_page], [install_page] and [flush_page]. *)
Definition pool_fetch_page (id : PageId) (d : DiskManager) : M PW (Result PageHandle) :=
  shard_for id (shard_fetch_page id d).

Definition pool_install_page (id : PageId) (page : Page) (d : DiskManager) : M PW (Result unit) :=
  if negb (page_id page =? id)%Z then
    ret (Err (InvalidArgument ("cannot install " +:+ page_id_to_string (page_id page) +:+
           " as " +:+ page_id_to_string id)))
  else shard_for id (shard_install_page id page d).

Definition pool_flush_page (id : PageId) (d : DiskManager) : M PW (Result unit) :=
  shard_for id (shard_flush_page id d).

(** [BufferPool::flush_all]. *)
Definition flush_all (d : DiskManager) : M PW (Result unit) :=
  let! n := gets (λ s, length (shards s.1)) in
  let? _ := for_each (λ i, on_shard i (flush_cached d)) (seq 0 n) in
  if decide (n = 0) then ret (Ok tt)
  else zoom snd (λ w s, (s.1, w)) (disk_sync d).

(** A fetch, a look at the page and the drop of the handle, as the callers
    of the pool combine them. *)
Definition pool_read (id : PageId) (d : DiskManager) : M PW (Result Page) :=
  let? h := pool_fetch_page id d in
  let! page := shard_for id (handle_read h) in
  let! _ := shard_for id (handle_drop h) in
  ret (Ok page).

End PoolOperations.

#[global] Arguments shard_index : simpl never.
#[global] Arguments shard_count_for : simpl never.

(** ** CLOCK replacement *)

Section Clock.
Implicit Types s : PoolState.

(** The vectors have one entry per frame and the hand points at one. *)
Record clock_wf (cap : nat) s : Prop := {
  clock_pages : length (frame_pages s) = cap;
  clock_pins : length (pin_counts s) = cap;
  clock_refs : length (ref_bits s) = cap;
  clock_hand_lt : clock_hand s < cap;
}.

(** A sweep moves the hand and clears reference bits; nothing else. *)
Record swept s s' : Prop := {
  swept_table : page_table s' = page_table s;
  swept_pages : frame_pages s' = frame_pages s;
  swept_pins : pin_counts s' = pin_counts s;
  swept_free : free_frames s' = free_frames s;
  swept_refs : ∀ i, ref_bits s !! i = Some false → ref_bits s' !! i = Some false;
}.

Lemma swept_refl s : swept s s.
Proof. by split. Qed.

Lemma swept_trans s1 s2 s3 : swept s1 s2 → swept s2 s3 → swept s1 s3.
Proof. intros [] []. split; try congruence. auto. Qed.

Definition unpinned s (v : FrameId) : Prop := pin_counts s !! v = Some 0%Z.

(** Steps until the hand reaches [v]. *)
Definition distance (cap h v : nat) : nat := if decide (h ≤ v) then v - h else v + cap - h.

Lemma distance_next cap h v :
  h < cap → v < cap → v ≠ h → distance cap ((h + 1) mod cap) v = distance cap h v - 1 ∧
  0 < distance cap h v.
Proof.
  intros. unfold distance. destruct (decide (h + 1 = cap)) as [E|E].
  - rewrite E, Nat.Div0.mod_same. repeat case_decide; lia.
  - rewrite Nat.mod_small by lia. repeat case_decide; lia.
Qed.

Lemma distance_self_next cap h : h < cap → distance cap ((h + 1) mod cap) h = cap - 1.
Proof.
  intros. unfold distance. destruct (decide (h + 1 = cap)) as [E|E].
  - rewrite E, Nat.Div0.mod_same. repeat case_decide; lia.
  - rewrite Nat.mod_small by lia. repeat case_decide; lia.
Qed.

(** One turn of the loop. *)
Definition advance s : PoolState :=
  set_clock_hand ((clock_hand s + 1) mod length (frame_pages s)) s.

Definition clear_ref (i : FrameId) s : PoolState := set_ref_bits (<[i := false]> (ref_bits s)) s.

Lemma find_victim_step n s cap :
  clock_wf cap s → ∃ pins (r : bool),
    pin_counts s !! clock_hand s = Some pins ∧ ref_bits s !! clock_hand s = Some r ∧
    find_victim_loop (S n) s =
      (if (0 <? pins)%Z then find_victim_loop n (advance s)
       else if r then find_victim_loop n (clear_ref (clock_hand s) (advance s))
       else (Done (Some (clock_hand s)), advance s)).
Proof.
  intros [Hp1 Hp2 Hp3 Hh].
  destruct (lookup_lt_is_Some_2 (pin_counts s) (clock_hand s)) as [pins Ep]; [lia|].
  destruct (lookup_lt_is_Some_2 (ref_bits s) (clock_hand s)) as [r Er]; [lia|].
  exists pins, r. split; [done|]. split; [done|]. simpl.
  unfold bind at 1. unfold gets. unfold bind at 1. unfold modify. fold (advance s).
  unfold bind at 1. unfold index at 1. change (pin_counts (advance s)) with (pin_counts s).
  rewrite Ep. destruct (0 <? pins)%Z; [done|].
  unfold bind at 1. unfold index at 1. change (ref_bits (advance s)) with (ref_bits s). rewrite Er.
  destruct r; [|done]. unfold bind, set_ref_bit, update.
  change (ref_bits (advance s)) with (ref_bits s). by rewrite Er.
Qed.

Lemma advance_wf cap s : clock_wf cap s → clock_wf cap (advance s).
Proof.
  intros [Hp1 Hp2 Hp3 Hh]. split; try done. simpl. rewrite Hp1. apply Nat.mod_upper_bound. lia.
Qed.

Lemma clear_ref_wf cap i s : clock_wf cap s → clock_wf cap (clear_ref i s).
Proof. intros [Hp1 Hp2 Hp3 Hh]. split; try done. simpl. by rewrite length_insert. Qed.

Lemma advance_swept s : swept s (advance s).
Proof. by split. Qed.

Lemma clear_ref_swept i s : swept s (clear_ref i s).
Proof.
  split; try done. intros j Hj. simpl. destruct (decide (i = j)) as [<-|].
  - apply list_lookup_insert_eq. by eapply lookup_lt_Some.
  - by rewrite list_lookup_insert_ne.
Qed.

(** What the loop returns, and that it does not panic. *)
Lemma find_victim_loop_spec n s cap :
  clock_wf cap s →
  ∃ r s', find_victim_loop n s = (Done r, s') ∧ clock_wf cap s' ∧ swept s s' ∧
          ∀ v, r = Some v → v < cap ∧ ¬ (∃ k, pin_counts s !! v = Some k ∧ (0 < k)%Z).
Proof.
  revert s. induction n as [|n IH]; intros s Hs.
  { exists None, s. repeat split; try done; apply Hs. }
  destruct (find_victim_step n s cap Hs) as (pins & r & Ep & Er & ->).
  destruct (Z.ltb_spec 0 pins) as [Hpin|Hpin]; [|destruct r].
  - destruct (IH (advance s) (advance_wf _ _ Hs)) as (r' & s' & E & Hs' & Hsw & Hv).
    exists r', s'. split; [done|]. split; [done|]. split; [|done].
    by eapply swept_trans; [apply advance_swept|].
  - destruct (IH (clear_ref (clock_hand s) (advance s))) as (r' & s' & E & Hs' & Hsw & Hv).
    { by apply clear_ref_wf, advance_wf. }
    exists r', s'. split; [done|]. split; [done|]. split; [|done].
    eapply swept_trans; [|exact Hsw]. eapply swept_trans; [apply advance_swept|apply clear_ref_swept].
  - eexists _, _. split; [done|]. split; [by apply advance_wf|]. split; [apply advance_swept|].
    intros v [= <-]. split; [apply Hs|]. intros (k & Ek & Hk). rewrite Ep in Ek. simplify_eq. lia.
Qed.

(** A frame whose bit is clear is found once the hand reaches it. *)
Lemma find_victim_first_sweep n s cap v :
  clock_wf cap s → v < cap → unpinned s v → ref_bits s !! v = Some false →
  distance cap (clock_hand s) v < n → (find_victim_loop n s).1 ≠ Done None.
Proof.
  revert s. induction n as [|n IH]; intros s Hs Hv Hu Hr Hd; [lia|].
  destruct (find_victim_step n s cap Hs) as (pins & r & Ep & Er & ->).
  destruct (decide (v = clock_hand s)) as [->|Hne].
  { unfold unpinned in Hu. simplify_eq. done. }
  destruct (distance_next cap (clock_hand s) v (clock_hand_lt _ _ Hs) Hv Hne) as [Hd' Hpos].
  assert (distance cap (clock_hand (advance s)) v < n) as Hdn.
  { simpl. rewrite (clock_pages _ _ Hs). lia. }
  destruct (0 <? pins)%Z; [|destruct r; [|done]].
  - apply IH; try done. by apply advance_wf.
  - apply IH; try done; [by apply clear_ref_wf, advance_wf|]. simpl.
    by rewrite list_lookup_insert_ne.
Qed.

(** Any unpinned frame is found within two sweeps. *)
Lemma find_victim_two_sweeps n s cap v :
  clock_wf cap s → v < cap → unpinned s v →
  distance cap (clock_hand s) v + cap < n → (find_victim_loop n s).1 ≠ Done None.
Proof.
  revert s. induction n as [|n IH]; intros s Hs Hv Hu Hd; [lia|].
  destruct (ref_bits s !! v) as [[]|] eqn:Ev.
  3:{ apply lookup_ge_None in Ev. rewrite (clock_refs _ _ Hs) in Ev. lia. }
  2:{ eapply find_victim_first_sweep; [done..|lia]. }
  destruct (find_victim_step n s cap Hs) as (pins & r & Ep & Er & ->).
  destruct (decide (v = clock_hand s)) as [->|Hne].
  - unfold unpinned in Hu. simplify_eq. simpl.
    apply (find_victim_first_sweep n _ cap (clock_hand s)); try done.
    + by apply clear_ref_wf, advance_wf.
    + simpl. apply list_lookup_insert_eq. by eapply lookup_lt_Some.
    + simpl. rewrite (clock_pages _ _ Hs), distance_self_next by done. lia.
  - destruct (distance_next cap (clock_hand s) v (clock_hand_lt _ _ Hs) Hv Hne) as [Hd' Hpos].
    assert (distance cap (clock_hand (advance s)) v + cap < n) as Hdn.
    { simpl. rewrite (clock_pages _ _ Hs). lia. }
    destruct (0 <? pins)%Z; [|destruct r; [|done]]; apply IH; try done;
      [by apply advance_wf|by apply clear_ref_wf, advance_wf].
Qed.

Lemma distance_lt cap h v : h < cap → v < cap → distance cap h v < cap.
Proof. intros. unfold distance. case_decide; lia. Qed.

(** [find_victim] fails exactly when every frame is pinned. *)
Lemma find_victim_spec s cap :
  clock_wf cap s → Forall (λ n, (0 ≤ n)%Z) (pin_counts s) →
  ∃ r s', find_victim s = (Done r, s') ∧ clock_wf cap s' ∧ swept s s' ∧
    match r with
    | Some v => v < cap ∧ unpinned s v
    | None => ∀ v, v < cap → ¬ unpinned s v
    end.
Proof.
  intros Hs Hpos.
  destruct (find_victim_loop_spec (2 * cap) s cap Hs) as (r & s' & E & Hs' & Hsw & Hv).
  exists r, s'. unfold find_victim, bind, gets. rewrite (clock_pages _ _ Hs).
  split; [done|]. split; [done|]. split; [done|]. destruct r as [v|].
  - destruct (Hv v eq_refl) as [Hlt Hn]. split; [done|]. unfold unpinned.
    destruct (lookup_lt_is_Some_2 (pin_counts s) v) as [k Ek];
      [by rewrite (clock_pins _ _ Hs)|].
    rewrite Forall_forall in Hpos. specialize (Hpos k (list_elem_of_lookup_2 _ _ _ Ek)).
    rewrite Ek. f_equal. destruct (decide (0 < k)%Z); [|lia]. destruct Hn. eauto.
  - intros v Hlt Hu. apply (find_victim_two_sweeps (2 * cap) s cap v Hs Hlt Hu); [|by rewrite E].
    pose proof (distance_lt cap (clock_hand s) v (clock_hand_lt _ _ Hs) Hlt). lia.
Qed.

End Clock.

(** ** Properties *)

(** C30. Two sweeps of the clock suffice: the search for a victim always
    terminates without panicking, changes nothing but the hand and reference
    bits, returns only unpinned frames, and fails only when every frame is
    pinned. *)
Theorem clock_finds_unpinned (cap : nat) (s : PoolState) :
  clock_wf cap s → Forall (λ n, (0 ≤ n)%Z) (pin_counts s) →
  ∃ r s', find_victim s = (Done r, s') ∧ clock_wf cap s' ∧
    page_table s' = page_table s ∧ frame_pages s' = frame_pages s ∧
    pin_counts s' = pin_counts s ∧ free_frames s' = free_frames s ∧
    match r with
    | Some v => v < cap ∧ unpinned s v
    | None => ∀ v, v < cap → ¬ unpinned s v
    end.
Proof.
  intros Hs Hpos. destruct (find_victim_spec s cap Hs Hpos) as (r & s' & E & Hc & Hsw & Hr).
  exists r, s'. destruct Hsw. by split_and!.
Qed.

(** ** The hasher *)

(** The multiplier has an inverse, modulo any power of two. *)
Definition HASH_INVERSE : Z := 17428512612931826493.

Lemma hash_low_bits (k : Z) (id : PageId) :
  (0 ≤ k ≤ 64)%Z → (hash_one id mod 2 ^ k = id * HASH_MULTIPLIER mod 2 ^ k)%Z.
Proof.
  intros Hk. unfold hash_one, hasher_finish, hasher_write_u64, u64_mul, wrap_u64.
  replace (2 ^ 64)%Z with (2 ^ k * 2 ^ (64 - k))%Z by (rewrite <- Z.pow_add_r by lia; f_equal; lia).
  rewrite Z.rem_mul_r by lia. rewrite (Z.mul_comm (2 ^ k)), Z.mod_add by lia. apply Z.mod_mod. lia.
Qed.

Lemma hash_invert (k : Z) (id : PageId) :
  (0 ≤ k ≤ 64)%Z → (id mod 2 ^ k = (hash_one id mod 2 ^ k) * HASH_INVERSE mod 2 ^ k)%Z.
Proof.
  intros Hk. rewrite hash_low_bits by done. rewrite Z.mul_mod_idemp_l by lia.
  assert (∃ c, HASH_MULTIPLIER * HASH_INVERSE = 1 + c * 2 ^ k)%Z as [c Ec].
  { exists ((HASH_MULTIPLIER * HASH_INVERSE - 1) / 2 ^ 64 * 2 ^ (64 - k))%Z.
    rewrite <- Z.mul_assoc, <- Z.pow_add_r by lia. replace (64 - k + k)%Z with 64%Z by lia. reflexivity. }
  rewrite <- Z.mul_assoc, Ec, Z.mul_add_distr_l, Z.mul_1_r, Z.mul_assoc, Z.mod_add by lia. done.
Qed.

(** The hash of the page table keeps page ids apart: in a table of [2 ^ k]
    buckets two ids fall into the same bucket only if they agree in their low
    [k] bits, so ids that follow each other never collide before all buckets
    are used. *)
Theorem page_id_hasher_spreads (k : Z) (a b : PageId) :
  (0 ≤ k ≤ 64)%Z →
  Z.land (hash_one a) (Z.ones k) = Z.land (hash_one b) (Z.ones k) ↔ (a mod 2 ^ k = b mod 2 ^ k)%Z.
Proof.
  intros Hk. rewrite !Z.land_ones by lia. split; intros E.
  - by rewrite (hash_invert k a), (hash_invert k b), E.
  - rewrite !hash_low_bits by done. rewrite <- Z.mul_mod_idemp_l, E, Z.mul_mod_idemp_l by lia. done.
Qed.

Module ClockWitness.
(** Three occupied frames, all referenced, the first one pinned. *)
Definition state : PoolState :=
  {| page_table := {[ 1%Z := 0; 2%Z := 1; 3%Z := 2 ]};
     frame_pages := [Some 1%Z; Some 2%Z; Some 3%Z]; pin_counts := [1%Z; 0%Z; 0%Z];
     ref_bits := [true; true; true]; clock_hand := 0; free_frames := [] |}.
End ClockWitness.

Lemma clock_finds_unpinned_witness :
  ∃ r s', find_victim ClockWitness.state = (Done r, s') ∧
          page_table s' = page_table ClockWitness.state.
Proof.
  destruct (clock_finds_unpinned 3 ClockWitness.state) as (r & s' & E & _ & Et & _).
  - split; simpl; lia.
  - repeat constructor; lia.
  - eauto.
Defined.

Lemma page_id_hasher_spreads_witness :
  Z.land (hash_one 5) (Z.ones 12) ≠ Z.land (hash_one 4095) (Z.ones 12).
Proof. intros E. apply (page_id_hasher_spreads 12 5 4095 ltac:(lia)) in E. discriminate E. Defined.
