(* ===== verification/PoolCache.v ===== *)
(** * Coherence of the buffer pool

    The cache never changes what a page contains: an abstract map [L] from
    page ids to pages is represented by the frames together with the data
    file, and every operation of the pool refines an operation on [L].  A page
    is sealed at the latest when it is written; the file has sealed pages.
    Writes to the file touch only pages of a set [D], the ids whose cached
    copies may be dirty. *)

From S2P Require Import Prelude Errors Checksum Page FileHeader FileSys Disk BufferPool.

(** ** Reasoning rules *)

Lemma wp_index {S A} (field : S → list A) i x (Q : A → S → Prop) C s :
  field s !! i = Some x → Q x s → wp (index field i) Q C s.
Proof. intros E HQ. unfold wp, index. by rewrite E. Qed.

Lemma wp_update {S A} (field : S → list A) set i f x (Q : unit → S → Prop) C s :
  field s !! i = Some x → Q tt (set (<[i := f x]> (field s)) s) → wp (update field set i f) Q C s.
Proof. intros E HQ. unfold wp, update. by rewrite E. Qed.

(** [pool_step] is [wp_step] with the shard's accessors unfolded. *)
Ltac pool_step :=
  lazymatch goal with
  | |- wp (with_state _) _ _ _ => apply wp_zoom
  | |- wp (with_disk _) _ _ _ => apply wp_zoom
  | |- wp (table_insert _ _) _ _ _ => apply wp_modify
  | |- wp (table_remove _) _ _ _ => apply wp_modify
  | |- wp (push_free _) _ _ _ => apply wp_modify
  | |- wp (unpin _) _ _ _ => apply wp_zoom
  | |- wp (handle_drop _) _ _ _ => apply wp_zoom
  | |- _ => wp_step
  end.

(** ** Pages on disk *)

Section OnDisk.
Context `{Cpu}.
Implicit Types D : PageId → Prop.

Definition disk_has (f : file) (id : PageId) (p : Page) : Prop :=
  has_page (f_cur f) id ∧ page_of (f_cur f) id = p.

(** The change of a page, or of a prefix of it. *)
Definition page_write D (op : file_op) : Prop :=
  ∃ id src, op = WriteAt (Z.to_nat id * PAGE_SIZE) src ∧ D id ∧ length src ≤ PAGE_SIZE.

(** [f'] is [f] after writes to pages of [D]. *)
Definition pages_written D (f f' : file) : Prop :=
  ∃ ops, Forall (page_write D) ops ∧ f' = foldl (λ f op, file_apply op f) f ops.

Lemma pages_written_refl D f : pages_written D f f.
Proof. by exists []. Qed.

Lemma pages_written_trans D f1 f2 f3 :
  pages_written D f1 f2 → pages_written D f2 f3 → pages_written D f1 f3.
Proof.
  intros (ops1 & H1 & ->) (ops2 & H2 & ->). exists (ops1 ++ ops2).
  rewrite foldl_app. split; [by apply Forall_app|done].
Qed.

Lemma pages_written_one D f id src :
  D id → length src ≤ PAGE_SIZE →
  pages_written D f (file_apply (WriteAt (Z.to_nat id * PAGE_SIZE) src) f).
Proof. intros. exists [WriteAt (Z.to_nat id * PAGE_SIZE) src]. split; [|done]. repeat constructor. by exists id, src. Qed.

Lemma pages_written_entry D f f' : pages_written D f f' → f_entry_synced f' = f_entry_synced f.
Proof. intros (ops & _ & ->). revert f. induction ops as [|op ops IH]; intros f; [done|]. simpl. by rewrite IH. Qed.

Lemma pages_written_synced D f f' : pages_written D f f' → f_synced f' = f_synced f.
Proof. intros (ops & _ & ->). revert f. induction ops as [|op ops IH]; intros f; [done|]. simpl. by rewrite IH. Qed.

Lemma disk_has_write_same f id p :
  page_wf p → disk_has (file_apply (WriteAt (Z.to_nat id * PAGE_SIZE) (data p)) f) id p.
Proof. intros. split; [by apply has_page_write_same|by apply page_of_write_same]. Qed.

Lemma disk_has_write_ne f id id' p src :
  (0 ≤ id)%Z → (0 ≤ id')%Z → id ≠ id' → length src ≤ PAGE_SIZE → disk_has f id p →
  disk_has (file_apply (WriteAt (Z.to_nat id' * PAGE_SIZE) src) f) id p.
Proof.
  intros H1 H2 Hne Hl [Hb <-]. split; [by apply has_page_write|].
  unfold page_of. f_equal. apply slice_write_bytes_ne; [unfold has_page in Hb; lia|].
  assert (Z.to_nat id < Z.to_nat id' ∨ Z.to_nat id' < Z.to_nat id) as [|] by lia; nia.
Qed.

(** The checksum of a page is brought up to date when the page is written:
    the file has the sealed page. *)
Definition stored (f : file) (id : PageId) (p : Page) : Prop := disk_has f id (seal p).

(** [q] is the page [p], sealed or as its client left it. *)
Definition same_page (p q : Page) : Prop := q = p ∨ q = seal p.

Lemma same_page_refl p : same_page p p.
Proof. by left. Qed.

Lemma seal_seal p : page_wf p → seal (seal p) = seal p.
Proof. intros Hp. apply seal_id; [by apply seal_wf|by apply seal_checksum_ok]. Qed.

Lemma same_page_wf p q : page_wf p → same_page p q → page_wf q.
Proof. intros Hp [->| ->]; [done|by apply seal_wf]. Qed.

Lemma same_page_seal p q : page_wf p → same_page p q → seal q = seal p.
Proof. intros Hp [->| ->]; [done|by apply seal_seal]. Qed.

Lemma same_page_id p q : page_wf p → same_page p q → page_id q = page_id p.
Proof. intros Hp [->| ->]; [done|by apply seal_page_id]. Qed.

(** Pages that can be written: each belongs to the database, and verifies once
    it is sealed. *)
Definition page_fits (d : DiskManager) (id : PageId) (p : Page) : Prop :=
  data_page d id ∧ page_wf p ∧ ∃ h, verify id (seal p) = Ok h.

Definition pages_fit (d : DiskManager) (L : gmap PageId Page) : Prop := map_Forall (page_fits d) L.

Lemma page_fits_id d id p : page_fits d id p → page_id p = id.
Proof.
  intros (_ & Hw & h & Hv). rewrite <- seal_page_id by done. by eapply verify_ok_id; [apply seal_wf|].
Qed.

(** Valid contents: every page belongs to the database and verifies. *)
Definition pages_wf (d : DiskManager) (L : gmap PageId Page) : Prop :=
  map_Forall (λ id p, data_page d id ∧ page_wf p ∧ ∃ h, verify id p = Ok h) L.

Lemma pages_wf_sealed d L id p : pages_wf d L → L !! id = Some p → seal p = p ∧ page_id p = id.
Proof.
  intros HL Hp. destruct (HL _ _ Hp) as (_ & Hw & h & Hv).
  split; [by eapply seal_id, verify_ok_checksum|by eapply verify_ok_id].
Qed.

Lemma pages_wf_fit d L : pages_wf d L → pages_fit d L.
Proof.
  intros HL id p Hp. destruct (pages_wf_sealed _ _ _ _ HL Hp) as [E _]. destruct (HL _ _ Hp) as (? & ? & ?).
  split; [done|]. split; [done|]. by rewrite E.
Qed.

(** Pages that verify are stored and held as they are. *)
Lemma pages_wf_stored d L f id p : pages_wf d L → L !! id = Some p → stored f id p ↔ disk_has f id p.
Proof. intros HL Hp. unfold stored. by destruct (pages_wf_sealed _ _ _ _ HL Hp) as [-> _]. Qed.

Lemma pages_wf_same d L id p q : pages_wf d L → L !! id = Some p → same_page p q → q = p.
Proof. intros HL Hp [->| ->]; [done|]. by destruct (pages_wf_sealed _ _ _ _ HL Hp). Qed.

End OnDisk.

(** ** The shard invariant *)

Section ShardInvariant.
Context `{Cpu}.
Implicit Types (L : gmap PageId Page) (owned D : PageId → Prop) (hs : list PageHandle).
Implicit Types (f : file) (sh : Shard).

(** The frame [fr] holds page [id] of contents [p]; if it is clean, so does
    the file. *)
Definition frame_ok D f (id : PageId) (p : Page) (fr : Frame) : Prop :=
  same_page p (frame_page fr) ∧ if frame_dirty fr then D id else stored f id p.

Lemma frame_ok_dirty D f id p q :
  D id → same_page p q → frame_ok D f id p {| frame_page := q; frame_dirty := true |}.
Proof. by split. Qed.

(** How often a frame is pinned by the handles [hs]. *)
Definition pins_of (i : FrameId) hs : nat := length (filter (λ h, handle_frame h = i) hs).

(** [shard_inv L owned D hs held f sh]: the shard [sh] in front of the file
    [f] represents the pages of [L] it owns.  [hs] are the handles in use,
    whose pages stay where they are; [held] is a frame taken by [acquire_frame] and not yet
    filled. *)
Record shard_inv L owned D hs (held : option FrameId) f sh : Prop := {
  si_clock : clock_wf (length (shard_frames sh)) (shard_state sh);
  si_table id i : page_table (shard_state sh) !! id = Some i ↔
                  frame_pages (shard_state sh) !! i = Some (Some id);
  si_nodup : NoDup (free_frames (shard_state sh));
  si_free i : i ∈ free_frames (shard_state sh) ↔
              frame_pages (shard_state sh) !! i = Some None ∧ held ≠ Some i;
  si_held i : held = Some i → frame_pages (shard_state sh) !! i = Some None;
  si_pins i n : pin_counts (shard_state sh) !! i = Some n → n = Z.of_nat (pins_of i hs);
  si_hs h : h ∈ hs → page_table (shard_state sh) !! handle_page h = Some (handle_frame h);
  si_cached id i : page_table (shard_state sh) !! id = Some i → owned id ∧
                   ∃ fr p, shard_frames sh !! i = Some fr ∧ L !! id = Some p ∧ frame_ok D f id p fr;
  si_disk id p : L !! id = Some p → owned id → page_table (shard_state sh) !! id = None →
                 stored f id p;
}.

Definition with_frame (i : FrameId) (fr : Frame) sh : Shard :=
  {| shard_frames := <[i := fr]> (shard_frames sh); shard_state := shard_state sh |}.

Definition with_st (st : PoolState) sh : Shard :=
  {| shard_frames := shard_frames sh; shard_state := st |}.

(** A frame of the table exists. *)
Lemma shard_inv_frame L owned D hs held f sh id i :
  shard_inv L owned D hs held f sh → page_table (shard_state sh) !! id = Some i →
  i < length (shard_frames sh).
Proof. intros Hi E. destruct (si_cached _ _ _ _ _ _ _ Hi _ _ E) as (_ & fr & p & Hf & _). by eapply lookup_lt_Some. Qed.

Lemma shard_inv_vectors L owned D hs held f sh i :
  shard_inv L owned D hs held f sh → i < length (shard_frames sh) →
  (∃ o, frame_pages (shard_state sh) !! i = Some o) ∧
  pin_counts (shard_state sh) !! i = Some (Z.of_nat (pins_of i hs)) ∧
  (∃ r, ref_bits (shard_state sh) !! i = Some r) ∧
  ∃ fr, shard_frames sh !! i = Some fr.
Proof.
  intros Hi Hlt. pose proof (si_clock _ _ _ _ _ _ _ Hi) as [H1 H2 H3 _].
  destruct (lookup_lt_is_Some_2 (frame_pages (shard_state sh)) i) as [o Eo]; [lia|].
  destruct (lookup_lt_is_Some_2 (pin_counts (shard_state sh)) i) as [n En]; [lia|].
  destruct (lookup_lt_is_Some_2 (ref_bits (shard_state sh)) i) as [r Er]; [lia|].
  destruct (lookup_lt_is_Some_2 (shard_frames sh) i) as [fr Ef]; [lia|].
  split; [eauto|]. split; [|eauto]. rewrite En. f_equal. by eapply si_pins.
Qed.

(** The invariant only looks at its own pages, and at the file through
    [stored]. *)
Lemma shard_inv_same L L' owned D hs held f f' sh :
  (∀ id, owned id → L' !! id = L !! id) →
  (∀ id p, owned id → L !! id = Some p → stored f id p → stored f' id p) →
  shard_inv L owned D hs held f sh → shard_inv L' owned D hs held f' sh.
Proof.
  intros HL Hd [H1 H2 H3 H4 H5 H6 H7 H8 H9]. split; try done.
  - intros id i Hid. destruct (H8 id i Hid) as (Ho & fr & p & Hf & Hp & Epage & Hdirty).
    split; [done|]. exists fr, p. rewrite HL by done. split; [done|]. split; [done|]. split; [done|].
    destruct (frame_dirty fr); auto.
  - intros id p Hp Ho Hn. rewrite HL in Hp by done. eauto.
Qed.

Lemma shard_inv_disk L owned D hs held f f' sh :
  (∀ id p, owned id → L !! id = Some p → stored f id p → stored f' id p) →
  shard_inv L owned D hs held f sh → shard_inv L owned D hs held f' sh.
Proof. intros Hd. by apply shard_inv_same. Qed.

(** The order of the handles is irrelevant. *)
Lemma shard_inv_handles L owned D hs hs' held f sh :
  hs ≡ₚ hs' → shard_inv L owned D hs held f sh → shard_inv L owned D hs' held f sh.
Proof.
  intros Hp [H1 H2 H3 H4 H5 H6 H7 H8 H9]. split; try done.
  - intros j m Hj. rewrite (H6 _ _ Hj). unfold pins_of. by rewrite Hp.
  - intros h. rewrite <- Hp. apply H7.
Qed.

(** Replacing the frame of a cached page. *)
Lemma shard_inv_set_frame L L' owned D hs held f f' sh id i fr p :
  shard_inv L owned D hs held f sh → page_table (shard_state sh) !! id = Some i →
  frame_ok D f' id p fr → L' = <[id := p]> L →
  (∀ id' p', id' ≠ id → owned id' → L !! id' = Some p' → stored f id' p' → stored f' id' p') →
  shard_inv L' owned D hs held f' (with_frame i fr sh).
Proof.
  intros Hi Hid Hfr -> Hd. pose proof (shard_inv_frame _ _ _ _ _ _ _ _ _ Hi Hid) as Hlt.
  destruct Hi as [H1 H2 H3 H4 H5 H6 H7 H8 H9]. split; try done.
  - simpl. by rewrite length_insert.
  - intros id' i' Hid'. simpl in Hid'. destruct (H8 id' i' Hid') as (Ho & fr' & p' & Hf & HL & Hok).
    split; [done|]. simpl. destruct (decide (id' = id)) as [->|Hne].
    + assert (i' = i) as -> by congruence. exists fr, p.
      rewrite list_lookup_insert_eq, lookup_insert_eq by done. done.
    + assert (i' ≠ i) as Hni.
      { intros ->. apply H2 in Hid, Hid'. congruence. }
      exists fr', p'. rewrite list_lookup_insert_ne, lookup_insert_ne by done.
      split; [done|]. split; [done|]. destruct Hok as [Hp Hdirty]. split; [done|].
      destruct (frame_dirty fr'); [done|]. by apply Hd.
  - intros id' p' HL' Ho Hn. simpl in Hn. assert (id' ≠ id) as Hne by congruence.
    rewrite lookup_insert_ne in HL' by done. eauto.
Qed.

Lemma pins_of_cons_eq h hs : pins_of (handle_frame h) (h :: hs) = S (pins_of (handle_frame h) hs).
Proof. unfold pins_of. by rewrite filter_cons_True. Qed.

Lemma pins_of_cons_ne i h hs : i ≠ handle_frame h → pins_of i (h :: hs) = pins_of i hs.
Proof. intros. unfold pins_of. by rewrite filter_cons_False. Qed.

(** The frames in use. *)
Definition pinned (i : FrameId) hs : Prop := i ∈ handle_frame <$> hs.

#[global] Instance pinned_dec i hs : Decision (pinned i hs).
Proof. unfold pinned. apply _. Defined.

Lemma pins_of_zero i hs : pins_of i hs = 0 ↔ ¬ pinned i hs.
Proof.
  unfold pinned. induction hs as [|h hs IH]; [split; [by intros _ ?%not_elem_of_nil|done]|].
  rewrite fmap_cons, not_elem_of_cons. destruct (decide (i = handle_frame h)) as [->|Hne].
  - rewrite pins_of_cons_eq. naive_solver lia.
  - rewrite pins_of_cons_ne by done. naive_solver.
Qed.

Lemma pins_of_length i hs : pins_of i hs ≤ length hs.
Proof. apply length_filter. Qed.

(** Bookkeeping that does not move pages. *)
Lemma shard_inv_swept L owned D hs held f sh st' :
  shard_inv L owned D hs held f sh → swept (shard_state sh) st' →
  clock_wf (length (shard_frames sh)) st' → shard_inv L owned D hs held f (with_st st' sh).
Proof.
  intros [H1 H2 H3 H4 H5 H6 H7 H8 H9] [S1 S2 S3 S4 _] Hc.
  split; simpl; rewrite ?S1, ?S2, ?S3, ?S4; done.
Qed.

Lemma shard_inv_ref L owned D hs held f sh i b :
  shard_inv L owned D hs held f sh →
  shard_inv L owned D hs held f
    (with_st (set_ref_bits (<[i := b]> (ref_bits (shard_state sh))) (shard_state sh)) sh).
Proof.
  intros [[C1 C2 C3 C4] H2 H3 H4 H5 H6 H7 H8 H9]. split; simpl; try done.
  split; simpl; try done. by rewrite length_insert.
Qed.

Lemma shard_inv_set_pins L owned D hs hs' held f sh i n :
  shard_inv L owned D hs held f sh → i < length (shard_frames sh) →
  n = Z.of_nat (pins_of i hs') → (∀ j, j ≠ i → pins_of j hs' = pins_of j hs) →
  (∀ h, h ∈ hs' → page_table (shard_state sh) !! handle_page h = Some (handle_frame h)) →
  shard_inv L owned D hs' held f
    (with_st (set_pin_counts (<[i := n]> (pin_counts (shard_state sh))) (shard_state sh)) sh).
Proof.
  intros [[C1 C2 C3 C4] H2 H3 H4 H5 H6 H7 H8 H9] Hlt -> Hother Hhs. split; simpl; try done.
  - split; simpl; try done. by rewrite length_insert.
  - intros j m. destruct (decide (j = i)) as [->|Hne].
    + rewrite list_lookup_insert_eq by lia. by intros [= <-].
    + rewrite list_lookup_insert_ne by done. rewrite Hother by done. apply H6.
Qed.

(** [free_frames.pop()] takes a frame; [push] gives it back. *)
Lemma shard_inv_pop L owned D hs f sh i :
  let st := shard_state sh in
  shard_inv L owned D hs None f sh → last (free_frames st) = Some i →
  shard_inv L owned D hs (Some i) f
    (with_st (set_free_frames (take (length (free_frames st) - 1) (free_frames st)) st) sh).
Proof.
  intros st [H1 H2 H3 H4 H5 H6 H7 H8 H9] Hlast. subst st.
  apply last_Some in Hlast as [l El]. rewrite El in H3, H4 |- *.
  rewrite length_app, take_app_length' by (simpl; lia).
  apply NoDup_app in H3 as (Hl & Hd & _). split; simpl; try done.
  - by destruct H1.
  - intros j. specialize (H4 j). rewrite elem_of_app, list_elem_of_singleton in H4. split.
    + intros Hj. destruct H4 as [H4 _]. destruct H4 as [Hp _]; [by left|]. split; [done|].
      intros [= ->]. apply (Hd j Hj). by apply list_elem_of_singleton.
    + intros [Hp Hn]. destruct H4 as [_ H4]. destruct H4 as [|E]; [done|done|]. by subst.
  - intros j [= <-]. apply H4, elem_of_app. right. by apply list_elem_of_singleton.
Qed.

Lemma shard_inv_push L owned D hs f sh i :
  let st := shard_state sh in
  shard_inv L owned D hs (Some i) f sh →
  shard_inv L owned D hs None f (with_st (set_free_frames (free_frames st ++ [i]) st) sh).
Proof.
  intros st [H1 H2 H3 H4 H5 H6 H7 H8 H9]. subst st. split; simpl; try done.
  - by destruct H1.
  - apply NoDup_app. split; [done|]. split; [|apply NoDup_singleton].
    intros j Hj ->%list_elem_of_singleton. apply H4 in Hj as [_ []]. done.
  - intros j. rewrite elem_of_app, list_elem_of_singleton, H4. split.
    + intros [[? _]| ->]; [done|]. split; [by apply H5|done].
    + intros [Hp _]. destruct (decide (j = i)) as [->|]; [by right|]. left. split; [done|]. congruence.
Qed.

(** Unmapping a clean, unpinned frame. *)
Lemma shard_inv_evict L owned D hs f sh id i fr :
  let st := shard_state sh in
  shard_inv L owned D hs None f sh → page_table st !! id = Some i → ¬ pinned i hs →
  shard_frames sh !! i = Some fr → frame_dirty fr = false →
  shard_inv L owned D hs (Some i) f
    (with_st (set_frame_pages (<[i := None]> (frame_pages st))
               (set_page_table (delete id (page_table st)) st)) sh).
Proof.
  intros st [[C1 C2 C3 C4] H2 H3 H4 H5 H6 H7 H8 H9] Hid Hi Hfr Hclean. subst st.
  assert (i < length (frame_pages (shard_state sh))) as Hlt.
  { rewrite C1. by eapply lookup_lt_Some. }
  split; simpl; try done.
  - split; simpl; try done. by rewrite length_insert.
  - intros id' i'. destruct (decide (i' = i)) as [->|Hne].
    + rewrite list_lookup_insert_eq by done. split; [|done].
      intros [Hn E]%lookup_delete_Some. apply H2 in E, Hid. congruence.
    + rewrite list_lookup_insert_ne by done. rewrite lookup_delete_Some, H2.
      split; [by intros [_ ?]|]. intros E. split; [|done]. intros <-. apply H2 in E. congruence.
  - intros j. rewrite H4. destruct (decide (j = i)) as [->|Hne].
    + split; [|by intros [_ []]]. intros [E _]. apply H2 in Hid. congruence.
    + rewrite list_lookup_insert_ne by done. split; intros [? _]; (split; [done|congruence]).
  - intros j [= <-]. by apply list_lookup_insert_eq.
  - intros h Hh. rewrite lookup_delete_ne; [by apply H7|]. intros E. specialize (H7 h Hh).
    rewrite <- E in H7. destruct Hi. apply list_elem_of_fmap. exists h. split; [congruence|done].
  - intros id' i' [_ E]%lookup_delete_Some. by apply H8.
  - intros id' p HL Ho [->|E]%lookup_delete_None; [|by apply H9].
    destruct (H8 _ _ Hid) as (_ & fr' & p' & Hf' & HL' & _ & Hd).
    assert (fr' = fr) as -> by congruence. assert (p' = p) as -> by congruence.
    by rewrite Hclean in Hd.
Qed.

(** Mapping a page into the frame at hand. *)
Lemma shard_inv_fill L owned D hs f sh id i fr p :
  let st := shard_state sh in
  shard_inv L owned D hs (Some i) f sh → page_table st !! id = None → owned id →
  frame_ok D f id p fr →
  shard_inv (<[id := p]> L) owned D hs None f
    (with_st (set_frame_pages (<[i := Some id]> (frame_pages st))
               (set_page_table (<[id := i]> (page_table st)) st)) (with_frame i fr sh)).
Proof.
  intros st [[C1 C2 C3 C4] H2 H3 H4 H5 H6 H7 H8 H9] Hid Ho Hfr. subst st.
  pose proof (H5 i eq_refl) as Hi. pose proof (lookup_lt_Some _ _ _ Hi) as Hlt.
  split; simpl; try done.
  - split; simpl; rewrite ?length_insert; done.
  - intros id' i'. destruct (decide (i' = i)) as [->|Hne].
    + rewrite list_lookup_insert_eq by done. rewrite lookup_insert_Some. split.
      * intros [[-> _]|[Hn E]]; [done|]. apply H2 in E. congruence.
      * intros [= ->]. by left.
    + rewrite list_lookup_insert_ne by done. rewrite lookup_insert_Some, <- H2. split.
      * intros [[_ E]|[_ E]]; [congruence|done].
      * intros E. right. split; [congruence|done].
  - intros j. rewrite H4. destruct (decide (j = i)) as [->|Hne].
    + rewrite list_lookup_insert_eq by done. split; intros [? ?]; [congruence|done].
    + rewrite list_lookup_insert_ne by done. split; intros [? _]; (split; [done|congruence]).
  - intros h Hh. specialize (H7 h Hh). rewrite lookup_insert_ne; [done|]. congruence.
  - intros id' i' [[<- <-]|[Hn E]]%lookup_insert_Some.
    + split; [done|]. exists fr, p. rewrite list_lookup_insert_eq by lia.
      by rewrite lookup_insert_eq.
    + destruct (H8 _ _ E) as (Ho' & fr' & p' & Hf' & HL' & Hok). split; [done|]. exists fr', p'.
      rewrite lookup_insert_ne by done. rewrite list_lookup_insert_ne; [done|].
      intros <-. apply H2 in E. congruence.
  - intros id' p' HL' Ho' [Hn Hne]%lookup_insert_None. rewrite lookup_insert_ne in HL' by done.
    by apply H9.
Qed.

End ShardInvariant.

(** ** Shard operations *)

Section ShardSpecs.
Context `{Cpu} `{HashOrder}.
Implicit Types (L : gmap PageId Page) (owned D : PageId → Prop) (hs : list PageHandle).
Implicit Types (f : file) (sh : Shard) (w : World).
Variable d : DiskManager.
Hypothesis d_wf : disk_wf d.

(** What any operation does to the file: it writes pages of [D] only, and
    does not disturb pages owned by other shards. *)
Definition disk_step D owned (w : World) f (w' : World) f' : Prop :=
  files_to (<[dm_file d := f']> (w_files w)) w w' ∧ pages_written D f f' ∧
  ∀ id p, (0 ≤ id)%Z → ¬ owned id → disk_has f id p → disk_has f' id p.

Lemma disk_step_refl D owned w f :
  w_files w !! dm_file d = Some f → disk_step D owned w f w f.
Proof.
  intros Hf. split; [by rewrite insert_id|]. split; [apply pages_written_refl|done].
Qed.

Lemma disk_step_trans D owned w f w1 f1 w2 f2 :
  disk_step D owned w f w1 f1 → disk_step D owned w1 f1 w2 f2 → disk_step D owned w f w2 f2.
Proof.
  intros ([E1 I1] & P1 & O1) ([E2 I2] & P2 & O2). split; [|split].
  - split; [|auto]. by rewrite E2, E1, insert_insert_eq.
  - by eapply pages_written_trans.
  - auto.
Qed.

Lemma disk_step_file D owned w f w' f' :
  disk_step D owned w f w' f' → w_files w' !! dm_file d = Some f'.
Proof. intros ([E _] & _). by rewrite E, lookup_insert_eq. Qed.

Lemma disk_step_io D owned w f w' f' : disk_step D owned w f w' f' → ¬ io_ok w' → ¬ io_ok w.
Proof. intros ([_ I] & _). auto. Qed.

(** The shape of a crash: some page writes happened. *)
Definition crash_step D owned w f (s : Shard * World) : Prop :=
  ¬ io_ok w ∧ ∃ f', disk_step D owned w f s.2 f'.

(** Writing (a prefix of) a page the shard owns. *)
Lemma disk_step_write D owned w f w1 id p n :
  page_wf p → (0 ≤ id)%Z → D id → owned id →
  files_to (<[dm_file d := file_apply (WriteAt (Z.to_nat id * PAGE_SIZE) (take n (data p))) f]>
    (w_files w)) w w1 →
  disk_step D owned w f w1 (file_apply (WriteAt (Z.to_nat id * PAGE_SIZE) (take n (data p))) f).
Proof.
  intros Hp Hid HD Ho Hw. split; [done|].
  assert (length (take n (data p)) ≤ PAGE_SIZE) by (rewrite length_take, Hp; lia). split.
  - by apply pages_written_one.
  - intros id' p' H0' Hno Hhas. apply disk_has_write_ne; try done. by intros ->.
Qed.

Lemma shard_inv_written L owned D hs held f sh id i p n dirty :
  pages_fit d L → shard_inv L owned D hs held f sh → page_table (shard_state sh) !! id = Some i →
  L !! id = Some p → D id → (dirty = false → PAGE_SIZE ≤ n) →
  shard_inv L owned D hs held (file_apply (WriteAt (Z.to_nat id * PAGE_SIZE) (take n (data (seal p)))) f)
    (with_frame i {| frame_page := seal p; frame_dirty := dirty |} sh).
Proof.
  intros HL Hinv Hid Hp HD Hn. destruct (HL _ _ Hp) as (Hdata & Hpw%seal_wf & _).
  eapply (shard_inv_set_frame L _ _ _ _ _ f _ _ id i _ p); [done|done| |by rewrite insert_id|].
  - split; [by right|]. cbn [frame_dirty]. destruct dirty; [done|].
    rewrite take_ge by (rewrite Hpw; auto). by apply disk_has_write_same.
  - intros id' p' Hne _ HL' Hhas. destruct (HL _ _ HL') as (Hdata' & _).
    unfold data_page in *. apply disk_has_write_ne; try done; [lia|lia|].
    rewrite length_take, Hpw. lia.
Qed.

Lemma wp_write_back L owned D hs held f sh w id i :
  pages_fit d L → shard_inv L owned D hs held f sh → w_files w !! dm_file d = Some f →
  page_table (shard_state sh) !! id = Some i →
  wp (write_back i id d)
    (λ r s', ∃ f' fr, disk_step D owned w f s'.2 f' ∧ s'.1 = with_frame i fr sh ∧
       shard_inv L owned D hs held f' s'.1 ∧
       (∃ fr0, shard_frames sh !! i = Some fr0 ∧ (frame_dirty fr = true → frame_dirty fr0 = true)) ∧
       match r with Ok _ => frame_dirty fr = false | Err _ => ¬ io_ok w end)
    (crash_step D owned w f) (sh, w).
Proof.
  intros HL Hinv Hf Hid.
  destruct (si_cached _ _ _ _ _ _ _ Hinv _ _ Hid) as (Ho & fr & p & Hfr & Hp & Esame & Hdirty).
  pose proof (page_fits_id _ _ _ (HL _ _ Hp)) as Hpid. destruct (HL _ _ Hp) as (Hdata & Hpw & _).
  assert (0 ≤ id)%Z as Hpos by (unfold data_page in Hdata; lia).
  pose proof (same_page_wf _ _ Hpw Esame) as Hqw. pose proof (same_page_seal _ _ Hpw Esame) as Eseal.
  pose proof (same_page_id _ _ Hpw Esame) as Hqid. rewrite Hpid in Hqid.
  unfold write_back. wp_step. eapply wp_index; [exact Hfr|].
  destruct (frame_dirty fr) eqn:Ed.
  2:{ wp_step. exists f, fr. split; [by apply disk_step_refl|].
      assert (with_frame i fr sh = sh) as ->
        by (unfold with_frame; rewrite list_insert_id by done; by destruct sh).
      split; [done|]. split; [done|]. eauto. }
  pose proof (λ n w1, disk_step_write D owned w f w1 id (seal p) n (seal_wf _ Hpw) Hpos Hdirty Ho) as Hstep.
  pose proof (λ n dirty, shard_inv_written L owned D hs held f sh id i p n dirty HL Hinv Hid Hp Hdirty)
    as Hinv'.
  do 2 pool_step. eapply wp_write_page; [done..| | |]; rewrite ?Eseal.
  - intros Hno. by destruct Hno.
  - intros _ _ w1 Hw1. wp_step. eapply wp_update; [exact Hfr|]. wp_step.
    eexists _, _. split; [by apply Hstep|]. split; [done|]. split; [by apply Hinv'|eauto].
  - intros _ _ Hio n w1 Hw1. split.
    + split; [done|]. eexists. by apply Hstep.
    + intros code. wp_step. eapply wp_update; [exact Hfr|]. wp_step.
      eexists _, _. split; [by apply Hstep|]. split; [done|]. split; [by apply Hinv'|eauto].
Qed.

(** Every frame is pinned by some handle. *)
Definition all_pinned hs sh : Prop := ∀ i, i < length (shard_frames sh) → pinned i hs.

(** Why an operation may fail. *)
Definition pool_failure hs sh (w : World) (e : Error) : Prop :=
  ¬ io_ok w ∨ (is_resource_exhausted e = true ∧ all_pinned hs sh).

(** A freshly acquired frame is free to use and the page table only lost
    entries. *)
Definition acquired L owned D hs w f sh (r : Result FrameId) (s' : Shard * World) : Prop :=
  ∃ f', disk_step D owned w f s'.2 f' ∧
    length (shard_frames s'.1) = length (shard_frames sh) ∧
    (∀ id, page_table (shard_state sh) !! id = None → page_table (shard_state s'.1) !! id = None) ∧
    match r with
    | Ok i => shard_inv L owned D hs (Some i) f' s'.1
    | Err e => shard_inv L owned D hs None f' s'.1 ∧ pool_failure hs sh w e
    end.

Lemma pins_nonneg L owned D hs held f sh :
  shard_inv L owned D hs held f sh → Forall (λ n, (0 ≤ n)%Z) (pin_counts (shard_state sh)).
Proof.
  intros Hinv. apply Forall_lookup. intros i n Hn. apply (si_pins _ _ _ _ _ _ _ Hinv) in Hn. lia.
Qed.

(** With no free frame left, every frame holds a page. *)
Lemma frame_occupied L owned D hs f sh i :
  shard_inv L owned D hs None f sh → free_frames (shard_state sh) = [] →
  i < length (shard_frames sh) → ∃ id, page_table (shard_state sh) !! id = Some i.
Proof.
  intros Hinv Hfree Hlt. destruct (shard_inv_vectors _ _ _ _ _ _ _ _ Hinv Hlt) as ([[id|] Ho] & _).
  - exists id. by apply (si_table _ _ _ _ _ _ _ Hinv).
  - assert (i ∈ free_frames (shard_state sh)) as Hin by (by apply (si_free _ _ _ _ _ _ _ Hinv)).
    rewrite Hfree in Hin. by apply not_elem_of_nil in Hin.
Qed.

Lemma with_frame_table id i fr sh :
  page_table (shard_state (with_frame i fr sh)) !! id = page_table (shard_state sh) !! id.
Proof. done. Qed.

(** The clock finds an unpinned frame, which holds a page, or every frame is
    pinned. *)
Lemma wp_find_victim L owned D hs f sh (Q : option FrameId → Shard * World → Prop) C w :
  shard_inv L owned D hs None f sh → free_frames (shard_state sh) = [] →
  (all_pinned hs sh → ∀ st', swept (shard_state sh) st' →
     shard_inv L owned D hs None f (with_st st' sh) → Q None (with_st st' sh, w)) →
  (∀ v old st', swept (shard_state sh) st' → shard_inv L owned D hs None f (with_st st' sh) →
     v < length (shard_frames sh) → page_table st' !! old = Some v → ¬ pinned v hs →
     Q (Some v) (with_st st' sh, w)) →
  wp (with_state find_victim) Q C (sh, w).
Proof.
  intros Hinv Hfree Hnone Hsome. pool_step.
  destruct (find_victim_spec (shard_state sh) (length (shard_frames sh)) (si_clock _ _ _ _ _ _ _ Hinv)
    (pins_nonneg _ _ _ _ _ _ _ Hinv)) as (r & st' & E & Hc & Hsw & Hr).
  unfold wp. simpl shard_state. rewrite E.
  pose proof (shard_inv_swept _ _ _ _ _ _ _ _ Hinv Hsw Hc) as Hinv1.
  change {| shard_frames := _; shard_state := st' |} with (with_st st' sh) in *.
  assert (∀ i, i < length (shard_frames sh) → pinned i hs ∨ unpinned (shard_state sh) i) as Hpin.
  { intros i Hi. destruct (decide (pinned i hs)) as [|Hn]; [by left|right]. unfold unpinned.
    destruct (shard_inv_vectors _ _ _ _ _ _ _ _ Hinv Hi) as (_ & -> & _). by apply pins_of_zero in Hn as ->. }
  destruct r as [v|].
  - destruct Hr as [Hv Hu]. destruct (frame_occupied _ _ _ _ _ _ v Hinv Hfree Hv) as [old Hold].
    eapply (Hsome v old); try done; [by rewrite (swept_table _ _ Hsw)|]. apply pins_of_zero.
    destruct (shard_inv_vectors _ _ _ _ _ _ _ _ Hinv Hv) as (_ & Hp & _).
    unfold unpinned in Hu. rewrite Hu in Hp. injection Hp. lia.
  - apply Hnone; try done. intros i Hi. destruct (Hpin i Hi) as [|Hu]; [done|by destruct (Hr i Hi)].
Qed.

Lemma wp_acquire_frame L owned D hs f sh w :
  pages_fit d L → shard_inv L owned D hs None f sh → w_files w !! dm_file d = Some f →
  wp (acquire_frame d) (acquired L owned D hs w f sh) (crash_step D owned w f) (sh, w).
Proof.
  intros HL Hinv Hf. unfold acquire_frame. do 2 pool_step.
  unfold wp at 1, pop_free. simpl shard_state.
  destruct (last (free_frames (shard_state sh))) as [i|] eqn:Elast.
  { wp_step. exists f. split; [by apply disk_step_refl|]. split; [done|]. split; [done|].
    by apply shard_inv_pop. }
  apply last_None in Elast as Hfree. simpl. pool_step.
  change {| shard_frames := _; shard_state := _ |} with (with_st (shard_state sh) sh).
  assert (with_st (shard_state sh) sh = sh) as -> by by destruct sh.
  eapply wp_find_victim; [done|done| |].
  { intros Hall st' Hsw Hinv1. do 3 wp_step. exists f. split; [by apply disk_step_refl|]. split; [done|].
    split; [intros id; simpl; by rewrite (swept_table _ _ Hsw)|]. split; [done|by right]. }
  intros v old st' Hsw Hinv1 Hv Hold1 Hnv. do 2 pool_step. eapply wp_index.
  { by apply (si_table _ _ _ _ _ _ _ Hinv1). }
  cbv iota beta. wp_step. simpl.
  eapply wp_mono; [by eapply wp_write_back| |done].
  intros [[]|e] [sh2 w2] (f2 & fr & Hst & Esh & Hinv2 & _ & Hres); simpl in Esh, Hst, Hinv2; subst sh2.
  2:{ exists f2. split; [done|]. split; [simpl; by rewrite length_insert|].
      split; [intros id; simpl; by rewrite (swept_table _ _ Hsw)|]. split; [done|by left]. }
  do 3 pool_step. do 2 pool_step. eapply wp_update; [simpl; by apply (si_table _ _ _ _ _ _ _ Hinv1)|]. wp_step.
  exists f2. split; [done|]. split; [simpl; by rewrite length_insert|]. split.
  { intros id Hid. simpl. rewrite lookup_delete_None. right. by rewrite (swept_table _ _ Hsw). }
  eapply (shard_inv_evict _ _ _ _ _ _ old v fr Hinv2); [done|done| |done].
  simpl. by apply list_lookup_insert_eq.
Qed.

(** Fewer handles than a [u32] pin count can hold. *)
Definition few_handles hs : Prop := (Z.of_nat (length hs) + 1 < 2 ^ 32)%Z.

Lemma pin_count_range hs h :
  few_handles hs →
  wrap_u32 (Z.of_nat (pins_of (handle_frame h) hs) + 1) = Z.of_nat (pins_of (handle_frame h) (h :: hs)).
Proof.
  unfold few_handles. intros Hh. pose proof (pins_of_length (handle_frame h) hs). rewrite pins_of_cons_eq.
  rewrite wrap_u32_id; [lia|]. unfold u32_range. lia.
Qed.

Lemma unpin_count_range hs h :
  few_handles hs →
  wrap_u32 (Z.of_nat (pins_of (handle_frame h) (h :: hs)) - 1) = Z.of_nat (pins_of (handle_frame h) hs).
Proof.
  unfold few_handles. intros Hh. pose proof (pins_of_length (handle_frame h) hs). rewrite pins_of_cons_eq.
  rewrite wrap_u32_id; [lia|]. unfold u32_range. lia.
Qed.

(** Pinning a cached page, and dropping a handle. *)
Lemma wp_pin L owned D hs held f sh id i (Q : unit → Shard * World → Prop) C w :
  shard_inv L owned D hs held f sh → page_table (shard_state sh) !! id = Some i → few_handles hs →
  (∀ st', page_table st' = page_table (shard_state sh) →
     shard_inv L owned D ({| handle_frame := i; handle_page := id |} :: hs) held f (with_st st' sh) →
     Q tt (with_st st' sh, w)) →
  wp (with_state (pin i)) Q C (sh, w).
Proof.
  intros Hinv Hid Hh HQ. pose proof (shard_inv_frame _ _ _ _ _ _ _ _ _ Hinv Hid) as Hlt.
  destruct (shard_inv_vectors _ _ _ _ _ _ _ _ Hinv Hlt) as (_ & Hp & _).
  pool_step. eapply wp_update; [exact Hp|]. apply HQ; [done|]. simpl.
  eapply shard_inv_set_pins; [done|done|exact (pin_count_range hs {| handle_frame := i; handle_page := id |} Hh)| |].
  - intros j Hj. by rewrite pins_of_cons_ne.
  - intros h [->|Hj]%elem_of_cons; [done|by eapply si_hs].
Qed.

Lemma wp_unpin L owned D hs held f sh h (Q : unit → Shard * World → Prop) C w :
  shard_inv L owned D (h :: hs) held f sh → few_handles hs →
  (∀ st', page_table st' = page_table (shard_state sh) →
     shard_inv L owned D hs held f (with_st st' sh) → Q tt (with_st st' sh, w)) →
  wp (unpin (handle_frame h)) Q C (sh, w).
Proof.
  intros Hinv Hh HQ.
  pose proof (si_hs _ _ _ _ _ _ _ Hinv h ltac:(constructor)) as Hid.
  pose proof (shard_inv_frame _ _ _ _ _ _ _ _ _ Hinv Hid) as Hlt.
  destruct (shard_inv_vectors _ _ _ _ _ _ _ _ Hinv Hlt) as (_ & Hp & _).
  pool_step. unfold release_pin. wp_step. eapply wp_index; [exact Hp|].
  rewrite (proj2 (Z.ltb_lt _ _)) by (rewrite pins_of_cons_eq; lia).
  eapply wp_update; [exact Hp|]. apply HQ; [done|]. simpl.
  eapply shard_inv_set_pins; [done|done|by apply unpin_count_range| |].
  - intros j Hj. by rewrite pins_of_cons_ne.
  - intros h' Hj. eapply (si_hs _ _ _ _ _ _ _ Hinv). by constructor.
Qed.

Lemma wp_set_ref_bit L owned D hs held f sh i b (Q : unit → Shard * World → Prop) C w :
  shard_inv L owned D hs held f sh → i < length (shard_frames sh) →
  (∀ st', page_table st' = page_table (shard_state sh) →
     shard_inv L owned D hs held f (with_st st' sh) → Q tt (with_st st' sh, w)) →
  wp (with_state (set_ref_bit i b)) Q C (sh, w).
Proof.
  intros Hinv Hlt HQ. destruct (shard_inv_vectors _ _ _ _ _ _ _ _ Hinv Hlt) as (_ & _ & [r Hr] & _).
  pool_step. eapply wp_update; [exact Hr|]. apply HQ; [done|]. by apply shard_inv_ref.
Qed.

(** Mapping page [id] into an acquired frame. *)
Lemma wp_map_frame {A} L owned D hs f sh id i fr p (k : unit → M (Shard * World) A) Q C w :
  shard_inv L owned D hs (Some i) f sh → page_table (shard_state sh) !! id = None → owned id →
  frame_ok D f id p fr →
  (∀ sh', shard_inv (<[id := p]> L) owned D hs None f sh' →
     page_table (shard_state sh') !! id = Some i → ¬ pinned i hs →
     shard_frames sh' = <[i := fr]> (shard_frames sh) → wp (k tt) Q C (sh', w)) →
  wp (let! _ := write_frame i fr in
      let! _ := with_state (table_insert id i) in
      let! x := with_state (set_frame_page i (Some id)) in
      k x) Q C (sh, w).
Proof.
  intros Hinv Htab Ho Hok Hk. pose proof (si_held _ _ _ _ _ _ _ Hinv i eq_refl) as Hheld.
  assert (i < length (shard_frames sh)) as Hlt.
  { rewrite <- (clock_pages _ _ (si_clock _ _ _ _ _ _ _ Hinv)). by eapply lookup_lt_Some. }
  destruct (shard_inv_vectors _ _ _ _ _ _ _ _ Hinv Hlt) as (_ & _ & _ & [fr0 Hfr0]).
  pool_step. eapply wp_update; [exact Hfr0|]. do 3 pool_step. do 2 pool_step.
  eapply wp_update; [exact Hheld|]. apply Hk.
  - exact (shard_inv_fill _ _ _ _ _ _ id i fr p Hinv Htab Ho Hok).
  - simpl. apply lookup_insert_eq.
  - intros (h & -> & Hin)%list_elem_of_fmap.
    pose proof (si_hs _ _ _ _ _ _ _ Hinv h Hin) as E%(si_table _ _ _ _ _ _ _ Hinv). congruence.
  - done.
Qed.

(** The first pin of a page just mapped. *)
Lemma wp_first_pin L owned D hs held f sh id i (Q : unit → Shard * World → Prop) C w :
  shard_inv L owned D hs held f sh → page_table (shard_state sh) !! id = Some i → ¬ pinned i hs →
  (∀ st', page_table st' = page_table (shard_state sh) →
     shard_inv L owned D ({| handle_frame := i; handle_page := id |} :: hs) held f (with_st st' sh) →
     Q tt (with_st st' sh, w)) →
  wp (with_state (set_pin_count i 1)) Q C (sh, w).
Proof.
  intros Hinv Hid Hni HQ. pose proof (shard_inv_frame _ _ _ _ _ _ _ _ _ Hinv Hid) as Hlt.
  destruct (shard_inv_vectors _ _ _ _ _ _ _ _ Hinv Hlt) as (_ & Hp & _).
  pool_step. eapply wp_update; [exact Hp|]. apply HQ; [done|].
  eapply shard_inv_set_pins; [done|done| | |].
  - apply pins_of_zero in Hni as E. pose proof (pins_of_cons_eq {| handle_frame := i; handle_page := id |} hs) as E'. simpl in E'. lia.
  - intros j Hj. by rewrite pins_of_cons_ne.
  - intros h [->|Hj]%elem_of_cons; [done|by eapply si_hs].
Qed.

(** The result of fetching a page of [L]. *)
Definition fetched L owned D hs w f sh id (r : Result PageHandle) (s' : Shard * World) : Prop :=
  ∃ f', disk_step D owned w f s'.2 f' ∧
    length (shard_frames s'.1) = length (shard_frames sh) ∧
    match r with
    | Ok h => handle_page h = id ∧ shard_inv L owned D (h :: hs) None f' s'.1
    | Err e => shard_inv L owned D hs None f' s'.1 ∧ pool_failure hs sh w e
    end.

Lemma wp_shard_fetch_page L owned D hs f sh w id p :
  pages_fit d L → shard_inv L owned D hs None f sh → w_files w !! dm_file d = Some f →
  L !! id = Some p → owned id → few_handles hs →
  wp (shard_fetch_page id d) (fetched L owned D hs w f sh id) (crash_step D owned w f) (sh, w).
Proof.
  intros HL Hinv Hf Hp Ho Hh. unfold shard_fetch_page. do 3 pool_step. simpl.
  destruct (page_table (shard_state sh) !! id) as [i|] eqn:Hid.
  - pose proof (shard_inv_frame _ _ _ _ _ _ _ _ _ Hinv Hid) as Hlt.
    pool_step. change {| shard_frames := _; shard_state := _ |} with (with_st (shard_state sh) sh).
    assert (with_st (shard_state sh) sh = sh) as -> by by destruct sh.
    eapply wp_pin; [done..|]. intros st1 Et1 Hinv1.
    pool_step. eapply wp_set_ref_bit; [done|done|]. intros st2 Et2 Hinv2. pool_step.
    exists f. split; [by apply disk_step_refl|]. by split_and!.
  - pool_step. change {| shard_frames := _; shard_state := _ |} with (with_st (shard_state sh) sh).
    assert (with_st (shard_state sh) sh = sh) as -> by by destruct sh.
    eapply wp_mono; [by apply wp_acquire_frame| |done].
    intros [i|e] [sh1 w1] (f1 & Hst1 & Hlen1 & Htab1 & Hr); simpl in Hst1, Hlen1, Htab1, Hr.
    2:{ exists f1. split; [done|]. by split. }
    specialize (Htab1 _ Hid). pose proof (si_disk _ _ _ _ _ _ _ Hr _ _ Hp Ho Htab1) as [Hb Hpg].
    destruct (HL _ _ Hp) as (Hdata & Hpw & h & Hv).
    assert (0 ≤ id)%Z as Hpos by (unfold data_page in Hdata; lia).
    do 2 pool_step. eapply wp_mono; [by apply (wp_read_page id d f1 w1); [..|eapply disk_step_file]| |].
    2:{ intros w2 [Hio Hw2]. split; [by eapply disk_step_io|]. exists f1. 
        eapply disk_step_trans; [exact Hst1|]. split; [|by split; [apply pages_written_refl|]].
        by rewrite insert_id by by eapply disk_step_file. }
    intros r w2 [Hw2 Hread].
    assert (disk_step D owned w f w2 f1) as Hst2.
    { eapply disk_step_trans; [exact Hst1|]. split; [|by split; [apply pages_written_refl|]].
      by rewrite insert_id by by eapply disk_step_file. }
    destruct r as [pg|e].
    2:{ do 4 pool_step. exists f1. split; [done|]. split; [done|]. split; [by apply shard_inv_push|].
        left. intros Hio. destruct Hst1 as ([_ I1] & _). destruct Hread. split_and!; auto.
        rewrite Hpg. by rewrite Hv. }
    destruct Hread as (_ & _ & -> & _). rewrite Hpg.
    eapply (wp_map_frame _ _ _ _ _ _ _ _ _ p); [done|done|done|by split; [right|split]|].
    intros sh2 Hinv2 Htab2 Hni Efr2. rewrite insert_id in Hinv2 by done.
    pool_step. eapply wp_first_pin; [done..|]. intros st3 Et3 Hinv3.
    pose proof (shard_inv_frame _ _ _ _ _ _ _ id i Hinv3 ltac:(simpl; congruence)) as Hlt.
    pool_step. eapply wp_set_ref_bit; [done..|]. intros st4 Et4 Hinv4. pool_step.
    exists f1. split; [done|]. simpl in *. split; [by rewrite Efr2, length_insert|done].
Qed.

Lemma with_st_same sh : {| shard_frames := shard_frames sh; shard_state := shard_state sh |} = sh.
Proof. by destruct sh. Qed.

Lemma wp_shard_install_page L owned D hs f sh w id p :
  pages_fit d L → shard_inv L owned D hs None f sh → w_files w !! dm_file d = Some f →
  D id → owned id → few_handles hs →
  wp (shard_install_page id p d)
    (λ r s', ∃ f', disk_step D owned w f s'.2 f' ∧
       length (shard_frames s'.1) = length (shard_frames sh) ∧
       match r with
       | Ok _ => shard_inv (<[id := p]> L) owned D hs None f' s'.1
       | Err e => shard_inv L owned D hs None f' s'.1 ∧ pool_failure hs sh w e
       end)
    (crash_step D owned w f) (sh, w).
Proof.
  intros HL Hinv Hf HD Ho Hh. unfold shard_install_page. do 3 pool_step. simpl.
  rewrite with_st_same. destruct (page_table (shard_state sh) !! id) as [i|] eqn:Hid.
  - pose proof (shard_inv_frame _ _ _ _ _ _ _ _ _ Hinv Hid) as Hlt.
    destruct (shard_inv_vectors _ _ _ _ _ _ _ _ Hinv Hlt) as (_ & _ & _ & [fr0 Hfr0]).
    pool_step. eapply wp_pin; [done..|]. intros st1 Et1 Hinv1.
    pool_step. eapply wp_set_ref_bit; [done|done|]. intros st2 Et2 Hinv2.
    pool_step. eapply wp_update; [exact Hfr0|]. simpl in *.
    assert (shard_inv (<[id := p]> L) owned D ({| handle_frame := i; handle_page := id |} :: hs) None f
      (with_frame i {| frame_page := p; frame_dirty := true |} (with_st st2 sh))) as Hinv3.
    { eapply (shard_inv_set_frame _ _ _ _ _ _ _ _ _ id i _ p Hinv2); try done.
      - simpl. congruence.
      - by apply frame_ok_dirty, same_page_refl. }
    pool_step. eapply (wp_unpin _ _ _ _ _ _ _ {| handle_frame := i; handle_page := id |}); [exact Hinv3|done|]. intros st4 Et4 Hinv4. pool_step.
    exists f. split; [by apply disk_step_refl|]. split; [simpl; by rewrite length_insert|]. done.
  - pool_step. eapply wp_mono; [by apply wp_acquire_frame| |done].
    intros [i|e] [sh1 w1] (f1 & Hst1 & Hlen1 & Htab1 & Hr); simpl in Hst1, Hlen1, Htab1, Hr.
    2:{ exists f1. split; [done|]. by split. }
    specialize (Htab1 _ Hid).
    eapply (wp_map_frame _ _ _ _ _ _ _ _ _ p); [done|done|done|by apply frame_ok_dirty, same_page_refl|].
    intros sh2 Hinv2 Htab2 Hni Efr2.
    pose proof (shard_inv_frame _ _ _ _ _ _ _ _ _ Hinv2 Htab2) as Hlt.
    pool_step. eapply wp_set_ref_bit; [done..|]. intros st3 Et3 Hinv3. pool_step.
    exists f1. split; [done|]. simpl in *. split; [by rewrite Efr2, length_insert|done].
Qed.

(** Frames of [sh'] that are dirty were dirty in [sh]. *)
Definition no_new_dirty sh sh' : Prop :=
  ∀ j fr', shard_frames sh' !! j = Some fr' → frame_dirty fr' = true →
    ∃ fr, shard_frames sh !! j = Some fr ∧ frame_dirty fr = true.

Definition page_clean sh (id : PageId) : Prop :=
  ∀ i fr, page_table (shard_state sh) !! id = Some i → shard_frames sh !! i = Some fr →
          frame_dirty fr = false.

Lemma wp_shard_flush_page L owned D hs f sh w id :
  pages_fit d L → shard_inv L owned D hs None f sh → w_files w !! dm_file d = Some f →
  few_handles hs →
  wp (shard_flush_page id d)
    (λ r s', ∃ f', disk_step D owned w f s'.2 f' ∧ shard_inv L owned D hs None f' s'.1 ∧
       length (shard_frames s'.1) = length (shard_frames sh) ∧
       page_table (shard_state s'.1) = page_table (shard_state sh) ∧ no_new_dirty sh s'.1 ∧
       match r with Ok _ => page_clean s'.1 id | Err _ => ¬ io_ok w end)
    (crash_step D owned w f) (sh, w).
Proof.
  intros HL Hinv Hf Hh. unfold shard_flush_page. do 3 pool_step. simpl. rewrite with_st_same.
  destruct (page_table (shard_state sh) !! id) as [i|] eqn:Hid.
  2:{ pool_step. exists f. split; [by apply disk_step_refl|]. split; [done|]. split; [done|].
      split; [done|]. split; [by intros j fr; eauto|]. intros i fr. simpl. congruence. }
  pose proof (shard_inv_frame _ _ _ _ _ _ _ _ _ Hinv Hid) as Hlt.
  pool_step. eapply wp_pin; [done..|]. intros st1 Et1 Hinv1.
  pool_step. eapply wp_mono; [apply (wp_write_back _ _ _ _ _ _ _ _ id i HL Hinv1 Hf); simpl; congruence| |done].
  intros r [sh2 w2] (f2 & fr & Hst & Esh & Hinv2 & (fr0 & Hfr0 & Hd0) & Hr).
  simpl in *. subst sh2.
  pool_step. eapply (wp_unpin _ _ _ _ _ _ _ {| handle_frame := i; handle_page := id |}); [exact Hinv2|done|]. intros st3 Et3 Hinv3. pool_step.
  exists f2. split; [done|]. split; [done|]. simpl in *. split; [by rewrite length_insert|].
  split; [congruence|]. split.
  - intros j fr' Hj Hdirty. simpl in Hj. destruct (decide (j = i)) as [->|Hne].
    + rewrite list_lookup_insert_eq in Hj by done. injection Hj as <-. eauto.
    + rewrite list_lookup_insert_ne in Hj by done. eauto.
  - destruct r; [|done]. intros i' fr' Hi' Hfr'. simpl in *.
    assert (i' = i) as -> by congruence. rewrite list_lookup_insert_eq in Hfr' by done. congruence.
Qed.

(** A shard with nothing to write back. *)
Definition shard_clean sh : Prop := ∀ id, page_clean sh id.

Lemma wp_flush_cached L owned D hs f sh w :
  pages_fit d L → shard_inv L owned D hs None f sh → w_files w !! dm_file d = Some f →
  few_handles hs →
  wp (flush_cached d)
    (λ r s', ∃ f', disk_step D owned w f s'.2 f' ∧ shard_inv L owned D hs None f' s'.1 ∧
       length (shard_frames s'.1) = length (shard_frames sh) ∧
       match r with Ok _ => shard_clean s'.1 | Err _ => ¬ io_ok w end)
    (crash_step D owned w f) (sh, w).
Proof.
  intros HL Hinv Hf Hh. unfold flush_cached. do 3 pool_step. simpl. rewrite with_st_same.
  eapply (wp_for_each _ (λ xs s, ∃ f', disk_step D owned w f s.2 f' ∧
    shard_inv L owned D hs None f' s.1 ∧ length (shard_frames s.1) = length (shard_frames sh) ∧
    page_table (shard_state s.1) = page_table (shard_state sh) ∧
    ∀ id, is_Some (page_table (shard_state sh) !! id) → id ∉ xs → page_clean s.1 id)).
  - exists f. split; [by apply disk_step_refl|]. split; [done|]. split; [done|]. split; [done|].
    intros id [i Hi] Hn. destruct Hn. rewrite hash_keys_perm.
    apply list_elem_of_fmap. exists (id, i). split; [done|]. by apply elem_of_map_to_list.
  - intros id xs [sh1 w1] (f1 & Hst1 & Hinv1 & Hlen1 & Htab1 & Hclean1). simpl in *.
    eapply wp_mono; [by apply (wp_shard_flush_page _ _ _ _ _ _ _ id HL Hinv1); [eapply disk_step_file|]| |].
    2:{ intros [sh2 w2] [Hio (f2 & Hst2)]. split; [by eapply disk_step_io|].
        exists f2. by eapply disk_step_trans. }
    intros r [sh2 w2] (f2 & Hst2 & Hinv2 & Hlen2 & Htab2 & Hdirty2 & Hr). simpl in *.
    assert (disk_step D owned w f w2 f2) as Hst by by eapply disk_step_trans.
    destruct r as [[]|e].
    + exists f2. split; [done|]. split; [done|]. split; [congruence|]. split; [congruence|].
      intros id' Hid' Hn. destruct (decide (id' = id)) as [->|Hne]; [done|].
      intros i fr Hi Hfr. destruct (frame_dirty fr) eqn:Ed; [|done].
      destruct (Hdirty2 _ _ Hfr Ed) as (fr1 & Hfr1 & Ed1).
      rewrite <- Ed1. refine (Hclean1 id' Hid' _ i fr1 _ Hfr1); [|congruence].
      by intros [|]%elem_of_cons.
    + exists f2. split; [done|]. split; [done|]. split; [congruence|].
      exact (disk_step_io _ _ _ _ _ _ Hst1 Hr).
  - intros [sh1 w1] (f1 & Hst1 & Hinv1 & Hlen1 & Htab1 & Hclean1). simpl in *.
    exists f1. split; [done|]. split; [done|]. split; [done|].
    intros id i fr Hi. apply (Hclean1 id); [|by intros ?%not_elem_of_nil|done].
    rewrite <- Htab1. eauto.
Qed.

(** Reading through a handle gives the page. *)
Lemma wp_handle_read L owned D hs held f sh h p (Q : Page → Shard * World → Prop) C w :
  shard_inv L owned D hs held f sh → h ∈ hs → L !! handle_page h = Some p →
  (∀ q, same_page p q → Q q (sh, w)) → wp (handle_read h) Q C (sh, w).
Proof.
  intros Hinv Hh Hp HQ. pose proof (si_hs _ _ _ _ _ _ _ Hinv h Hh) as Hid.
  destruct (si_cached _ _ _ _ _ _ _ Hinv _ _ Hid) as (_ & fr & p' & Hfr & Hp' & Esame & _).
  assert (p' = p) as -> by congruence. unfold handle_read. pool_step.
  eapply wp_index; [exact Hfr|]. pool_step. by apply HQ.
Qed.

End ShardSpecs.

(** ** The pool *)

Section PoolSpecs.
Context `{Cpu} `{HashOrder}.
Implicit Types (L : gmap PageId Page) (D : PageId → Prop) (hs : nat → list PageHandle).
Implicit Types (f : file) (pl : BufferPool) (w : World).
Variable d : DiskManager.
Hypothesis d_wf : disk_wf d.

(** [pool_inv L D hs f pl]: the pool in front of the file represents [L];
    [hs i] are the handles in use on shard [i]. *)
Record pool_inv L D hs f pl : Prop := {
  pi_count : ∃ k, length (shards pl) = 2 ^ k;
  pi_shard i sh : shards pl !! i = Some sh →
    shard_inv L (λ id, shard_index (length (shards pl)) id = i) D (hs i) None f sh;
}.

Definition io_step D w f w' f' : Prop :=
  files_to (<[dm_file d := f']> (w_files w)) w w' ∧ pages_written D f f'.

Definition pool_crash D w f (s : BufferPool * World) : Prop :=
  ¬ io_ok w ∧ ∃ f', io_step D w f s.2 f'.

(** Some shard has every frame pinned. *)
Definition exhausted hs pl : Prop := ∃ i sh, shards pl !! i = Some sh ∧ all_pinned (hs i) sh.

Definition pool_error hs pl w (e : Error) : Prop :=
  ¬ io_ok w ∨ (is_resource_exhausted e = true ∧ exhausted hs pl).

Lemma shard_index_lt n k id : n = 2 ^ k → shard_index n id < n.
Proof.
  intros ->. unfold shard_index.
  assert (Z.of_nat (2 ^ k) - 1 = Z.ones (Z.of_nat k))%Z as ->.
  { rewrite Z.ones_equiv, Nat2Z.inj_pow. lia. }
  rewrite Z.land_ones by lia.
  assert (2 ^ Z.of_nat k = Z.of_nat (2 ^ k))%Z as E by (rewrite Nat2Z.inj_pow; lia).
  set (h := Z.shiftr _ _). assert (0 < 2 ^ Z.of_nat k)%Z by lia.
  pose proof (Z.mod_pos_bound h (2 ^ Z.of_nat k) ltac:(lia)). lia.
Qed.

Lemma pool_inv_shard L D hs f pl id :
  pool_inv L D hs f pl → ∃ sh, shards pl !! shard_index (length (shards pl)) id = Some sh ∧
    shard_inv L (λ id', shard_index (length (shards pl)) id' = shard_index (length (shards pl)) id)
      D (hs (shard_index (length (shards pl)) id)) None f sh.
Proof.
  intros [[k Hk] Hsh].
  destruct (lookup_lt_is_Some_2 (shards pl) (shard_index (length (shards pl)) id)) as [sh E];
    [by eapply shard_index_lt|]. eauto.
Qed.

Lemma wp_on_shard {A} i (m : M (Shard * World) A) Q C pl w sh :
  shards pl !! i = Some sh →
  wp m (λ a s', Q a ({| shards := <[i := s'.1]> (shards pl) |}, s'.2))
       (λ s', C ({| shards := <[i := s'.1]> (shards pl) |}, s'.2)) (sh, w) →
  wp (on_shard i m) Q C (pl, w).
Proof.
  intros E Hm. unfold wp, on_shard in *. simpl. rewrite E.
  by destruct (m (sh, w)) as [[] [sh' w']].
Qed.

Lemma on_shard_bind {A B} i (m : M (Shard * World) A) (k : A → M (Shard * World) B) :
  meq (on_shard i (bind m k)) (bind (on_shard i m) (λ x, on_shard i (k x))).
Proof.
  intros [[l] w]. unfold bind, on_shard. cbn [fst snd shards]. destruct (l !! i) as [sh|] eqn:Hi; [|done].
  destruct (m (sh, w)) as [[a| |] [sh' w']]; [|done..]. cbn [fst snd shards].
  rewrite list_lookup_insert_eq by by eapply lookup_lt_Some.
  destruct (k a (sh', w')) as [r [sh'' w'']]. by rewrite list_insert_insert_eq.
Qed.

Lemma on_shard_length {A} i (m : M (Shard * World) A) s :
  length (shards (on_shard i m s).2.1) = length (shards s.1).
Proof.
  unfold on_shard. destruct (shards s.1 !! i); [|done].
  destruct (m _) as [r [sh' w']]. apply length_insert.
Qed.

(** Changing one shard and some of its pages on disk. *)
Lemma pool_inv_update L L' D hs hs' f f' pl w w' i sh sh' :
  pages_wf d L → pool_inv L D hs f pl → shards pl !! i = Some sh →
  disk_step d D (λ id, shard_index (length (shards pl)) id = i) w f w' f' →
  shard_inv L' (λ id, shard_index (length (shards pl)) id = i) D (hs' i) None f' sh' →
  (∀ j, j ≠ i → hs' j = hs j) →
  (∀ id, shard_index (length (shards pl)) id ≠ i → L' !! id = L !! id) →
  pool_inv L' D hs' f' {| shards := <[i := sh']> (shards pl) |}.
Proof.
  intros HL [Hk Hsh] Hi (_ & _ & Hdisk) Hinv Hhs HL'. split; simpl; rewrite length_insert; [done|].
  intros j shj Hj. destruct (decide (j = i)) as [->|Hne].
  - rewrite list_lookup_insert_eq in Hj by by eapply lookup_lt_Some. by injection Hj as <-.
  - rewrite list_lookup_insert_ne in Hj by done. rewrite Hhs by done.
    eapply shard_inv_same; [| |by apply Hsh]; [intros id <-; by apply HL'|].
    intros id p Ho Hp Hhas. apply Hdisk; [|congruence|done].
    destruct (HL _ _ Hp) as (Hdata & _). unfold data_page in Hdata. lia.
Qed.

Lemma wp_shard_for {A} id (m : M (Shard * World) A) Q C pl w sh :
  shards pl !! shard_index (length (shards pl)) id = Some sh →
  wp m (λ a s', Q a ({| shards := <[shard_index (length (shards pl)) id := s'.1]> (shards pl) |}, s'.2))
       (λ s', C ({| shards := <[shard_index (length (shards pl)) id := s'.1]> (shards pl) |}, s'.2))
       (sh, w) →
  wp (shard_for id m) Q C (pl, w).
Proof. intros E Hm. exact (wp_on_shard _ _ _ _ _ _ _ E Hm). Qed.

Lemma disk_step_io_step D owned w f w' f' : disk_step d D owned w f w' f' → io_step D w f w' f'.
Proof. by intros (H1 & H2 & _). Qed.

Lemma io_step_trans D w f w1 f1 w2 f2 :
  io_step D w f w1 f1 → io_step D w1 f1 w2 f2 → io_step D w f w2 f2.
Proof.
  intros [[E1 I1] P1] [[E2 I2] P2]. split; [|by eapply pages_written_trans].
  split; [|auto]. by rewrite E2, E1, insert_insert_eq.
Qed.

Lemma io_step_refl D w f : w_files w !! dm_file d = Some f → io_step D w f w f.
Proof. intros. split; [by rewrite insert_id|apply pages_written_refl]. Qed.

Lemma io_step_file D w f w' f' : io_step D w f w' f' → w_files w' !! dm_file d = Some f'.
Proof. intros [[E _] _]. by rewrite E, lookup_insert_eq. Qed.

(** Adding a handle to shard [i]. *)
Definition add_handle (i : nat) (h : PageHandle) hs : nat → list PageHandle :=
  λ j, if decide (j = i) then h :: hs j else hs j.

Lemma wp_pool_fetch_page L D hs f pl w id p :
  pages_wf d L → pool_inv L D hs f pl → w_files w !! dm_file d = Some f → L !! id = Some p →
  (∀ i, few_handles (hs i)) →
  let i := shard_index (length (shards pl)) id in
  wp (pool_fetch_page id d)
    (λ r s', ∃ f', io_step D w f s'.2 f' ∧ length (shards s'.1) = length (shards pl) ∧
       match r with
       | Ok h => handle_page h = id ∧ pool_inv L D (add_handle i h hs) f' s'.1
       | Err e => pool_inv L D hs f' s'.1 ∧ pool_error hs pl w e
       end)
    (pool_crash D w f) (pl, w).
Proof.
  intros HL Hinv Hf Hp Hh i. destruct (pool_inv_shard _ _ _ _ _ id Hinv) as (sh & Hi & Hsh).
  fold i in Hi, Hsh. unfold pool_fetch_page. eapply wp_shard_for; [exact Hi|]. fold i.
  eapply wp_mono; [apply (wp_shard_fetch_page d d_wf _ _ _ _ _ _ _ _ p (pages_wf_fit _ _ HL) Hsh Hf Hp eq_refl (Hh i))| |].
  2:{ intros [sh' w'] [Hio (f' & Hst)]. split; [done|]. exists f'. by eapply disk_step_io_step. }
  intros [h|e] [sh' w'] (f' & Hst & Hlen & Hr); cbn [fst snd shards] in *; exists f';
    (split; [by eapply disk_step_io_step|]); (split; [by rewrite length_insert|]).
  - destruct Hr as (Eh & Hsh'). split; [done|]. eapply pool_inv_update; [done..| | |done].
    + unfold add_handle. by rewrite decide_True.
    + intros j Hj. unfold add_handle. by rewrite decide_False.
  - destruct Hr as [Hsh' He]. split; [by eapply pool_inv_update|].
    destruct He as [|[Hex Hall]]; [by left|]. right. split; [done|]. by exists i, sh.
Qed.

(** A pinned page is one of the pages. *)
Lemma pool_inv_pinned L D hs f pl h :
  pool_inv L D hs f pl → h ∈ hs (shard_index (length (shards pl)) (handle_page h)) →
  is_Some (L !! handle_page h).
Proof.
  intros Hinv Hh. destruct (pool_inv_shard _ _ _ _ _ (handle_page h) Hinv) as (sh & Hi & Hsh).
  destruct (si_cached _ _ _ _ _ _ _ Hsh _ _ (si_hs _ _ _ _ _ _ _ Hsh h Hh)) as (_ & fr & q & _ & Hq & _).
  eauto.
Qed.

(** Looking at a pinned page. *)
Lemma wp_pool_look L D hs f pl w h p (Q : Page → BufferPool * World → Prop) C :
  pages_wf d L → pool_inv L D hs f pl → h ∈ hs (shard_index (length (shards pl)) (handle_page h)) →
  L !! handle_page h = Some p → Q p (pl, w) →
  wp (shard_for (handle_page h) (handle_read h)) Q C (pl, w).
Proof.
  intros HL Hinv Hh Hp HQ. destruct (pool_inv_shard _ _ _ _ _ (handle_page h) Hinv) as (sh & Hi & Hsh).
  eapply wp_shard_for; [exact Hi|]. eapply wp_handle_read; [exact Hsh|done|done|].
  intros q ->%(pages_wf_same _ _ _ _ _ HL Hp). cbn [fst snd].
  rewrite list_insert_id by done. by destruct pl.
Qed.

(** Dropping a handle. *)
Lemma wp_pool_drop L D hs hs' f pl w h (Q : unit → BufferPool * World → Prop) C :
  pages_wf d L → pool_inv L D hs f pl → w_files w !! dm_file d = Some f →
  let i := shard_index (length (shards pl)) (handle_page h) in
  hs i = h :: hs' i → (∀ j, j ≠ i → hs' j = hs j) → few_handles (hs' i) →
  (∀ pl', length (shards pl') = length (shards pl) → pool_inv L D hs' f pl' → Q tt (pl', w)) →
  wp (shard_for (handle_page h) (handle_drop h)) Q C (pl, w).
Proof.
  intros HL Hinv Hf i Ehs Hne Hfew HQ.
  destruct (pool_inv_shard _ _ _ _ _ (handle_page h) Hinv) as (sh & Hi & Hsh). fold i in Hi, Hsh.
  rewrite Ehs in Hsh. eapply wp_shard_for; [exact Hi|]. fold i. unfold handle_drop.
  eapply wp_unpin; [exact Hsh|done|]. intros st' _ Hs2. cbn [fst snd].
  apply HQ; [apply length_insert|].
  eapply (pool_inv_update L L D _ hs' f f pl w w i sh); [done|exact Hinv|done| |exact Hs2|done|done].
  by apply disk_step_refl.
Qed.

(** Looking at a page through the cache. *)
Lemma wp_pool_read L D hs f pl w id p :
  pages_wf d L → pool_inv L D hs f pl → w_files w !! dm_file d = Some f → L !! id = Some p →
  (∀ i, few_handles (hs i)) →
  wp (pool_read id d)
    (λ r s', ∃ f', io_step D w f s'.2 f' ∧ pool_inv L D hs f' s'.1 ∧
       length (shards s'.1) = length (shards pl) ∧
       match r with Ok p' => p' = p | Err e => pool_error hs pl w e end)
    (pool_crash D w f) (pl, w).
Proof.
  intros HL Hinv Hf Hp Hh. set (i := shard_index (length (shards pl)) id) in *.
  unfold pool_read. wp_step. eapply wp_mono; [by apply (wp_pool_fetch_page L D hs f pl w id p)| |done].
  intros [h|e] [pl1 w1] (f1 & Hst1 & Hlen1 & Hr); cbn [fst snd shards] in *.
  2:{ exists f1. split; [done|]. by destruct Hr. }
  destruct Hr as (<- & Hinv1). fold i in Hinv1. wp_step.
  assert (shard_index (length (shards pl1)) (handle_page h) = i) as Ei by by rewrite Hlen1.
  eapply (wp_pool_look _ _ _ _ _ _ _ _ _ _ HL Hinv1); [|done|].
  { rewrite Ei. unfold add_handle. rewrite decide_True by done. constructor. }
  wp_step. eapply (wp_pool_drop L D _ hs); [done|exact Hinv1| | | |apply Hh|].
  - by eapply io_step_file.
  - rewrite Ei. unfold add_handle. by rewrite decide_True.
  - rewrite Ei. intros j Hj. unfold add_handle. by rewrite decide_False.
  - intros pl2 Hlen2 Hinv2. wp_step. exists f1. split; [done|]. split; [done|]. split; [cbn [fst snd]; congruence|done].
Qed.

Lemma wp_pool_install_page L D hs f pl w id p h :
  pages_wf d L → pool_inv L D hs f pl → w_files w !! dm_file d = Some f →
  page_wf p → verify id p = Ok h → D id → (∀ i, few_handles (hs i)) →
  wp (pool_install_page id p d)
    (λ r s', ∃ f', io_step D w f s'.2 f' ∧
       match r with
       | Ok _ => pool_inv (<[id := p]> L) D hs f' s'.1
       | Err e => pool_inv L D hs f' s'.1 ∧ pool_error hs pl w e
       end)
    (pool_crash D w f) (pl, w).
Proof.
  intros HL Hinv Hf Hp Hv HD Hh. destruct (pool_inv_shard _ _ _ _ _ id Hinv) as (sh & Hi & Hsh).
  set (i := shard_index (length (shards pl)) id) in *.
  unfold pool_install_page. rewrite (verify_ok_id _ _ _ Hp Hv), Z.eqb_refl. simpl negb. cbv iota.
  eapply wp_shard_for; [exact Hi|]. fold i.
  eapply wp_mono; [apply (wp_shard_install_page d d_wf _ _ _ _ _ _ _ id p (pages_wf_fit _ _ HL) Hsh Hf HD eq_refl (Hh i))| |].
  2:{ intros [sh' w'] [Hio (f' & Hst)]. split; [done|]. exists f'. by eapply disk_step_io_step. }
  intros [[]|e] [sh' w'] (f' & Hst & Hlen & Hr); cbn [fst snd shards] in *; exists f';
    (split; [by eapply disk_step_io_step|]).
  - eapply pool_inv_update; [done..|]. intros id' Hne. rewrite lookup_insert_ne; [done|].
    by intros ->.
  - destruct Hr as [Hsh' He]. split; [by eapply pool_inv_update|].
    destruct He as [|[Hex Hall]]; [by left|]. right. split; [done|]. by exists i, sh.
Qed.

(** A file that is as good as [f] for every page. *)
Lemma pool_inv_disk L D hs f f' pl :
  (∀ id p, L !! id = Some p → stored f id p → stored f' id p) →
  pool_inv L D hs f pl → pool_inv L D hs f' pl.
Proof.
  intros Hd [Hk Hsh]. split; [done|]. intros i sh Hi. eapply shard_inv_disk; [|by apply Hsh]. eauto.
Qed.

(** Once every shard is clean the file alone holds every page. *)
Lemma pool_clean_disk L D hs f pl :
  pool_inv L D hs f pl → (∀ i sh, shards pl !! i = Some sh → shard_clean sh) →
  ∀ id p, L !! id = Some p → stored f id p.
Proof.
  intros Hinv Hclean id p Hp. destruct (pool_inv_shard _ _ _ _ _ id Hinv) as (sh & Hi & Hsh).
  destruct (page_table (shard_state sh) !! id) as [fi|] eqn:Hid; [|by eapply si_disk].
  destruct (si_cached _ _ _ _ _ _ _ Hsh _ _ Hid) as (_ & fr & p' & Hfr & Hp' & _ & Hd).
  assert (p' = p) as -> by congruence.
  by rewrite (Hclean _ _ Hi id fi fr Hid Hfr) in Hd.
Qed.

(** [D] only matters for the pages that are dirty. *)
Lemma pool_inv_dirty L D D' hs f pl :
  pool_inv L D hs f pl →
  (∀ i sh id fi fr, shards pl !! i = Some sh → page_table (shard_state sh) !! id = Some fi →
     shard_frames sh !! fi = Some fr → frame_dirty fr = true →
     shard_index (length (shards pl)) id = i → D id → D' id) →
  pool_inv L D' hs f pl.
Proof.
  intros [Hk Hsh] HD. split; [done|]. intros i sh Hi.
  destruct (Hsh _ _ Hi) as [H1 H2 H3 H4 H5 H6 H7 H8 H9]. split; try done.
  intros id fi Hid. destruct (H8 id fi Hid) as (Ho & fr & p & Hfr & Hp & Epage & Hd).
  split; [done|]. exists fr, p. split; [done|]. split; [done|]. split; [done|].
  destruct (frame_dirty fr) eqn:Ed; [by eapply HD|done].
Qed.

Lemma pool_inv_clean L D D' hs f pl :
  pool_inv L D hs f pl → (∀ i sh, shards pl !! i = Some sh → shard_clean sh) →
  pool_inv L D' hs f pl.
Proof.
  intros Hinv Hclean. eapply pool_inv_dirty; [done|]. intros i sh id fi fr Hi Hid Hfr Hd.
  by rewrite (Hclean _ _ Hi _ _ _ Hid Hfr) in Hd.
Qed.

Lemma pool_inv_mono L D D' hs f pl :
  (∀ id, D id → D' id) → pool_inv L D hs f pl → pool_inv L D' hs f pl.
Proof. intros HD Hinv. eapply pool_inv_dirty; eauto. Qed.

(** With nothing left to write back the file holds every page. *)
Lemma pool_inv_nothing_dirty L hs f pl :
  pool_inv L (λ _, False) hs f pl → ∀ id p, L !! id = Some p → stored f id p.
Proof.
  intros Hinv. eapply pool_clean_disk; [done|]. intros i sh Hi id fi fr Hid Hfr.
  destruct (si_cached _ _ _ _ _ _ _ (pi_shard _ _ _ _ _ Hinv _ _ Hi) _ _ Hid)
    as (_ & fr' & p & Hfr' & _ & _ & Hd). assert (fr' = fr) as -> by congruence. by destruct (frame_dirty fr).
Qed.

Lemma pool_inv_handles L D hs hs' f pl :
  (∀ i, hs i ≡ₚ hs' i) → pool_inv L D hs f pl → pool_inv L D hs' f pl.
Proof. intros Hp [Hk Hsh]. split; [done|]. intros i sh Hi. eapply shard_inv_handles; [apply Hp|auto]. Qed.

Lemma wp_flush_all L D hs f pl w :
  pages_wf d L → pool_inv L D hs f pl → w_files w !! dm_file d = Some f →
  (∀ i, few_handles (hs i)) →
  wp (flush_all d)
    (λ r s', ∃ f',
       match r with
       | Ok _ => files_to (<[dm_file d := file_sync f']> (w_files w)) w s'.2 ∧
                 pages_written D f f' ∧ (∀ D', pool_inv L D' hs (file_sync f') s'.1) ∧
                 ∀ id p, L !! id = Some p → disk_has (file_sync f') id p
       | Err _ => ¬ io_ok w ∧ io_step D w f s'.2 f' ∧ pool_inv L D hs f' s'.1
       end)
    (pool_crash D w f) (pl, w).
Proof.
  intros HL Hinv Hf Hh. unfold flush_all. wp_step. wp_step. cbn [fst snd]. wp_step.
  eapply (wp_for_each _ (λ xs s, ∃ f', io_step D w f s.2 f' ∧ pool_inv L D hs f' s.1 ∧
    length (shards s.1) = length (shards pl) ∧ (∀ i, i ∈ xs → i < length (shards pl)) ∧
    ∀ i sh, shards s.1 !! i = Some sh → i ∉ xs → shard_clean sh)).
  - exists f. split; [by apply io_step_refl|]. split; [done|]. split; [done|].
    split; [intros i Hi%elem_of_seq; lia|]. intros i sh Hi Hn. destruct Hn. apply elem_of_seq. apply lookup_lt_Some in Hi. simpl in Hi. lia.
  - intros i xs [pl1 w1] (f1 & Hst1 & Hinv1 & Hlen1 & Hlt1 & Hc1). cbn [fst snd] in *.
    destruct (lookup_lt_is_Some_2 (shards pl1) i) as [sh Hi];
      [rewrite Hlen1; apply Hlt1; constructor|].
    eapply wp_on_shard; [exact Hi|].
    eapply wp_mono; [eapply (wp_flush_cached d d_wf _ _ _ _ _ _ _ (pages_wf_fit _ _ HL) (pi_shard _ _ _ _ _ Hinv1 _ _ Hi));
      [by eapply io_step_file|apply Hh]| |].
    2:{ intros [sh' w'] [Hio (f' & Hst)]. destruct Hst1 as [[? I1] ?]. split; [auto|]. exists f'.
        eapply io_step_trans; [by split|]. by eapply disk_step_io_step. }
    intros r [sh' w'] (f' & Hst & Hsh & Hlen & Hr). cbn [fst snd] in *.
    assert (io_step D w f w' f') as Hst'
      by (eapply io_step_trans; [done|]; by eapply disk_step_io_step).
    assert (pool_inv L D hs f' {| shards := <[i := sh']> (shards pl1) |}) as Hinv'
      by by eapply pool_inv_update.
    destruct r as [[]|e].
    + exists f'. split; [done|]. split; [done|]. cbn [shards]. split; [by rewrite length_insert|].
      split; [intros j Hj; apply Hlt1; by constructor|]. intros j shj Hj Hn. destruct (decide (j = i)) as [->|Hne].
      * rewrite list_lookup_insert_eq in Hj by by eapply lookup_lt_Some. by injection Hj as <-.
      * rewrite list_lookup_insert_ne in Hj by done. eapply Hc1; [done|].
        by intros [|]%elem_of_cons.
    + exists f'. split; [|done]. destruct Hst1 as [[_ I1] _]. auto.
  - intros [pl1 w1] (f1 & Hst1 & Hinv1 & Hlen1 & _ & Hc1). cbn [fst snd] in *.
    case_decide as Hz.
    { destruct (pi_count _ _ _ _ _ Hinv) as [k Hk]. rewrite Hk in Hz.
      assert (2 ^ k ≠ 0) by (apply Nat.pow_nonzero; lia). done. }
    wp_step. unfold disk_sync. cbn [snd].
    eapply wp_sync_all; [by eapply io_step_file| |].
    + intros w2 [E2 I2]. destruct Hst1 as [[E1 I1] P1]. rewrite E1, insert_insert_eq in E2.
      exists f1. split; [split; [exact E2|auto]|]. split; [done|].
      assert (∀ i sh, shards pl1 !! i = Some sh → shard_clean sh) as Hclean
        by (intros i sh Hi; eapply Hc1; [done|by intros ?%not_elem_of_nil]).
      pose proof (pool_clean_disk _ _ _ _ _ Hinv1 Hclean) as Hd.
      split; [|intros id p Hp; apply (pages_wf_stored _ _ _ _ _ HL Hp); by apply Hd].
      intros D'. apply (pool_inv_disk L D' hs f1); [done|]. by eapply pool_inv_clean.
    + intros Hio w2 [E2 I2]. destruct Hst1 as [[E1 I1] P1].
      assert (io_step D w f w2 f1) as Hst2 by (split; [split; [congruence|auto]|done]).
      split; [split; [auto|]; by exists f1|]. intros code. exists f1. split; [auto|done].
Qed.

(** One turn of the loops of [flush_all]: the list of a shard's pages, and
    the write-back of one of them. *)
Lemma pool_inv_list_keys L D hs f pl i sh :
  pool_inv L D hs f pl → shards pl !! i = Some sh →
  pool_inv L (λ id, D id ∧ (shard_index (length (shards pl)) id = i →
                            id ∈ hash_keys (page_table (shard_state sh)))) hs f pl.
Proof.
  intros Hinv Hi. eapply pool_inv_dirty; [done|]. intros j shj id fi fr Hj Hid Hfr Hd Ho HD.
  split; [done|]. intros <-. simplify_eq. rewrite hash_keys_perm. apply list_elem_of_fmap.
  exists (id, fi). split; [done|]. by apply elem_of_map_to_list.
Qed.

Lemma wp_flush_one L D hs f pl w i id :
  pages_wf d L → pool_inv L D hs f pl → w_files w !! dm_file d = Some f →
  i < length (shards pl) → (∀ i, few_handles (hs i)) →
  wp (on_shard i (shard_flush_page id d))
    (λ r s', ∃ f', io_step D w f s'.2 f' ∧ length (shards s'.1) = length (shards pl) ∧
       match r with
       | Ok _ => pool_inv L (λ id', D id' ∧ (shard_index (length (shards pl)) id' = i → id' ≠ id))
                   hs f' s'.1
       | Err _ => ¬ io_ok w ∧ pool_inv L D hs f' s'.1
       end)
    (pool_crash D w f) (pl, w).
Proof.
  intros HL Hinv Hf Hlt Hh. destruct (lookup_lt_is_Some_2 _ _ Hlt) as [sh Hi].
  eapply wp_on_shard; [exact Hi|].
  eapply wp_mono; [apply (wp_shard_flush_page d d_wf _ _ _ _ _ _ _ id (pages_wf_fit _ _ HL)
    (pi_shard _ _ _ _ _ Hinv _ _ Hi) Hf (Hh i))| |].
  2:{ intros [sh' w'] [Hio (f' & Hst)]. split; [done|]. exists f'. by eapply disk_step_io_step. }
  intros r [sh' w'] (f' & Hst & Hsh & _ & _ & _ & Hr). cbn [fst snd shards] in *. exists f'.
  split; [by eapply disk_step_io_step|]. split; [by rewrite length_insert|].
  assert (pool_inv L D hs f' {| shards := <[i := sh']> (shards pl) |}) as Hinv'
    by by eapply pool_inv_update.
  destruct r as [[]|e]; [|done]. eapply pool_inv_dirty; [done|]. cbn [shards]. rewrite length_insert.
  intros j shj id' fi fr Hj Hid Hfr Hd Ho HD. split; [done|]. intros Ei ->. assert (j = i) as -> by congruence.
  rewrite list_lookup_insert_eq in Hj by done. injection Hj as <-.
  by rewrite (Hr _ _ Hid Hfr) in Hd.
Qed.

End PoolSpecs.

(** ** A new pool *)

Section NewPool.
Context `{Cpu} `{HashOrder}.
Implicit Types (L : gmap PageId Page) (D : PageId → Prop).

Lemma shard_new_inv L owned D f cap :
  0 < cap → (∀ id p, L !! id = Some p → stored f id p) →
  shard_inv L owned D [] None f (shard_new cap).
Proof.
  intros Hcap Hd. split; simpl; try done.
  - split; simpl; rewrite ?length_replicate; done.
  - intros id i. rewrite lookup_empty, lookup_replicate. naive_solver.
  - rewrite reverse_Permutation. apply NoDup_seq.
  - intros i. rewrite elem_of_reverse, elem_of_seq, lookup_replicate. naive_solver lia.
  - intros i n [-> _]%lookup_replicate. done.
  - by intros i ?%not_elem_of_nil.
  - intros id p Hp _ _. by apply Hd.
Qed.

Lemma shard_count_pow cap : ∃ k, shard_count_for cap = 2 ^ k ∧ k ≤ 6.
Proof.
  unfold shard_count_for, MAX_SHARDS. set (m := Nat.min _ 64). exists (Nat.log2 m). split; [done|].
  assert (m ≤ 64) by lia. etrans; [by apply Nat.log2_le_mono|]. by vm_compute.
Qed.

Lemma shard_count_le cap : 0 < cap → 0 < shard_count_for cap ≤ cap.
Proof.
  intros Hcap. unfold shard_count_for, TARGET_SHARD_FRAMES, MAX_SHARDS.
  set (m := Nat.min (Nat.max (cap / 64) 1) 64).
  assert (0 < m ≤ cap) as Hm.
  { assert (cap / 64 ≤ cap) by (apply Nat.Div0.div_le_upper_bound; lia). unfold m. lia. }
  pose proof (Nat.log2_spec m ltac:(lia)). assert (2 ^ Nat.log2 m ≠ 0) by (apply Nat.pow_nonzero; lia).
  lia.
Qed.

(** Spreading a remainder over the first shards. *)
Lemma sum_spread n q r :
  sum_list ((λ i, q + (if decide (i < r) then 1 else 0)) <$> seq 0 n) = n * q + Nat.min r n.
Proof.
  induction n as [|n IH]; [simpl; lia|].
  rewrite seq_S, fmap_app, sum_list_with_app, IH. simpl. case_decide; lia.
Qed.

(** The shards of a new pool. *)
Definition new_shards (cap : nat) : list Shard :=
  (λ i, shard_new (cap / shard_count_for cap +
                   (if decide (i < cap mod shard_count_for cap) then 1 else 0)))
    <$> seq 0 (shard_count_for cap).

Lemma pool_new_eq cap : 0 < cap → pool_new cap = Ok {| shards := new_shards cap |}.
Proof. intros. unfold pool_new. by rewrite decide_False by lia. Qed.

Lemma pool_new_inv L D f cap :
  0 < cap → (∀ id p, L !! id = Some p → stored f id p) →
  pool_inv L D (λ _, []) f {| shards := new_shards cap |}.
Proof.
  intros Hcap Hd. pose proof (shard_count_le cap Hcap) as Hsc. split; simpl.
  - unfold new_shards. rewrite length_fmap, length_seq.
    destruct (shard_count_pow cap) as (k & Hk & _). eauto.
  - intros i sh (j & -> & _)%list_lookup_fmap_Some. apply shard_new_inv; [|done].
    assert (1 ≤ cap / shard_count_for cap) by (apply Nat.div_le_lower_bound; lia). lia.
Qed.

End NewPool.

(** ** Properties *)

Section Properties.
Context `{Cpu} `{HashOrder}.
Implicit Types (L : gmap PageId Page) (D : PageId → Prop) (hs : nat → list PageHandle).

(** A new pool has exactly the frames asked for, spread over a power of
    two of at most 64 shards, none of them empty; every page id maps to one of
    the shards, and the pool shows the file's pages.  A capacity of zero is
    refused. *)
Theorem pool_new_shape L D (f : file) (cap : nat) :
  (∀ id p, L !! id = Some p → stored f id p) →
  (is_err (pool_new cap) = true ↔ cap = 0) ∧
  ∀ pl, pool_new cap = Ok pl →
    pool_capacity pl = cap ∧
    (∃ k, length (shards pl) = 2 ^ k ∧ k ≤ 6) ∧
    (∀ sh, sh ∈ shards pl → 0 < length (shard_frames sh)) ∧
    (∀ id, shard_index (length (shards pl)) id < length (shards pl)) ∧
    pool_inv L D (λ _, []) f pl.
Proof.
  intros Hd. split.
  { unfold pool_new. by case_decide. }
  intros pl E. assert (0 < cap) as Hcap by (unfold pool_new in E; case_decide; [done|lia]).
  rewrite pool_new_eq in E by done. injection E as <-.
  pose proof (pool_new_inv L D f cap Hcap Hd) as Hinv.
  destruct (shard_count_pow cap) as (k & Hk & Hk6). pose proof (shard_count_le cap Hcap) as Hsc.
  assert (length (new_shards cap) = 2 ^ k) as Hlen
    by (unfold new_shards; by rewrite length_fmap, length_seq).
  split_and!.
  - unfold pool_capacity, new_shards. simpl. rewrite <- list_fmap_compose.
    rewrite (list_fmap_ext _ (λ i, cap / shard_count_for cap +
      (if decide (i < cap mod shard_count_for cap) then 1 else 0))).
    2:{ intros i x _. simpl. by rewrite length_replicate. }
    rewrite sum_spread. pose proof (Nat.mod_upper_bound cap (shard_count_for cap) ltac:(lia)).
    rewrite Nat.min_l by lia. symmetry. apply Nat.div_mod. lia.
  - eauto.
  - intros sh [i Hi]%list_elem_of_lookup_1.
    exact (Nat.le_lt_trans _ _ _ (Nat.le_0_l _)
      (clock_hand_lt _ _ (si_clock _ _ _ _ _ _ _ (pi_shard _ _ _ _ _ Hinv _ _ Hi)))).
  - intros id. by eapply shard_index_lt.
  - done.
Qed.

(** Reads are coherent: whatever is cached, dirty, evicted or pinned by
    others, reading a page through the pool never panics and never returns
    anything but the page's current contents; without I/O errors it fails only
    if a shard has every frame pinned; it changes the contents of no page and
    writes only dirty pages to the file. *)
Theorem pool_read_coherent L D hs (f : file) (pl pl' : BufferPool) (d : DiskManager)
    (w w' : World) (id : PageId) (p : Page) (r : exec (Result Page)) :
  disk_wf d → pages_wf d L → pool_inv L D hs f pl → w_files w !! dm_file d = Some f →
  L !! id = Some p → (∀ i, few_handles (hs i)) →
  pool_read id d (pl, w) = (r, (pl', w')) →
  r ≠ Panicked ∧ (∀ p', r = Done (Ok p') → p' = p) ∧
  (io_ok w → ¬ exhausted hs pl → r = Done (Ok p)) ∧
  ∃ f', w_files w' = <[dm_file d := f']> (w_files w) ∧ pages_written D f f' ∧
        (r ≠ Crashed → pool_inv L D hs f' pl').
Proof.
  intros Hd HL Hinv Hf Hp Hh E. pose proof (wp_pool_read d Hd L D hs f pl w id p HL Hinv Hf Hp Hh) as Hw.
  unfold wp in Hw. rewrite E in Hw. destruct r as [[p'|e]| |]; [..|done|].
  - destruct Hw as (f' & [[Ew _] Hpw] & Hinv' & _ & ->). split_and!; naive_solver.
  - destruct Hw as (f' & [[Ew _] Hpw] & Hinv' & _ & He). split; [done|]. split; [done|]. split.
    + intros Hio Hex. by destruct He as [|[_ ?]].
    + exists f'. by split_and!.
  - destruct Hw as [Hio (f' & [[Ew _] Hpw])]. split; [done|]. split; [done|]. split; [done|].
    exists f'. by split_and!.
Qed.

(** Installing a page replaces exactly that page: afterwards the pool
    represents the map with the new page, and after a failure the map as it
    was; the file sees only writes of dirty pages. *)
Theorem pool_install_coherent L D hs (f : file) (pl pl' : BufferPool) (d : DiskManager)
    (w w' : World) (id : PageId) (p : Page) (h : PageHeader) (r : exec (Result unit)) :
  disk_wf d → pages_wf d L → pool_inv L D hs f pl → w_files w !! dm_file d = Some f →
  page_wf p → verify id p = Ok h → D id → (∀ i, few_handles (hs i)) →
  pool_install_page id p d (pl, w) = (r, (pl', w')) →
  r ≠ Panicked ∧ (io_ok w → ¬ exhausted hs pl → r = Done (Ok tt)) ∧
  ∃ f', w_files w' = <[dm_file d := f']> (w_files w) ∧ pages_written D f f' ∧
        (r = Done (Ok tt) → pool_inv (<[id := p]> L) D hs f' pl') ∧
        (∀ e, r = Done (Err e) → pool_inv L D hs f' pl').
Proof.
  intros Hd HL Hinv Hf Hp Hv HD Hh E.
  pose proof (wp_pool_install_page d Hd L D hs f pl w id p h HL Hinv Hf Hp Hv HD Hh) as Hw.
  unfold wp in Hw. rewrite E in Hw. destruct r as [[[]|e]| |]; [..|done|].
  - destruct Hw as (f' & [[Ew _] Hpw] & Hinv'). split; [done|]. split; [done|]. exists f'. by split_and!.
  - destruct Hw as (f' & [[Ew _] Hpw] & Hinv' & He). split; [done|]. split.
    + intros Hio Hex. by destruct He as [|[_ ?]].
    + exists f'. by split_and!.
  - destruct Hw as [Hio (f' & [[Ew _] Hpw])]. split; [done|]. split; [done|]. exists f'. by split_and!.
Qed.

(** Flushing makes everything durable: when [flush_all] returns [Ok],
    every page of the map is in the file exactly as it is in memory, and no
    crash can take it away; a failure is reported only if the operating system
    reported one. *)
Theorem flush_all_durable L D hs (f : file) (pl pl' : BufferPool) (d : DiskManager)
    (w w' : World) (r : exec (Result unit)) :
  disk_wf d → pages_wf d L → pool_inv L D hs f pl → w_files w !! dm_file d = Some f →
  (∀ i, few_handles (hs i)) → flush_all d (pl, w) = (r, (pl', w')) →
  r ≠ Panicked ∧ (io_ok w → r = Done (Ok tt)) ∧
  (r = Done (Ok tt) → ∃ f', w_files w' = <[dm_file d := f']> (w_files w) ∧
     pool_inv L D hs f' pl' ∧
     ∀ b, crash_content f' b → ∀ id p, L !! id = Some p → has_page b id ∧ page_of b id = p).
Proof.
  intros Hd HL Hinv Hf Hh E. pose proof (wp_flush_all d Hd L D hs f pl w HL Hinv Hf Hh) as Hw.
  unfold wp in Hw. rewrite E in Hw. destruct r as [[[]|e]| |]; [..|done|].
  - split; [done|]. split; [done|]. intros _. destruct Hw as (f' & [Ew _] & _ & Hinv' & Hdisk).
    exists (file_sync f'). split; [done|]. split; [apply Hinv'|]. intros b Hb id p Hp.
    apply crash_content_clean in Hb as ->; [|done]. by apply Hdisk.
  - destruct Hw as (f' & Hio & _). by split_and!.
  - destruct Hw as [Hio _]. by split_and!.
Qed.

End Properties.

(** ** Witnesses *)

Module PoolWitness.
Import PageWitness DiskWitness.

Definition order : HashOrder :=
  {| hash_keys m := (map_to_list m).*1; hash_keys_perm m := Permutation_refl _ |}.

(** The database of [DiskWitness]: page 1 is in the file; page 2 belongs to
    the database but was never written. *)
Definition pages : gmap PageId Page := {[ 1%Z := sealed_page 1 ]}.
Definition the_file : file := file_at_rest contents.
Definition pool : BufferPool := {| shards := new_shards 4 |}.
Definition page2 : Page := @seal cpu (page_new 2 Heap).

Lemma disk_ok : disk_wf disk.
Proof. unfold disk_wf. simpl. lia. Qed.

Lemma page1_verifies :
  @verify cpu 1 (sealed_page 1) = Ok {| page_type := Heap; header_page_id := 1; lsn := 77 |}.
Proof. vm_compute. reflexivity. Qed.

Lemma page2_verifies :
  @verify cpu 2 page2 = Ok {| page_type := Heap; header_page_id := 2; lsn := 0 |}.
Proof. vm_compute. reflexivity. Qed.

Lemma page2_wf : page_wf page2.
Proof. apply seal_wf, page_new_wf. Qed.

Lemma pages_ok : @pages_wf cpu disk pages.
Proof.
  apply map_Forall_singleton. split; [unfold data_page; simpl; lia|].
  split; [apply sealed_page_wf|]. eexists. apply page1_verifies.
Qed.

Lemma page1_bytes : page_of contents 1 = sealed_page 1.
Proof. vm_compute. reflexivity. Qed.

Lemma pages_on_disk id p : pages !! id = Some p → disk_has the_file id p.
Proof.
  unfold pages. intros [<- <-]%lookup_singleton_Some. split; [|apply page1_bytes].
  unfold has_page. simpl f_cur. rewrite length_contents. simpl. lia.
Qed.

Lemma pages_stored id p : pages !! id = Some p → @stored cpu the_file id p.
Proof. intros Hp. by apply (pages_wf_stored _ _ _ _ _ pages_ok Hp), pages_on_disk. Qed.

Lemma pool_ok : @pool_inv cpu pages (λ id, id = 2%Z) (λ _, []) the_file pool.
Proof. apply pool_new_inv; [lia|apply pages_stored]. Qed.

Lemma handles_ok (i : nat) : few_handles [].
Proof. unfold few_handles. simpl. lia. Qed.
End PoolWitness.

Lemma pool_new_shape_witness :
  ∃ pl, pool_new 130 = Ok pl ∧ pool_capacity pl = 130.
Proof.
  eexists. split; [apply pool_new_eq; lia|].
  exact (proj1 (proj2 (pool_new_shape PoolWitness.pages (λ _, True)
    PoolWitness.the_file 130 PoolWitness.pages_stored) _ (pool_new_eq 130 ltac:(lia)))).
Defined.

Lemma pool_read_coherent_witness :
  (@pool_read PageWitness.cpu 1 DiskWitness.disk (PoolWitness.pool, DiskWitness.world)).1 =
  Done (Ok (PageWitness.sealed_page 1)).
Proof.
  destruct (@pool_read PageWitness.cpu 1 DiskWitness.disk (PoolWitness.pool, DiskWitness.world))
    as [r [pl' w']] eqn:E.
  refine (proj1 (proj2 (proj2 (@pool_read_coherent PageWitness.cpu PoolWitness.pages _ _ _ _ _ _ _ _ 1
    (PageWitness.sealed_page 1) r PoolWitness.disk_ok PoolWitness.pages_ok PoolWitness.pool_ok
    DiskWitness.world_file (lookup_singleton_eq _ _) PoolWitness.handles_ok E)))
    DiskWitness.world_ok _).
  intros (i & sh & Hi & Hall).
  pose proof (clock_hand_lt _ _ (si_clock _ _ _ _ _ _ _ (pi_shard _ _ _ _ _ PoolWitness.pool_ok _ _ Hi))) as Hlt.
  exact (not_elem_of_nil _ (Hall _ Hlt)).
Defined.

Lemma pool_install_coherent_witness :
  (@pool_install_page PageWitness.cpu 2 PoolWitness.page2 DiskWitness.disk
    (PoolWitness.pool, DiskWitness.world)).1 ≠ Panicked.
Proof.
  destruct (@pool_install_page PageWitness.cpu 2 PoolWitness.page2 DiskWitness.disk
    (PoolWitness.pool, DiskWitness.world)) as [r [pl' w']] eqn:E.
  exact (proj1 (@pool_install_coherent PageWitness.cpu PoolWitness.pages _ _ _ _ _ _ _ _ 2
    PoolWitness.page2 _ r PoolWitness.disk_ok PoolWitness.pages_ok PoolWitness.pool_ok
    DiskWitness.world_file PoolWitness.page2_wf PoolWitness.page2_verifies eq_refl
    PoolWitness.handles_ok E)).
Defined.

Lemma flush_all_durable_witness :
  (@flush_all PageWitness.cpu PoolWitness.order DiskWitness.disk
    (PoolWitness.pool, DiskWitness.world)).1 = Done (Ok tt).
Proof.
  destruct (@flush_all PageWitness.cpu PoolWitness.order DiskWitness.disk
    (PoolWitness.pool, DiskWitness.world)) as [r [pl' w']] eqn:E.
  exact (proj1 (proj2 (@flush_all_durable PageWitness.cpu PoolWitness.order PoolWitness.pages _ _ _ _ _ _ _ _ r
    PoolWitness.disk_ok PoolWitness.pages_ok PoolWitness.pool_ok
    DiskWitness.world_file PoolWitness.handles_ok E)) DiskWitness.world_ok).
Defined.
