(* ===== verification/PoolThreads.v ===== *)
(** * Threads in the buffer pool (src/crates/oxendb/src/storage/buffer_pool.rs)

    [BufferPool] has every method as one call.  Here the pool is used by many
    threads, with the locks of the source as part of the state: the mutex
    [state] of each shard and the read-write lock of each frame.  The methods
    are cut at every lock operation and around every access to the disk, and
    [pstep] is what a thread does between two such points.  [PoolSim] proves
    the locking discipline that the comments of the source describe. *)

From stdpp Require Import gmultiset.
From S2P Require Import Prelude Errors Checksum Page FileHeader FileSys Disk BufferPool PoolCache.

#[global] Instance page_handle_eq_dec : EqDecision PageHandle.
Proof. solve_decision. Defined.

(** A list without one occurrence of [x], if there is one. *)
Fixpoint remove_one {A} `{EqDecision A} (x : A) (l : list A) : option (list A) :=
  match l with
  | [] => None
  | y :: l => if decide (x = y) then Some l else cons y <$> remove_one x l
  end.

Lemma remove_one_Some {A} `{EqDecision A} (x : A) l k : remove_one x l = Some k → l ≡ₚ x :: k.
Proof.
  revert k. induction l as [|y l IH]; intros k; simpl; [done|]. case_decide as E.
  - by intros [= <-]; subst.
  - intros (k' & Ek & ->)%fmap_Some. rewrite (IH _ Ek). constructor.
Qed.

(** ** The pieces of the methods

    What a thread does to a shard between two lock operations. *)

(** What [acquire_frame] and its callers find under [state]: the page, a free
    frame, a victim and the page it holds, or no frame at all and the error. *)
Inductive found : Type :=
  | Hit (h : PageHandle)
  | FreeFrame (v : FrameId)
  | Victim (v : FrameId) (old : PageId)
  | Full (e : Error).

Section Pieces.
Context `{Cpu} `{HashOrder}.

Abbreviation SW := (Shard * World)%type.

(** [fetch_page] and [install_page] from [lock_state] up to the next lock. *)
Definition look_up (id : PageId) : M SW found :=
  let! cached := with_state (gets (λ s, page_table s !! id)) in
  match cached with
  | Some v =>
      let! _ := with_state (pin v) in
      let! _ := with_state (set_ref_bit v true) in
      ret (Hit {| handle_frame := v; handle_page := id |})
  | None =>
      let! popped := with_state pop_free in
      match popped with
      | Some v => ret (FreeFrame v)
      | None =>
          let! victim := with_state find_victim in
          match victim with
          | None =>
              let! n := gets (λ s, length (shard_frames s.1)) in
              ret (Full (ResourceExhausted ("all " +:+ pretty n +:+
                     " frames in a buffer pool shard are pinned")))
          | Some v =>
              let! old := with_state (index frame_pages v) in
              match old with
              | None => panic
              | Some old => ret (Victim v old)
              end
          end
      end
  end.

(** [flush_page] under [state]. *)
Definition pin_cached (id : PageId) : M SW (option PageHandle) :=
  let! cached := with_state (gets (λ s, page_table s !! id)) in
  match cached with
  | Some v =>
      let! _ := with_state (pin v) in
      ret (Some {| handle_frame := v; handle_page := id |})
  | None => ret None
  end.

(** [write_back] with the frame locked: the system call, which seals the page
    in place, and then the flag. *)
Definition write_back_io (v : FrameId) (id : PageId) (d : DiskManager) : M SW (Result unit) :=
  let! frame := read_frame v in
  if frame_dirty frame then
    let! '(r, page) := with_disk (write_page id (frame_page frame) d) in
    let! _ := write_frame v {| frame_page := page; frame_dirty := true |} in
    ret r
  else ret (Ok tt).

Definition clear_dirty (v : FrameId) : M SW unit :=
  let! frame := read_frame v in
  write_frame v {| frame_page := frame_page frame; frame_dirty := false |}.

(** [acquire_frame] after the write-back. *)
Definition unmap (v : FrameId) (old : PageId) : M SW unit :=
  let! _ := with_state (table_remove old) in
  with_state (set_frame_page v None).

(** [fetch_page]: the read of a missing page. *)
Definition read_missing (id : PageId) (v : FrameId) (d : DiskManager) : M SW (Result Page) :=
  let! r := with_disk (read_page id d) in
  match r with
  | Err err =>
      let! _ := with_state (push_free v) in
      ret (Err err)
  | Ok page => ret (Ok page)
  end.

(** The ends of [fetch_page] and [install_page] after a miss. *)
Definition fill_fetched (id : PageId) (v : FrameId) (page : Page) : M SW unit :=
  let! _ := write_frame v {| frame_page := page; frame_dirty := false |} in
  let! _ := with_state (table_insert id v) in
  let! _ := with_state (set_frame_page v (Some id)) in
  let! _ := with_state (set_pin_count v 1) in
  with_state (set_ref_bit v true).

Definition fill_installed (id : PageId) (v : FrameId) (page : Page) : M SW unit :=
  let! _ := write_frame v {| frame_page := page; frame_dirty := true |} in
  let! _ := with_state (table_insert id v) in
  let! _ := with_state (set_frame_page v (Some id)) in
  with_state (set_ref_bit v true).

(** [install_page] on a cached page, [PageHandle::write] and the guard. *)
Definition replace_page (h : PageHandle) (page : Page) : M SW unit :=
  write_frame (handle_frame h) {| frame_page := page; frame_dirty := true |}.

Definition mark_dirty (h : PageHandle) : M SW unit :=
  let! frame := read_frame (handle_frame h) in
  write_frame (handle_frame h) {| frame_page := frame_page frame; frame_dirty := true |}.

Definition modify_page (h : PageHandle) (change : Page → Page) : M SW Page :=
  let! frame := read_frame (handle_frame h) in
  let! _ := write_frame (handle_frame h)
    {| frame_page := change (frame_page frame); frame_dirty := frame_dirty frame |} in
  ret (frame_page frame).

End Pieces.

(** ** Threads *)

(** A frame of the pool: its shard and its number there. *)
Abbreviation slot := (nat * FrameId)%type.

(** The locks: the shards whose [state] is locked, the frames locked for
    writing, and the frames locked for reading, once per reader. *)
Record PoolLocks : Type := {
  state_locks : gset nat;
  frame_writers : gset slot;
  frame_readers : gmultiset slot;
}.

Definition no_locks : PoolLocks := {| state_locks := ∅; frame_writers := ∅; frame_readers := ∅ |}.

(** [PageReadGuard] and [PageWriteGuard]. *)
Inductive guard : Type := ReadGuard | WriteGuard.

#[global] Instance guard_eq_dec : EqDecision guard.
Proof. solve_decision. Defined.

(** Why a thread needs a frame. *)
Inductive purpose : Type :=
  | ForFetch (id : PageId)
  | ForInstall (id : PageId) (page : Page).

Definition wanted (g : purpose) : PageId :=
  match g with ForFetch id | ForInstall id _ => id end.

(** Where a thread is. *)
Inductive place : Type :=
  (** outside the pool *)
  | Client
  (** [fetch_page], [install_page], [flush_page]: about to lock [state] *)
  | Entering (g : purpose)
  | FlushEntering (id : PageId)
  (** [acquire_frame], with [state] locked: about to lock the victim, with the
      victim locked, and after the system call *)
  | LockingVictim (g : purpose) (v : FrameId) (old : PageId)
  | Evicting (g : purpose) (v : FrameId) (old : PageId)
  | Evicted (g : purpose) (v : FrameId) (old : PageId) (r : Result unit)
  (** after [acquire_frame], still with [state] locked; and after the read *)
  | Acquired (g : purpose) (v : FrameId)
  | Filling (id : PageId) (v : FrameId) (page : Page)
  (** [install_page] on a cached page, pinned: about to lock the frame *)
  | Installing (page : Page) (h : PageHandle)
  (** [flush_page] with the page pinned: about to lock the frame, with the
      frame locked, and after the system call *)
  | LockingPage (h : PageHandle)
  | Flushing (h : PageHandle)
  | Flushed (h : PageHandle) (r : Result unit)
  (** [unpin]: about to lock [state], and then to return a result *)
  | Dropping (h : PageHandle) (r : Result unit)
  (** [PageHandle::read], [PageHandle::write]: about to lock the frame *)
  | Guarding (k : guard) (h : PageHandle).

(** A thread: where it is, the handles and guards its client holds, and what
    the last of its calls that has returned gave it. *)
Record pthread : Type := {
  at_place : place;
  th_handles : list PageHandle;
  th_guards : list (guard * PageHandle);
  th_result : Result (option PageHandle);
}.

(** What a thread reports. *)
Inductive pevent : Type :=
  | PvTau
  | PvIoError
  | PvExhausted
  | PvRead (id : PageId) (p : Page)
  | PvReplace (id : PageId) (p : Page)
  | PvModify (id : PageId) (seen : Page) (change : Page → Page).

(** What a client does; [PGo] goes on inside a call. *)
Inductive paction : Type :=
  | PFetch (id : PageId)
  | PInstall (id : PageId) (page : Page)
  | PFlush (id : PageId)
  | PDrop (h : PageHandle)
  | PGuard (k : guard) (h : PageHandle)
  | PLook (h : PageHandle)
  | PModify (h : PageHandle) (change : Page → Page)
  | PUnguard (k : guard) (h : PageHandle)
  | PGo.

Definition go_to (pc : place) (th : pthread) : pthread :=
  {| at_place := pc; th_handles := th_handles th; th_guards := th_guards th; th_result := th_result th |}.

Definition set_handles (hs : list PageHandle) (th : pthread) : pthread :=
  {| at_place := at_place th; th_handles := hs; th_guards := th_guards th; th_result := th_result th |}.

Definition set_guards (gs : list (guard * PageHandle)) (th : pthread) : pthread :=
  {| at_place := at_place th; th_handles := th_handles th; th_guards := gs; th_result := th_result th |}.

(** The call returns [r], perhaps with a handle. *)
Definition give (r : Result (option PageHandle)) (th : pthread) : pthread :=
  {| at_place := Client;
     th_handles := match r with Ok h => option_list h ++ th_handles th | Err _ => th_handles th end;
     th_guards := th_guards th; th_result := r |}.

Definition no_handle (r : Result unit) : Result (option PageHandle) :=
  match r with Ok _ => Ok None | Err e => Err e end.

Definition keep_guard (k : guard) (h : PageHandle) (th : pthread) : pthread :=
  go_to Client (set_guards ((k, h) :: th_guards th) th).

Section Steps.
Context `{Cpu} `{HashOrder}.
Variable d : DiskManager.

Record PState : Type := {
  ps_pool : BufferPool;
  ps_world : World;
  ps_locks : PoolLocks;
}.

(** The shard of a page, and the frame of a handle. *)
Definition shard_of (s : PState) (id : PageId) : nat := shard_index (length (shards (ps_pool s))) id.

Definition slot_of (n : nat) (h : PageHandle) : slot := (shard_index n (handle_page h), handle_frame h).

Definition with_shard {A} (i : nat) (m : M (Shard * World) A) : M PState A :=
  zoom (λ s, (ps_pool s, ps_world s))
       (λ t s, {| ps_pool := t.1; ps_world := t.2; ps_locks := ps_locks s |}) (on_shard i m).

Definition set_plocks (f : PoolLocks → PoolLocks) : M PState unit :=
  modify (λ s, {| ps_pool := ps_pool s; ps_world := ps_world s; ps_locks := f (ps_locks s) |}).

(** A result of a step; [None] if the thread must wait. *)
Definition poutcome : Type := option (pevent * pthread).

Definition moves (ev : pevent) (th : pthread) : M PState poutcome := ret (Some (ev, th)).

Definition must_wait : M PState poutcome := ret None.

(** The mutex. *)
Definition set_state_locks f (l : PoolLocks) : PoolLocks :=
  {| state_locks := f (state_locks l); frame_writers := frame_writers l; frame_readers := frame_readers l |}.

Definition lock_state (i : nat) (k : M PState poutcome) : M PState poutcome :=
  let! l := gets ps_locks in
  if decide (i ∈ state_locks l) then must_wait
  else
    let! _ := set_plocks (set_state_locks (λ x, {[ i ]} ∪ x)) in
    k.

Definition unlock_state (i : nat) : M PState unit := set_plocks (set_state_locks (λ x, x ∖ {[ i ]})).

(** The read-write lock of a frame. *)
Definition set_writers f (l : PoolLocks) : PoolLocks :=
  {| state_locks := state_locks l; frame_writers := f (frame_writers l); frame_readers := frame_readers l |}.

Definition set_readers f (l : PoolLocks) : PoolLocks :=
  {| state_locks := state_locks l; frame_writers := frame_writers l; frame_readers := f (frame_readers l) |}.

Definition lock_frame (k : slot) (m : M PState poutcome) : M PState poutcome :=
  let! l := gets ps_locks in
  if decide (k ∈ frame_writers l ∨ k ∈ frame_readers l) then must_wait
  else
    let! _ := set_plocks (set_writers (λ x, {[ k ]} ∪ x)) in
    m.

Definition unlock_frame (k : slot) : M PState unit := set_plocks (set_writers (λ x, x ∖ {[ k ]})).

Definition lock_frame_read (k : slot) (m : M PState poutcome) : M PState poutcome :=
  let! l := gets ps_locks in
  if decide (k ∈ frame_writers l) then must_wait
  else
    let! _ := set_plocks (set_readers (λ x, {[+ k +]} ⊎ x)) in
    m.

Definition unlock_frame_read (k : slot) : M PState unit := set_plocks (set_readers (λ x, x ∖ {[+ k +]})).

(** [fetch_page] and [install_page] take [state]. *)
Definition enter (g : purpose) (th : pthread) : M PState poutcome :=
  let! i := gets (λ s, shard_of s (wanted g)) in
  lock_state i (
    let! r := with_shard i (look_up (wanted g)) in
    match r with
    | Hit h =>
        let! _ := unlock_state i in
        match g with
        | ForFetch _ => moves PvTau (give (Ok (Some h)) th)
        | ForInstall _ page => moves PvTau (go_to (Installing page h) th)
        end
    | FreeFrame v => moves PvTau (go_to (Acquired g v) th)
    | Victim v old => moves PvTau (go_to (LockingVictim g v old) th)
    | Full e =>
        let! _ := unlock_state i in
        moves PvExhausted (give (Err e) th)
    end).

(** [write_back] of the victim. *)
Definition evict_lock (g : purpose) (v : FrameId) (old : PageId) (th : pthread) : M PState poutcome :=
  let! i := gets (λ s, shard_of s (wanted g)) in
  lock_frame (i, v) (moves PvTau (go_to (Evicting g v old) th)).

Definition io_event (r : Result unit) : pevent := match r with Ok _ => PvTau | Err _ => PvIoError end.

Definition evict_io (g : purpose) (v : FrameId) (old : PageId) (th : pthread) : M PState poutcome :=
  let! i := gets (λ s, shard_of s (wanted g)) in
  let! r := with_shard i (write_back_io v old d) in
  moves (io_event r) (go_to (Evicted g v old r) th).

Definition evict_end (g : purpose) (v : FrameId) (old : PageId) (r : Result unit) (th : pthread) :
    M PState poutcome :=
  let! i := gets (λ s, shard_of s (wanted g)) in
  match r with
  | Err e =>
      let! _ := unlock_frame (i, v) in
      let! _ := unlock_state i in
      moves PvTau (give (Err e) th)
  | Ok _ =>
      let! _ := with_shard i (clear_dirty v) in
      let! _ := unlock_frame (i, v) in
      let! _ := with_shard i (unmap v old) in
      moves PvTau (go_to (Acquired g v) th)
  end.

(** [fetch_page] and [install_page] with a frame in hand. *)
Definition use_frame (g : purpose) (v : FrameId) (th : pthread) : M PState poutcome :=
  let! i := gets (λ s, shard_of s (wanted g)) in
  match g with
  | ForFetch id =>
      let! r := with_shard i (read_missing id v d) in
      match r with
      | Ok page => moves PvTau (go_to (Filling id v page) th)
      | Err e =>
          let! _ := unlock_state i in
          moves PvIoError (give (Err e) th)
      end
  | ForInstall id page =>
      lock_frame (i, v) (
        let! _ := with_shard i (fill_installed id v page) in
        let! _ := unlock_frame (i, v) in
        let! _ := unlock_state i in
        moves (PvReplace id page) (give (Ok None) th))
  end.

Definition fill_frame (id : PageId) (v : FrameId) (page : Page) (th : pthread) : M PState poutcome :=
  let! i := gets (λ s, shard_of s id) in
  lock_frame (i, v) (
    let! _ := with_shard i (fill_fetched id v page) in
    let! _ := unlock_frame (i, v) in
    let! _ := unlock_state i in
    moves PvTau (give (Ok (Some {| handle_frame := v; handle_page := id |})) th)).

(** [install_page] on a cached page. *)
Definition install_cached (page : Page) (h : PageHandle) (th : pthread) : M PState poutcome :=
  let! n := gets (λ s, length (shards (ps_pool s))) in
  lock_frame (slot_of n h) (
    let! _ := with_shard (slot_of n h).1 (replace_page h page) in
    let! _ := unlock_frame (slot_of n h) in
    moves (PvReplace (handle_page h) page) (go_to (Dropping h (Ok tt)) th)).

(** [flush_page]. *)
Definition flush_enter (id : PageId) (th : pthread) : M PState poutcome :=
  let! i := gets (λ s, shard_of s id) in
  lock_state i (
    let! r := with_shard i (pin_cached id) in
    let! _ := unlock_state i in
    match r with
    | Some h => moves PvTau (go_to (LockingPage h) th)
    | None => moves PvTau (give (Ok None) th)
    end).

Definition flush_lock (h : PageHandle) (th : pthread) : M PState poutcome :=
  let! n := gets (λ s, length (shards (ps_pool s))) in
  lock_frame (slot_of n h) (moves PvTau (go_to (Flushing h) th)).

Definition flush_io (h : PageHandle) (th : pthread) : M PState poutcome :=
  let! i := gets (λ s, shard_of s (handle_page h)) in
  let! r := with_shard i (write_back_io (handle_frame h) (handle_page h) d) in
  moves (io_event r) (go_to (Flushed h r) th).

Definition flush_end (h : PageHandle) (r : Result unit) (th : pthread) : M PState poutcome :=
  let! n := gets (λ s, length (shards (ps_pool s))) in
  let! _ :=
    match r with
    | Ok _ => with_shard (slot_of n h).1 (clear_dirty (handle_frame h))
    | Err _ => ret tt
    end in
  let! _ := unlock_frame (slot_of n h) in
  moves PvTau (go_to (Dropping h r) th).

(** [unpin], the last thing a call does. *)
Definition drop_handle (h : PageHandle) (r : Result unit) (th : pthread) : M PState poutcome :=
  let! i := gets (λ s, shard_of s (handle_page h)) in
  lock_state i (
    let! _ := with_shard i (unpin (handle_frame h)) in
    let! _ := unlock_state i in
    moves PvTau (give (no_handle r) th)).

(** [PageHandle::read] and [PageHandle::write]. *)
Definition take_guard (k : guard) (h : PageHandle) (th : pthread) : M PState poutcome :=
  let! n := gets (λ s, length (shards (ps_pool s))) in
  match k with
  | ReadGuard => lock_frame_read (slot_of n h) (moves PvTau (keep_guard k h th))
  | WriteGuard =>
      lock_frame (slot_of n h) (
        let! _ := with_shard (slot_of n h).1 (mark_dirty h) in
        moves PvTau (keep_guard k h th))
  end.

(** The client with a guard: reading the page, changing it, dropping the
    guard. *)
Definition look (h : PageHandle) (th : pthread) : M PState poutcome :=
  let! i := gets (λ s, shard_of s (handle_page h)) in
  if decide ((ReadGuard, h) ∈ th_guards th ∨ (WriteGuard, h) ∈ th_guards th) then
    let! p := with_shard i (handle_read h) in
    moves (PvRead (handle_page h) p) th
  else must_wait.

Definition change_page (h : PageHandle) (change : Page → Page) (th : pthread) : M PState poutcome :=
  let! i := gets (λ s, shard_of s (handle_page h)) in
  if decide ((WriteGuard, h) ∈ th_guards th) then
    let! seen := with_shard i (modify_page h change) in
    moves (PvModify (handle_page h) seen change) th
  else must_wait.

Definition drop_guard (k : guard) (h : PageHandle) (th : pthread) : M PState poutcome :=
  let! n := gets (λ s, length (shards (ps_pool s))) in
  match remove_one (k, h) (th_guards th) with
  | None => must_wait
  | Some gs =>
      let! _ :=
        match k with
        | ReadGuard => unlock_frame_read (slot_of n h)
        | WriteGuard => unlock_frame (slot_of n h)
        end in
      moves PvTau (set_guards gs th)
  end.

(** A handle can be dropped once no guard borrows from it. *)
Definition release_handle (h : PageHandle) (th : pthread) : M PState poutcome :=
  match remove_one h (th_handles th) with
  | None => must_wait
  | Some hs =>
      if decide (Forall (λ kh, kh.2 ∈ hs) (th_guards th)) then
        moves PvTau (go_to (Dropping h (Ok tt)) (set_handles hs th))
      else must_wait
  end.

(** One step of a thread. *)
Definition pstep (th : pthread) (a : paction) : M PState poutcome :=
  match at_place th, a with
  | Client, PFetch id => moves PvTau (go_to (Entering (ForFetch id)) th)
  | Client, PInstall id page =>
      if (page_id page =? id)%Z then moves PvTau (go_to (Entering (ForInstall id page)) th)
      else must_wait
  | Client, PFlush id => moves PvTau (go_to (FlushEntering id) th)
  | Client, PDrop h => release_handle h th
  | Client, PGuard k h =>
      if decide (h ∈ th_handles th) then moves PvTau (go_to (Guarding k h) th) else must_wait
  | Client, PLook h => look h th
  | Client, PModify h change => change_page h change th
  | Client, PUnguard k h => drop_guard k h th
  | Entering g, PGo => enter g th
  | LockingVictim g v old, PGo => evict_lock g v old th
  | Evicting g v old, PGo => evict_io g v old th
  | Evicted g v old r, PGo => evict_end g v old r th
  | Acquired g v, PGo => use_frame g v th
  | Filling id v page, PGo => fill_frame id v page th
  | Installing page h, PGo => install_cached page h th
  | FlushEntering id, PGo => flush_enter id th
  | LockingPage h, PGo => flush_lock h th
  | Flushing h, PGo => flush_io h th
  | Flushed h r, PGo => flush_end h r th
  | Dropping h r, PGo => drop_handle h r th
  | Guarding k h, PGo => take_guard k h th
  | _, _ => must_wait
  end.

(** ** Runs *)

(** What the events do to the pages. *)
Definition after (ev : pevent) (L : gmap PageId Page) : gmap PageId Page :=
  match ev with
  | PvReplace id p => <[id := p]> L
  | PvModify id seen change => <[id := change seen]> L
  | _ => L
  end.

(** What the pool expects of its clients when its pages are [L]: the pages they
    leave verify once they are sealed.  The checksum is the pool's business. *)
Definition paction_ok (L : gmap PageId Page) (a : paction) : Prop :=
  match a with
  | PFetch id => is_Some (L !! id)
  | PInstall id page => page_fits d id page
  | PModify h change =>
      ∀ p q, L !! handle_page h = Some p → same_page p q → page_fits d (handle_page h) (change q)
  | _ => True
  end.

(** The handles in use. *)
Definition place_handle (pc : place) : option PageHandle :=
  match pc with
  | Installing _ h | LockingPage h | Flushing h | Flushed h _ | Dropping h _ => Some h
  | _ => None
  end.

Definition all_handles (th : pthread) : list PageHandle :=
  option_list (place_handle (at_place th)) ++ th_handles th.

(** Fewer handles than a [u32] can count. *)
Definition few_pins (ths : list pthread) : Prop :=
  (Z.of_nat (length (ths ≫= all_handles)) + 1 < 2 ^ 32)%Z.

Definition plan_pool (plan : list io_fate) (s : PState) : PState :=
  {| ps_pool := ps_pool s; ps_world := set_plan plan (ps_world s); ps_locks := ps_locks s |}.

(** Any thread may take the next step, under any plan of I/O failures. *)
Inductive psteps : gmap PageId Page → PState → list pthread → list (nat * pevent) →
    gmap PageId Page → PState → list pthread → Prop :=
  | psteps_nil L s ths : psteps L s ths [] L s ths
  | psteps_cons t th a plan ev th' L s ths s1 evs L' s' ths' :
      ths !! t = Some th → paction_ok L a → few_pins ths →
      pstep th a (plan_pool plan s) = (Done (Some (ev, th')), s1) →
      psteps (after ev L) s1 (<[t := th']> ths) evs L' s' ths' →
      psteps L s ths ((t, ev) :: evs) L' s' ths'.

End Steps.
