(* ===== verification/PoolLocks.v ===== *)
(** * Locks of the buffer pool

    Who holds which lock of the pool, and what the pieces of its methods do to
    a shard.  [touch] says which part of a shard a step may change: what
    [state] guards, and one frame. *)

From stdpp Require Import gmultiset.
From S2P Require Import Prelude Errors Checksum Page FileHeader FileSys Disk BufferPool PoolCache PoolThreads.

(** ** One thread among many *)

(** What the others contribute. *)
Definition others {A B} (f : A → list B) (t : nat) (l : list A) : list B :=
  (take t l ≫= f) ++ (drop (S t) l ≫= f).

Section Others.
Context {A B : Type} (f : A → list B) (l : list A) (t : nat) (x : A).
Hypothesis Ht : l !! t = Some x.

Lemma others_all : l ≫= f ≡ₚ f x ++ others f t l.
Proof.
  unfold others. rewrite <- (take_drop_middle l t x Ht) at 1. rewrite bind_app, bind_cons.
  by rewrite !(assoc (++)), (comm (++) (f _) (take t l ≫= f)).
Qed.

Lemma others_moved y : <[t := y]> l ≫= f ≡ₚ f y ++ others f t l.
Proof.
  unfold others. rewrite insert_take_drop by by eapply lookup_lt_Some.
  rewrite bind_app, bind_cons.
  by rewrite !(assoc (++)), (comm (++) (f _) (take t l ≫= f)).
Qed.

Lemma elem_of_others b : b ∈ others f t l ↔ ∃ u y, u ≠ t ∧ l !! u = Some y ∧ b ∈ f y.
Proof.
  unfold others. rewrite elem_of_app, !list_elem_of_bind. split.
  - intros [(y & Hb & [u Hu]%list_elem_of_lookup)|(y & Hb & [u Hu]%list_elem_of_lookup)].
    + apply lookup_take_Some in Hu as [Hu ?]. exists u, y. split_and!; [lia|done..].
    + rewrite lookup_drop in Hu. exists (S t + u), y. split_and!; [lia|done..].
  - intros (u & y & Hne & Hu & Hb). destruct (decide (u < t)).
    + left. exists y. split; [done|]. apply list_elem_of_lookup. exists u. by rewrite lookup_take_lt.
    + right. exists y. split; [done|]. apply list_elem_of_lookup. exists (u - S t). rewrite lookup_drop.
      by replace (S t + (u - S t)) with u by lia.
Qed.

End Others.

(** ** Locks *)

(** The locks when shards [ss] and frames [ws] are locked, and [rs] for
    reading. *)
Record locks_ok (l : PoolLocks) (ss : list nat) (ws rs : list slot) : Prop := {
  lk_state : NoDup ss ∧ state_locks l = list_to_set ss;
  lk_write : NoDup ws ∧ frame_writers l = list_to_set ws;
  lk_read : frame_readers l = list_to_set_disj rs;
  lk_excl k : k ∈ ws → k ∉ rs;
}.

#[global] Instance locks_ok_proper l : Proper ((≡ₚ) ==> (≡ₚ) ==> (≡ₚ) ==> iff) (locks_ok l).
Proof.
  assert (∀ ss ss' ws ws' rs rs', ss ≡ₚ ss' → ws ≡ₚ ws' → rs ≡ₚ rs' →
    locks_ok l ss ws rs → locks_ok l ss' ws' rs') as Hp.
  { intros ss ss' ws ws' rs rs' Es Ew Er [[H1 H1'] [H2 H2'] H3 H4].
    split; [by rewrite <- Es|by rewrite <- Ew|by rewrite <- Er|]. intros k. rewrite <- Ew, <- Er. apply H4. }
  intros ss ss' Es ws ws' Ew rs rs' Er. split; by apply Hp.
Qed.

Section Locking.
Variables (l : PoolLocks) (ss : list nat) (ws rs : list slot).

Lemma lock_state_ok i :
  locks_ok l ss ws rs → i ∉ state_locks l →
  locks_ok (set_state_locks (λ x, {[ i ]} ∪ x) l) (i :: ss) ws rs.
Proof.
  intros [[H1 H1'] H2 H3 H4] Hi. split; try done. split; simpl.
  - constructor; [|done]. by rewrite H1', elem_of_list_to_set in Hi.
  - by rewrite H1'.
Qed.

Lemma unlock_state_ok i :
  locks_ok l (i :: ss) ws rs → locks_ok (set_state_locks (λ x, x ∖ {[ i ]}) l) ss ws rs.
Proof.
  intros [[H1 H1'] H2 H3 H4]. apply NoDup_cons in H1 as [Hi H1]. split; try done. split; [done|]. simpl.
  rewrite H1'. simpl. assert (i ∉ (list_to_set ss : gset nat)) by by rewrite elem_of_list_to_set. set_solver.
Qed.

Lemma lock_frame_ok k :
  locks_ok l ss ws rs → ¬ (k ∈ frame_writers l ∨ k ∈ frame_readers l) →
  locks_ok (set_writers (λ x, {[ k ]} ∪ x) l) ss (k :: ws) rs.
Proof.
  intros [H1 [H2 H2'] H3 H4] Hk. rewrite H2', H3, elem_of_list_to_set, elem_of_list_to_set_disj in Hk.
  split; try done.
  - split; simpl; [constructor; [tauto|done]|by rewrite H2'].
  - intros j [->|Hj]%elem_of_cons; [tauto|by apply H4].
Qed.

Lemma unlock_frame_ok k :
  locks_ok l ss (k :: ws) rs → locks_ok (set_writers (λ x, x ∖ {[ k ]}) l) ss ws rs.
Proof.
  intros [H1 [H2 H2'] H3 H4]. apply NoDup_cons in H2 as [Hk H2]. split; try done.
  - split; [done|]. simpl. rewrite H2'. simpl.
    assert (k ∉ (list_to_set ws : gset slot)) by by rewrite elem_of_list_to_set. set_solver.
  - intros j Hj. apply H4. by constructor.
Qed.

Lemma lock_frame_read_ok k :
  locks_ok l ss ws rs → k ∉ frame_writers l →
  locks_ok (set_readers (λ x, {[+ k +]} ⊎ x) l) ss ws (k :: rs).
Proof.
  intros [H1 [H2 H2'] H3 H4] Hk. rewrite H2', elem_of_list_to_set in Hk. split; try done.
  - simpl. by rewrite H3.
  - intros j Hj [->|Hr]%elem_of_cons; [done|by apply (H4 j)].
Qed.

Lemma unlock_frame_read_ok k :
  locks_ok l ss ws (k :: rs) → locks_ok (set_readers (λ x, x ∖ {[+ k +]}) l) ss ws rs.
Proof.
  intros [H1 H2 H3 H4]. split; try done.
  - simpl. rewrite H3. simpl. multiset_solver.
  - intros j Hj Hr. apply (H4 j Hj). by constructor.
Qed.

(** A lock taken and given back. *)
Lemma relock_state i :
  i ∉ state_locks l → set_state_locks (λ x, x ∖ {[ i ]}) (set_state_locks (λ x, {[ i ]} ∪ x) l) = l.
Proof. intros Hi. destruct l. unfold set_state_locks. simpl in *. f_equal. set_solver. Qed.

Lemma relock_frame k :
  k ∉ frame_writers l → set_writers (λ x, x ∖ {[ k ]}) (set_writers (λ x, {[ k ]} ∪ x) l) = l.
Proof. intros Hk. destruct l. unfold set_writers. simpl in *. f_equal. set_solver. Qed.

End Locking.

(** ** What a thread holds *)

Section Holdings.
Variable n : nat.

(** The shard whose [state] it has locked. *)
Definition holds_state (th : pthread) : list nat :=
  match at_place th with
  | LockingVictim g _ _ | Evicting g _ _ | Evicted g _ _ _ | Acquired g _ => [shard_index n (wanted g)]
  | Filling id _ _ => [shard_index n id]
  | _ => []
  end.

(** The frames its client has guards on, and those it has locked to write. *)
Definition guarded (k : guard) (th : pthread) : list slot :=
  (λ kh, slot_of n kh.2) <$> filter (λ kh, kh.1 = k) (th_guards th).

Definition place_writes (pc : place) : list slot :=
  match pc with
  | Evicting g v _ | Evicted g v _ _ => [(shard_index n (wanted g), v)]
  | Flushing h | Flushed h _ => [slot_of n h]
  | _ => []
  end.

Definition holds_write (th : pthread) : list slot := place_writes (at_place th) ++ guarded WriteGuard th.

(** The frame it has acquired and not yet mapped. *)
Definition holds_frame (th : pthread) : list slot :=
  match at_place th with
  | Acquired g v => [(shard_index n (wanted g), v)]
  | Filling id v _ => [(shard_index n id, v)]
  | _ => []
  end.

Definition held (ths : list pthread) (i : nat) : option FrameId :=
  snd <$> head (filter (λ k, k.1 = i) (ths ≫= holds_frame)).

(** The handles on shard [i]. *)
Definition handles_on (ths : list pthread) (i : nat) : list PageHandle :=
  filter (λ h, shard_index n (handle_page h) = i) (ths ≫= all_handles).

Definition locks_inv (l : PoolLocks) (ths : list pthread) : Prop :=
  locks_ok l (ths ≫= holds_state) (ths ≫= holds_write) (ths ≫= guarded ReadGuard).

End Holdings.

Section Moved.
Variables (n : nat) (ths : list pthread) (t : nat) (th th' : pthread).
Hypothesis Ht : ths !! t = Some th.

Lemma locks_moved l l' :
  locks_inv n l ths →
  (∀ ss ws rs,
     locks_ok l (holds_state n th ++ ss) (holds_write n th ++ ws) (guarded n ReadGuard th ++ rs) →
     locks_ok l' (holds_state n th' ++ ss) (holds_write n th' ++ ws) (guarded n ReadGuard th' ++ rs)) →
  locks_inv n l' (<[t := th']> ths).
Proof.
  unfold locks_inv. rewrite !(others_moved _ ths t th Ht), !(others_all _ ths t th Ht). auto.
Qed.

(** A lock that [t] holds, or that is free, is held by no other thread. *)
Lemma state_mine l i u y :
  locks_inv n l ths → i ∈ holds_state n th ∨ i ∉ state_locks l → u ≠ t → ths !! u = Some y →
  i ∉ holds_state n y.
Proof.
  intros [[Hnd El] _ _ _] Hi Hne Hu Hy.
  assert (i ∈ others (holds_state n) t ths) as Ho by (eapply elem_of_others; eauto).
  rewrite El, elem_of_list_to_set, (others_all _ ths t th Ht), elem_of_app in Hi.
  rewrite (others_all _ ths t th Ht) in Hnd. apply NoDup_app in Hnd as (_ & Hd & _).
  destruct Hi as [Hi|Hi]; [by apply (Hd i)|tauto].
Qed.

Lemma write_mine l k u y :
  locks_inv n l ths → k ∈ holds_write n th ∨ k ∉ frame_writers l → u ≠ t → ths !! u = Some y →
  k ∉ holds_write n y.
Proof.
  intros [_ [Hnd El] _ _] Hi Hne Hu Hy.
  assert (k ∈ others (holds_write n) t ths) as Ho by (eapply elem_of_others; eauto).
  rewrite El, elem_of_list_to_set, (others_all _ ths t th Ht), elem_of_app in Hi.
  rewrite (others_all _ ths t th Ht) in Hnd. apply NoDup_app in Hnd as (_ & Hd & _).
  destruct Hi as [Hi|Hi]; [by apply (Hd k)|tauto].
Qed.

(** The frame acquired in shard [i]. *)
Definition frame_in (y : pthread) (i : nat) : option FrameId :=
  snd <$> head (filter (λ k, k.1 = i) (holds_frame n y)).

Lemma frame_state y k : k ∈ holds_frame n y → k.1 ∈ holds_state n y.
Proof. unfold holds_frame, holds_state. destruct (at_place y); set_solver. Qed.

Lemma frame_in_filter y i :
  filter (λ k, k.1 = i) (holds_frame n y) = option_list (pair i <$> frame_in y i).
Proof.
  unfold frame_in. assert (length (holds_frame n y) ≤ 1) as Hlen
    by (unfold holds_frame; destruct (at_place y); simpl; lia).
  destruct (holds_frame n y) as [|[j v] [|]]; simpl in *; try lia; [done|].
  destruct (decide (j = i)) as [->|]; [by rewrite filter_cons_True|by rewrite filter_cons_False].
Qed.

Lemma held_mine l i :
  locks_inv n l ths → i ∈ holds_state n th ∨ i ∉ state_locks l →
  held n ths i = frame_in th i ∧ held n (<[t := th']> ths) i = frame_in th' i.
Proof.
  intros Hl Hi.
  assert (∀ y us, filter (λ k, k.1 = i) us ≡ₚ filter (λ k, k.1 = i) (holds_frame n y) →
    snd <$> head (filter (λ k, k.1 = i) us) = frame_in y i) as Hone.
  { intros y us. rewrite frame_in_filter. destruct (frame_in y i); simpl.
    - by intros ->%Permutation_singleton_r.
    - by intros ->%Permutation_nil_r. }
  assert (filter (λ k, k.1 = i) (others (holds_frame n) t ths) = []) as Eo.
  { apply elem_of_nil_inv. intros k [<- (u & y & Hne & Hu & Hk)%elem_of_others]%list_elem_of_filter.
    apply (state_mine l k.1 u y Hl); try done. by apply frame_state. }
  split; apply Hone; [rewrite (others_all _ ths t th Ht)|rewrite (others_moved _ ths t th Ht)];
    by rewrite filter_app, Eo, app_nil_r.
Qed.

Lemma held_same i : frame_in th' i = frame_in th i → held n (<[t := th']> ths) i = held n ths i.
Proof.
  intros E. unfold held. f_equal. rewrite <- (take_drop_middle ths t th Ht) at 2.
  rewrite insert_take_drop by by eapply lookup_lt_Some. rewrite !bind_app, !bind_cons, !filter_app.
  by rewrite !frame_in_filter, E.
Qed.

(** Handles. *)
Lemma handles_on_same i :
  all_handles th' ≡ₚ all_handles th → handles_on n (<[t := th']> ths) i ≡ₚ handles_on n ths i.
Proof.
  intros E. unfold handles_on. by rewrite (others_moved _ ths t th Ht), (others_all _ ths t th Ht), E.
Qed.

Lemma handles_on_pin h i :
  all_handles th' ≡ₚ h :: all_handles th →
  handles_on n (<[t := th']> ths) i ≡ₚ
    add_handle (shard_index n (handle_page h)) h (handles_on n ths) i.
Proof.
  intros E. unfold add_handle. case_decide as Ei; unfold handles_on;
    rewrite (others_moved _ ths t th Ht), (others_all _ ths t th Ht), E; simpl.
  - by rewrite filter_cons_True.
  - by rewrite filter_cons_False.
Qed.

Lemma handles_on_drop h i :
  all_handles th ≡ₚ h :: all_handles th' →
  handles_on n ths i ≡ₚ
    add_handle (shard_index n (handle_page h)) h (handles_on n (<[t := th']> ths)) i.
Proof.
  intros E. unfold add_handle. case_decide as Ei; unfold handles_on;
    rewrite (others_moved _ ths t th Ht), (others_all _ ths t th Ht), E; simpl.
  - by rewrite filter_cons_True.
  - by rewrite filter_cons_False.
Qed.

Lemma handles_on_mine h :
  h ∈ all_handles th → h ∈ handles_on n ths (shard_index n (handle_page h)).
Proof.
  intros Hh. apply list_elem_of_filter. split; [done|].
  rewrite (others_all _ ths t th Ht). by apply elem_of_app; left.
Qed.

End Moved.

(** ** The pieces *)

(** Any page may be dirty. *)
Definition any (id : PageId) : Prop := True.

Section Pieces.
Context `{Cpu} `{HashOrder}.
Variable d : DiskManager.
Hypothesis d_wf : disk_wf d.
Variable owned : PageId → Prop.
Implicit Types (L : gmap PageId Page) (hs : list PageHandle) (f : file) (sh : Shard) (w : World).

Abbreviation shard_inv L hs held f sh := (shard_inv L owned any hs held f sh).

(** What a step does to a shard: [st] if it has [state] locked, [vo] the frame
    it may change. *)
Record touch (st : bool) (vo : option FrameId) L f sh L' f' sh' : Prop := {
  to_state : st = false → page_table (shard_state sh') = page_table (shard_state sh) ∧
                          pin_counts (shard_state sh') = pin_counts (shard_state sh);
  to_frame v : vo ≠ Some v → shard_frames sh' !! v = shard_frames sh !! v;
  to_pages id : L' !! id = L !! id ∨ owned id ∧ is_Some (L' !! id) ∧
                ∃ v, vo = Some v ∧ (page_table (shard_state sh) !! id = Some v ∨
                                    st = true ∧ page_table (shard_state sh) !! id = None);
  to_disk id p : L !! id = Some p → stored f id p →
                 stored f' id p ∨ owned id ∧ ∃ v, vo = Some v ∧ page_table (shard_state sh) !! id = Some v;
}.

Lemma touch_none L f sh : touch false None L f sh L f sh.
Proof. split; auto. Qed.

Lemma touch_state L f sh sh' :
  shard_frames sh' = shard_frames sh → touch true None L f sh L f sh'.
Proof. intros E. split; try done; auto. intros v _. by rewrite E. Qed.

(** Two looks at what [state] guards. *)
Lemma unpinned_count L hs held f sh v :
  shard_inv L hs held f sh → v < length (shard_frames sh) →
  pin_counts (shard_state sh) !! v = Some 0%Z ↔ ¬ pinned v hs.
Proof.
  intros Hinv Hv. destruct (shard_inv_vectors _ _ _ _ _ _ _ _ Hinv Hv) as (_ & -> & _).
  rewrite <- pins_of_zero. split; [intros [= E]; lia|by intros ->].
Qed.

Lemma wp_look_up L hs f sh w id :
  shard_inv L hs None f sh → few_handles hs →
  wp (look_up id)
    (λ r s', s'.2 = w ∧ shard_frames s'.1 = shard_frames sh ∧
       match r with
       | Hit h => handle_page h = id ∧ shard_inv L (h :: hs) None f s'.1
       | FreeFrame v => page_table (shard_state s'.1) !! id = None ∧ shard_inv L hs (Some v) f s'.1
       | Victim v old =>
           page_table (shard_state s'.1) !! id = None ∧ page_table (shard_state s'.1) !! old = Some v ∧
           pin_counts (shard_state s'.1) !! v = Some 0%Z ∧ shard_inv L hs None f s'.1
       | Full _ => all_pinned hs sh ∧ shard_inv L hs None f s'.1
       end)
    (λ _, True) (sh, w).
Proof.
  intros Hinv Hfew. unfold look_up. do 3 pool_step. simpl. rewrite with_st_same.
  destruct (page_table (shard_state sh) !! id) as [i|] eqn:Hid.
  - pose proof (shard_inv_frame _ _ _ _ _ _ _ _ _ Hinv Hid) as Hlt.
    pool_step. eapply wp_pin; [done..|]. intros st1 Et1 Hinv1.
    pool_step. eapply wp_set_ref_bit; [done|done|]. intros st2 Et2 Hinv2. by pool_step.
  - do 2 pool_step. unfold wp at 1, pop_free. simpl shard_state.
    destruct (last (free_frames (shard_state sh))) as [i|] eqn:Elast.
    { pool_step. split; [done|]. split; [done|]. split; [done|]. by apply shard_inv_pop. }
    apply last_None in Elast as Hfree. simpl. rewrite with_st_same. pool_step.
    eapply wp_find_victim; [done|done| |].
    { intros Hall st' Hsw Hinv1. by pool_step. }
    intros v old st' Hsw Hinv1 Hv Hold Hnv. do 2 pool_step. eapply wp_index.
    { by apply (si_table _ _ _ _ _ _ _ Hinv1). }
    cbv iota beta. pool_step. split; [done|]. split; [done|]. simpl in *.
    split; [by rewrite (swept_table _ _ Hsw)|]. split; [done|]. split; [|done].
    by apply (unpinned_count _ _ _ _ (with_st st' sh) _ Hinv1).
Qed.

Lemma wp_pin_cached L hs f sh w id :
  shard_inv L hs None f sh → few_handles hs →
  wp (pin_cached id)
    (λ r s', s'.2 = w ∧ shard_frames s'.1 = shard_frames sh ∧
       match r with
       | Some h => handle_page h = id ∧ shard_inv L (h :: hs) None f s'.1
       | None => shard_inv L hs None f s'.1
       end)
    (λ _, True) (sh, w).
Proof.
  intros Hinv Hfew. unfold pin_cached. do 3 pool_step. simpl. rewrite with_st_same.
  destruct (page_table (shard_state sh) !! id) as [i|] eqn:Hid; [|by pool_step].
  pool_step. eapply wp_pin; [done..|]. intros st1 Et1 Hinv1. by pool_step.
Qed.

(** The contents of a page are in the file. *)
Definition on_disk L f (id : PageId) : Prop := ∀ p, L !! id = Some p → stored f id p.

Lemma wp_write_back_io L hs held f sh w v id :
  pages_fit d L → shard_inv L hs held f sh → w_files w !! dm_file d = Some f →
  page_table (shard_state sh) !! id = Some v →
  wp (write_back_io v id d)
    (λ r s', ∃ f', w_files s'.2 !! dm_file d = Some f' ∧ shard_inv L hs held f' s'.1 ∧
       touch false (Some v) L f sh L f' s'.1 ∧
       (frame_dirty <$> shard_frames s'.1 !! v) = (frame_dirty <$> shard_frames sh !! v) ∧
       match r with Ok _ => on_disk L f' id | Err _ => ¬ io_ok w end)
    (λ _, True) (sh, w).
Proof.
  intros HL Hinv Hf Hid.
  destruct (si_cached _ _ _ _ _ _ _ Hinv _ _ Hid) as (Ho & fr & p & Hfr & Hp & Esame & Hdirty).
  pose proof (page_fits_id _ _ _ (HL _ _ Hp)) as Hpid. destruct (HL _ _ Hp) as (Hdata & Hpw & _).
  pose proof (same_page_wf _ _ Hpw Esame) as Hqw. pose proof (same_page_seal _ _ Hpw Esame) as Eseal.
  pose proof (same_page_id _ _ Hpw Esame) as Hqid. rewrite Hpid in Hqid. pose proof (seal_wf _ Hpw) as Hsw.
  assert (0 ≤ id)%Z as Hpos by (unfold data_page in Hdata; lia).
  unfold write_back_io. wp_step. eapply wp_index; [exact Hfr|].
  destruct (frame_dirty fr) eqn:Ed.
  2:{ wp_step. exists f. split; [done|]. split; [done|]. split; [split; auto|]. split; [done|].
      intros p' Hp'. rewrite Hp in Hp'. by injection Hp' as <-. }
  set (put n := file_apply (WriteAt (Z.to_nat id * PAGE_SIZE) (take n (data (seal p)))) f).
  set (fr' := {| frame_page := seal p; frame_dirty := true |}).
  assert (∀ n w' (r : Result unit), files_to (<[dm_file d := put n]> (w_files w)) w w' →
    (r = Ok tt → PAGE_SIZE ≤ n) → (r ≠ Ok tt → ¬ io_ok w) →
    ∃ f', w_files w' !! dm_file d = Some f' ∧ shard_inv L hs held f' (with_frame v fr' sh) ∧
      touch false (Some v) L f sh L f' (with_frame v fr' sh) ∧
      (frame_dirty <$> (<[v := fr']> (shard_frames sh) !! v)) = (frame_dirty <$> shard_frames sh !! v) ∧
      match r with Ok _ => on_disk L f' id | Err _ => ¬ io_ok w end) as Hend.
  { intros n w' r [Ew _] Hok Herr. exists (put n). split; [by rewrite Ew, lookup_insert_eq|].
    split; [by eapply shard_inv_written|]. split.
    - split; auto.
      + intros v' Hv'. cbn [shard_frames with_frame]. rewrite list_lookup_insert_ne; [done|congruence].
      + intros id' p' Hp' Hhas. destruct (decide (id' = id)) as [->|Hne]; [right; eauto|left].
        destruct (HL _ _ Hp') as (Hdata' & _). unfold data_page in *.
        apply disk_has_write_ne; try done; [lia|]. rewrite length_take, Hsw. lia.
    - split; [rewrite list_lookup_insert_eq by (by eapply lookup_lt_Some); rewrite Hfr; simpl; by rewrite Ed|].
      destruct r as [[]|e]; [|by apply Herr]. intros p' Hp'. rewrite Hp in Hp'. injection Hp' as <-. unfold put.
      rewrite take_ge by (rewrite Hsw; auto). by apply disk_has_write_same. }
  do 2 pool_step. eapply wp_write_page; [done..| | |]; rewrite ?Eseal.
  - intros Hno. by destruct Hno.
  - intros _ _ w1 Hw1. wp_step. eapply wp_update; [exact Hfr|]. wp_step. by apply (Hend PAGE_SIZE w1 (Ok tt)).
  - intros _ _ Hio n w1 Hw1. split; [done|]. intros code. wp_step. eapply wp_update; [exact Hfr|]. wp_step.
    by apply (Hend n w1 (Err (Io (Os code)))).
Qed.

Lemma wp_clear_dirty L hs held f sh v id (Q : unit → Shard * World → Prop) C w :
  shard_inv L hs held f sh → page_table (shard_state sh) !! id = Some v → on_disk L f id →
  (∀ fr, frame_dirty fr = false → shard_inv L hs held f (with_frame v fr sh) →
     Q tt (with_frame v fr sh, w)) →
  wp (clear_dirty v) Q C (sh, w).
Proof.
  intros Hinv Hid Hd HQ.
  destruct (si_cached _ _ _ _ _ _ _ Hinv _ _ Hid) as (Ho & fr & p & Hfr & Hp & Esame & _).
  unfold clear_dirty. wp_step. eapply wp_index; [exact Hfr|]. eapply wp_update; [exact Hfr|]. apply HQ; [done|].
  eapply (shard_inv_set_frame L _ _ _ _ _ f _ _ id v _ p); try done; [|by rewrite insert_id].
  split; [done|]. by apply Hd.
Qed.

Lemma wp_unmap L hs f sh v old fr (Q : unit → Shard * World → Prop) C w :
  shard_inv L hs None f sh → page_table (shard_state sh) !! old = Some v →
  pin_counts (shard_state sh) !! v = Some 0%Z → shard_frames sh !! v = Some fr → frame_dirty fr = false →
  (∀ sh', shard_frames sh' = shard_frames sh → shard_inv L hs (Some v) f sh' →
     page_table (shard_state sh') = delete old (page_table (shard_state sh)) → Q tt (sh', w)) →
  wp (unmap v old) Q C (sh, w).
Proof.
  intros Hinv Hold Hpins Hfr Hclean HQ. unfold unmap. do 3 pool_step. pool_step.
  eapply wp_update; [simpl; by apply (si_table _ _ _ _ _ _ _ Hinv)|]. apply HQ; [done| |done].
  eapply (shard_inv_evict _ _ _ _ _ _ old v fr Hinv); try done.
  eapply (unpinned_count _ _ _ _ _ _ Hinv); [by eapply lookup_lt_Some|done].
Qed.

Lemma wp_read_missing L hs f sh w id v p :
  pages_fit d L → shard_inv L hs (Some v) f sh → w_files w !! dm_file d = Some f →
  page_table (shard_state sh) !! id = None → owned id → L !! id = Some p →
  wp (read_missing id v d)
    (λ r s', w_files s'.2 !! dm_file d = Some f ∧ shard_frames s'.1 = shard_frames sh ∧
       match r with
       | Ok page => page = seal p ∧ s'.1 = sh
       | Err _ => ¬ io_ok w ∧ shard_inv L hs None f s'.1
       end)
    (λ _, True) (sh, w).
Proof.
  intros HL Hinv Hf Hid Ho Hp. destruct (HL _ _ Hp) as (Hdata & Hpw & h & Hv).
  pose proof (si_disk _ _ _ _ _ _ _ Hinv _ _ Hp Ho Hid) as [Hb Hpg].
  assert (0 ≤ id)%Z as Hpos by (unfold data_page in Hdata; lia).
  unfold read_missing. do 2 pool_step. eapply wp_mono; [by apply (wp_read_page id d f w)| |done].
  intros r w2 [[Ew _] Hread]. destruct r as [pg|e].
  - destruct Hread as (_ & _ & -> & _). pool_step. split; [simpl; by rewrite Ew|]. by rewrite Hpg.
  - do 4 pool_step. split; [simpl; by rewrite Ew|]. split; [done|]. split; [|by apply shard_inv_push].
    intros Hio. destruct Hread. split_and!; auto. rewrite Hpg. by rewrite Hv.
Qed.

Lemma touch_fill L L' f sh sh' v fr id :
  shard_frames sh' = <[v := fr]> (shard_frames sh) → owned id →
  page_table (shard_state sh) !! id = None → L' = L ∨ (∃ p, L' = <[id := p]> L) →
  touch true (Some v) L f sh L' f sh'.
Proof.
  intros Efr Ho Hid HL'. split; [done| | |by left].
  - intros v' Hv'. rewrite Efr, list_lookup_insert_ne; [done|congruence].
  - intros id'. destruct HL' as [->|[p ->]]; [by left|]. destruct (decide (id' = id)) as [->|Hne].
    + right. split; [done|]. rewrite lookup_insert_eq. split; [done|]. exists v. auto.
    + left. by rewrite lookup_insert_ne.
Qed.

Lemma wp_fill_fetched L hs f sh w id v p :
  shard_inv L hs (Some v) f sh → page_table (shard_state sh) !! id = None → owned id → L !! id = Some p →
  wp (fill_fetched id v (seal p))
    (λ _ s', s'.2 = w ∧ touch true (Some v) L f sh L f s'.1 ∧
       shard_inv L ({| handle_frame := v; handle_page := id |} :: hs) None f s'.1)
    (λ _, True) (sh, w).
Proof.
  intros Hinv Hid Ho Hp. pose proof (si_disk _ _ _ _ _ _ _ Hinv _ _ Hp Ho Hid) as Hd.
  unfold fill_fetched. eapply (wp_map_frame _ _ _ _ _ _ _ _ _ p); [done|done|done|by split; [right|]|].
  intros sh2 Hinv2 Htab2 Hni Efr2. rewrite insert_id in Hinv2 by done.
  pool_step. eapply wp_first_pin; [done..|]. intros st3 Et3 Hinv3.
  pose proof (shard_inv_frame _ _ _ _ _ _ _ id v Hinv3 ltac:(simpl; congruence)) as Hlt.
  eapply wp_set_ref_bit; [done..|]. intros st4 Et4 Hinv4. split; [done|]. split; [|done].
  eapply touch_fill; [exact Efr2|done|done|by left].
Qed.

Lemma wp_fill_installed L hs f sh w id v p :
  shard_inv L hs (Some v) f sh → page_table (shard_state sh) !! id = None → owned id →
  wp (fill_installed id v p)
    (λ _ s', s'.2 = w ∧ touch true (Some v) L f sh (<[id := p]> L) f s'.1 ∧
       shard_inv (<[id := p]> L) hs None f s'.1)
    (λ _, True) (sh, w).
Proof.
  intros Hinv Hid Ho.
  unfold fill_installed.
  eapply (wp_map_frame _ _ _ _ _ _ _ _ _ p); [done|done|done|by apply frame_ok_dirty, same_page_refl|].
  intros sh2 Hinv2 Htab2 Hni Efr2.
  pose proof (shard_inv_frame _ _ _ _ _ _ _ _ _ Hinv2 Htab2) as Hlt.
  eapply wp_set_ref_bit; [done..|]. intros st3 Et3 Hinv3. split; [done|]. split; [|done].
  eapply touch_fill; [exact Efr2|done|done|by right; eexists].
Qed.

(** Changing the frame of a pinned page, with the lock of the frame. *)
Lemma pinned_frame L hs held f sh h :
  shard_inv L hs held f sh → h ∈ hs →
  ∃ fr p, shard_frames sh !! handle_frame h = Some fr ∧ L !! handle_page h = Some p ∧
    same_page p (frame_page fr) ∧ owned (handle_page h) ∧
    ∀ p' q, same_page p' q →
      shard_inv (<[handle_page h := p']> L) hs held f
        (with_frame (handle_frame h) {| frame_page := q; frame_dirty := true |} sh) ∧
      touch false (Some (handle_frame h)) L f sh (<[handle_page h := p']> L) f
        (with_frame (handle_frame h) {| frame_page := q; frame_dirty := true |} sh).
Proof.
  intros Hinv Hh. pose proof (si_hs _ _ _ _ _ _ _ Hinv h Hh) as Hid.
  destruct (si_cached _ _ _ _ _ _ _ Hinv _ _ Hid) as (Ho & fr & p & Hfr & Hp & Esame & _).
  exists fr, p. split_and!; try done. intros p' q Hq. split.
  - by eapply (shard_inv_set_frame L _ _ _ _ _ f _ _ (handle_page h) (handle_frame h) _ p').
  - split; [done| | |by left].
    + intros v Hv. simpl. rewrite list_lookup_insert_ne; [done|congruence].
    + intros id. destruct (decide (id = handle_page h)) as [->|Hne].
      * right. rewrite lookup_insert_eq. split; [done|]. split; [done|]. eauto.
      * left. by rewrite lookup_insert_ne.
Qed.

End Pieces.
