(* ===== verification/PoolSim.v ===== *)
(** * The pool under many threads

    The locking discipline of buffer_pool.rs, proved of the steps of
    [PoolThreads]: the frame of a page is only touched with its lock held, and
    the frames and the file together represent one map from page ids to pages
    at every moment, whatever the interleaving. *)

From stdpp Require Import gmultiset.
From S2P Require Import Prelude Errors Checksum Page FileHeader FileSys Disk BufferPool PoolCache.
From S2P Require Import PoolThreads PoolLocks.

(** ** The invariant *)

Section Invariant.
Context `{Cpu} `{HashOrder}.
Variable d : DiskManager.
Implicit Types (L : gmap PageId Page) (f : file) (pl : BufferPool) (sh : Shard) (th : pthread).

Definition goal_ok L (g : purpose) : Prop :=
  match g with ForFetch id => is_Some (L !! id) | ForInstall id page => page_fits d id page end.

(** The shard of page [id] satisfies [P]. *)
Definition at_shard pl (id : PageId) (P : Shard → Prop) : Prop :=
  ∃ sh, shards pl !! shard_index (length (shards pl)) id = Some sh ∧ P sh.

Definition missing (id : PageId) sh : Prop := page_table (shard_state sh) !! id = None.

Definition victim_ok (g : purpose) (v : FrameId) (old : PageId) sh : Prop :=
  missing (wanted g) sh ∧ page_table (shard_state sh) !! old = Some v ∧
  pin_counts (shard_state sh) !! v = Some 0%Z.

(** What a thread relies on where it is. *)
Definition place_ok L f pl (pc : place) : Prop :=
  match pc with
  | Entering g => goal_ok L g
  | LockingVictim g v old | Evicting g v old =>
      goal_ok L g ∧ at_shard pl (wanted g) (victim_ok g v old)
  | Evicted g v old r =>
      goal_ok L g ∧ at_shard pl (wanted g) (victim_ok g v old) ∧ (r = Ok tt → on_disk L f old)
  | Acquired g v => goal_ok L g ∧ at_shard pl (wanted g) (missing (wanted g))
  | Filling id v page => (∃ p, L !! id = Some p ∧ page = seal p) ∧ at_shard pl id (missing id)
  | Installing page h => page_fits d (handle_page h) page
  | Flushed h r => r = Ok tt → on_disk L f (handle_page h)
  | _ => True
  end.

Definition dirty_frame (h : PageHandle) sh : Prop :=
  ∃ fr, shard_frames sh !! handle_frame h = Some fr ∧ frame_dirty fr = true.

Definition guard_ok pl th (kh : guard * PageHandle) : Prop :=
  kh.2 ∈ th_handles th ∧ (kh.1 = WriteGuard → at_shard pl (handle_page kh.2) (dirty_frame kh.2)).

Record thread_ok L f pl th : Prop := {
  tk_place : place_ok L f pl (at_place th);
  tk_guards kh : kh ∈ th_guards th → guard_ok pl th kh;
  tk_guarding k h : at_place th = Guarding k h → h ∈ th_handles th;
}.

Abbreviation count pl := (length (shards pl)).
Abbreviation in_shard pl i := (λ id, shard_index (count pl) id = i).

(** The pool in front of the file [f] holds the pages [L] while the threads
    are where they are. *)
Record pool_data L f pl (ths : list pthread) : Prop := {
  pd_pages : pages_fit d L;
  pd_count : ∃ k, count pl = 2 ^ k;
  pd_shard i sh : shards pl !! i = Some sh →
    shard_inv L (in_shard pl i) any (handles_on (count pl) ths i) (held (count pl) ths i) f sh;
  pd_thread t th : ths !! t = Some th → thread_ok L f pl th;
}.

Definition pinv L (s : PState) (ths : list pthread) : Prop :=
  locks_inv (count (ps_pool s)) (ps_locks s) ths ∧
  ∃ f, w_files (ps_world s) !! dm_file d = Some f ∧ pool_data L f (ps_pool s) ths.

Lemma pd_shard_of L f pl ths id :
  pool_data L f pl ths → ∃ sh, shards pl !! shard_index (count pl) id = Some sh ∧
    shard_inv L (in_shard pl (shard_index (count pl) id)) any
      (handles_on (count pl) ths (shard_index (count pl) id))
      (held (count pl) ths (shard_index (count pl) id)) f sh.
Proof.
  intros [_ [k Hk] Hsh _].
  destruct (lookup_lt_is_Some_2 (shards pl) (shard_index (count pl) id)) as [sh E];
    [by eapply shard_index_lt|]. eauto.
Qed.

(** ** What a step leaves alone *)

Section Step.
Variables (L L' : gmap PageId Page) (f f' : file) (pl : BufferPool) (ths : list pthread).
Variables (i : nat) (sh sh' : Shard) (st : bool) (vo : option FrameId).
Hypothesis Hpd : pool_data L f pl ths.
Hypothesis Hi : shards pl !! i = Some sh.
Hypothesis Ht : touch (in_shard pl i) st vo L f sh L' f' sh'.

Let pl' := {| shards := <[i := sh']> (shards pl) |}.

Lemma count_moved : count pl' = count pl.
Proof. apply length_insert. Qed.

Lemma at_shard_moved id (P : Shard → Prop) :
  at_shard pl id P → (shard_index (count pl) id = i → P sh → P sh') → at_shard pl' id P.
Proof.
  intros (x & Hx & HP) Hs. unfold at_shard. rewrite count_moved. cbn [shards pl'].
  destruct (decide (shard_index (count pl) id = i)) as [E|Hne].
  - rewrite E in Hx |- *. rewrite Hi in Hx. injection Hx as <-. exists sh'.
    rewrite list_lookup_insert_eq by by eapply lookup_lt_Some. auto.
  - exists x. by rewrite list_lookup_insert_ne.
Qed.

(** A mapped page that does not live in the frame that changes. *)
Lemma page_kept id x v :
  shards pl !! shard_index (count pl) id = Some x → page_table (shard_state x) !! id = Some v →
  (shard_index (count pl) id = i → vo ≠ Some v) → L' !! id = L !! id ∧ (on_disk L f id → on_disk L' f' id).
Proof.
  intros Hx Hid Hv.
  assert (∀ v', shard_index (count pl) id = i → vo = Some v' →
    page_table (shard_state sh) !! id = Some v' ∨ st = true ∧ page_table (shard_state sh) !! id = None → False) as Hno.
  { intros v' E Ev Hor. rewrite E in Hx. assert (x = sh) as -> by congruence.
    specialize (Hv E). rewrite Hid in Hor. destruct Hor as [[= ->]|[_ ?]]; done. }
  assert (L' !! id = L !! id) as EL.
  { destruct (to_pages _ _ _ _ _ _ _ _ _ Ht id) as [|(Ho & _ & v' & Ev & Hor)]; [done|]. by destruct (Hno v'). }
  split; [done|]. intros Hd p Hp. rewrite EL in Hp.
  destruct (to_disk _ _ _ _ _ _ _ _ _ Ht id p Hp (Hd p Hp)) as [|(Ho & v' & Ev & Hv')]; [done|].
  destruct (Hno v'); auto.
Qed.

(** A page that is not cached, seen by the holder of [state]. *)
Lemma page_missing_kept id :
  at_shard pl id (missing id) → (shard_index (count pl) id = i → st = false) → L' !! id = L !! id.
Proof.
  intros (x & Hx & Hid) Hs. destruct (to_pages _ _ _ _ _ _ _ _ _ Ht id) as [|(Ho & _ & v & Ev & Hor)]; [done|].
  rewrite Ho in Hx. assert (x = sh) as -> by congruence. unfold missing in Hid. rewrite (Hs Ho), Hid in Hor.
  by destruct Hor as [?|[? _]].
Qed.

Lemma goal_ok_kept g : goal_ok L g → goal_ok L' g.
Proof.
  destruct g as [id|id page]; [|done]. simpl. intros Hid.
  destruct (to_pages _ _ _ _ _ _ _ _ _ Ht id) as [->|(_ & ? & _)]; done.
Qed.

(** Another thread still stands where it stood. *)
Lemma victim_kept g v old y :
  at_shard pl (wanted g) (victim_ok g v old) → holds_state (count pl) y = [shard_index (count pl) (wanted g)] →
  (st = true → i ∉ holds_state (count pl) y) → at_shard pl' (wanted g) (victim_ok g v old).
Proof.
  intros Hv Hy Hs. eapply at_shard_moved; [done|]. intros E (H1 & H2 & H3).
  destruct st eqn:Est.
  { destruct (Hs eq_refl). rewrite Hy, E. constructor. }
  destruct (to_state _ _ _ _ _ _ _ _ _ Ht eq_refl) as [Et Ep]. unfold victim_ok, missing. by rewrite Et, Ep.
Qed.

Lemma missing_kept id y :
  at_shard pl id (missing id) → holds_state (count pl) y = [shard_index (count pl) id] →
  (st = true → i ∉ holds_state (count pl) y) → at_shard pl' id (missing id) ∧ L' !! id = L !! id.
Proof.
  intros Hv Hy Hs. assert (shard_index (count pl) id = i → st = false) as Hst.
  { intros E. destruct st; [|done]. destruct (Hs eq_refl). rewrite Hy, E. constructor. }
  split; [|by eapply page_missing_kept]. eapply at_shard_moved; [done|]. intros E H1.
  destruct (to_state _ _ _ _ _ _ _ _ _ Ht (Hst E)) as [Et _]. unfold missing. by rewrite Et.
Qed.

Lemma pinned_mapped u y h :
  ths !! u = Some y → h ∈ all_handles y → ∃ x,
    shards pl !! shard_index (count pl) (handle_page h) = Some x ∧
    page_table (shard_state x) !! handle_page h = Some (handle_frame h).
Proof.
  intros Hu Hh. destruct (pd_shard_of _ _ _ _ (handle_page h) Hpd) as (x & Hx & Hinv). exists x. split; [done|].
  apply (si_hs _ _ _ _ _ _ _ Hinv). by eapply handles_on_mine.
Qed.

(** Guards keep their frames dirty. *)
Lemma guards_kept th0 y :
  (∀ kh, kh ∈ th_guards th0 → guard_ok pl th0 kh) → (∀ v, vo = Some v → (i, v) ∉ guarded (count pl) WriteGuard th0) →
  (∀ h, h ∈ th_handles th0 → h ∈ th_handles y) → ∀ kh, kh ∈ th_guards th0 → guard_ok pl' y kh.
Proof.
  intros Hg Hw Hy kh Hkh. destruct (Hg kh Hkh) as [H1 H2]. split; [by apply Hy|]. intros Ek.
  eapply at_shard_moved; [by apply H2|]. intros E (fr & Hfr & Hd). exists fr. split; [|done].
  rewrite (to_frame _ _ _ _ _ _ _ _ _ Ht); [done|]. intros Ev. apply (Hw _ Ev).
  apply list_elem_of_fmap. exists kh. unfold slot_of. rewrite E. split; [done|].
  by apply list_elem_of_filter.
Qed.

Lemma other_ok u y :
  ths !! u = Some y → (st = true → i ∉ holds_state (count pl) y) →
  (∀ v, vo = Some v → (i, v) ∉ holds_write (count pl) y) → thread_ok L' f' pl' y.
Proof.
  intros Hu Hs Hw. pose proof (pd_thread _ _ _ _ Hpd _ _ Hu) as [Hplace Hg Hgu].
  assert (∀ k, k ∈ place_writes (count pl) (at_place y) → k.1 = i → vo ≠ Some k.2) as Hpw.
  { intros [j v] Hk <- Ev. apply (Hw v Ev), elem_of_app. by left. }
  split; [| |done].
  - pose proof goal_ok_kept as Hgoal. destruct y as [pc hs gs] eqn:Ey. simpl in *.
    destruct pc as [|g|id|g v old|g v old|g v old r|g v|id v page|page h|h|h|h r|h|k h];
      simpl in *; try done; try by apply Hgoal.
    + destruct Hplace. split; [by apply Hgoal|]. by eapply (victim_kept _ _ _ y); subst.
    + destruct Hplace. split; [by apply Hgoal|]. by eapply (victim_kept _ _ _ y); subst.
    + destruct Hplace as (H1 & H2 & H3). split; [by apply Hgoal|].
      split; [by eapply (victim_kept _ _ _ y); subst|]. intros Er. destruct H2 as (x & Hx & _ & Hold & _).
      assert (shard_index (count pl) old = shard_index (count pl) (wanted g)) as Eo.
      { eapply (si_cached _ _ _ _ _ _ _ (pd_shard _ _ _ _ Hpd _ _ Hx)). done. }
      eapply (page_kept old x v); [by rewrite Eo|done| |by apply H3].
      rewrite Eo. intros E. apply (Hpw (shard_index (count pl) (wanted g), v)); [constructor|done].
    + destruct Hplace. split; [by apply Hgoal|]. by eapply (missing_kept _ y); subst.
    + destruct Hplace. destruct (missing_kept id y) as [H1' H2']; subst; try done. by rewrite H2'.
    + intros Er. destruct (pinned_mapped u y h) as (x & Hx & Hid); [by subst|subst; constructor|].
      eapply (page_kept (handle_page h) x); [done|done| |by apply Hplace].
      intros E. apply (Hpw (slot_of (count pl) h)); [constructor|done].
  - apply (guards_kept y); [done| |done]. intros v Ev Hin. apply (Hw v Ev), elem_of_app. by right.
Qed.

(** The thread [t] moves. *)
Lemma pool_moved t th th' l :
  let ths' := <[t := th']> ths in
  locks_inv (count pl) l ths → ths !! t = Some th →
  (st = true → i ∈ holds_state (count pl) th ∨ i ∉ state_locks l) →
  (∀ v, vo = Some v → (i, v) ∈ holds_write (count pl) th ∨ (i, v) ∉ frame_writers l) →
  shard_inv L' (in_shard pl i) any (handles_on (count pl) ths' i) (held (count pl) ths' i) f' sh' →
  (∀ j, j ≠ i → handles_on (count pl) ths' j ≡ₚ handles_on (count pl) ths j) →
  (∀ j, j ≠ i → frame_in (count pl) th' j = frame_in (count pl) th j) →
  pages_fit d L' → thread_ok L' f' pl' th' → pool_data L' f' pl' ths'.
Proof.
  intros ths' Hl Htt Hst Hvo Hinv Hhs Hfr HL' Hth'. split; [done| | |].
  - rewrite count_moved. apply Hpd.
  - rewrite count_moved. intros j x Hj. destruct (decide (j = i)) as [->|Hne].
    + unfold pl' in Hj. cbn [shards] in Hj. rewrite list_lookup_insert_eq in Hj by by eapply lookup_lt_Some.
      by injection Hj as <-.
    + unfold pl' in Hj. cbn [shards] in Hj. rewrite list_lookup_insert_ne in Hj by done.
      rewrite (held_same _ ths t th th' Htt j (Hfr j Hne) : held (count pl) ths' j = _).
      eapply shard_inv_handles; [symmetry; by apply Hhs|].
      eapply shard_inv_same; [| |by apply Hpd].
      * intros id Ho. destruct (to_pages _ _ _ _ _ _ _ _ _ Ht id) as [|(Ho' & _)]; congruence.
      * intros id p Ho Hp Hd. destruct (to_disk _ _ _ _ _ _ _ _ _ Ht id p Hp Hd) as [|(Ho' & _)]; congruence.
  - intros u y Hu. destruct (decide (u = t)) as [->|Hne].
    + unfold ths' in Hu. rewrite list_lookup_insert_eq in Hu by by eapply lookup_lt_Some. by injection Hu as <-.
    + unfold ths' in Hu. rewrite list_lookup_insert_ne in Hu by done. eapply other_ok; [done| |].
      * intros E. eapply (state_mine _ _ t th Htt l); [done|by apply Hst|done|done].
      * intros v E. eapply (write_mine _ _ t th Htt l); [done|by apply Hvo|done|done].
Qed.

End Step.

(** A thread that touches no shard. *)
Lemma pool_data_moved L f pl ths t th th' :
  pool_data L f pl ths → ths !! t = Some th → all_handles th' ≡ₚ all_handles th →
  holds_frame (count pl) th' = holds_frame (count pl) th → thread_ok L f pl th' →
  pool_data L f pl (<[t := th']> ths).
Proof.
  intros [H1 H2 H3 H4] Ht Eh Ef Hok. split; [done|done| |].
  - intros i sh Hi. rewrite (held_same _ _ _ th) by (done || by unfold frame_in; rewrite Ef).
    eapply shard_inv_handles; [symmetry; by eapply handles_on_same|auto].
  - intros u y Hu. destruct (decide (u = t)) as [->|Hne].
    + rewrite list_lookup_insert_eq in Hu by by eapply lookup_lt_Some. by injection Hu as <-.
    + rewrite list_lookup_insert_ne in Hu by done. eauto.
Qed.

(** What a thread has locked once. *)
Lemma writes_once l n ths t th k :
  locks_inv n l ths → ths !! t = Some th →
  k ∈ place_writes n (at_place th) ∨ k ∉ frame_writers l → k ∉ guarded n WriteGuard th.
Proof.
  intros [_ [Hnd El] _ _] Ht Hk Hg. rewrite El, elem_of_list_to_set, (others_all _ ths t th Ht), elem_of_app in Hk.
  rewrite (others_all _ ths t th Ht) in Hnd. apply NoDup_app in Hnd as (Hnd & _ & _). unfold holds_write in *.
  apply NoDup_app in Hnd as (_ & Hnd & _). rewrite elem_of_app in Hk.
  destruct Hk as [Hk|Hk]; [by apply (Hnd k)|tauto].
Qed.

End Invariant.

(** ** Steps *)

Section Simulation.
Context `{Cpu} `{HashOrder}.
Variable d : DiskManager.
Hypothesis d_wf : disk_wf d.
Implicit Types (L : gmap PageId Page) (f : file) (pl : BufferPool) (sh : Shard) (th : pthread).

Abbreviation pinv := (pinv d).
Abbreviation pool_data := (pool_data d).
Abbreviation place_ok := (place_ok d).
Abbreviation count pl := (length (shards pl)).
Abbreviation in_shard pl i := (λ id, shard_index (count pl) id = i).
Abbreviation pcount s := (length (shards (ps_pool s))).

Lemma wp_with_shard {A} i (m : M (Shard * World) A) Q C s sh :
  shards (ps_pool s) !! i = Some sh →
  wp m (λ a x, Q a {| ps_pool := {| shards := <[i := x.1]> (shards (ps_pool s)) |};
                      ps_world := x.2; ps_locks := ps_locks s |}) (λ _, True) (sh, ps_world s) →
  (∀ s', C s') → wp (with_shard i m) Q C s.
Proof.
  intros Hi Hm HC. unfold with_shard. apply wp_zoom. eapply wp_on_shard; [exact Hi|].
  eapply wp_mono; [exact Hm|done|by intros]. 
Qed.

(** No client but that of thread [t] has a guard on page [id]. *)
Definition exclusive (ths : list pthread) (t : nat) (id : PageId) : Prop :=
  ∀ u y k h, u ≠ t → ths !! u = Some y → (k, h) ∈ th_guards y → handle_page h ≠ id.

Lemma guarded_slot n k h th : (k, h) ∈ th_guards th → slot_of n h ∈ guarded n k th.
Proof.
  intros Hin. apply list_elem_of_fmap. exists (k, h). split; [done|]. by apply list_elem_of_filter.
Qed.

(** A frame that a thread may write is under no other thread's guard. *)
Definition unlocked_frame (k : slot) (l : PoolLocks) : Prop := ¬ (k ∈ frame_writers l ∨ k ∈ frame_readers l).

Lemma unlocked_unwritten P k l : P ∨ unlocked_frame k l → P ∨ k ∉ frame_writers l.
Proof. unfold unlocked_frame. tauto. Qed.

Lemma guard_excludes n l ths t th u y g h :
  locks_inv n l ths → ths !! t = Some th → u ≠ t → ths !! u = Some y → (g, h) ∈ th_guards y →
  slot_of n h ∈ holds_write n th ∨ unlocked_frame (slot_of n h) l → False.
Proof.
  intros Hl Ht Hne Hu Hg Hlock. apply (guarded_slot n) in Hg.
  assert (slot_of n h ∈ ths ≫= match g with ReadGuard => guarded n ReadGuard | WriteGuard => holds_write n end) as Hin.
  { apply list_elem_of_bind. exists y. split; [|by eapply list_elem_of_lookup_2]. destruct g; [done|].
    apply elem_of_app. by right. }
  pose proof Hl as [H1 [H2 H2'] H3 H4]. unfold unlocked_frame in Hlock.
  rewrite H2', H3, elem_of_list_to_set, elem_of_list_to_set_disj in Hlock.
  destruct Hlock as [Hw|Hfree]; [|destruct g; tauto]. destruct g.
  - apply (H4 (slot_of n h)); [|done]. apply list_elem_of_bind. exists th.
    split; [done|by eapply list_elem_of_lookup_2].
  - apply (write_mine n ths t th Ht _ (slot_of n h) u y Hl); try done; [by left|].
    apply elem_of_app. by right.
Qed.

(** The frame a handle names, and that a step of thread [t] keeps the frames
    under the guards of the others. *)
Definition frame_at pl (h : PageHandle) : option Frame :=
  sh ← shards pl !! shard_index (count pl) (handle_page h); shard_frames sh !! handle_frame h.

Definition frames_kept pl (ths : list pthread) (t : nat) pl' : Prop :=
  ∀ u y g h, u ≠ t → ths !! u = Some y → (g, h) ∈ th_guards y → frame_at pl' h = frame_at pl h.

Lemma touch_frames_kept n l L f L' f' pl ths t th i sh sh' st vo :
  n = count pl → locks_inv n l ths → ths !! t = Some th → shards pl !! i = Some sh →
  touch (in_shard pl i) st vo L f sh L' f' sh' →
  (∀ v, vo = Some v → (i, v) ∈ holds_write n th ∨ unlocked_frame (i, v) l) →
  frames_kept pl ths t {| shards := <[i := sh']> (shards pl) |}.
Proof.
  intros -> Hl Ht Hi Hto Hvo u y g h Hne Hu Hg. unfold frame_at. cbn [shards]. rewrite length_insert.
  destruct (decide (shard_index (count pl) (handle_page h) = i)) as [E|Hn]; [|by rewrite list_lookup_insert_ne].
  rewrite E, list_lookup_insert_eq, Hi by by eapply lookup_lt_Some. cbn [mbind option_bind].
  apply (to_frame _ _ _ _ _ _ _ _ _ Hto). intros Ev. eapply guard_excludes; [done|exact Ht|done..|].
  unfold slot_of. rewrite E. by apply Hvo.
Qed.

(** The events the pages allow. *)
Definition event_ok L (s : PState) (ths : list pthread) (t : nat) (ev : pevent) : Prop :=
  match ev with
  | PvRead id q => ∃ p, L !! id = Some p ∧ same_page p q
  | PvReplace id _ => exclusive ths t id
  | PvModify id q _ => (∃ p, L !! id = Some p ∧ same_page p q) ∧ exclusive ths t id
  | PvIoError => ¬ io_ok (ps_world s)
  | PvExhausted => exhausted (handles_on (pcount s) ths) (ps_pool s)
  | _ => True
  end.

Definition psim L (s : PState) (ths : list pthread) (t : nat) (r : poutcome) (s' : PState) : Prop :=
  match r with
  | None => True
  | Some (ev, th') => event_ok L s ths t ev ∧ pinv (after ev L) s' (<[t := th']> ths) ∧
                     frames_kept (ps_pool s) ths t (ps_pool s')
  end.

(** The handles on shard [i] become [hs], the others stay. *)
Definition handles_to (n : nat) (ths ths' : list pthread) (i : nat) (hs : list PageHandle) : Prop :=
  handles_on n ths' i ≡ₚ hs ∧ ∀ j, j ≠ i → handles_on n ths' j ≡ₚ handles_on n ths j.

Lemma handles_to_same n ths t th th' i :
  ths !! t = Some th → all_handles th' ≡ₚ all_handles th →
  handles_to n ths (<[t := th']> ths) i (handles_on n ths i).
Proof. intros Ht E. split; [|intros j _]; by eapply handles_on_same. Qed.

Lemma handles_to_pin n ths t th th' i h :
  ths !! t = Some th → all_handles th' ≡ₚ h :: all_handles th → shard_index n (handle_page h) = i →
  handles_to n ths (<[t := th']> ths) i (h :: handles_on n ths i).
Proof.
  intros Ht E <-. split; [|intros j Hj]; rewrite (handles_on_pin _ _ _ th) by done; unfold add_handle;
    [by rewrite decide_True|by rewrite decide_False].
Qed.

Lemma handles_to_drop n ths t th th' i h :
  ths !! t = Some th → all_handles th ≡ₚ h :: all_handles th' → shard_index n (handle_page h) = i →
  handles_on n ths i ≡ₚ h :: handles_on n (<[t := th']> ths) i ∧
  handles_to n ths (<[t := th']> ths) i (handles_on n (<[t := th']> ths) i).
Proof.
  intros Ht E <-. pose proof (λ j, handles_on_drop n ths t th th' Ht h j E) as Hd. unfold add_handle in Hd.
  split; [rewrite Hd; by rewrite decide_True|]. split; [done|]. intros j Hj. rewrite Hd. by rewrite decide_False.
Qed.

Section Moves.
Variables (L : gmap PageId Page) (f : file) (s : PState) (ths : list pthread) (t : nat) (th th' : pthread).
Hypothesis Hpd : pool_data L f (ps_pool s) ths.
Hypothesis Hl : locks_inv (pcount s) (ps_locks s) ths.
Hypothesis Ht : ths !! t = Some th.
Let n := pcount s.

(** The frame a step writes is locked by it, or free. *)
Definition may_write (i : nat) (vo : option FrameId) : Prop :=
  ∀ v, vo = Some v → (i, v) ∈ place_writes n (at_place th) ∨ unlocked_frame (i, v) (ps_locks s).

Lemma may_write_others i vo v :
  may_write i vo → vo = Some v → (i, v) ∈ holds_write n th ∨ unlocked_frame (i, v) (ps_locks s).
Proof. intros Hw Ev. destruct (Hw v Ev); [|by right]. left. apply elem_of_app. by left. Qed.

Lemma step_ok L' f' i sh sh' st vo :
  shards (ps_pool s) !! i = Some sh → touch (in_shard (ps_pool s) i) st vo L f sh L' f' sh' →
  may_write i vo → th_guards th' = th_guards th → (∀ h, h ∈ th_handles th → h ∈ th_handles th') →
  (∀ k h, at_place th' ≠ Guarding k h) →
  let pl' := {| shards := <[i := sh']> (shards (ps_pool s)) |} in
  place_ok L' f' pl' (at_place th') → thread_ok d L' f' pl' th'.
Proof.
  intros Hi Hto Hw Eg Hh Hng pl' Hpl. pose proof (pd_thread _ _ _ _ _ Hpd _ _ Ht) as [_ Hg _].
  split; [done| |by intros k h ?%Hng]. rewrite Eg.
  eapply (guards_kept L L' f f' (ps_pool s) i sh sh' st vo Hi Hto th); [done| |done].
  intros v Ev. eapply writes_once; [done..|]. by apply unlocked_unwritten, Hw.
Qed.

(** A step with [state] locked. *)
Lemma step_state L' f' i sh sh' vo hs' w' l' :
  let ths' := <[t := th']> ths in
  let pl' := {| shards := <[i := sh']> (shards (ps_pool s)) |} in
  shards (ps_pool s) !! i = Some sh → i ∈ holds_state n th ∨ i ∉ state_locks (ps_locks s) →
  touch (in_shard (ps_pool s) i) true vo L f sh L' f' sh' → may_write i vo →
  (∀ k, k ∈ holds_frame n th ∨ k ∈ holds_frame n th' → k.1 = i) →
  handles_to n ths ths' i hs' →
  shard_inv L' (in_shard (ps_pool s) i) any hs' (frame_in n th' i) f' sh' → pages_fit d L' →
  th_guards th' = th_guards th → (∀ h, h ∈ th_handles th → h ∈ th_handles th') →
  (∀ k h, at_place th' ≠ Guarding k h) → place_ok L' f' pl' (at_place th') →
  w_files w' !! dm_file d = Some f' → locks_inv n l' ths' →
  pinv L' {| ps_pool := pl'; ps_world := w'; ps_locks := l' |} ths' ∧ frames_kept (ps_pool s) ths t pl'.
Proof.
  intros ths' pl' Hi Hmine Hto Hw Hfr [Ehs Hhs] Hinv HL' Eg Hh Hng Hpl Hw' Hl'.
  assert (∀ j y, (∀ k, k ∈ holds_frame n y → k.1 = i) → j ≠ i → frame_in n y j = None) as Hno.
  { intros j y Hy Hj. unfold frame_in. enough (filter (λ k, k.1 = j) (holds_frame n y) = []) as -> by done.
    apply elem_of_nil_inv. intros k [Ek Hk]%list_elem_of_filter. specialize (Hy k Hk). congruence. }
  assert (∀ v, vo = Some v → (i, v) ∈ holds_write n th ∨ unlocked_frame (i, v) (ps_locks s)) as Hvo
    by (intros v Ev; by eapply may_write_others).
  split; [|by eapply touch_frames_kept]. split; simpl; [by rewrite length_insert|]. exists f'. split; [done|].
  eapply (pool_moved d L L' f f' (ps_pool s) ths i sh sh' true vo Hpd Hi Hto t th th' (ps_locks s)); try done.
  - intros v Ev. by apply unlocked_unwritten, Hvo.
  - destruct (held_mine n ths t th th' Ht _ i Hl Hmine) as [_ E].
    rewrite (E : held (count (ps_pool s)) (<[t := th']> ths) i = _). by eapply shard_inv_handles; [symmetry|].
  - intros j Hj. rewrite !Hno; auto.
  - by eapply step_ok.
Qed.

(** A step with a frame locked. *)
Lemma step_frame L' f' i sh sh' vo w' l' :
  let ths' := <[t := th']> ths in
  let pl' := {| shards := <[i := sh']> (shards (ps_pool s)) |} in
  shards (ps_pool s) !! i = Some sh →
  touch (in_shard (ps_pool s) i) false vo L f sh L' f' sh' → may_write i vo →
  holds_frame n th' = holds_frame n th → all_handles th' ≡ₚ all_handles th →
  shard_inv L' (in_shard (ps_pool s) i) any (handles_on n ths i) (held n ths i) f' sh' → pages_fit d L' →
  th_guards th' = th_guards th → th_handles th' = th_handles th →
  (∀ k h, at_place th' ≠ Guarding k h) → place_ok L' f' pl' (at_place th') →
  w_files w' !! dm_file d = Some f' → locks_inv n l' ths' →
  pinv L' {| ps_pool := pl'; ps_world := w'; ps_locks := l' |} ths' ∧ frames_kept (ps_pool s) ths t pl'.
Proof.
  intros ths' pl' Hi Hto Hw Efr Eh Hinv HL' Eg Eth Hng Hpl Hw' Hl'.
  assert (∀ v, vo = Some v → (i, v) ∈ holds_write n th ∨ unlocked_frame (i, v) (ps_locks s)) as Hvo
    by (intros v Ev; by eapply may_write_others).
  split; [|by eapply touch_frames_kept]. split; simpl; [by rewrite length_insert|]. exists f'. split; [done|].
  assert (∀ j, frame_in n th' j = frame_in n th j) as Efi by (intros j; unfold frame_in; by rewrite Efr).
  eapply (pool_moved d L L' f f' (ps_pool s) ths i sh sh' false vo Hpd Hi Hto t th th' (ps_locks s)); try done.
  - intros v Ev. by apply unlocked_unwritten, Hvo.
  - rewrite (held_same n ths t th th' Ht i (Efi i) : held (count (ps_pool s)) (<[t := th']> ths) i = _).
    eapply shard_inv_handles; [symmetry; by eapply handles_on_same|done].
  - intros j _. by eapply handles_on_same.
  - eapply step_ok; try done. by rewrite Eth.
Qed.

(** A step that only changes locks. *)
Lemma step_locks l' :
  let ths' := <[t := th']> ths in
  holds_frame n th' = holds_frame n th → all_handles th' ≡ₚ all_handles th →
  thread_ok d L f (ps_pool s) th' → w_files (ps_world s) !! dm_file d = Some f → locks_inv n l' ths' →
  pinv L {| ps_pool := ps_pool s; ps_world := ps_world s; ps_locks := l' |} ths' ∧
  frames_kept (ps_pool s) ths t (ps_pool s).
Proof.
  intros ths' Efr Eh Hok Hw' Hl'. split; [|done]. split; [done|]. exists f. split; [done|].
  by eapply pool_data_moved.
Qed.

End Moves.

(** [lock_step] is [wp_step] with the vocabulary of [pstep] unfolded. *)
Ltac lock_step :=
  lazymatch goal with
  | |- wp must_wait _ _ _ => apply wp_ret
  | |- wp (moves _ _) _ _ _ => apply wp_ret
  | |- wp (set_plocks _) _ _ _ => apply wp_modify
  | |- wp (unlock_state _) _ _ _ => apply wp_modify
  | |- wp (unlock_frame _) _ _ _ => apply wp_modify
  | |- wp (unlock_frame_read _) _ _ _ => apply wp_modify
  | |- _ => wp_step
  end; cbn [ps_pool ps_world ps_locks fst snd].

Lemma few_on n ths i : few_pins ths → few_handles (handles_on n ths i).
Proof.
  unfold few_pins, few_handles, handles_on.
  pose proof (length_filter (λ h, shard_index n (handle_page h) = i) (ths ≫= all_handles)). lia.
Qed.

Lemma pool_locks_same n l ths t th th' :
  locks_inv n l ths → ths !! t = Some th → holds_state n th' = holds_state n th →
  holds_write n th' = holds_write n th → guarded n ReadGuard th' = guarded n ReadGuard th →
  locks_inv n l (<[t := th']> ths).
Proof. intros Hl Ht E1 E2 E3. eapply locks_moved; [done..|]. intros ss ws rs. by rewrite E1, E2, E3. Qed.

(** No frame is in hand in a shard whose [state] is free. *)
Lemma held_free n l ths t th i :
  locks_inv n l ths → ths !! t = Some th → i ∉ state_locks l → holds_frame n th = [] → held n ths i = None.
Proof.
  intros Hl Ht Hi E. destruct (held_mine n ths t th th Ht l i Hl) as [-> _]; [by right|].
  unfold frame_in. by rewrite E.
Qed.

Lemma frame_in_one n y i v : holds_frame n y = [(i, v)] → frame_in n y i = Some v.
Proof. intros E. unfold frame_in. rewrite E. by rewrite filter_cons_True. Qed.

Lemma at_shard_here pl i sh sh' id (P : Shard → Prop) :
  shards pl !! i = Some sh → shard_index (count pl) id = i → P sh' →
  at_shard {| shards := <[i := sh']> (shards pl) |} id P.
Proof.
  intros Hi E HP. exists sh'. cbn [shards]. rewrite length_insert, E.
  by rewrite list_lookup_insert_eq by by eapply lookup_lt_Some.
Qed.

(** The routine obligations of [step_state] and [step_frame]. *)
Ltac routine Hpd :=
  lazymatch goal with
  | |- ∀ k : slot, _ ∨ _ → _ =>
      intros ? [Hk|Hk]; first [by apply not_elem_of_nil in Hk|by apply list_elem_of_singleton in Hk as ->]
  | |- pages_fit _ _ => first [done|apply (pd_pages _ _ _ _ _ Hpd)]
  | |- ∀ h : PageHandle, _ → _ => intros ? ?; first [done|apply elem_of_cons; by right]
  | |- locks_inv _ _ _ => first [assumption|by eapply pool_locks_same]
  | |- _ => done
  end.

Lemma sim_pool_enter L s ths t g hs gs res :
  let th := {| at_place := Entering g; th_handles := hs; th_guards := gs; th_result := res |} in
  pinv L s ths → ths !! t = Some th → few_pins ths →
  wp (enter g th) (psim L s ths t) (λ _, True) s.
Proof.
  intros th [Hl (f & Hf & Hpd)] Ht Hfew. pose proof (pd_thread _ _ _ _ _ Hpd _ _ Ht) as [Hgoal _ _].
  destruct (pd_shard_of _ _ _ _ _ (wanted g) Hpd) as (sh & Hi & Hinv).
  unfold enter. do 2 lock_step. unfold shard_of. set (i := shard_index (pcount s) (wanted g)) in *.
  unfold lock_state. do 2 lock_step. case_decide as Hs; [by lock_step|]. do 3 lock_step.
  rewrite (held_free _ _ _ _ _ i Hl Ht Hs eq_refl) in Hinv.
  eapply wp_with_shard; [exact Hi| |done]. cbn [ps_pool ps_world ps_locks].
  eapply wp_mono; [apply (wp_look_up _ _ _ f _ _ (wanted g) Hinv); by apply few_on| |done].
  intros r [sh' w'] (Ew & Efr & Hr). cbn [fst snd] in *. subst w'.
  pose proof (touch_state (in_shard (ps_pool s) i) L f sh sh' Efr) as Hto.
  destruct r as [h|v|v old|e].
  - destruct Hr as [Eh Hr]. do 2 lock_step. rewrite relock_state by done.
    assert (shard_index (pcount s) (handle_page h) = i) as Ei by by rewrite Eh.
    destruct g as [id|id page]; lock_step; (split; [done|]);
      (eapply (step_state L f s ths t th _ Hpd Hl Ht); [done|by right|done|done| | |exact Hr|..]);
      try by routine Hpd.
    + by eapply handles_to_pin.
    + by eapply handles_to_pin.
    + change (page_fits d (handle_page h) page). by rewrite Eh.
  - destruct Hr as [Hid Hr]. lock_step. split; [done|].
    eapply (step_state L f s ths t th _ Hpd Hl Ht); [done|by right|done|done| |by eapply handles_to_same| |..];
      try by routine Hpd.
    + by rewrite (frame_in_one _ _ i v).
    + split; [done|]. by eapply at_shard_here.
    + eapply locks_moved; [done..|]. intros ss ws rs Hx. by apply lock_state_ok.
  - destruct Hr as (Hid & Hold & Hpins & Hr). lock_step. split; [done|].
    eapply (step_state L f s ths t th _ Hpd Hl Ht); [done|by right|done|done| |by eapply handles_to_same| |..];
      try by routine Hpd.
    + split; [done|]. by eapply at_shard_here.
    + eapply locks_moved; [done..|]. intros ss ws rs Hx. by apply lock_state_ok.
  - destruct Hr as [Hall Hr]. do 3 lock_step. rewrite relock_state by done. split; [by exists i, sh|].
    eapply (step_state L f s ths t th _ Hpd Hl Ht); [done|by right|done|done| |by eapply handles_to_same| |..];
      try by routine Hpd.
Qed.


(** A thread that goes on to [pc] with what it has. *)
Lemma go_ok L f pl th pc :
  thread_ok d L f pl th → place_ok L f pl pc → (∀ k h, pc ≠ Guarding k h) → thread_ok d L f pl (go_to pc th).
Proof. intros [_ Hg _] Hp Hn. split; [done| |by intros k h ?%Hn]. intros kh Hkh. by apply (Hg kh). Qed.

(** A call that returns no handle. *)
Lemma give_ok L f pl th r :
  thread_ok d L f pl th → thread_ok d L f pl (give (no_handle r) th).
Proof. intros [_ Hg _]. split; [done| |done]. intros kh Hkh. destruct r; by apply (Hg kh). Qed.

Lemma sim_evict_lock L s ths t g v old hs gs res :
  let th := {| at_place := LockingVictim g v old; th_handles := hs; th_guards := gs; th_result := res |} in
  pinv L s ths → ths !! t = Some th →
  wp (evict_lock g v old th) (psim L s ths t) (λ _, True) s.
Proof.
  intros th [Hl (f & Hf & Hpd)] Ht. pose proof (pd_thread _ _ _ _ _ Hpd _ _ Ht) as Hok.
  unfold evict_lock, lock_frame. do 4 lock_step. case_decide as Hs; [by lock_step|]. do 3 lock_step.
  split; [done|]. eapply (step_locks L f s ths t th _ Hpd Ht); try done.
  - apply go_ok; [done|apply Hok|done].
  - eapply locks_moved; [done..|]. intros ss ws rs Hx. by apply lock_frame_ok.
Qed.

Lemma io_event_ok L s ths t (r : Result unit) :
  (r ≠ Ok tt → ¬ io_ok (ps_world s)) → event_ok L s ths t (io_event r) ∧ after (io_event r) L = L.
Proof. destruct r as [[]|]; [done|]. intros Hr. split; [by apply Hr|done]. Qed.

Lemma sim_evict_io L s ths t g v old hs gs res :
  let th := {| at_place := Evicting g v old; th_handles := hs; th_guards := gs; th_result := res |} in
  pinv L s ths → ths !! t = Some th →
  wp (evict_io d g v old th) (psim L s ths t) (λ _, True) s.
Proof.
  intros th [Hl (f & Hf & Hpd)] Ht. pose proof (pd_thread _ _ _ _ _ Hpd _ _ Ht) as [[Hgoal Hv] _ _].
  destruct Hv as (sh & Hi & Hmiss & Hold & Hpins). pose proof (pd_shard _ _ _ _ _ Hpd _ _ Hi) as Hinv.
  unfold evict_io. do 2 lock_step. unfold shard_of. set (i := shard_index (pcount s) (wanted g)) in *.
  lock_step. eapply wp_with_shard; [exact Hi| |done].
  eapply wp_mono; [apply (wp_write_back_io d d_wf _ _ _ _ f _ _ v old (pd_pages _ _ _ _ _ Hpd) Hinv Hf Hold)| |done].
  intros r [sh' w'] (f' & Hf' & Hinv' & Hto & _ & Hr). cbn [fst snd] in *. lock_step.
  destruct (io_event_ok L s ths t r) as [Hev Ha]; [by destruct r as [[]|]|].
  split; [done|]. rewrite Ha. destruct (to_state _ _ _ _ _ _ _ _ _ Hto eq_refl) as [Et Ep].
  eapply (step_frame L f s ths t th _ Hpd Hl Ht); [done|exact Hto| | | |exact Hinv'|..]; try by routine Hpd.
  - intros v' [= <-]. left. constructor.
  - split; [done|]. split; [|intros ->; done]. eapply at_shard_here; [done..|].
    unfold victim_ok, missing. by rewrite Et, Ep.
Qed.

Lemma sim_evict_end L s ths t g v old r hs gs res :
  let th := {| at_place := Evicted g v old r; th_handles := hs; th_guards := gs; th_result := res |} in
  pinv L s ths → ths !! t = Some th →
  wp (evict_end g v old r th) (psim L s ths t) (λ _, True) s.
Proof.
  intros th [Hl (f & Hf & Hpd)] Ht. pose proof (pd_thread _ _ _ _ _ Hpd _ _ Ht) as Hok.
  destruct (tk_place _ _ _ _ _ Hok) as (Hgoal & (sh & Hi & Hmiss & Hold & Hpins) & Hd).
  pose proof (pd_shard _ _ _ _ _ Hpd _ _ Hi) as Hinv.
  unfold evict_end. do 2 lock_step. unfold shard_of. set (i := shard_index (pcount s) (wanted g)) in *.
  destruct r as [[]|e].
  2:{ do 5 lock_step. split; [done|]. eapply (step_locks L f s ths t th _ Hpd Ht); try done.
      - by apply (give_ok _ _ _ _ (Err e)).
      - eapply locks_moved; [done..|]. intros ss ws rs Hx. by apply unlock_state_ok, unlock_frame_ok. }
  destruct (held_mine (pcount s) ths t th th Ht _ i Hl) as [Eh _]; [left; constructor|].
  rewrite (Eh : held _ _ i = None) in Hinv. lock_step. eapply wp_with_shard; [exact Hi| |done].
  eapply (wp_clear_dirty _ _ _ _ _ _ _ old _ _ _ Hinv Hold); [by apply Hd|]. intros fr Hclean Hinv1. cbn [fst snd].
  do 3 lock_step. eapply wp_with_shard; [cbn [ps_pool shards]; apply list_lookup_insert_eq; by eapply lookup_lt_Some| |done].
  pose proof (lookup_lt_Some _ _ _ Hi) as Hlt.
  eapply (wp_unmap _ _ _ _ _ _ old fr); [exact Hinv1|done|done| |done|].
  { simpl. apply list_lookup_insert_eq. by eapply shard_inv_frame. }
  intros sh' Efr Hinv' Et. cbn [fst snd ps_pool ps_world ps_locks shards]. rewrite list_insert_insert_eq.
  lock_step. split; [done|].
  eapply (step_state L f s ths t th _ Hpd Hl Ht) with (vo := Some v);
    [done|left; constructor| | | |by eapply handles_to_same| |..]; try by routine Hpd.
  - split; [done| |by left|by left]. intros v' Hv'. rewrite Efr. simpl. rewrite list_lookup_insert_ne; [done|congruence].
  - intros v' [= <-]. left. constructor.
  - by rewrite (frame_in_one _ _ i v).
  - split; [done|]. eapply at_shard_here; [done..|]. unfold missing. rewrite Et. by apply lookup_delete_None; right.
  - eapply locks_moved; [done..|]. intros ss ws rs Hx. by apply unlock_frame_ok.
Qed.

Lemma handle_mine L f s ths t th h :
  pool_data L f (ps_pool s) ths → ths !! t = Some th → h ∈ all_handles th →
  ∃ sh, shards (ps_pool s) !! shard_index (pcount s) (handle_page h) = Some sh ∧
    shard_inv L (in_shard (ps_pool s) (shard_index (pcount s) (handle_page h))) any
      (handles_on (pcount s) ths (shard_index (pcount s) (handle_page h)))
      (held (pcount s) ths (shard_index (pcount s) (handle_page h))) f sh ∧
    h ∈ handles_on (pcount s) ths (shard_index (pcount s) (handle_page h)) ∧
    page_table (shard_state sh) !! handle_page h = Some (handle_frame h).
Proof.
  intros Hpd Ht Hh. destruct (pd_shard_of _ _ _ _ _ (handle_page h) Hpd) as (sh & Hi & Hinv).
  exists sh. pose proof (handles_on_mine (pcount s) ths t th Ht h Hh) as Hon. split_and!; try done.
  by apply (si_hs _ _ _ _ _ _ _ Hinv).
Qed.

Lemma guard_handle L f pl th k h : thread_ok d L f pl th → (k, h) ∈ th_guards th → h ∈ th_handles th.
Proof. intros Hok Hin. by destruct (tk_guards _ _ _ _ _ Hok _ Hin). Qed.

(** Why a page can be written: it is not cached, or its frame is locked. *)
Lemma guarded_mapped L f s ths u y k h :
  pool_data L f (ps_pool s) ths → ths !! u = Some y → (k, h) ∈ th_guards y →
  ∃ sh, shards (ps_pool s) !! shard_index (pcount s) (handle_page h) = Some sh ∧
    page_table (shard_state sh) !! handle_page h = Some (handle_frame h).
Proof.
  intros Hpd Hu Hk. pose proof (guard_handle _ _ _ _ _ _ (pd_thread _ _ _ _ _ Hpd _ _ Hu) Hk) as Hh.
  destruct (handle_mine _ _ _ _ _ _ h Hpd Hu) as (sh & Hi & _ & _ & Hid); [by apply elem_of_app; right|]. eauto.
Qed.

Lemma exclusive_missing L f s ths t id :
  pool_data L f (ps_pool s) ths → at_shard (ps_pool s) id (missing id) → exclusive ths t id.
Proof.
  intros Hpd (sh & Hi & Hmiss) u y k h _ Hu Hk <-.
  destruct (guarded_mapped _ _ _ _ _ _ _ _ Hpd Hu Hk) as (sh' & Hi' & Hid). unfold missing in Hmiss. congruence.
Qed.

Lemma exclusive_locked L f s ths t th h :
  pool_data L f (ps_pool s) ths → locks_inv (pcount s) (ps_locks s) ths → ths !! t = Some th → h ∈ all_handles th →
  slot_of (pcount s) h ∈ holds_write (pcount s) th ∨ unlocked_frame (slot_of (pcount s) h) (ps_locks s) →
  exclusive ths t (handle_page h).
Proof.
  intros Hpd Hl Ht Hh Hlock u y k h' Hne Hu Hk E.
  destruct (guarded_mapped _ _ _ _ _ _ _ _ Hpd Hu Hk) as (sh' & Hi' & Hid').
  destruct (handle_mine _ _ _ _ _ _ h Hpd Ht Hh) as (sh & Hi & _ & _ & Hid). rewrite E in Hi', Hid'.
  assert (slot_of (pcount s) h' = slot_of (pcount s) h) as Es by (unfold slot_of; rewrite E; congruence).
  eapply guard_excludes; [exact Hl|exact Ht|done..|]. by rewrite Es.
Qed.

Lemma sim_use_frame L s ths t g v hs gs res :
  let th := {| at_place := Acquired g v; th_handles := hs; th_guards := gs; th_result := res |} in
  pinv L s ths → ths !! t = Some th →
  wp (use_frame d g v th) (psim L s ths t) (λ _, True) s.
Proof.
  intros th [Hl (f & Hf & Hpd)] Ht. pose proof (pd_thread _ _ _ _ _ Hpd _ _ Ht) as [[Hgoal Hv] _ _].
  destruct Hv as (sh & Hi & Hmiss). pose proof (pd_shard _ _ _ _ _ Hpd _ _ Hi) as Hinv.
  pose proof (pd_pages _ _ _ _ _ Hpd) as HL.
  unfold use_frame. do 2 lock_step. unfold shard_of. set (i := shard_index (pcount s) (wanted g)) in *.
  destruct (held_mine (pcount s) ths t th th Ht _ i Hl) as [Eh _]; [left; constructor|].
  rewrite Eh, (frame_in_one _ _ i v) in Hinv by done. destruct g as [id|id page].
  - destruct Hgoal as [p Hp]. lock_step. eapply wp_with_shard; [exact Hi| |done].
    eapply wp_mono; [apply (wp_read_missing d d_wf _ _ _ _ _ _ id v p HL Hinv Hf Hmiss eq_refl Hp)| |done].
    intros r [sh' w'] (Hf' & Efr & Hr). cbn [fst snd] in *. destruct r as [page|e].
    + destruct Hr as [-> ->]. lock_step. split; [done|].
      eapply (step_state L f s ths t th _ Hpd Hl Ht) with (vo := None);
        [done|left; constructor|by apply touch_state|done| |by eapply handles_to_same| |..]; try by routine Hpd.
      * by rewrite (frame_in_one _ _ i v).
      * split; [by exists p|]. by eapply at_shard_here.
    + destruct Hr as [Hio Hinv']. do 3 lock_step. split; [done|].
      eapply (step_state L f s ths t th _ Hpd Hl Ht) with (vo := None);
        [done|left; constructor|by apply touch_state|done| |by eapply handles_to_same| |..]; try by routine Hpd.
      eapply locks_moved; [done..|]. intros ss ws rs Hx. by apply unlock_state_ok.
  - unfold lock_frame. do 2 lock_step. case_decide as Hs; [by lock_step|]. do 3 lock_step.
    eapply wp_with_shard; [exact Hi| |done].
    eapply wp_mono; [apply (wp_fill_installed _ _ _ _ _ _ id v page Hinv Hmiss eq_refl)| |done].
    intros [] [sh' w'] (Ew & Hto & Hinv'). cbn [fst snd ps_pool ps_world ps_locks] in *. subst w'.
    do 5 lock_step. rewrite relock_frame by tauto. split; [eapply exclusive_missing; [done|by exists sh]|].
    eapply (step_state L f s ths t th _ Hpd Hl Ht);
      [done|left; constructor|exact Hto| | |by eapply handles_to_same| |..]; try by routine Hpd.
    + intros v' [= <-]. by right.
    + by apply map_Forall_insert_2.
    + eapply locks_moved; [done..|]. intros ss ws rs Hx. by apply unlock_state_ok.
Qed.

Lemma sim_fill_frame L s ths t id v page hs gs res :
  let th := {| at_place := Filling id v page; th_handles := hs; th_guards := gs; th_result := res |} in
  pinv L s ths → ths !! t = Some th →
  wp (fill_frame id v page th) (psim L s ths t) (λ _, True) s.
Proof.
  intros th [Hl (f & Hf & Hpd)] Ht. pose proof (pd_thread _ _ _ _ _ Hpd _ _ Ht) as [[(p & Hp & ->) Hv] _ _].
  destruct Hv as (sh & Hi & Hmiss). pose proof (pd_shard _ _ _ _ _ Hpd _ _ Hi) as Hinv.
  unfold fill_frame. do 2 lock_step. unfold shard_of. set (i := shard_index (pcount s) id) in *.
  destruct (held_mine (pcount s) ths t th th Ht _ i Hl) as [Eh _]; [left; constructor|].
  rewrite Eh, (frame_in_one _ _ i v) in Hinv by done.
  unfold lock_frame. do 2 lock_step. case_decide as Hs; [by lock_step|]. do 3 lock_step.
  eapply wp_with_shard; [exact Hi| |done].
  eapply wp_mono; [apply (wp_fill_fetched _ _ _ _ _ _ id v p Hinv Hmiss eq_refl Hp)| |done].
  intros [] [sh' w'] (Ew & Hto & Hinv'). cbn [fst snd ps_pool ps_world ps_locks] in *. subst w'.
  do 5 lock_step. rewrite relock_frame by tauto. split; [done|].
  eapply (step_state L f s ths t th _ Hpd Hl Ht);
    [done|left; constructor|exact Hto| | | |exact Hinv'|..]; try by routine Hpd.
  - intros v' [= <-]. by right.
  - by eapply handles_to_pin.
  - eapply locks_moved; [done..|]. intros ss ws rs Hx. by apply unlock_state_ok.
Qed.

Lemma sim_install_cached L s ths t page h hs gs res :
  let th := {| at_place := Installing page h; th_handles := hs; th_guards := gs; th_result := res |} in
  pinv L s ths → ths !! t = Some th →
  wp (install_cached page h th) (psim L s ths t) (λ _, True) s.
Proof.
  intros th [Hl (f & Hf & Hpd)] Ht. pose proof (pd_thread _ _ _ _ _ Hpd _ _ Ht) as [Hpage _ _].
  destruct (pd_shard_of _ _ _ _ _ (handle_page h) Hpd) as (sh & Hi & Hinv).
  assert (h ∈ handles_on (pcount s) ths (shard_index (pcount s) (handle_page h))) as Hh
    by (eapply handles_on_mine; [done|constructor]).
  destruct (pinned_frame _ _ _ _ _ _ _ Hinv Hh) as (fr & p & Hfr & Hp & _ & _ & Hset).
  destruct (Hset page page (same_page_refl page)) as [Hinv' Hto].
  unfold install_cached, lock_frame. do 4 lock_step. case_decide as Hs; [by lock_step|]. do 3 lock_step.
  eapply wp_with_shard; [exact Hi| |done]. eapply wp_update; [exact Hfr|]. do 3 lock_step.
  rewrite relock_frame by tauto. split; [eapply exclusive_locked; [done..|constructor|by right]|].
  eapply (step_frame L f s ths t th _ Hpd Hl Ht); [done|exact Hto| | | |exact Hinv'|..]; try by routine Hpd.
  - intros v' [= <-]. by right.
  - apply map_Forall_insert_2; [done|apply Hpd].
Qed.

Lemma sim_flush_enter L s ths t id hs gs res :
  let th := {| at_place := FlushEntering id; th_handles := hs; th_guards := gs; th_result := res |} in
  pinv L s ths → ths !! t = Some th → few_pins ths →
  wp (flush_enter id th) (psim L s ths t) (λ _, True) s.
Proof.
  intros th [Hl (f & Hf & Hpd)] Ht Hfew. destruct (pd_shard_of _ _ _ _ _ id Hpd) as (sh & Hi & Hinv).
  unfold flush_enter. do 2 lock_step. unfold shard_of. set (i := shard_index (pcount s) id) in *.
  unfold lock_state. do 2 lock_step. case_decide as Hs; [by lock_step|]. do 3 lock_step.
  rewrite (held_free _ _ _ _ _ i Hl Ht Hs eq_refl) in Hinv.
  eapply wp_with_shard; [exact Hi| |done]. cbn [ps_pool ps_world ps_locks].
  eapply wp_mono; [apply (wp_pin_cached _ _ _ f _ _ id Hinv); by apply few_on| |done].
  intros r [sh' w'] (Ew & Efr & Hr). cbn [fst snd] in *. subst w'. do 2 lock_step. rewrite relock_state by done.
  pose proof (touch_state (in_shard (ps_pool s) i) L f sh sh' Efr) as Hto.
  destruct r as [h|]; lock_step; (split; [done|]).
  - destruct Hr as [Eh Hr].
    eapply (step_state L f s ths t th _ Hpd Hl Ht); [done|by right|done|done| | |exact Hr|..]; try by routine Hpd.
    eapply handles_to_pin; [done|done|]. by rewrite Eh.
  - eapply (step_state L f s ths t th _ Hpd Hl Ht); [done|by right|done|done| |by eapply handles_to_same| |..];
      try by routine Hpd.
Qed.

Lemma sim_flush_lock L s ths t h hs gs res :
  let th := {| at_place := LockingPage h; th_handles := hs; th_guards := gs; th_result := res |} in
  pinv L s ths → ths !! t = Some th →
  wp (flush_lock h th) (psim L s ths t) (λ _, True) s.
Proof.
  intros th [Hl (f & Hf & Hpd)] Ht. pose proof (pd_thread _ _ _ _ _ Hpd _ _ Ht) as Hok.
  unfold flush_lock, lock_frame. do 4 lock_step. case_decide as Hs; [by lock_step|]. do 3 lock_step.
  split; [done|]. eapply (step_locks L f s ths t th _ Hpd Ht); try done; [by apply go_ok|].
  eapply locks_moved; [done..|]. intros ss ws rs Hx. by apply lock_frame_ok.
Qed.

Lemma sim_flush_io L s ths t h hs gs res :
  let th := {| at_place := Flushing h; th_handles := hs; th_guards := gs; th_result := res |} in
  pinv L s ths → ths !! t = Some th →
  wp (flush_io d h th) (psim L s ths t) (λ _, True) s.
Proof.
  intros th [Hl (f & Hf & Hpd)] Ht.
  destruct (handle_mine _ _ _ _ _ _ h Hpd Ht) as (sh & Hi & Hinv & Hon & Hid); [constructor|].
  unfold flush_io. do 2 lock_step. unfold shard_of. set (i := shard_index (pcount s) (handle_page h)) in *.
  lock_step. eapply wp_with_shard; [exact Hi| |done].
  eapply wp_mono; [apply (wp_write_back_io d d_wf _ _ _ _ f _ _ (handle_frame h) (handle_page h)
    (pd_pages _ _ _ _ _ Hpd) Hinv Hf Hid)| |done].
  intros r [sh' w'] (f' & Hf' & Hinv' & Hto & _ & Hr). cbn [fst snd] in *. lock_step.
  destruct (io_event_ok L s ths t r) as [Hev Ha]; [by destruct r as [[]|]|].
  split; [done|]. rewrite Ha.
  eapply (step_frame L f s ths t th _ Hpd Hl Ht); [done|exact Hto| | | |exact Hinv'|..]; try by routine Hpd.
  - intros v' [= <-]. left. constructor.
  - intros Er. cbn in Er. by rewrite Er in Hr.
Qed.

Lemma sim_flush_end L s ths t h r hs gs res :
  let th := {| at_place := Flushed h r; th_handles := hs; th_guards := gs; th_result := res |} in
  pinv L s ths → ths !! t = Some th →
  wp (flush_end h r th) (psim L s ths t) (λ _, True) s.
Proof.
  intros th [Hl (f & Hf & Hpd)] Ht. pose proof (pd_thread _ _ _ _ _ Hpd _ _ Ht) as Hok.
  destruct (handle_mine _ _ _ _ _ _ h Hpd Ht) as (sh & Hi & Hinv & Hon & Hid); [constructor|].
  assert (locks_inv (pcount s) (set_writers (λ x, x ∖ {[ slot_of (pcount s) h ]}) (ps_locks s))
    (<[t := go_to (Dropping h r) th]> ths)) as Hl'.
  { eapply locks_moved; [done..|]. intros ss ws rs Hx. by apply unlock_frame_ok. }
  unfold flush_end. do 3 lock_step. destruct r as [[]|e].
  2:{ do 4 lock_step. split; [done|]. eapply (step_locks L f s ths t th _ Hpd Ht); try done. by apply go_ok. }
  eapply wp_with_shard; [exact Hi| |done].
  eapply (wp_clear_dirty _ _ _ _ _ _ _ (handle_page h) _ _ _ Hinv Hid); [by apply (tk_place _ _ _ _ _ Hok)|].
  intros fr Hclean Hinv'. do 3 lock_step. split; [done|].
  eapply (step_frame L f s ths t th _ Hpd Hl Ht) with (vo := Some (handle_frame h));
    [done| | | | |exact Hinv'|..]; try by routine Hpd.
  - split; [done| |by left|by left]. intros v' Hv'. simpl. rewrite list_lookup_insert_ne; [done|congruence].
  - intros v' [= <-]. left. constructor.
Qed.

Lemma sim_drop_handle L s ths t h r hs gs res :
  let th := {| at_place := Dropping h r; th_handles := hs; th_guards := gs; th_result := res |} in
  pinv L s ths → ths !! t = Some th → few_pins ths →
  wp (drop_handle h r th) (psim L s ths t) (λ _, True) s.
Proof.
  intros th [Hl (f & Hf & Hpd)] Ht Hfew.
  destruct (handle_mine _ _ _ _ _ _ h Hpd Ht) as (sh & Hi & Hinv & Hon & Hid); [constructor|].
  unfold drop_handle. do 2 lock_step. unfold shard_of. set (i := shard_index (pcount s) (handle_page h)) in *.
  unfold lock_state. do 2 lock_step. case_decide as Hs; [by lock_step|]. do 3 lock_step.
  rewrite (held_free _ _ _ _ _ i Hl Ht Hs eq_refl) in Hinv.
  destruct (handles_to_drop (pcount s) ths t th (give (no_handle r) th) i h Ht) as [Ed Hto]; [by destruct r|done|].
  eapply wp_with_shard; [exact Hi| |done].
  eapply wp_unpin; [by eapply shard_inv_handles| |].
  { pose proof (few_on (pcount s) ths i Hfew) as Hf1. unfold few_handles in *. rewrite Ed in Hf1. simpl in Hf1. lia. }
  intros st' Et Hinv'. do 3 lock_step. rewrite relock_state by done. split; [done|].
  eapply (step_state L f s ths t th _ Hpd Hl Ht) with (vo := None);
    [done|by right|by apply touch_state|done| |exact Hto|exact Hinv'|..]; destruct r; try by routine Hpd.
Qed.

(** A client that changes a page through its guard. *)
Lemma step_dirty L f s ths t th th' h p' q sh l' :
  let i := shard_index (pcount s) (handle_page h) in
  pool_data L f (ps_pool s) ths → locks_inv (pcount s) (ps_locks s) ths → ths !! t = Some th →
  w_files (ps_world s) !! dm_file d = Some f → h ∈ th_handles th → shards (ps_pool s) !! i = Some sh →
  slot_of (pcount s) h ∈ holds_write (pcount s) th ∨ unlocked_frame (slot_of (pcount s) h) (ps_locks s) →
  page_fits d (handle_page h) p' → same_page p' q → holds_frame (pcount s) th = [] → place_handle (at_place th) = None →
  at_place th' = Client → th_handles th' = th_handles th →
  (∀ kh, kh ∈ th_guards th' → kh ∈ th_guards th ∨ kh = (WriteGuard, h)) →
  locks_inv (pcount s) l' (<[t := th']> ths) →
  let pl' := {| shards := <[i := with_frame (handle_frame h) {| frame_page := q; frame_dirty := true |} sh]>
                            (shards (ps_pool s)) |} in
  pinv (<[handle_page h := p']> L) {| ps_pool := pl'; ps_world := ps_world s; ps_locks := l' |} (<[t := th']> ths) ∧
  frames_kept (ps_pool s) ths t pl'.
Proof.
  intros i Hpd Hl Ht Hf Hh Hi Hw Hp' Hq Hfr Hph Ec Eh Hg Hl' pl'.
  destruct (handle_mine _ _ _ _ _ _ h Hpd Ht) as (sh0 & Hi0 & Hinv & Hon & Hid); [by apply elem_of_app; right|].
  fold i in Hi0, Hinv, Hon. assert (sh0 = sh) as -> by congruence.
  destruct (pinned_frame _ _ _ _ _ _ _ Hinv Hon) as (fr & p & Hfr0 & Hp & _ & _ & Hset).
  destruct (Hset p' q Hq) as [Hinv' Hto]. set (sh' := with_frame _ _ sh) in *.
  assert (all_handles th' ≡ₚ all_handles th) as Eall by (unfold all_handles; by rewrite Ec, Eh, Hph).
  assert (∀ j, frame_in (pcount s) th' j = frame_in (pcount s) th j) as Efr.
  { intros j. unfold frame_in. rewrite Hfr. unfold holds_frame. by rewrite Ec. }
  split; [|eapply touch_frames_kept; [done|exact Hl|done|exact Hi|exact Hto|by intros v [= <-]]].
  split; unfold pl'; cbn [ps_pool ps_locks shards]; [by rewrite length_insert|]. exists f. split; [done|].
  eapply (pool_moved d L _ f f (ps_pool s) ths i sh sh' false (Some (handle_frame h)) Hpd Hi Hto t th th' (ps_locks s));
    try done.
  - intros v [= <-]. by apply unlocked_unwritten.
  - rewrite (held_same _ _ _ _ _ Ht i (Efr i)). eapply shard_inv_handles; [symmetry; by eapply handles_on_same|done].
  - intros j _. by eapply handles_on_same.
  - apply map_Forall_insert_2; [done|apply Hpd].
  - pose proof (pd_thread _ _ _ _ _ Hpd _ _ Ht) as [_ Hgo _]. split; [by rewrite Ec| |by rewrite Ec].
    intros kh Hkh. unfold guard_ok. rewrite Eh.
    assert (kh.2 ∈ th_handles th ∧ (kh.1 = WriteGuard → slot_of (pcount s) kh.2 ≠ slot_of (pcount s) h →
      at_shard (ps_pool s) (handle_page kh.2) (dirty_frame kh.2))) as [H1 H2].
    { destruct (Hg kh Hkh) as [Hold| ->]; [destruct (Hgo kh Hold); auto|done]. }
    split; [done|]. intros Ek. unfold slot_of in H2.
    destruct (decide (slot_of (pcount s) kh.2 = slot_of (pcount s) h)) as [E|Hne].
    + injection E as E1 E2. eapply at_shard_here; [done..|]. unfold dirty_frame. rewrite E2. eexists.
      split; [simpl; apply list_lookup_insert_eq; by eapply lookup_lt_Some|done].
    + eapply (at_shard_moved _ i sh sh' Hi); [by apply H2|]. intros E (fr' & Hfr' & Hd). exists fr'.
      split; [|done]. simpl. rewrite list_lookup_insert_ne; [done|]. intros E'. destruct Hne. unfold slot_of.
      by rewrite E, E'.
Qed.

Lemma sim_take_guard L s ths t k h hs gs res :
  let th := {| at_place := Guarding k h; th_handles := hs; th_guards := gs; th_result := res |} in
  pinv L s ths → ths !! t = Some th →
  wp (take_guard k h th) (psim L s ths t) (λ _, True) s.
Proof.
  intros th [Hl (f & Hf & Hpd)] Ht. pose proof (pd_thread _ _ _ _ _ Hpd _ _ Ht) as [_ Hg Hh].
  specialize (Hh k h eq_refl). unfold take_guard. do 2 lock_step. destruct k.
  - unfold lock_frame_read. do 2 lock_step. case_decide as Hs; [by lock_step|]. do 3 lock_step.
    split; [done|]. eapply (step_locks L f s ths t th _ Hpd Ht); try done.
    + split; [done| |done]. intros kh [->|Hkh]%elem_of_cons; [done|by apply (Hg kh)].
    + eapply locks_moved; [done..|]. intros ss ws rs Hx. by apply lock_frame_read_ok.
  - unfold lock_frame. do 2 lock_step. case_decide as Hs; [by lock_step|]. do 3 lock_step.
    destruct (handle_mine _ _ _ _ _ _ h Hpd Ht) as (sh & Hi & Hinv & Hon & Hid); [by apply elem_of_app; right|].
    destruct (pinned_frame _ _ _ _ _ _ _ Hinv Hon) as (fr & p & Hfr & Hp & Ep & _).
    eapply wp_with_shard; [exact Hi| |done]. unfold mark_dirty. wp_step. eapply wp_index; [exact Hfr|].
    eapply wp_update; [exact Hfr|]. lock_step. split; [done|].
    rewrite <- (insert_id L (handle_page h) p Hp) at 1.
    eapply (step_dirty L f s ths t th); try done.
    + by right.
    + by apply (pd_pages _ _ _ _ _ Hpd).
    + intros kh [->|Hkh]%elem_of_cons; auto.
    + eapply locks_moved; [done..|]. intros ss ws rs Hx. by apply lock_frame_ok.
Qed.

Lemma sim_pool_look L s ths t h th :
  pinv L s ths → ths !! t = Some th → wp (look h th) (psim L s ths t) (λ _, True) s.
Proof.
  intros [Hl (f & Hf & Hpd)] Ht. pose proof (pd_thread _ _ _ _ _ Hpd _ _ Ht) as Hok.
  unfold look. do 2 lock_step. case_decide as Hg; [|by lock_step].
  assert (h ∈ th_handles th) as Hh by (destruct Hg; by eapply guard_handle).
  destruct (handle_mine _ _ _ _ _ _ h Hpd Ht) as (sh & Hi & Hinv & Hon & Hid); [by apply elem_of_app; right|].
  destruct (pinned_frame _ _ _ _ _ _ _ Hinv Hon) as (fr & p & Hfr & Hp & Ep & _).
  lock_step. eapply wp_with_shard; [exact Hi| |done]. unfold handle_read. wp_step. eapply wp_index; [exact Hfr|].
  do 2 lock_step. split; [by exists p|]. rewrite !list_insert_id by done. destruct s as [[] w l]. split; [|done]. split; [done|]. by exists f.
Qed.

Lemma sim_change_page L s ths t h change th :
  pinv L s ths → ths !! t = Some th → at_place th = Client →
  (∀ p q, L !! handle_page h = Some p → same_page p q → page_fits d (handle_page h) (change q)) →
  wp (change_page h change th) (psim L s ths t) (λ _, True) s.
Proof.
  intros [Hl (f & Hf & Hpd)] Ht Ec Hch. pose proof (pd_thread _ _ _ _ _ Hpd _ _ Ht) as Hok.
  unfold change_page. do 2 lock_step. case_decide as Hg; [|by lock_step].
  destruct (tk_guards _ _ _ _ _ Hok _ Hg) as [Hh Hd].
  destruct (Hd eq_refl) as (sh & Hi & fr & Hfr & Hdirty). cbn [fst snd] in *.
  destruct (handle_mine _ _ _ _ _ _ h Hpd Ht) as (sh0 & Hi0 & Hinv & Hon & Hid); [by apply elem_of_app; right|].
  assert (sh0 = sh) as -> by congruence.
  destruct (pinned_frame _ _ _ _ _ _ _ Hinv Hon) as (fr0 & p & Hfr0 & Hp & Ep & _).
  assert (fr0 = fr) as -> by congruence.
  lock_step. eapply wp_with_shard; [exact Hi| |done]. unfold modify_page. wp_step. eapply wp_index; [exact Hfr|].
  wp_step. eapply wp_update; [exact Hfr|]. do 2 lock_step.
  split; [split; [by exists p|]; eapply exclusive_locked; [done..|by apply elem_of_app; right|left; apply elem_of_app; right; by apply guarded_slot]|].
  rewrite Hdirty. cbn [after]. eapply (step_dirty L f s ths t th); try done.
  - left. apply elem_of_app. right. by apply guarded_slot.
  - by eapply Hch.
  - apply same_page_refl.
  - unfold holds_frame. by rewrite Ec.
  - by rewrite Ec.
  - auto.
  - by rewrite list_insert_id.
Qed.

Lemma sim_drop_guard L s ths t k h th :
  pinv L s ths → ths !! t = Some th → at_place th = Client →
  wp (drop_guard k h th) (psim L s ths t) (λ _, True) s.
Proof.
  intros [Hl (f & Hf & Hpd)] Ht Ec. pose proof (pd_thread _ _ _ _ _ Hpd _ _ Ht) as Hok.
  unfold drop_guard. do 2 lock_step. destruct (remove_one (k, h) (th_guards th)) as [gs|] eqn:Eg; [|by lock_step].
  apply remove_one_Some in Eg.
  assert (thread_ok d L f (ps_pool s) (set_guards gs th)) as Hok'.
  { split; [apply Hok| |apply Hok]. intros kh Hkh. apply (tk_guards _ _ _ _ _ Hok).
    rewrite Eg. by apply elem_of_cons; right. }
  assert (∀ n j, guarded n j th ≡ₚ (if decide (k = j) then [slot_of n h] else []) ++ guarded n j (set_guards gs th)) as Hgs.
  { intros n j. unfold guarded. rewrite Eg. cbn [th_guards set_guards].
    destruct (decide (k = j)); [by rewrite filter_cons_True|by rewrite filter_cons_False]. }
  lock_step. destruct k; do 2 lock_step; (split; [done|]);
    (eapply (step_locks L f s ths t th _ Hpd Ht); try done); (eapply locks_moved; [done..|]);
    intros ss ws rs; unfold holds_write; rewrite (Hgs _ ReadGuard), (Hgs _ WriteGuard);
    cbn [at_place set_guards]; rewrite !Ec; cbn [place_writes app]; intros Hx.
  - by apply unlock_frame_read_ok.
  - by apply unlock_frame_ok.
Qed.

Lemma sim_release_handle L s ths t h th :
  pinv L s ths → ths !! t = Some th → at_place th = Client →
  wp (release_handle h th) (psim L s ths t) (λ _, True) s.
Proof.
  intros [Hl (f & Hf & Hpd)] Ht Ec. pose proof (pd_thread _ _ _ _ _ Hpd _ _ Ht) as Hok.
  unfold release_handle. destruct (remove_one h (th_handles th)) as [hs|] eqn:Eh; [|by lock_step].
  apply remove_one_Some in Eh. case_decide as Hg; [|by lock_step]. lock_step. split; [done|].
  destruct s as [pl w l]. eapply (step_locks L f _ ths t th _ Hpd Ht).
  - unfold holds_frame. by rewrite Ec.
  - unfold all_handles. rewrite Ec. cbn. by rewrite Eh.
  - split; [done| |done]. intros kh Hkh. split; [by eapply Forall_forall in Hg|]. by apply (tk_guards _ _ _ _ _ Hok).
  - done.
  - eapply pool_locks_same; [done..| | |done]; unfold holds_state, holds_write; by rewrite Ec.
Qed.

End Simulation.
