(* ===== verification/PoolShared.v ===== *)
(** * What the threads of a pool can rely on

    Runs of any number of threads in the buffer pool: reads return the page
    last written, no step panics, the holder of a shard's [state] never waits,
    threads wait for each other only through the guards of their clients, and
    a page under a guard does not change. *)

From stdpp Require Import gmultiset.
From S2P Require Import Prelude Errors Checksum Page FileHeader FileSys Disk BufferPool PoolCache.
From S2P Require Import PoolThreads PoolLocks PoolSim.

Section Runs.
Context `{Cpu} `{HashOrder}.
Variable d : DiskManager.
Hypothesis d_wf : disk_wf d.
Implicit Types (L : gmap PageId Page) (f : file) (pl : BufferPool) (sh : Shard) (th : pthread).

Abbreviation pinv := (pinv d).
Abbreviation pcount s := (length (shards (ps_pool s))).

(** A call begins. *)
Lemma sim_call L s ths t th pc :
  pinv L s ths → ths !! t = Some th → at_place th = Client → place_handle pc = None →
  holds_frame (pcount s) (go_to pc th) = [] → holds_state (pcount s) (go_to pc th) = [] →
  place_writes (pcount s) pc = [] → (∀ f, place_ok d L f (ps_pool s) pc) →
  (∀ k h, pc = Guarding k h → h ∈ th_handles th) →
  pinv L s (<[t := go_to pc th]> ths) ∧ frames_kept (ps_pool s) ths t (ps_pool s).
Proof.
  intros [Hl (f & Hf & Hpd)] Ht Ec E1 E2 E3 E4 Hp Hg. pose proof (pd_thread _ _ _ _ _ Hpd _ _ Ht) as Hok.
  destruct s as [pl w l]. eapply (step_locks d L f _ ths t th _ Hpd Ht).
  - rewrite E2. unfold holds_frame. by rewrite Ec.
  - unfold all_handles. cbn [at_place go_to]. by rewrite Ec, E1.
  - split; [apply Hp| |exact Hg]. intros kh Hkh. by apply (tk_guards _ _ _ _ _ Hok).
  - done.
  - eapply pool_locks_same; [done..| | |done].
    + rewrite E3. unfold holds_state. by rewrite Ec.
    + unfold holds_write. cbn [at_place go_to]. by rewrite E4, Ec.
Qed.

Lemma sim_pstep L s ths t th a :
  pinv L s ths → ths !! t = Some th → paction_ok d L a → few_pins ths →
  wp (pstep d th a) (psim d L s ths t) (λ _, True) s.
Proof.
  intros Hinv Ht Ha Hfew. unfold pstep. destruct (at_place th) eqn:Epc; destruct a; try (by apply wp_ret).
  - apply wp_ret. split; [done|]. by eapply sim_call.
  - destruct (page_id page =? id)%Z; apply wp_ret; [|done]. split; [done|]. by eapply sim_call.
  - apply wp_ret. split; [done|]. by eapply sim_call.
  - by apply sim_release_handle.
  - case_decide as Hh; apply wp_ret; [|done]. split; [done|]. eapply sim_call; try done. by intros k' h' [= <- <-].
  - by apply sim_pool_look.
  - by apply sim_change_page.
  - by apply sim_drop_guard.
  - destruct th; simpl in Epc; subst. by apply sim_pool_enter.
  - destruct th; simpl in Epc; subst. by apply sim_flush_enter.
  - destruct th; simpl in Epc; subst. by apply sim_evict_lock.
  - destruct th; simpl in Epc; subst. by apply sim_evict_io.
  - destruct th; simpl in Epc; subst. by apply sim_evict_end.
  - destruct th; simpl in Epc; subst. by apply sim_use_frame.
  - destruct th; simpl in Epc; subst. by apply sim_fill_frame.
  - destruct th; simpl in Epc; subst. by apply sim_install_cached.
  - destruct th; simpl in Epc; subst. by apply sim_flush_lock.
  - destruct th; simpl in Epc; subst. by apply sim_flush_io.
  - destruct th; simpl in Epc; subst. by apply sim_flush_end.
  - destruct th; simpl in Epc; subst. by apply sim_drop_handle.
  - destruct th; simpl in Epc; subst. by apply sim_take_guard.
Qed.

Lemma pinv_plan L s ths plan : pinv L s ths → pinv L (plan_pool plan s) ths.
Proof. done. Qed.

(** ** Runs *)

(** What a sequence of events does to the pages, if it is one the pages allow:
    a client that looks at a page or changes it sees what the page holds at
    that moment, with the checksum as the client left it or brought up to date
    by a write-back. *)
Definition sees (L : gmap PageId Page) (ev : pevent) : Prop :=
  match ev with
  | PvRead id q | PvModify id q _ => ∃ p, L !! id = Some p ∧ same_page p q
  | _ => True
  end.

Inductive page_history : gmap PageId Page → list (nat * pevent) → gmap PageId Page → Prop :=
  | history_nil L : page_history L [] L
  | history_cons t ev evs L L' :
      sees L ev → page_history (after ev L) evs L' → page_history L ((t, ev) :: evs) L'.

Lemma psteps_inv L s ths evs L' s' ths' :
  psteps d L s ths evs L' s' ths' → pinv L s ths → page_history L evs L' ∧ pinv L' s' ths'.
Proof.
  induction 1 as [|t th a plan ev th' L s ths s1 evs L' s' ths' Ht Ha Hfew Hstep _ IH]; intros Hinv.
  { split; [constructor|done]. }
  destruct (wp_Done _ _ _ _ _ _ (sim_pstep _ _ _ _ _ _ (pinv_plan _ _ _ plan Hinv) Ht Ha Hfew) Hstep) as (Hev & Hinv' & _).
  destruct (IH Hinv') as [Hh Hend]. split; [|done]. constructor; [|done].
  destruct ev; try done. apply Hev.
Qed.

(** The pool before any thread has used it. *)
Definition idle : pthread := {| at_place := Client; th_handles := []; th_guards := []; th_result := Ok None |}.

Definition fresh_pool (cap : nat) (w : World) : PState :=
  {| ps_pool := {| shards := new_shards cap |}; ps_world := w; ps_locks := no_locks |}.

Lemma idle_bind {B} (g : pthread → list B) k : g idle = [] → replicate k idle ≫= g = [].
Proof. intros E. induction k as [|k IH]; [done|]. change (replicate (S k) idle) with (idle :: replicate k idle). by rewrite bind_cons, E, IH. Qed.

Lemma fresh_inv L f cap w k :
  0 < cap → pages_wf d L → w_files w !! dm_file d = Some f → (∀ id p, L !! id = Some p → disk_has f id p) →
  pinv L (fresh_pool cap w) (replicate k idle).
Proof.
  intros Hcap HL Hf Hd. destruct (pool_new_inv L any f cap Hcap) as [Hk Hsh];
    [intros id p Hp; apply (pages_wf_stored _ _ _ _ _ HL Hp); by apply Hd|]. split.
  - unfold locks_inv. rewrite !idle_bind by done. split; [split; [constructor|done]..|done|by intros ? ?%not_elem_of_nil].
  - exists f. split; [done|]. split; [by apply pages_wf_fit|done| |].
    + intros i sh Hi. unfold handles_on, held. rewrite !idle_bind by done. by apply Hsh.
    + intros t th [-> _]%lookup_replicate. split; [done|by intros kh ?%not_elem_of_nil|done].
Qed.

(** ** Waiting *)

(** The lock a thread takes next. *)
Definition needs_state (n : nat) (pc : place) : option nat :=
  match pc with
  | Entering g => Some (shard_index n (wanted g))
  | FlushEntering id => Some (shard_index n id)
  | Dropping h _ => Some (shard_index n (handle_page h))
  | _ => None
  end.

Definition needs_write (n : nat) (pc : place) : option slot :=
  match pc with
  | LockingVictim g v _ => Some (shard_index n (wanted g), v)
  | Acquired (ForInstall id _) v | Filling id v _ => Some (shard_index n id, v)
  | Installing _ h | LockingPage h | Guarding WriteGuard h => Some (slot_of n h)
  | _ => None
  end.

Definition needs_read (n : nat) (pc : place) : option slot :=
  match pc with Guarding ReadGuard h => Some (slot_of n h) | _ => None end.

(** A computation that does not end in waiting. *)
Definition moving (m : M PState poutcome) : Prop := ∀ s, (m s).1 ≠ Done None.

Lemma moving_moves ev th : moving (moves ev th).
Proof. done. Qed.

Lemma moving_bind {A} (m : M PState A) k : (∀ a, moving (k a)) → moving (bind m k).
Proof. intros Hk s. unfold bind. destruct (m s) as [[a| |] s']; [apply Hk|done..]. Qed.

Lemma moving_lock_state i k s : moving k → i ∉ state_locks (ps_locks s) → (lock_state i k s).1 ≠ Done None.
Proof.
  intros Hk Hi. unfold lock_state, bind, gets. rewrite decide_False by done. by apply (moving_bind (set_plocks _)).
Qed.

Lemma moving_lock_frame j k s :
  moving k → j ∉ frame_writers (ps_locks s) → j ∉ frame_readers (ps_locks s) → (lock_frame j k s).1 ≠ Done None.
Proof.
  intros Hk Hw Hr. unfold lock_frame, bind, gets. rewrite decide_False by tauto. by apply (moving_bind (set_plocks _)).
Qed.

Lemma moving_lock_frame_read j k s :
  moving k → j ∉ frame_writers (ps_locks s) → (lock_frame_read j k s).1 ≠ Done None.
Proof.
  intros Hk Hw. unfold lock_frame_read, bind, gets. rewrite decide_False by done. by apply (moving_bind (set_plocks _)).
Qed.

Ltac moving_step :=
  lazymatch goal with
  | |- moving (moves _ _) => apply moving_moves
  | |- moving (bind _ _) => apply moving_bind; intros ?
  | |- moving (match ?x with _ => _ end) => destruct x
  end.

(** A thread inside a call goes on unless the lock it needs is taken. *)
Lemma step_ready th s :
  at_place th ≠ Client →
  (∀ i, needs_state (pcount s) (at_place th) = Some i → i ∉ state_locks (ps_locks s)) →
  (∀ k, needs_write (pcount s) (at_place th) = Some k →
     (k ∉ frame_writers (ps_locks s)) ∧ (k ∉ frame_readers (ps_locks s))) →
  (∀ k, needs_read (pcount s) (at_place th) = Some k → k ∉ frame_writers (ps_locks s)) →
  (pstep d th PGo s).1 ≠ Done None.
Proof.
  intros Hpc Hs Hw Hr. unfold pstep. destruct (at_place th); simpl in Hs, Hw, Hr; try done.
  - apply moving_lock_state; [repeat moving_step|by apply Hs].
  - apply moving_lock_state; [repeat moving_step|by apply Hs].
  - destruct (Hw _ eq_refl). apply moving_lock_frame; [repeat moving_step|done..].
  - clear Hs Hw Hr. revert s. change (moving (evict_io d g v old th)). unfold evict_io. repeat moving_step.
  - clear Hs Hw Hr. revert s. change (moving (evict_end g v old r th)). unfold evict_end. repeat moving_step.
  - destruct g as [id|id page].
    + clear Hs Hw Hr. revert s. change (moving (use_frame d (ForFetch id) v th)). unfold use_frame. repeat moving_step.
    + destruct (Hw _ eq_refl). apply moving_lock_frame; [repeat moving_step|done..].
  - destruct (Hw _ eq_refl). apply moving_lock_frame; [repeat moving_step|done..].
  - destruct (Hw _ eq_refl). apply moving_lock_frame; [repeat moving_step|done..].
  - destruct (Hw _ eq_refl). apply moving_lock_frame; [repeat moving_step|done..].
  - clear Hs Hw Hr. revert s. change (moving (flush_io d h th)). unfold flush_io. repeat moving_step.
  - clear Hs Hw Hr. revert s. change (moving (flush_end h r th)). unfold flush_end. repeat moving_step.
  - apply moving_lock_state; [repeat moving_step|by apply Hs].
  - destruct k.
    + apply moving_lock_frame_read; [repeat moving_step|by apply Hr].
    + destruct (Hw _ eq_refl). apply moving_lock_frame; [repeat moving_step|done..].
Qed.

(** Who holds the lock of a frame: a thread with the page pinned, or one that
    evicts it with [state] locked. *)
Definition locks_slot (n : nat) (k : slot) (y : pthread) : Prop :=
  k ∈ holds_write n y ∨ k ∈ guarded n ReadGuard y.

Lemma slot_holder n l ths k :
  locks_inv n l ths → k ∈ frame_writers l ∨ k ∈ frame_readers l →
  ∃ u y, ths !! u = Some y ∧ locks_slot n k y.
Proof.
  intros [_ [_ Ew] Er _]. rewrite Ew, Er, elem_of_list_to_set, elem_of_list_to_set_disj, !list_elem_of_bind.
  intros [(y & Hk & [u Hu]%list_elem_of_lookup)|(y & Hk & [u Hu]%list_elem_of_lookup)]; exists u, y;
    (split; [done|]); [by left|by right].
Qed.

Lemma guarded_inv n j k y : k ∈ guarded n j y → ∃ h, (j, h) ∈ th_guards y ∧ k = slot_of n h.
Proof. intros ([j' h] & -> & [<- Hin]%list_elem_of_filter)%list_elem_of_fmap. eauto. Qed.

Lemma slot_user L f pl n k y :
  thread_ok d L f pl y → locks_slot n k y →
  (∃ g h, (g, h) ∈ th_guards y ∧ h ∈ all_handles y ∧ k = slot_of n h) ∨
  k ∈ place_writes n (at_place y).
Proof.
  intros Hok [[Hk|Hk]%elem_of_app|Hk]; [by right|left..]; apply guarded_inv in Hk as (h & Hin & ->);
    (eexists _, h; split; [exact Hin|]; split; [|done]); apply elem_of_app; right;
    by destruct (tk_guards _ _ _ _ _ Hok _ Hin).
Qed.

(** No handle is on the frame that the holder of [state] is about to lock. *)
Lemma frame_unused L f s ths t th k :
  let n := pcount s in
  pool_data d L f (ps_pool s) ths → locks_inv n (ps_locks s) ths → ths !! t = Some th →
  holds_state n th ≠ [] → needs_write n (at_place th) = Some k →
  k.1 ∈ holds_state n th ∧ ∀ h, h ∈ handles_on n ths k.1 → handle_frame h ≠ k.2.
Proof.
  intros n Hpd Hl Ht Hs Hn. pose proof (pd_thread _ _ _ _ _ Hpd _ _ Ht) as [Hp _ _].
  assert (∀ g v sh, shards (ps_pool s) !! shard_index n (wanted g) = Some sh →
    holds_frame n th = [(shard_index n (wanted g), v)] → shard_index n (wanted g) ∈ holds_state n th →
    ∀ h, h ∈ handles_on n ths (shard_index n (wanted g)) → handle_frame h ≠ v) as Hheld.
  { intros g v sh Hi Efr Hst h Hh <-. pose proof (pd_shard _ _ _ _ _ Hpd _ _ Hi) as Hinv.
    destruct (held_mine n ths t th th Ht _ _ Hl (or_introl Hst)) as [Eh _].
    rewrite (frame_in_one _ _ _ _ Efr) in Eh. pose proof (si_hs _ _ _ _ _ _ _ Hinv h Hh) as Hid.
    apply (si_table _ _ _ _ _ _ _ Hinv) in Hid. pose proof (si_held _ _ _ _ _ _ _ Hinv _ Eh). congruence. }
  unfold needs_write, holds_state, holds_frame in *.
  destruct (at_place th) as [| | |g v old| | |[|id page] v|id v page| | | | | |[]]; simplify_eq; try done.
  - destruct Hp as [_ (sh & Hi & _ & Hold & Hpins)]. split; [constructor|].
    intros h Hh. pose proof (pd_shard _ _ _ _ _ Hpd _ _ Hi) as Hinv. intros E. cbn [snd] in E. subst v.
    apply (unpinned_count _ _ _ _ _ _ _ Hinv) in Hpins; [|by eapply shard_inv_frame]. destruct Hpins.
    apply list_elem_of_fmap. eauto.
  - destruct Hp as [_ (sh & Hi & _)]. split; [constructor|].
    apply (Hheld (ForInstall id page) v sh Hi); [done|constructor].
  - destruct Hp as [_ (sh & Hi & _)]. split; [constructor|].
    apply (Hheld (ForFetch id) v sh Hi); [done|constructor].
Qed.

(** So that frame is free. *)
Lemma frame_free L s ths t th k :
  pinv L s ths → ths !! t = Some th → holds_state (pcount s) th ≠ [] →
  needs_write (pcount s) (at_place th) = Some k →
  (k ∉ frame_writers (ps_locks s)) ∧ (k ∉ frame_readers (ps_locks s)).
Proof.
  intros [Hl (f & Hf & Hpd)] Ht Hs Hn. destruct (frame_unused _ _ _ _ _ _ _ Hpd Hl Ht Hs Hn) as [Hmine Hno].
  set (n := pcount s) in *.
  enough (∀ u y, ths !! u = Some y → ¬ locks_slot n k y) as Hfree.
  { split; intros Hk; (destruct (slot_holder n _ _ k Hl) as (u & y & Hu & Hy); [tauto|]); by destruct (Hfree u y). }
  intros u y Hu Hy. pose proof (pd_thread _ _ _ _ _ Hpd _ _ Hu) as Hok.
  assert (∀ h, h ∈ all_handles y → k ≠ slot_of n h) as Hpin.
  { intros h Hh ->. by destruct (Hno h (handles_on_mine n ths u y Hu h Hh)). }
  destruct (slot_user _ _ _ n k y Hok Hy) as [(g & h & _ & Hh & E)|Hw]; [by destruct (Hpin h Hh)|].
  assert (k.1 ∈ holds_state n y → False) as Hst.
  { intros Hst. destruct (decide (u = t)) as [->|Hne].
    - assert (y = th) as -> by congruence. unfold needs_write, place_writes in *.
      destruct (at_place th); try done; by apply not_elem_of_nil in Hw.
    - by apply (state_mine n ths t th Ht _ _ u y Hl (or_introl Hmine) Hne Hu). }
  unfold place_writes, holds_state, all_handles in *. destruct (at_place y); simpl in *;
    try (by apply not_elem_of_nil in Hw); apply list_elem_of_singleton in Hw as ->.
  - apply Hst. constructor.
  - apply Hst. constructor.
  - by apply (Hpin h); [constructor|].
  - by apply (Hpin h); [constructor|].
Qed.

(** A thread inside a call that can go on, whatever the disk does. *)
Definition enabled (s : PState) (th : pthread) : Prop :=
  at_place th ≠ Client ∧
  ∀ plan, wp (pstep d th PGo) (λ r _, is_Some r) (λ _, True) (plan_pool plan s).

Lemma enabled_intro L s ths t th :
  pinv L s ths → ths !! t = Some th → few_pins ths → at_place th ≠ Client →
  (∀ i, needs_state (pcount s) (at_place th) = Some i → i ∉ state_locks (ps_locks s)) →
  (∀ k, needs_write (pcount s) (at_place th) = Some k →
     (k ∉ frame_writers (ps_locks s)) ∧ (k ∉ frame_readers (ps_locks s))) →
  (∀ k, needs_read (pcount s) (at_place th) = Some k → k ∉ frame_writers (ps_locks s)) →
  enabled s th.
Proof.
  intros Hinv Ht Hfew Hpc Hs Hw Hr. split; [done|]. intros plan.
  pose proof (sim_pstep L (plan_pool plan s) ths t th PGo (pinv_plan _ _ _ plan Hinv) Ht I Hfew) as Hsim.
  pose proof (step_ready th (plan_pool plan s) Hpc Hs Hw Hr) as Hno.
  unfold wp in *. destruct (pstep d th PGo (plan_pool plan s)) as [[[x|]| |] s']; [by eexists|by destruct Hno|done..].
Qed.

(** The holder of [state] is never kept waiting. *)
Lemma holder_enabled L s ths t th :
  pinv L s ths → ths !! t = Some th → few_pins ths → holds_state (pcount s) th ≠ [] → enabled s th.
Proof.
  intros Hinv Ht Hfew Hs. eapply enabled_intro; [done..| | | |].
  - unfold holds_state in Hs. by destruct (at_place th).
  - unfold holds_state, needs_state in *. by destruct (at_place th).
  - intros k. by eapply frame_free.
  - unfold holds_state, needs_read in *. by destruct (at_place th).
Qed.

(** The frame a thread waits for is under the guard of a client. *)
Definition waits_for_guard (s : PState) (ths : list pthread) (th : pthread) : Prop :=
  ∃ k u y g h, (needs_write (pcount s) (at_place th) = Some k ∨ needs_read (pcount s) (at_place th) = Some k) ∧
    ths !! u = Some y ∧ (g, h) ∈ th_guards y ∧ slot_of (pcount s) h = k.

Lemma progress L s ths t th :
  pinv L s ths → ths !! t = Some th → few_pins ths → at_place th ≠ Client →
  (∃ u y, ths !! u = Some y ∧ enabled s y) ∨ waits_for_guard s ths th.
Proof.
  intros Hinv Ht Hfew Hpc. pose proof Hinv as [Hl (f & Hf & Hpd)]. set (n := pcount s) in *.
  assert (∀ i, i ∈ state_locks (ps_locks s) → ∃ u y, ths !! u = Some y ∧ enabled s y) as Hstate.
  { intros i Hi. rewrite (proj2 (lk_state _ _ _ _ Hl)), elem_of_list_to_set in Hi.
    apply list_elem_of_bind in Hi as (y & Hy & [u Hu]%list_elem_of_lookup). exists u, y. split; [done|].
    eapply holder_enabled; [done..|]. fold n. intros E. rewrite E in Hy. by apply not_elem_of_nil in Hy. }
  assert (∀ k, k ∈ frame_writers (ps_locks s) ∨ k ∈ frame_readers (ps_locks s) →
    needs_write n (at_place th) = Some k ∨ needs_read n (at_place th) = Some k →
    (∃ u y, ths !! u = Some y ∧ enabled s y) ∨ waits_for_guard s ths th) as Hframe.
  { intros k Hk Hneed. destruct (slot_holder n _ _ k Hl Hk) as (u & y & Hu & Hy).
    destruct (slot_user _ _ _ n k y (pd_thread _ _ _ _ _ Hpd _ _ Hu) Hy) as [(g & h & Hg & _ & ->)|Hw].
    - right. by exists (slot_of n h), u, y, g, h.
    - left. exists u, y. split; [done|]. unfold place_writes in Hw.
      eapply enabled_intro; [done..| | | |]; destruct (at_place y); try done; by apply not_elem_of_nil in Hw. }
  destruct (needs_state n (at_place th)) as [i|] eqn:Es.
  - destruct (decide (i ∈ state_locks (ps_locks s))) as [Hi|Hi]; [left; by eapply Hstate|]. left. exists t, th.
    split; [done|]. eapply enabled_intro; [done..| | |]; fold n; unfold needs_state, needs_write, needs_read in *;
      destruct (at_place th); naive_solver.
  - destruct (needs_write n (at_place th)) as [k|] eqn:Ew.
    + destruct (decide (k ∈ frame_writers (ps_locks s) ∨ k ∈ frame_readers (ps_locks s))) as [Hk|Hk];
        [eapply Hframe; eauto|]. left. exists t, th. split; [done|].
      eapply enabled_intro; [done..| | |]; fold n; [congruence|naive_solver|].
      unfold needs_write, needs_read in *. destruct (at_place th) as [| | | | | | | | | | | | |[]]; naive_solver.
    + destruct (needs_read n (at_place th)) as [k|] eqn:Er.
      * destruct (decide (k ∈ frame_writers (ps_locks s))) as [Hk|Hk]; [eapply Hframe; eauto|].
        left. exists t, th. split; [done|]. eapply enabled_intro; [done..| | |]; fold n; naive_solver.
      * left. exists t, th. split; [done|]. eapply enabled_intro; [done..| | |]; fold n; naive_solver.
Qed.

End Runs.

(** ** Properties *)

Section Properties.
Context `{Cpu}.
Implicit Types (L : gmap PageId Page) (th : pthread).

(** A run of [k] threads that share a new pool of [cap] frames, in front of a
    file that holds the pages [L0]; the pages are [L] at the end. *)
Record pool_run (d : DiskManager) (cap k : nat) (w : World) L0 (evs : list (nat * pevent)) L
    (s : PState) (ths : list pthread) : Prop := {
  pr_disk : disk_wf d;
  pr_capacity : 0 < cap;
  pr_pages : pages_wf d L0;
  pr_file : ∃ f, w_files w !! dm_file d = Some f ∧ ∀ id p, L0 !! id = Some p → disk_has f id p;
  pr_steps : psteps d L0 (fresh_pool cap w) (replicate k idle) evs L s ths;
}.

Lemma pool_run_inv d cap k w L0 evs L s ths :
  pool_run d cap k w L0 evs L s ths → page_history L0 evs L ∧ pinv d L s ths.
Proof. intros [Hd Hcap HL (f & Hf & Hon) Hst]. by eapply psteps_inv, fresh_inv. Qed.

(** C6. However the steps of the threads interleave and whatever the disk
    does, the pool behaves like one map from page ids to pages: every read
    through a guard returns the page that was last installed or written, and
    otherwise the page in the file.  Pages need not be sealed when they are
    installed or changed: a page read has the checksum its client left, or the
    one a write-back computed since. *)
Theorem pool_linearizable (d : DiskManager) (cap k : nat) (w : World) L0 (evs : list (nat * pevent)) L
    (s : PState) (ths : list pthread) :
  pool_run d cap k w L0 evs L s ths → page_history L0 evs L.
Proof. apply pool_run_inv. Qed.

(** The type of a shard's bookkeeping: one entry per frame in every vector,
    the table and the frames' pages inverse to each other, and the free list
    made of distinct empty frames. *)
Record shard_typed (owned : PageId → Prop) (sh : Shard) : Prop := {
  st_vectors : clock_wf (length (shard_frames sh)) (shard_state sh);
  st_table id v : page_table (shard_state sh) !! id = Some v ↔ frame_pages (shard_state sh) !! v = Some (Some id);
  st_owned id : is_Some (page_table (shard_state sh) !! id) → owned id;
  st_free : NoDup (free_frames (shard_state sh));
  st_empty v : v ∈ free_frames (shard_state sh) → frame_pages (shard_state sh) !! v = Some None;
}.

Lemma shard_inv_typed L owned D hs held f sh : shard_inv L owned D hs held f sh → shard_typed owned sh.
Proof.
  intros Hi. split; [apply Hi|by apply (si_table _ _ _ _ _ _ _ Hi)| |apply Hi|].
  - intros id [v Hv]. by eapply si_cached.
  - intros v Hv. by apply (si_free _ _ _ _ _ _ _ Hi) in Hv as [? _].
Qed.

(** C20. Between any two steps every shard is well formed; the pin count of
    each frame is the number of handles that threads have on it, which fits a
    [u32], and each handle names the frame its page is in. *)
Theorem pool_well_formed (d : DiskManager) (cap k : nat) (w : World) L0 (evs : list (nat * pevent)) L
    (s : PState) (ths : list pthread) (i : nat) (sh : Shard) :
  pool_run d cap k w L0 evs L s ths → shards (ps_pool s) !! i = Some sh → few_pins ths →
  let hs := handles_on (length (shards (ps_pool s))) ths i in
  shard_typed (λ id, shard_index (length (shards (ps_pool s))) id = i) sh ∧
  (∀ v, v < length (shard_frames sh) →
     pin_counts (shard_state sh) !! v = Some (Z.of_nat (pins_of v hs)) ∧ u32_range (Z.of_nat (pins_of v hs))) ∧
  (∀ h, h ∈ hs → page_table (shard_state sh) !! handle_page h = Some (handle_frame h)).
Proof.
  intros Hrun Hi Hfew hs. destruct (pool_run_inv _ _ _ _ _ _ _ _ _ Hrun) as (_ & _ & f & _ & Hpd).
  pose proof (pd_shard _ _ _ _ _ Hpd i sh Hi) as Hsh. split; [by eapply shard_inv_typed|].
  split; [|by eapply si_hs]. intros v Hv. split; [by eapply shard_inv_vectors|].
  pose proof (pins_of_length v hs). pose proof (few_on (length (shards (ps_pool s))) ths i Hfew) as Hf.
  unfold few_handles, u32_range in *. fold hs in Hf. lia.
Qed.

(** No step of any thread panics: the victim of an eviction always holds a
    page, pin counts never go below zero, and no index is out of bounds. *)
Theorem pool_steps_never_panic (d : DiskManager) (cap k : nat) (w : World) L0 (evs : list (nat * pevent)) L
    (s : PState) (ths : list pthread) (t : nat) th (a : paction) (plan : list io_fate) :
  pool_run d cap k w L0 evs L s ths → ths !! t = Some th → paction_ok d L a → few_pins ths →
  (pstep d th a (plan_pool plan s)).1 ≠ Panicked.
Proof.
  intros Hrun Ht Ha Hfew. destruct (pool_run_inv _ _ _ _ _ _ _ _ _ Hrun) as [_ Hinv].
  pose proof (sim_pstep d (pr_disk _ _ _ _ _ _ _ _ _ Hrun) _ _ _ _ _ _ (pinv_plan _ _ _ _ plan Hinv) Ht Ha Hfew) as Hsim.
  unfold wp in Hsim. by destruct (pstep d th a (plan_pool plan s)) as [[] ?].
Qed.

(** A thread that has locked a shard's [state] is never kept waiting: the
    only other lock it takes is that of an unpinned frame, and no guard can
    hold it. *)
Theorem state_holder_never_waits (d : DiskManager) (cap k : nat) (w : World) L0 (evs : list (nat * pevent)) L
    (s : PState) (ths : list pthread) (t : nat) th :
  pool_run d cap k w L0 evs L s ths → ths !! t = Some th → few_pins ths →
  holds_state (length (shards (ps_pool s))) th ≠ [] → enabled d s th.
Proof.
  intros Hrun Ht Hfew Hs. destruct (pool_run_inv _ _ _ _ _ _ _ _ _ Hrun) as [_ Hinv].
  eapply holder_enabled; [apply Hrun|done..].
Qed.

(** C18. The locks of the pool do not deadlock: while calls are in progress one
    of them can go on, unless each waits for a frame that a client keeps under
    a guard. *)
Theorem pool_no_deadlock (d : DiskManager) (cap k : nat) (w : World) L0 (evs : list (nat * pevent)) L
    (s : PState) (ths : list pthread) :
  pool_run d cap k w L0 evs L s ths → few_pins ths →
  (∃ t th, ths !! t = Some th ∧ enabled d s th) ∨
  (∀ t th, ths !! t = Some th → at_place th ≠ Client → waits_for_guard s ths th).
Proof.
  intros Hrun Hfew. destruct (pool_run_inv _ _ _ _ _ _ _ _ _ Hrun) as [_ Hinv].
  set (E := ∃ t th, ths !! t = Some th ∧ enabled d s th).
  enough (∀ l : list pthread, (∀ th, th ∈ l → ∃ t, ths !! t = Some th) →
    E ∨ ∀ th, th ∈ l → at_place th ≠ Client → waits_for_guard s ths th) as Hall.
  { destruct (Hall ths) as [|Hw]; [by intros th [t Ht]%list_elem_of_lookup; eauto|by left|right].
    intros t th Ht. apply Hw. by eapply list_elem_of_lookup_2. }
  intros l. induction l as [|th l IH]; intros Hl; [by right; intros th ?%not_elem_of_nil|].
  destruct IH as [|IH]; [intros y Hy; apply Hl; by constructor|by left|].
  destruct (Hl th ltac:(constructor)) as [t Ht].
  assert (at_place th = Client ∨ at_place th ≠ Client) as [Ec|Hc] by (destruct (at_place th); auto).
  { right. intros y [->|Hy]%elem_of_cons; [done|by apply IH]. }
  destruct (progress d (pr_disk _ _ _ _ _ _ _ _ _ Hrun) _ _ _ _ _ Hinv Ht Hfew Hc) as [|Hw]; [by left|].
  right. intros y [->|Hy]%elem_of_cons; [done|by apply IH].
Qed.

(** C19. As long as a client has a guard on a page, no step of another thread
    changes the page, nor the frame the client looks at: not even its checksum
    or its dirty flag. *)
Theorem guarded_page_stable (d : DiskManager) (cap k : nat) (w : World) L0 (evs : list (nat * pevent)) L
    (s s' : PState) (ths : list pthread) (t u : nat) (th th' y : pthread) (g : guard) (h : PageHandle)
    (a : paction) (plan : list io_fate) (ev : pevent) :
  pool_run d cap k w L0 evs L s ths → ths !! u = Some y → (g, h) ∈ th_guards y →
  ths !! t = Some th → t ≠ u → paction_ok d L a → few_pins ths →
  pstep d th a (plan_pool plan s) = (Done (Some (ev, th')), s') →
  after ev L !! handle_page h = L !! handle_page h ∧ frame_at (ps_pool s') h = frame_at (ps_pool s) h.
Proof.
  intros Hrun Hu Hg Ht Hne Ha Hfew Hstep. destruct (pool_run_inv _ _ _ _ _ _ _ _ _ Hrun) as [_ Hinv].
  destruct (wp_Done _ _ _ _ _ _ (sim_pstep d (pr_disk _ _ _ _ _ _ _ _ _ Hrun) _ _ _ _ _ _
    (pinv_plan _ _ _ _ plan Hinv) Ht Ha Hfew) Hstep) as (Hev & _ & Hkept).
  split; [|eapply Hkept; [|exact Hu|exact Hg]; congruence].
  assert (∀ id, exclusive ths t id → handle_page h ≠ id) as Hex
    by (intros id Hid; eapply Hid; [|exact Hu|exact Hg]; congruence).
  destruct ev as [| | | |id p|id change]; try done; simpl in Hev |- *.
  - apply lookup_insert_ne. apply not_eq_sym. by apply Hex.
  - apply lookup_insert_ne. apply not_eq_sym, Hex. apply Hev.
Qed.

End Properties.

(** ** Schedules *)

Section Schedule.
Context `{Cpu}.
Variable d : DiskManager.

Definition page_okb (id : PageId) (p : Page) : bool :=
  (0 <? id)%Z && (id <? dm_page_count d)%Z && bool_decide (page_wf p) && is_ok (verify id (seal p)).

Definition paction_okb (L : gmap PageId Page) (a : paction) : bool :=
  match a with
  | PFetch id => bool_decide (is_Some (L !! id))
  | PInstall id page => page_okb id page
  | PModify h change =>
      match L !! handle_page h with Some p => page_okb (handle_page h) (change p) && page_okb (handle_page h) (change (seal p)) | None => true end
  | _ => true
  end.

Lemma page_okb_sound id p : page_okb id p = true → page_fits d id p.
Proof.
  unfold page_okb. rewrite !andb_true_iff. intros [[[H1 H2] H3] H4]. split; [unfold data_page; lia|].
  split; [by apply bool_decide_eq_true_1 in H3|]. destruct (verify id (seal p)); [eauto|done].
Qed.

Lemma paction_okb_sound L a : paction_okb L a = true → paction_ok d L a.
Proof.
  destruct a; simpl; try done; [by intros ?%bool_decide_eq_true_1|apply page_okb_sound|].
  intros E p q Hp Hq. rewrite Hp in E. apply andb_true_iff in E as [E1 E2].
  destruct Hq as [-> | ->]; by apply page_okb_sound.
Qed.

(** A step to take: the thread, what it does, what the disk does. *)
Definition pjob : Type := nat * paction * list io_fate.

(** Runs the jobs in order, if none of them waits, panics or crashes. *)
Fixpoint pschedule (jobs : list pjob) (L : gmap PageId Page) (s : PState) (ths : list pthread) :
    option (list (nat * pevent) * gmap PageId Page * PState * list pthread) :=
  match jobs with
  | [] => Some ([], L, s, ths)
  | (t, a, plan) :: jobs =>
      th ← ths !! t;
      if negb (paction_okb L a && (Z.of_nat (length (ths ≫= all_handles)) + 1 <? 2 ^ 32)%Z) then None
      else
        match pstep d th a (plan_pool plan s) with
        | (Done (Some (ev, th')), s') =>
            '(evs, L'', s'', ths'') ← pschedule jobs (after ev L) s' (<[t := th']> ths);
            Some ((t, ev) :: evs, L'', s'', ths'')
        | _ => None
        end
  end.

Lemma pschedule_sound jobs L s ths evs L' s' ths' :
  pschedule jobs L s ths = Some (evs, L', s', ths') → psteps d L s ths evs L' s' ths'.
Proof.
  revert L s ths evs. induction jobs as [|[[t a] plan] jobs IH]; intros L s ths evs; simpl.
  { intros [= <- <- <- <-]. constructor. }
  intros (th & Hth & E)%bind_Some.
  destruct (paction_okb L a && _) eqn:Ha; simpl in E; [|done]. apply andb_true_iff in Ha as [Ha Hfew].
  destruct (pstep d th a (plan_pool plan s)) as [[[[ev th']|]| |] s1] eqn:Et; try done.
  apply bind_Some in E as ([[[evs1 L2] s2] ths2] & Es & [= <- <- <- <-]).
  econstructor; [done|by apply paction_okb_sound|unfold few_pins; lia|done|by apply IH].
Qed.

End Schedule.

(** ** Example runs *)

Module PoolThreadsWitness.
Import PageWitness DiskWitness PoolWitness.

#[local] Existing Instance cpu.

Definition page1_handle : PageHandle := {| handle_frame := 0; handle_page := 1 |}.
Definition page2_handle : PageHandle := {| handle_frame := 0; handle_page := 2 |}.

Definition does (t : nat) (acts : list paction) : list pjob := (λ a, (t, a, [])) <$> acts.

(** A pool with a single frame.  Thread 0 reads page 1 under a guard; then
    thread 1 installs page 2, which has to evict page 1. *)
Definition reads_page1 : list pjob :=
  does 0 [PFetch 1; PGo; PGo; PGo; PGuard ReadGuard page1_handle; PGo; PLook page1_handle].

Definition lets_go : list pjob :=
  does 0 [PUnguard ReadGuard page1_handle; PDrop page1_handle; PGo].

Definition finds_victim : list pjob := does 1 [PInstall 2 (page_new 2 Heap); PGo].

Definition installs_page2 : list pjob := does 1 [PGo; PGo; PGo; PGo].

(** Thread 0 flushes page 2 while thread 1 looks at it. *)
Definition flush_and_read : list pjob :=
  does 0 [PFlush 2; PGo] ++ does 1 [PFetch 2; PGo; PGuard ReadGuard page2_handle] ++
  does 0 [PGo; PGo; PGo; PGo] ++ does 1 [PGo; PLook page2_handle].

Definition run (jobs : list pjob) :=
  pschedule disk jobs pages (fresh_pool 1 world) (replicate 2 idle).

Lemma run_sound jobs evs L s ths :
  run jobs = Some (evs, L, s, ths) → pool_run disk 1 2 world pages evs L s ths.
Proof.
  intros E. split; [apply disk_ok|lia|apply pages_ok| |by apply pschedule_sound in E].
  exists the_file. split; [apply world_file|apply pages_on_disk].
Qed.

(** The runs exist; [check] looks at where they end. *)
Definition ends (jobs : list pjob) (check : list (nat * pevent) → PState → list pthread → bool) : bool :=
  match run jobs with Some (evs, _, s, ths) => check evs s ths | None => false end.

Lemma ends_run jobs check :
  ends jobs check = true →
  ∃ evs L s ths, pool_run disk 1 2 world pages evs L s ths ∧ check evs s ths = true.
Proof.
  unfold ends. destruct (run jobs) as [[[[evs L] s] ths]|] eqn:E; [|done].
  intros Hc. exists evs, L, s, ths. split; [by apply run_sound in E|done].
Qed.

Definition few_pinsb (ths : list pthread) : bool := (Z.of_nat (length (ths ≫= all_handles)) + 1 <? 2 ^ 32)%Z.

Lemma few_pinsb_sound ths : few_pinsb ths = true → few_pins ths.
Proof. unfold few_pinsb, few_pins. lia. Qed.

Definition reads_both (evs : list (nat * pevent)) (_ : PState) (_ : list pthread) : bool :=
  match last evs with
  | Some (1, PvRead 2 p) => bool_decide (data p = data page2)
  | _ => false
  end.

Lemma reads_both_ends :
  ends (reads_page1 ++ lets_go ++ finds_victim ++ installs_page2 ++ flush_and_read) reads_both = true.
Proof. vm_compute. reflexivity. Qed.

(** Thread 1 has [state] locked and is about to lock its victim. *)
Definition at_victim (_ : list (nat * pevent)) (_ : PState) (ths : list pthread) : bool :=
  few_pinsb ths && match ths !! 1 with
                   | Some {| at_place := LockingVictim _ _ _ |} => true
                   | _ => false
                   end.

Lemma at_victim_ends : ends (reads_page1 ++ lets_go ++ finds_victim) at_victim = true.
Proof. vm_compute. reflexivity. Qed.

Lemma at_victim_inv evs s ths n :
  at_victim evs s ths = true →
  few_pins ths ∧ ∃ th, ths !! 1 = Some th ∧ holds_state n th ≠ [] ∧ at_place th ≠ Client.
Proof.
  unfold at_victim. intros [Hf Ht]%andb_true_iff. split; [by apply few_pinsb_sound|].
  destruct (ths !! 1) as [[[]]|]; try done. by eexists.
Qed.

(** Thread 0 has a guard on page 1. *)
Definition page1_guarded (_ : list (nat * pevent)) (_ : PState) (ths : list pthread) : bool :=
  few_pinsb ths && match ths !! 0, ths !! 1 with
                   | Some y, Some {| at_place := Client |} => bool_decide ((ReadGuard, page1_handle) ∈ th_guards y)
                   | _, _ => false
                   end.

Lemma page1_guarded_ends : ends reads_page1 page1_guarded = true.
Proof. vm_compute. reflexivity. Qed.

Lemma page1_guarded_inv evs s ths :
  page1_guarded evs s ths = true →
  few_pins ths ∧ ∃ y th, ths !! 0 = Some y ∧ (ReadGuard, page1_handle) ∈ th_guards y ∧
    ths !! 1 = Some th ∧ at_place th = Client.
Proof.
  unfold page1_guarded. intros [Hf Ht]%andb_true_iff. split; [by apply few_pinsb_sound|].
  destruct (ths !! 0) as [y|]; [|done]. destruct (ths !! 1) as [[[]]|]; try done.
  apply bool_decide_eq_true_1 in Ht. eauto 10.
Qed.

Lemma pool_linearizable_witness :
  ∃ evs L, page_history pages evs L ∧ ∃ p, last evs = Some (1, PvRead 2 p) ∧ data p = data page2.
Proof.
  destruct (ends_run _ _ reads_both_ends) as (evs & L & s & ths & Hrun & Hc).
  exists evs, L. split; [exact (pool_linearizable _ _ _ _ _ _ _ _ _ Hrun)|].
  unfold reads_both in Hc. destruct (last evs) as [[[|[|]] []]|]; try done.
  destruct id as [|[?|[?|?|]|]|?]; try done. apply bool_decide_eq_true_1 in Hc. eauto.
Defined.

Definition one_shard (_ : list (nat * pevent)) (s : PState) (ths : list pthread) : bool :=
  few_pinsb ths && match shards (ps_pool s) with
                   | [sh] => bool_decide (pin_counts (shard_state sh) !! 0 = Some 1%Z)
                   | _ => false
                   end.

Lemma one_shard_ends : ends reads_page1 one_shard = true.
Proof. vm_compute. reflexivity. Qed.

Lemma pool_well_formed_witness :
  ∃ s (ths : list pthread) sh, shards (ps_pool s) !! 0 = Some sh ∧ clock_wf (length (shard_frames sh)) (shard_state sh) ∧
    pin_counts (shard_state sh) !! 0 = Some 1%Z ∧ pins_of 0 (handles_on (length (shards (ps_pool s))) ths 0) = 1.
Proof.
  destruct (ends_run _ _ one_shard_ends) as (evs & L & s & ths & Hrun & Hc).
  unfold one_shard in Hc. apply andb_true_iff in Hc as [Hf%few_pinsb_sound Hc].
  assert (∃ sh, shards (ps_pool s) !! 0 = Some sh ∧ pin_counts (shard_state sh) !! 0 = Some 1%Z) as (sh & Hi & Hp).
  { destruct (shards (ps_pool s)) as [|sh []]; [done| |done]. exists sh. by apply bool_decide_eq_true_1 in Hc. }
  destruct (pool_well_formed _ _ _ _ _ _ _ _ _ 0 sh Hrun Hi Hf) as (Hty & Hpins & _).
  exists s, ths, sh. split; [done|]. split; [apply Hty|]. split; [done|].
  destruct (Hpins 0) as [E _]; [|rewrite Hp in E; injection E; lia].
  rewrite <- (clock_pins _ _ (st_vectors _ _ Hty)). by eapply lookup_lt_Some.
Defined.

Lemma pool_steps_never_panic_witness :
  ∃ s (ths : list pthread) th, ths !! 1 = Some th ∧ (pstep disk th PGo (plan_pool [IoFail 5 0] s)).1 ≠ Panicked.
Proof.
  destruct (ends_run _ _ at_victim_ends) as (evs & L & s & ths & Hrun & Hc).
  destruct (at_victim_inv _ _ _ 1 Hc) as (Hf & th & Ht & _). exists s, ths, th. split; [done|].
  exact (pool_steps_never_panic _ _ _ _ _ _ _ _ _ 1 th PGo [IoFail 5 0] Hrun Ht I Hf).
Defined.

Lemma state_holder_never_waits_witness :
  ∃ s (ths : list pthread) th, ths !! 1 = Some th ∧ at_place th ≠ Client ∧ enabled disk s th.
Proof.
  destruct (ends_run _ _ at_victim_ends) as (evs & L & s & ths & Hrun & Hc).
  destruct (at_victim_inv _ _ _ (length (shards (ps_pool s))) Hc) as (Hf & th & Ht & Hs & Hcl). exists s, ths, th.
  split; [done|]. split; [done|]. exact (state_holder_never_waits _ _ _ _ _ _ _ _ _ 1 th Hrun Ht Hf Hs).
Defined.

Lemma pool_no_deadlock_witness :
  ∃ s (ths : list pthread), (∃ t th, ths !! t = Some th ∧ at_place th ≠ Client) ∧
    ((∃ t th, ths !! t = Some th ∧ enabled disk s th) ∨
     ∀ t th, ths !! t = Some th → at_place th ≠ Client → waits_for_guard s ths th).
Proof.
  destruct (ends_run _ _ at_victim_ends) as (evs & L & s & ths & Hrun & Hc).
  destruct (at_victim_inv _ _ _ 1 Hc) as (Hf & th & Ht & _ & Hcl). exists s, ths.
  split; [eauto|]. exact (pool_no_deadlock _ _ _ _ _ _ _ _ _ Hrun Hf).
Defined.

Lemma guarded_page_stable_witness :
  ∃ (L : gmap PageId Page) s (ths : list pthread) th ev th' s',
    ths !! 1 = Some th ∧ pstep disk th (PFlush 1) (plan_pool [] s) = (Done (Some (ev, th')), s') ∧
    after ev L !! 1%Z = L !! 1%Z ∧ frame_at (ps_pool s') page1_handle = frame_at (ps_pool s) page1_handle.
Proof.
  destruct (ends_run _ _ page1_guarded_ends) as (evs & L & s & ths & Hrun & Hc).
  destruct (page1_guarded_inv _ _ _ Hc) as (Hf & y & th & Hy & Hg & Ht & Ecl).
  assert (pstep disk th (PFlush 1) (plan_pool [] s) =
    (Done (Some (PvTau, go_to (FlushEntering 1) th)), plan_pool [] s)) as E by (unfold pstep; by rewrite Ecl).
  exists L, s, ths, th, PvTau, (go_to (FlushEntering 1) th), (plan_pool [] s). split; [done|]. split; [done|].
  exact (guarded_page_stable _ _ _ _ _ _ _ _ _ _ 1 0 _ _ _ _ page1_handle (PFlush 1) [] PvTau
    Hrun Hy Hg Ht ltac:(done) I Hf E).
Defined.

End PoolThreadsWitness.
