(* ===== verification/PoolSolo.v ===== *)
(** * One thread in the pool

    The steps of [PoolThreads] put together again: a call on the pool that no
    other thread interleaves with does what the method of [BufferPool] does,
    whatever the disk answers. *)

From stdpp Require Import gmultiset.
From S2P Require Import Prelude Errors Checksum Page FileHeader FileSys Disk BufferPool PoolCache.
From S2P Require Import PoolThreads PoolLocks PoolSim PoolShared.

Section Rest.
Context `{Cpu}.
Variable d : DiskManager.

Abbreviation SW := (Shard * World)%type.

(** ** What is left of a call

    The pieces of a method that follow a place, as one computation on the
    shard; it returns what the client receives: a handle, nothing or an error. *)

Definition rest_fill (id : PageId) (v : FrameId) (page : Page) : M SW (Result (option PageHandle)) :=
  let! _ := fill_fetched id v page in
  ret (Ok (Some {| handle_frame := v; handle_page := id |})).

Definition rest_frame (g : purpose) (v : FrameId) : M SW (Result (option PageHandle)) :=
  match g with
  | ForFetch id =>
      let! r := read_missing id v d in
      match r with Ok page => rest_fill id v page | Err e => ret (Err e) end
  | ForInstall id page =>
      let! _ := fill_installed id v page in
      ret (Ok None)
  end.

Definition rest_evicted (g : purpose) (v : FrameId) (old : PageId) (r : Result unit) : M SW (Result (option PageHandle)) :=
  match r with
  | Err e => ret (Err e)
  | Ok _ =>
      let! _ := clear_dirty v in
      let! _ := unmap v old in
      rest_frame g v
  end.

Definition rest_evict (g : purpose) (v : FrameId) (old : PageId) : M SW (Result (option PageHandle)) :=
  let! r := write_back_io v old d in
  rest_evicted g v old r.

Definition rest_drop (h : PageHandle) (r : Result unit) : M SW (Result (option PageHandle)) :=
  let! _ := unpin (handle_frame h) in
  ret (no_handle r).

Definition rest_install (page : Page) (h : PageHandle) : M SW (Result (option PageHandle)) :=
  let! _ := replace_page h page in
  rest_drop h (Ok tt).

Definition rest_enter (g : purpose) : M SW (Result (option PageHandle)) :=
  let! r := look_up (wanted g) in
  match r with
  | Hit h => match g with ForFetch _ => ret (Ok (Some h)) | ForInstall _ page => rest_install page h end
  | FreeFrame v => rest_frame g v
  | Victim v old => rest_evict g v old
  | Full e => ret (Err e)
  end.

Definition rest_flushed (h : PageHandle) (r : Result unit) : M SW (Result (option PageHandle)) :=
  let! _ := match r with Ok _ => clear_dirty (handle_frame h) | Err _ => ret tt end in
  rest_drop h r.

Definition rest_flushing (h : PageHandle) : M SW (Result (option PageHandle)) :=
  let! r := write_back_io (handle_frame h) (handle_page h) d in
  rest_flushed h r.

Definition rest_flush (id : PageId) : M SW (Result (option PageHandle)) :=
  let! r := pin_cached id in
  match r with Some h => rest_flushing h | None => ret (Ok None) end.

(** ** The methods in pieces *)

(** [write_back] is the system call and then the flag. *)
Lemma write_back_pieces v id :
  meq (write_back v id d)
      (let! r := write_back_io v id d in
       match r with
       | Ok _ => let! _ := clear_dirty v in ret (Ok tt)
       | Err e => ret (Err e)
       end).
Proof.
  intros [[frames st] w]. unfold write_back, write_back_io, clear_dirty, read_frame, write_frame, index, update, bind.
  cbn [fst snd shard_frames shard_state].
  destruct (frames !! v) as [fr|] eqn:Hfr; [|done]. cbn. destruct (frame_dirty fr) eqn:Ed.
  - unfold with_disk, zoom. cbn [fst snd]. destruct (write_page id (frame_page fr) d w) as [[[[[]|e] page]| |] w']; [| |done..].
    + cbn. rewrite Hfr. cbn. rewrite list_lookup_insert_eq by by eapply lookup_lt_Some. cbn.
      rewrite list_lookup_insert_eq by by eapply lookup_lt_Some. cbn. by rewrite list_insert_insert_eq.
    + cbn. by rewrite Hfr.
  - cbn. rewrite Hfr. cbn. rewrite Hfr. cbn. destruct fr as [page dirty]. cbn in *. subst dirty.
    by rewrite list_insert_id.
Qed.

Definition handle_of (r : Result PageHandle) : Result (option PageHandle) :=
  match r with Ok h => Ok (Some h) | Err e => Err e end.

Lemma with_gets {A B} (F : PoolState → A) (k : A → M SW B) s :
  bind (with_state (gets F)) k s = k (F (shard_state s.1)) s.
Proof. by destruct s as [[] w]. Qed.

(** [acquire_frame] and what follows it, when the page is not cached. *)
Lemma acquire_pieces {A} (g : purpose) (k : FrameId → M SW (Result A)) (obs : Result A → Result (option PageHandle)) s :
  (∀ v, meq (let! a := k v in ret (obs a)) (rest_frame g v)) → (∀ e, obs (Err e) = Err e) →
  page_table (shard_state s.1) !! wanted g = None →
  (let! a := (let? v := acquire_frame d in k v) in ret (obs a)) s = rest_enter g s.
Proof.
  intros Hk Hobs Hnone. unfold rest_enter, look_up. rewrite (bind_assoc _ _ _ s), with_gets, Hnone.
  unfold acquire_frame, rest_evict, bind_ok. unfold meq in Hk. unfold bind in *.
  destruct (with_state pop_free s) as [[[v|]| |] s1]; [exact (Hk v s1)| |done..].
  destruct (with_state find_victim s1) as [[[v|]| |] s2]; [| |done..].
  2:{ cbn. by rewrite Hobs. }
  destruct (with_state (index frame_pages v) s2) as [[[old|]| |] s3]; [|done..].
  rewrite (write_back_pieces v old s3). unfold bind, rest_evicted. cbn -[write_back_io clear_dirty unmap with_state].
  destruct (write_back_io v old d s3) as [[[[]|e]| |] s4]; [| |done..].
  2:{ cbn. by rewrite Hobs. }
  unfold bind. destruct (clear_dirty v s4) as [[[]| |] s5]; [|done..]. unfold unmap, bind, ret. cbn -[with_state].
  destruct (with_state (table_remove old) s5) as [[[]| |] s6]; [|done..].
  destruct (with_state (set_frame_page v None) s6) as [[[]| |] s7]; [|done..]. exact (Hk v s7).
Qed.

Lemma fetch_pieces id : meq (let! r := shard_fetch_page id d in ret (handle_of r)) (rest_enter (ForFetch id)).
Proof.
  intros s. destruct (page_table (shard_state s.1) !! id) as [v|] eqn:Hid.
  - unfold rest_enter, look_up, shard_fetch_page. rewrite !(bind_assoc _ _ _ s), !with_gets. cbn [wanted]. rewrite Hid.
    unfold bind. destruct (with_state (pin v) s) as [[[]| |] s1]; [|done..].
    by destruct (with_state (set_ref_bit v true) s1) as [[[]| |] s2].
  - rewrite <- (acquire_pieces (ForFetch id)
      (λ v, let! r := with_disk (read_page id d) in
            match r with
            | Err err => let! _ := with_state (push_free v) in ret (Err err)
            | Ok page =>
                let! _ := write_frame v {| frame_page := page; frame_dirty := false |} in
                let! _ := with_state (table_insert id v) in
                let! _ := with_state (set_frame_page v (Some id)) in
                let! _ := with_state (set_pin_count v 1) in
                let! _ := with_state (set_ref_bit v true) in
                ret (Ok {| handle_frame := v; handle_page := id |})
            end) handle_of s); [| |done|done].
    + unfold shard_fetch_page. rewrite (bind_assoc _ _ _ s), with_gets. cbn [wanted]. by rewrite Hid.
    + intros v s'. unfold rest_frame, read_missing, rest_fill, fill_fetched. rewrite !bind_assoc. unfold bind.
      destruct (with_disk (read_page id d) s') as [[[page|e]| |] s1]; [| |done..].
      * unfold ret. cbv beta iota. destruct (write_frame v {| frame_page := page; frame_dirty := false |} s1) as [[[]| |] s2]; [|done..].
        destruct (with_state (table_insert id v) s2) as [[[]| |] s3]; [|done..].
        destruct (with_state (set_frame_page v (Some id)) s3) as [[[]| |] s4]; [|done..].
        destruct (with_state (set_pin_count v 1) s4) as [[[]| |] s5]; [|done..].
        by destruct (with_state (set_ref_bit v true) s5) as [[[]| |] s6].
      * by destruct (with_state (push_free v) s1) as [[[]| |] s2].
Qed.


Lemma install_pieces id page :
  meq (let! r := shard_install_page id page d in ret (no_handle r)) (rest_enter (ForInstall id page)).
Proof.
  intros s. destruct (page_table (shard_state s.1) !! id) as [v|] eqn:Hid.
  - unfold rest_enter, look_up, shard_install_page, rest_install, replace_page, rest_drop.
    rewrite !(bind_assoc _ _ _ s), !with_gets. cbn [wanted]. rewrite Hid.
    unfold bind. destruct (with_state (pin v) s) as [[[]| |] s1]; [|done..].
    destruct (with_state (set_ref_bit v true) s1) as [[[]| |] s2]; [|done..]. cbn [handle_frame]. unfold ret.
    cbv beta iota. cbn [handle_frame].
    destruct (write_frame v {| frame_page := page; frame_dirty := true |} s2) as [[[]| |] s3]; [|done..].
    by destruct (unpin v s3) as [[[]| |] s4].
  - rewrite <- (acquire_pieces (ForInstall id page)
      (λ v, let! _ := write_frame v {| frame_page := page; frame_dirty := true |} in
            let! _ := with_state (table_insert id v) in
            let! _ := with_state (set_frame_page v (Some id)) in
            let! _ := with_state (set_ref_bit v true) in
            ret (Ok tt)) no_handle s); [| |done|done].
    + unfold shard_install_page. rewrite (bind_assoc _ _ _ s), with_gets. cbn [wanted]. by rewrite Hid.
    + intros v s'. unfold rest_frame, fill_installed, bind.
      destruct (write_frame v {| frame_page := page; frame_dirty := true |} s') as [[[]| |] s1]; [|done..].
      destruct (with_state (table_insert id v) s1) as [[[]| |] s2]; [|done..].
      destruct (with_state (set_frame_page v (Some id)) s2) as [[[]| |] s3]; [|done..].
      by destruct (with_state (set_ref_bit v true) s3) as [[[]| |] s4].
Qed.

Lemma flush_pieces id : meq (let! r := shard_flush_page id d in ret (no_handle r)) (rest_flush id).
Proof.
  intros s. unfold rest_flush, pin_cached, shard_flush_page.
  rewrite !(bind_assoc _ _ _ s), !with_gets. destruct (page_table (shard_state s.1) !! id) as [v|]; [|done].
  unfold bind. destruct (with_state (pin v) s) as [[[]| |] s1]; [|done..].
  rewrite (write_back_pieces v id s1). unfold rest_flushing, rest_flushed, rest_drop, bind, ret. cbv beta iota.
  cbn [handle_frame handle_page].
  destruct (write_back_io v id d s1) as [[[[]|e]| |] s2]; [| |done..].
  - destruct (clear_dirty v s2) as [[[]| |] s3]; [|done..]. by destruct (unpin v s3) as [[[]| |] s4].
  - by destruct (unpin v s2) as [[[]| |] s4].
Qed.

(** ** A thread by itself *)

Definition rest (pc : place) : M SW (Result (option PageHandle)) :=
  match pc with
  | Client | Guarding _ _ => ret (Ok None)
  | Entering g => rest_enter g
  | FlushEntering id => rest_flush id
  | LockingVictim g v old | Evicting g v old => rest_evict g v old
  | Evicted g v old r => rest_evicted g v old r
  | Acquired g v => rest_frame g v
  | Filling id v page => rest_fill id v page
  | Installing page h => rest_install page h
  | LockingPage h | Flushing h => rest_flushing h
  | Flushed h r => rest_flushed h r
  | Dropping h r => rest_drop h r
  end.

(** The page whose shard a call works on. *)
Definition place_page (pc : place) : PageId :=
  match pc with
  | Client => 0
  | Entering g | LockingVictim g _ _ | Evicting g _ _ | Evicted g _ _ _ | Acquired g _ => wanted g
  | FlushEntering id | Filling id _ _ => id
  | Installing _ h | LockingPage h | Flushing h | Flushed h _ | Dropping h _ | Guarding _ h => handle_page h
  end.

(** How many steps are left at most. *)
Definition rank (pc : place) : nat :=
  match pc with
  | Client => 0
  | Entering _ => 6
  | LockingVictim _ _ _ => 5
  | Evicting _ _ _ => 4
  | Evicted _ _ _ _ => 3
  | Acquired _ _ => 2
  | Filling _ _ _ => 1
  | Installing _ _ => 2
  | FlushEntering _ => 5
  | LockingPage _ => 4
  | Flushing _ => 3
  | Flushed _ _ => 2
  | Dropping _ _ | Guarding _ _ => 1
  end.

(** Runs a thread until its call returns. *)
Fixpoint solo (fuel : nat) (th : pthread) : M PState pthread :=
  match fuel with
  | 0 => ret th
  | S fuel =>
      match at_place th with
      | Client => ret th
      | _ =>
          let! r := pstep d th PGo in
          match r with
          | Some (_, th') => solo fuel th'
          | None => panic
          end
      end
  end.

(** No other thread holds a lock of the pool. *)
Definition alone (s : PState) (th : pthread) : Prop :=
  let n := length (shards (ps_pool s)) in
  state_locks (ps_locks s) = list_to_set (holds_state n th) ∧
  frame_writers (ps_locks s) = list_to_set (place_writes n (at_place th)) ∧ frame_readers (ps_locks s) = ∅.

(** A run of the steps of [th] shows what the computation on the shard shows,
    and leaves no lock held if the call returns. *)
Definition observed (th : pthread) (r : exec (Result (option PageHandle)) * (BufferPool * World))
    (r' : exec pthread * PState) : Prop :=
  r'.1 = match r.1 with Done h => Done (give h th) | Panicked => Panicked | Crashed => Crashed end ∧
  (ps_pool r'.2, ps_world r'.2) = r.2 ∧ (∀ h, r.1 = Done h → ps_locks r'.2 = no_locks).

Definition runs_as (fuel : nat) (th : pthread) (i : nat) (m : M PState poutcome) (c : M SW (Result (option PageHandle)))
    (s : PState) : Prop :=
  observed th (on_shard i c (ps_pool s, ps_world s))
    ((let! r := m in match r with Some (_, th') => solo fuel th' | None => panic end) s).

Abbreviation pcount s := (length (shards (ps_pool s))).

Section Rules.
Variables (fuel : nat) (th : pthread) (i : nat).

Lemma ra_gets {A} (F : PState → A) K c s :
  runs_as fuel th i (K (F s)) c s → runs_as fuel th i (bind (gets F) K) c s.
Proof. done. Qed.

Lemma ra_locks f K c s :
  runs_as fuel th i K c {| ps_pool := ps_pool s; ps_world := ps_world s; ps_locks := f (ps_locks s) |} →
  runs_as fuel th i (let! _ := set_plocks f in K) c s.
Proof. done. Qed.

Lemma ra_ret {A} (x : A) K k s :
  is_Some (shards (ps_pool s) !! i) →
  runs_as fuel th i (K x) (k x) s → runs_as fuel th i (bind (ret x) K) (bind (ret x) k) s.
Proof. done. Qed.

Lemma ra_shard {A} (P : A → Prop) (m : M SW A) K k s :
  is_Some (shards (ps_pool s) !! i) → (∀ a t t', m t = (Done a, t') → P a) →
  (∀ a s', P a → ps_locks s' = ps_locks s → pcount s' = pcount s → is_Some (shards (ps_pool s') !! i) →
     runs_as fuel th i (K a) (k a) s') →
  runs_as fuel th i (bind (with_shard i m) K) (bind m k) s.
Proof.
  intros [sh Hi] HP HK. unfold runs_as. rewrite (on_shard_bind i m k (ps_pool s, ps_world s)).
  pose proof (on_shard_length i m (ps_pool s, ps_world s)) as Hlen.
  assert (∀ a t', on_shard i m (ps_pool s, ps_world s) = (Done a, t') → P a) as HPa.
  { intros a t'. unfold on_shard. cbn [fst snd]. rewrite Hi.
    destruct (m (sh, ps_world s)) as [r [sh' w']] eqn:Hm. intros [= -> _]. by eapply HP. }
  unfold bind, with_shard, zoom.
  destruct (on_shard i m (ps_pool s, ps_world s)) as [[a| |] [pl w]]; [|done..]. cbn [fst snd] in Hlen.
  apply (HK a {| ps_pool := pl; ps_world := w; ps_locks := ps_locks s |}); [by eapply HPa|done|done|].
  cbn [ps_pool]. apply lookup_lt_is_Some. rewrite Hlen. by apply lookup_lt_is_Some.
Qed.

Lemma ra_lock_state K c s :
  i ∉ state_locks (ps_locks s) →
  runs_as fuel th i K c {| ps_pool := ps_pool s; ps_world := ps_world s;
                           ps_locks := set_state_locks (λ x, {[ i ]} ∪ x) (ps_locks s) |} →
  runs_as fuel th i (lock_state i K) c s.
Proof. intros Hi HK. unfold lock_state. apply ra_gets. rewrite decide_False by done. by apply ra_locks. Qed.

Lemma ra_lock_frame k K c s :
  k ∉ frame_writers (ps_locks s) → k ∉ frame_readers (ps_locks s) →
  runs_as fuel th i K c {| ps_pool := ps_pool s; ps_world := ps_world s;
                           ps_locks := set_writers (λ x, {[ k ]} ∪ x) (ps_locks s) |} →
  runs_as fuel th i (lock_frame k K) c s.
Proof. intros Hw Hr HK. unfold lock_frame. apply ra_gets. rewrite decide_False by tauto. by apply ra_locks. Qed.

(** The end of a step: the call has returned, or there are more steps. *)
Lemma ra_done ev h th' s :
  th' = give h th → is_Some (shards (ps_pool s) !! i) → alone s th' →
  runs_as fuel th i (moves ev th') (ret h) s.
Proof.
  intros -> [sh Hi] (Hs & Hw & Hf). unfold runs_as, moves. rewrite bind_ret. unfold on_shard. cbn [fst snd]. rewrite Hi.
  cbn. rewrite list_insert_id by done. destruct s as [[] ? []]. cbn in *. by destruct fuel; subst.
Qed.

Lemma ra_more ev pc s :
  observed th (on_shard i (rest pc) (ps_pool s, ps_world s)) (solo fuel (go_to pc th) s) →
  runs_as fuel th i (moves ev (go_to pc th)) (rest pc) s.
Proof. done. Qed.

End Rules.

(** A call is under way. *)
Definition calling (pc : place) : Prop := match pc with Client | Guarding _ _ => False | _ => True end.

Definition solo_ok (fuel : nat) : Prop :=
  ∀ th s, alone s th → calling (at_place th) → rank (at_place th) ≤ fuel →
    is_Some (shards (ps_pool s) !! shard_of s (place_page (at_place th))) →
    observed th (on_shard (shard_of s (place_page (at_place th))) (rest (at_place th)) (ps_pool s, ps_world s))
      (solo fuel th s).

Lemma ra_go fuel th i ev pc s n :
  solo_ok fuel → pcount s = n → i = shard_index n (place_page pc) → is_Some (shards (ps_pool s) !! i) →
  alone s (go_to pc th) → calling pc → rank pc ≤ fuel →
  runs_as fuel th i (moves ev (go_to pc th)) (rest pc) s.
Proof. intros IH <- -> Hi Ha Hc Hr. apply ra_more. by apply (IH (go_to pc th) s). Qed.

(** The handles of the pieces are handles on the page. *)
Definition hit_on (id : PageId) (r : found) : Prop := match r with Hit h => handle_page h = id | _ => True end.

Definition pin_on (id : PageId) (r : option PageHandle) : Prop :=
  match r with Some h => handle_page h = id | None => True end.

Lemma look_up_page id r t t' : look_up id t = (Done r, t') → hit_on id r.
Proof.
  unfold look_up. rewrite with_gets. destruct (page_table (shard_state t.1) !! id) as [v|]; unfold bind.
  - destruct (with_state (pin v) t) as [[[]| |] t1]; [|done..].
    destruct (with_state (set_ref_bit v true) t1) as [[[]| |] t2]; [|done..]. by intros [= <- <-].
  - destruct (with_state pop_free t) as [[[v|]| |] t1]; [by intros [= <- <-]| |done..].
    destruct (with_state find_victim t1) as [[[v|]| |] t2]; [|by intros [= <- <-]|done..].
    destruct (with_state (index frame_pages v) t2) as [[[old|]| |] t3]; [by intros [= <- <-]|done..].
Qed.

Lemma pin_cached_page id r t t' : pin_cached id t = (Done r, t') → pin_on id r.
Proof.
  unfold pin_cached. rewrite with_gets. destruct (page_table (shard_state t.1) !! id) as [v|]; [|by intros [= <- <-]].
  unfold bind. destruct (with_state (pin v) t) as [[[]| |] t1]; [|done..]. by intros [= <- <-].
Qed.

(** Starts a step, runs it on the shard, and ends it: the locks are those of
    the next place. *)
Ltac locks_eval :=
  unfold holds_state; cbn [ps_pool ps_locks go_to at_place];
  repeat match goal with E : ps_locks ?s = _ |- context [ps_locks ?s] => rewrite E end;
  repeat match goal with E : pcount ?s = _ |- context [pcount ?s] => rewrite E end;
  cbn [ps_locks ps_pool state_locks frame_writers frame_readers set_state_locks set_writers];
  repeat match goal with
  | E : state_locks (ps_locks _) = _ |- _ => rewrite E
  | E : frame_writers (ps_locks _) = _ |- _ => rewrite E
  | E : frame_readers (ps_locks _) = _ |- _ => rewrite E
  end;
  cbn [list_to_set place_writes wanted]; unfold shard_of, slot_of; cbn [handle_page handle_frame]; set_solver.

Ltac solo_start :=
  match goal with Ha : alone _ _, Hpc : at_place _ = _, Hr : rank _ ≤ _ |- _ =>
    destruct Ha as (Hs & Hw & Hf); unfold holds_state in Hs; rewrite Hpc in Hs, Hw, Hr;
    cbn [rank place_writes list_to_set] in Hs, Hw, Hr
  end.

Ltac solo_shard := apply (ra_shard _ _ _ (λ _, True)); [done|done|intros ? ? _ ? ? ?; cbn [ps_locks ps_pool] in *].

Ltac solo_done := apply ra_done; [done|done|split_and!; locks_eval].

Ltac solo_go pc n :=
  apply (ra_go _ _ _ _ pc _ n);
  [done|cbn [ps_pool]; congruence|try done|done|split_and!; locks_eval|done|cbn [rank]; lia].

#[local] Opaque shard_index runs_as.

Section SoloSteps.
Variables (fuel : nat) (th : pthread) (s : PState).
Hypothesis IH : solo_ok fuel.
Hypothesis Hrank : rank (at_place th) ≤ S fuel.
Hypothesis Halone : alone s th.
Hypothesis Hshard : is_Some (shards (ps_pool s) !! shard_of s (place_page (at_place th))).

Lemma solo_enter g :
  at_place th = Entering g → runs_as fuel th (shard_of s (wanted g)) (enter g th) (rest_enter g) s.
Proof.
  intros Hpc. rewrite Hpc in Hshard. solo_start.
  unfold enter. apply ra_gets, ra_lock_state; [rewrite Hs; set_solver|].
  unfold rest_enter. apply (ra_shard _ _ _ (hit_on (wanted g))); [done|by intros ??? ?%look_up_page|].
  intros a s' Ha Hl Hn Hi'. cbn [ps_locks ps_pool] in Hl, Hn. destruct a as [h|v|v old|].
  - apply ra_locks. destruct g as [id|id page]; [solo_done|].
    cbn in Ha. subst id. solo_go (Installing page h) (pcount s).
  - solo_go (Acquired g v) (pcount s).
  - solo_go (LockingVictim g v old) (pcount s).
  - apply ra_locks. solo_done.
Qed.

Lemma solo_evict_lock g v old :
  at_place th = LockingVictim g v old →
  runs_as fuel th (shard_of s (wanted g)) (evict_lock g v old th) (rest_evict g v old) s.
Proof.
  intros Hpc. rewrite Hpc in Hshard. solo_start. unfold evict_lock.
  apply ra_gets, ra_lock_frame; [rewrite Hw; set_solver|rewrite Hf; multiset_solver|].
  solo_go (Evicting g v old) (pcount s).
Qed.

Lemma solo_evict_io g v old :
  at_place th = Evicting g v old →
  runs_as fuel th (shard_of s (wanted g)) (evict_io d g v old th) (rest_evict g v old) s.
Proof.
  intros Hpc. rewrite Hpc in Hshard. solo_start. unfold evict_io. apply ra_gets. unfold rest_evict. solo_shard.
  solo_go (Evicted g v old a) (pcount s).
Qed.

Lemma solo_evict_end g v old r :
  at_place th = Evicted g v old r →
  runs_as fuel th (shard_of s (wanted g)) (evict_end g v old r th) (rest_evicted g v old r) s.
Proof.
  intros Hpc. rewrite Hpc in Hshard. solo_start. unfold evict_end. apply ra_gets. destruct r as [[]|e].
  - unfold rest_evicted. solo_shard. apply ra_locks. solo_shard. solo_go (Acquired g v) (pcount s).
  - apply ra_locks, ra_locks; solo_done.
Qed.

Lemma solo_use_frame g v :
  at_place th = Acquired g v →
  runs_as fuel th (shard_of s (wanted g)) (use_frame d g v th) (rest_frame g v) s.
Proof.
  intros Hpc. rewrite Hpc in Hshard. solo_start. unfold use_frame. apply ra_gets. destruct g as [id|id page].
  - unfold rest_frame. solo_shard. destruct a as [page|e]; [solo_go (Filling id v page) (pcount s)|].
    apply ra_locks; solo_done.
  - apply ra_lock_frame; [rewrite Hw; set_solver|rewrite Hf; multiset_solver|].
    unfold rest_frame. solo_shard. apply ra_locks, ra_locks; solo_done.
Qed.

Lemma solo_fill id v page :
  at_place th = Filling id v page →
  runs_as fuel th (shard_of s id) (fill_frame id v page th) (rest_fill id v page) s.
Proof.
  intros Hpc. rewrite Hpc in Hshard. solo_start. unfold fill_frame.
  apply ra_gets, ra_lock_frame; [rewrite Hw; set_solver|rewrite Hf; multiset_solver|].
  unfold rest_fill. solo_shard. apply ra_locks, ra_locks; solo_done.
Qed.

Lemma solo_install page h :
  at_place th = Installing page h →
  runs_as fuel th (shard_of s (handle_page h)) (install_cached page h th) (rest_install page h) s.
Proof.
  intros Hpc. rewrite Hpc in Hshard. solo_start. unfold install_cached.
  apply ra_gets, ra_lock_frame; [rewrite Hw; set_solver|rewrite Hf; multiset_solver|].
  unfold rest_install. solo_shard. apply ra_locks. solo_go (Dropping h (Ok tt)) (pcount s).
Qed.

Lemma solo_flush_enter id :
  at_place th = FlushEntering id → runs_as fuel th (shard_of s id) (flush_enter id th) (rest_flush id) s.
Proof.
  intros Hpc. rewrite Hpc in Hshard. solo_start. unfold flush_enter.
  apply ra_gets, ra_lock_state; [rewrite Hs; set_solver|].
  unfold rest_flush. apply (ra_shard _ _ _ (pin_on id)); [done|by intros ??? ?%pin_cached_page|].
  intros a s' Ha Hl Hn Hi'. cbn [ps_locks ps_pool] in Hl, Hn. apply ra_locks.
  destruct a as [h|]; [|solo_done]. cbn in Ha. subst id. solo_go (LockingPage h) (pcount s).
Qed.

Lemma solo_flush_lock h :
  at_place th = LockingPage h → runs_as fuel th (shard_of s (handle_page h)) (flush_lock h th) (rest_flushing h) s.
Proof.
  intros Hpc. rewrite Hpc in Hshard. solo_start. unfold flush_lock.
  apply ra_gets, ra_lock_frame; [rewrite Hw; set_solver|rewrite Hf; multiset_solver|].
  solo_go (Flushing h) (pcount s).
Qed.

Lemma solo_flush_io h :
  at_place th = Flushing h → runs_as fuel th (shard_of s (handle_page h)) (flush_io d h th) (rest_flushing h) s.
Proof.
  intros Hpc. rewrite Hpc in Hshard. solo_start. unfold flush_io. apply ra_gets. unfold rest_flushing. solo_shard.
  solo_go (Flushed h a) (pcount s).
Qed.

Lemma solo_flush_end h r :
  at_place th = Flushed h r → runs_as fuel th (shard_of s (handle_page h)) (flush_end h r th) (rest_flushed h r) s.
Proof.
  intros Hpc. rewrite Hpc in Hshard. solo_start. unfold flush_end. apply ra_gets. unfold rest_flushed.
  destruct r as [[]|e].
  - solo_shard. apply ra_locks. solo_go (Dropping h (Ok tt)) (pcount s).
  - apply ra_ret; [done|]. apply ra_locks. solo_go (Dropping h (Err e)) (pcount s).
Qed.

Lemma solo_drop h r :
  at_place th = Dropping h r →
  runs_as fuel th (shard_of s (handle_page h)) (drop_handle h r th) (rest_drop h r) s.
Proof.
  intros Hpc. rewrite Hpc in Hshard. solo_start. unfold drop_handle.
  apply ra_gets, ra_lock_state; [rewrite Hs; set_solver|].
  unfold rest_drop. solo_shard. apply ra_locks; solo_done.
Qed.

Lemma solo_step :
  calling (at_place th) →
  runs_as fuel th (shard_of s (place_page (at_place th))) (pstep d th PGo) (rest (at_place th)) s.
Proof.
  assert (∃ pc, at_place th = pc) as [pc Hpc] by eauto. unfold pstep. rewrite Hpc.
  destruct pc; intros Hc; [done|..]; cbn [place_page rest].
  all: eauto using solo_enter, solo_evict_lock, solo_evict_io, solo_evict_end, solo_use_frame, solo_fill,
    solo_install, solo_flush_enter, solo_flush_lock, solo_flush_io, solo_flush_end, solo_drop.
  done.
Qed.

End SoloSteps.

#[local] Transparent runs_as.

(** A thread by itself does what is left of its call. *)
Lemma solo_rest fuel : solo_ok fuel.
Proof.
  induction fuel as [|fuel IH]; intros th s Ha Hc Hr Hi.
  - destruct (at_place th); cbn [rank calling] in Hr, Hc; by try lia.
  - pose proof (solo_step fuel th s IH Hr Ha Hi Hc) as Hstep. cbn [solo]. by destruct (at_place th).
Qed.

(** ** The calls *)

Lemma on_shard_meq {A} i (m m' : M SW A) s : meq m m' → on_shard i m s = on_shard i m' s.
Proof. intros E. unfold on_shard. destruct (shards s.1 !! i) as [sh|]; [|done]. by rewrite E. Qed.

Lemma on_shard_result {A B} i (m : M SW A) (f : A → B) s :
  on_shard i (let! r := m in ret (f r)) s = (let! r := on_shard i m in ret (f r)) s.
Proof.
  unfold on_shard, bind. destruct (shards s.1 !! i) as [sh|]; [|done]. by destruct (m (sh, s.2)) as [[a| |] []].
Qed.

(** The method a client calls with an action. *)
Definition method (a : paction) : M (BufferPool * World) (Result (option PageHandle)) :=
  match a with
  | PFetch id => let! r := pool_fetch_page id d in ret (handle_of r)
  | PInstall id page => let! r := pool_install_page id page d in ret (no_handle r)
  | PFlush id => let! r := pool_flush_page id d in ret (no_handle r)
  | PDrop h => let! _ := shard_for (handle_page h) (handle_drop h) in ret (Ok None)
  | _ => panic
  end.

(** The client that makes the call, without the handle it gives away. *)
Definition caller (th : pthread) (a : paction) : option pthread :=
  match a with
  | PFetch _ | PFlush _ => Some th
  | PInstall id page => if (page_id page =? id)%Z then Some th else None
  | PDrop h =>
      hs ← remove_one h (th_handles th);
      if decide (Forall (λ kh, kh.2 ∈ hs) (th_guards th)) then Some (set_handles hs th) else None
  | _ => None
  end.

(** The steps of the call, one after the other. *)
Definition method_steps (th : pthread) (a : paction) : M PState pthread :=
  let! r := pstep d th a in
  match r with
  | Some (_, th') => solo 6 th'
  | None => panic
  end.

Lemma method_rest a th th0 s :
  at_place th = Client → caller th a = Some th0 →
  ∃ pc, calling pc ∧ rank pc ≤ 6 ∧ method_steps th a s = solo 6 (go_to pc th0) s ∧
    holds_state (pcount s) (go_to pc th0) = [] ∧ place_writes (pcount s) pc = [] ∧
    method a (ps_pool s, ps_world s) = on_shard (shard_of s (place_page pc)) (rest pc) (ps_pool s, ps_world s).
Proof.
  intros Hpc. unfold method_steps, pstep. rewrite Hpc. destruct a as [id|id page|id|h| | | | | ]; cbn [caller]; try done.
  - intros [= <-]. exists (Entering (ForFetch id)). split_and!; [done|cbn; lia|done..|].
    rewrite <- (on_shard_meq _ _ _ _ (fetch_pieces id)). by rewrite on_shard_result.
  - destruct (page_id page =? id)%Z eqn:E; [|done]. intros [= <-]. exists (Entering (ForInstall id page)).
    split_and!; [done|cbn; lia|done..|].
    rewrite <- (on_shard_meq _ _ _ _ (install_pieces id page)). rewrite on_shard_result. cbn [method]. unfold pool_install_page.
    by rewrite E.
  - intros [= <-]. exists (FlushEntering id). split_and!; [done|cbn; lia|done..|].
    rewrite <- (on_shard_meq _ _ _ _ (flush_pieces id)). by rewrite on_shard_result.
  - unfold release_handle. destruct (remove_one h (th_handles th)) as [hs|]; [|done]. cbn [mbind option_bind].
    case_decide; [|done]. intros [= <-]. exists (Dropping h (Ok tt)). split_and!; [done|cbn; lia|done..|].
    cbn [rest]. unfold rest_drop. by rewrite (on_shard_result _ _ (λ _, no_handle (Ok tt))).
Qed.

(** C24. [fetch_page], [install_page], [flush_page] and the drop of a handle
    are their steps: a call, on a pool with a power of two of shards, whose
    steps no other thread interleaves with returns what the method returns, the
    same handle or the same error, with the same pool and the same disk, and it
    dies or panics where the method does; if it returns, it has released every
    lock it took.  (A page is installed under its own id.) *)
Theorem pool_methods_are_their_steps s th a th0 :
  ps_locks s = no_locks → (∃ k, pcount s = 2 ^ k) → at_place th = Client → caller th a = Some th0 →
  let '(r, t) := method a (ps_pool s, ps_world s) in
  let '(r', s') := method_steps th a s in
  r' = match r with Done h => Done (give h th0) | Panicked => Panicked | Crashed => Crashed end ∧
  (ps_pool s', ps_world s') = t ∧ (∀ h, r = Done h → ps_locks s' = no_locks).
Proof.
  intros Hl [k Hk] Hpc Hc. destruct (method_rest a th th0 s Hpc Hc) as (pc & Hcall & Hr & -> & Hhs & Hws & ->).
  assert (is_Some (shards (ps_pool s) !! shard_of s (place_page pc))) as Hi
    by (apply lookup_lt_is_Some; by eapply shard_index_lt).
  assert (alone s (go_to pc th0)) as Ha by (unfold alone; cbn [go_to at_place]; by rewrite Hhs, Hws, Hl).
  pose proof (solo_rest 6 (go_to pc th0) s Ha Hcall Hr Hi) as Hsolo. cbn [go_to at_place] in Hsolo.
  destruct (on_shard _ _ _) as [r t], (solo _ _ _) as [r' s']. exact Hsolo.
Qed.

End Rest.

Module PoolSoloWitness.
Import PageWitness DiskWitness PoolWitness.

#[local] Existing Instance cpu.

Definition start : PState := fresh_pool 1 world.

(** A fetch of page 1 whose read fails: the frame goes back and the locks are
    free. *)
Lemma pool_methods_are_their_steps_witness :
  let s := {| ps_pool := ps_pool start; ps_world := set_plan [IoFail 5 0] world; ps_locks := no_locks |} in
  let '(r, s') := method_steps disk idle (PFetch 1) s in
  r = Done (give (Err (Io (Os 5))) idle) ∧ ps_locks s' = no_locks.
Proof.
  cbv zeta.
  pose proof (pool_methods_are_their_steps disk
    {| ps_pool := ps_pool start; ps_world := set_plan [IoFail 5 0] world; ps_locks := no_locks |}
    idle (PFetch 1) idle eq_refl (ex_intro _ 0 eq_refl) eq_refl eq_refl) as Hw.
  destruct (method disk (PFetch 1) _) as [r t] eqn:Em.
  destruct (method_steps disk idle (PFetch 1) _) as [r' s'].
  assert (r = Done (Err (Io (Os 5)))) as -> by (apply (f_equal fst) in Em; vm_compute in Em; by subst).
  destruct Hw as (-> & _ & Hfree). split; [reflexivity|exact (Hfree _ eq_refl)].
Defined.

End PoolSoloWitness.
