(* ===== verification/PoolClients.v ===== *)
(** * Clients of the pool (src/crates/oxendb/src/storage/buffer_pool.rs)

    What the threads of [PoolThreads] can build on the pool: counters kept in
    pages, as in the stress tests of the source, lose no increment however the
    threads interleave and however often the pages are evicted; a flush that
    succeeds leaves the page in the file; and every call ends after a bounded
    number of its own steps. *)

From S2P Require Import Prelude Errors Checksum Page FileHeader FileSys Disk BufferPool PoolCache.
From S2P Require Import PoolThreads PoolLocks PoolSim PoolShared PoolSolo.

(** ** Numbers in pages *)

(** The first eight bytes of a payload, as a number. *)
Definition read_u64 (p : Page) : Z := from_le_bytes (take 8 (payload p)).

Definition write_u64 (v : Z) (p : Page) : Page := payload_write 0 (u64_to_le_bytes v) p.

(** What a thread of the stress tests does to a page under its guard. *)
Definition increment (p : Page) : Page := write_u64 (u64_add (read_u64 p) 1) p.

Lemma take_8_payload p : take 8 (payload p) = slice 24 32 (data p).
Proof. done. Qed.

Lemma read_u64_range p : page_wf p → u64_range (read_u64 p).
Proof.
  unfold page_wf. intros Hp. apply from_le_bytes_u64_range. rewrite take_8_payload. page_lia.
Qed.

Lemma write_u64_wf v p : page_wf p → page_wf (write_u64 v p).
Proof. apply payload_write_wf. page_lia. Qed.

Lemma read_write_u64 v p : page_wf p → u64_range v → read_u64 (write_u64 v p) = v.
Proof.
  intros Hp Hv. unfold read_u64, write_u64, payload_write.
  rewrite take_8_payload, slice_set_range_same by (done || page_lia). by apply from_to_le_u64.
Qed.

Lemma read_u64_seal `{Cpu} p : page_wf p → read_u64 (seal p) = read_u64 p.
Proof. intros Hp. unfold read_u64. by rewrite !take_8_payload, seal_slice by (done || lia). Qed.

#[export] Hint Resolve read_u64_range write_u64_wf : oxen.

(** ** Counters *)

Section Counters.
Context `{Cpu}.
Implicit Types (L : gmap PageId Page) (th : pthread).

(** How often the page [id] has been changed. *)
Definition bump (id : PageId) (ev : pevent) : nat :=
  match ev with PvModify j _ _ => if (j =? id)%Z then 1 else 0 | _ => 0 end.

Definition bumps (id : PageId) (evs : list (nat * pevent)) : nat := sum_list_with (λ x, bump id x.2) evs.

(** Clients that do nothing but look and increment. *)
Definition counts (ev : pevent) : Prop :=
  match ev with
  | PvModify _ _ change => change = increment
  | PvReplace _ _ => False
  | _ => True
  end.

Lemma read_u64_same p q : page_wf p → same_page p q → page_wf q ∧ read_u64 q = read_u64 p.
Proof. intros Hp [-> | ->]; [done|]. split; [auto with oxen|by apply read_u64_seal]. Qed.

Lemma increment_wf p : page_wf p → page_wf (increment p).
Proof. apply write_u64_wf. Qed.

Lemma read_increment p : page_wf p → read_u64 (increment p) = u64_add (read_u64 p) 1.
Proof. intros Hp. apply read_write_u64; [done|]. apply wrap_u64_range. Qed.

(** A page that holds the counter [v]. *)
Definition holds_count L (id : PageId) (v : Z) : Prop :=
  ∃ p, L !! id = Some p ∧ page_wf p ∧ read_u64 p = v.

Lemma u64_add_assoc a b c : u64_add (u64_add a b) c = u64_add a (b + c).
Proof. unfold u64_add, wrap_u64. rewrite Z.add_mod_idemp_l by lia. f_equal. lia. Qed.

Lemma count_step L ev id v :
  counts ev → sees L ev → holds_count L id v →
  holds_count (after ev L) id (u64_add v (Z.of_nat (bump id ev))).
Proof.
  intros Hc Hs (p & Hp & Hwf & <-). unfold bump, holds_count.
  assert (u64_add (read_u64 p) (Z.of_nat 0) = read_u64 p) as E0.
  { unfold u64_add. rewrite Z.add_0_r. apply wrap_u64_id. auto with oxen. }
  destruct ev as [| | | | |j seen change]; try done; simpl;
    try (exists p; by rewrite E0).
  simpl in *. subst change. destruct Hs as (p' & Hp' & Hsame). destruct (Z.eqb_spec j id) as [->|Hj].
  - rewrite Hp in Hp'. injection Hp' as <-. destruct (read_u64_same _ _ Hwf Hsame) as [Hwf' Er].
    exists (increment seen). rewrite lookup_insert_eq. split_and!; [done|by apply increment_wf|].
    rewrite read_increment by done. by rewrite Er.
  - exists p. rewrite lookup_insert_ne by done. by rewrite E0.
Qed.

Lemma count_history L evs L' id v :
  page_history L evs L' → Forall (λ x, counts x.2) evs → holds_count L id v →
  holds_count L' id (u64_add v (Z.of_nat (bumps id evs))) ∧
  ∀ evs1 t q evs2, evs = evs1 ++ (t, PvRead id q) :: evs2 →
    read_u64 q = u64_add v (Z.of_nat (bumps id evs1)).
Proof.
  intros Hh. revert v. induction Hh as [L|t ev evs L L' Hs Hh IH]; intros v Hc Hv.
  { split; [|by intros []]. destruct Hv as (p & Hp & Hwf & <-). exists p. split_and!; [done..|].
    unfold u64_add. rewrite Z.add_0_r, wrap_u64_id; [done|]. auto with oxen. }
  apply Forall_cons in Hc as [Hev Hc].
  destruct (IH _ Hc (count_step _ _ _ _ Hev Hs Hv)) as [Hend Hreads].
  cbn [bumps sum_list_with snd]. fold (bumps id evs). rewrite Nat2Z.inj_add, <- u64_add_assoc. split; [done|].
  intros [|[u ev1] evs1] t' q evs2 [= -> -> ->].
  - destruct Hs as (p & Hp & Hsame), Hv as (p' & Hp' & Hwf & <-). rewrite Hp in Hp'. injection Hp' as <-.
    destruct (read_u64_same _ _ Hwf Hsame) as [_ ->]. unfold bumps. simpl.
    unfold u64_add. rewrite Z.add_0_r, wrap_u64_id; [done|]. auto with oxen.
  - cbn [bumps sum_list_with snd]. fold (bumps id evs1). rewrite Nat2Z.inj_add, <- u64_add_assoc. by eapply Hreads.
Qed.

(** C7. Increments are not lost: whatever the number of threads, frames and
    pages, however the threads interleave and whatever is evicted and read
    back in the meantime, a counter kept in a page and incremented under a
    write guard has at any time been incremented exactly as often as the
    threads did it; and that is what a thread with a guard reads. *)
Theorem increments_are_not_lost (d : DiskManager) (cap k : nat) (w : World) L0 (evs : list (nat * pevent)) L
    (s : PState) (ths : list pthread) (id : PageId) (p0 : Page) :
  pool_run d cap k w L0 evs L s ths → Forall (λ x, counts x.2) evs → L0 !! id = Some p0 →
  holds_count L id (u64_add (read_u64 p0) (Z.of_nat (bumps id evs))) ∧
  ∀ evs1 t q evs2, evs = evs1 ++ (t, PvRead id q) :: evs2 →
    read_u64 q = u64_add (read_u64 p0) (Z.of_nat (bumps id evs1)).
Proof.
  intros Hrun Hc Hp. destruct (pool_run_inv _ _ _ _ _ _ _ _ _ Hrun) as [Hh _].
  eapply count_history; [done..|]. exists p0. split_and!; [done| |done].
  by destruct (pr_pages _ _ _ _ _ _ _ _ _ Hrun _ _ Hp) as (_ & ? & _).
Qed.

(** [flush_page] does what it says, whoever else uses the pool: when its
    system call has returned [Ok] and until it lets go of the frame, the file
    holds the page as it is now, sealed. *)
Theorem flushed_page_is_stored (d : DiskManager) (cap k : nat) (w : World) L0 (evs : list (nat * pevent)) L
    (s : PState) (ths : list pthread) (t : nat) th (h : PageHandle) :
  pool_run d cap k w L0 evs L s ths → ths !! t = Some th → at_place th = Flushed h (Ok tt) →
  ∃ f p, w_files (ps_world s) !! dm_file d = Some f ∧ L !! handle_page h = Some p ∧
    disk_has f (handle_page h) (seal p).
Proof.
  intros Hrun Ht Hpc. destruct (pool_run_inv _ _ _ _ _ _ _ _ _ Hrun) as (_ & _ & f & Hf & Hpd).
  pose proof (tk_place _ _ _ _ _ (pd_thread _ _ _ _ _ Hpd _ _ Ht)) as Hok. rewrite Hpc in Hok.
  destruct (handle_mine _ _ _ _ _ _ _ h Hpd Ht) as (sh & _ & Hinv & _ & Hid).
  { unfold all_handles. rewrite Hpc. constructor. }
  destruct (si_cached _ _ _ _ _ _ _ Hinv _ _ Hid) as (_ & _ & p & _ & Hp & _).
  exists f, p. split_and!; [done..|]. by apply Hok.
Qed.

End Counters.

(** ** Calls end *)

Section Calls.
Context `{Cpu} `{HashOrder}.
Variable d : DiskManager.

(** [pool_returns] runs a step symbolically, forgetting all but the places. *)
Ltac pool_returns :=
  lazymatch goal with
  | |- returns (bind _ _) _ _ => apply returns_bind
  | |- returns (moves _ _) _ _ => apply returns_ret
  | |- returns must_wait _ _ => apply returns_ret
  | |- returns (ret _) _ _ => apply returns_ret
  | |- returns (gets _) _ _ => apply returns_gets
  | |- returns (set_plocks _) _ _ => apply returns_modify
  | |- returns (unlock_state _) _ _ => apply returns_modify
  | |- returns (unlock_frame _) _ _ => apply returns_modify
  | |- returns (unlock_frame_read _) _ _ => apply returns_modify
  | |- returns (with_shard _ _) _ _ => apply returns_always; intros ? ?
  | |- returns (lock_state _ _) _ _ => unfold lock_state
  | |- returns (lock_frame _ _) _ _ => unfold lock_frame
  | |- returns (lock_frame_read _ _) _ _ => unfold lock_frame_read
  | |- returns (match ?x with _ => _ end) _ _ => destruct x
  end.

(** A change is reported as the client made it. *)
Lemma pstep_modify th a s :
  returns (pstep d th a) (λ r _, match r with
    | Some (PvModify id seen change, _) => ∃ h, a = PModify h change | _ => True end) s.
Proof.
  unfold pstep, look, change_page, drop_guard, release_handle, enter, flush_enter, evict_lock, evict_io,
    evict_end, use_frame, fill_frame, install_cached, flush_lock, flush_io, flush_end, drop_handle, take_guard.
  destruct (at_place th), a; repeat pool_returns; try done; eauto;
    match goal with |- context [io_event ?r] => by destruct r end.
Qed.

(** A call of the steps of [PoolThreads] (a fetch, an install, a flush of one
    page, taking a guard, dropping a handle) never returns to an earlier place:
    whatever other threads do in between, each of its steps leaves strictly
    fewer to go. *)
Theorem pool_calls_bounded th s ev th' s' :
  at_place th ≠ Client → pstep d th PGo s = (Done (Some (ev, th')), s') →
  rank (at_place th') < rank (at_place th) ≤ 6.
Proof.
  intros Hpc E.
  enough (returns (pstep d th PGo) (λ r _, match r with
    | Some (_, th') => rank (at_place th') < rank (at_place th) ≤ 6 | None => True end) s) as Hr
    by exact (Hr _ _ E).
  clear E. unfold pstep. destruct (at_place th); try done;
    unfold enter, flush_enter, evict_lock, evict_io, evict_end, use_frame, fill_frame, install_cached,
      flush_lock, flush_io, flush_end, drop_handle, take_guard; repeat pool_returns; simpl; try done; lia.
Qed.

End Calls.

(** ** Example runs *)

Module CounterWitness.
Import PageWitness DiskWitness PoolWitness PoolThreadsWitness.

#[local] Existing Instance cpu.

(** Both threads increment page 1, the second while the first still has it
    pinned, and read it; then the first flushes it. *)
Definition both_increment : list pjob :=
  does 0 [PFetch 1; PGo; PGo; PGo; PGuard WriteGuard page1_handle; PGo] ++
  does 1 [PFetch 1; PGo] ++
  does 0 [PModify page1_handle increment; PUnguard WriteGuard page1_handle] ++
  does 1 [PGuard WriteGuard page1_handle; PGo; PModify page1_handle increment; PLook page1_handle;
          PUnguard WriteGuard page1_handle] ++
  does 0 [PFlush 1; PGo; PGo; PGo].

(** Schedules whose changes are increments report nothing else. *)
Lemma pschedule_counts d jobs L s ths evs L' s' ths' :
  Forall (λ j : pjob, match j.1.2 with PModify _ change => change = increment | _ => True end) jobs →
  pschedule d jobs L s ths = Some (evs, L', s', ths') →
  forallb (λ x, match x.2 with PvReplace _ _ => false | _ => true end) evs = true →
  Forall (λ x, counts x.2) evs.
Proof.
  revert L s ths evs. induction jobs as [|[[t a] plan] jobs IH]; intros L s ths evs Hj; simpl.
  { intros [= <- _ _ _] _. constructor. }
  apply Forall_cons in Hj as [Ha Hj]. intros (th & _ & E)%bind_Some.
  destruct (paction_okb d L a && _); simpl in E; [|done].
  destruct (pstep d th a (plan_pool plan s)) as [[[[ev th']|]| |] s1] eqn:Et; try done.
  apply bind_Some in E as ([[[evs1 L2] s2] ths2] & Es & [= <- -> -> ->]). simpl. intros [Hr Hrs]%andb_true_iff.
  constructor; [|by eapply IH]. pose proof (pstep_modify d th a _ _ _ Et) as Hm. simpl in *.
  destruct ev; try done. destruct Hm as [h ->]. exact Ha.
Qed.

Definition at_flushed (evs : list (nat * pevent)) (ths : list pthread) : bool :=
  forallb (λ x, match x.2 with PvReplace _ _ => false | _ => true end) evs &&
  bool_decide (bumps 1 evs = 2) &&
  match ths !! 0 with
  | Some {| at_place := Flushed h (Ok _) |} => bool_decide (h = page1_handle)
  | _ => false
  end.

Lemma both_increment_computes :
  match run both_increment with Some (evs, _, _, ths) => at_flushed evs ths | None => false end = true.
Proof. vm_compute. reflexivity. Qed.

Lemma both_increment_run :
  ∃ evs L s ths th, pool_run disk 1 2 world pages evs L s ths ∧ Forall (λ x, counts x.2) evs ∧
    bumps 1 evs = 2 ∧ ths !! 0 = Some th ∧ at_place th = Flushed page1_handle (Ok tt).
Proof.
  pose proof both_increment_computes as Hc.
  destruct (run both_increment) as [[[[evs L] s] ths]|] eqn:E; [|discriminate Hc].
  apply andb_true_iff in Hc as [[Hr Hb]%andb_true_iff Ht].
  destruct (ths !! 0) as [th|] eqn:Eth; [|discriminate Ht].
  exists evs, L, s, ths, th. split; [exact (run_sound _ _ _ _ _ E)|]. split.
  { eapply pschedule_counts; [|exact E|exact Hr]. repeat constructor. }
  clear E. split; [exact (bool_decide_eq_true_1 _ Hb)|]. split; [exact Eth|].
  destruct th as [[] ? ?]; try done. destruct r as [[]|]; [|done].
  apply bool_decide_eq_true_1 in Ht. by subst.
Qed.

Lemma increments_are_not_lost_witness :
  ∃ L : gmap PageId Page, holds_count L 1 (u64_add (read_u64 (sealed_page 1)) (Z.of_nat 2)).
Proof.
  destruct both_increment_run as (evs & L & s & ths & th & Hrun & Hc & Hb & _). exists L.
  destruct (increments_are_not_lost _ _ _ _ _ _ _ _ _ 1 (sealed_page 1) Hrun Hc
    (lookup_singleton_eq _ _)) as [Hv _].
  rewrite Hb in Hv. exact Hv.
Defined.

Lemma flushed_page_is_stored_witness :
  ∃ s f p, w_files (ps_world s) !! dm_file disk = Some f ∧ disk_has f 1 (seal p).
Proof.
  destruct both_increment_run as (evs & L & s & ths & th & Hrun & _ & _ & Ht & Hpc).
  destruct (flushed_page_is_stored _ _ _ _ _ _ _ _ _ 0 th page1_handle Hrun Ht Hpc) as (f & p & Hf & _ & Hd).
  exists s, f, p. split; [exact Hf|exact Hd].
Defined.
End CounterWitness.
