(* ===== verification/Database.v ===== *)
(** * The database handle (src/crates/oxendb/src/db/mod.rs, db/txn.rs)

    Opening with recovery, checkpoints, poisoning, and read and write
    transactions.  The WAL mutex admits one writer or checkpoint at a time and
    the publish lock keeps readers out while a commit is published, so each
    operation below is one step on the database and the world. *)

From S2P Require Import Prelude Errors BTree Checksum Page FileHeader FileSys Disk WalRecord.
From S2P Require Import WalLog Recovery BufferPool.

(** [struct Options]. *)
Record Options : Type := {
  buffer_pool_pages : nat;
  create_if_missing : bool;
  auto_checkpoint_bytes : option Z;
}.

(** [impl Default for Options]. *)
Definition default_options : Options :=
  {| buffer_pool_pages := 4096; create_if_missing := true;
     auto_checkpoint_bytes := Some (4 * 1024 * 1024)%Z |}.

(** [struct OpenReport]. *)
Record OpenReport : Type := {
  created : bool;
  recovery_stats : RecoveryStats;
  discarded_wal_tail : option DiscardedTail;
}.

Definition default_stats : RecoveryStats :=
  {| committed_txns := 0; incomplete_txns := 0; pages_restored := 0 |}.

Definition default_report : OpenReport :=
  {| created := false; recovery_stats := default_stats; discarded_wal_tail := None |}.

(** [struct Database]. *)
Record Database : Type := {
  db_disk : DiskManager;
  db_pool : BufferPool;
  db_auto_checkpoint_bytes : option Z;
  db_wal : Wal;
  next_txn : Z;
  db_poisoned : bool;
  db_report : OpenReport;
}.

Definition set_db_disk v (db : Database) : Database :=
  {| db_disk := v; db_pool := db_pool db; db_auto_checkpoint_bytes := db_auto_checkpoint_bytes db;
     db_wal := db_wal db; next_txn := next_txn db; db_poisoned := db_poisoned db;
     db_report := db_report db |}.
Definition set_db_pool v (db : Database) : Database :=
  {| db_disk := db_disk db; db_pool := v; db_auto_checkpoint_bytes := db_auto_checkpoint_bytes db;
     db_wal := db_wal db; next_txn := next_txn db; db_poisoned := db_poisoned db;
     db_report := db_report db |}.
Definition set_db_wal v (db : Database) : Database :=
  {| db_disk := db_disk db; db_pool := db_pool db;
     db_auto_checkpoint_bytes := db_auto_checkpoint_bytes db; db_wal := v;
     next_txn := next_txn db; db_poisoned := db_poisoned db; db_report := db_report db |}.
Definition set_next_txn v (db : Database) : Database :=
  {| db_disk := db_disk db; db_pool := db_pool db;
     db_auto_checkpoint_bytes := db_auto_checkpoint_bytes db; db_wal := db_wal db;
     next_txn := v; db_poisoned := db_poisoned db; db_report := db_report db |}.

(** [Database::poison]. *)
Definition poison_db (db : Database) : Database :=
  {| db_disk := db_disk db; db_pool := db_pool db;
     db_auto_checkpoint_bytes := db_auto_checkpoint_bytes db; db_wal := db_wal db;
     next_txn := next_txn db; db_poisoned := true; db_report := db_report db |}.

Section Opening.
Local Open Scope string_scope.
Context `{Cpu}.

(** [wal_path_for]: [<path>-wal]. *)
Definition wal_path_for (p : path) : Result path :=
  match file_name p with
  | None => Err (InvalidArgument (display p +:+ " is not a file path"))
  | Some name => Ok (with_file_name p (name +:+ "-wal"))
  end.

(** [Database::assemble]. *)
Definition assemble (disk : DiskManager) (wal : Wal) (options : Options) (report : OpenReport) :
    Result Database :=
  pool_new (buffer_pool_pages options) ≫= λ pool,
  Ok {| db_disk := disk; db_pool := pool;
        db_auto_checkpoint_bytes := auto_checkpoint_bytes options; db_wal := wal;
        next_txn := 1; db_poisoned := false; db_report := report |}.

(** [Database::create]. *)
Definition db_create (p wal_path : path) (options : Options) : M World (Result Database) :=
  let? disk := disk_create p in
  let? wal := wal_create wal_path in
  let report := {| created := true; recovery_stats := default_stats; discarded_wal_tail := None |} in
  lift (assemble disk wal options report).

(** [Database::open_existing]. *)
Definition open_existing (p wal_path : path) (options : Options) : M World (Result Database) :=
  let! wal_exists := path_exists wal_path in
  if negb wal_exists then
    let? disk := disk_open p in
    let? wal := wal_create wal_path in
    lift (assemble disk wal options default_report)
  else
    let? opened := wal_open wal_path in
    let? stats := replay p (opened_records opened) in
    let? disk := disk_open p in
    let! '(r, wal) := wal_reset (opened_wal opened) in
    match r with
    | Err e => ret (Err e)
    | Ok _ =>
        let report := {| created := false; recovery_stats := stats;
                         discarded_wal_tail := opened_discarded opened |} in
        lift (assemble disk wal options report)
    end.

(** [Database::open]. *)
Definition db_open (p : path) (options : Options) : M World (Result Database) :=
  let? wal_path := lift (wal_path_for p) in
  let! data_exists := path_exists p in
  if (data_exists : bool) then open_existing p wal_path options
  else if negb (create_if_missing options) then
    ret (Err (InvalidArgument ("database " +:+ display p +:+ " does not exist")))
  else
    let! wal_exists := path_exists wal_path in
    if (wal_exists : bool) then
      ret (Err (InvalidArgument (display wal_path +:+ " exists but its database file " +:+
             display p +:+ " does not")))
    else db_create p wal_path options.

End Opening.

(** ** Operations on an open database *)

Section Operations.
Local Open Scope string_scope.
Context `{Cpu} `{HashOrder}.

Abbreviation DW := (Database * World)%type.

(** The parts of the state each layer works on. *)
Definition with_world {A} (m : M World A) : M DW A := zoom snd (λ w s, (s.1, w)) m.

Definition with_pool {A} (m : M (BufferPool * World) A) : M DW A :=
  zoom (λ s, (db_pool s.1, s.2)) (λ t s, (set_db_pool t.1 s.1, t.2)) m.

(** A call of a [&mut self] method of the WAL that does I/O. *)
Definition with_wal {A} (f : Wal → M World (A * Wal)) : M DW A :=
  let! wal := gets (λ s, db_wal s.1) in
  let! '(r, wal) := with_world (f wal) in
  let! _ := modify (λ s, (set_db_wal wal s.1, s.2)) in
  ret r.

(** The same for [append], which does none. *)
Definition with_wal_pure {A} (f : Wal → A * Wal) : M DW A :=
  with_wal (λ wal, ret (f wal)).

(** [Database::check_poisoned] and [Database::poison]. *)
Definition db_check_poisoned : M DW (Result unit) :=
  gets (λ s, if db_poisoned s.1 then
               Err (Poisoned ("an earlier failure left the database in an unknown state; " +:+
                              "reopen it to recover"))
             else Ok tt).

Definition poison : M DW unit := modify (λ s, (poison_db s.1, s.2)).

(** [Database::next_txn_id]. *)
Definition next_txn_id : M DW TxnId :=
  let! id := gets (λ s, next_txn s.1) in
  let! _ := modify (λ s, (set_next_txn (u64_add (next_txn s.1) 1) s.1, s.2)) in
  ret id.

(** [Database::page_count]. *)
Definition db_page_count : M DW Z := gets (λ s, dm_page_count (db_disk s.1)).

(** [Database::write_checkpoint]. *)
Definition write_checkpoint : M DW (Result unit) :=
  let! d := gets (λ s, db_disk s.1) in
  let? _ := with_pool (flush_all d) in
  let? _ := with_world (write_file_header d) in
  let? _ := with_world (disk_sync d) in
  with_wal wal_reset.

(** [Database::checkpoint_locked]. *)
Definition checkpoint_locked : M DW (Result unit) :=
  let! result := write_checkpoint in
  if is_err result then
    let! _ := poison in
    ret result
  else ret result.

(** [Database::checkpoint] and [Database::close]. *)
Definition checkpoint : M DW (Result unit) :=
  let? _ := db_check_poisoned in
  checkpoint_locked.

Definition close : M DW (Result unit) := checkpoint.

(** [Database::maybe_auto_checkpoint]. *)
Definition maybe_auto_checkpoint : M DW (Result unit) :=
  let! limit := gets (λ s, db_auto_checkpoint_bytes s.1) in
  let! len := gets (λ s, durable_len (db_wal s.1)) in
  match limit with
  | Some limit => if (limit <=? len)%Z then checkpoint_locked else ret (Ok tt)
  | None => ret (Ok tt)
  end.

(** *** Transactions *)

(** [check_data_page] of txn.rs. *)
Definition txn_check_data_page (id : PageId) (count : Z) : Result unit :=
  if (id =? HEADER)%Z || (count <=? id)%Z then
    Err (InvalidArgument (page_id_to_string id +:+ " is not a data page (database has " +:+
           pretty count +:+ " pages)"))
  else Ok tt.

(** [ReadTxn::new], [ReadTxn::page_count] and [ReadTxn::read_page]; the page
    is handed to the caller's closure. *)
Definition begin_read : M DW (Result unit) := db_check_poisoned.

Definition read_txn_page_count : M DW Z := db_page_count.

Definition read_txn_read_page (id : PageId) : M DW (Result Page) :=
  let! count := read_txn_page_count in
  let? _ := lift (txn_check_data_page id count) in
  let! d := gets (λ s, db_disk s.1) in
  with_pool (pool_read id d).

(** [struct WriteTxn]: private copies of pages and the page count. *)
Record WriteTxn : Type := {
  dirty : list (PageId * Page);
  txn_page_count : Z;
}.

(** [WriteTxn::new]: checked before and after taking the WAL lock. *)
Definition begin_write : M DW (Result WriteTxn) :=
  let? _ := db_check_poisoned in
  let? _ := db_check_poisoned in
  let! count := db_page_count in
  ret (Ok {| dirty := []; txn_page_count := count |}).

(** [WriteTxn::read_page]. *)
Definition write_txn_read_page (id : PageId) (txn : WriteTxn) : M DW (Result Page) :=
  let? _ := lift (txn_check_data_page id (txn_page_count txn)) in
  match bt_get id (dirty txn) with
  | Some page => ret (Ok page)
  | None =>
      let! d := gets (λ s, db_disk s.1) in
      with_pool (pool_read id d)
  end.

(** [WriteTxn::page_mut], with the change the caller makes to the page. *)
Definition page_mut (id : PageId) (change : Page → Page) (txn : WriteTxn) : M DW (Result WriteTxn) :=
  let? _ := lift (txn_check_data_page id (txn_page_count txn)) in
  let? copied :=
    if bt_contains id (dirty txn) then ret (Ok (dirty txn))
    else
      let! d := gets (λ s, db_disk s.1) in
      let? copy := with_pool (pool_read id d) in
      ret (Ok (bt_insert id copy (dirty txn))) in
  match bt_get id copied with
  | None => panic
  | Some page =>
      ret (Ok {| dirty := bt_insert id (change page) copied; txn_page_count := txn_page_count txn |})
  end.

(** [WriteTxn::allocate_page]. *)
Definition allocate_page (t : PageType) (txn : WriteTxn) : PageId * WriteTxn :=
  let id := txn_page_count txn in
  (id, {| dirty := bt_insert id (page_new id t) (dirty txn);
          txn_page_count := u64_add (txn_page_count txn) 1 |}).

(** The loop of [commit] that seals and validates every page. *)
Fixpoint seal_dirty (pages : list (PageId * Page)) : Result (list (PageId * Page)) :=
  match pages with
  | [] => Ok []
  | (id, page) :: pages =>
      let page := seal page in
      map_err (λ err, InvalidArgument ("transaction left " +:+ page_id_to_string id +:+
                        " malformed: " +:+ error_to_string err)) (verify id page) ≫= λ _,
      seal_dirty pages ≫= λ pages,
      Ok ((id, page) :: pages)
  end.

(** The records a commit logs. *)
Definition commit_images (txn : TxnId) (grew : bool) (count : Z) (pages : list (PageId * Page)) :
    list WalRecord :=
  app (if grew then [PageImage txn HEADER (encode {| page_count := count |})] else [])
      ((λ '(id, page), PageImage txn id page) <$> pages).

(** [WriteTxn::log]. *)
Definition log (txn : TxnId) (images : list WalRecord) : M DW (Result unit) :=
  let? _ := for_each (λ r, let? _ := with_wal_pure (wal_append r) in ret (Ok tt)) images in
  let? _ := with_wal_pure (wal_append (Commit txn)) in
  with_wal wal_flush.

(** The body of the loop of [publish], and [WriteTxn::publish]. *)
Definition install_image (d : DiskManager) (r : WalRecord) : M DW (Result unit) :=
  match r with
  | PageImage _ id page =>
      if negb (id =? HEADER)%Z then with_pool (pool_install_page id page d) else ret (Ok tt)
  | Commit _ => ret (Ok tt)
  end.

Definition publish (count : Z) (images : list WalRecord) : M DW (Result unit) :=
  let! d := gets (λ s, db_disk s.1) in
  let '(r, d) := set_page_count count d in
  let! _ := modify (λ s, (set_db_disk d s.1, s.2)) in
  let? _ := lift r in
  for_each (install_image d) images.

(** [WriteTxn::commit]. *)
Definition commit (txn : WriteTxn) : M DW (Result unit) :=
  if decide (dirty txn = []) then ret (Ok tt)
  else
    let? pages := lift (seal_dirty (dirty txn)) in
    let! id := next_txn_id in
    let! count := db_page_count in
    let grew := (count <? txn_page_count txn)%Z in
    let images := commit_images id grew (txn_page_count txn) pages in
    let! logged := log id images in
    match logged with
    | Err err =>
        let! _ := poison in
        ret (Err err)
    | Ok _ =>
        let! published := publish (txn_page_count txn) images in
        match published with
        | Err err =>
            let! _ := poison in
            ret (Err err)
        | Ok _ =>
            let! _ := maybe_auto_checkpoint in
            ret (Ok tt)
        end
    end.

(** [WriteTxn::rollback] and dropping a transaction: the private copies go. *)
Definition rollback (txn : WriteTxn) : M DW unit := ret tt.

End Operations.
