(* ===== verification/DbState.v ===== *)
(** * The state of a database

    The abstract state of a database is its page count and the contents of
    its data pages.  [db_inv] says that an open handle represents such a
    state; [recovers] says what any crash leaves behind will be opened as. *)

From S2P Require Import Prelude Errors BTree Checksum Page FileHeader FileSys Disk WalRecord.
From S2P Require Import WalLog Recovery BufferPool PoolCache Database.

(** ** More images over the same file *)

Section MoreImages.
Context `{Cpu}.
Implicit Types m : list (PageId * Page).

Definition images_grow m m' : Prop := ∀ id, is_Some (bt_get id m) → is_Some (bt_get id m').

Section Grow.
Variables m m' : list (PageId * Page).
Hypotheses (wf : images_wf m) (sorted : bt_sorted m) (wf' : images_wf m') (sorted' : bt_sorted m').
Hypothesis grow : images_grow m m'.

Lemma covered_grow i : covered m i → covered m' i.
Proof.
  intros (id & p & Hin & Hi). destruct (grow id) as [p' Hp'].
  - exists p. by apply bt_elem_get.
  - exists id, p'. split; [by apply bt_get_elem|done].
Qed.

Lemma images_end_grow : images_end m ≤ images_end m'.
Proof.
  assert (∀ m0, (∀ id p, (id, p) ∈ m0 → page_start id + PAGE_SIZE ≤ images_end m') →
    images_end m0 ≤ images_end m') as Hle.
  { induction m0 as [|[id p] m0 IH]; intros Hm; simpl; [lia|].
    specialize (Hm id p ltac:(constructor)) as Hhd. simpl.
    assert (images_end m0 ≤ images_end m') by (apply IH; intros; eapply Hm; by constructor). lia. }
  apply Hle. intros id p Hin%bt_elem_get; [|done]. destruct (grow id) as [p' Hp']; [by exists p|].
  by eapply images_end_elem, bt_get_elem.
Qed.

Lemma agree_outside_grow b b' : agree_outside m b b' → agree_outside m' b b'.
Proof.
  intros [Hl Hz]. pose proof images_end_grow. split; [lia|]. intros i Hi. apply Hz.
  intros Hc. by apply Hi, covered_grow.
Qed.

Lemma data_safe_grow f : data_safe f m → data_safe f m'.
Proof.
  intros [Hwf Hh]. split; [done|]. eapply Forall_impl; [exact Hh|].
  intros [off src|n]; simpl; [|done]. intros Hj j x Hx.
  destruct (Hj j x Hx); [left; by apply covered_grow|by right].
Qed.

(** A page whose image did not change. *)
Lemma page_grow b id :
  (0 ≤ id)%Z → bt_get id m' = bt_get id m → has_page (images_bytes m b) id →
  has_page (images_bytes m' b) id ∧ page_of (images_bytes m' b) id = page_of (images_bytes m b) id.
Proof.
  intros Hid E Hb. destruct (bt_get id m) as [p|] eqn:Em.
  - destruct (page_of_images_some m b id p) as [_ ->]; [done..|].
    by apply page_of_images_some.
  - assert (has_page (images_bytes m' b) id) as Hb'.
    { unfold has_page in *. rewrite length_images_bytes in * by done.
      pose proof images_end_grow. lia. }
    split; [done|]. apply page_of_agree; [done..|]. intros i Hi.
    assert (∀ m0, images_wf m0 → bt_sorted m0 → bt_get id m0 = None → ¬ covered m0 i) as Hn.
    { intros m0 Hm0 Hs0 E0 (id' & p' & Hin & Hi'). destruct (Hm0 _ _ Hin).
      assert (id' = id) as -> by by eapply in_page_inj.
      apply bt_elem_get in Hin; [congruence|done]. }
    by rewrite !images_bytes_other by auto.
Qed.

End Grow.
End MoreImages.

(** A data file that needs no log is safe under any. *)
Lemma data_safe_settled f m : data_safe f [] → data_safe f m.
Proof. apply data_safe_grow; [constructor|]. by intros id [? ?]. Qed.

(** ** Abstract states *)

Record AState : Type := {
  a_count : Z;
  a_pages : gmap PageId Page;
}.

Section States.
Context `{Cpu}.
Implicit Types A : AState.

(** Every data page exists and verifies. *)
Record a_wf A : Prop := {
  a_count_range : (1 ≤ a_count A ≤ 2 ^ 52)%Z;
  a_dom id : is_Some (a_pages A !! id) ↔ (0 < id < a_count A)%Z;
  a_pages_ok id p : a_pages A !! id = Some p → page_wf p ∧ ∃ h, verify id p = Ok h;
}.

(** The bytes of a data file that holds exactly this state. *)
Record file_state (b : bytes) A : Prop := {
  fs_header : has_page b HEADER ∧ page_of b HEADER = encode {| page_count := a_count A |};
  fs_pages id p : a_pages A !! id = Some p → has_page b id ∧ page_of b id = p;
}.

Lemma a_pages_pos A id p : a_wf A → a_pages A !! id = Some p → (0 < id < a_count A)%Z.
Proof. intros HA Hp. apply (a_dom _ HA). eauto. Qed.

Lemma a_pages_wf A d : a_wf A → dm_page_count d = a_count A → pages_wf d (a_pages A).
Proof.
  intros HA Hd id p Hp. split; [|by apply (a_pages_ok _ HA)].
  unfold data_page. rewrite Hd. by eapply a_pages_pos.
Qed.

Lemma a_pages_stored A f id p : a_wf A → a_pages A !! id = Some p → stored f id p ↔ disk_has f id p.
Proof.
  intros HA. apply (pages_wf_stored {| dm_file := []; dm_page_count := a_count A |}). by apply a_pages_wf.
Qed.

Lemma a_disk_wf A d : a_wf A → dm_page_count d = a_count A → disk_wf d.
Proof. intros HA Hd. unfold disk_wf. rewrite Hd. apply HA. Qed.

(** Such a file opens, with the page count of the state. *)
Lemma file_state_openable b A :
  a_wf A → file_state b A → openable b {| page_count := a_count A |}.
Proof.
  intros HA [[Hb Hh] Hp]. pose proof (a_count_range _ HA) as Hc.
  split; [done|]. split; [rewrite Hh; apply decode_encode; simpl; unfold u64_range; lia|].
  simpl. destruct (decide (a_count A = 2 ^ 52)%Z) as [->|Hne].
  { assert (u64_mul (2 ^ 52) (Z.of_nat PAGE_SIZE) = 0%Z) as -> by by vm_compute. lia. }
  assert (u64_mul (a_count A) (Z.of_nat PAGE_SIZE) = a_count A * Z.of_nat PAGE_SIZE)%Z as ->
    by (apply file_offset_exact; unfold page_addressable; lia).
  assert (has_page b (a_count A - 1)) as Hlast.
  { destruct (decide (a_count A = 1)%Z) as [->|]; [done|].
    destruct (proj2 (a_dom _ HA (a_count A - 1)%Z) ltac:(lia)) as [p Hpp].
    by destruct (Hp _ _ Hpp). }
  unfold has_page in Hlast. nia.
Qed.

(** Replaying images of a state over a file that already holds it. *)
Lemma file_state_images m b b' A :
  a_wf A → images_wf m → bt_sorted m →
  file_state (images_bytes m b') A → file_state b A → file_state (images_bytes m b) A.
Proof.
  intros HA Hm Hs [[_ Hh'] Hp'] [[Hb Hh] Hp]. split.
  - destruct (bt_get HEADER m) as [img|] eqn:Eg.
    + destruct (page_of_images_some m b HEADER img Hm Hs Eg) as [? ->].
      destruct (page_of_images_some m b' HEADER img Hm Hs Eg) as [_ E]. split; [done|congruence].
    + destruct (page_of_images_none m b HEADER Hm Hs ltac:(done) Eg Hb) as [? ->]. done.
  - intros id p Hid. destruct (bt_get id m) as [img|] eqn:Eg.
    + destruct (page_of_images_some m b id img Hm Hs Eg) as [? ->].
      destruct (page_of_images_some m b' id img Hm Hs Eg) as [_ E].
      destruct (Hp' _ _ Hid) as [_ E']. split; [done|congruence].
    + destruct (Hp _ _ Hid) as [Hbid Epg]. pose proof (a_pages_pos _ _ _ HA Hid).
      destruct (page_of_images_none m b id Hm Hs ltac:(lia) Eg Hbid) as [? ->]. done.
Qed.

(** A file whose unsynced writes, if any, change nothing. *)
Lemma settled_crash f b : data_safe f [] → crash_content f b → b = f_cur f.
Proof.
  intros Hf Hb. pose proof (images_bytes_agree [] (f_synced f)) as Hag.
  assert (images_wf []) as Hwf by by intros ? ? ?%not_elem_of_nil.
  transitivity (f_synced f); [|symmetry]; apply Hag; try done; try constructor.
  - by apply (data_safe_crash f []).
  - by apply (data_safe_crash f []).
  - by apply (data_safe_cur f []).
  - by apply (data_safe_cur f []).
Qed.

Lemma settled_synced f : data_safe f [] → f_synced f = f_cur f.
Proof.
  intros Hf. apply settled_crash; [done|]. unfold crash_content. generalize (f_synced f).
  induction (f_pending f) as [|op ops IH]; intros b; econstructor; [apply torn_lost|apply IH].
Qed.

Lemma clean_settled f : file_clean f → data_safe f [].
Proof. intros Hc. split; [auto with oxen|]. by rewrite (proj2 Hc). Qed.

(** ** What is on disk *)

Lemma replayable_nil : replayable [].
Proof.
  split; [done| |].
  - intros txn id p []%not_elem_of_nil.
  - intros id p []%not_elem_of_nil.
Qed.

(** A data file and the contents of a log that together hold the state,
    whatever becomes of the unsynced writes to the data file. *)
Record reopenable A (f : file) (bw : bytes) (first : Z) (rs : list WalRecord) : Prop := {
  ro_wf : a_wf A;
  ro_entry : f_entry_synced f = true;
  ro_reads : reads_as bw first rs;
  ro_replay : replayable rs;
  ro_fits : log_fits first rs;
  ro_safe : data_safe f (latest_map rs);
  ro_state : file_state (images_bytes (latest_map rs) (f_synced f)) A;
}.

Lemma ro_images A f bw first rs :
  reopenable A f bw first rs → images_wf (latest_map rs) ∧ bt_sorted (latest_map rs).
Proof. intros Hr. split; [apply latest_map_wf, replay_wf, Hr|apply latest_map_sorted]. Qed.

(** The data file may be found with other unsynced writes. *)
Lemma reopenable_data A f f' bw first rs :
  reopenable A f bw first rs → f_entry_synced f' = true → data_safe f' (latest_map rs) →
  agree_outside (latest_map rs) (f_synced f) (f_synced f') → reopenable A f' bw first rs.
Proof.
  intros Hr He Hs Hag. destruct (ro_images _ _ _ _ _ Hr). split; try done; try apply Hr.
  rewrite (images_bytes_agree _ _ (f_synced f')) by done. apply Hr.
Qed.

Lemma reopenable_crash A f b bw first rs :
  reopenable A f bw first rs → crash_content f b → reopenable A (file_at_rest b) bw first rs.
Proof.
  intros Hr Hb. eapply reopenable_data; [done..| |].
  - split; [auto with oxen|constructor].
  - eapply data_safe_crash; [apply Hr|done].
Qed.

(** Whatever is left of the files [p] and [wp] holds one of the states
    [P]. *)
Definition recovers (P : AState → Prop) (p wp : path) (w : World) : Prop :=
  ∃ f fw, w_files w !! p = Some f ∧ w_files w !! wp = Some fw ∧
    f_entry_synced fw = true ∧ file_wf fw ∧
    ∀ bw, crash_content fw bw → ∃ A first rs, P A ∧ reopenable A f bw first rs.

(** The same, if what the crash does to the log shows: a batch of records was
    being written. *)
Definition recovers_checked (P : AState → Prop) (p wp : path) (w : World) : Prop :=
  ∃ f fw, w_files w !! p = Some f ∧ w_files w !! wp = Some fw ∧
    f_entry_synced fw = true ∧ file_wf fw ∧
    ∀ bw, crash_content fw bw → no_forgery fw bw → ∃ A first rs, P A ∧ reopenable A f bw first rs.

Lemma recovers_checked_mono (P P' : AState → Prop) p wp w :
  (∀ A, P A → P' A) → recovers_checked P p wp w → recovers_checked P' p wp w.
Proof.
  intros HP (f & fw & Hf & Hfw & He & Hwf & Hc). exists f, fw. split_and!; try done.
  intros bw Hbw Hg. destruct (Hc bw Hbw Hg) as (A & first & rs & HA & ?). eauto 10.
Qed.

Lemma recovers_weaken (P P' : AState → Prop) p wp w :
  (∀ A, P A → P' A) → recovers P p wp w → recovers_checked P' p wp w.
Proof.
  intros HP (f & fw & Hf & Hfw & He & Hwf & Hc). exists f, fw. split_and!; try done.
  intros bw Hbw _. destruct (Hc bw Hbw) as (A & first & rs & HA & ?). eauto 10.
Qed.

End States.

(** ** Open databases *)

Section Invariant.
Context `{Cpu}.
Implicit Types A : AState.
Implicit Types rs : list WalRecord.

(** Pages with a committed image in the log. *)
Definition in_log rs (id : PageId) : Prop := is_Some (latest_image rs id).

(** The data file [f] and the log file [fw], which holds the records [rs],
    durably hold the committed state [A]. *)
Record durable A (f fw : file) (first : Z) rs : Prop := {
  du_wf : a_wf A;
  du_entry : f_entry_synced f = true;
  du_entry_log : f_entry_synced fw = true;
  du_first : u64_range first;
  du_log : log_file fw first rs;
  du_fits : log_fits first rs;
  du_replay : replayable rs;
  du_header : has_page (f_synced f) HEADER;
  du_safe : data_safe f (latest_map rs);
  du_state : file_state (images_bytes (latest_map rs) (f_synced f)) A;
}.

(** The handle [db] works on such files; its cached pages are those of [A]. *)
Record db_parts A (db : Database) (f fw : file) (first : Z) rs : Prop := {
  dp_durable :> durable A f fw first rs;
  dp_count : dm_page_count (db_disk db) = a_count A;
  dp_ne : dm_file (db_disk db) ≠ wal_file (db_wal db);
  dp_wal : wal_rep (db_wal db) fw first rs [];
  dp_txn : u64_range (next_txn db);
  dp_fresh r : r ∈ rs → (record_txn r < next_txn db)%Z;
  dp_pool : pool_inv (a_pages A) (in_log rs) (λ _, []) f (db_pool db);
}.

Definition db_files (db : Database) (w : World) (f fw : file) : Prop :=
  w_files w !! dm_file (db_disk db) = Some f ∧ w_files w !! wal_file (db_wal db) = Some fw.

(** An open, healthy database in state [A]. *)
Definition db_inv A (db : Database) (w : World) : Prop :=
  db_poisoned db = false ∧
  ∃ f fw first rs, db_files db w f fw ∧ db_parts A db f fw first rs.

Lemma du_images A f fw first rs :
  durable A f fw first rs → images_wf (latest_map rs) ∧ bt_sorted (latest_map rs).
Proof. intros Hp. split; [apply latest_map_wf, replay_wf, Hp|apply latest_map_sorted]. Qed.

(** The log file crashes into itself. *)
Lemma du_log_crash A f fw first rs bw :
  durable A f fw first rs → crash_content fw bw → reads_as bw first rs.
Proof.
  intros Hp Hbw. destruct (du_log _ _ _ _ _ Hp) as (Hcur & Hs & Hpend).
  apply crash_content_clean in Hbw as ->; [|done]. rewrite Hs, Hcur.
  apply reads_as_clean; [apply Hp|apply replay_wf, Hp].
Qed.

(** Writes to logged pages keep the files durable. *)
Lemma du_change A f fw first rs f' :
  durable A f fw first rs → f_entry_synced f' = true →
  length (f_synced f) ≤ length (f_synced f') →
  images_bytes (latest_map rs) (f_synced f') = images_bytes (latest_map rs) (f_synced f) →
  data_safe f' (latest_map rs) → durable A f' fw first rs.
Proof.
  intros Hd He Hlen Hi Hsafe. split; try apply Hd; try done.
  - pose proof (du_header _ _ _ _ _ Hd). unfold has_page in *. lia.
  - rewrite Hi. apply Hd.
Qed.

Lemma recovers_reads A p wl f fw first rs w :
  a_wf A → f_entry_synced f = true → f_entry_synced fw = true → replayable rs → log_fits first rs →
  data_safe f (latest_map rs) → file_state (images_bytes (latest_map rs) (f_synced f)) A →
  file_wf fw → (∀ bw, crash_content fw bw → reads_as bw first rs) →
  w_files w !! p = Some f → w_files w !! wl = Some fw → recovers (λ A', A' = A) p wl w.
Proof.
  intros HA He Hew Hr Hfit Hsafe Hst Hwf Hbw Hf Hfw. exists f, fw. split_and!; try done.
  intros bw Hc. exists A, first, rs. split; [done|]. split; auto.
Qed.

Lemma durable_recovers A p wl f fw first rs w :
  durable A f fw first rs → w_files w !! p = Some f → w_files w !! wl = Some fw →
  recovers (λ A', A' = A) p wl w.
Proof.
  intros Hd Hf Hfw. eapply recovers_reads; try done; try apply Hd.
  - eapply log_file_wf, Hd.
  - intros bw. by eapply du_log_crash.
Qed.

(** Page writes of the pool are harmless. *)
Lemma pages_written_safe rs f f' :
  data_safe f (latest_map rs) → pages_written (in_log rs) f f' →
  data_safe f' (latest_map rs).
Proof.
  intros Hs (ops & Hops & ->). revert f Hs. induction Hops as [|op ops Hop _ IH]; intros f Hs; [done|].
  simpl. apply IH. apply data_safe_apply; [done|].
  destruct Hop as (id & src & -> & [p Hp] & Hlen). eapply harmless_page; [|done].
  by apply latest_map_elem.
Qed.

Lemma du_written A f fw first rs f' :
  durable A f fw first rs → pages_written (in_log rs) f f' → durable A f' fw first rs.
Proof.
  intros Hd Hpw. pose proof (pages_written_synced _ _ _ Hpw) as E.
  eapply du_change; [done| | | |].
  - rewrite (pages_written_entry _ _ _ Hpw). apply Hd.
  - by rewrite E.
  - by rewrite E.
  - eapply pages_written_safe; [apply Hd|done].
Qed.

End Invariant.
