(* ===== verification/Checkpoint.v ===== *)
(** * Checkpoints

    A checkpoint moves every committed change into the data file and empties
    the log; interrupted at any point it loses nothing. *)

From S2P Require Import Prelude Errors BTree Checksum Page FileHeader FileSys Disk WalRecord.
From S2P Require Import WalLog Recovery BufferPool PoolCache Database DbState.

(** Rules for the parts of the database. *)
Lemma wp_with_world {A} (m : M World A) Q C (db : Database) w :
  wp m (λ a w', Q a (db, w')) (λ w', C (db, w')) w → wp (with_world m) Q C (db, w).
Proof. intros Hm. by apply wp_zoom. Qed.

Lemma wp_with_pool {A} (m : M (BufferPool * World) A) Q C (db : Database) w :
  wp m (λ a t, Q a (set_db_pool t.1 db, t.2)) (λ t, C (set_db_pool t.1 db, t.2)) (db_pool db, w) →
  wp (with_pool m) Q C (db, w).
Proof. intros Hm. by apply wp_zoom. Qed.

Lemma wp_with_wal {A} (f : Wal → M World (A * Wal)) Q C (db : Database) w :
  wp (f (db_wal db)) (λ r w', Q r.1 (set_db_wal r.2 db, w')) (λ w', C (db, w')) w →
  wp (with_wal f) Q C (db, w).
Proof.
  intros Hm. unfold with_wal. wp_step. wp_step. wp_step. apply wp_with_world.
  eapply wp_mono; [exact Hm| |done]. intros [r wal] w' HQ. wp_step. wp_step. by wp_step.
Qed.

Section Checkpoint.
Context `{Cpu} `{HashOrder}.
Implicit Types A : AState.
Implicit Types rs : list WalRecord.

(** Rewriting bytes a file already has is harmless. *)
Lemma harmless_same b m id p n :
  has_page b id → page_of b id = p →
  harmless b m (WriteAt (page_start id) (take n (data p))).
Proof.
  intros Hb <- j x [Hj Hjn]%lookup_take_Some. right. simpl in Hj.
  pose proof (lookup_lt_Some _ _ _ Hj) as Hlt. rewrite length_slice in Hlt.
  by rewrite lookup_slice in Hj by lia.
Qed.

(** The header the checkpoint writes is covered by the log or already there. *)
Lemma harmless_header A b m n :
  images_wf m → bt_sorted m → file_state (images_bytes m b) A → has_page b HEADER →
  harmless b m (WriteAt (page_start HEADER) (take n (data (encode {| page_count := a_count A |})))).
Proof.
  intros Hm Hs [[_ Hh] _] Hb. destruct (bt_get HEADER m) as [img|] eqn:Eg.
  - eapply harmless_page; [by apply bt_get_elem|]. rewrite length_take, encode_wf. lia.
  - apply harmless_same; [done|].
    destruct (page_of_images_none m b HEADER Hm Hs ltac:(done) Eg Hb) as [_ E]. congruence.
Qed.

(** A checkpoint keeps the paths of the files. *)
Definition same_paths (db db' : Database) : Prop :=
  dm_file (db_disk db') = dm_file (db_disk db) ∧ wal_file (db_wal db') = wal_file (db_wal db).

Section Parts.
Variables (A : AState) (f fw : file) (first : Z) (rs : list WalRecord).
Hypothesis Hd : durable A f fw first rs.

Let m := latest_map rs.
Let hdr := encode {| page_count := a_count A |}.

(** The pages are in the file, synced, and the log is as it was. *)
Record flushed (f1 : file) : Prop := {
  fl_durable : durable A f1 fw first rs;
  fl_pages id p : a_pages A !! id = Some p → disk_has f1 id p;
  fl_clean : file_clean f1;
}.

Lemma flushed_sync f' :
  pages_written (in_log rs) f f' →
  (∀ id p, a_pages A !! id = Some p → disk_has (file_sync f') id p) → flushed (file_sync f').
Proof.
  intros Hpw Hp. destruct (du_images _ _ _ _ _ Hd) as [Hm Hs].
  pose proof (du_written _ _ _ _ _ _ Hd Hpw) as Hd'.
  pose proof (data_safe_cur _ _ (du_safe _ _ _ _ _ Hd')) as Hcur.
  split; [|done|done]. eapply du_change; [exact Hd'|apply Hd'|apply Hcur| |done].
  by apply images_bytes_agree.
Qed.

Lemma flushed_header f1 n :
  flushed f1 → durable A (file_apply (WriteAt 0 (take n (data hdr))) f1) fw first rs.
Proof.
  intros [Hd1 _ [Hs1 Hpend]]. destruct (du_images _ _ _ _ _ Hd) as [Hm Hs].
  eapply du_change; [exact Hd1|apply Hd1|done|done|].
  apply data_safe_apply; [apply Hd1|].
  apply (harmless_header A (f_synced f1) m n Hm Hs); apply Hd1.
Qed.

(** With the header written the file alone holds the state. *)
Lemma flushed_header_pages f1 id p :
  flushed f1 → a_pages A !! id = Some p →
  disk_has (file_sync (file_apply (WriteAt 0 (data hdr)) f1)) id p.
Proof.
  intros Hf1 Hp. pose proof (a_pages_pos _ _ _ (du_wf _ _ _ _ _ Hd) Hp).
  apply (disk_has_write_ne f1 id HEADER p (data hdr)); unfold HEADER; try lia.
  - pose proof (encode_wf {| page_count := a_count A |}) as E. unfold page_wf in E. unfold hdr. lia.
  - by eapply fl_pages.
Qed.

Lemma flushed_header_state f1 :
  flushed f1 → file_state (f_cur (file_sync (file_apply (WriteAt 0 (data hdr)) f1))) A.
Proof.
  intros Hf1. split.
  - split; [apply (has_page_write_same _ HEADER)|apply (page_of_write_same _ HEADER)]; apply encode_wf.
  - intros id p Hp. by apply flushed_header_pages.
Qed.

End Parts.

(** A log handle whose records are all durable. *)
Lemma rep_log wal fw first rs : wal_rep wal fw first rs [] → log_file fw first rs.
Proof. by intros []. Qed.

(** A settled data file that holds the state needs nothing from the log. *)
Lemma durable_alone A f fw first :
  a_wf A → data_safe f [] → f_entry_synced f = true → f_entry_synced fw = true →
  u64_range first → log_file fw first [] → file_state (f_cur f) A → durable A f fw first [].
Proof.
  intros HA Hs He Hew Hf Hl Hst. pose proof (settled_synced _ Hs) as Hsy. split; try done.
  - apply replayable_nil.
  - rewrite Hsy. apply Hst.
  - by rewrite Hsy.
Qed.

(** While the log is being reset the data file no longer needs it. *)
Lemma reset_recovers A f fw first rs p wl w f3 fw' :
  durable A f fw first rs →
  data_safe f3 [] → f_entry_synced f3 = true → file_state (f_cur f3) A →
  f_entry_synced fw' = true → torn_reset fw' first rs →
  w_files w !! p = Some f3 → w_files w !! wl = Some fw' → recovers (λ A', A' = A) p wl w.
Proof.
  intros Hd Hc He Hst Hew [Hwf Ht] Hf Hfw. exists f3, fw'. split_and!; try done.
  intros bw Hbw. destruct (du_images _ _ _ _ _ Hd) as [Hm Hs]. pose proof (du_wf _ _ _ _ _ Hd) as HA.
  pose proof (settled_synced _ Hc) as Hsy.
  assert (∀ n, reads_as bw n [] → reopenable A f3 bw n []) as Hnil.
  { intros n Hn. split; try done; [apply replayable_nil|by rewrite Hsy]. }
  destruct (Ht _ Hbw) as [Hr|[Hr|Hr]]; [|by eauto 10..].
  exists A, first, rs. split; [done|]. split; try done; try apply Hd.
  - by apply data_safe_settled.
  - rewrite Hsy. eapply file_state_images; try done. apply Hd.
Qed.

(** The files of a database after an operation on one of them. *)
Lemma files_data db w w' f fw f' :
  db_files db w f fw → dm_file (db_disk db) ≠ wal_file (db_wal db) →
  files_to (<[dm_file (db_disk db) := f']> (w_files w)) w w' → db_files db w' f' fw.
Proof. intros [_ Hfw] Hne [E _]. split; rewrite E; [by simplify_map_eq|by rewrite lookup_insert_ne]. Qed.

Lemma files_wal db w w' f fw fw' :
  db_files db w f fw → dm_file (db_disk db) ≠ wal_file (db_wal db) →
  files_to (<[wal_file (db_wal db) := fw']> (w_files w)) w w' → db_files db w' f fw'.
Proof. intros [Hf _] Hne [E _]. split; rewrite E; [by rewrite lookup_insert_ne|by simplify_map_eq]. Qed.

Lemma files_same db w w' f fw :
  db_files db w f fw → files_to (w_files w) w w' → db_files db w' f fw.
Proof. intros [Hf Hfw] [E _]. by split; rewrite E. Qed.

Lemma wp_write_file_header d f (Q : Result unit → World → Prop) C w :
  w_files w !! dm_file d = Some f →
  let put n := file_apply (WriteAt 0 (take n (data (encode {| page_count := dm_page_count d |})))) f in
  (∀ w', files_to (<[dm_file d := put PAGE_SIZE]> (w_files w)) w w' → Q (Ok tt) w') →
  (¬ io_ok w → ∀ n w', files_to (<[dm_file d := put n]> (w_files w)) w w' →
     C w' ∧ ∀ e, Q (Err e) w') →
  wp (write_file_header d) Q C w.
Proof.
  intros Hf put Hok Hbad. unfold write_file_header. eapply wp_write_all_at; [done| |].
  - intros w' Hw'. apply Hok. unfold put.
    by rewrite firstn_all2 by (rewrite (encode_wf {| page_count := dm_page_count d |}); done).
  - intros Hn n w' _ Hw'. destruct (Hbad Hn n w' Hw'). split; auto.
Qed.

(** The database with a flushed pool, a synced header and an empty log. *)
Lemma checkpointed A db f fw first rs pl wal f1 f3 fw' :
  db_parts A db f fw first rs → flushed A fw first rs f1 →
  f3 = file_sync (file_apply (WriteAt 0 (data (encode {| page_count := a_count A |}))) f1) →
  (∀ D, pool_inv (a_pages A) D (λ _, []) f1 pl) →
  wal_file wal = wal_file (db_wal db) → f_entry_synced fw' = f_entry_synced fw →
  wal_rep wal fw' (seq_at first (length rs)) [] [] →
  db_parts A (set_db_wal wal (set_db_pool pl db)) f3 fw' (seq_at first (length rs)) [].
Proof.
  intros Hdb Hf1 -> Hpool Hwf Hew Hrep.
  pose proof (dp_durable _ _ _ _ _ _ Hdb) as Hd.
  assert (f_entry_synced fw = true) by apply Hd.
  split; try done; try apply Hdb.
  - apply durable_alone; [apply Hd|by apply clean_settled| |congruence|apply seq_at_range| |].
    + apply (fl_durable _ _ _ _ _ Hf1).
    + by eapply rep_log.
    + by eapply flushed_header_state.
  - simpl. rewrite Hwf. apply Hdb.
  - intros r []%not_elem_of_nil.
  - eapply pool_inv_disk; [|apply Hpool]. intros id p Hp _. apply (a_pages_stored A); [apply Hd|done|].
    by eapply flushed_header_pages.
Qed.

(** What a checkpoint guarantees, as a post- and a crash condition. *)
Definition checkpoint_post A db w (r : Result unit) (s : Database * World) : Prop :=
  same_paths db s.1 ∧
  match r with
  | Ok _ => db_poisoned s.1 = db_poisoned db ∧ next_txn s.1 = next_txn db ∧
            ∃ f' fw' first', db_files s.1 s.2 f' fw' ∧ db_parts A s.1 f' fw' first' []
  | Err _ => ¬ io_ok w ∧
             recovers (λ A', A' = A) (dm_file (db_disk db)) (wal_file (db_wal db)) s.2
  end.

Definition checkpoint_crash A db w (s : Database * World) : Prop :=
  ¬ io_ok w ∧ recovers (λ A', A' = A) (dm_file (db_disk db)) (wal_file (db_wal db)) s.2.

(** Header, sync and reset, once the pages are in the file. *)
Lemma wp_checkpoint_tail A db w f fw first rs pl w1 f1 :
  db_parts A db f fw first rs → flushed A fw first rs f1 →
  (∀ D, pool_inv (a_pages A) D (λ _, []) f1 pl) →
  db_files db w1 f1 fw → (io_ok w → io_ok w1) →
  wp (let? _ := with_world (write_file_header (db_disk db)) in
      let? _ := with_world (disk_sync (db_disk db)) in
      with_wal wal_reset) (checkpoint_post A db w) (checkpoint_crash A db w) (set_db_pool pl db, w1).
Proof.
  intros Hdb Hf1 Hpool Hfs1 Hio1. pose proof (dp_ne _ _ _ _ _ _ Hdb) as Hne.
  pose proof (dp_durable _ _ _ _ _ _ Hdb) as Hd.
  pose proof (λ n, flushed_header _ _ _ _ _ Hd _ n Hf1) as Hd2.
  wp_step. apply wp_with_world. eapply wp_write_file_header; [apply Hfs1| |];
    rewrite (dp_count _ _ _ _ _ _ Hdb).
  2:{ intros Hn n w' Hw'. pose proof (files_data _ _ _ _ _ _ Hfs1 Hne Hw') as [Hfa Hfb].
      pose proof (durable_recovers _ _ _ _ _ _ _ _ (Hd2 n) Hfa Hfb).
      split; [by split; auto|]. intros e. split; [done|]. split; auto. }
  specialize (Hd2 PAGE_SIZE). rewrite firstn_all2 in * by (rewrite encode_wf; done).
  intros w2 Hw2. pose proof (files_data _ _ _ _ _ _ Hfs1 Hne Hw2) as Hfs2.
  wp_step. apply wp_with_world. eapply wp_sync_all; [apply Hfs2| |].
  2:{ intros Hn w' Hw'. pose proof (files_same _ _ _ _ _ Hfs2 Hw') as [Hfa Hfb].
      pose proof (durable_recovers _ _ _ _ _ _ _ _ Hd2 Hfa Hfb).
      assert (¬ io_ok w) by (destruct Hw2; tauto).
      split; [by split|]. intros code. by split. }
  intros w3 Hw3. pose proof (files_data _ _ _ _ _ _ Hfs2 Hne Hw3) as Hfs3.
  pose proof (flushed_header_state _ _ _ _ _ Hd _ Hf1) as Hst.
  assert (∀ w' fw', f_entry_synced fw' = f_entry_synced fw → torn_reset fw' first rs →
    files_to (<[wal_file (db_wal db) := fw']> (w_files w3)) w3 w' →
    recovers (λ A', A' = A) (dm_file (db_disk db)) (wal_file (db_wal db)) w') as Hrec.
  { intros w' fw' He' Ht Hw'. destruct (files_wal _ _ _ _ _ _ Hfs3 Hne Hw') as [Hfa Hfb].
    eapply (reset_recovers A _ _ _ _ _ _ _ _ _ Hd); [| |exact Hst| |exact Ht|done..];
      [by apply clean_settled|apply (du_entry _ _ _ _ _ Hd2)|]. rewrite He'. apply Hd. }
  apply wp_with_wal. simpl db_wal.
  eapply wp_mono; [eapply wp_wal_reset; [apply Hdb|apply Hfs3|apply Hd]| |].
  - intros [r wal] w' (Hwf & fw' & Hw' & He' & Hr). cbn [fst snd] in *.
    split; [by split|]. destruct r as [[]|e]; cbn [fst snd].
    + destruct (files_wal _ _ _ _ _ _ Hfs3 Hne Hw') as [Hfa Hfb].
      split; [done|]. split; [done|]. do 3 eexists. split; [split; [exact Hfa|]|].
      * simpl. rewrite Hwf. exact Hfb.
      * by eapply checkpointed.
    + destruct Hr as (Hn & _ & Ht). split; [destruct Hw2, Hw3; tauto|]. by eapply Hrec.
  - intros w' (Hn & fw' & Hw' & He' & Ht). split; [destruct Hw2, Hw3; tauto|]. by eapply Hrec.
Qed.

Lemma wp_write_checkpoint A db w f fw first rs :
  db_files db w f fw → db_parts A db f fw first rs →
  wp write_checkpoint (checkpoint_post A db w) (checkpoint_crash A db w) (db, w).
Proof.
  intros Hfs Hdb. pose proof (dp_ne _ _ _ _ _ _ Hdb) as Hne.
  pose proof (dp_durable _ _ _ _ _ _ Hdb) as Hdu. pose proof (du_wf _ _ _ _ _ Hdu) as HA.
  pose proof (dp_count _ _ _ _ _ _ Hdb) as Hcnt.
  pose proof (a_pages_wf A (db_disk db) HA Hcnt) as HL.
  pose proof (a_disk_wf A (db_disk db) HA Hcnt) as Hd.
  assert (∀ w' f', io_step (db_disk db) (in_log rs) w f w' f' →
    recovers (λ A', A' = A) (dm_file (db_disk db)) (wal_file (db_wal db)) w') as Hrec.
  { intros w' f' [Hw' Hpw]. pose proof (files_data _ _ _ _ _ _ Hfs Hne Hw') as [Hfa Hfb].
    eapply durable_recovers; [by eapply du_written|done..]. }
  unfold write_checkpoint. wp_step. wp_step. wp_step. apply wp_with_pool. cbn [fst snd].
  eapply wp_mono; [eapply (wp_flush_all (db_disk db) Hd _ _ _ _ _ _ HL (dp_pool _ _ _ _ _ _ Hdb));
    [apply Hfs|done]| |].
  - intros [[]|e] [pl w1] [f' Hr]; cbn [fst snd] in *.
    + destruct Hr as (Hw1 & Hpw & Hpool & Hpages).
      eapply wp_checkpoint_tail; [done|by eapply flushed_sync|apply Hpool| |apply Hw1].
      by eapply files_data.
    + destruct Hr as (Hn & Hst & _). split; [done|]. split; [done|]. by eapply Hrec.
  - intros [pl w1] (Hn & f' & Hst). split; [done|]. by eapply Hrec.
Qed.

(** A database that refuses further transactions, whose files recover to one
    of the states [P]. *)
Definition halted (P : AState → Prop) db (s : Database * World) : Prop :=
  db_poisoned s.1 = true ∧ recovers P (dm_file (db_disk db)) (wal_file (db_wal db)) s.2.

Lemma wp_checkpoint_locked A db w f fw first rs :
  db_files db w f fw → db_parts A db f fw first rs →
  wp checkpoint_locked
    (λ r s, same_paths db s.1 ∧
       match r with
       | Ok _ => checkpoint_post A db w (Ok tt) s
       | Err _ => ¬ io_ok w ∧ halted (λ A', A' = A) db s
       end) (checkpoint_crash A db w) (db, w).
Proof.
  intros Hfs Hdb. unfold checkpoint_locked. wp_step.
  eapply wp_mono; [by eapply wp_write_checkpoint| |done].
  intros [[]|e] [db' w'] [Hp Hr]; simpl; [by wp_step|].
  wp_step. unfold poison. wp_step. wp_step. destruct Hr as [Hn Hr]. by split_and!.
Qed.

(** The checkpoint a commit may trigger changes nothing a client sees. *)
Lemma wp_maybe_auto_checkpoint A db w :
  db_inv A db w →
  wp maybe_auto_checkpoint
    (λ r s, same_paths db s.1 ∧
       (db_inv A s.1 s.2 ∨ ¬ io_ok w ∧ halted (λ A', A' = A) db s))
    (checkpoint_crash A db w) (db, w).
Proof.
  intros Hinv. pose proof Hinv as (Hpo & f & fw & first & rs & Hfs & Hdb).
  unfold maybe_auto_checkpoint. wp_step. wp_step. wp_step. wp_step. wp_step; [wp_step|].
  - eapply wp_mono; [by eapply wp_checkpoint_locked| |done].
    intros [[]|e] s [Hp Hr]; split; auto. left.
    destruct Hr as (_ & Epo & _ & f' & fw' & first' & ? & ?). split; [by simpl in *; congruence|].
    by exists f', fw', first', [].
  - wp_step. split; [done|]. by left.
  - wp_step. split; [done|]. by left.
Qed.

End Checkpoint.
