(* ===== verification/Commit.v ===== *)
(** * Commits

    A commit logs an image of every page the transaction changed, makes the
    log durable and then publishes the images to the buffer pool.  Whatever
    interrupts it, the database recovers to the state before the transaction
    or to the state after it. *)

From S2P Require Import Prelude Errors BTree Checksum Page FileHeader FileSys Disk WalRecord.
From S2P Require Import WalLog Recovery BufferPool PoolCache Database DbState Checkpoint.

(** ** What a transaction adds to the log *)

Section LogExtension.
Implicit Types rs : list WalRecord.
Implicit Types imgs m : list (PageId * Page).

(** The images of one transaction, and a map overridden by them. *)
Definition image_records (txn : TxnId) imgs : list WalRecord :=
  (λ x, PageImage txn x.1 x.2) <$> imgs.

Definition override imgs m : list (PageId * Page) :=
  foldl (λ m x, bt_insert x.1 x.2 m) m imgs.

Lemma override_sorted imgs m : bt_sorted m → bt_sorted (override imgs m).
Proof. revert m. induction imgs as [|x imgs IH]; intros m Hm; [done|]. by apply IH, bt_insert_sorted. Qed.

Lemma override_get imgs m id :
  bt_sorted imgs →
  bt_get id (override imgs m) = match bt_get id imgs with Some p => Some p | None => bt_get id m end.
Proof.
  intros Hs. revert m. induction Hs as [|[j p] imgs Hs IH Hj]; intros m; [done|]. simpl.
  rewrite IH, bt_get_insert. destruct (Z.eqb_spec id j) as [->|]; [|done].
  destruct (bt_get j imgs) eqn:Eg; [|done]. apply bt_get_elem in Eg.
  rewrite Forall_forall in Hj. specialize (Hj _ Eg). simpl in Hj. lia.
Qed.

Lemma latest_list_app C rs rs' m :
  latest_list C (rs ++ rs') m = latest_list C rs' (latest_list C rs m).
Proof. revert m. induction rs as [|[] rs IH]; intros m; simpl; auto. Qed.

Lemma latest_list_ext C C' rs m :
  (∀ r, r ∈ rs → record_txn r ∈ C ↔ record_txn r ∈ C') → latest_list C rs m = latest_list C' rs m.
Proof.
  revert m. induction rs as [|r rs IH]; intros m HC; [done|].
  assert (∀ m, latest_list C rs m = latest_list C' rs m) as IH'
    by (intros; apply IH; intros; apply HC; by constructor).
  specialize (HC r ltac:(constructor)). destruct r; simpl in *; [|done].
  rewrite IH'. f_equal. by destruct (decide (_ ∈ C)), (decide (_ ∈ C')); tauto.
Qed.

Lemma latest_list_other C rs m :
  (∀ r, r ∈ rs → record_txn r ∉ C) → latest_list C rs m = m.
Proof.
  revert m. induction rs as [|r rs IH]; intros m HC; [done|].
  assert (∀ m, latest_list C rs m = m) as IH' by (intros; apply IH; intros; apply HC; by constructor).
  specialize (HC r ltac:(constructor)). destruct r; simpl in *; [|done].
  by rewrite decide_False, IH' by done.
Qed.

Lemma latest_list_records C txn imgs m :
  txn ∈ C → latest_list C (image_records txn imgs) m = override imgs m.
Proof.
  intros HC. revert m. induction imgs as [|x imgs IH]; intros m; [done|].
  simpl. by rewrite decide_True, IH by done.
Qed.

Lemma image_records_elem r txn imgs :
  r ∈ image_records txn imgs → ∃ id p, r = PageImage txn id p ∧ (id, p) ∈ imgs.
Proof. intros ([id p] & -> & Hin)%list_elem_of_fmap. eauto. Qed.

Lemma image_records_take k txn imgs : take k (image_records txn imgs) = image_records txn (take k imgs).
Proof. symmetry. apply fmap_take. Qed.

Section Fresh.
Context `{Cpu}.
Variables (rs : list WalRecord) (txn : TxnId) (imgs : list (PageId * Page)).
Hypothesis fresh : ∀ r, r ∈ rs → record_txn r ≠ txn.

Let ps := image_records txn imgs ++ [Commit txn].

Lemma fresh_commits : txn ∉ commits rs.
Proof. intros Hc%elem_of_commits. by destruct (fresh _ Hc). Qed.

(** Without its commit record the images change nothing. *)
Lemma commits_uncommitted imgs' : commits (rs ++ image_records txn imgs') = commits rs.
Proof.
  apply set_eq. intros t. rewrite !elem_of_commits, elem_of_app. split; [|by left].
  intros [|(id & p & [=] & _)%image_records_elem]; done.
Qed.

Lemma latest_map_uncommitted imgs' : latest_map (rs ++ image_records txn imgs') = latest_map rs.
Proof.
  unfold latest_map. rewrite commits_uncommitted, latest_list_app. apply latest_list_other.
  intros r (id & p & -> & _)%image_records_elem. apply fresh_commits.
Qed.

Lemma replayable_uncommitted imgs' :
  Forall record_wf (image_records txn imgs') → replayable rs →
  replayable (rs ++ image_records txn imgs').
Proof.
  intros Hwf [Hw Hv Ha]. split.
  - by apply Forall_app.
  - rewrite commits_uncommitted. intros t id p [Hin|Hin]%elem_of_app Ht; [by eapply Hv|].
    apply image_records_elem in Hin as (? & ? & [= -> -> ->] & _). by destruct fresh_commits.
  - by rewrite latest_map_uncommitted.
Qed.

(** With it they override what the log held. *)
Lemma commits_committed t : t ∈ commits (rs ++ ps) ↔ t = txn ∨ t ∈ commits rs.
Proof.
  unfold ps. rewrite !elem_of_commits, !elem_of_app, list_elem_of_singleton. split.
  - intros [|[(id & p & [=] & _)%image_records_elem|[=]]]; auto.
  - intros [->|]; auto.
Qed.

Lemma latest_map_committed : latest_map (rs ++ ps) = override imgs (latest_map rs).
Proof.
  unfold latest_map at 1. rewrite latest_list_app. unfold ps. rewrite latest_list_app. simpl.
  rewrite latest_list_records by (apply commits_committed; auto). f_equal.
  unfold latest_map. apply latest_list_ext. intros r Hr. fold ps. rewrite commits_committed.
  specialize (fresh r Hr). tauto.
Qed.

Lemma latest_image_committed id :
  bt_sorted imgs → bt_get id (latest_map (rs ++ ps)) =
    match bt_get id imgs with Some p => Some p | None => bt_get id (latest_map rs) end.
Proof. intros. rewrite latest_map_committed. by apply override_get. Qed.

Lemma replayable_committed :
  u64_range txn → bt_sorted imgs →
  (∀ id p, (id, p) ∈ imgs → page_addressable id ∧ page_wf p ∧ valid_image id p) →
  replayable rs → replayable (rs ++ ps).
Proof.
  intros Ht Hs Himgs [Hw Hv Ha]. split.
  - apply Forall_app. split; [done|]. apply Forall_app. split; [|by constructor].
    apply Forall_forall. intros r (id & p & -> & Hin)%image_records_elem.
    destruct (Himgs _ _ Hin) as (Haddr & ? & _). split; [done|]. split; [|done].
    unfold page_addressable in Haddr. unfold u64_range. lia.
  - intros t id p Hin. rewrite commits_committed. unfold ps in Hin.
    rewrite !elem_of_app, list_elem_of_singleton in Hin.
    destruct Hin as [Hin|[(? & ? & [= -> -> ->] & Hin)%image_records_elem|[=]]]; [|intros _; by apply Himgs].
    intros [->|Htc]; [by destruct (fresh _ Hin)|]. by eapply Hv.
  - intros id p Hin%bt_elem_get; [|apply latest_map_sorted].
    rewrite latest_image_committed in Hin by done.
    destruct (bt_get id imgs) as [q|] eqn:Eg; [by apply bt_get_elem, Himgs in Eg as [? _]|].
    by eapply Ha, bt_get_elem.
Qed.

End Fresh.

End LogExtension.

(** ** Transactions *)

Section Transactions.
Context `{Cpu}.
Implicit Types A : AState.
Implicit Types txn : WriteTxn.

(** A write transaction on a database in state [A]: pages it allocated are
    among its private copies. *)
Record txn_rep A txn : Prop := {
  tr_sorted : bt_sorted (dirty txn);
  tr_count : (a_count A ≤ txn_page_count txn ≤ 2 ^ 52)%Z;
  tr_dirty id p : (id, p) ∈ dirty txn → (0 < id < txn_page_count txn)%Z ∧ page_wf p;
  tr_new id : (a_count A ≤ id < txn_page_count txn)%Z → is_Some (bt_get id (dirty txn));
}.

(** Every page is one the database accepts once it is sealed. *)
Definition txn_valid txn : Prop :=
  ∀ id p, (id, p) ∈ dirty txn → is_ok (verify id (seal p)) = true.

(** The state the transaction commits. *)
Definition txn_state A txn : AState :=
  {| a_count := txn_page_count txn;
     a_pages := (seal <$> list_to_map (dirty txn)) ∪ a_pages A |}.

Lemma list_to_map_bt (m : list (PageId * Page)) id :
  (list_to_map m : gmap PageId Page) !! id = bt_get id m.
Proof.
  induction m as [|[j p] m IH]; [done|]. simpl.
  destruct (Z.eqb_spec id j) as [->|]; [by simplify_map_eq|]. by rewrite lookup_insert_ne.
Qed.

Lemma txn_state_lookup A txn id :
  a_pages (txn_state A txn) !! id =
    match bt_get id (dirty txn) with Some p => Some (seal p) | None => a_pages A !! id end.
Proof.
  simpl. rewrite lookup_union, lookup_fmap, list_to_map_bt.
  destruct (bt_get id (dirty txn)); simpl; [apply union_Some_l|apply (left_id_L None _)].
Qed.

Lemma txn_state_wf A txn : a_wf A → txn_rep A txn → txn_valid txn → a_wf (txn_state A txn).
Proof.
  intros HA [Hs Hc Hd Hn] Hv. pose proof (a_count_range _ HA). split.
  - simpl. lia.
  - intros id. rewrite txn_state_lookup. simpl.
    destruct (bt_get id (dirty txn)) as [p|] eqn:Eg.
    + apply bt_get_elem in Eg. destruct (Hd _ _ Eg). split; [done|]. eauto.
    + rewrite (a_dom _ HA). split; [lia|]. intros ?. split; [lia|].
      destruct (decide (id < a_count A)%Z); [done|]. destruct (Hn id); [lia|congruence].
  - intros id p. rewrite txn_state_lookup.
    destruct (bt_get id (dirty txn)) as [q|] eqn:Eg; [|apply (a_pages_ok _ HA)].
    intros [= <-]. apply bt_get_elem in Eg. destruct (Hd _ _ Eg) as [_ Hq].
    split; [by apply seal_wf|]. specialize (Hv _ _ Eg).
    destruct (verify id (seal q)) as [h|]; [by exists h|done].
Qed.

(** A transaction with no private pages commits the state it started from. *)
Lemma txn_state_empty A txn : txn_rep A txn → dirty txn = [] → txn_state A txn = A.
Proof.
  intros [_ Hc _ Hn] E. destruct A as [c L]. unfold txn_state. rewrite E. simpl in *.
  rewrite fmap_empty, (left_id_L ∅ (∪)). f_equal.
  destruct (decide (txn_page_count txn = c)); [done|].
  destruct (Hn c) as [p Hp]; [lia|]. by rewrite E in Hp.
Qed.

(** The images a commit logs, the header among them if the database grew. *)
Definition txn_images A txn : list (PageId * Page) :=
  (if (a_count A <? txn_page_count txn)%Z
   then [(HEADER, encode {| page_count := txn_page_count txn |})] else []) ++
  bt_map (λ _, seal) (dirty txn).

Lemma commit_images_records id A txn :
  commit_images id (a_count A <? txn_page_count txn)%Z (txn_page_count txn)
    (bt_map (λ _, seal) (dirty txn)) = image_records id (txn_images A txn).
Proof.
  unfold commit_images, txn_images, image_records. rewrite fmap_app. f_equal.
  - by destruct (_ <? _)%Z.
  - apply list_fmap_ext. by intros _ [id' p] _.
Qed.

Lemma txn_images_sorted A txn : txn_rep A txn → bt_sorted (txn_images A txn).
Proof.
  intros [Hs _ Hd _]. unfold txn_images. pose proof (bt_map_sorted (λ _, seal) _ Hs).
  destruct (_ <? _)%Z; [|done]. constructor; [done|]. apply Forall_forall. simpl.
  intros x ([id p] & -> & Hin)%list_elem_of_fmap. simpl. apply (Hd _ _ Hin).
Qed.

Lemma txn_images_get A txn id :
  id ≠ HEADER → bt_get id (txn_images A txn) = seal <$> bt_get id (dirty txn).
Proof.
  intros Hid. unfold txn_images. rewrite <- (bt_get_map (λ _, seal)).
  destruct (_ <? _)%Z; [|done]. simpl. by rewrite (proj2 (Z.eqb_neq id HEADER)).
Qed.

Lemma txn_images_header A txn :
  a_wf A → txn_rep A txn →
  bt_get HEADER (txn_images A txn) = Some (encode {| page_count := txn_page_count txn |}) ∨
  (bt_get HEADER (txn_images A txn) = None ∧ txn_page_count txn = a_count A).
Proof.
  intros HA [_ Hc Hd _]. unfold txn_images. destruct (Z.ltb_spec (a_count A) (txn_page_count txn)).
  - by left.
  - right. split; [|lia]. simpl. rewrite (bt_get_map (λ _, seal)).
    destruct (bt_get HEADER (dirty txn)) as [p|] eqn:Eg; [|done].
    apply bt_get_elem, Hd in Eg as [Hid _]. unfold HEADER in Hid. lia.
Qed.

Lemma txn_images_valid A txn id p :
  a_wf A → txn_rep A txn → txn_valid txn → (id, p) ∈ txn_images A txn →
  page_addressable id ∧ page_wf p ∧ valid_image id p.
Proof.
  intros HA [_ Hc Hd _] Hv [Hin|Hin]%elem_of_app.
  - destruct (_ <? _)%Z; [|by apply not_elem_of_nil in Hin].
    apply list_elem_of_singleton in Hin. simplify_eq. split; [by split|].
    split; [apply encode_wf|]. unfold valid_image. simpl.
    pose proof (a_count_range _ HA). rewrite decode_encode; [done|..]; unfold u64_range; simpl; lia.
  - apply list_elem_of_fmap in Hin as ([id' q] & [= -> ->] & Hin). simpl.
    destruct (Hd _ _ Hin) as [? Hq]. split; [unfold page_addressable; lia|].
    split; [by apply seal_wf|]. unfold valid_image, HEADER.
    rewrite (proj2 (Z.eqb_neq id' 0)) by lia. by apply Hv.
Qed.

(** The loop of [commit] either seals every page or refuses the transaction. *)
Lemma seal_dirty_spec pages :
  match seal_dirty pages with
  | Ok ps => ps = bt_map (λ _, seal) pages ∧
             ∀ id p, (id, p) ∈ pages → is_ok (verify id (seal p)) = true
  | Err e => is_invalid_argument e = true ∧
             ∃ id p, (id, p) ∈ pages ∧ is_ok (verify id (seal p)) = false
  end.
Proof.
  induction pages as [|[id p] pages IH]; simpl; [split; [done|]; intros id p []%not_elem_of_nil|].
  destruct (verify id (seal p)) as [h|e] eqn:Ev; simpl.
  - destruct (seal_dirty pages) as [ps|e]; simpl.
    + destruct IH as [-> IH]. split; [done|].
      intros id' p' [[= -> ->]|]%elem_of_cons; [by rewrite Ev|auto].
    + destruct IH as (? & id' & p' & Hin & ?). split; [done|]. exists id', p'.
      split; [by constructor|done].
  - split; [done|]. exists id, p. split; [constructor|by rewrite Ev].
Qed.

End Transactions.

(** ** The log of a committed transaction *)

Section Logged.
Context `{Cpu}.
Variables (A : AState) (txn : WriteTxn) (f fw : file) (first : Z) (rs : list WalRecord) (id : TxnId).
Hypotheses (Hd : durable A f fw first rs) (Htxn : txn_rep A txn) (Hvalid : txn_valid txn).
Hypotheses (Hid : u64_range id) (Hfresh : ∀ r, r ∈ rs → (record_txn r < id)%Z).

Definition txn_records : list WalRecord := image_records id (txn_images A txn) ++ [Commit id].

Let imgs := txn_images A txn.
Let ps := txn_records.
Let A' := txn_state A txn.

Hypothesis Hfits : log_fits first (rs ++ ps).

Lemma fresh_ne r : r ∈ rs → record_txn r ≠ id.
Proof. intros Hr. specialize (Hfresh r Hr). lia. Qed.

Lemma logged_replayable : replayable (rs ++ ps).
Proof.
  apply replayable_committed; [apply fresh_ne|done|by apply txn_images_sorted| |apply Hd].
  intros. eapply txn_images_valid; try done. apply Hd.
Qed.

Lemma logged_get j :
  bt_get j (latest_map (rs ++ ps)) =
    match bt_get j imgs with Some p => Some p | None => bt_get j (latest_map rs) end.
Proof. apply latest_image_committed; [apply fresh_ne|by apply txn_images_sorted]. Qed.

Lemma logged_grow : images_grow (latest_map rs) (latest_map (rs ++ ps)).
Proof. intros j Hj. rewrite logged_get. by destruct (bt_get j imgs). Qed.

Lemma logged_images : images_wf (latest_map (rs ++ ps)) ∧ bt_sorted (latest_map (rs ++ ps)).
Proof. split; [apply latest_map_wf, logged_replayable|apply latest_map_sorted]. Qed.

(** The new records turn a file that recovers to [A] into one that recovers
    to the state of the transaction. *)
Lemma logged_state b :
  file_state (images_bytes (latest_map rs) b) A →
  file_state (images_bytes (latest_map (rs ++ ps)) b) A'.
Proof.
  intros [[Hb Eh] Hp]. destruct (du_images _ _ _ _ _ Hd) as [Hm Hs].
  destruct logged_images as [Hm' Hs']. pose proof (du_wf _ _ _ _ _ Hd) as HA. split.
  - pose proof (logged_get HEADER) as E.
    destruct (txn_images_header A txn HA Htxn) as [Eg|[Eg Ec]]; fold imgs in Eg; rewrite Eg in E.
    + by apply page_of_images_some.
    + destruct (page_grow _ _ Hm Hs Hm' Hs' logged_grow b HEADER) as [? ->]; try done.
      split; [done|]. simpl. by rewrite Ec.
  - intros j p Hj. unfold A' in Hj.
    assert (0 < j < txn_page_count txn)%Z as Hr
      by (eapply (a_pages_pos A'); [by apply txn_state_wf|done]).
    rewrite txn_state_lookup in Hj. pose proof (logged_get j) as E. unfold imgs in E.
    rewrite txn_images_get in E by (unfold HEADER; lia).
    destruct (bt_get j (dirty txn)) as [q|]; simpl in E.
    + simplify_eq. by apply page_of_images_some.
    + destruct (Hp _ _ Hj) as [Hbj <-]. eapply page_grow; eauto using logged_grow. lia.
Qed.

Lemma durable_logged fw' :
  f_entry_synced fw' = true → log_file fw' first (rs ++ ps) → durable A' f fw' first (rs ++ ps).
Proof.
  intros He Hl. destruct (du_images _ _ _ _ _ Hd) as [Hm Hs].
  split; try done; try apply Hd.
  - apply txn_state_wf; [apply Hd|done..].
  - apply logged_replayable.
  - eapply data_safe_grow; [exact Hs|apply logged_grow|apply Hd].
  - apply logged_state, Hd.
Qed.

(** A log cut short anywhere holds the state before or the state after. *)
Lemma torn_records k :
  (∃ imgs', take k ps = image_records id imgs') ∨ take k ps = ps.
Proof.
  unfold ps, txn_records. destruct (decide (k ≤ length (image_records id (txn_images A txn)))).
  - left. rewrite take_app_le by done. eexists. apply image_records_take.
  - right. apply take_ge. rewrite length_app. simpl. lia.
Qed.

Lemma log_fits_prefix k : log_fits first (rs ++ take k ps).
Proof.
  unfold log_fits in *. rewrite <- (take_drop k ps), app_assoc, (log_bytes_app (rs ++ take k ps)) in Hfits.
  rewrite length_app in Hfits. lia.
Qed.

Lemma torn_commit_recovers p wl w fw' :
  f_entry_synced fw' = true → torn_flush fw' first rs ps →
  w_files w !! p = Some f → w_files w !! wl = Some fw' →
  recovers_checked (λ X, X = A ∨ X = A') p wl w.
Proof.
  intros He [Hwf Ht] Hf Hfw. destruct (du_images _ _ _ _ _ Hd) as [Hm Hs].
  exists f, fw'. split_and!; try done. intros bw Hbw Hg.
  destruct (Ht _ Hbw Hg) as [k Hk]. pose proof (log_fits_prefix k) as Hfk.
  destruct (torn_records k) as [[imgs' E]|E]; rewrite E in Hk, Hfk.
  - exists A, first, (rs ++ image_records id imgs'). split; [by left|].
    split; rewrite ?latest_map_uncommitted by apply fresh_ne; try done; try apply Hd.
    apply replayable_uncommitted; [apply fresh_ne| |apply Hd].
    by destruct Hk as (_ & [_ ?]%Forall_app & _).
  - exists A', first, (rs ++ ps). split; [by right|].
    split; try done; try apply Hd; try apply logged_replayable.
    + apply txn_state_wf; [apply Hd|done..].
    + eapply data_safe_grow; [exact Hs|apply logged_grow|apply Hd].
    + apply logged_state, Hd.
Qed.

End Logged.

(** ** The commit protocol *)

Section Protocol.
Context `{Cpu} `{HashOrder}.
Implicit Types A : AState.
Implicit Types rs : list WalRecord.

(** Appending only buffers. *)
Lemma wp_with_wal_append r db w fw first rs ps Q C :
  wal_rep (db_wal db) fw first rs ps → record_wf r →
  (∀ wal sq, wal_file wal = wal_file (db_wal db) → wal_rep wal fw first rs (ps ++ [r]) →
     Q (Ok sq) (set_db_wal wal db, w)) →
  wp (with_wal_pure (wal_append r)) Q C (db, w).
Proof.
  intros Hrep Hr HQ. apply wp_with_wal. destruct (wal_append_rep r _ _ _ _ _ Hrep Hr) as (wal & E & Hf & Hw).
  rewrite E. wp_step. by apply HQ.
Qed.

Lemma set_db_wal_twice v v' db : set_db_wal v' (set_db_wal v db) = set_db_wal v' db.
Proof. done. Qed.

Lemma wp_append_all records db w fw first rs Q C :
  wal_rep (db_wal db) fw first rs [] → Forall record_wf records →
  (∀ wal, wal_file wal = wal_file (db_wal db) → wal_rep wal fw first rs records →
     Q (Ok tt) (set_db_wal wal db, w)) →
  wp (for_each (λ r, let? _ := with_wal_pure (wal_append r) in ret (Ok tt)) records) Q C (db, w).
Proof.
  intros Hrep Hwf HQ.
  apply (wp_for_each _ (λ xs s, ∃ wal before, records = before ++ xs ∧ s = (set_db_wal wal db, w) ∧
    wal_file wal = wal_file (db_wal db) ∧ wal_rep wal fw first rs before)).
  - exists (db_wal db), []. split_and!; try done. by destruct db.
  - intros r xs s (wal & before & E & -> & Hf & Hw). wp_step.
    eapply wp_with_wal_append; [exact Hw| |].
    + rewrite E in Hwf. by apply Forall_app in Hwf as [_ [? _]%Forall_cons].
    + intros wal' sq Hf' Hw'. wp_step. exists wal', (before ++ [r]). rewrite set_db_wal_twice.
      split_and!; try done; [by rewrite <- app_assoc|]. simpl in Hf'. congruence.
  - intros s (wal & before & E & -> & Hf & Hw). rewrite app_nil_r in E. subst before. by apply HQ.
Qed.

(** [log]: after it the records are durable, or some prefix of them is. *)
Lemma wp_log id images db w fw first rs :
  wal_rep (db_wal db) fw first rs [] → Forall record_wf images → u64_range id →
  w_files w !! wal_file (db_wal db) = Some fw → log_fits first (rs ++ images ++ [Commit id]) →
  wp (log id images)
    (λ r s, ∃ wal fw', s.1 = set_db_wal wal db ∧ wal_file wal = wal_file (db_wal db) ∧
       files_to (<[wal_file (db_wal db) := fw']> (w_files w)) w s.2 ∧
       f_entry_synced fw' = f_entry_synced fw ∧
       match r with
       | Ok _ => wal_rep wal fw' first (rs ++ images ++ [Commit id]) []
       | Err _ => ¬ io_ok w ∧ torn_flush fw' first rs (images ++ [Commit id])
       end)
    (λ s, ¬ io_ok w ∧ ∃ fw', files_to (<[wal_file (db_wal db) := fw']> (w_files w)) w s.2 ∧
       f_entry_synced fw' = f_entry_synced fw ∧ torn_flush fw' first rs (images ++ [Commit id]))
    (db, w).
Proof.
  intros Hrep Himg Hid Hw Hfit. unfold log. wp_step. apply (wp_append_all _ _ _ fw first rs); [done..|].
  intros wal1 Hf1 Hrep1. wp_step. eapply wp_with_wal_append; [exact Hrep1|done|].
  intros wal2 sq Hf2 Hrep2. simpl in Hf2. rewrite set_db_wal_twice. apply wp_with_wal.
  simpl db_wal. assert (wal_file wal2 = wal_file (db_wal db)) as E2 by congruence.
  eapply wp_mono; [apply (wp_wal_flush wal2 fw first rs _ w Hrep2); [by rewrite E2|done]| |]; rewrite E2.
  - intros [r wal3] w' (Hf3 & fw' & Hw' & He' & Hr). exists wal3, fw'. cbn [fst snd] in *.
    split; [done|]. split; [done|]. split; [done|]. split; [done|]. destruct r; [done|tauto].
  - intros w' (Hn & fw' & Hw' & He' & Ht). split; [done|]. by exists fw'.
Qed.

(** With no pages in use the pool never runs out of frames. *)
Lemma not_exhausted L D f pl : pool_inv L D (λ _, []) f pl → ¬ exhausted (λ _, []) pl.
Proof.
  intros [_ Hsh] (i & sh & Hi & Hall). destruct (Hsh _ _ Hi) as [[_ _ _ Hlt] _ _ _ _ _ _ _ _].
  apply (not_elem_of_nil (clock_hand (shard_state sh))). by apply Hall.
Qed.

(** Pages still to be installed when the pool holds [L]. *)
Definition remaining A' (d : DiskManager) (rest : list (PageId * Page)) (L : gmap PageId Page) : Prop :=
  pages_wf d L ∧ bt_sorted rest ∧
  ∀ j, j ≠ HEADER → a_pages A' !! j = match bt_get j rest with Some p => Some p | None => L !! j end.

Lemma remaining_nil A' d L : a_wf A' → remaining A' d [] L → L = a_pages A'.
Proof.
  intros HA (HL & _ & Hj). apply map_eq. intros j. destruct (decide (j = HEADER)) as [->|Hne].
  - transitivity (@None Page).
    + destruct (L !! HEADER) eqn:E; [|done]. destruct (HL _ _ E) as [[? _] _]. done.
    + destruct (a_pages A' !! HEADER) eqn:E; [|done]. by apply a_pages_pos in E as [? _].
  - by rewrite Hj.
Qed.

Lemma remaining_header A' d p rest L : remaining A' d ((HEADER, p) :: rest) L → remaining A' d rest L.
Proof.
  intros (HL & Hs & Hj). split; [done|]. split; [by inversion Hs|]. intros j Hne. rewrite Hj by done.
  simpl. by rewrite (proj2 (Z.eqb_neq j HEADER)).
Qed.

Lemma remaining_cons A' d j p rest L :
  a_wf A' → dm_page_count d = a_count A' → j ≠ HEADER →
  remaining A' d ((j, p) :: rest) L →
  (page_wf p ∧ ∃ h, verify j p = Ok h) ∧ remaining A' d rest (<[j := p]> L).
Proof.
  intros HA Hd Hj (HL & Hs & Hget). inversion Hs as [|? ? Hs' Hall]; subst.
  pose proof (Hget j Hj) as Ej. simpl in Ej. rewrite Z.eqb_refl in Ej.
  pose proof (a_pages_ok _ HA _ _ Ej) as Hp. pose proof (a_pages_pos _ _ _ HA Ej).
  split; [done|]. split; [|split; [done|]].
  - intros i q [[<- <-]|[_ Hq]]%lookup_insert_Some; [|by apply HL].
    split; [|done]. unfold data_page. by rewrite Hd.
  - intros i Hi. rewrite Hget by done. simpl. destruct (Z.eqb_spec i j) as [->|Hne].
    + rewrite lookup_insert_eq. destruct (bt_get j rest) as [q|] eqn:Eg; [|done].
      apply bt_get_elem in Eg. rewrite Forall_forall in Hall. specialize (Hall _ Eg). simpl in Hall. lia.
    + by rewrite lookup_insert_ne.
Qed.

(** Installing one image of a durable commit. *)
Lemma wp_install_image A' d id j p rest db w f fw first rs L :
  durable A' f fw first rs → dm_page_count d = a_count A' → w_files w !! dm_file d = Some f →
  in_log rs j → remaining A' d ((j, p) :: rest) L →
  pool_inv L (in_log rs) (λ _, []) f (db_pool db) →
  wp (install_image d (PageImage id j p))
    (λ r s, ∃ f' pl, s.1 = set_db_pool pl db ∧ io_step d (in_log rs) w f s.2 f' ∧
       match r with
       | Ok _ => ∃ L', remaining A' d rest L' ∧ pool_inv L' (in_log rs) (λ _, []) f' pl
       | Err _ => ¬ io_ok w
       end)
    (λ s, ¬ io_ok w ∧ ∃ f', io_step d (in_log rs) w f s.2 f') (db, w).
Proof.
  intros Hdu Hcnt Hf Hj Hrem Hpool. pose proof (du_wf _ _ _ _ _ Hdu) as HA.
  unfold install_image. destruct (Z.eqb_spec j HEADER) as [->|Hne]; simpl negb; cbv iota.
  { wp_step. exists f, (db_pool db). split; [by destruct db|]. split; [by apply io_step_refl|].
    exists L. split; [by eapply remaining_header|done]. }
  destruct (remaining_cons _ _ _ _ _ _ HA Hcnt Hne Hrem) as [[Hp [h Hv]] Hrem'].
  apply wp_with_pool. eapply wp_mono;
    [eapply (wp_pool_install_page d (a_disk_wf A' d HA Hcnt) L (in_log rs) _ f _ w j p h);
      [apply Hrem|done..]| |].
  - intros [[]|e] [pl w1] (f1 & Hst & Hr); cbn [fst snd] in *; exists f1, pl; (split; [done|]);
      (split; [done|]); [by eexists|].
    destruct Hr as [_ [Hn|[_ Hx]]]; [done|]. by destruct (not_exhausted _ _ _ _ Hpool).
  - intros [pl w1] (Hn & f1 & Hst). split; [done|]. by exists f1.
Qed.

(** Installing all of them. *)
Lemma wp_install_all A' d id imgs db w f fw first rs L :
  durable A' f fw first rs → dm_page_count d = a_count A' → db_files db w f fw →
  dm_file d = dm_file (db_disk db) →
  (∀ j p, (j, p) ∈ imgs → in_log rs j) → remaining A' d imgs L →
  pool_inv L (in_log rs) (λ _, []) f (db_pool db) →
  wp (for_each (install_image d) (image_records id imgs))
    (λ r s, ∃ f' pl, s.1 = set_db_pool pl db ∧ io_step d (in_log rs) w f s.2 f' ∧
       match r with
       | Ok _ => pool_inv (a_pages A') (in_log rs) (λ _, []) f' pl
       | Err _ => ¬ io_ok w
       end)
    (λ s, ¬ io_ok w ∧ ∃ f', io_step d (in_log rs) w f s.2 f') (db, w).
Proof.
  intros Hdu Hcnt [Hf _] Ed Hlog Hrem Hpool. pose proof (du_wf _ _ _ _ _ Hdu) as HA.
  apply (wp_for_each _ (λ xs s, ∃ rest L f' pl, xs = image_records id rest ∧
    (∀ j p, (j, p) ∈ rest → in_log rs j) ∧ remaining A' d rest L ∧ s.1 = set_db_pool pl db ∧
    io_step d (in_log rs) w f s.2 f' ∧ pool_inv L (in_log rs) (λ _, []) f' pl)).
  - exists imgs, L, f, (db_pool db). split_and!; try done; [by destruct db|].
    apply io_step_refl. by rewrite Ed.
  - intros r xs [db1 w1] ([|[j p] rest] & L1 & f1 & pl1 & E & Hl & Hr & Edb & Hst & Hinv); [done|].
    simpl in E, Edb. simplify_eq.
    eapply wp_mono; [eapply (wp_install_image A' d id j p rest _ w1 f1 fw first rs L1); try done| |].
    + by eapply du_written; [|apply Hst].
    + by eapply io_step_file.
    + eapply Hl. constructor.
    + intros r [db2 w2] (f2 & pl2 & E2 & Hst2 & Hr2). simpl in E2. subst db2.
      assert (io_step d (in_log rs) w f w2 f2) by by eapply io_step_trans.
      destruct r as [[]|e].
      * destruct Hr2 as (L2 & Hrem2 & Hinv2). exists rest, L2, f2, pl2. split_and!; try done.
        intros. eapply Hl. by constructor.
      * exists f2, pl2. split; [done|]. split; [done|]. destruct Hst as [[_ ?] _]. tauto.
    + intros [db2 w2] (Hn & f2 & Hst2). split; [destruct Hst as [[_ ?] _]; tauto|].
      exists f2. by eapply io_step_trans.
  - intros [db1 w1] (rest & L1 & f1 & pl1 & E & _ & Hr & Edb & Hst & Hinv).
    symmetry in E. apply fmap_nil_inv in E as ->. apply remaining_nil in Hr as ->; [|done].
    by exists f1, pl1.
Qed.

(** At the start all of them remain. *)
Lemma remaining_start A txn d :
  a_wf A → txn_rep A txn → dm_page_count d = txn_page_count txn →
  remaining (txn_state A txn) d (txn_images A txn) (a_pages A).
Proof.
  intros HA Htxn Hd. pose proof (tr_count _ _ Htxn) as Hc.
  split; [|split; [by apply txn_images_sorted|]].
  - intros j p Hj. split; [|by apply (a_pages_ok _ HA)]. pose proof (a_pages_pos _ _ _ HA Hj).
    unfold data_page. lia.
  - intros j Hj. rewrite txn_state_lookup, txn_images_get by done. by destruct (bt_get j (dirty txn)).
Qed.

(** The database once a commit is durable and published. *)
Lemma wp_publish A txn id db w f fw first rs :
  let A' := txn_state A txn in
  a_wf A → txn_rep A txn → durable A' f fw first rs → db_files db w f fw →
  dm_page_count (db_disk db) = a_count A →
  (∀ j p, (j, p) ∈ txn_images A txn → in_log rs j) →
  pool_inv (a_pages A) (in_log rs) (λ _, []) f (db_pool db) →
  wp (publish (txn_page_count txn) (image_records id (txn_images A txn)))
    (λ r s, ∃ f' pl, let d := {| dm_file := dm_file (db_disk db); dm_page_count := txn_page_count txn |} in
       s.1 = set_db_pool pl (set_db_disk d db) ∧ io_step (db_disk db) (in_log rs) w f s.2 f' ∧
       match r with
       | Ok _ => pool_inv (a_pages A') (in_log rs) (λ _, []) f' pl
       | Err _ => ¬ io_ok w
       end)
    (λ s, ¬ io_ok w ∧ ∃ f', io_step (db_disk db) (in_log rs) w f s.2 f') (db, w).
Proof.
  intros A' HA Htxn Hdu Hfs Hcnt Hlog Hpool. unfold publish. wp_step. wp_step. simpl fst.
  pose proof (tr_count _ _ Htxn) as Hc. unfold set_page_count. rewrite Hcnt.
  rewrite (proj2 (Z.ltb_ge _ _)) by lia. wp_step. wp_step. wp_step. wp_step.
  eapply wp_mono; [eapply (wp_install_all A' _ id _ (set_db_disk _ db) w f fw first rs (a_pages A))| |];
    try done.
  by apply remaining_start.
Qed.

(** Room for one more commit: log offsets and transaction ids stay below
    2^64. *)
Definition commit_room (db : Database) (txn : WriteTxn) : Prop :=
  (durable_len (db_wal db) + (Z.of_nat (length (dirty txn)) + 1) * Z.of_nat PAGE_IMAGE_LEN +
   Z.of_nat COMMIT_LEN < 2 ^ 64)%Z ∧ (next_txn db + 1 < 2 ^ 64)%Z.

Lemma length_log_bytes_le rs sq :
  Forall record_wf rs → length (log_bytes rs sq) ≤ length rs * PAGE_IMAGE_LEN.
Proof.
  intros Hrs. revert sq. induction Hrs as [|r rs Hr _ IH]; intros sq; cbn [log_bytes length]; [lia|].
  rewrite length_app, length_record_bytes, Nat.mul_succ_l by done. specialize (IH (u64_add sq 1)).
  assert (record_size r ≤ PAGE_IMAGE_LEN) by (destruct r; simpl; unfold COMMIT_LEN, PAGE_IMAGE_LEN; lia).
  lia.
Qed.

Lemma txn_images_length A txn : length (txn_images A txn) ≤ length (dirty txn) + 1.
Proof. unfold txn_images, bt_map. rewrite length_app, length_fmap. destruct (_ <? _)%Z; simpl; lia. Qed.

Lemma txn_records_wf A txn id :
  a_wf A → txn_rep A txn → u64_range id → Forall record_wf (image_records id (txn_images A txn)).
Proof.
  intros HA [_ Hc Hd _] Hid. apply Forall_forall. intros r (j & p & -> & Hin)%image_records_elem.
  split; [done|]. pose proof (a_count_range _ HA). apply elem_of_app in Hin as [Hin|Hin].
  - destruct (_ <? _)%Z; [|by apply not_elem_of_nil in Hin].
    apply list_elem_of_singleton in Hin. simplify_eq. split; [by split|apply encode_wf].
  - apply list_elem_of_fmap in Hin as ([j' q] & [= -> ->] & Hin). simpl.
    destruct (Hd _ _ Hin) as [? Hq]. split; [unfold u64_range; lia|by apply seal_wf].
Qed.

Lemma commit_room_fits A db txn fw first rs id :
  a_wf A → txn_rep A txn → u64_range id → wal_rep (db_wal db) fw first rs [] →
  commit_room db txn → log_fits first (rs ++ txn_records A txn id).
Proof.
  intros HA Htxn Hid [_ _ Hfile Hdl _ _ _] [Hroom _].
  apply length_log_file in Hfile. unfold log_fits. rewrite log_bytes_app, length_app.
  pose proof (txn_records_wf A txn id HA Htxn Hid) as Hwf. pose proof (txn_images_length A txn).
  unfold txn_records. rewrite log_bytes_app, length_app.
  pose proof (length_log_bytes_le _ (seq_at first (length rs)) Hwf) as Hle.
  unfold image_records in Hle at 2. rewrite length_fmap in Hle.
  cbn [log_bytes]. rewrite app_nil_r, length_record_bytes by done. simpl record_size. nia.
Qed.

(** What [commit] guarantees when it returns and when it is interrupted. *)
Definition commit_post A txn db w (r : Result unit) (s : Database * World) : Prop :=
  let A' := txn_state A txn in
  same_paths db s.1 ∧
  match r with
  | Ok _ => txn_valid txn ∧ (db_inv A' s.1 s.2 ∨ ¬ io_ok w ∧ halted (λ X, X = A') db s)
  | Err e => (is_invalid_argument e = true ∧ ¬ txn_valid txn ∧ s = (db, w)) ∨
             (¬ io_ok w ∧ db_poisoned s.1 = true ∧
              recovers_checked (λ X, X = A ∨ X = A') (dm_file (db_disk db)) (wal_file (db_wal db)) s.2)
  end.

Definition commit_crash A txn db w (s : Database * World) : Prop :=
  ¬ io_ok w ∧
  recovers_checked (λ X, X = A ∨ X = txn_state A txn) (dm_file (db_disk db)) (wal_file (db_wal db)) s.2.

(** From the point where the log is durable. *)
Lemma wp_commit_tail A txn id db w f fw first rs :
  let A' := txn_state A txn in
  let ps := txn_records A txn id in
  a_wf A → txn_rep A txn → txn_valid txn → durable A' f fw first (rs ++ ps) →
  db_files db w f fw → db_poisoned db = false → dm_page_count (db_disk db) = a_count A →
  dm_file (db_disk db) ≠ wal_file (db_wal db) →
  wal_rep (db_wal db) fw first (rs ++ ps) [] → u64_range (next_txn db) →
  (∀ r, r ∈ rs ++ ps → (record_txn r < next_txn db)%Z) →
  (∀ j p, (j, p) ∈ txn_images A txn → in_log (rs ++ ps) j) →
  pool_inv (a_pages A) (in_log (rs ++ ps)) (λ _, []) f (db_pool db) →
  wp (let! published := publish (txn_page_count txn) (image_records id (txn_images A txn)) in
      match published with
      | Err err => let! _ := poison in ret (Err err)
      | Ok _ => let! _ := maybe_auto_checkpoint in ret (Ok tt)
      end) (commit_post A txn db w) (commit_crash A txn db w) (db, w).
Proof.
  intros A' ps HA Htxn Hv Hdu Hfs Hpo Hcnt Hne Hrep Hnt Hfr Hlog Hpool.
  assert (∀ w' f', io_step (db_disk db) (in_log (rs ++ ps)) w f w' f' →
    durable A' f' fw first (rs ++ ps) ∧ db_files db w' f' fw) as Hstep.
  { intros w' f' [Hw' Hpw]. split; [by eapply du_written|by eapply files_data]. }
  assert (∀ w' f', io_step (db_disk db) (in_log (rs ++ ps)) w f w' f' →
    recovers_checked (λ X, X = A ∨ X = A') (dm_file (db_disk db)) (wal_file (db_wal db)) w') as Hrec.
  { intros w' f' [Hdu' [? ?]]%Hstep. apply (recovers_weaken (λ X, X = A')); [by right|].
    by eapply durable_recovers. }
  wp_step. eapply wp_mono; [by apply (wp_publish A txn id db w f fw first (rs ++ ps))| |].
  2:{ intros [db1 w1] (Hn & f1 & Hst). split; [done|]. by eapply Hrec. }
  intros [[]|e] [db1 w1] (f1 & pl & Edb & Hst & Hr); simpl in Edb; subst db1.
  2:{ wp_step. unfold poison. wp_step. wp_step. split; [done|]. right. split; [done|].
      split; [done|]. by eapply Hrec. }
  destruct (Hstep _ _ Hst) as [Hdu1 Hfs1]. wp_step.
  set (db1 := set_db_pool _ _).
  eapply wp_mono; [apply (wp_maybe_auto_checkpoint A' db1 w1)| |].
  - split; [done|]. exists f1, fw, first, (rs ++ ps). split; [done|]. by split.
  - intros r [db2 w2] [Hp Hr2]. wp_step. split; [done|]. split; [done|].
    destruct Hst as [[_ Hio] _]. destruct Hr2 as [|[Hn Hh]]; [by left|right]. split; [auto|done].
  - intros [db2 w2] [Hn Hc]. destruct Hst as [[_ Hio] _]. split; [auto|].
    eapply recovers_weaken; [|exact Hc]. by right.
Qed.

(** The records of the transaction are younger than any in the log. *)
Lemma txn_records_fresh A txn id n rs :
  (∀ r, r ∈ rs → (record_txn r < id)%Z) → (id < n)%Z →
  ∀ r, r ∈ rs ++ txn_records A txn id → (record_txn r < n)%Z.
Proof.
  intros Hfr Hn r. unfold txn_records. rewrite !elem_of_app, list_elem_of_singleton.
  intros [Hr|[(j & p & -> & _)%image_records_elem| ->]]; [|done..]. specialize (Hfr r Hr). lia.
Qed.

Lemma images_in_log A txn id rs :
  txn_rep A txn → (∀ r, r ∈ rs → (record_txn r < id)%Z) →
  ∀ j p, (j, p) ∈ txn_images A txn → in_log (rs ++ txn_records A txn id) j.
Proof.
  intros Htxn Hfr j p Hin. unfold in_log. rewrite <- latest_map_get, logged_get by done.
  by rewrite (bt_elem_get j p) by (done || by apply txn_images_sorted).
Qed.

Lemma in_log_grow A txn id rs :
  txn_rep A txn → (∀ r, r ∈ rs → (record_txn r < id)%Z) →
  ∀ j, in_log rs j → in_log (rs ++ txn_records A txn id) j.
Proof.
  intros Htxn Hfr j. unfold in_log. rewrite <- !latest_map_get. by apply logged_grow.
Qed.

(** The guarantees in terms of an earlier handle on the same files. *)
Lemma commit_post_weaken A txn db db1 w w1 r s :
  same_paths db db1 → (io_ok w → io_ok w1) → txn_valid txn →
  commit_post A txn db1 w1 r s → commit_post A txn db w r s.
Proof.
  intros [E1 E2] Hio Hv [[E1' E2'] Hr]. split; [split; congruence|].
  unfold halted in *. rewrite E1, E2 in Hr. destruct r; naive_solver.
Qed.

Lemma commit_crash_weaken A txn db db1 w w1 s :
  same_paths db db1 → (io_ok w → io_ok w1) →
  commit_crash A txn db1 w1 s → commit_crash A txn db w s.
Proof. intros [E1 E2] Hio [Hn Hr]. rewrite E1, E2 in Hr. split; auto. Qed.

Lemma wp_commit A txn db w :
  db_inv A db w → txn_rep A txn → commit_room db txn →
  wp (commit txn) (commit_post A txn db w) (commit_crash A txn db w) (db, w).
Proof.
  intros Hinv Htxn Hroom. pose proof Hinv as (Hpo & f & fw & first & rs & Hfs & Hdb).
  pose proof (dp_durable _ _ _ _ _ _ Hdb) as Hdu. pose proof (du_wf _ _ _ _ _ Hdu) as HA.
  pose proof (dp_txn _ _ _ _ _ _ Hdb) as Hid. pose proof (dp_ne _ _ _ _ _ _ Hdb) as Hne.
  pose proof (dp_fresh _ _ _ _ _ _ Hdb) as Hfr.
  assert (next_txn db + 1 < 2 ^ 64)%Z as Hlt by apply Hroom.
  unfold commit. destruct (decide (dirty txn = [])) as [E|_].
  { wp_step. split; [done|]. rewrite txn_state_empty by done. split; [|by left].
    intros j p. rewrite E. by intros ?%not_elem_of_nil. }
  wp_step. wp_step. pose proof (seal_dirty_spec (dirty txn)) as Hseal.
  destruct (seal_dirty (dirty txn)) as [pages|e].
  2:{ destruct Hseal as (He & j & p & Hin & Hv). split; [done|]. left. split; [done|].
      split; [|done]. intros Hval. specialize (Hval _ _ Hin). congruence. }
  destruct Hseal as [-> Hval]. unfold next_txn_id, db_page_count.
  wp_step. wp_step. wp_step. wp_step. wp_step. wp_step. wp_step. wp_step. cbn [fst snd set_next_txn db_disk].
  rewrite (dp_count _ _ _ _ _ _ Hdb), commit_images_records. set (id := next_txn db) in *.
  assert (u64_add id 1 = id + 1)%Z as En
    by (unfold u64_add; apply wrap_u64_id; unfold u64_range in *; lia).
  pose proof (commit_room_fits A db txn fw first rs id HA Htxn Hid (dp_wal _ _ _ _ _ _ Hdb) Hroom) as Hfit.
  pose proof (durable_logged A txn f fw first rs id Hdu Htxn Hval Hid Hfr Hfit) as Hlogged.
  pose proof (torn_commit_recovers A txn f fw first rs id Hdu Htxn Hval Hid Hfr Hfit) as Htorn.
  wp_step. eapply wp_mono; [apply (wp_log id _ (set_next_txn (u64_add id 1) db) w fw first rs);
    [apply Hdb|by apply txn_records_wf|done|apply Hfs|done]| |].
  2:{ intros [db1 w1] (Hn & fw1 & Hw1 & He1 & Ht). split; [done|].
      destruct (files_wal _ _ _ _ _ _ Hfs Hne Hw1) as [Hfa Hfb].
      eapply Htorn; [|exact Ht|done..]. rewrite He1. apply Hdu. }
  intros [[]|e] [db1 w1] (wal1 & fw1 & Edb & Hf1 & Hw1 & He1 & Hr); simpl in Edb, Hf1; subst db1.
  2:{ wp_step. unfold poison. wp_step. wp_step. split; [done|]. right. destruct Hr as [Hn Ht].
      destruct (files_wal _ _ _ _ _ _ Hfs Hne Hw1) as [Hfa Hfb].
      split; [done|]. split; [done|]. eapply Htorn; [|exact Ht|done..]. rewrite He1. apply Hdu. }
  destruct (files_wal _ _ _ _ _ _ Hfs Hne Hw1) as [Hfa Hfb]. set (db1 := set_db_wal _ _).
  assert (same_paths db db1 ∧ (io_ok w → io_ok w1)) as [Hsame Hio] by (split; [done|apply Hw1]).
  eapply wp_mono; [apply (wp_commit_tail A txn id db1 w1 f fw1 first rs)| |]; try done.
  - apply Hlogged; [rewrite He1; apply Hdu|by eapply rep_log].
  - split; [done|]. simpl. by rewrite Hf1.
  - apply Hdb.
  - simpl. by rewrite Hf1.
  - simpl. rewrite En. unfold u64_range in *. lia.
  - simpl. rewrite En. by apply txn_records_fresh; [|lia].
  - by apply images_in_log.
  - eapply pool_inv_mono; [|apply Hdb]. by apply in_log_grow.
  - intros r s Hpost. by eapply commit_post_weaken.
  - intros s Hc. by eapply commit_crash_weaken.
Qed.

End Protocol.
