(* ===== verification/Reopen.v ===== *)
(** * Opening a database

    Whatever a crash left behind is opened as the state it holds; a crash
    while opening loses nothing, so opening can be tried again. *)

From S2P Require Import Prelude Errors BTree Checksum Page FileHeader FileSys Disk WalRecord.
From S2P Require Import WalLog Recovery BufferPool PoolCache Database DbState Checkpoint.
From S2P Require Import Commit.

Section Reopen.
Context `{Cpu}.
Implicit Types A : AState.

(** What opening promises when it returns and when it is interrupted. *)
Definition open_post A p wl options w (r : Result Database) (w' : World) : Prop :=
  match r with
  | Ok db => db_inv A db w' ∧ dm_file (db_disk db) = p ∧ wal_file (db_wal db) = wl
  | Err _ => ¬ io_ok w ∨ buffer_pool_pages options = 0
  end ∧ recovers (λ A', A' = A) p wl w'.

Definition open_crash A p wl w (w' : World) : Prop :=
  ¬ io_ok w ∧ recovers (λ A', A' = A) p wl w'.

(** A handle on the files [p] and [wl], all of whose pages are on disk. *)
Lemma assembled A p wl options report f fw first d wal w0 w :
  d = {| dm_file := p; dm_page_count := a_count A |} → p ≠ wl → wal_file wal = wl →
  a_wf A → data_safe f [] → f_entry_synced f = true → f_entry_synced fw = true →
  file_state (f_cur f) A → wal_rep wal fw first [] [] →
  w_files w !! p = Some f → w_files w !! wl = Some fw →
  open_post A p wl options w0 (assemble d wal options report) w.
Proof.
  intros -> Hne Hwl HA Hc He Hew Hst Hrep Hf Hfw.
  assert (durable A f fw first []) as Hdu.
  { apply durable_alone; try done; [apply Hrep|by eapply rep_log]. }
  split; [|by eapply durable_recovers]. unfold assemble.
  destruct (decide (buffer_pool_pages options = 0)) as [E|Hcap].
  { rewrite E. by right. }
  rewrite pool_new_eq by lia. simpl. split; [|done]. split; [done|].
  exists f, fw, first, []. split; [by split; simpl; rewrite ?Hwl|]. split; simpl; try done.
  - by rewrite Hwl.
  - intros r []%not_elem_of_nil.
  - apply pool_new_inv; [lia|]. intros id p' Hp. apply (a_pages_stored A); [done..|]. by apply Hst.
Qed.

(** The last part of [open_existing]: the data file holds the state. *)
Lemma wp_open_tail A p wl options f fw first rs o stats w0 w :
  p ≠ wl → durable A f fw first rs → data_safe f [] → file_state (f_cur f) A →
  opened_wal o = reopened wl first rs → (io_ok w0 → io_ok w) →
  w_files w !! p = Some f → w_files w !! wl = Some fw →
  wp (let? disk := disk_open p in
      let! '(r, wal) := wal_reset (opened_wal o) in
      match r with
      | Err e => ret (Err e)
      | Ok _ =>
          let report := {| created := false; recovery_stats := stats;
                           discarded_wal_tail := opened_discarded o |} in
          lift (assemble disk wal options report)
      end) (open_post A p wl options w0) (open_crash A p wl w0) w.
Proof.
  intros Hne Hdu Hc Hst -> Hio Hf Hfw. pose proof (du_wf _ _ _ _ _ Hdu) as HA.
  pose proof (file_state_openable _ _ HA Hst) as Hop.
  wp_step. eapply wp_mono; [by apply wp_disk_open| |].
  2:{ intros w' [Hn [E _]]. split; [auto|]. by eapply durable_recovers; rewrite ?E. }
  intros [d|e] w1 [[E1 I1] Hr].
  2:{ split; [|by eapply durable_recovers; rewrite ?E1]. left. naive_solver. }
  destruct Hr as (h & Hh & ->). rewrite (openable_fun _ _ _ Hh Hop). simpl page_count.
  wp_step. eapply wp_mono; [apply (wp_wal_reset (reopened wl first rs) fw first rs)| |]; simpl wal_file.
  - apply reopened_rep; [apply Hdu|apply replay_wf, Hdu|apply Hdu].
  - by rewrite E1.
  - apply Hdu.
  - intros [r wal] w2 (Hwl & fw' & [E2 I2] & He' & Hr). cbn [fst snd] in *. rewrite E1 in E2.
    assert (w_files w2 !! p = Some f) as Hf2 by (rewrite E2; by rewrite lookup_insert_ne).
    assert (w_files w2 !! wl = Some fw') as Hfw2 by (rewrite E2; apply lookup_insert_eq).
    assert (f_entry_synced fw' = true) as Hew by (rewrite He'; apply Hdu).
    destruct r as [[]|e]; wp_step.
    + eapply assembled; try done. apply Hdu.
    + destruct Hr as (Hn & _ & Ht). split; [left; tauto|].
      eapply reset_recovers; try done. apply Hdu.
  - intros w2 (Hn & fw' & [E2 I2] & He' & Ht). rewrite E1 in E2. split; [tauto|].
    eapply (reset_recovers A f fw first rs p wl w2 f fw'); try done; try apply Hdu.
    + rewrite He'. apply Hdu.
    + by rewrite E2, lookup_insert_ne.
    + rewrite E2. apply lookup_insert_eq.
Qed.

(** A log file with nothing to sync is one found after a reboot. *)
Lemma log_file_at_rest fw first rs :
  log_file fw first rs → f_entry_synced fw = true → fw = file_at_rest (f_cur fw).
Proof.
  intros (_ & Hs & Hp) He. destruct fw as [cur synced pend entry]. simpl in *.
  subst. unfold file_at_rest. by f_equal.
Qed.

Lemma reopenable_durable A f fw first rs :
  durable A f fw first rs → reopenable A f (f_cur fw) first rs.
Proof.
  intros Hd. split; try apply Hd. destruct (du_log _ _ _ _ _ Hd) as (-> & _).
  apply reads_as_clean; [apply Hd|apply replay_wf, Hd].
Qed.

(** The data file once the log has been replayed. *)
Lemma replayed_durable A f bw fw1 first rs f2 :
  reopenable A f bw first rs → log_file fw1 first rs → f_entry_synced fw1 = true →
  f_entry_synced f2 = f_entry_synced f →
  f_cur f2 = images_bytes (latest_map rs) (f_cur f) →
  file_clean f2 ∨ latest_map rs = [] ∧ f2 = f →
  durable A f2 fw1 first rs ∧ data_safe f2 [] ∧ file_state (f_cur f2) A.
Proof.
  intros [HA He Hreads Hrep Hfit Hsafe Hst] Hlog He1 He2 Hcur Hcase.
  pose proof (latest_map_wf _ (replay_wf _ Hrep)) as Hm. pose proof (latest_map_sorted rs) as Hs.
  assert (images_bytes (latest_map rs) (f_cur f) = images_bytes (latest_map rs) (f_synced f)) as Ei
    by by apply images_bytes_agree, data_safe_cur.
  assert (data_safe f2 []) as Hset.
  { destruct Hcase as [Hc|[E ->]]; [by apply clean_settled|by rewrite E in Hsafe]. }
  pose proof (settled_synced _ Hset) as Hsy. rewrite Ei in Hcur.
  assert (file_state (f_cur f2) A) as Hst2 by by rewrite Hcur.
  split; [|done]. split; try done; [congruence|apply Hreads|rewrite Hsy; apply Hst2| |].
  - by apply data_safe_settled.
  - by rewrite Hsy, Hcur, images_bytes_idem.
Qed.

Lemma wp_open_existing A p wl options f bw first rs w :
  p ≠ wl → reopenable A f bw first rs →
  w_files w !! p = Some f → w_files w !! wl = Some (file_at_rest bw) →
  wp (open_existing p wl options) (open_post A p wl options w) (open_crash A p wl w) w.
Proof.
  intros Hne Hro Hf Hfw. pose proof Hro as [HA He Hreads Hrep Hfit Hsafe Hst].
  unfold open_existing, path_exists. wp_step. wp_step. rewrite Hfw. simpl negb. cbv iota.
  wp_step. eapply wp_mono; [by eapply wp_wal_open| |].
  2:{ intros w' (Hn & fw' & [E _] & He' & Hwf & Hr). split; [done|].
      eapply (recovers_reads A p wl f fw'); try done; rewrite E;
        [by rewrite lookup_insert_ne|apply lookup_insert_eq]. }
  intros [o|e] w1 (fw1 & [E1 I1] & He1 & Hr).
  2:{ destruct Hr as (Hn & Hwf & Hr). split; [by left|].
      eapply (recovers_reads A p wl f fw1); try done; rewrite E1;
        [by rewrite lookup_insert_ne|apply lookup_insert_eq]. }
  destruct Hr as (Eo & Erec & Hlog & _).
  assert (w_files w1 !! p = Some f) as Hf1 by (rewrite E1; by rewrite lookup_insert_ne).
  assert (record <$> opened_records o = rs) as Ers by by rewrite Erec, log_records_record.
  pose proof (wp_replay p (opened_records o) f w1) as Hreplay. cbv zeta in Hreplay. rewrite Ers in Hreplay.
  assert (∀ bw, crash_content fw1 bw → reads_as bw first rs) as Hc1.
  { intros bw1 ->%crash_content_clean; [|apply Hlog]. destruct Hlog as (Hcur & -> & _). rewrite Hcur.
    apply reads_as_clean; apply Hreads. }
  assert (∀ f' w', files_to (<[p := f']> (w_files w1)) w1 w' → f_entry_synced f' = f_entry_synced f →
    data_safe f' (latest_map rs) → f_synced f' = f_synced f → recovers (λ A', A' = A) p wl w') as Hrec.
  { intros f' w' [E _] He' Hs' Hsy. eapply (recovers_reads A p wl f' fw1); try done.
    - congruence.
    - by rewrite Hsy.
    - by eapply log_file_wf.
    - by rewrite E, lookup_insert_eq.
    - by rewrite E, lookup_insert_ne, E1, lookup_insert_eq. }
  wp_step. eapply wp_mono; [by apply Hreplay| |].
  2:{ intros w' (Hn & f' & Hw' & He' & Hs' & Hsy). split; [auto|]. by eapply Hrec. }
  intros [stats|e] w2 (f2 & Hw2 & He2 & Hr2).
  2:{ destruct Hr2 as (Hn & Hs' & Hsy). split; [left; auto|]. by eapply Hrec. }
  destruct Hr2 as [Hcur Hcase], Hw2 as [E2 I2].
  destruct (replayed_durable A f bw fw1 first rs f2) as (Hdu & Hset & Hst2); try done.
  apply (wp_open_tail A p wl options f2 fw1 first rs o stats w w2); try done.
  - auto.
  - by rewrite E2, lookup_insert_eq.
  - by rewrite E2, lookup_insert_ne, E1, lookup_insert_eq.
Qed.

(** The log path differs from the data path. *)
Lemma wal_path_ne p wl : wal_path_for p = Ok wl → p ≠ wl.
Proof.
  unfold wal_path_for, with_file_name. destruct (file_name p) as [name|] eqn:En; [|done].
  intros [= <-] E. assert (last p = Some (Normal (name +:+ "-wal"))) as El
    by (rewrite E; apply last_snoc).
  unfold file_name in En. rewrite El in En. injection En as En.
  clear -En. induction name as [|c name IH]; simpl in En; [done|]. injection En as En. auto.
Qed.

Lemma wp_db_open A p wl options f bw first rs w :
  wal_path_for p = Ok wl → reopenable A f bw first rs →
  w_files w !! p = Some f → w_files w !! wl = Some (file_at_rest bw) →
  wp (db_open p options) (open_post A p wl options w) (open_crash A p wl w) w.
Proof.
  intros Hwl Hro Hf Hfw. pose proof (wal_path_ne _ _ Hwl).
  unfold db_open, path_exists. wp_step. rewrite Hwl. wp_step. wp_step. wp_step. rewrite Hf.
  by eapply wp_open_existing.
Qed.

(** ** Creation *)

Definition empty_state : AState := {| a_count := 1; a_pages := ∅ |}.

Lemma empty_state_wf : a_wf empty_state.
Proof.
  split; simpl; [lia| |].
  - intros id. rewrite lookup_empty. split; [by intros []|lia].
  - intros id p. by rewrite lookup_empty.
Qed.

Lemma file_name_parent p name : file_name p = Some name → is_Some (parent p).
Proof. unfold file_name, parent. destruct (last p) as [[]|]; naive_solver. Qed.

Lemma wal_path_parent p wl : wal_path_for p = Ok wl → is_Some (parent p) ∧ is_Some (parent wl).
Proof.
  unfold wal_path_for. destruct (file_name p) as [name|] eqn:En; [|done]. intros [= <-].
  split; [by eapply file_name_parent|]. eapply file_name_parent.
  unfold with_file_name, file_name at 1. rewrite En, last_snoc. done.
Qed.

(** A synced directory entry stays so. *)
Lemma link_dir_settled dir fs p f :
  fs !! p = Some f → ∃ f', link_dir dir fs !! p = Some f' ∧ f_cur f' = f_cur f ∧
    (file_clean f → file_clean f') ∧ (f_entry_synced f = true → f_entry_synced f' = true).
Proof.
  intros Hf. rewrite link_dir_lookup, Hf. simpl. eexists. split; [done|].
  by destruct (in_dir dir p).
Qed.

Lemma wp_db_create p wl options w :
  wal_path_for p = Ok wl → w_files w !! p = None → w_files w !! wl = None → io_ok w →
  wp (db_create p wl options) (open_post empty_state p wl options w) (λ _, False) w.
Proof.
  intros Hwl Hp Hw Hio. pose proof (wal_path_ne _ _ Hwl) as Hne.
  destruct (wal_path_parent _ _ Hwl) as [Hpp Hpw].
  unfold db_create. wp_step. eapply wp_mono; [by apply wp_disk_create| |done].
  intros r w1 (-> & E1 & Hio1).
  assert (w_files w1 !! wl = None) as Hw1
    by by rewrite E1, link_dir_lookup, lookup_insert_ne, Hw by done.
  destruct (link_dir_settled (parent_dir p) (<[p := fresh_data_file]> (w_files w)) p fresh_data_file)
    as (f1 & Hf1 & Hcur1 & Hc1 & He1); [apply lookup_insert_eq|]. rewrite <- E1 in Hf1.
  wp_step. eapply wp_mono; [by apply wp_wal_create| |done].
  intros r w2 (wal & -> & Hwal & Hrep & E2 & Hio2).
  destruct (link_dir_settled (parent_dir wl) (<[wl := fresh_log_file]> (w_files w1)) p f1)
    as (f2 & Hf2 & Hcur2 & Hc2 & He2); [by rewrite lookup_insert_ne|].
  assert (w_files w2 !! wl = Some fresh_log_file) as Hfw2.
  { rewrite E2, link_dir_lookup, lookup_insert_eq. simpl. by destruct (in_dir _ _). }
  rewrite <- E2 in Hf2. wp_step.
  apply (assembled empty_state p wl options _ f2 fresh_log_file 0); try done.
  - apply empty_state_wf.
  - by apply clean_settled, Hc2, Hc1.
  - by apply He2, He1.
  - rewrite Hcur2, Hcur1. split; [|intros id q; simpl; by rewrite lookup_empty].
    split; [apply (has_page_write_same _ HEADER)|apply (page_of_write_same _ HEADER)]; apply encode_wf.
Qed.

(** Opening a path with no files creates an empty database. *)
Lemma wp_db_open_new p wl options w :
  wal_path_for p = Ok wl → w_files w !! p = None → w_files w !! wl = None → io_ok w →
  create_if_missing options = true →
  wp (db_open p options) (open_post empty_state p wl options w) (λ _, False) w.
Proof.
  intros Hwl Hp Hw Hio Hc. unfold db_open, path_exists. wp_step. rewrite Hwl. wp_step.
  wp_step. wp_step. rewrite Hp, Hc, bool_decide_eq_false_2 by by intros [].
  simpl negb. cbv iota. wp_step. wp_step.
  rewrite Hw, bool_decide_eq_false_2 by by intros []. by apply wp_db_create.
Qed.

End Reopen.
