(* ===== verification/Restart.v ===== *)
(** * Restarting a killed process

    When a process dies and the machine does not, the next one finds the files
    as the last call left them: nothing is lost, but what was not synced still
    is not.  Opening reads only the current contents, so it runs exactly as it
    would after a reboot that kept everything; and once it has succeeded the
    files are as durable as after such a reboot. *)

From S2P Require Import Prelude Errors BTree Checksum Page FileHeader FileSys Disk WalRecord.
From S2P Require Import WalLog Recovery BufferPool PoolCache Database DbState Checkpoint.
From S2P Require Import Commit Reopen.

(** ** Computations that cannot tell two states apart *)

Section Respects.
Context {S : Type} (R : relation S).

Definition respects {A} (m : M S A) : Prop :=
  ∀ s s', R s s' → (m s).1 = (m s').1 ∧ R (m s).2 (m s').2.

Lemma respects_ret {A} (a : A) : respects (ret a).
Proof. by intros s s'. Qed.

Lemma respects_panic {A} : respects (panic (A := A)).
Proof. by intros s s'. Qed.

Lemma respects_crash {A} : respects (crash (A := A)).
Proof. by intros s s'. Qed.

Lemma respects_gets {A} (f : S → A) : (∀ s s', R s s' → f s = f s') → respects (gets f).
Proof. intros Hf s s' Hs. simpl. by rewrite (Hf s s'). Qed.

Lemma respects_modify (f : S → S) : (∀ s s', R s s' → R (f s) (f s')) → respects (modify f).
Proof. intros Hf s s' Hs. simpl. auto. Qed.

Lemma respects_bind {A B} (m : M S A) (k : A → M S B) :
  respects m → (∀ a, respects (k a)) → respects (bind m k).
Proof.
  intros Hm Hk s s' Hs. destruct (Hm s s' Hs) as [E Hs']. unfold bind.
  destruct (m s) as [r t], (m s') as [r' t']. simpl in *. subst r'.
  destruct r; [by apply Hk|done..].
Qed.

Lemma respects_bind_ok {E A B} (m : M S (result E A)) (k : A → M S (result E B)) :
  respects m → (∀ a, respects (k a)) → respects (bind_ok m k).
Proof. intros Hm Hk. apply respects_bind; [done|]. intros [a|e]; [done|apply respects_ret]. Qed.

(** Looking at the state through something the relation preserves. *)
Lemma respects_look {A B} (f : S → A) (k : S → M S B) :
  (∀ s s', R s s' → f s = f s') → (∀ s s', f s = f s' → k s = k s') →
  (∀ s, respects (k s)) → respects (let! s := get in k s).
Proof.
  intros Hf Hk Hr s s' Hs. unfold bind, get. rewrite (Hk s s') by auto. by apply Hr.
Qed.

End Respects.

Create HintDb respects.
#[export] Hint Resolve respects_ret respects_panic respects_crash : respects.

Ltac respects_step :=
  lazymatch goal with
  | |- respects _ (bind_ok _ _) => apply respects_bind_ok; [|intros ?]
  | |- respects _ (bind _ _) => apply respects_bind; [|intros ?]
  | |- respects _ (match ?x with _ => _ end) => destruct x
  | |- respects _ (lift _) => apply respects_ret
  | |- respects _ _ => solve [auto with respects]
  end.

(** ** Worlds that differ in what is synced of one file *)

Section LogWorlds.
Variable wl : path.

Definition log_like (f f' : file) : Prop :=
  f_cur f = f_cur f' ∧ f_entry_synced f = f_entry_synced f'.

Definition same_file (q : path) (f f' : file) : Prop := if decide (q = wl) then log_like f f' else f = f'.

Record same_world (w w' : World) : Prop := {
  sw_files q : option_Forall2 (same_file q) (w_files w !! q) (w_files w' !! q);
  sw_plan : w_plan w = w_plan w';
}.

Lemma same_file_cur q f f' : same_file q f f' → f_cur f = f_cur f'.
Proof. unfold same_file, log_like. case_decide; naive_solver. Qed.

Lemma same_file_refl q f : same_file q f f.
Proof. unfold same_file. by case_decide. Qed.

(** What a call sees of a file. *)
Definition seen (p : path) (w : World) : option bytes := f_cur <$> w_files w !! p.

Lemma same_world_seen p w w' : same_world w w' → seen p w = seen p w'.
Proof.
  intros Hw. unfold seen. destruct (sw_files _ _ Hw p) as [f f' Hf|]; simpl; [|done].
  by rewrite (same_file_cur _ _ _ Hf).
Qed.

Lemma same_world_set p w w' (g g' : option file → option file) :
  same_world w w' →
  (∀ q o o', option_Forall2 (same_file q) o o' → option_Forall2 (same_file q) (g o) (g' o')) →
  same_world (set_files (partial_alter g p (w_files w)) w) (set_files (partial_alter g' p (w_files w')) w').
Proof.
  intros Hw Hg. split; [|apply Hw]. intros q. simpl. destruct (decide (p = q)) as [<-|].
  - rewrite !lookup_partial_alter_eq. apply Hg, Hw.
  - rewrite !lookup_partial_alter_ne by done. apply Hw.
Qed.

Abbreviation respects := (respects same_world).

Lemma respects_next_fate : respects next_fate.
Proof.
  intros w w' Hw. unfold next_fate. rewrite <- (sw_plan _ _ Hw).
  destruct (w_plan w) as [|fate plan]; [done|]. split; [done|]. split; [apply Hw|done].
Qed.
#[local] Hint Resolve respects_next_fate : respects.

Lemma respects_alter (g : file → file) p :
  (∀ q f f', same_file q f f' → same_file q (g f) (g f')) → respects (alter_file g p).
Proof.
  intros Hg. apply respects_modify. intros w w' Hw. apply same_world_set; [done|].
  intros q o o' [f f' Hf|]; constructor. by apply Hg.
Qed.

Lemma respects_apply op p : respects (alter_file (file_apply op) p).
Proof.
  apply respects_alter. intros q f f'. unfold same_file, log_like. case_decide; [|by intros ->].
  simpl. by intros [-> ->].
Qed.

Lemma respects_file_sync p : respects (alter_file file_sync p).
Proof.
  apply respects_alter. intros q f f'. unfold same_file, log_like. case_decide; [|by intros ->].
  simpl. by intros [-> ->].
Qed.
#[local] Hint Resolve respects_apply respects_file_sync : respects.

Lemma respects_io_call {A} (m : M World (Result A)) : respects m → respects (io_call m).
Proof. intros Hm. unfold io_call. repeat respects_step. Qed.

Lemma respects_query {A} p (g : option bytes → Result A) (h : World → Result A) :
  (∀ w, h w = g (seen p w)) → respects (io_call (let! w := get in ret (h w))).
Proof.
  intros Hh. apply respects_io_call, (respects_look _ (seen p)); auto with respects.
  - apply same_world_seen.
  - intros w w' E. by rewrite !Hh, E.
Qed.

Lemma respects_path_exists p : respects (path_exists p).
Proof.
  apply respects_gets. intros w w' Hw. apply bool_decide_ext.
  destruct (sw_files _ _ Hw p); split; intros []; eauto; done.
Qed.

Lemma respects_open_file p : respects (open_file p).
Proof.
  eapply (respects_query p (λ o, match o with Some _ => Ok p | None => Err (Io NotFound) end)).
  intros w. unfold seen. by destruct (w_files w !! p).
Qed.

Lemma respects_read_exact_at p n off : respects (read_exact_at p n off).
Proof.
  eapply (respects_query p (λ o, match o with
    | None => _
    | Some b => if decide (Z.to_nat off + n ≤ length b) then Ok (slice (Z.to_nat off) (Z.to_nat off + n) b)
                else Err (from_io_error UnexpectedEof) end)).
  intros w. unfold seen. by destruct (w_files w !! p).
Qed.

Lemma respects_read_to_end p : respects (read_to_end p).
Proof.
  eapply (respects_query p (λ o, match o with None => _ | Some b => Ok b end)).
  intros w. unfold seen. by destruct (w_files w !! p).
Qed.

Lemma respects_metadata_len p : respects (metadata_len p).
Proof.
  eapply (respects_query p (λ o, match o with None => _ | Some b => Ok (Z.of_nat (length b)) end)).
  intros w. unfold seen. by destruct (w_files w !! p).
Qed.

Lemma respects_create_new_file p : respects (create_new_file p).
Proof.
  apply respects_io_call, (respects_look _ (seen p)).
  - apply same_world_seen.
  - intros w w'. unfold seen. by destruct (w_files w !! p), (w_files w' !! p).
  - intros w. repeat respects_step. apply respects_modify. intros w1 w1' Hw.
    apply same_world_set; [done|]. constructor. apply same_file_refl.
Qed.

Lemma respects_write_all_at p src off : respects (write_all_at p src off).
Proof. unfold write_all_at. repeat respects_step. Qed.

Lemma respects_set_len p n : respects (set_len p n).
Proof. apply respects_io_call. repeat respects_step. Qed.

Lemma respects_sync_all p : respects (sync_all p).
Proof. apply respects_io_call. repeat respects_step. Qed.

Lemma respects_sync_dir dir : respects (sync_dir dir).
Proof.
  unfold sync_dir. repeat respects_step; apply respects_io_call; [apply respects_ret|].
  repeat respects_step. apply respects_modify. intros w w' Hw. split; [|apply Hw]. intros q. simpl.
  rewrite !link_dir_lookup. destruct (sw_files _ _ Hw q) as [f f' Hf|]; simpl; constructor.
  revert Hf. unfold same_file, log_like. destruct (in_dir dir q); case_decide; simpl; naive_solver.
Qed.

End LogWorlds.

#[export] Hint Resolve respects_path_exists respects_open_file respects_read_exact_at
  respects_read_to_end respects_metadata_len respects_create_new_file respects_write_all_at
  respects_set_len respects_sync_all respects_sync_dir : respects.

(** ** Opening *)

Section Opening.
Context `{Cpu}.
Variable wl : path.
Abbreviation respects := (respects (same_world wl)).

Lemma respects_disk_open p : respects (disk_open p).
Proof. unfold disk_open. repeat respects_step. Qed.

Lemma respects_disk_create p : respects (disk_create p).
Proof. unfold disk_create, sync_parent_dir. repeat respects_step. Qed.

Lemma respects_wal_create p : respects (wal_create p).
Proof. unfold wal_create, sync_parent_dir. repeat respects_step. Qed.

Lemma respects_wal_open p : respects (wal_open p).
Proof. unfold wal_open. repeat respects_step. Qed.

Lemma respects_wal_reset wal : respects (wal_reset wal).
Proof. unfold wal_reset. repeat respects_step. Qed.

Lemma respects_write_images file m : respects (write_images file m).
Proof. unfold write_images. induction m as [|[id q] m IH]; simpl; repeat respects_step. Qed.
#[local] Hint Resolve respects_disk_open respects_disk_create respects_wal_create respects_wal_open
  respects_wal_reset respects_write_images : respects.

Lemma respects_replay p records : respects (replay p records).
Proof. unfold replay. repeat respects_step. Qed.
#[local] Hint Resolve respects_replay : respects.

Lemma respects_db_open p options : respects (db_open p options).
Proof. unfold db_open, open_existing, db_create. repeat respects_step. Qed.

(** What differs is gone once the log has been synced. *)
Lemma same_world_synced w w' :
  same_world wl w w' →
  set_files (alter file_sync wl (w_files w)) w = set_files (alter file_sync wl (w_files w')) w'.
Proof.
  intros Hw. unfold set_files. f_equal; [|apply Hw]. apply map_eq. intros q.
  pose proof (sw_files _ _ _ Hw q) as Hq. unfold same_file in Hq. destruct (decide (q = wl)) as [->|Hne].
  - rewrite !lookup_alter_eq. destruct Hq as [f f' [E1 E2]|]; simpl; [|done].
    unfold file_sync. by rewrite E1, E2.
  - rewrite !lookup_alter_ne by done. by destruct Hq as [f f' ->|].
Qed.

Lemma sync_converges w w' w1 :
  same_world wl w w' → sync_all wl w = (Done (Ok tt), w1) → sync_all wl w' = (Done (Ok tt), w1).
Proof.
  intros Hw. unfold sync_all, io_call, bind. destruct (respects_next_fate wl w w' Hw) as [E Hw2].
  destruct (next_fate w) as [r w2], (next_fate w') as [r' w2']. simpl in *. subst r'.
  destruct r as [[|code n|n]| |]; try done. unfold alter_file, modify, ret.
  intros [= <-]. by rewrite (same_world_synced w2 w2').
Qed.

(** A successful computation, from the other world. *)
Lemma respects_Done {A} (m : M World A) w w' a w1 :
  respects m → same_world wl w w' → m w = (Done a, w1) → ∃ w1', m w' = (Done a, w1') ∧ same_world wl w1 w1'.
Proof.
  intros Hm Hw E. destruct (Hm w w' Hw) as [E1 Hw1]. rewrite E in E1, Hw1. simpl in *.
  destruct (m w') as [r w1']. simpl in *. subst r. eauto.
Qed.

Lemma wal_reset_converges wal w w' wal' w1 :
  wal_file wal = wl → same_world wl w w' → wal_reset wal w = (Done (Ok tt, wal'), w1) →
  wal_reset wal w' = (Done (Ok tt, wal'), w1).
Proof.
  intros Hwl Hw. unfold wal_reset. destruct (wal_check_poisoned wal); [|done]. case_match; [done|].
  rewrite Hwl. intros (r & w2 & E & Hk)%bind_Done_inv. destruct r as [[]|e]; [|done].
  apply bind_ok_inv in E as ([] & w3 & E1 & E2). apply bind_ok_inv in E2 as ([] & w4 & E2 & E3).
  apply (respects_Done _ _ w') in E1 as (w3' & E1 & Hw3); [|auto with respects|done].
  apply (respects_Done _ _ w3') in E2 as (w4' & E2 & Hw4); [|auto with respects|done].
  apply (sync_converges _ w4') in E3; [|done].
  unfold bind, bind_ok, bind. rewrite E1, E2, E3. exact Hk.
Qed.

Lemma wal_open_file p w o w1 : wal_open p w = (Done (Ok o), w1) → wal_file (opened_wal o) = p.
Proof.
  unfold wal_open. intros (file & w2 & Eo & E)%bind_ok_inv.
  assert (file = p) as ->.
  { revert Eo. unfold open_file, io_call. intros (fate & w3 & _ & E')%bind_Done_inv.
    destruct fate; try done. apply bind_Done_inv in E' as (w4 & w5 & _ & E').
    unfold ret in E'. destruct (w_files w4 !! p); naive_solver. }
  apply bind_ok_inv in E as (contents & w3 & _ & E). apply bind_ok_inv in E as (first & w4 & _ & E).
  destruct (wal_read_loop _ _ _ _ _) as [[[[records offset] sq] reason]|]; [|done].
  apply bind_ok_inv in E as (? & w5 & _ & E). unfold ret in E. by simplify_eq.
Qed.

(** A successful open leaves both worlds the same. *)
Lemma open_existing_converges p options w w' db w1 :
  is_Some (w_files w !! wl) → same_world wl w w' →
  open_existing p wl options w = (Done (Ok db), w1) → open_existing p wl options w' = (Done (Ok db), w1).
Proof.
  intros Hfw Hw. assert (path_exists wl w = (Done true, w)) as E0.
  { unfold path_exists, gets. by rewrite bool_decide_eq_true_2. }
  unfold open_existing. unfold bind at 1. rewrite E0. cbn [negb].
  apply (respects_Done _ _ w') in E0 as (w2' & E0 & Hw2); [|auto with respects|done].
  intros (o & w3 & E1 & E)%bind_ok_inv. apply bind_ok_inv in E as (stats & w4 & E2 & E).
  apply bind_ok_inv in E as (d & w5 & E3 & E). apply bind_Done_inv in E as ([r wal] & w6 & E4 & E).
  destruct r as [[]|e]; [|done]. pose proof (wal_open_file _ _ _ _ E1) as Hwl.
  apply (respects_Done _ _ w2') in E1 as (w3' & E1 & Hw3); [|auto with respects|done].
  apply (respects_Done _ _ w3') in E2 as (w4' & E2 & Hw4); [|auto with respects|done].
  apply (respects_Done _ _ w4') in E3 as (w5' & E3 & Hw5); [|auto with respects|done].
  apply (wal_reset_converges _ _ w5') in E4; [|done..].
  unfold bind at 1. rewrite E0. cbn [negb]. erewrite !bind_ok_Ok by done. by erewrite bind_Done by done.
Qed.

Lemma db_open_existing p options w :
  wal_path_for p = Ok wl → is_Some (w_files w !! p) → db_open p options w = open_existing p wl options w.
Proof.
  intros Hwl Hp. unfold db_open, bind_ok, lift, bind, ret, path_exists, gets.
  by rewrite Hwl, bool_decide_eq_true_2.
Qed.

End Opening.

(** ** Restarting *)

Section Restart.
Context `{Cpu}.
Implicit Types A : AState.

(** The files hold one of the states [P], whatever is synced of the log: what
    a process that was killed leaves, also in the middle of opening. *)
Definition restartable (P : AState → Prop) (p wl : path) (w : World) : Prop :=
  ∃ f fw A first rs, w_files w !! p = Some f ∧ w_files w !! wl = Some fw ∧
    f_entry_synced fw = true ∧ P A ∧ reopenable A f (f_cur fw) first rs.

Lemma recovers_restartable P p wl w : recovers_checked P p wl w → restartable P p wl w.
Proof.
  intros (f & fw & Hf & Hfw & He & Hwf & Hc).
  destruct (Hc (f_cur fw)) as (A & first & rs & HA & Hr); [by apply crash_content_cur|apply no_forgery_cur|].
  by exists f, fw, A, first, rs.
Qed.

Lemma restartable_same P p wl w w' :
  p ≠ wl → same_world wl w w' → restartable P p wl w → restartable P p wl w'.
Proof.
  intros Hne Hw (f & fw & A & first & rs & Hf & Hfw & He & HA & Hr).
  pose proof (sw_files _ _ _ Hw p) as Hp. pose proof (sw_files _ _ _ Hw wl) as Hl.
  rewrite Hf in Hp. rewrite Hfw in Hl.
  inversion Hp as [? f' Hpf Ef E1|]. inversion Hl as [? fw' Hlf Efw E2|]. subst.
  unfold same_file in *. rewrite decide_False in Hpf by done. rewrite decide_True in Hlf by done.
  destruct Hlf as [Ec Ee]. subst f'.
  exists f, fw', A, first, rs. split_and!; try done; congruence.
Qed.

(** The world in which everything written to the log is durable. *)
Definition log_settled (wl : path) (fw : file) (w : World) : World :=
  set_files (<[wl := file_at_rest (f_cur fw)]> (w_files w)) w.

Lemma log_settled_same wl fw w :
  w_files w !! wl = Some fw → f_entry_synced fw = true → same_world wl (log_settled wl fw w) w.
Proof.
  intros Hfw He. split; [|done]. intros q. simpl. unfold same_file. destruct (decide (q = wl)) as [->|].
  - rewrite lookup_insert_eq, Hfw. by constructor.
  - rewrite lookup_insert_ne by done. destruct (w_files w !! q); by constructor.
Qed.

(** Opening after a kill: the database is up in the state the files held, or
    can be restarted again. *)
Lemma restart_open P p wl options w r w' :
  wal_path_for p = Ok wl → restartable P p wl w → db_open p options w = (r, w') →
  ∃ A, P A ∧
    match r with
    | Done (Ok db) => db_inv A db w' ∧ dm_file (db_disk db) = p ∧ wal_file (db_wal db) = wl
    | Done (Err _) => (¬ io_ok w ∨ buffer_pool_pages options = 0) ∧ restartable (λ X, X = A) p wl w'
    | Panicked => False
    | Crashed => ¬ io_ok w ∧ restartable (λ X, X = A) p wl w'
    end.
Proof.
  intros Hwl (f & fw & X & first & rs & Hf & Hfw & He & HX & Hr) E. pose proof (wal_path_ne _ _ Hwl) as Hne.
  set (ws := log_settled wl fw w). pose proof (log_settled_same wl fw w Hfw He : same_world wl ws w) as Hsame.
  assert (w_files ws !! p = Some f) as Hfs by (simpl; by rewrite lookup_insert_ne).
  assert (w_files ws !! wl = Some (file_at_rest (f_cur fw))) as Hfws by (simpl; apply lookup_insert_eq).
  exists X. split; [done|]. pose proof (wp_db_open X p wl options f _ first rs ws Hwl Hr Hfs Hfws) as Hopen.
  destruct (respects_db_open wl p options ws w Hsame) as [Er Hw']. rewrite E in Er, Hw'. simpl in Er, Hw'.
  unfold wp in Hopen. destruct (db_open p options ws) as [rs' ws'] eqn:Es. simpl in *. subst rs'.
  destruct r as [[db|e]| |]; [| |done|].
  - rewrite (db_open_existing wl) in Es, E by eauto.
    apply (open_existing_converges wl p options ws w) in Es; [|by eauto|done].
    rewrite E in Es. simplify_eq. apply Hopen.
  - destruct Hopen as [Hn Hrec]. split; [done|]. eapply restartable_same; [done..|].
    exact (recovers_restartable _ _ _ _ (recovers_weaken _ _ _ _ _ (λ _ HA, HA) Hrec)).
  - destruct Hopen as [Hn Hrec]. split; [done|]. eapply restartable_same; [done..|].
    exact (recovers_restartable _ _ _ _ (recovers_weaken _ _ _ _ _ (λ _ HA, HA) Hrec)).
Qed.

(** An attempt to open the files as they are that fails or is killed. *)
Definition failed_open (p : path) (options : Options) (w w' : World) : Prop :=
  ∃ plan r, db_open p options {| w_files := w_files w; w_plan := plan |} = (r, w') ∧
    ∀ db, r ≠ Done (Ok db).

Definition succeeds {B : Type} (r : exec (Result B)) : bool := match r with Done (Ok _) => true | _ => false end.

Lemma failed_open_run p options plan w :
  succeeds (db_open p options {| w_files := w_files w; w_plan := plan |}).1 = false →
  failed_open p options w (db_open p options {| w_files := w_files w; w_plan := plan |}).2.
Proof.
  intros Hno. exists plan, (db_open p options {| w_files := w_files w; w_plan := plan |}).1.
  split; [apply surjective_pairing|]. intros db E. by rewrite E in Hno.
Qed.

(** Attempts keep the state. *)
Lemma restartable_attempts P p wl options w w' :
  wal_path_for p = Ok wl → restartable P p wl w → rtc (failed_open p options) w w' →
  restartable P p wl w'.
Proof.
  intros Hwl Hr Hatt. revert P Hr. induction Hatt as [w|w w1 w2 (plan & r & E & Hno) _ IH]; intros P Hr; [done|].
  apply IH. apply (restart_open P p wl) in E as (A & HA & HE); [|done|exact Hr].
  assert (restartable (λ X, X = A) p wl w1) as (f & fw & X & first & rs & ? & ? & ? & -> & ?).
  { destruct r as [[db|e]| |]; [by destruct (Hno db)|apply HE|done|apply HE]. }
  by exists f, fw, A, first, rs.
Qed.

Lemma restart_run P p wl options w :
  wal_path_for p = Ok wl → 0 < buffer_pool_pages options → restartable P p wl w → io_ok w →
  ∃ A db w', P A ∧ db_open p options w = (Done (Ok db), w') ∧ db_inv A db w'.
Proof.
  intros Hwl Hb Hr Hio. destruct (db_open p options w) as [r w'] eqn:E.
  apply (restart_open P p wl) in E as (A & HA & HE); [|done|exact Hr].
  destruct r as [[db|e]| |]; [|destruct HE as [[?|?] _]; [done|lia]|done|by destruct HE].
  exists A, db, w'. by destruct HE.
Qed.

End Restart.
