(* ===== verification/Transactions.v ===== *)
(** * Read and write transactions

    Reads return the committed state; a write transaction sees its own
    changes on top of it and nothing it does before [commit] changes what the
    database holds. *)

From S2P Require Import Prelude Errors BTree Checksum Page FileHeader FileSys Disk WalRecord.
From S2P Require Import WalLog Recovery BufferPool PoolCache Database DbState Checkpoint.
From S2P Require Import Commit.

Section Reads.
Context `{Cpu} `{HashOrder}.
Implicit Types A : AState.
Implicit Types txn : WriteTxn.

(** Only cached pages changed. *)
Definition same_but_pool (db db' : Database) : Prop :=
  ∃ pl, length (shards pl) = length (shards (db_pool db)) ∧ db' = set_db_pool pl db.

Lemma same_but_pool_refl db : same_but_pool db db.
Proof. exists (db_pool db). by destruct db. Qed.

Definition crash_in A db w (s : Database * World) : Prop :=
  ¬ io_ok w ∧ recovers (λ A', A' = A) (dm_file (db_disk db)) (wal_file (db_wal db)) s.2.

(** What transactions need from the database below them: while [I] holds, the
    pages of [A] can be read; a read fails only for a reason in [bad] and is
    interrupted only as [crash] allows. *)
Class PageStore A (I : Database → World → Prop) (bad : Database → World → Error → Prop)
    (crash : Database → World → Database * World → Prop) : Prop := {
  ps_wf db w : I db w → dm_page_count (db_disk db) = a_count A ∧ a_wf A;
  ps_read db w id p :
    I db w → a_pages A !! id = Some p →
    wp (with_pool (pool_read id (db_disk db)))
      (λ r s, I s.1 s.2 ∧ same_but_pool db s.1 ∧ (io_ok w → io_ok s.2) ∧
         match r with Ok p' => p' = p | Err e => bad db w e end)
      (crash db w) (db, w);
}.

(** Reading a page of the database through the pool. *)
Lemma wp_db_read A db w id p :
  db_inv A db w → a_pages A !! id = Some p →
  wp (with_pool (pool_read id (db_disk db)))
    (λ r s, db_inv A s.1 s.2 ∧ same_but_pool db s.1 ∧ (io_ok w → io_ok s.2) ∧
       match r with Ok p' => p' = p | Err _ => ¬ io_ok w end)
    (crash_in A db w) (db, w).
Proof.
  intros (Hpo & f & fw & first & rs & Hfs & Hdb) Hp.
  pose proof (dp_durable _ _ _ _ _ _ Hdb) as Hdu. pose proof (du_wf _ _ _ _ _ Hdu) as HA.
  pose proof (dp_count _ _ _ _ _ _ Hdb) as Hcnt. pose proof (dp_ne _ _ _ _ _ _ Hdb) as Hne.
  apply wp_with_pool. eapply wp_mono;
    [eapply (wp_pool_read (db_disk db) (a_disk_wf A _ HA Hcnt) _ _ _ _ _ _ id p
       (a_pages_wf A _ HA Hcnt) (dp_pool _ _ _ _ _ _ Hdb)); [apply Hfs|done|done]| |].
  - intros r [pl w1] (f1 & [Hw1 Hpw] & Hinv & Hlen & Hr). cbn [fst snd].
    split; [|split; [by exists pl|split; [apply Hw1|]]].
    + split; [done|]. exists f1, fw, first, rs. split; [by eapply (files_data db)|].
      split; try apply Hdb; [|done]. by eapply du_written.
    + destruct r as [p'|e]; [done|]. destruct Hr as [Hn|[_ Hx]]; [done|].
      by destruct (not_exhausted _ _ _ _ (dp_pool _ _ _ _ _ _ Hdb)).
  - intros [pl w1] (Hn & f1 & [Hw1 Hpw]). split; [done|]. cbn [fst snd].
    destruct (files_data _ _ _ _ _ _ Hfs Hne Hw1) as [Hfa Hfb].
    eapply durable_recovers; [by eapply du_written|done..].
Qed.

Lemma db_inv_count A db w : db_inv A db w → dm_page_count (db_disk db) = a_count A ∧ a_wf A.
Proof. intros (_ & f & fw & first & rs & _ & Hdb). split; [apply Hdb|apply (dp_durable _ _ _ _ _ _ Hdb)]. Qed.

Lemma db_inv_recovers A db w :
  db_inv A db w →
  recovers (λ A', A' = A) (dm_file (db_disk db)) (wal_file (db_wal db)) w.
Proof.
  intros (_ & f & fw & first & rs & [Hf Hfw] & Hdb).
  eapply durable_recovers; [apply Hdb|done..].
Qed.

#[global] Instance db_store A : PageStore A (db_inv A) (λ _ w _, ¬ io_ok w) (crash_in A).
Proof. split; [apply db_inv_count|intros; by eapply wp_db_read]. Qed.

Lemma txn_check_spec id count :
  (0 ≤ id)%Z → match txn_check_data_page id count with
  | Ok _ => (0 < id < count)%Z
  | Err e => is_invalid_argument e = true ∧ ¬ (0 < id < count)%Z
  end.
Proof.
  intros Hid. unfold txn_check_data_page, HEADER.
  destruct (Z.eqb_spec id 0) as [->|]; [simpl; split; [done|lia]|].
  destruct (Z.leb_spec count id); simpl; [split; [done|lia]|lia].
Qed.

(** What a write transaction sees: its own pages, then the database's. *)
Definition txn_view A txn (id : PageId) : option Page :=
  match bt_get id (dirty txn) with Some p => Some p | None => a_pages A !! id end.

Lemma txn_view_dom A txn id :
  a_wf A → txn_rep A txn → is_Some (txn_view A txn id) ↔ (0 < id < txn_page_count txn)%Z.
Proof.
  intros HA [_ Hc Hd Hn]. unfold txn_view. destruct (bt_get id (dirty txn)) as [p|] eqn:Eg.
  - apply bt_get_elem, Hd in Eg as [? _]. split; [done|eauto].
  - rewrite (a_dom _ HA). split; [lia|]. intros ?. split; [lia|].
    destruct (decide (id < a_count A)%Z); [done|]. destruct (Hn id); [lia|congruence].
Qed.

(** Putting a page into the transaction. *)
Lemma txn_rep_insert A txn id p :
  txn_rep A txn → (0 < id < txn_page_count txn)%Z → page_wf p →
  txn_rep A {| dirty := bt_insert id p (dirty txn); txn_page_count := txn_page_count txn |}.
Proof.
  intros [Hs Hc Hd Hn] Hid Hp. split; simpl; [auto with oxen|done| |].
  - intros j q [[= -> ->]|Hin]%bt_insert_elem; [done|by apply Hd].
  - intros j Hj. rewrite bt_get_insert. destruct (j =? id)%Z; eauto.
Qed.

Lemma txn_view_insert A txn id p n j :
  txn_view A {| dirty := bt_insert id p (dirty txn); txn_page_count := n |} j =
    if decide (j = id) then Some p else txn_view A txn j.
Proof.
  unfold txn_view. simpl. rewrite bt_get_insert.
  destruct (Z.eqb_spec j id), (decide (j = id)); done.
Qed.

Section Store.
Context {A : AState} {I : Database → World → Prop} {bad : Database → World → Error → Prop}.
Context {crash : Database → World → Database * World → Prop}.
Context {HS : PageStore A I bad crash}.

(** [ReadTxn::read_page]. *)
Lemma ps_read_txn_read_page db w id :
  I db w → (0 ≤ id)%Z →
  wp (read_txn_read_page id)
    (λ r s, I s.1 s.2 ∧ same_but_pool db s.1 ∧ (io_ok w → io_ok s.2) ∧
       match r with
       | Ok p => a_pages A !! id = Some p
       | Err e => bad db w e ∨ (is_invalid_argument e = true ∧ a_pages A !! id = None)
       end)
    (crash db w) (db, w).
Proof.
  intros Hinv Hid. destruct (ps_wf _ _ Hinv) as [Hcnt HA].
  unfold read_txn_read_page, read_txn_page_count, db_page_count. wp_step. wp_step.
  wp_step. wp_step. simpl fst. rewrite Hcnt. pose proof (txn_check_spec id (a_count A) Hid) as Hc.
  destruct (txn_check_data_page id (a_count A)) as [[]|e].
  - destruct (proj2 (a_dom _ HA id) Hc) as [p Hp]. wp_step. wp_step. simpl fst.
    eapply wp_mono; [by eapply ps_read| |done].
    intros r s (H1 & H2 & H3 & Hr). split_and!; try done. destruct r; [by subst|by left].
  - destruct Hc as [He Hn]. split; [done|]. split; [apply same_but_pool_refl|].
    split; [done|]. right. split; [done|]. rewrite <- (a_dom _ HA) in Hn. by apply eq_None_not_Some.
Qed.

(** [WriteTxn::read_page]. *)
Lemma ps_write_txn_read_page txn db w id :
  I db w → txn_rep A txn → (0 ≤ id)%Z →
  wp (write_txn_read_page id txn)
    (λ r s, I s.1 s.2 ∧ same_but_pool db s.1 ∧ (io_ok w → io_ok s.2) ∧
       match r with
       | Ok p => txn_view A txn id = Some p
       | Err e => bad db w e ∨ (is_invalid_argument e = true ∧ txn_view A txn id = None)
       end)
    (crash db w) (db, w).
Proof.
  intros Hinv Htxn Hid. destruct (ps_wf _ _ Hinv) as [Hcnt HA].
  pose proof (same_but_pool_refl db) as Hsame.
  pose proof (txn_view_dom A txn id HA Htxn) as Hdom. unfold write_txn_read_page. wp_step. wp_step.
  pose proof (txn_check_spec id (txn_page_count txn) Hid) as Hc.
  destruct (txn_check_data_page id _) as [[]|e].
  - unfold txn_view in *. destruct (bt_get id (dirty txn)) as [p|]; [by wp_step|].
    destruct (proj2 Hdom Hc) as [p Hp]. wp_step. wp_step. simpl fst.
    eapply wp_mono; [by eapply ps_read| |done].
    intros r s (H1 & H2 & H3 & Hr). split_and!; try done. destruct r; [by subst|by left].
  - destruct Hc as [He Hn]. split_and!; try done. right. split; [done|].
    rewrite <- Hdom in Hn. by apply eq_None_not_Some.
Qed.

(** [WriteTxn::page_mut], whatever the caller does to the page. *)
Lemma ps_page_mut txn db w id change :
  I db w → txn_rep A txn → (0 ≤ id)%Z → (∀ p, page_wf p → page_wf (change p)) →
  wp (page_mut id change txn)
    (λ r s, I s.1 s.2 ∧ same_but_pool db s.1 ∧ (io_ok w → io_ok s.2) ∧
       match r with
       | Ok txn' => txn_rep A txn' ∧ txn_page_count txn' = txn_page_count txn ∧
           ∃ p, txn_view A txn id = Some p ∧
             ∀ j, txn_view A txn' j = if decide (j = id) then Some (change p) else txn_view A txn j
       | Err e => bad db w e ∨ (is_invalid_argument e = true ∧ txn_view A txn id = None)
       end)
    (crash db w) (db, w).
Proof.
  intros Hinv Htxn Hid Hch. destruct (ps_wf _ _ Hinv) as [Hcnt HA].
  pose proof (same_but_pool_refl db) as Hsame.
  pose proof (txn_view_dom A txn id HA Htxn) as Hdom. unfold page_mut. wp_step. wp_step.
  pose proof (txn_check_spec id (txn_page_count txn) Hid) as Hc.
  destruct (txn_check_data_page id _) as [[]|e].
  2:{ destruct Hc as [He Hn]. split_and!; try done. right. split; [done|].
      rewrite <- Hdom in Hn. by apply eq_None_not_Some. }
  wp_step. unfold bt_contains. destruct (bt_get id (dirty txn)) as [p|] eqn:Eg.
  - rewrite bool_decide_eq_true_2 by eauto. wp_step. rewrite Eg. wp_step.
    destruct (tr_dirty _ _ Htxn _ _ (bt_get_elem _ _ _ Eg)) as [_ Hp].
    split_and!; try done; [by apply txn_rep_insert; auto|].
    exists p. split; [by unfold txn_view; rewrite Eg|]. apply txn_view_insert.
  - rewrite bool_decide_eq_false_2 by by intros [].
    destruct (proj2 Hdom Hc) as [p Hp]. unfold txn_view in Hp. rewrite Eg in Hp.
    destruct (a_pages_ok _ HA _ _ Hp) as [Hpw _].
    wp_step. wp_step. wp_step. simpl fst. eapply wp_mono; [by eapply ps_read| |done].
    intros [p'|e] s (H1 & H2 & H3 & Hr); [subst p'|by split_and!; auto].
    wp_step. rewrite bt_get_insert_eq. wp_step. split_and!; try done.
    + apply (txn_rep_insert A {| dirty := bt_insert id p (dirty txn);
        txn_page_count := txn_page_count txn |}); simpl; auto.
      by apply txn_rep_insert.
    + exists p. split; [by unfold txn_view; rewrite Eg|]. intros j.
      rewrite (txn_view_insert A {| dirty := bt_insert id p (dirty txn); txn_page_count := 0 |}).
      rewrite txn_view_insert. by destruct (decide (j = id)).
Qed.

End Store.

(** [WriteTxn::allocate_page]. *)
Lemma allocate_page_spec A txn t :
  a_wf A → txn_rep A txn → (txn_page_count txn < 2 ^ 52)%Z →
  let id := (allocate_page t txn).1 in
  let txn' := (allocate_page t txn).2 in
  txn_rep A txn' ∧ id = txn_page_count txn ∧ txn_page_count txn' = (id + 1)%Z ∧
  txn_view A txn id = None ∧
  ∀ j, txn_view A txn' j = if decide (j = id) then Some (page_new id t) else txn_view A txn j.
Proof.
  intros HA Htxn Hlt. simpl. pose proof (a_count_range _ HA). pose proof (tr_count _ _ Htxn) as Hc.
  assert (u64_add (txn_page_count txn) 1 = txn_page_count txn + 1)%Z as ->
    by (unfold u64_add; apply wrap_u64_id; unfold u64_range; lia).
  split; [|split; [done|split; [done|split; [|apply txn_view_insert]]]].
  - destruct Htxn as [Hs _ Hd Hn]. split; simpl; [auto with oxen|lia| |].
    + intros j q [[= -> ->]|Hin]%bt_insert_elem; [split; [lia|auto with oxen]|].
      destruct (Hd _ _ Hin). split; [lia|done].
    + intros j Hj. rewrite bt_get_insert. destruct (Z.eqb_spec j (txn_page_count txn)); [eauto|].
      apply Hn. lia.
  - apply eq_None_not_Some. rewrite txn_view_dom by done. lia.
Qed.

(** [begin_write] starts from the committed state. *)
Lemma wp_begin_write A db w :
  db_inv A db w →
  begin_write (db, w) = (Done (Ok {| dirty := []; txn_page_count := a_count A |}), (db, w)).
Proof.
  intros Hinv. destruct (db_inv_count _ _ _ Hinv) as [Hcnt _]. destruct Hinv as [Hpo _].
  unfold begin_write, db_check_poisoned, db_page_count, bind_ok, bind, gets, ret. simpl.
  rewrite Hpo. simpl. rewrite Hpo. simpl. by rewrite Hcnt.
Qed.

Lemma txn_rep_empty A : a_wf A → txn_rep A {| dirty := []; txn_page_count := a_count A |}.
Proof.
  intros HA. pose proof (a_count_range _ HA). split; simpl; [constructor|lia| |lia].
  intros id p []%not_elem_of_nil.
Qed.

(** A halted database refuses everything and changes nothing. *)
Lemma poisoned_refuses db w :
  db_poisoned db = true →
  (∃ e, begin_read (db, w) = (Done (Err (Poisoned e)), (db, w))) ∧
  (∃ e, begin_write (db, w) = (Done (Err (Poisoned e)), (db, w))) ∧
  (∃ e, checkpoint (db, w) = (Done (Err (Poisoned e)), (db, w))).
Proof.
  intros Hpo. unfold begin_read, begin_write, checkpoint, db_check_poisoned, bind_ok, bind, gets.
  simpl. rewrite Hpo. split_and!; by eexists.
Qed.

End Reads.
