(* ===== verification/System.v ===== *)
(** * The whole system

    A database process, its crashes and its reopenings as a transition
    system, the abstract machine it implements, and the proof that it does. *)

From S2P Require Import Prelude Errors BTree Checksum Page FileHeader FileSys Disk WalRecord.
From S2P Require Import WalLog Recovery BufferPool PoolCache Database DbState Checkpoint.
From S2P Require Import Commit Reopen Restart Transactions.

(** ** Operations and events *)

(** What a client asks for. *)
Inductive op : Type :=
  | OpBegin
  | OpRead (id : PageId)
  | OpTxnRead (id : PageId)
  | OpPut (id : PageId) (change : Page → Page)
  | OpAlloc (t : PageType)
  | OpRollback
  | OpCommit
  | OpCheckpoint.

(** What it sees. *)
Inductive event : Type :=
  | EvBegin
  | EvRead (id : PageId) (p : Page)
  | EvTxnRead (id : PageId) (p : Page)
  | EvPut (id : PageId) (change : Page → Page)
  | EvAlloc (id : PageId) (t : PageType)
  | EvRollback
  | EvCommit
  | EvCommitFailed
  | EvCheckpoint
  | EvCheckpointFailed
  | EvRefused
  | EvCrash
  | EvOpen
  | EvOpenFailed
  | EvStopReviving
  | EvForged.

(** ** The abstract machine *)

Section Abstract.
Context `{Cpu}.

(** The working copy of a transaction: one page changed, one page added, and
    the form in which it is committed. *)
Definition put (id : PageId) (p : Page) (V : AState) : AState :=
  {| a_count := a_count V; a_pages := <[id := p]> (a_pages V) |}.

Definition alloc (t : PageType) (V : AState) : AState :=
  {| a_count := a_count V + 1; a_pages := <[a_count V := page_new (a_count V) t]> (a_pages V) |}.

Definition sealed (V : AState) : AState :=
  {| a_count := a_count V; a_pages := seal <$> a_pages V |}.

(** Every page is one the database accepts once it is sealed. *)
Definition sealable (V : AState) : Prop :=
  ∀ id p, a_pages V !! id = Some p → is_ok (verify id (seal p)) = true.

(** A database is up with a committed state and perhaps a transaction; halted
    after a failure; or down.  In the last two cases the committed state is
    one of a few.  [SLost]: the machine stopped while a process that had been
    killed was being replaced, or a crash left a damaged record that its
    checksum does not tell from a good one; nothing is promised any more. *)
Inductive spec : Type :=
  | SUp (A : AState) (V : option AState)
  | SHalted (P : list AState)
  | SDown (P : list AState)
  | SLost.

Inductive spec_step : spec → event → spec → Prop :=
  | sp_begin A : spec_step (SUp A None) EvBegin (SUp A (Some A))
  | sp_read A V id p :
      a_pages A !! id = Some p → spec_step (SUp A V) (EvRead id p) (SUp A V)
  | sp_txn_read A V id p :
      a_pages V !! id = Some p → spec_step (SUp A (Some V)) (EvTxnRead id p) (SUp A (Some V))
  | sp_put A V id change p :
      a_pages V !! id = Some p →
      spec_step (SUp A (Some V)) (EvPut id change) (SUp A (Some (put id (change p) V)))
  | sp_alloc A V t :
      spec_step (SUp A (Some V)) (EvAlloc (a_count V) t) (SUp A (Some (alloc t V)))
  | sp_rollback A V : spec_step (SUp A (Some V)) EvRollback (SUp A None)
  | sp_commit A V : sealable V → spec_step (SUp A (Some V)) EvCommit (SUp (sealed V) None)
  | sp_commit_halted A V :
      sealable V → spec_step (SUp A (Some V)) EvCommit (SHalted [sealed V])
  | sp_commit_refused A V :
      ¬ sealable V → spec_step (SUp A (Some V)) EvCommitFailed (SUp A None)
  | sp_commit_failed A V : spec_step (SUp A (Some V)) EvCommitFailed (SHalted [A; sealed V])
  | sp_checkpoint A : spec_step (SUp A None) EvCheckpoint (SUp A None)
  | sp_checkpoint_failed A : spec_step (SUp A None) EvCheckpointFailed (SHalted [A])
  | sp_refused A V : spec_step (SUp A V) EvRefused (SUp A V)
  | sp_halted P ev :
      ev = EvRefused ∨ ev = EvCheckpointFailed → spec_step (SHalted P) ev (SHalted P)
  | sp_crash A V : spec_step (SUp A V) EvCrash (SDown [A])
  | sp_crash_commit A V : spec_step (SUp A (Some V)) EvCrash (SDown [A; sealed V])
  | sp_crash_halted P : spec_step (SHalted P) EvCrash (SDown P)
  | sp_restart A V : spec_step (SUp A V) EvOpen (SUp A None)
  | sp_restart_failed A V : spec_step (SUp A V) EvOpenFailed (SDown [A])
  | sp_open A P : A ∈ P → spec_step (SDown P) EvOpen (SUp A None)
  | sp_open_failed A P : A ∈ P → spec_step (SDown P) EvOpenFailed (SDown [A])
  | sp_stop_reviving P : spec_step (SDown P) EvStopReviving SLost
  | sp_forged P : spec_step (SDown P) EvForged SLost
  | sp_lost ev : spec_step SLost ev SLost.

Inductive spec_steps : spec → list event → spec → Prop :=
  | spec_steps_nil σ : spec_steps σ [] σ
  | spec_steps_cons σ ev σ' evs σ'' :
      spec_step σ ev σ' → spec_steps σ' evs σ'' → spec_steps σ (ev :: evs) σ''.

End Abstract.

(** ** The implementation *)

Section Concrete.
Context `{Cpu} `{HashOrder}.

(** One call of the client, with the transaction it has open; the borrow
    checker and the WAL lock rule out the remaining combinations. *)
Definition run (o : op) (t : option WriteTxn) : M (Database * World) (event * option WriteTxn) :=
  match o, t with
  | OpBegin, None =>
      let! r := begin_write in
      ret (match r with Ok txn => (EvBegin, Some txn) | Err _ => (EvRefused, None) end)
  | OpRead id, _ =>
      let! r := (let? _ := begin_read in read_txn_read_page id) in
      ret (match r with Ok p => (EvRead id p, t) | Err _ => (EvRefused, t) end)
  | OpTxnRead id, Some txn =>
      let! r := write_txn_read_page id txn in
      ret (match r with Ok p => (EvTxnRead id p, t) | Err _ => (EvRefused, t) end)
  | OpPut id change, Some txn =>
      let! r := page_mut id change txn in
      ret (match r with Ok txn' => (EvPut id change, Some txn') | Err _ => (EvRefused, t) end)
  | OpAlloc ty, Some txn =>
      let '(id, txn') := allocate_page ty txn in
      ret (EvAlloc id ty, Some txn')
  | OpRollback, Some txn =>
      let! _ := rollback txn in
      ret (EvRollback, None)
  | OpCommit, Some txn =>
      let! r := commit txn in
      ret (match r with Ok _ => (EvCommit, None) | Err _ => (EvCommitFailed, None) end)
  | OpCheckpoint, None =>
      let! r := checkpoint in
      ret (match r with Ok _ => (EvCheckpoint, None) | Err _ => (EvCheckpointFailed, None) end)
  | _, _ => ret (EvRefused, t)
  end.

(** Page ids are unsigned, pages have a fixed size, and the database and its
    log stay below the limits of 64-bit file offsets. *)
Definition within_limits (o : op) (t : option WriteTxn) (db : Database) : Prop :=
  match o, t with
  | OpRead id, _ | OpTxnRead id, _ => (0 ≤ id)%Z
  | OpPut id change, _ => (0 ≤ id)%Z ∧ ∀ p, page_wf p → page_wf (change p)
  | OpAlloc _, Some txn => (txn_page_count txn < 2 ^ 52)%Z
  | OpCommit, Some txn => commit_room db txn
  | _, _ => True
  end.

(** A process with the database open and perhaps a transaction; no process;
    no process, and the last one stopped while it was opening the database on
    files that had not been through a reboot. *)
Inductive system : Type :=
  | Up (db : Database) (w : World) (t : option WriteTxn)
  | Down (w : World)
  | Reviving (w : World).

(** A run without the two events that the code does not protect against. *)
Definition protected (evs : list event) : Prop := (EvStopReviving ∉ evs) ∧ (EvForged ∉ evs).

(** The damage a reboot did to the log of the database [p] shows. *)
Definition log_genuine (p : path) (w w1 : World) : Prop :=
  ∀ wl, wal_path_for p = Ok wl → genuine_log wl w w1.

Variables (p : path) (options : Options).

(** Operations return or are cut short; the process may also stop between
    operations.  A healthy one may open the database again at once.  Otherwise
    the next process opens it, after a reboot if it was the machine that
    stopped, and on the files as they are if the process exited or was killed.
    Two events mark what the code does not protect against: the machine stops
    while a process that replaces a killed one is still opening
    ([EvStopReviving], see [Races]), and a reboot from which the log comes back
    with damage that its checksums do not show ([EvForged]). *)
Inductive step : system → event → system → Prop :=
  | st_op o plan ev db w t db' w' t' :
      within_limits o t db → run o t (db, set_plan plan w) = (Done (ev, t'), (db', w')) →
      step (Up db w t) ev (Up db' w' t')
  | st_op_crash o plan db w t db' w' :
      within_limits o t db → run o t (db, set_plan plan w) = (Crashed, (db', w')) →
      step (Up db w t) EvCrash (Down w')
  | st_stop db w t : step (Up db w t) EvCrash (Down w)
  | st_restart plan db w t db' w' :
      db_poisoned db = false → db_open p options (set_plan plan w) = (Done (Ok db'), w') →
      step (Up db w t) EvOpen (Up db' w' None)
  | st_restart_failed plan db w t r w' :
      db_poisoned db = false → db_open p options (set_plan plan w) = (r, w') →
      (∀ db', r ≠ Done (Ok db')) →
      step (Up db w t) EvOpenFailed (Down w')
  | st_open w w1 db w' :
      reboot w w1 → log_genuine p w w1 → db_open p options w1 = (Done (Ok db), w') →
      step (Down w) EvOpen (Up db w' None)
  | st_open_failed w w1 r w' :
      reboot w w1 → log_genuine p w w1 → db_open p options w1 = (r, w') →
      (∀ db', r ≠ Done (Ok db')) →
      step (Down w) EvOpenFailed (Down w')
  | st_forged w w1 :
      reboot w w1 → ¬ log_genuine p w w1 → step (Down w) EvForged (Down w1)
  | st_revive s plan w db w' :
      s = Down w ∨ s = Reviving w → db_open p options (set_plan plan w) = (Done (Ok db), w') →
      step s EvOpen (Up db w' None)
  | st_revive_failed s plan w r w' :
      s = Down w ∨ s = Reviving w → db_open p options (set_plan plan w) = (r, w') →
      (∀ db', r ≠ Done (Ok db')) →
      step s EvOpenFailed (Reviving w')
  | st_stop_reviving w : step (Reviving w) EvStopReviving (Down w).

(** Runs and the events they produce. *)
Inductive steps : system → list event → system → Prop :=
  | steps_nil s : steps s [] s
  | steps_cons s ev s' evs s'' : step s ev s' → steps s' evs s'' → steps s (ev :: evs) s''.

Lemma steps_app s evs s' evs' s'' : steps s evs s' → steps s' evs' s'' → steps s (evs ++ evs') s''.
Proof. induction 1; simpl; [done|]. intros. econstructor; eauto. Qed.

End Concrete.

(** ** Refinement *)

Section Refinement.
Context `{Cpu} `{HashOrder}.
Variables (p wl : path) (options : Options).
Hypothesis Hwl : wal_path_for p = Ok wl.

(** The working copy a transaction stands for. *)
Definition working (A : AState) (txn : WriteTxn) : AState :=
  {| a_count := txn_page_count txn; a_pages := list_to_map (dirty txn) ∪ a_pages A |}.

Lemma working_lookup A txn id : a_pages (working A txn) !! id = txn_view A txn id.
Proof.
  simpl. rewrite lookup_union, list_to_map_bt. unfold txn_view.
  destruct (bt_get id (dirty txn)); simpl; [apply union_Some_l|apply (left_id_L None _)].
Qed.

(** Changing and adding a page. *)
Lemma working_put A txn txn' id q :
  txn_page_count txn' = txn_page_count txn →
  (∀ j, txn_view A txn' j = if decide (j = id) then Some q else txn_view A txn j) →
  put id q (working A txn) = working A txn'.
Proof.
  intros Ecnt Hview. assert (a_pages (put id q (working A txn)) = a_pages (working A txn')) as E.
  { apply map_eq. intros j. rewrite working_lookup, Hview. simpl. destruct (decide (j = id)) as [->|].
    - by rewrite lookup_insert_eq.
    - rewrite lookup_insert_ne by done. apply (working_lookup A txn j). }
  unfold put, working in *. simpl in *. by rewrite E, Ecnt.
Qed.

Lemma working_alloc A txn txn' ty :
  txn_page_count txn' = (txn_page_count txn + 1)%Z →
  (∀ j, txn_view A txn' j =
     if decide (j = txn_page_count txn) then Some (page_new (txn_page_count txn) ty)
     else txn_view A txn j) →
  alloc ty (working A txn) = working A txn'.
Proof.
  intros Ecnt Hview. assert (a_pages (alloc ty (working A txn)) = a_pages (working A txn')) as E.
  { apply map_eq. intros j. rewrite working_lookup, Hview. simpl.
    destruct (decide (j = txn_page_count txn)) as [->|].
    - by rewrite lookup_insert_eq.
    - rewrite lookup_insert_ne by done. apply (working_lookup A txn j). }
  unfold alloc, working in *. simpl in *. by rewrite E, Ecnt.
Qed.

(** A transaction that did nothing. *)
Lemma working_empty A txn : txn_rep A txn → dirty txn = [] → working A txn = A.
Proof.
  intros Ht Hd. pose proof (tr_count _ _ Ht) as Hc. unfold working. rewrite Hd. simpl.
  rewrite (left_id_L ∅ (∪)). destruct A as [n pages]. simpl in *. f_equal.
  destruct (decide (txn_page_count txn = n)); [done|].
  destruct (tr_new _ _ Ht n) as [q Hq]; [simpl; lia|]. by rewrite Hd in Hq.
Qed.

(** Committed pages are sealed already. *)
Lemma seal_committed A id q : a_wf A → a_pages A !! id = Some q → seal q = q.
Proof.
  intros HA Hq. destruct (a_pages_ok _ HA _ _ Hq) as [Hw [h Hh]].
  apply verify_ok_iff in Hh as [Hc _]; [|done]. by apply seal_id.
Qed.

Lemma sealed_working A txn : a_wf A → sealed (working A txn) = txn_state A txn.
Proof.
  intros HA. unfold sealed, txn_state. f_equal. apply map_eq. intros id.
  rewrite lookup_fmap, working_lookup. pose proof (txn_state_lookup A txn id) as E. simpl in E.
  rewrite E. unfold txn_view. destruct (bt_get id (dirty txn)); [done|].
  destruct (a_pages A !! id) as [q|] eqn:Eq; simpl; [|done]. by rewrite (seal_committed A id).
Qed.

Lemma sealable_working A txn : a_wf A → txn_rep A txn → sealable (working A txn) ↔ txn_valid txn.
Proof.
  intros HA Htxn. split.
  - intros Hs id q Hin%bt_elem_get; [|apply Htxn]. apply Hs. rewrite working_lookup.
    unfold txn_view. by rewrite Hin.
  - intros Hv id q. rewrite working_lookup. unfold txn_view.
    destruct (bt_get id (dirty txn)) as [q'|] eqn:Eg.
    + intros [= ->]. by apply Hv, bt_get_elem.
    + intros Hq. rewrite (seal_committed A id q) by done.
      by destruct (a_pages_ok _ HA _ _ Hq) as [_ [h ->]].
Qed.

(** A transaction and the working copy it stands for. *)
Definition txn_rel (A : AState) (t : option WriteTxn) (V : option AState) : Prop :=
  match t, V with
  | None, None => True
  | Some txn, Some V => txn_rep A txn ∧ V = working A txn
  | _, _ => False
  end.

Definition on_files (db : Database) : Prop :=
  dm_file (db_disk db) = p ∧ wal_file (db_wal db) = wl.

(** What the implementation represents. *)
Inductive represents : system → spec → Prop :=
  | rep_up db w t A V :
      db_inv A db w → on_files db → txn_rel A t V → represents (Up db w t) (SUp A V)
  | rep_halted db w P :
      db_poisoned db = true → recovers_checked (λ A, A ∈ P) p wl w → represents (Up db w None) (SHalted P)
  | rep_down w P : recovers_checked (λ A, A ∈ P) p wl w → represents (Down w) (SDown P)
  | rep_reviving w P : restartable (λ A, A ∈ P) p wl w → represents (Reviving w) (SDown P)
  | rep_lost s : represents s SLost.

Lemma same_but_pool_files db db' : same_but_pool db db' → on_files db → on_files db'.
Proof. by intros (pl & _ & ->). Qed.

Lemma same_paths_files db db' : same_paths db db' → on_files db → on_files db'.
Proof. intros [E1 E2] [? ?]. split; congruence. Qed.

Lemma recovers_one A w : recovers (λ A', A' = A) p wl w → recovers_checked (λ A', A' ∈ [A]) p wl w.
Proof. apply recovers_weaken. intros ? ->. constructor. Qed.

Lemma recovers_two A B w :
  recovers_checked (λ A', A' = A ∨ A' = B) p wl w → recovers_checked (λ A', A' ∈ [A; B]) p wl w.
Proof. apply recovers_checked_mono. intros ? [->| ->]; repeat constructor. Qed.

Lemma restartable_one A w : restartable (λ A', A' = A) p wl w → restartable (λ A', A' ∈ [A]) p wl w.
Proof.
  intros (f & fw & X & first & rs & ? & ? & ? & -> & ?).
  exists f, fw, A, first, rs. split_and!; try done. constructor.
Qed.

(** A crash outside [commit] keeps the committed state. *)
Lemma crash_represents A V db w s :
  on_files db → crash_in A db w s →
  ∃ σ', spec_step (SUp A V) EvCrash σ' ∧ represents (Down s.2) σ'.
Proof.
  intros [E1 E2] [_ Hr]. rewrite E1, E2 in Hr. exists (SDown [A]).
  split; [constructor|]. by constructor; apply recovers_one.
Qed.

Definition sim_post (σ : spec) (x : event * option WriteTxn) (s : Database * World) : Prop :=
  ∃ σ', spec_step σ x.1 σ' ∧ represents (Up s.1 s.2 x.2) σ'.

Definition sim_crash (σ : spec) (s : Database * World) : Prop :=
  ∃ σ', spec_step σ EvCrash σ' ∧ represents (Down s.2) σ'.

Lemma wp_run_read A V t db w id :
  db_inv A db w → on_files db → txn_rel A t V → (0 ≤ id)%Z →
  wp (run (OpRead id) t) (sim_post (SUp A V)) (sim_crash (SUp A V)) (db, w).
Proof.
  intros Hinv Hon Ht Hid. simpl. wp_step. wp_step. unfold begin_read, db_check_poisoned. wp_step.
  simpl fst. rewrite (proj1 Hinv). eapply wp_mono; [by apply (ps_read_txn_read_page (A := A))| |].
  - intros r s (Hinv' & Hsame & _ & Hr). wp_step. exists (SUp A V).
    destruct r; (split; [by constructor|]); constructor; eauto using same_but_pool_files.
  - intros s Hc. by eapply crash_represents.
Qed.

Lemma wp_run_txn_read A txn db w id :
  db_inv A db w → on_files db → txn_rep A txn → (0 ≤ id)%Z →
  let σ := SUp A (Some (working A txn)) in
  wp (run (OpTxnRead id) (Some txn)) (sim_post σ) (sim_crash σ) (db, w).
Proof.
  intros Hinv Hon Ht Hid σ. simpl. wp_step.
  eapply wp_mono; [by apply (ps_write_txn_read_page (A := A))| |].
  - intros r s (Hinv' & Hsame & _ & Hr). wp_step. exists σ.
    destruct r; (split; [constructor; by rewrite ?working_lookup|]);
      constructor; eauto using same_but_pool_files; by split.
  - intros s Hc. by eapply crash_represents.
Qed.

Lemma wp_run_put A txn db w id change :
  db_inv A db w → on_files db → txn_rep A txn → (0 ≤ id)%Z →
  (∀ q, page_wf q → page_wf (change q)) →
  let σ := SUp A (Some (working A txn)) in
  wp (run (OpPut id change) (Some txn)) (sim_post σ) (sim_crash σ) (db, w).
Proof.
  intros Hinv Hon Ht Hid Hch σ. simpl. wp_step.
  eapply wp_mono; [by apply (ps_page_mut (A := A))| |].
  - intros [txn'|e] s (Hinv' & Hsame & _ & Hr); wp_step.
    + destruct Hr as (Ht' & Ecnt & q & Hq & Hview).
      exists (SUp A (Some (put id (change q) (working A txn)))).
      split; [constructor; by rewrite working_lookup|].
      constructor; eauto using same_but_pool_files. split; [done|]. by apply working_put.
    + exists σ. split; [constructor|]. constructor; eauto using same_but_pool_files. by split.
  - intros s Hc. by eapply crash_represents.
Qed.

Lemma wp_run_alloc A txn db w ty :
  db_inv A db w → on_files db → txn_rep A txn → (txn_page_count txn < 2 ^ 52)%Z →
  let σ := SUp A (Some (working A txn)) in
  wp (run (OpAlloc ty) (Some txn)) (sim_post σ) (sim_crash σ) (db, w).
Proof.
  intros Hinv Hon Ht Hlt σ. destruct (db_inv_count _ _ _ Hinv) as [_ HA].
  destruct (allocate_page_spec A txn ty HA Ht Hlt) as (Ht' & Eid & Ecnt & _ & Hview).
  cbn [run]. destruct (allocate_page ty txn) as [id txn']. simpl in *. wp_step.
  exists (SUp A (Some (alloc ty (working A txn)))). subst id. split; [constructor|].
  constructor; try done. split; [done|]. by apply working_alloc.
Qed.

Lemma wp_run_commit A txn db w :
  db_inv A db w → on_files db → txn_rep A txn → commit_room db txn →
  let σ := SUp A (Some (working A txn)) in
  wp (run OpCommit (Some txn)) (sim_post σ) (sim_crash σ) (db, w).
Proof.
  intros Hinv Hon Ht Hroom σ. destruct (db_inv_count _ _ _ Hinv) as [_ HA].
  pose proof (sealed_working A txn HA) as Es. pose proof (sealable_working A txn HA Ht) as Hs.
  pose proof Hon as [E1 E2].
  simpl. wp_step. eapply wp_mono; [by apply (wp_commit A)| |].
  - intros [[]|e] [db' w'] [Hp Hr]; wp_step; unfold halted in Hr; rewrite E1, E2 in Hr; simpl in Hr.
    + destruct Hr as [Hv [Hinv'|(_ & Hpo & Hr)]].
      * exists (SUp (txn_state A txn) None). rewrite <- Es at 1. split; [constructor; tauto|].
        constructor; [done|by eapply same_paths_files|done].
      * exists (SHalted [txn_state A txn]). rewrite <- Es at 1. split; [constructor; tauto|].
        constructor; [done|by apply recovers_one].
    + destruct Hr as [(_ & Hv & [= -> ->])|(_ & Hpo & Hr)].
      * exists (SUp A None). split; [constructor; tauto|]. by constructor.
      * exists (SHalted [A; txn_state A txn]). rewrite <- Es at 1. split; [constructor|].
        constructor; [done|by apply recovers_two].
  - intros [db' w'] [_ Hr]. rewrite E1, E2 in Hr. exists (SDown [A; txn_state A txn]).
    rewrite <- Es at 1. split; [constructor|]. constructor. by apply recovers_two.
Qed.

Lemma wp_run_checkpoint A db w :
  db_inv A db w → on_files db →
  wp (run OpCheckpoint None) (sim_post (SUp A None)) (sim_crash (SUp A None)) (db, w).
Proof.
  intros Hinv Hon. pose proof Hinv as (Hpo & f & fw & first & rs & Hfs & Hdb).
  simpl. wp_step. unfold checkpoint, db_check_poisoned. wp_step. wp_step. simpl fst. rewrite Hpo.
  eapply wp_mono; [by eapply (wp_checkpoint_locked A)| |].
  - intros [[]|e] [db' w'] [Hp Hr]; wp_step.
    + destruct Hr as (_ & Epo & _ & f' & fw' & first' & Hfs' & Hdb').
      exists (SUp A None). split; [constructor|]. constructor; [|by eapply same_paths_files|done].
      split; [simpl in *; congruence|]. by exists f', fw', first', [].
    + destruct Hr as (_ & Hpo' & Hr). destruct Hon as [E1 E2]. simpl in Hr. rewrite E1, E2 in Hr.
      exists (SHalted [A]). split; [constructor|]. constructor; [done|by apply recovers_one].
  - intros s Hc. by eapply crash_represents.
Qed.

(** Every operation of a healthy database does what the machine does. *)
Lemma wp_run_up A V o t db w :
  db_inv A db w → on_files db → txn_rel A t V → within_limits o t db →
  wp (run o t) (sim_post (SUp A V)) (sim_crash (SUp A V)) (db, w).
Proof.
  intros Hinv Hon Ht Hl. destruct (db_inv_count _ _ _ Hinv) as [_ HA].
  assert (sim_post (SUp A V) (EvRefused, t) (db, w)) as Hno.
  { exists (SUp A V). split; [constructor|]. by constructor. }
  destruct t as [txn|], V as [V|]; try done.
  - destruct Ht as [Ht ->]. destruct o.
    + by simpl; wp_step.
    + by eapply wp_run_read.
    + by apply wp_run_txn_read.
    + destruct Hl. by apply wp_run_put.
    + by apply wp_run_alloc.
    + simpl. unfold rollback. wp_step. wp_step. wp_step. exists (SUp A None). split; constructor; done.
    + by apply wp_run_commit.
    + by simpl; wp_step.
  - destruct o; try (by simpl; wp_step).
    + simpl. unfold wp, bind. rewrite (wp_begin_write A) by done. simpl.
      exists (SUp A (Some A)). split; [constructor|]. constructor; try done.
      split; [by apply txn_rep_empty|]. unfold working. simpl. rewrite (left_id_L ∅ (∪)).
      by destruct A.
    + by eapply wp_run_read.
    + by apply wp_run_checkpoint.
Qed.

(** A halted database refuses. *)
Lemma wp_run_halted P o db w :
  db_poisoned db = true → recovers_checked (λ A, A ∈ P) p wl w →
  wp (run o None) (sim_post (SHalted P)) (sim_crash (SHalted P)) (db, w).
Proof.
  intros Hpo Hr. destruct (poisoned_refuses db w Hpo) as ([e1 E1] & [e2 E2] & [e3 E3]).
  assert (∀ ev, ev = EvRefused ∨ ev = EvCheckpointFailed → sim_post (SHalted P) (ev, None) (db, w)) as Hno.
  { intros ev Hev. exists (SHalted P). split; [by constructor|]. by constructor. }
  destruct o; simpl; try (wp_step; by apply Hno; auto).
  - unfold wp, bind. rewrite E2. by apply Hno; auto.
  - unfold wp, bind, bind_ok, bind. rewrite E1. by apply Hno; auto.
  - unfold wp, bind. rewrite E3. by apply Hno; auto.
Qed.

(** The state a reboot finds. *)
Lemma recovers_reboot P w w1 :
  recovers P p wl w → reboot w w1 → ∃ A b bw first rs, P A ∧
    reopenable A (file_at_rest b) bw first rs ∧
    w_files w1 !! p = Some (file_at_rest b) ∧ w_files w1 !! wl = Some (file_at_rest bw).
Proof.
  intros (f & fw & Hf & Hfw & Hew & _ & Hc) Hre.
  destruct (reboot_file _ _ _ _ Hre Hfw Hew) as (bw & Hbw & Hbw1).
  destruct (Hc bw Hbw) as (A & first & rs & HP & Hro).
  destruct (reboot_file _ _ _ _ Hre Hf (ro_entry _ _ _ _ _ Hro)) as (b & Hb & Hb1).
  exists A, b, bw, first, rs. eauto using reopenable_crash.
Qed.

Lemma recovers_checked_reboot P w w1 :
  recovers_checked P p wl w → reboot w w1 → genuine_log wl w w1 → ∃ A b bw first rs, P A ∧
    reopenable A (file_at_rest b) bw first rs ∧
    w_files w1 !! p = Some (file_at_rest b) ∧ w_files w1 !! wl = Some (file_at_rest bw).
Proof.
  intros (f & fw & Hf & Hfw & Hew & _ & Hc) Hre Hg.
  destruct (reboot_file _ _ _ _ Hre Hfw Hew) as (bw & Hbw & Hbw1).
  destruct (Hc bw Hbw (Hg _ _ Hfw Hbw1)) as (A & first & rs & HP & Hro).
  destruct (reboot_file _ _ _ _ Hre Hf (ro_entry _ _ _ _ _ Hro)) as (b & Hb & Hb1).
  exists A, b, bw, first, rs. eauto using reopenable_crash.
Qed.

(** The state a process that exits leaves. *)
Lemma db_inv_reopenable A db w :
  db_inv A db w → on_files db → ∃ f bw first rs, reopenable A f bw first rs ∧
    w_files w !! p = Some f ∧ w_files w !! wl = Some (file_at_rest bw).
Proof.
  intros (_ & f & fw & first & rs & [Hf Hfw] & Hdb) [E1 E2]. rewrite E1 in Hf. rewrite E2 in Hfw.
  pose proof (dp_durable _ _ _ _ _ _ Hdb) as Hdu. exists f, (f_cur fw), first, rs.
  split; [by apply reopenable_durable|]. split; [done|].
  rewrite <- (log_file_at_rest fw first rs); [done|apply Hdu..].
Qed.

(** Opening: the database is up in the state the files held, or can be tried
    again. *)
Lemma open_simulates A f bw first rs w r w' :
  reopenable A f bw first rs → w_files w !! p = Some f → w_files w !! wl = Some (file_at_rest bw) →
  db_open p options w = (r, w') →
  match r with
  | Done (Ok db) => represents (Up db w' None) (SUp A None)
  | _ => represents (Down w') (SDown [A])
  end.
Proof.
  intros Hro Hf Hfw E. pose proof (wp_db_open A p wl options f bw first rs w Hwl Hro Hf Hfw) as Hw.
  unfold wp in Hw. rewrite E in Hw. destruct r as [[db|e]| |].
  - destruct Hw as [(Hinv & ? & ?) _]. by constructor.
  - destruct Hw as [_ Hr]. constructor. by apply recovers_one.
  - done.
  - destruct Hw as [_ Hr]. constructor. by apply recovers_one.
Qed.

(** The same without a reboot. *)
Lemma represents_restartable s w σ :
  represents s σ → σ ≠ SLost → s = Down w ∨ s = Reviving w →
  ∃ P, σ = SDown P ∧ restartable (λ A, A ∈ P) p wl w.
Proof.
  intros Hrep Hl [->| ->]; inversion Hrep; subst; try done; eauto using recovers_restartable.
Qed.

Lemma run_simulates o t db w σ :
  represents (Up db w t) σ → σ ≠ SLost → within_limits o t db →
  wp (run o t) (sim_post σ) (sim_crash σ) (db, w).
Proof.
  intros Hrep Hσ Hl. inversion Hrep as [? ? ? A V Hinv Hon Ht|? ? P Hpo Hr| | |]; subst.
  - by apply wp_run_up.
  - by apply wp_run_halted.
  - done.
Qed.

Lemma represents_plan db w t σ plan :
  represents (Up db w t) σ → represents (Up db (set_plan plan w) t) σ.
Proof. intros Hrep. inversion Hrep; subst; by constructor. Qed.

(** The three ways to open: at once, after a reboot, after a kill. *)
Definition opens_as (σ : spec) (s_ok : Database → system) (s_err : system) (r : exec (Result Database)) : Prop :=
  match r with
  | Done (Ok db) => ∃ σ', spec_step σ EvOpen σ' ∧ represents (s_ok db) σ'
  | _ => ∃ σ', spec_step σ EvOpenFailed σ' ∧ represents s_err σ'
  end.

Lemma restart_simulates σ plan db w t r w' :
  represents (Up db w t) σ → σ ≠ SLost → db_poisoned db = false →
  db_open p options (set_plan plan w) = (r, w') →
  opens_as σ (λ db', Up db' w' None) (Down w') r.
Proof.
  intros Hrep Hσ Hpo E. inversion Hrep as [? ? ? A V Hinv Hon Ht|? ? P Hpo' Hr| | |]; subst; [|congruence..].
  destruct (db_inv_reopenable _ _ _ Hinv Hon) as (f & bw & first & rs & Hro & Hf & Hfw).
  pose proof (open_simulates _ _ _ _ _ (set_plan plan w) _ _ Hro Hf Hfw E) as Hs.
  unfold opens_as. destruct r as [[]| |]; eauto using sp_restart, sp_restart_failed.
Qed.

Lemma reboot_simulates σ w w1 r w' :
  represents (Down w) σ → σ ≠ SLost → reboot w w1 → log_genuine p w w1 → db_open p options w1 = (r, w') →
  opens_as σ (λ db', Up db' w' None) (Down w') r.
Proof.
  intros Hrep Hσ Hre Hg E. inversion Hrep as [| |? P Hr| |]; subst; [|done].
  destruct (recovers_checked_reboot _ _ _ Hr Hre (Hg _ Hwl))
    as (A & b & bw & first & rs & HP & Hro & Hf & Hfw).
  pose proof (open_simulates _ _ _ _ _ _ _ _ Hro Hf Hfw E) as Hs.
  unfold opens_as. destruct r as [[]| |]; eauto using sp_open, sp_open_failed.
Qed.

Lemma revive_simulates σ s plan w r w' :
  represents s σ → σ ≠ SLost → s = Down w ∨ s = Reviving w →
  db_open p options (set_plan plan w) = (r, w') →
  opens_as σ (λ db', Up db' w' None) (Reviving w') r.
Proof.
  intros Hrep Hσ Hs E. destruct (represents_restartable _ _ _ Hrep Hσ Hs) as (P & -> & Hr).
  apply (restart_open (λ A, A ∈ P) p wl) in E as (A & HA & HE); [|done|exact Hr].
  unfold opens_as. destruct r as [[db|e]| |].
  - destruct HE as (Hinv & ? & ?). exists (SUp A None). by split; constructor.
  - exists (SDown [A]). split; [by econstructor|]. constructor. apply restartable_one, HE.
  - done.
  - exists (SDown [A]). split; [by econstructor|]. constructor. apply restartable_one, HE.
Qed.

Lemma step_simulates s ev s' σ :
  represents s σ → step p options s ev s' →
  ∃ σ', spec_step σ ev σ' ∧ represents s' σ'.
Proof.
  intros Hrep Hst. assert (σ = SLost ∨ σ ≠ SLost) as [->|Hσ] by (destruct σ; auto).
  { exists SLost. split; constructor. }
  inversion Hst as [o plan ? db w t db' w' t' Hl E|o plan db w t db' w' Hl E|db w t
    |plan db w t db' w' Hpo E|plan db w t r w' Hpo E Hr|w w1 db w' Hre Hg E|w w1 r w' Hre Hg E Hr|w w1 Hre Hg
    |? plan w db w' Hs E|? plan w r w' Hs E Hr|w]; subst.
  - apply (represents_plan _ _ _ _ plan) in Hrep.
    exact (wp_Done _ _ _ _ _ _ (run_simulates _ _ _ _ _ Hrep Hσ Hl) E).
  - apply (represents_plan _ _ _ _ plan) in Hrep.
    exact (wp_Crashed _ _ _ _ _ (run_simulates _ _ _ _ _ Hrep Hσ Hl) E).
  - inversion Hrep as [? ? ? A V Hinv [E1 E2] Ht|? ? P Hpo Hr| | |]; subst; [..|done].
    + exists (SDown [A]). split; [constructor|]. constructor.
      apply recovers_one. apply db_inv_recovers in Hinv. by rewrite E1, E2 in Hinv.
    + exists (SDown P). split; [constructor|]. by constructor.
  - exact (restart_simulates _ _ _ _ _ _ _ Hrep Hσ Hpo E).
  - pose proof (restart_simulates _ _ _ _ _ _ _ Hrep Hσ Hpo E). destruct r as [[]| |]; naive_solver.
  - exact (reboot_simulates _ _ _ _ _ Hrep Hσ Hre Hg E).
  - pose proof (reboot_simulates _ _ _ _ _ Hrep Hσ Hre Hg E). destruct r as [[]| |]; naive_solver.
  - exists SLost. inversion Hrep; subst; [|done]. split; constructor.
  - exact (revive_simulates _ _ _ _ _ _ Hrep Hσ Hs E).
  - pose proof (revive_simulates _ _ _ _ _ _ Hrep Hσ Hs E). destruct r as [[]| |]; naive_solver.
  - exists SLost. inversion Hrep; subst; [|done]. split; constructor.
Qed.

(** The machine promises nothing only after one of the two events. *)
Lemma spec_lost σ evs :
  spec_steps σ evs SLost → σ ≠ SLost → EvStopReviving ∈ evs ∨ EvForged ∈ evs.
Proof.
  intros Hst. remember SLost as σ' eqn:Eσ in Hst.
  induction Hst as [|σ ev σ1 evs σ2 Hs _ IH]; intros Hne; [done|].
  rewrite !elem_of_cons. destruct Hs; auto; try (by destruct Hne);
    (specialize (IH Eσ ltac:(discriminate)); tauto).
Qed.

Lemma steps_simulate s evs s' σ :
  steps p options s evs s' → represents s σ →
  ∃ σ', spec_steps σ evs σ' ∧ represents s' σ'.
Proof.
  intros Hst. revert σ. induction Hst as [s|s ev s1 evs s2 Hs _ IH]; intros σ Hrep.
  - exists σ. by split; [constructor|].
  - destruct (step_simulates _ _ _ _ Hrep Hs) as (σ1 & Hσ1 & Hrep1).
    destruct (IH _ Hrep1) as (σ2 & Hσ2 & Hrep2). exists σ2. split; [by econstructor|done].
Qed.

(** A newly created database. *)
Lemma created_represents w db w' :
  w_files w !! p = None → w_files w !! wl = None → io_ok w → create_if_missing options = true →
  db_open p options w = (Done (Ok db), w') → represents (Up db w' None) (SUp empty_state None).
Proof.
  intros Hp Hw Hio Hc E.
  destruct (wp_Done _ _ _ _ _ _ (wp_db_open_new p wl options w Hwl Hp Hw Hio Hc) E)
    as [(Hinv & ? & ?) _]. by constructor.
Qed.

End Refinement.
