(* ===== verification/Threads.v ===== *)
(** * Threads of one process (src/crates/oxendb/src/db/mod.rs, db/txn.rs)

    The database of [Database] is shared by threads.  The WAL mutex is held by
    a write transaction or a checkpoint from start to end, and the publish
    lock by readers (shared) and by the publication of a commit (exclusive).
    Here the calls of the library are cut at every point where another thread
    can get in between: where a lock is taken or released, around every access
    to the buffer pool, and around every system call of a checkpoint.  [tstep]
    is what a thread does between two such points. *)

From S2P Require Import Prelude Errors BTree Checksum Page FileHeader FileSys Disk WalRecord.
From S2P Require Import WalLog Recovery BufferPool PoolCache Database DbState Checkpoint.
From S2P Require Import Commit Reopen Restart Transactions System.

Abbreviation tid := nat (only parsing).

(** [wal: Mutex<Wal>] and [publish: RwLock<()>]. *)
Record Locks : Type := {
  wal_lock : option tid;
  publish_readers : list tid;
  publish_writer : option tid;
}.

Definition unlocked : Locks := {| wal_lock := None; publish_readers := []; publish_writer := None |}.

Definition set_wal_lock v (l : Locks) : Locks :=
  {| wal_lock := v; publish_readers := publish_readers l; publish_writer := publish_writer l |}.
Definition set_publish_readers v (l : Locks) : Locks :=
  {| wal_lock := wal_lock l; publish_readers := v; publish_writer := publish_writer l |}.
Definition set_publish_writer v (l : Locks) : Locks :=
  {| wal_lock := wal_lock l; publish_readers := publish_readers l; publish_writer := v |}.

(** What a thread reports. *)
Inductive tevent : Type :=
  | TvTau
  | TvRefused
  | TvBeginRead
  | TvRead (id : PageId) (p : Page)
  | TvEndRead
  | TvBegin
  | TvTxnRead (id : PageId) (p : Page)
  | TvPut (id : PageId) (change : Page → Page)
  | TvAlloc (id : PageId) (t : PageType)
  | TvRollback
  | TvCommitStart
  | TvLogged
  | TvCommit
  | TvPublished
  | TvCommitted
  | TvCommitFailed
  | TvCheckpointStart
  | TvCheckpoint
  | TvCheckpointFailed
  | TvFailure.

(** Where a thread is. *)
Inductive thread : Type :=
  (** outside the library, no transaction *)
  | Idle
  (** [ReadTxn::new], past the check; then an open transaction, and one
      inside [read_page] with a page pinned and with the page seen *)
  | ReadWaiting
  | ReadOpen
  | ReadPinned (h : PageHandle)
  | ReadSeen (h : PageHandle)
  (** [WriteTxn::new], past the first check and with the lock; then an open
      transaction *)
  | WriteWaiting
  | WriteLocked
  | WriteOpen (txn : WriteTxn)
  (** [commit], with the pages sealed; with the records logged; inside
      [publish]; after it *)
  | Logging (txn : WriteTxn) (pages : list (PageId * Page))
  | PublishWaiting (count : Z) (images : list WalRecord)
  | Publishing (images : list WalRecord)
  | Published
  (** [checkpoint], past the check; then [write_checkpoint], called by
      [checkpoint] ([own = true]) or by [commit]: the shards and the pages of
      a shard still to flush, and the steps after that *)
  | CheckpointWaiting
  | Flushing (own : bool) (todo : list nat)
  | FlushingShard (own : bool) (todo : list nat) (i : nat) (ids : list PageId)
  | WritingHeader (own : bool)
  | SyncingHeader (own : bool)
  | ResettingLog (own : bool)
  (** about to poison the database and report [ev] *)
  | Failing (ev : tevent).

(** What a thread is asked to do: a call of its client, or going on inside
    one. *)
Inductive action : Type :=
  | ABeginRead
  | AFetch (id : PageId)
  | AEndRead
  | ABeginWrite
  | ATxnRead (id : PageId)
  | APut (id : PageId) (change : Page → Page)
  | AAlloc (t : PageType)
  | ARollback
  | ACommit
  | ACheckpoint
  | AGo.

Section Steps.
Context `{Cpu} `{HashOrder}.

(** The state the threads share. *)
Record Shared : Type := {
  sh_db : Database;
  sh_world : World;
  sh_locks : Locks;
}.

Definition on_db {A} (m : M (Database * World) A) : M Shared A :=
  zoom (λ s, (sh_db s, sh_world s))
       (λ t s, {| sh_db := t.1; sh_world := t.2; sh_locks := sh_locks s |}) m.

Definition set_locks (f : Locks → Locks) : M Shared unit :=
  modify (λ s, {| sh_db := sh_db s; sh_world := sh_world s; sh_locks := f (sh_locks s) |}).

(** A result of a step: an event and where the thread is now; [None] if the
    thread must wait. *)
Definition outcome : Type := option (tevent * thread).

Definition goes (ev : tevent) (pc : thread) : M Shared outcome := ret (Some (ev, pc)).

Definition blocked : M Shared outcome := ret None.

(** The guards: taking the WAL lock, waiting for it if necessary, and
    dropping it. *)
Definition lock_wal (t : tid) (k : M Shared outcome) : M Shared outcome :=
  let! holder := gets (λ s, wal_lock (sh_locks s)) in
  match holder with
  | None =>
      let! _ := set_locks (set_wal_lock (Some t)) in
      k
  | Some _ => blocked
  end.

Definition unlock_wal (ev : tevent) : M Shared outcome :=
  let! _ := set_locks (set_wal_lock None) in
  goes ev Idle.

(** [publish.read()] and [publish.write()], and dropping the guards. *)
Definition lock_publish_read (t : tid) (k : M Shared outcome) : M Shared outcome :=
  let! writer := gets (λ s, publish_writer (sh_locks s)) in
  match writer with
  | None =>
      let! _ := set_locks (λ l, set_publish_readers (t :: publish_readers l) l) in
      k
  | Some _ => blocked
  end.

Definition unlock_publish_read (t : tid) : M Shared unit :=
  set_locks (λ l, set_publish_readers (filter (λ u, u ≠ t) (publish_readers l)) l).

Definition lock_publish_write (t : tid) (k : M Shared outcome) : M Shared outcome :=
  let! locks := gets sh_locks in
  match publish_readers locks, publish_writer locks with
  | [], None =>
      let! _ := set_locks (set_publish_writer (Some t)) in
      k
  | _, _ => blocked
  end.

Definition unlock_publish_write : M Shared unit := set_locks (set_publish_writer None).

(** What [write_checkpoint] and its caller return. *)
Definition checkpoint_done (own : bool) : tevent := if own then TvCheckpoint else TvCommitted.

Definition checkpoint_failed (own : bool) : tevent :=
  if own then TvCheckpointFailed else TvCommitted.

(** The shards [flush_all] visits. *)
Definition all_shards : M Shared (list nat) :=
  gets (λ s, List.seq 0 (length (shards (db_pool (sh_db s))))).

(** [commit] up to the point where the pages are sealed and checked. *)
Definition commit_seal (txn : WriteTxn) : M Shared outcome :=
  if decide (dirty txn = []) then unlock_wal TvCommitted
  else
    match seal_dirty (dirty txn) with
    | Err _ => unlock_wal TvCommitFailed
    | Ok pages => goes TvCommitStart (Logging txn pages)
    end.

(** From there to the point where the records are durable. *)
Definition commit_log (txn : WriteTxn) (pages : list (PageId * Page)) : M Shared outcome :=
  let! id := on_db next_txn_id in
  let! count := on_db db_page_count in
  let grew := (count <? txn_page_count txn)%Z in
  let images := commit_images id grew (txn_page_count txn) pages in
  let! logged := on_db (log id images) in
  match logged with
  | Err _ => goes TvFailure (Failing TvCommitFailed)
  | Ok _ => goes TvLogged (PublishWaiting (txn_page_count txn) images)
  end.

(** [publish] once it has the lock: the page count, then the pages one by
    one, then the guard is dropped. *)
Definition publish_count (count : Z) (images : list WalRecord) : M Shared outcome :=
  let! d := gets (λ s, db_disk (sh_db s)) in
  let '(r, d) := set_page_count count d in
  let! _ := on_db (modify (λ s, (set_db_disk d s.1, s.2))) in
  match r with
  | Ok _ => goes TvCommit (Publishing images)
  | Err _ =>
      let! _ := unlock_publish_write in
      goes TvFailure (Failing TvCommitFailed)
  end.

Definition publish_image (r : WalRecord) (images : list WalRecord) : M Shared outcome :=
  let! d := gets (λ s, db_disk (sh_db s)) in
  let! installed := on_db (install_image d r) in
  match installed with
  | Ok _ => goes TvTau (Publishing images)
  | Err _ =>
      let! _ := unlock_publish_write in
      goes TvFailure (Failing TvCommitFailed)
  end.

(** [maybe_auto_checkpoint]. *)
Definition after_publish : M Shared outcome :=
  let! limit := gets (λ s, db_auto_checkpoint_bytes (sh_db s)) in
  let! len := gets (λ s, durable_len (db_wal (sh_db s))) in
  let! all := all_shards in
  match limit with
  | Some limit => if (limit <=? len)%Z then goes TvTau (Flushing false all) else unlock_wal TvCommitted
  | None => unlock_wal TvCommitted
  end.

(** A system call of a checkpoint, after which it goes on at [pc]. *)
Definition checkpoint_io (own : bool) (m : DiskManager → M (Database * World) (Result unit))
    (pc : thread) : M Shared outcome :=
  let! d := gets (λ s, db_disk (sh_db s)) in
  let! r := on_db (m d) in
  match r with
  | Ok _ => goes TvTau pc
  | Err _ => goes TvFailure (Failing (checkpoint_failed own))
  end.

(** The last call of [flush_all]. *)
Definition flush_sync (d : DiskManager) : M (Database * World) (Result unit) :=
  let! n := gets (λ s, length (shards (db_pool s.1))) in
  if decide (n = 0) then ret (Ok tt) else with_world (disk_sync d).

(** [flush_cached]: the list of pages of one shard. *)
Definition list_shard (own : bool) (todo : list nat) (i : nat) : M Shared outcome :=
  let! ids := on_db (with_pool (on_shard i (with_state (gets (λ s, hash_keys (page_table s)))))) in
  goes TvTau (FlushingShard own todo i ids).

(** A transaction's view of a page, and [page_mut]. *)
Definition txn_read (txn : WriteTxn) (id : PageId) : M Shared outcome :=
  let! r := on_db (write_txn_read_page id txn) in
  match r with
  | Ok p => goes (TvTxnRead id p) (WriteOpen txn)
  | Err _ => goes TvRefused (WriteOpen txn)
  end.

Definition txn_put (txn : WriteTxn) (id : PageId) (change : Page → Page) : M Shared outcome :=
  let! r := on_db (page_mut id change txn) in
  match r with
  | Ok txn => goes (TvPut id change) (WriteOpen txn)
  | Err _ => goes TvRefused (WriteOpen txn)
  end.

(** [ReadTxn::read_page] up to the pinned page. *)
Definition read_fetch (id : PageId) : M Shared outcome :=
  let! count := on_db read_txn_page_count in
  match txn_check_data_page id count with
  | Err _ => goes TvRefused ReadOpen
  | Ok _ =>
      let! d := gets (λ s, db_disk (sh_db s)) in
      let! r := on_db (with_pool (pool_fetch_page id d)) in
      match r with
      | Ok h => goes TvTau (ReadPinned h)
      | Err _ => goes TvRefused ReadOpen
      end
  end.

(** A call that starts with [check_poisoned]. *)
Definition checked (ok bad : M Shared outcome) : M Shared outcome :=
  let! r := on_db db_check_poisoned in
  match r with
  | Ok _ => ok
  | Err _ => bad
  end.

(** One step of thread [t]. *)
Definition tstep (t : tid) (pc : thread) (a : action) : M Shared outcome :=
  match pc, a with
  | Idle, ABeginRead => checked (goes TvTau ReadWaiting) (goes TvRefused Idle)
  | ReadWaiting, AGo => lock_publish_read t (goes TvBeginRead ReadOpen)
  | ReadOpen, AFetch id => read_fetch id
  | ReadPinned h, AGo =>
      let! p := on_db (with_pool (shard_for (handle_page h) (handle_read h))) in
      goes (TvRead (handle_page h) p) (ReadSeen h)
  | ReadSeen h, AGo =>
      let! _ := on_db (with_pool (shard_for (handle_page h) (handle_drop h))) in
      goes TvTau ReadOpen
  | ReadOpen, AEndRead =>
      let! _ := unlock_publish_read t in
      goes TvEndRead Idle
  | Idle, ABeginWrite => checked (goes TvTau WriteWaiting) (goes TvRefused Idle)
  | WriteWaiting, AGo => lock_wal t (goes TvTau WriteLocked)
  | WriteLocked, AGo =>
      checked (let! count := on_db db_page_count in
               goes TvBegin (WriteOpen {| dirty := []; txn_page_count := count |}))
              (unlock_wal TvRefused)
  | WriteOpen txn, ATxnRead id => txn_read txn id
  | WriteOpen txn, APut id change => txn_put txn id change
  | WriteOpen txn, AAlloc ty =>
      let '(id, txn) := allocate_page ty txn in
      goes (TvAlloc id ty) (WriteOpen txn)
  | WriteOpen txn, ARollback => unlock_wal TvRollback
  | WriteOpen txn, ACommit => commit_seal txn
  | Logging txn pages, AGo => commit_log txn pages
  | PublishWaiting count images, AGo => lock_publish_write t (publish_count count images)
  | Publishing [], AGo =>
      let! _ := unlock_publish_write in
      goes TvPublished Published
  | Publishing (r :: images), AGo => publish_image r images
  | Published, AGo => after_publish
  | Idle, ACheckpoint => checked (goes TvTau CheckpointWaiting) (goes TvRefused Idle)
  | CheckpointWaiting, AGo =>
      lock_wal t (let! all := all_shards in goes TvCheckpointStart (Flushing true all))
  | Flushing own (i :: todo), AGo => list_shard own todo i
  | FlushingShard own todo i (id :: ids), AGo =>
      checkpoint_io own (λ d, with_pool (on_shard i (shard_flush_page id d)))
        (FlushingShard own todo i ids)
  | FlushingShard own todo i [], AGo => goes TvTau (Flushing own todo)
  | Flushing own [], AGo => checkpoint_io own flush_sync (WritingHeader own)
  | WritingHeader own, AGo =>
      checkpoint_io own (λ d, with_world (write_file_header d)) (SyncingHeader own)
  | SyncingHeader own, AGo => checkpoint_io own (λ d, with_world (disk_sync d)) (ResettingLog own)
  | ResettingLog own, AGo =>
      let! r := on_db (with_wal wal_reset) in
      match r with
      | Ok _ => unlock_wal (checkpoint_done own)
      | Err _ => goes TvFailure (Failing (checkpoint_failed own))
      end
  | Failing ev, AGo =>
      let! _ := on_db poison in
      unlock_wal ev
  | _, _ => blocked
  end.

(** ** Runs *)

(** What the threads and the machine do. *)
Inductive cevent : Type :=
  | CvThread (t : tid) (ev : tevent)
  | CvCrash
  | CvOpen
  | CvOpenFailed
  | CvStopReviving
  | CvForged.

Inductive csystem : Type :=
  | CRun (s : Shared) (ths : list thread)
  | CStop (w : World)
  | CReviving (w : World).

(** Page ids are unsigned, pages have a fixed size, and the database and its
    log stay below the limits of 64-bit file offsets. *)
Definition action_ok (a : action) (pc : thread) (db : Database) : Prop :=
  match a, pc with
  | AFetch id, _ | ATxnRead id, _ => (0 ≤ id)%Z
  | APut id change, _ => (0 ≤ id)%Z ∧ ∀ p, page_wf p → page_wf (change p)
  | AAlloc _, WriteOpen txn => (txn_page_count txn < 2 ^ 52)%Z
  | ACommit, WriteOpen txn => commit_room db txn
  | _, _ => True
  end.

Definition plan_shared (plan : list io_fate) (s : Shared) : Shared :=
  {| sh_db := sh_db s; sh_world := set_plan plan (sh_world s); sh_locks := sh_locks s |}.

Variables (p : path) (options : Options) (threads : nat).

(** Any thread may take the next step, under any plan of I/O failures; the
    process may stop in the middle of a step or between two.  The next one
    opens the database, after a reboot if the machine stopped and on the files
    as they are if it did not, and every thread starts afresh.  As in
    [System.step], [CvStopReviving] and [CvForged] mark the two things the code
    does not protect against. *)
Inductive cstep : csystem → cevent → csystem → Prop :=
  | cs_thread t pc a plan s ths ev pc' s' :
      ths !! t = Some pc → action_ok a pc (sh_db s) →
      tstep t pc a (plan_shared plan s) = (Done (Some (ev, pc')), s') →
      cstep (CRun s ths) (CvThread t ev) (CRun s' (<[t := pc']> ths))
  | cs_thread_crash t pc a plan s ths s' :
      ths !! t = Some pc → action_ok a pc (sh_db s) →
      tstep t pc a (plan_shared plan s) = (Crashed, s') →
      cstep (CRun s ths) CvCrash (CStop (sh_world s'))
  | cs_stop s ths : cstep (CRun s ths) CvCrash (CStop (sh_world s))
  | cs_open w w1 db w' :
      reboot w w1 → log_genuine p w w1 → db_open p options w1 = (Done (Ok db), w') →
      cstep (CStop w) CvOpen
        (CRun {| sh_db := db; sh_world := w'; sh_locks := unlocked |} (replicate threads Idle))
  | cs_open_failed w w1 r w' :
      reboot w w1 → log_genuine p w w1 → db_open p options w1 = (r, w') →
      (∀ db, r ≠ Done (Ok db)) →
      cstep (CStop w) CvOpenFailed (CStop w')
  | cs_forged w w1 :
      reboot w w1 → ¬ log_genuine p w w1 → cstep (CStop w) CvForged (CStop w1)
  | cs_revive s plan w db w' :
      s = CStop w ∨ s = CReviving w → db_open p options (set_plan plan w) = (Done (Ok db), w') →
      cstep s CvOpen
        (CRun {| sh_db := db; sh_world := w'; sh_locks := unlocked |} (replicate threads Idle))
  | cs_revive_failed s plan w r w' :
      s = CStop w ∨ s = CReviving w → db_open p options (set_plan plan w) = (r, w') →
      (∀ db, r ≠ Done (Ok db)) →
      cstep s CvOpenFailed (CReviving w')
  | cs_stop_reviving w : cstep (CReviving w) CvStopReviving (CStop w).

Inductive csteps : csystem → list cevent → csystem → Prop :=
  | csteps_nil s : csteps s [] s
  | csteps_cons s ev s' evs s'' : cstep s ev s' → csteps s' evs s'' → csteps s (ev :: evs) s''.

(** ** Schedules *)

(** A step to take: the thread, what it does, what the I/O does. *)
Definition job : Type := tid * action * list io_fate.

Definition action_okb (a : action) (pc : thread) (db : Database) : bool :=
  match a, pc with
  | AFetch id, _ | ATxnRead id, _ | APut id _, _ => (0 <=? id)%Z
  | AAlloc _, WriteOpen txn => (txn_page_count txn <? 2 ^ 52)%Z
  | ACommit, WriteOpen txn => bool_decide (commit_room db txn)
  | _, _ => true
  end.

(** Runs the jobs in order, if none of them blocks, panics or crashes. *)
Fixpoint schedule (jobs : list job) (s : Shared) (ths : list thread) :
    option (list cevent * Shared * list thread) :=
  match jobs with
  | [] => Some ([], s, ths)
  | (t, a, plan) :: jobs =>
      pc ← ths !! t;
      if negb (action_okb a pc (sh_db s)) then None
      else
        match tstep t pc a (plan_shared plan s) with
        | (Done (Some (ev, pc')), s') =>
            '(evs, s'', ths'') ← schedule jobs s' (<[t := pc']> ths);
            Some (CvThread t ev :: evs, s'', ths'')
        | _ => None
        end
  end.

(** The changes a schedule makes to pages keep their size. *)
Definition changes_ok (jobs : list job) : Prop :=
  ∀ t id change plan, (t, APut id change, plan) ∈ jobs → ∀ q, page_wf q → page_wf (change q).

Lemma schedule_sound jobs s ths evs s' ths' :
  changes_ok jobs → schedule jobs s ths = Some (evs, s', ths') →
  csteps (CRun s ths) evs (CRun s' ths').
Proof.
  revert s ths evs. induction jobs as [|[[t a] plan] jobs IH]; intros s ths evs Hch; simpl.
  { intros [= <- <- <-]. constructor. }
  intros (pc & Hpc & E)%bind_Some. destruct (action_okb a pc (sh_db s)) eqn:Ha; simpl in E; [|done].
  destruct (tstep t pc a (plan_shared plan s)) as [[[[ev pc']|]| |] s1] eqn:Et; try done.
  apply bind_Some in E as ([[evs1 s2] ths2] & Es & [= <- <- <-]).
  econstructor; [|apply (IH _ _ _ ltac:(intros u id ch pl Hin; eapply Hch; by constructor) Es)].
  eapply cs_thread; [done| |done]. unfold action_okb in Ha.
  destruct a, pc; simpl in *; try done; try lia; try (by apply bool_decide_eq_true_1 in Ha);
    (split; [lia|]; eapply Hch; constructor).
Qed.

End Steps.
