(* ===== verification/Concurrent.v ===== *)
(** * Threads implement serial transactions with snapshot reads

    An abstract machine with one committed state, at most one writer and any
    number of open readers, and the proof that the threads of [Threads] refine
    it: a commit takes effect at one instant at which no reader is open, a
    read returns the state committed when its transaction began, and whatever
    the threads were doing when the machine stops, reopening finds the state
    of the last commit or, if [commit] was writing its records, of that one. *)

From S2P Require Import Prelude Errors BTree Checksum Page FileHeader FileSys Disk WalRecord.
From S2P Require Import WalLog Recovery BufferPool PoolCache Database DbState Checkpoint.
From S2P Require Import Commit Reopen Restart Transactions System Threads.

(** ** The abstract machine *)

(** What the holder of the WAL lock is doing. *)
Inductive stage : Type :=
  | Quiet
  | InTxn (t : tid) (V : AState)
  | Logs (t : tid) (V : AState)
  | Logged (t : tid) (V : AState)
  | Publishes (t : tid)
  | Returns (t : tid)
  | Checkpoints (t : tid).

(** Running in state [A]; halted by a failure that is about to be reported as
    [r], with the states the files may recover to; or stopped.  A halted
    process still serves the readers it has, unless it failed while
    publishing ([view = None]).  [CLost]: a thread that had passed the poison
    check before the failure went on after it, the machine stopped while a
    process that replaces a killed one was opening the database, or a crash
    damaged the log in a way its checksums do not show. *)
Inductive cspec : Type :=
  | CUp (A : AState) (g : stage) (opened : list tid)
  | CHalted (r : option (tid * tevent)) (view : option AState) (P : list AState) (opened : list tid)
  | CLost
  | CDown (P : list AState).

Section Abstract.
Context `{Cpu}.

(** The state readers see, and the readers. *)
Definition view (σ : cspec) : option AState :=
  match σ with
  | CUp _ (Publishes _) _ => None
  | CUp A _ _ => Some A
  | CHalted _ v _ _ => v
  | _ => None
  end.

Definition opened (σ : cspec) : list tid :=
  match σ with CUp _ _ o | CHalted _ _ _ o => o | _ => [] end.

Definition set_opened (o : list tid) (σ : cspec) : cspec :=
  match σ with
  | CUp A g _ => CUp A g o
  | CHalted r v P _ => CHalted r v P o
  | _ => σ
  end.

Definition running (σ : cspec) : bool :=
  match σ with CUp _ _ _ | CHalted _ _ _ _ => true | _ => false end.

(** What a crash may leave. *)
Definition outcomes (A : AState) (g : stage) : list AState :=
  match g with Logs _ V => [A; sealed V] | Logged _ V => [sealed V] | _ => [A] end.

Inductive cspec_step : cspec → cevent → cspec → Prop :=
  (** any thread *)
  | csp_tau σ t : running σ = true → cspec_step σ (CvThread t TvTau) σ
  | csp_refused σ t : running σ = true → cspec_step σ (CvThread t TvRefused) σ
  (** readers *)
  | csp_begin_read σ A t :
      view σ = Some A → t ∉ opened σ →
      cspec_step σ (CvThread t TvBeginRead) (set_opened (t :: opened σ) σ)
  | csp_read σ A t id p :
      view σ = Some A → t ∈ opened σ → a_pages A !! id = Some p →
      cspec_step σ (CvThread t (TvRead id p)) σ
  | csp_end_read σ t :
      t ∈ opened σ →
      cspec_step σ (CvThread t TvEndRead) (set_opened (filter (λ u, u ≠ t) (opened σ)) σ)
  (** the writer *)
  | csp_begin A o t : cspec_step (CUp A Quiet o) (CvThread t TvBegin) (CUp A (InTxn t A) o)
  | csp_txn_read A V o t id p :
      a_pages V !! id = Some p →
      cspec_step (CUp A (InTxn t V) o) (CvThread t (TvTxnRead id p)) (CUp A (InTxn t V) o)
  | csp_put A V o t id change p :
      a_pages V !! id = Some p →
      cspec_step (CUp A (InTxn t V) o) (CvThread t (TvPut id change))
        (CUp A (InTxn t (put id (change p) V)) o)
  | csp_alloc A V o t ty :
      cspec_step (CUp A (InTxn t V) o) (CvThread t (TvAlloc (a_count V) ty))
        (CUp A (InTxn t (alloc ty V)) o)
  | csp_rollback A V o t :
      cspec_step (CUp A (InTxn t V) o) (CvThread t TvRollback) (CUp A Quiet o)
  | csp_commit_start A V o t :
      sealable V → cspec_step (CUp A (InTxn t V) o) (CvThread t TvCommitStart) (CUp A (Logs t V) o)
  | csp_logged A V o t :
      cspec_step (CUp A (Logs t V) o) (CvThread t TvLogged) (CUp A (Logged t V) o)
  | csp_commit A V t :
      cspec_step (CUp A (Logged t V) []) (CvThread t TvCommit) (CUp (sealed V) (Publishes t) [])
  | csp_published A o t :
      cspec_step (CUp A (Publishes t) o) (CvThread t TvPublished) (CUp A (Returns t) o)
  | csp_committed A o t :
      cspec_step (CUp A (Returns t) o) (CvThread t TvCommitted) (CUp A Quiet o)
  | csp_committed_nothing A o t :
      cspec_step (CUp A (InTxn t A) o) (CvThread t TvCommitted) (CUp A Quiet o)
  | csp_commit_refused A V o t :
      ¬ sealable V → cspec_step (CUp A (InTxn t V) o) (CvThread t TvCommitFailed) (CUp A Quiet o)
  (** checkpoints *)
  | csp_checkpoint_start A o t :
      cspec_step (CUp A Quiet o) (CvThread t TvCheckpointStart) (CUp A (Checkpoints t) o)
  | csp_checkpoint A o t :
      cspec_step (CUp A (Checkpoints t) o) (CvThread t TvCheckpoint) (CUp A Quiet o)
  (** failures *)
  | csp_commit_fails A V o t :
      cspec_step (CUp A (Logs t V) o) (CvThread t TvFailure)
        (CHalted (Some (t, TvCommitFailed)) (Some A) [A; sealed V] o)
  | csp_publish_fails A o t :
      cspec_step (CUp A (Publishes t) o) (CvThread t TvFailure)
        (CHalted (Some (t, TvCommitFailed)) None [A] o)
  | csp_return_fails A o t :
      cspec_step (CUp A (Returns t) o) (CvThread t TvFailure)
        (CHalted (Some (t, TvCommitted)) (Some A) [A] o)
  | csp_checkpoint_fails A o t :
      cspec_step (CUp A (Checkpoints t) o) (CvThread t TvFailure)
        (CHalted (Some (t, TvCheckpointFailed)) (Some A) [A] o)
  | csp_reported t ev v P o :
      cspec_step (CHalted (Some (t, ev)) v P o) (CvThread t ev) (CHalted None v P o)
  (** threads that slip past the poison check *)
  | csp_stale_reader r P o t :
      cspec_step (CHalted r None P o) (CvThread t TvBeginRead) CLost
  | csp_stale_checkpoint r v P o t :
      cspec_step (CHalted r v P o) (CvThread t TvCheckpointStart) CLost
  | csp_lost ev : cspec_step CLost ev CLost
  (** the machine *)
  | csp_crash A g o : cspec_step (CUp A g o) CvCrash (CDown (outcomes A g))
  | csp_crash_halted r v P o : cspec_step (CHalted r v P o) CvCrash (CDown P)
  | csp_open A P : A ∈ P → cspec_step (CDown P) CvOpen (CUp A Quiet [])
  | csp_open_failed A P : A ∈ P → cspec_step (CDown P) CvOpenFailed (CDown [A])
  | csp_stop_reviving P : cspec_step (CDown P) CvStopReviving CLost
  | csp_forged P : cspec_step (CDown P) CvForged CLost.

Inductive cspec_steps : cspec → list cevent → cspec → Prop :=
  | cspec_steps_nil σ : cspec_steps σ [] σ
  | cspec_steps_cons σ ev σ' evs σ'' :
      cspec_step σ ev σ' → cspec_steps σ' evs σ'' → cspec_steps σ (ev :: evs) σ''.

End Abstract.

(** ** Locks *)

Definition holds_wal (pc : thread) : bool :=
  match pc with
  | Idle | ReadWaiting | ReadOpen | ReadPinned _ | ReadSeen _ | WriteWaiting | CheckpointWaiting => false
  | _ => true
  end.

Definition holds_read (pc : thread) : bool :=
  match pc with ReadOpen | ReadPinned _ | ReadSeen _ => true | _ => false end.

Definition holds_publish (pc : thread) : bool :=
  match pc with Publishing _ => true | _ => false end.

(** A lock is held by the threads that are where it is held. *)
Record locks_ok (l : Locks) (ths : list thread) : Prop := {
  lk_wal t : wal_lock l = Some t ↔ ∃ pc, ths !! t = Some pc ∧ holds_wal pc = true;
  lk_readers t : t ∈ publish_readers l ↔ ∃ pc, ths !! t = Some pc ∧ holds_read pc = true;
  lk_writer t : publish_writer l = Some t ↔ ∃ pc, ths !! t = Some pc ∧ holds_publish pc = true;
  lk_excl : publish_writer l ≠ None → publish_readers l = [];
}.

Section LockSteps.
Variables (l : Locks) (ths : list thread) (t : tid) (pc pc' : thread).
Hypothesis Hok : locks_ok l ths.
Hypothesis Hpc : ths !! t = Some pc.

(** Where thread [u] is after thread [t] has moved. *)
Lemma moved (P : thread → bool) u :
  (∃ q, <[t := pc']> ths !! u = Some q ∧ P q = true) ↔
    (if decide (u = t) then P pc' = true else ∃ q, ths !! u = Some q ∧ P q = true).
Proof.
  case_decide as E.
  - subst u. rewrite list_lookup_insert_eq by by eapply lookup_lt_Some. naive_solver.
  - by rewrite list_lookup_insert_ne.
Qed.

Lemma here (P : thread → bool) : (∃ q, ths !! t = Some q ∧ P q = true) ↔ P pc = true.
Proof. rewrite Hpc. naive_solver. Qed.

Lemma move_keeps (P : thread → bool) u :
  P pc' = P pc →
  (∃ q, <[t := pc']> ths !! u = Some q ∧ P q = true) ↔ (∃ q, ths !! u = Some q ∧ P q = true).
Proof. intros E. rewrite moved. case_decide as Eu; [|done]. subst u. by rewrite here, E. Qed.

Lemma locks_same :
  holds_wal pc' = holds_wal pc → holds_read pc' = holds_read pc →
  holds_publish pc' = holds_publish pc → locks_ok l (<[t := pc']> ths).
Proof.
  intros E1 E2 E3. destruct Hok as [H1 H2 H3 H4].
  split; [intros u; by rewrite move_keeps..|done].
Qed.

(** The WAL lock. *)
Lemma wal_owner : holds_wal pc = true → wal_lock l = Some t.
Proof. intros E. apply (lk_wal _ _ Hok). eauto. Qed.

Lemma lock_wal_ok :
  wal_lock l = None → holds_wal pc' = true → holds_read pc' = holds_read pc →
  holds_publish pc' = holds_publish pc → locks_ok (set_wal_lock (Some t) l) (<[t := pc']> ths).
Proof.
  intros El E1 E2 E3. destruct Hok as [H1 H2 H3 H4].
  split; [..|done]; intros u; simpl; [|by rewrite move_keeps..].
  rewrite moved. case_decide as Eu; [subst u; by rewrite E1|]. rewrite <- H1, El.
  split; [intros [= ?]; congruence|done].
Qed.

Lemma unlock_wal_ok :
  holds_wal pc = true → holds_wal pc' = false → holds_read pc' = holds_read pc →
  holds_publish pc' = holds_publish pc → locks_ok (set_wal_lock None l) (<[t := pc']> ths).
Proof.
  intros E0 E1 E2 E3. pose proof (wal_owner E0) as Eo. destruct Hok as [H1 H2 H3 H4].
  split; [..|done]; intros u; simpl; [|by rewrite move_keeps..].
  rewrite moved. case_decide as Eu; [by rewrite E1|]. rewrite <- H1, Eo.
  split; [done|intros [= ?]; congruence].
Qed.

(** The publish lock. *)
Lemma lock_read_ok :
  publish_writer l = None → holds_read pc = false → holds_read pc' = true →
  holds_wal pc' = holds_wal pc → holds_publish pc' = holds_publish pc →
  (t ∉ publish_readers l) ∧
  locks_ok (set_publish_readers (t :: publish_readers l) l) (<[t := pc']> ths).
Proof.
  intros El E0 E1 E2 E3. destruct Hok as [H1 H2 H3 H4]. split; [by rewrite H2, here, E0|].
  split; simpl; [intros u; by rewrite move_keeps| |intros u; by rewrite move_keeps|by rewrite El].
  intros u. rewrite moved, elem_of_cons, H2. case_decide as Eu; [subst u; tauto|tauto].
Qed.

Lemma unlock_read_ok :
  holds_read pc = true → holds_read pc' = false →
  holds_wal pc' = holds_wal pc → holds_publish pc' = holds_publish pc →
  t ∈ publish_readers l ∧
  locks_ok (set_publish_readers (filter (λ u, u ≠ t) (publish_readers l)) l) (<[t := pc']> ths).
Proof.
  intros E0 E1 E2 E3. destruct Hok as [H1 H2 H3 H4]. split; [by rewrite H2, here|].
  split; simpl; [intros u; by rewrite move_keeps| |intros u; by rewrite move_keeps|].
  - intros u. rewrite moved, list_elem_of_filter, H2. case_decide as Eu; [subst u|]; naive_solver congruence.
  - intros Hw. by rewrite (H4 Hw).
Qed.

Lemma lock_write_ok :
  publish_writer l = None → publish_readers l = [] → holds_publish pc' = true →
  holds_wal pc' = holds_wal pc → holds_read pc' = holds_read pc →
  locks_ok (set_publish_writer (Some t) l) (<[t := pc']> ths).
Proof.
  intros El Er E1 E2 E3. destruct Hok as [H1 H2 H3 H4].
  split; [..|done]; intros u; simpl; [by rewrite move_keeps..|].
  rewrite moved. case_decide as Eu; [subst u; by rewrite E1|]. rewrite <- H3, El.
  split; [intros [= ?]; congruence|done].
Qed.

Lemma unlock_write_ok :
  holds_publish pc = true → holds_publish pc' = false →
  holds_wal pc' = holds_wal pc → holds_read pc' = holds_read pc →
  publish_readers l = [] ∧ locks_ok (set_publish_writer None l) (<[t := pc']> ths).
Proof.
  intros E0 E1 E2 E3. destruct Hok as [H1 H2 H3 H4].
  assert (publish_writer l = Some t) as Eo by (apply H3; eauto).
  split; [apply H4; congruence|].
  split; [..|done]; intros u; simpl; [by rewrite move_keeps..|].
  rewrite moved. case_decide as Eu; [by rewrite E1|]. rewrite <- H3, Eo.
  split; [done|intros [= ?]; congruence].
Qed.

End LockSteps.

(** The holder of the WAL lock and where it is. *)
Definition holder (l : Locks) (ths : list thread) : option (tid * thread) :=
  t ← wal_lock l; pc ← ths !! t; Some (t, pc).

Lemma holder_other l ths t pc pc' :
  locks_ok l ths → ths !! t = Some pc → holds_wal pc = false →
  holder l (<[t := pc']> ths) = holder l ths.
Proof.
  intros Hok Hpc E. unfold holder. destruct (wal_lock l) as [u|] eqn:Eu; [|done]. simpl.
  rewrite list_lookup_insert_ne; [done|]. intros ->.
  apply (lk_wal _ _ Hok) in Eu as (q & ? & ?). congruence.
Qed.

Lemma holder_self l ths t pc :
  locks_ok l ths → ths !! t = Some pc → holds_wal pc = true → holder l ths = Some (t, pc).
Proof.
  intros Hok Hpc E. unfold holder. rewrite (wal_owner _ _ _ _ Hok Hpc E). simpl. by rewrite Hpc.
Qed.

(** Nothing is locked when every thread is idle. *)
Lemma idle_locks n : locks_ok unlocked (replicate n Idle).
Proof.
  assert (∀ t pc, replicate n Idle !! t = Some pc → pc = Idle) as Hidle
    by (by intros t pc [-> _]%lookup_replicate).
  split; simpl; [intros t; split; [done|]|intros t; split; [by intros ?%not_elem_of_nil|]|
    intros t; split; [done|]|done]; intros (pc & ->%Hidle & ?); done.
Qed.

(** ** Handles *)

Definition thread_handle (pc : thread) : option PageHandle :=
  match pc with ReadPinned h | ReadSeen h => Some h | _ => None end.

(** The handles the threads hold on shard [i] of [n]. *)
Definition handles (n : nat) (ths : list thread) (i : nat) : list PageHandle :=
  filter (λ h, shard_index n (handle_page h) = i) (omap thread_handle ths).

Lemma omap_moved ths t pc pc' :
  ths !! t = Some pc → ∃ rest,
    omap thread_handle ths ≡ₚ option_list (thread_handle pc) ++ rest ∧
    omap thread_handle (<[t := pc']> ths) ≡ₚ option_list (thread_handle pc') ++ rest.
Proof.
  intros Hpc. exists (omap thread_handle (take t ths) ++ omap thread_handle (drop (S t) ths)).
  rewrite insert_take_drop by by eapply lookup_lt_Some.
  rewrite <- (take_drop_middle ths t pc Hpc) at 1. rewrite !omap_app. simpl.
  destruct (thread_handle pc), (thread_handle pc'); simpl; split;
    rewrite <- ?Permutation_middle; done.
Qed.

Lemma handles_length n ths i : length (handles n ths i) ≤ length ths.
Proof.
  unfold handles. transitivity (length (omap thread_handle ths)); [apply length_filter|].
  induction ths as [|pc ths IH]; [done|]. csimpl.
  destruct (thread_handle pc); csimpl; lia.
Qed.

(** A thread that pins a page, one that keeps what it has, one that lets go. *)
Lemma handles_same n ths t pc pc' i :
  ths !! t = Some pc → thread_handle pc' = thread_handle pc →
  handles n (<[t := pc']> ths) i ≡ₚ handles n ths i.
Proof.
  intros Hpc E. destruct (omap_moved ths t pc pc' Hpc) as (rest & E1 & E2).
  unfold handles. by rewrite E1, E2, E.
Qed.

Lemma handles_pin n ths t pc pc' h i :
  ths !! t = Some pc → thread_handle pc = None → thread_handle pc' = Some h →
  handles n (<[t := pc']> ths) i ≡ₚ add_handle (shard_index n (handle_page h)) h (handles n ths) i.
Proof.
  intros Hpc E E'. destruct (omap_moved ths t pc pc' Hpc) as (rest & E1 & E2).
  unfold add_handle. case_decide as Ei; unfold handles; rewrite E1, E2, E, E'; simpl.
  - by rewrite filter_cons_True.
  - by rewrite filter_cons_False.
Qed.

Lemma handles_pinned n ths t pc h :
  ths !! t = Some pc → thread_handle pc = Some h → h ∈ handles n ths (shard_index n (handle_page h)).
Proof.
  intros Hpc E. apply list_elem_of_filter. split; [done|]. apply list_elem_of_omap.
  exists pc. split; [by eapply list_elem_of_lookup_2|done].
Qed.

Lemma handles_drop n ths t pc pc' h :
  ths !! t = Some pc → thread_handle pc = Some h → thread_handle pc' = None →
  let i := shard_index n (handle_page h) in
  handles n ths i ≡ₚ h :: handles n (<[t := pc']> ths) i ∧
  ∀ j, j ≠ i → handles n (<[t := pc']> ths) j ≡ₚ handles n ths j.
Proof.
  intros Hpc E E' i. destruct (omap_moved ths t pc pc' Hpc) as (rest & E1 & E2).
  unfold handles. rewrite E1, E2, E, E'. simpl. split; [by rewrite filter_cons_True|].
  intros j Hj. rewrite E1, E2, E, E'. simpl. by rewrite filter_cons_False.
Qed.

(** Without readers nothing is pinned. *)
Lemma handles_none n l ths i : locks_ok l ths → publish_readers l = [] → handles n ths i = [].
Proof.
  intros Hok Er. apply elem_of_nil_inv. intros h [_ (pc & Hin & Hh)%list_elem_of_omap]%list_elem_of_filter.
  apply list_elem_of_lookup in Hin as [t Ht].
  assert (t ∈ publish_readers l) as Hr by (apply (lk_readers _ _ Hok); exists pc; by destruct pc).
  rewrite Er in Hr. by apply not_elem_of_nil in Hr.
Qed.

(** ** The invariant *)

Section Invariant.
Context `{Cpu} `{HashOrder}.
Implicit Types A B : AState.
Implicit Types rs : list WalRecord.
Implicit Types hs : nat → list PageHandle.

(** The cached pages are those of [A]; [D] may be dirty. *)
Record cache A (D : PageId → Prop) hs (db : Database) (f : file) : Prop := {
  ca_wf : a_wf A;
  ca_count : dm_page_count (db_disk db) = a_count A;
  ca_pool : pool_inv (a_pages A) D hs f (db_pool db);
}.

(** The handle on files that durably hold [B]; [L] is what the pool shows. *)
Record core B (L : gmap PageId Page) (D : PageId → Prop) hs (db : Database) (f fw : file)
    (first : Z) rs : Prop := {
  co_durable : durable B f fw first rs;
  co_wal : wal_rep (db_wal db) fw first rs [];
  co_txn : u64_range (next_txn db);
  co_fresh r : r ∈ rs → (record_txn r < next_txn db)%Z;
  co_dirty id : D id → in_log rs id;
  co_pool : pool_inv L D hs f (db_pool db);
}.

Definition header_of A : bytes := data (encode {| page_count := a_count A |}).

(** The pages that may be dirty while a checkpoint flushes. *)
Definition to_flush (n : nat) rs (todo : list nat) (id : PageId) : Prop :=
  in_log rs id ∧ shard_index n id ∈ todo.

Definition to_flush_in (n : nat) rs (todo : list nat) (i : nat) (ids : list PageId) (id : PageId) : Prop :=
  in_log rs id ∧ (shard_index n id ∈ todo ∨ shard_index n id = i ∧ id ∈ ids).

(** The stage of a thread that is inside [write_checkpoint]. *)
Definition checkpointing (own : bool) (t : tid) : stage := if own then Checkpoints t else Returns t.

(** [phase A db f fw first rs g h B L D]: where the holder [h] of the WAL lock
    stands, the state [B] the files hold, what the pool shows and what may be
    dirty, when the committed state is [A]. *)
Inductive phase A (db : Database) (f fw : file) (first : Z) rs :
    stage → option (tid * thread) → AState → gmap PageId Page → (PageId → Prop) → Prop :=
  | ph_free : phase A db f fw first rs Quiet None A (a_pages A) (in_log rs)
  | ph_locked t :
      phase A db f fw first rs Quiet (Some (t, WriteLocked)) A (a_pages A) (in_log rs)
  | ph_txn t txn :
      txn_rep A txn →
      phase A db f fw first rs (InTxn t (working A txn)) (Some (t, WriteOpen txn)) A (a_pages A)
        (in_log rs)
  | ph_logging t txn :
      txn_rep A txn → txn_valid txn → commit_room db txn →
      phase A db f fw first rs (Logs t (working A txn)) (Some (t, Logging txn (bt_map (λ _, seal) (dirty txn))))
        A (a_pages A) (in_log rs)
  | ph_logged t txn id :
      txn_rep A txn → txn_valid txn → (∀ j p, (j, p) ∈ txn_images A txn → in_log rs j) →
      phase A db f fw first rs (Logged t (working A txn))
        (Some (t, PublishWaiting (txn_page_count txn) (image_records id (txn_images A txn))))
        (txn_state A txn) (a_pages A) (in_log rs)
  | ph_publishing t id todo L :
      remaining A (db_disk db) todo L → (∀ j p, (j, p) ∈ todo → in_log rs j) →
      phase A db f fw first rs (Publishes t) (Some (t, Publishing (image_records id todo))) A L
        (in_log rs)
  | ph_published t :
      phase A db f fw first rs (Returns t) (Some (t, Published)) A (a_pages A) (in_log rs)
  | ph_flushing own t todo :
      (∀ i, i ∈ todo → i < length (shards (db_pool db))) →
      phase A db f fw first rs (checkpointing own t) (Some (t, Flushing own todo)) A (a_pages A)
        (to_flush (length (shards (db_pool db))) rs todo)
  | ph_shard own t todo i ids :
      (∀ j, j ∈ i :: todo → j < length (shards (db_pool db))) →
      phase A db f fw first rs (checkpointing own t) (Some (t, FlushingShard own todo i ids)) A
        (a_pages A) (to_flush_in (length (shards (db_pool db))) rs todo i ids)
  | ph_header own t :
      flushed A fw first rs f →
      phase A db f fw first rs (checkpointing own t) (Some (t, WritingHeader own)) A (a_pages A)
        (λ _, False)
  | ph_sync own t f1 :
      flushed A fw first rs f1 → f = file_apply (WriteAt 0 (header_of A)) f1 →
      phase A db f fw first rs (checkpointing own t) (Some (t, SyncingHeader own)) A (a_pages A)
        (λ _, False)
  | ph_reset own t f1 :
      flushed A fw first rs f1 → f = file_sync (file_apply (WriteAt 0 (header_of A)) f1) →
      phase A db f fw first rs (checkpointing own t) (Some (t, ResettingLog own)) A (a_pages A)
        (λ _, False).

(** A healthy process. *)
Definition up_inv A (g : stage) (h : option (tid * thread)) hs (db : Database) (w : World) : Prop :=
  a_wf A ∧ dm_page_count (db_disk db) = a_count A ∧ db_poisoned db = false ∧
  ∃ f fw first rs B L D, db_files db w f fw ∧ core B L D hs db f fw first rs ∧
    phase A db f fw first rs g h B L D.

Variables (p wl : path).

(** A process halted by a failure. *)
Definition halted_inv (r : option (tid * tevent)) (v : option AState) (P : list AState)
    (o : list tid) (h : option (tid * thread)) hs (db : Database) (w : World) : Prop :=
  match r with
  | Some (t, ev) => h = Some (t, Failing ev) ∧ ev ≠ TvFailure
  | None => db_poisoned db = true ∧ (h = None ∨ ∃ t, h = Some (t, WriteLocked))
  end ∧
  ∃ f fw D, db_files db w f fw ∧
    (∀ f' w', pages_written D f f' → db_files db w' f' fw → recovers_checked (λ X, X ∈ P) p wl w') ∧
    match v with Some A => cache A D hs db f | None => o = [] end.

Definition data_inv (σ : cspec) (h : option (tid * thread)) hs (db : Database) (w : World) : Prop :=
  match σ with
  | CUp A g _ => up_inv A g h hs db w
  | CHalted r v P o => halted_inv r v P o h hs db w
  | _ => False
  end.

(** Threads that represent a running machine. *)
Record crun (σ : cspec) (s : Shared) (ths : list thread) : Prop := {
  cr_locks : locks_ok (sh_locks s) ths;
  cr_few : (Z.of_nat (length ths) + 1 < 2 ^ 32)%Z;
  cr_opened : opened σ = publish_readers (sh_locks s);
  cr_files : on_files p wl (sh_db s);
  cr_data : data_inv σ (holder (sh_locks s) ths)
              (handles (length (shards (db_pool (sh_db s)))) ths) (sh_db s) (sh_world s);
}.

(** What the implementation represents. *)
Definition crep (s : csystem) (σ : cspec) : Prop :=
  match σ, s with
  | CLost, _ => True
  | CDown P, CStop w => recovers_checked (λ X, X ∈ P) p wl w
  | CDown P, CReviving w => restartable (λ X, X ∈ P) p wl w
  | (CUp _ _ _ | CHalted _ _ _ _), CRun s ths => crun σ s ths
  | _, _ => False
  end.

End Invariant.

(** ** Steps *)

Lemma wp_on_db {A} (m : M (Database * World) A) Q C s :
  wp m (λ a t, Q a {| sh_db := t.1; sh_world := t.2; sh_locks := sh_locks s |})
       (λ t, C {| sh_db := t.1; sh_world := t.2; sh_locks := sh_locks s |}) (sh_db s, sh_world s) →
  wp (on_db m) Q C s.
Proof. intros Hm. by apply wp_zoom. Qed.

(** [thread_step] is [wp_step] with the vocabulary of [tstep] unfolded. *)
Ltac thread_step :=
  lazymatch goal with
  | |- wp blocked _ _ _ => apply wp_ret
  | |- wp (goes _ _) _ _ _ => apply wp_ret
  | |- wp (set_locks _) _ _ _ => apply wp_modify
  | |- wp unlock_publish_write _ _ _ => apply wp_modify
  | |- wp (unlock_publish_read _) _ _ _ => apply wp_modify
  | |- wp (on_db _) _ _ _ => apply wp_on_db
  | |- _ => wp_step
  end.

Section Simulation.
Context `{Cpu} `{HashOrder}.
Variables (p wl : path).
Hypothesis Hne : p ≠ wl.
Implicit Types A B : AState.
Implicit Types rs : list WalRecord.
Implicit Types hs : nat → list PageHandle.
Implicit Types σ : cspec.

Abbreviation data_inv := (data_inv p wl).
Abbreviation crun := (crun p wl).
Abbreviation crep := (crep p wl).

Lemma pages_written_none f f' : pages_written (λ _, False) f f' → f' = f.
Proof.
  intros (ops & Hops & ->). destruct Hops as [|op ops Hop _]; [done|]. by destruct Hop as (? & ? & _ & [] & _).
Qed.

Lemma phase_written A db f fw first rs g h B L D f' pl' :
  phase A db f fw first rs g h B L D → pages_written D f f' →
  length (shards pl') = length (shards (db_pool db)) →
  phase A (set_db_pool pl' db) f' fw first rs g h B L D.
Proof.
  intros Hph Hpw Hlen.
  destruct Hph; try (apply pages_written_none in Hpw as ->); try (by econstructor; eauto).
  - rewrite <- Hlen. constructor. simpl. by rewrite Hlen.
  - rewrite <- Hlen. constructor. simpl. by rewrite Hlen.
Qed.

Lemma phase_outcome A db f fw first rs g h B L D :
  a_wf A → phase A db f fw first rs g h B L D → B ∈ outcomes A g.
Proof.
  intros HA Hph. destruct Hph; unfold checkpointing, outcomes; try (by destruct own; constructor);
    rewrite ?sealed_working by done; repeat constructor.
Qed.

(** Whenever readers may read, the pool shows the committed state. *)
Lemma phase_view A db f fw first rs g h B L D o A' :
  phase A db f fw first rs g h B L D → view (CUp A g o) = Some A' → A' = A ∧ L = a_pages A.
Proof. intros Hph Hv. destruct Hph; try (destruct own); by simplify_eq/=. Qed.

Lemma core_durable B L D hs db f fw first rs f' :
  core B L D hs db f fw first rs → pages_written D f f' → durable B f' fw first rs.
Proof.
  intros Hco (ops & Hops & ->). eapply du_written; [apply Hco|]. exists ops. split; [|done].
  eapply Forall_impl; [exact Hops|]. intros op (id & src & -> & ? & ?). exists id, src.
  split; [done|]. split; [|done]. by eapply co_dirty.
Qed.

Lemma core_written B L L' D hs hs' db f fw first rs f' pl' :
  core B L D hs db f fw first rs → pages_written D f f' → pool_inv L' D hs' f' pl' →
  core B L' D hs' (set_db_pool pl' db) f' fw first rs.
Proof.
  intros Hco Hpw Hpool. pose proof (core_durable _ _ _ _ _ _ _ _ _ _ Hco Hpw).
  destruct Hco. by split.
Qed.

Lemma core_recovers A g h hs db f fw first rs B L D f' w' :
  a_wf A → core B L D hs db f fw first rs → phase A db f fw first rs g h B L D →
  on_files p wl db → pages_written D f f' → db_files db w' f' fw →
  recovers_checked (λ X, X ∈ outcomes A g) p wl w'.
Proof.
  intros HA Hco Hph [E1 E2] Hpw [Hf Hfw]. rewrite E1 in Hf. rewrite E2 in Hfw.
  apply (recovers_weaken (λ X, X = B)); [intros ? ->; by eapply phase_outcome|].
  by eapply durable_recovers; [eapply core_durable|..].
Qed.

(** A machine that stops. *)
Definition stops σ (w : World) : Prop := ∃ σ', cspec_step σ CvCrash σ' ∧ crep (CStop w) σ'.

Lemma up_stops A g o w : recovers_checked (λ X, X ∈ outcomes A g) p wl w → stops (CUp A g o) w.
Proof. intros Hr. exists (CDown (outcomes A g)). split; [constructor|done]. Qed.

Lemma halted_stops r v P o w : recovers_checked (λ X, X ∈ P) p wl w → stops (CHalted r v P o) w.
Proof. intros Hr. exists (CDown P). split; [constructor|done]. Qed.

Lemma on_files_ne db : on_files p wl db → dm_file (db_disk db) ≠ wal_file (db_wal db).
Proof. intros [-> ->]. done. Qed.

(** What a reader may rely on, and what it must keep. *)
Lemma data_readable σ A h hs db w :
  data_inv σ h hs db w → view σ = Some A → on_files p wl db →
  ∃ f D, cache A D hs db f ∧ w_files w !! dm_file (db_disk db) = Some f ∧
    (∀ hs' pl' w' f', io_step (db_disk db) D w f w' f' →
       length (shards pl') = length (shards (db_pool db)) → pool_inv (a_pages A) D hs' f' pl' →
       data_inv σ h hs' (set_db_pool pl' db) w') ∧
    (∀ w' f', io_step (db_disk db) D w f w' f' → stops σ w').
Proof.
  intros Hdi Hv Hon. pose proof (on_files_ne _ Hon) as Hd. destruct σ as [A0 g o|r v P o| |]; try done.
  - destruct Hdi as (HA & Hcnt & Hpo & f & fw & first & rs & B & L & D & Hfs & Hco & Hph).
    destruct (phase_view _ _ _ _ _ _ _ _ _ _ _ _ _ Hph Hv) as [-> ->]. exists f, D.
    split; [split; [done|done|apply Hco]|]. split; [apply Hfs|]. split.
    + intros hs' pl' w' f' [Hw' Hpw] Hlen Hpool. split; [done|]. split; [done|]. split; [done|].
      exists f', fw, first, rs, B, (a_pages A0), D. split; [by eapply (files_data db)|].
      split; [by eapply core_written|by eapply phase_written].
    + intros w' f' [Hw' Hpw]. apply up_stops. eapply core_recovers; try done. by eapply files_data.
  - simpl in Hv. subst v. destruct Hdi as (Hr & f & fw & D & Hfs & Hrec & Hca). exists f, D.
    split; [done|]. split; [apply Hfs|]. split.
    + intros hs' pl' w' f' [Hw' Hpw] Hlen Hpool. split; [done|]. exists f', fw, D.
      split; [by eapply (files_data db)|]. split; [|by destruct Hca].
      intros f2 w2 Hpw2 Hfs2. eapply Hrec; [by eapply pages_written_trans|done].
    + intros w' f' [Hw' Hpw]. apply halted_stops. eapply Hrec; [done|]. by eapply files_data.
Qed.

Lemma data_inv_handles σ h hs hs' db w :
  (∀ i, hs i ≡ₚ hs' i) → data_inv σ h hs db w → data_inv σ h hs' db w.
Proof.
  intros Hp. destruct σ as [A g o|r v P o| |]; try done.
  - intros (HA & Hcnt & Hpo & f & fw & first & rs & B & L & D & Hfs & Hco & Hph).
    split; [done|]. split; [done|]. split; [done|]. exists f, fw, first, rs, B, L, D.
    split; [done|]. split; [|done]. destruct Hco. split; try done. by eapply pool_inv_handles.
  - intros (Hr & f & fw & D & Hfs & Hrec & Hca). split; [done|]. exists f, fw, D.
    split; [done|]. split; [done|]. destruct v as [A|]; [|done]. destruct Hca. split; try done.
    by eapply pool_inv_handles.
Qed.

(** *** Moves *)

(** What a step of thread [t] that starts in world [w] has to show. *)
Definition csim (t : tid) (ths : list thread) σ (w : World) (r : outcome) (s' : Shared) : Prop :=
  match r with
  | None => True
  | Some (ev, pc') =>
      (ev = TvFailure → ¬ io_ok w) ∧
      ∃ σ', cspec_step σ (CvThread t ev) σ' ∧ crep (CRun s' (<[t := pc']> ths)) σ'
  end.

Definition csim_crash σ (s' : Shared) : Prop := stops σ (sh_world s').

Lemma crun_running σ s ths : crun σ s ths → running σ = true.
Proof. intros [_ _ _ _ Hd]. by destruct σ. Qed.

Lemma crun_crep σ s ths : crun σ s ths → crep (CRun s ths) σ.
Proof. intros Hr. pose proof (crun_running _ _ _ Hr). by destruct σ. Qed.

Lemma few_of n ths i : (Z.of_nat (length ths) + 1 < 2 ^ 32)%Z → few_handles (handles n ths i).
Proof. intros. pose proof (handles_length n ths i). unfold few_handles. lia. Qed.

Section Moves.
Variables (σ : cspec) (s : Shared) (ths : list thread) (t : tid) (pc pc' : thread).
Hypothesis Hrun : crun σ s ths.
Hypothesis Hpc : ths !! t = Some pc.

Let n := length (shards (db_pool (sh_db s))).

(** A thread that touches nothing. *)
Lemma move_outside :
  holds_wal pc = false → holds_wal pc' = false → holds_read pc' = holds_read pc →
  holds_publish pc' = holds_publish pc → thread_handle pc' = thread_handle pc →
  crun σ s (<[t := pc']> ths).
Proof.
  intros E0 E1 E2 E3 E4. destruct Hrun as [H1 H2 H3 H4 H5].
  split; [|by rewrite length_insert|done|done|].
  - eapply locks_same; try done. congruence.
  - rewrite (holder_other _ _ _ _ _ H1 Hpc E0). eapply data_inv_handles; [|exact H5].
    intros i. symmetry. by eapply handles_same.
Qed.

(** The holder of the WAL lock goes on. *)
Lemma move_publisher σ' s' :
  locks_ok (sh_locks s') (<[t := pc']> ths) → holds_wal pc = true → holds_wal pc' = true →
  opened σ' = publish_readers (sh_locks s') → on_files p wl (sh_db s') →
  data_inv σ' (Some (t, pc')) (handles (length (shards (db_pool (sh_db s')))) ths)
    (sh_db s') (sh_world s') →
  crun σ' s' (<[t := pc']> ths).
Proof.
  intros Hl E0 E1 Eo Hon Hd. destruct Hrun as [H1 H2 H3 H4 H5].
  split; [done|by rewrite length_insert|done|done|].
  rewrite (holder_self _ _ t pc' Hl) by (done || by apply list_lookup_insert_eq; eapply lookup_lt_Some).
  eapply data_inv_handles; [|exact Hd]. intros i. symmetry.
  eapply handles_same; [done|]. by destruct pc, pc'.
Qed.

Lemma move_holder σ' s' :
  holds_wal pc = true → holds_wal pc' = true → holds_publish pc' = holds_publish pc →
  sh_locks s' = sh_locks s → opened σ' = opened σ → on_files p wl (sh_db s') →
  length (shards (db_pool (sh_db s'))) = n →
  data_inv σ' (Some (t, pc')) (handles n ths) (sh_db s') (sh_world s') →
  crun σ' s' (<[t := pc']> ths).
Proof.
  intros E0 E1 E2 El Eo Hon En Hd. apply move_publisher; try done; [| |by rewrite En].
  - rewrite El. eapply locks_same; [apply Hrun|done|congruence|by destruct pc, pc'|done].
  - rewrite El, Eo. apply Hrun.
Qed.

(** The holder lets go. *)
Lemma move_unlock σ' s' :
  holds_wal pc = true → holds_publish pc = false → pc' = Idle →
  sh_locks s' = set_wal_lock None (sh_locks s) → opened σ' = opened σ → on_files p wl (sh_db s') →
  length (shards (db_pool (sh_db s'))) = n →
  data_inv σ' None (handles n ths) (sh_db s') (sh_world s') →
  crun σ' s' (<[t := pc']> ths).
Proof.
  intros E0 E2 -> El Eo Hon En Hd. destruct Hrun as [H1 H2 H3 H4 H5].
  assert (holds_read pc = false) as R0 by by destruct pc.
  assert (locks_ok (sh_locks s') (<[t := Idle]> ths)) as Hl.
  { rewrite El. eapply unlock_wal_ok; try done; congruence. }
  split; [done|by rewrite length_insert|rewrite El, Eo; done|done|].
  assert (holder (sh_locks s') (<[t := Idle]> ths) = None) as -> by by rewrite El.
  rewrite En. eapply data_inv_handles; [|exact Hd]. intros i. symmetry.
  eapply handles_same; [done|]. by destruct pc.
Qed.

(** A thread takes the free WAL lock. *)
Lemma move_lock σ' s' :
  wal_lock (sh_locks s) = None → holds_wal pc' = true → holds_wal pc = false →
  holds_read pc = false → holds_publish pc' = false →
  sh_locks s' = set_wal_lock (Some t) (sh_locks s) → opened σ' = opened σ →
  sh_db s' = sh_db s →
  data_inv σ' (Some (t, pc')) (handles n ths) (sh_db s') (sh_world s') →
  crun σ' s' (<[t := pc']> ths).
Proof.
  intros E0 E1 E2 R0 E3 El Eo Edb Hd. destruct Hrun as [H1 H2 H3 H4 H5].
  assert (holds_read pc' = false) as R1 by by destruct pc'.
  assert (holds_publish pc = false) as P0 by by destruct pc.
  assert (locks_ok (sh_locks s') (<[t := pc']> ths)) as Hl.
  { rewrite El. eapply lock_wal_ok; try done; congruence. }
  split; [done|by rewrite length_insert|rewrite El, Eo; done|by rewrite Edb|].
  rewrite (holder_self _ _ t pc' Hl) by (done || by apply list_lookup_insert_eq; eapply lookup_lt_Some).
  rewrite Edb in Hd |- *. eapply data_inv_handles; [|exact Hd]. intros i. symmetry.
  eapply handles_same; [done|]. by destruct pc, pc'.
Qed.

End Moves.
End Simulation.
