(* ===== verification/Serial.v ===== *)
(** * Every step of a thread is a step of the abstract machine

    The simulation proof for [Threads], one lemma per place a thread can be
    at, and runs of any length. *)

From S2P Require Import Prelude Errors BTree Checksum Page FileHeader FileSys Disk WalRecord.
From S2P Require Import WalLog Recovery BufferPool PoolCache Database DbState Checkpoint.
From S2P Require Import Commit Reopen Restart Transactions System Threads Concurrent.

Section Steps.
Context `{Cpu} `{HashOrder}.
Variables (p wl : path).
Hypothesis Hne : p ≠ wl.
Implicit Types A B : AState.
Implicit Types σ : cspec.

Abbreviation data_inv := (data_inv p wl).
Abbreviation crun := (crun p wl).
Abbreviation crep := (crep p wl).
Abbreviation csim := (csim p wl).
Abbreviation csim_crash := (csim_crash p wl).
Abbreviation shard_count s := (length (shards (db_pool (sh_db s)))).

(** ** Readers *)

Lemma phase_publishes A db f fw first rs g h B L D u :
  phase A db f fw first rs g h B L D → g = Publishes u → ∃ images, h = Some (u, Publishing images).
Proof. intros Hph E. destruct Hph; try (destruct own); simplify_eq/=. eauto. Qed.

Lemma holder_lookup l ths t pc : holder l ths = Some (t, pc) → ths !! t = Some pc.
Proof.
  unfold holder. intros (u & _ & (q & Hq & [= -> ->])%bind_Some)%bind_Some. done.
Qed.

(** No reader is open while a commit is published. *)
Lemma publisher_excludes A u o s ths :
  crun (CUp A (Publishes u) o) s ths →
  publish_writer (sh_locks s) = Some u ∧ publish_readers (sh_locks s) = [].
Proof.
  intros [Hl _ _ _ (_ & _ & _ & f & fw & first & rs & B & L & D & _ & _ & Hph)].
  destruct (phase_publishes _ _ _ _ _ _ _ _ _ _ _ _ Hph eq_refl) as [images Eh].
  apply holder_lookup in Eh.
  assert (publish_writer (sh_locks s) = Some u) as Ew by (apply (lk_writer _ _ Hl); eauto).
  split; [done|]. apply Hl. congruence.
Qed.

Lemma reader_view σ s ths t :
  crun σ s ths → t ∈ publish_readers (sh_locks s) → ∃ A, view σ = Some A.
Proof.
  intros Hrun Ht. destruct σ as [A g o|r v P o| |].
  - destruct g; simpl; eauto. destruct (publisher_excludes _ _ _ _ _ Hrun) as [_ E].
    rewrite E in Ht. by apply not_elem_of_nil in Ht.
  - destruct v as [A|]; simpl; eauto. pose proof (cr_opened _ _ _ _ _ Hrun) as Eo. simpl in Eo.
    destruct (cr_data _ _ _ _ _ Hrun) as (_ & f & fw & D & _ & _ & E). rewrite <- Eo, E in Ht.
    by apply not_elem_of_nil in Ht.
  - by destruct (cr_data _ _ _ _ _ Hrun).
  - by destruct (cr_data _ _ _ _ _ Hrun).
Qed.

Lemma data_set_opened σ A o h hs db w :
  view σ = Some A → data_inv σ h hs db w → data_inv (set_opened o σ) h hs db w.
Proof. destruct σ as [? ? ?|? v ? ?| |]; try done. simpl. by intros ->. Qed.

Lemma sim_begin_read σ s ths t :
  crun σ s ths → ths !! t = Some ReadWaiting →
  wp (tstep t ReadWaiting AGo) (csim t ths σ (sh_world s)) (csim_crash σ) s.
Proof.
  intros Hrun Hpc. simpl. unfold lock_publish_read. do 2 thread_step.
  destruct (publish_writer (sh_locks s)) as [u|] eqn:Ew; [by thread_step|].
  do 3 thread_step. simpl.
  destruct (lock_read_ok _ _ t _ ReadOpen (cr_locks _ _ _ _ _ Hrun) Hpc Ew) as [Hnew Hl]; try done.
  assert ((∃ A, view σ = Some A) ∨ ∃ r P o, σ = CHalted r None P o) as [[A Hv]|(r & P & o & ->)].
  { destruct σ as [A g o|r v P o| |]; [..|by destruct (cr_data _ _ _ _ _ Hrun)|by destruct (cr_data _ _ _ _ _ Hrun)].
    - left. destruct g; simpl; eauto.
      destruct (publisher_excludes _ _ _ _ _ Hrun) as [E _]. congruence.
    - destruct v; [by left; eexists|]. right. eauto. }
  2:{ split; [done|]. exists CLost. split; [constructor|done]. }
  split; [done|]. exists (set_opened (t :: opened σ) σ). pose proof (cr_opened _ _ _ _ _ Hrun) as Eo.
  split; [by econstructor; [|rewrite Eo]|].
  apply crun_crep. destruct Hrun as [H1 H2 _ H4 H5]. split; simpl.
  - done.
  - by rewrite length_insert.
  - rewrite <- Eo. by destruct σ.
  - done.
  - assert (holder (set_publish_readers (t :: publish_readers (sh_locks s)) (sh_locks s))
      (<[t := ReadOpen]> ths) = holder (sh_locks s) ths) as -> by by eapply (holder_other (sh_locks s)).
    eapply data_set_opened; [done|]. eapply data_inv_handles; [|exact H5].
    intros i. symmetry. by eapply handles_same.
Qed.

Lemma sim_end_read σ s ths t :
  crun σ s ths → ths !! t = Some ReadOpen →
  wp (tstep t ReadOpen AEndRead) (csim t ths σ (sh_world s)) (csim_crash σ) s.
Proof.
  intros Hrun Hpc. simpl. do 3 thread_step. simpl.
  destruct (unlock_read_ok _ _ t _ Idle (cr_locks _ _ _ _ _ Hrun) Hpc) as [Hin Hl]; try done.
  destruct (reader_view _ _ _ _ Hrun Hin) as [A Hv]. pose proof (cr_opened _ _ _ _ _ Hrun) as Eo.
  split; [done|]. exists (set_opened (filter (λ u, u ≠ t) (opened σ)) σ). split; [constructor; by rewrite Eo|].
  apply crun_crep. destruct Hrun as [H1 H2 _ H4 H5]. split; simpl.
  - done.
  - by rewrite length_insert.
  - rewrite <- Eo. by destruct σ.
  - done.
  - assert (∀ l, wal_lock l = wal_lock (sh_locks s) →
      holder l (<[t := Idle]> ths) = holder (sh_locks s) ths) as Eh.
    { intros l El. rewrite <- (holder_other _ _ _ _ Idle H1 Hpc) by done. unfold holder. by rewrite El. }
    rewrite Eh by done. eapply data_set_opened; [done|]. eapply data_inv_handles; [|exact H5].
    intros i. symmetry. by eapply handles_same.
Qed.

(** A reader that used the pool. *)
Lemma move_reader σ s ths t pc pc' pl w :
  crun σ s ths → ths !! t = Some pc → holds_read pc = true → holds_read pc' = true →
  length (shards pl) = shard_count s →
  data_inv σ (holder (sh_locks s) ths) (handles (shard_count s) (<[t := pc']> ths))
    (set_db_pool pl (sh_db s)) w →
  crun σ {| sh_db := set_db_pool pl (sh_db s); sh_world := w; sh_locks := sh_locks s |}
    (<[t := pc']> ths).
Proof.
  intros [H1 H2 H3 H4 H5] Hpc E0 E1 Hlen Hd.
  assert (holds_wal pc = false ∧ holds_wal pc' = false) as [W0 W1]
    by (destruct pc, pc'; try done; by split).
  assert (holds_publish pc = false ∧ holds_publish pc' = false) as [P0 P1]
    by (destruct pc, pc'; try done; by split).
  split; simpl; [eapply locks_same; try done; congruence|by rewrite length_insert|done|done|].
  rewrite (holder_other _ _ _ _ _ H1 Hpc W0), Hlen. done.
Qed.

(** What a reader in the middle of a transaction may rely on. *)
Lemma reader_readable σ s ths t pc :
  crun σ s ths → ths !! t = Some pc → holds_read pc = true →
  ∃ A f D, view σ = Some A ∧ t ∈ opened σ ∧
    cache A D (handles (shard_count s) ths) (sh_db s) f ∧
    w_files (sh_world s) !! dm_file (db_disk (sh_db s)) = Some f ∧
    (∀ hs' pl' w' f', io_step (db_disk (sh_db s)) D (sh_world s) f w' f' →
       length (shards pl') = shard_count s → pool_inv (a_pages A) D hs' f' pl' →
       data_inv σ (holder (sh_locks s) ths) hs' (set_db_pool pl' (sh_db s)) w') ∧
    (∀ w' f', io_step (db_disk (sh_db s)) D (sh_world s) f w' f' → stops p wl σ w').
Proof.
  intros Hrun Hpc E.
  assert (t ∈ publish_readers (sh_locks s)) as Hin by (apply (lk_readers _ _ (cr_locks _ _ _ _ _ Hrun)); eauto).
  destruct (reader_view _ _ _ _ Hrun Hin) as [A Hv].
  destruct (data_readable p wl Hne _ _ _ _ _ _ (cr_data _ _ _ _ _ Hrun) Hv (cr_files _ _ _ _ _ Hrun))
    as (f & D & ?). exists A, f, D. rewrite (cr_opened _ _ _ _ _ Hrun). tauto.
Qed.

Lemma cache_wf A D hs db f : cache A D hs db f → disk_wf (db_disk db) ∧ pages_wf (db_disk db) (a_pages A).
Proof. intros [H1 H2 _]. split; [by eapply a_disk_wf|by apply a_pages_wf]. Qed.

Lemma sim_fetch σ s ths t id :
  crun σ s ths → ths !! t = Some ReadOpen → (0 ≤ id)%Z →
  wp (tstep t ReadOpen (AFetch id)) (csim t ths σ (sh_world s)) (csim_crash σ) s.
Proof.
  intros Hrun Hpc Hid. pose proof (crun_running _ _ _ _ _ Hrun) as Hup.
  destruct (reader_readable _ _ _ _ _ Hrun Hpc eq_refl) as (A & f & D & Hv & Ho & Hca & Hf & Hkeep & Hstop).
  destruct (cache_wf _ _ _ _ _ Hca) as [Hd HL].
  assert (∀ ev, ev = TvRefused → csim t ths σ (sh_world s) (Some (ev, ReadOpen)) s) as Hno.
  { intros ev ->. split; [done|]. exists σ. split; [by constructor|]. apply crun_crep. by eapply move_outside. }
  cbn [tstep]. unfold read_fetch, read_txn_page_count, db_page_count. do 3 thread_step. simpl fst.
  rewrite (ca_count _ _ _ _ _ Hca). pose proof (txn_check_spec id (a_count A) Hid) as Hc.
  destruct (txn_check_data_page id (a_count A)) as [[]|e].
  2:{ thread_step. destruct s. by apply Hno. }
  apply (a_dom _ (ca_wf _ _ _ _ _ Hca)) in Hc as [q Hq].
  do 4 thread_step. apply wp_with_pool. simpl sh_world.
  eapply wp_mono; [eapply (wp_pool_fetch_page _ Hd _ _ _ _ _ _ id q HL (ca_pool _ _ _ _ _ Hca) Hf Hq);
    intros i; apply few_of, Hrun| |].
  - intros r [pl w'] (f' & Hst & Hlen & Hr). cbn [fst snd] in *. destruct r as [h|e]; thread_step.
    + destruct Hr as [Eh Hpool]. split; [done|]. exists σ. split; [by constructor|]. apply crun_crep.
      apply (move_reader σ s ths t ReadOpen); try done. eapply Hkeep; try done.
      eapply pool_inv_handles; [|exact Hpool]. intros i. symmetry. rewrite <- Eh. by eapply handles_pin.
    + destruct Hr as [Hpool _]. split; [done|]. exists σ. split; [by constructor|]. apply crun_crep.
      apply (move_reader σ s ths t ReadOpen); try done. eapply Hkeep; try done.
      eapply pool_inv_handles; [|exact Hpool]. intros i. symmetry. by eapply handles_same.
  - intros [pl w'] (_ & f' & Hst). by eapply Hstop.
Qed.

Lemma sim_look σ s ths t h :
  crun σ s ths → ths !! t = Some (ReadPinned h) →
  wp (tstep t (ReadPinned h) AGo) (csim t ths σ (sh_world s)) (csim_crash σ) s.
Proof.
  intros Hrun Hpc.
  destruct (reader_readable _ _ _ _ _ Hrun Hpc eq_refl) as (A & f & D & Hv & Ho & Hca & Hf & _ & _).
  pose proof (handles_pinned (shard_count s) _ _ _ h Hpc eq_refl) as Hh.
  destruct (pool_inv_pinned _ _ _ _ _ _ (ca_pool _ _ _ _ _ Hca) Hh) as [q Hq].
  simpl. do 2 thread_step. apply wp_with_pool.
  eapply wp_pool_look; [by eapply cache_wf|apply Hca|done|done|]. thread_step. split; [done|]. exists σ. split; [by econstructor|].
  apply crun_crep. destruct s as [db w l]. destruct db. by eapply move_outside.
Qed.

Lemma sim_drop σ s ths t h :
  crun σ s ths → ths !! t = Some (ReadSeen h) →
  wp (tstep t (ReadSeen h) AGo) (csim t ths σ (sh_world s)) (csim_crash σ) s.
Proof.
  intros Hrun Hpc. pose proof (crun_running _ _ _ _ _ Hrun) as Hup.
  destruct (reader_readable _ _ _ _ _ Hrun Hpc eq_refl) as (A & f & D & Hv & Ho & Hca & Hf & Hkeep & _).
  destruct (cache_wf _ _ _ _ _ Hca) as [Hd HL]. set (n := shard_count s) in *.
  destruct (handles_drop n _ _ _ ReadOpen h Hpc eq_refl eq_refl) as [Eh Eo].
  set (hs' := handles n (<[t := ReadOpen]> ths)) in *.
  simpl. do 2 thread_step. apply wp_with_pool.
  eapply (wp_pool_drop (db_disk (sh_db s)) (a_pages A) D
    (add_handle (shard_index n (handle_page h)) h hs') hs' f); [done| |done| | | |].
  - eapply pool_inv_handles; [|apply Hca]. intros i. unfold add_handle. case_decide; [by subst i|].
    symmetry. by apply Eo.
  - unfold add_handle. by rewrite decide_True.
  - intros j Hj. unfold add_handle. by rewrite decide_False.
  - apply few_of. rewrite length_insert. apply Hrun.
  - intros pl' Hlen Hpool. thread_step. split; [done|]. exists σ. split; [by constructor|]. apply crun_crep.
    apply (move_reader σ s ths t (ReadSeen h)); try done. eapply Hkeep; [by apply io_step_refl|done|done].
Qed.

Lemma up_intro A g h hs db w f fw first rs B L D :
  a_wf A → dm_page_count (db_disk db) = a_count A → db_poisoned db = false → db_files db w f fw →
  core B L D hs db f fw first rs → phase A db f fw first rs g h B L D → up_inv A g h hs db w.
Proof. intros. split; [done|]. split; [done|]. split; [done|]. by exists f, fw, first, rs, B, L, D. Qed.

(** ** Entering the library *)

(** The calls that check the poison flag and then wait. *)
Lemma sim_enter σ s ths t pc' :
  crun σ s ths → ths !! t = Some Idle →
  pc' = ReadWaiting ∨ pc' = WriteWaiting ∨ pc' = CheckpointWaiting →
  wp (checked (goes TvTau pc') (goes TvRefused Idle)) (csim t ths σ (sh_world s)) (csim_crash σ) s.
Proof.
  intros Hrun Hpc Hpc'. pose proof (crun_running _ _ _ _ _ Hrun) as Hup.
  assert (∀ q ev, q = Idle ∨ q = pc' → ev = TvTau ∨ ev = TvRefused →
    csim t ths σ (sh_world s) (Some (ev, q)) s) as Hmove.
  { intros q ev Hq Hev. split; [by destruct Hev as [->| ->]|]. exists σ. split; [destruct Hev as [->| ->]; by constructor|].
    apply crun_crep. eapply move_outside; try done; naive_solver. }
  unfold checked, db_check_poisoned. do 3 thread_step. simpl fst.
  destruct (db_poisoned (sh_db s)); thread_step; destruct s; by apply Hmove; auto.
Qed.

Lemma phase_free A db f fw first rs g B L D :
  phase A db f fw first rs g None B L D → g = Quiet ∧ B = A ∧ L = a_pages A ∧ D = in_log rs.
Proof. by inversion 1. Qed.

Lemma holder_free l ths : wal_lock l = None → holder l ths = None.
Proof. intros E. unfold holder. by rewrite E. Qed.

Lemma sim_lock_write σ s ths t :
  crun σ s ths → ths !! t = Some WriteWaiting →
  wp (tstep t WriteWaiting AGo) (csim t ths σ (sh_world s)) (csim_crash σ) s.
Proof.
  intros Hrun Hpc. pose proof (crun_running _ _ _ _ _ Hrun) as Hup.
  simpl. unfold lock_wal. do 2 thread_step.
  destruct (wal_lock (sh_locks s)) as [u|] eqn:Ew; [by thread_step|].
  do 3 thread_step. split; [done|]. exists σ. split; [by constructor|]. apply crun_crep.
  eapply (move_lock _ _ σ s); try done. cbn [sh_db sh_world].
  pose proof (cr_data _ _ _ _ _ Hrun) as Hd. rewrite holder_free in Hd by done.
  destruct σ as [A g o|r v P o| |]; try done.
  - destruct Hd as (HA & Hcnt & Hpo & f & fw & first & rs & B & L & D & Hfs & Hco & Hph).
    destruct (phase_free _ _ _ _ _ _ _ _ _ _ Hph) as (-> & -> & -> & ->).
    eapply up_intro; try done. constructor.
  - destruct Hd as [Hr Hd]. split; [|done]. destruct r as [[]|]; [by destruct Hr|].
    destruct Hr as [Hpo _]. split; [done|]. right. eauto.
Qed.

Lemma core_dirty B L D D' hs db f fw first rs :
  core B L D hs db f fw first rs → (∀ id, D' id → in_log rs id) →
  pool_inv L D' hs f (db_pool db) → core B L D' hs db f fw first rs.
Proof. intros [] HD Hpool. by split. Qed.

(** A checkpoint starts: every page of the log may have to be flushed. *)
Lemma flush_start A hs db f fw first rs :
  core A (a_pages A) (in_log rs) hs db f fw first rs →
  core A (a_pages A) (to_flush (length (shards (db_pool db))) rs
    (List.seq 0 (length (shards (db_pool db))))) hs db f fw first rs.
Proof.
  intros Hco. eapply core_dirty; [done|by intros id []|].
  eapply pool_inv_mono; [|apply Hco]. intros id Hid. split; [done|]. apply elem_of_seq.
  destruct (pi_count _ _ _ _ _ (co_pool _ _ _ _ _ _ _ _ _ Hco)) as [k Hk].
  pose proof (shard_index_lt _ k id Hk). lia.
Qed.

Lemma sim_lock_checkpoint σ s ths t :
  crun σ s ths → ths !! t = Some CheckpointWaiting →
  wp (tstep t CheckpointWaiting AGo) (csim t ths σ (sh_world s)) (csim_crash σ) s.
Proof.
  intros Hrun Hpc. simpl. unfold lock_wal. do 2 thread_step.
  destruct (wal_lock (sh_locks s)) as [u|] eqn:Ew; [by thread_step|].
  unfold all_shards. do 5 thread_step.
  pose proof (cr_data _ _ _ _ _ Hrun) as Hd. rewrite holder_free in Hd by done.
  destruct σ as [A g o|r v P o| |]; try done.
  2:{ split; [done|]. exists CLost. split; [constructor|done]. }
  destruct Hd as (HA & Hcnt & Hpo & f & fw & first & rs & B & L & D & Hfs & Hco & Hph).
  destruct (phase_free _ _ _ _ _ _ _ _ _ _ Hph) as (-> & -> & -> & ->).
  split; [done|]. exists (CUp A (Checkpoints t) o). split; [constructor|]. apply crun_crep.
  eapply (move_lock _ _ (CUp A Quiet o) s); try done. cbn [sh_db sh_world].
  apply (up_intro _ _ _ _ _ _ _ _ _ _ _ _ _ HA Hcnt Hpo Hfs (flush_start _ _ _ _ _ _ _ Hco)).
  apply (ph_flushing _ _ _ _ _ _ true).
  intros i Hi%elem_of_seq. lia.
Qed.

(** ** The writer *)

Lemma holder_data σ s ths t pc :
  crun σ s ths → ths !! t = Some pc → holds_wal pc = true →
  data_inv σ (Some (t, pc)) (handles (shard_count s) ths) (sh_db s) (sh_world s).
Proof.
  intros Hrun Hpc E. pose proof (cr_data _ _ _ _ _ Hrun) as Hd.
  by rewrite (holder_self _ _ _ _ (cr_locks _ _ _ _ _ Hrun) Hpc E) in Hd.
Qed.

(** Beyond its first step the holder of the lock is in a healthy process. *)
Lemma holder_up σ s ths t pc :
  crun σ s ths → ths !! t = Some pc → holds_wal pc = true → pc ≠ WriteLocked →
  (∀ ev, pc ≠ Failing ev) →
  ∃ A g o, σ = CUp A g o ∧ up_inv A g (Some (t, pc)) (handles (shard_count s) ths) (sh_db s) (sh_world s).
Proof.
  intros Hrun Hpc E N1 N2. pose proof (holder_data _ _ _ _ _ Hrun Hpc E) as Hd.
  destruct σ as [A g o|r v P o| |]; try done; [by exists A, g, o|].
  destruct Hd as [Hr _]. destruct r as [[u ev]|]; [destruct Hr; congruence|].
  destruct Hr as [_ [?|[u ?]]]; congruence.
Qed.

(** The pool as seen by the writer while readers are at work. *)
Definition serving σ h hs (db : Database) (w : World) : Prop :=
  data_inv σ h hs db w ∧ on_files p wl db ∧ ∀ i, few_handles (hs i).

#[local] Instance serving_store σ A h hs :
  TCEq (view σ) (Some A) →
  PageStore A (serving σ h hs) (λ _ _ _, True) (λ _ _ s, stops p wl σ s.2).
Proof.
  intros Hv%TCEq_eq. split.
  - intros db w (Hd & Hon & _). destruct (data_readable p wl Hne _ _ _ _ _ _ Hd Hv Hon) as (f & D & Hca & _).
    split; apply Hca.
  - intros db w id q (Hd & Hon & Hfew) Hq.
    destruct (data_readable p wl Hne _ _ _ _ _ _ Hd Hv Hon) as (f & D & Hca & Hf & Hkeep & Hstop).
    destruct (cache_wf _ _ _ _ _ Hca) as [Hdw HL]. apply wp_with_pool.
    eapply wp_mono; [by eapply (wp_pool_read _ Hdw _ _ _ _ _ _ id q HL (ca_pool _ _ _ _ _ Hca) Hf)| |].
    + intros r [pl w'] (f' & Hst & Hpool & Hlen & Hr). cbn [fst snd] in *.
      split; [split; [by eapply Hkeep|done]|]. split; [by exists pl|]. split; [apply Hst|].
      by destruct r.
    + intros [pl w'] (_ & f' & Hst). by eapply Hstop.
Qed.

Lemma same_but_pool_shape db db' :
  same_but_pool db db' → length (shards (db_pool db')) = length (shards (db_pool db)).
Proof. by intros (pl & E & ->). Qed.

Lemma phase_txn A db f fw first rs g t txn B L D :
  phase A db f fw first rs g (Some (t, WriteOpen txn)) B L D →
  g = InTxn t (working A txn) ∧ txn_rep A txn ∧ B = A ∧ L = a_pages A ∧ D = in_log rs.
Proof. by inversion 1. Qed.

Lemma up_txn A g t txn hs db w :
  up_inv A g (Some (t, WriteOpen txn)) hs db w →
  g = InTxn t (working A txn) ∧ txn_rep A txn ∧ a_wf A ∧
  ∀ txn', txn_rep A txn' → up_inv A (InTxn t (working A txn')) (Some (t, WriteOpen txn')) hs db w.
Proof.
  intros (HA & Hcnt & Hpo & f & fw & first & rs & B & L & D & Hfs & Hco & Hph).
  destruct (phase_txn _ _ _ _ _ _ _ _ _ _ _ _ Hph) as (-> & Ht & -> & -> & ->).
  split_and!; try done. intros txn' Ht'. eapply up_intro; try done. by constructor.
Qed.

Lemma up_unlocked A g t txn hs db w :
  up_inv A g (Some (t, WriteOpen txn)) hs db w → up_inv A Quiet None hs db w.
Proof.
  intros (HA & Hcnt & Hpo & f & fw & first & rs & B & L & D & Hfs & Hco & Hph).
  destruct (phase_txn _ _ _ _ _ _ _ _ _ _ _ _ Hph) as (-> & Ht & -> & -> & ->).
  eapply up_intro; try done. constructor.
Qed.

Lemma phase_locked A db f fw first rs g t B L D :
  phase A db f fw first rs g (Some (t, WriteLocked)) B L D →
  g = Quiet ∧ B = A ∧ L = a_pages A ∧ D = in_log rs.
Proof. by inversion 1. Qed.

(** The second check of [WriteTxn::new]. *)
Lemma sim_locked σ s ths t :
  crun σ s ths → ths !! t = Some WriteLocked →
  wp (tstep t WriteLocked AGo) (csim t ths σ (sh_world s)) (csim_crash σ) s.
Proof.
  intros Hrun Hpc. pose proof (holder_data _ _ _ _ _ Hrun Hpc eq_refl) as Hd.
  simpl. unfold checked, db_check_poisoned. do 3 thread_step. simpl fst.
  destruct σ as [A g o|r v P o| |]; try done.
  - destruct Hd as (HA & Hcnt & Hpo & f & fw & first & rs & B & L & D & Hfs & Hco & Hph).
    rewrite Hpo. unfold db_page_count. do 4 thread_step. simpl fst. rewrite Hcnt.
    destruct (phase_locked _ _ _ _ _ _ _ _ _ _ _ Hph) as (-> & -> & -> & ->).
    split; [done|]. exists (CUp A (InTxn t A) o). split; [constructor|]. apply crun_crep.
    eapply (move_holder _ _ (CUp A Quiet o) s); try done; [apply Hrun|]. cbn [sh_db sh_world].
    eapply up_intro; try done.
    assert (working A {| dirty := []; txn_page_count := a_count A |} = A) as E
      by (apply working_empty; [by apply txn_rep_empty|done]).
    rewrite <- E at 2. constructor. by apply txn_rep_empty.
  - destruct Hd as [Hr Hd]. destruct r as [[]|]; [by destruct Hr|]. destruct Hr as [Hpo _]. rewrite Hpo.
    unfold unlock_wal. do 3 thread_step. split; [done|]. exists (CHalted None v P o). split; [by constructor|].
    apply crun_crep. eapply (move_unlock _ _ (CHalted None v P o) s); try done; [apply Hrun|].
    split; [|done]. split; [done|by left].
Qed.

Lemma sim_txn_read σ s ths t txn id :
  crun σ s ths → ths !! t = Some (WriteOpen txn) → (0 ≤ id)%Z →
  wp (tstep t (WriteOpen txn) (ATxnRead id)) (csim t ths σ (sh_world s)) (csim_crash σ) s.
Proof.
  intros Hrun Hpc Hid.
  destruct (holder_up _ _ _ _ _ Hrun Hpc eq_refl) as (A & g & o & -> & Hup); [done..|].
  destruct (up_txn _ _ _ _ _ _ _ Hup) as (-> & Ht & HA & _).
  simpl. unfold txn_read. do 2 thread_step.
  eapply wp_mono; [eapply (ps_write_txn_read_page (A := A)
    (I := serving (CUp A (InTxn t (working A txn)) o) (Some (t, WriteOpen txn)) (handles (shard_count s) ths)));
    [|done|done]| |done].
  { split; [done|]. split; [apply Hrun|]. intros i. apply few_of, Hrun. }
  intros r [db' w'] ((Hup' & Hon & _) & Hsame & _ & Hr). cbn [fst snd] in *.
  destruct r as [q|e]; thread_step; (split; [done|]); exists (CUp A (InTxn t (working A txn)) o);
    (split; [constructor; by rewrite ?working_lookup|]); apply crun_crep;
    eapply (move_holder _ _ (CUp A (InTxn t (working A txn)) o) s); try done; by apply same_but_pool_shape.
Qed.

Lemma sim_put σ s ths t txn id change :
  crun σ s ths → ths !! t = Some (WriteOpen txn) → (0 ≤ id)%Z → (∀ q, page_wf q → page_wf (change q)) →
  wp (tstep t (WriteOpen txn) (APut id change)) (csim t ths σ (sh_world s)) (csim_crash σ) s.
Proof.
  intros Hrun Hpc Hid Hch.
  destruct (holder_up _ _ _ _ _ Hrun Hpc eq_refl) as (A & g & o & -> & Hup); [done..|].
  destruct (up_txn _ _ _ _ _ _ _ Hup) as (-> & Ht & HA & _).
  simpl. unfold txn_put. do 2 thread_step.
  eapply wp_mono; [eapply (ps_page_mut (A := A)
    (I := serving (CUp A (InTxn t (working A txn)) o) (Some (t, WriteOpen txn)) (handles (shard_count s) ths)));
    [|done|done|done]| |done].
  { split; [done|]. split; [apply Hrun|]. intros i. apply few_of, Hrun. }
  intros r [db' w'] ((Hup' & Hon & _) & Hsame & _ & Hr). cbn [fst snd] in *.
  pose proof (same_but_pool_shape _ _ Hsame). destruct (up_txn _ _ _ _ _ _ _ Hup') as (_ & _ & _ & Hput).
  destruct r as [txn'|e]; thread_step.
  - destruct Hr as (Ht' & Ecnt & q & Hq & Hview).
    split; [done|]. exists (CUp A (InTxn t (put id (change q) (working A txn))) o).
    split; [constructor; by rewrite working_lookup|]. apply crun_crep.
    rewrite (working_put A txn txn') by done.
    eapply (move_holder _ _ (CUp A (InTxn t (working A txn)) o) s); try done. by apply Hput.
  - split; [done|]. exists (CUp A (InTxn t (working A txn)) o). split; [by constructor|]. apply crun_crep.
    by eapply (move_holder _ _ (CUp A (InTxn t (working A txn)) o) s).
Qed.

Lemma sim_alloc σ s ths t txn ty :
  crun σ s ths → ths !! t = Some (WriteOpen txn) → (txn_page_count txn < 2 ^ 52)%Z →
  wp (tstep t (WriteOpen txn) (AAlloc ty)) (csim t ths σ (sh_world s)) (csim_crash σ) s.
Proof.
  intros Hrun Hpc Hlt.
  destruct (holder_up _ _ _ _ _ Hrun Hpc eq_refl) as (A & g & o & -> & Hup); [done..|].
  destruct (up_txn _ _ _ _ _ _ _ Hup) as (-> & Ht & HA & Hnext).
  destruct (allocate_page_spec A txn ty HA Ht Hlt) as (Ht' & Eid & Ecnt & _ & Hview).
  cbn [tstep]. destruct (allocate_page ty txn) as [id txn']. simpl in *. subst id. thread_step.
  split; [done|]. exists (CUp A (InTxn t (alloc ty (working A txn))) o). split; [constructor|]. apply crun_crep.
  rewrite (working_alloc A txn txn') by done.
  eapply (move_holder _ _ (CUp A (InTxn t (working A txn)) o) s); try done; [apply Hrun|]. by apply Hnext.
Qed.

Lemma sim_rollback σ s ths t txn :
  crun σ s ths → ths !! t = Some (WriteOpen txn) →
  wp (tstep t (WriteOpen txn) ARollback) (csim t ths σ (sh_world s)) (csim_crash σ) s.
Proof.
  intros Hrun Hpc. destruct (holder_up _ _ _ _ _ Hrun Hpc eq_refl) as (A & g & o & -> & Hup); [done..|].
  destruct (up_txn _ _ _ _ _ _ _ Hup) as (-> & _). simpl. unfold unlock_wal. do 3 thread_step.
  split; [done|]. exists (CUp A Quiet o). split; [constructor|]. apply crun_crep.
  eapply (move_unlock _ _ _ s); try done; [apply Hrun|]. by eapply up_unlocked.
Qed.

Lemma on_files_at db w f fw :
  db_files db w f fw → on_files p wl db → w_files w !! p = Some f ∧ w_files w !! wl = Some fw.
Proof. intros [Hf Hfw] [<- <-]. done. Qed.

(** *** Logging a commit *)

Section Log.
Variables (A : AState) (txn : WriteTxn) (hs : nat → list PageHandle) (db : Database).
Variables (f fw : file) (first : Z) (rs : list WalRecord).
Hypothesis Hco : core A (a_pages A) (in_log rs) hs db f fw first rs.
Hypothesis Htxn : txn_rep A txn.
Hypothesis Hval : txn_valid txn.
Hypothesis Hroom : commit_room db txn.

Let id := next_txn db.
Let ps := txn_records A txn id.

Lemma log_room : log_fits first (rs ++ ps) ∧ u64_add id 1 = (id + 1)%Z ∧ u64_range (id + 1).
Proof.
  pose proof (co_txn _ _ _ _ _ _ _ _ _ Hco) as Hid. fold id in Hid.
  assert (id + 1 < 2 ^ 64)%Z by apply Hroom. split.
  - eapply commit_room_fits; try done; [apply (co_durable _ _ _ _ _ _ _ _ _ Hco)|apply Hco].
  - unfold u64_add. unfold u64_range in *. rewrite wrap_u64_id by (unfold u64_range; lia). lia.
Qed.

(** Once the records are durable so is the transaction. *)
Lemma logged_core wal fw' :
  f_entry_synced fw' = f_entry_synced fw → wal_rep wal fw' first (rs ++ ps) [] →
  core (txn_state A txn) (a_pages A) (in_log (rs ++ ps)) hs
    (set_db_wal wal (set_next_txn (u64_add id 1) db)) f fw' first (rs ++ ps).
Proof.
  intros He Hrep. destruct log_room as (Hfit & En & Hr). destruct Hco as [Hdu Hw Hid Hfr HD Hpool].
  split; simpl; rewrite ?En; try done.
  - eapply durable_logged; try done; [rewrite He; apply Hdu|by eapply rep_log].
  - apply txn_records_fresh; [done|]. fold id. lia.
  - eapply pool_inv_mono; [|done]. by apply in_log_grow.
Qed.

(** A log cut short holds the state before or the state after. *)
Lemma torn_recovers fw' f' w :
  f_entry_synced fw' = f_entry_synced fw → torn_flush fw' first rs ps →
  pages_written (in_log rs) f f' → w_files w !! p = Some f' → w_files w !! wl = Some fw' →
  recovers_checked (λ X, X ∈ [A; sealed (working A txn)]) p wl w.
Proof.
  intros He Ht Hpw Hf Hfw. destruct log_room as (Hfit & _).
  pose proof (core_durable _ _ _ _ _ _ _ _ _ _ Hco Hpw) as Hdu.
  rewrite sealed_working by apply Hdu. eapply recovers_checked_mono;
    [|eapply (torn_commit_recovers A txn f' fw first rs id Hdu Htxn Hval (co_txn _ _ _ _ _ _ _ _ _ Hco)
       (co_fresh _ _ _ _ _ _ _ _ _ Hco) Hfit); [|exact Ht|done..]].
  - intros X [->| ->]; repeat constructor.
  - rewrite He. apply Hdu.
Qed.

End Log.

Lemma sim_commit σ s ths t txn :
  crun σ s ths → ths !! t = Some (WriteOpen txn) → commit_room (sh_db s) txn →
  wp (tstep t (WriteOpen txn) ACommit) (csim t ths σ (sh_world s)) (csim_crash σ) s.
Proof.
  intros Hrun Hpc Hroom.
  destruct (holder_up _ _ _ _ _ Hrun Hpc eq_refl) as (A & g & o & -> & Hup); [done..|].
  destruct (up_txn _ _ _ _ _ _ _ Hup) as (-> & Ht & HA & _).
  simpl. unfold commit_seal, unlock_wal. case_decide as Ed.
  { do 3 thread_step. split; [done|]. exists (CUp A Quiet o). rewrite (working_empty A txn) by done.
    split; [constructor|]. apply crun_crep.
    eapply (move_unlock _ _ _ s); try done; [apply Hrun|]. by eapply up_unlocked. }
  pose proof (seal_dirty_spec (dirty txn)) as Hseal. destruct (seal_dirty (dirty txn)) as [pages|e].
  2:{ destruct Hseal as (_ & j & q & Hin & Hv). do 3 thread_step. split; [done|]. exists (CUp A Quiet o). split.
      - constructor. rewrite sealable_working by done. intros Hval. specialize (Hval _ _ Hin). congruence.
      - apply crun_crep. eapply (move_unlock _ _ _ s); try done; [apply Hrun|]. by eapply up_unlocked. }
  destruct Hseal as [-> Hval]. thread_step. split; [done|]. exists (CUp A (Logs t (working A txn)) o).
  split; [constructor; by apply sealable_working|]. apply crun_crep.
  eapply (move_holder _ _ (CUp A (InTxn t (working A txn)) o) s); try done; [apply Hrun|].
  destruct Hup as (_ & Hcnt & Hpo & f & fw & first & rs & B & L & D & Hfs & Hco & Hph).
  destruct (phase_txn _ _ _ _ _ _ _ _ _ _ _ _ Hph) as (_ & _ & -> & -> & ->).
  eapply up_intro; try done. by constructor.
Qed.

Lemma phase_logging A db f fw first rs g t txn pages B L D :
  phase A db f fw first rs g (Some (t, Logging txn pages)) B L D →
  g = Logs t (working A txn) ∧ pages = bt_map (λ _, seal) (dirty txn) ∧ txn_rep A txn ∧
  txn_valid txn ∧ commit_room db txn ∧ B = A ∧ L = a_pages A ∧ D = in_log rs.
Proof. by inversion 1. Qed.

Lemma sim_log σ s ths t txn pages :
  crun σ s ths → ths !! t = Some (Logging txn pages) →
  wp (tstep t (Logging txn pages) AGo) (csim t ths σ (sh_world s)) (csim_crash σ) s.
Proof.
  intros Hrun Hpc. destruct (holder_up _ _ _ _ _ Hrun Hpc eq_refl) as (A & g & o & -> & Hup); [done..|].
  destruct Hup as (HA & Hcnt & Hpo & f & fw & first & rs & B & L & D & Hfs & Hco & Hph).
  destruct (phase_logging _ _ _ _ _ _ _ _ _ _ _ _ _ Hph) as (-> & -> & Ht & Hval & Hroom & -> & -> & ->).
  simpl. unfold commit_log.
  pose proof (on_files_ne p wl Hne _ (cr_files _ _ _ _ _ Hrun)) as Hd. destruct (cr_files _ _ _ _ _ Hrun) as [E1 E2].
  destruct (log_room _ _ _ _ _ _ _ _ Hco Ht Hroom) as (Hfit & En & _).
  unfold next_txn_id, db_page_count. do 8 thread_step. do 4 thread_step.
  cbn [fst snd sh_db sh_world sh_locks set_next_txn db_disk]. rewrite Hcnt, commit_images_records. set (id := next_txn (sh_db s)) in *.
  eapply wp_mono; [apply (wp_log id _ (set_next_txn (u64_add id 1) (sh_db s)) (sh_world s) fw first rs);
    [apply Hco|apply txn_records_wf; try done; apply Hco|apply Hco|apply Hfs|done]| |].
  2:{ intros [db1 w1] (_ & fw1 & Hw1 & He1 & Htn). apply up_stops.
      destruct (files_wal _ _ _ _ _ _ Hfs Hd Hw1) as [Hfa Hfb]. rewrite E1 in Hfa. rewrite E2 in Hfb.
      eapply torn_recovers; try done. apply pages_written_refl. }
  intros r [db1 w1] (wal1 & fw1 & Edb & Hf1 & Hw1 & He1 & Hr). simpl in Edb, Hf1; subst db1.
  destruct (files_wal _ _ _ _ _ _ Hfs Hd Hw1) as [Hfa Hfb].
  set (db1 := set_db_wal _ _). assert (db_files db1 w1 f fw1) as Hfs1 by (split; [done|simpl; by rewrite Hf1]).
  assert (on_files p wl db1) as Hon1 by (split; [done|simpl; congruence]).
  destruct r as [[]|e]; thread_step.
  - split; [done|]. exists (CUp A (Logged t (working A txn)) o). split; [by constructor|]. apply crun_crep.
    eapply (move_holder _ _ (CUp A (Logs t (working A txn)) o) s); try done. cbn [sh_db sh_world].
    eapply up_intro; try done.
    + eapply logged_core; done.
    + constructor; try done. apply images_in_log; [done|]. apply Hco.
  - split; [by intros _; apply Hr|].
    exists (CHalted (Some (t, TvCommitFailed)) (Some A) [A; sealed (working A txn)] o).
    split; [constructor|]. apply crun_crep.
    eapply (move_holder _ _ (CUp A (Logs t (working A txn)) o) s); try done. cbn [sh_db sh_world].
    split; [done|]. exists f, fw1, (in_log rs). split; [done|]. split.
    + intros f' w' Hpw [Hfa' Hfb']%(on_files_at db1); [|done].
      destruct Hr as [_ Htn]. by eapply torn_recovers.
    + split; [done|done|apply Hco].
Qed.

(** *** Publishing *)

Lemma phase_logged A db f fw first rs g t count images B L D :
  phase A db f fw first rs g (Some (t, PublishWaiting count images)) B L D → ∃ txn id,
    g = Logged t (working A txn) ∧ txn_rep A txn ∧ txn_valid txn ∧ count = txn_page_count txn ∧
    images = image_records id (txn_images A txn) ∧
    (∀ j q, (j, q) ∈ txn_images A txn → in_log rs j) ∧
    B = txn_state A txn ∧ L = a_pages A ∧ D = in_log rs.
Proof. inversion 1; subst. eexists _, _. by split_and!. Qed.

Lemma phase_publishing A db f fw first rs g t images B L D :
  phase A db f fw first rs g (Some (t, Publishing images)) B L D → ∃ id todo,
    g = Publishes t ∧ images = image_records id todo ∧ remaining A (db_disk db) todo L ∧
    (∀ j q, (j, q) ∈ todo → in_log rs j) ∧ B = A ∧ D = in_log rs.
Proof. inversion 1; subst. eexists _, _. by split_and!. Qed.

Lemma core_handles B L D hs hs' db f fw first rs :
  (∀ i, hs i ≡ₚ hs' i) → core B L D hs db f fw first rs → core B L D hs' db f fw first rs.
Proof. intros Hp []. split; try done. by eapply pool_inv_handles. Qed.

Lemma sim_publish_lock σ s ths t count images :
  crun σ s ths → ths !! t = Some (PublishWaiting count images) →
  wp (tstep t (PublishWaiting count images) AGo) (csim t ths σ (sh_world s)) (csim_crash σ) s.
Proof.
  intros Hrun Hpc. destruct (holder_up _ _ _ _ _ Hrun Hpc eq_refl) as (A & g & o & -> & Hup); [done..|].
  destruct Hup as (HA & Hcnt & Hpo & f & fw & first & rs & B & L & D & Hfs & Hco & Hph).
  destruct (phase_logged _ _ _ _ _ _ _ _ _ _ _ _ _ Hph)
    as (txn & id & -> & Ht & Hval & -> & -> & Hlog & -> & -> & ->).
  simpl. unfold lock_publish_write. do 2 thread_step. pose proof (cr_opened _ _ _ _ _ Hrun) as Eo. simpl in Eo.
  destruct (publish_readers (sh_locks s)) eqn:Er; [|by thread_step].
  destruct (publish_writer (sh_locks s)) eqn:Ew; [by thread_step|].
  unfold publish_count. do 4 thread_step. unfold set_page_count. cbn [sh_db].
  pose proof (tr_count _ _ Ht) as Hc. rewrite Hcnt, (proj2 (Z.ltb_ge _ _)) by lia.
  do 3 thread_step. thread_step. subst o.
  split; [done|]. exists (CUp (sealed (working A txn)) (Publishes t) []).
  split; [constructor|]. rewrite sealed_working by done. apply crun_crep.
  assert (a_wf (txn_state A txn)) as HA' by by apply txn_state_wf.
  eapply (move_publisher _ _ (CUp A (Logged t (working A txn)) []) s); try done; cbn [sh_locks sh_db sh_world fst snd].
  - by eapply lock_write_ok; [apply Hrun|..].
  - apply Hrun.
  - eapply up_intro; try done; [by destruct Hco|]. constructor; [|done]. by apply remaining_start.
Qed.

Lemma sim_publish_image σ s ths t r images :
  crun σ s ths → ths !! t = Some (Publishing (r :: images)) →
  wp (tstep t (Publishing (r :: images)) AGo) (csim t ths σ (sh_world s)) (csim_crash σ) s.
Proof.
  intros Hrun Hpc. destruct (holder_up _ _ _ _ _ Hrun Hpc eq_refl) as (A & g & o & -> & Hup); [done..|].
  destruct Hup as (HA & Hcnt & Hpo & f & fw & first & rs & B & L & D & Hfs & Hco & Hph).
  destruct (phase_publishing _ _ _ _ _ _ _ _ _ _ _ _ Hph)
    as (id & [|[j q] rest] & -> & Eimg & Hrem & Hlog & -> & ->); [done|].
  injection Eimg as -> ->. destruct (publisher_excludes _ _ _ _ _ Hrun) as [_ Er].
  assert (∀ n i, handles n ths i = []) as Hnone by (intros; by eapply handles_none; [apply Hrun|]).
  apply (core_handles _ _ _ _ (λ _, [])) in Hco; [|intros i; by rewrite Hnone].
  pose proof (co_durable _ _ _ _ _ _ _ _ _ Hco) as Hdu.
  pose proof (on_files_ne p wl Hne _ (cr_files _ _ _ _ _ Hrun)) as Hd.
  simpl. unfold publish_image. do 4 thread_step.
  eapply wp_mono; [eapply (wp_install_image A _ id j q rest _ _ f fw first rs L); try done| |].
  - apply Hfs.
  - eapply Hlog. constructor.
  - apply Hco.
  - intros r [db' w'] (f' & pl & Edb & [Hw' Hpw] & Hr). simpl in Edb. subst db'. cbn [fst snd].
    pose proof (files_data _ _ _ _ _ _ Hfs Hd Hw') as Hfs'. destruct r as [[]|e].
    + destruct Hr as (L' & Hrem' & Hpool). thread_step. split; [done|]. exists (CUp A (Publishes t) o).
      split; [by constructor|]. apply crun_crep.
      eapply (move_publisher _ _ (CUp A (Publishes t) o) s); try done; cbn [sh_locks sh_db sh_world].
      * by eapply locks_same; [apply Hrun|..].
      * apply Hrun.
      * apply Hrun.
      * eapply (data_inv_handles p wl _ _ (λ _, [])); [intros i; by rewrite Hnone|].
        eapply up_intro; try done; [by eapply core_written|]. constructor; [done|].
        intros. eapply Hlog. by constructor.
    + do 3 thread_step. split; [done|]. exists (CHalted (Some (t, TvCommitFailed)) None [A] o). split; [constructor|].
      destruct (unlock_write_ok _ _ t _ (Failing TvCommitFailed) (cr_locks _ _ _ _ _ Hrun) Hpc)
        as [_ Hl]; try done.
      pose proof (cr_opened _ _ _ _ _ Hrun) as Eo. simpl in Eo. rewrite Er in Eo. apply crun_crep.
      eapply (move_publisher _ _ (CUp A (Publishes t) o) s); try done; cbn [sh_locks sh_db sh_world].
      * simpl. congruence.
      * apply Hrun.
      * split; [done|]. exists f', fw, (in_log rs). split; [done|]. split; [|done].
        intros f2 w2 Hpw2 [Hfa Hfb]%(on_files_at (sh_db s)); [|apply Hrun]. apply recovers_one.
        eapply durable_recovers; [|done..]. eapply du_written; [|done]. by eapply du_written.
  - intros [db' w'] (_ & f' & [Hw' Hpw]). apply up_stops.
    pose proof (files_data _ _ _ _ _ _ Hfs Hd Hw') as [Hfa Hfb]%on_files_at; [|apply Hrun].
    apply recovers_one. eapply durable_recovers; [|done..]. by eapply du_written.
Qed.

Lemma sim_publish_end σ s ths t :
  crun σ s ths → ths !! t = Some (Publishing []) →
  wp (tstep t (Publishing []) AGo) (csim t ths σ (sh_world s)) (csim_crash σ) s.
Proof.
  intros Hrun Hpc. destruct (holder_up _ _ _ _ _ Hrun Hpc eq_refl) as (A & g & o & -> & Hup); [done..|].
  destruct Hup as (HA & Hcnt & Hpo & f & fw & first & rs & B & L & D & Hfs & Hco & Hph).
  destruct (phase_publishing _ _ _ _ _ _ _ _ _ _ _ _ Hph)
    as (id & [|[j q] rest] & -> & Eimg & Hrem & Hlog & -> & ->); [|done].
  apply remaining_nil in Hrem as ->; [|done]. simpl. do 3 thread_step.
  split; [done|]. exists (CUp A (Returns t) o). split; [constructor|]. apply crun_crep.
  destruct (unlock_write_ok _ _ t _ Published (cr_locks _ _ _ _ _ Hrun) Hpc) as [_ Hl]; try done.
  eapply (move_publisher _ _ (CUp A (Publishes t) o) s); try done; cbn [sh_locks sh_db sh_world].
  - apply Hrun.
  - apply Hrun.
  - eapply up_intro; try done. constructor.
Qed.

(** ** Checkpoints *)

Lemma wp_checkpoint_io own m pc Q C s :
  wp (m (db_disk (sh_db s)))
    (λ r x, let s' := {| sh_db := x.1; sh_world := x.2; sh_locks := sh_locks s |} in
       match r with
       | Ok _ => Q (Some (TvTau, pc)) s'
       | Err _ => Q (Some (TvFailure, Failing (checkpoint_failed own))) s'
       end)
    (λ x, C {| sh_db := x.1; sh_world := x.2; sh_locks := sh_locks s |}) (sh_db s, sh_world s) →
  wp (checkpoint_io own m pc) Q C s.
Proof.
  intros Hm. unfold checkpoint_io. do 4 thread_step. eapply wp_mono; [exact Hm| |done].
  intros [[]|e] x HQ; by thread_step.
Qed.

(** A checkpoint goes on, fails, or is interrupted. *)
Section CheckpointMoves.
Variables (A : AState) (own : bool) (t : tid) (o : list tid) (s : Shared) (ths : list thread).
Variables (pc : thread).
Let σ := CUp A (checkpointing own t) o.
Hypothesis Hrun : crun σ s ths.
Hypothesis Hpc : ths !! t = Some pc.
Hypothesis Hwal : holds_wal pc = true.
Hypothesis Hpub : holds_publish pc = false.

Lemma checkpoint_goes pc' db' w' :
  holds_wal pc' = true → holds_publish pc' = false → on_files p wl db' →
  length (shards (db_pool db')) = shard_count s →
  up_inv A (checkpointing own t) (Some (t, pc')) (handles (shard_count s) ths) db' w' →
  csim t ths σ (sh_world s) (Some (TvTau, pc')) {| sh_db := db'; sh_world := w'; sh_locks := sh_locks s |}.
Proof.
  intros. split; [done|]. exists σ. split; [by constructor|]. apply crun_crep.
  eapply (move_holder _ _ σ s); try done. congruence.
Qed.

Lemma checkpoint_fails D db' w' f' fw' :
  on_files p wl db' → length (shards (db_pool db')) = shard_count s →
  db_files db' w' f' fw' → cache A D (handles (shard_count s) ths) db' f' →
  (∀ f2 w2, pages_written D f' f2 → db_files db' w2 f2 fw' → recovers (λ X, X = A) p wl w2) →
  ¬ io_ok (sh_world s) →
  csim t ths σ (sh_world s) (Some (TvFailure, Failing (checkpoint_failed own)))
    {| sh_db := db'; sh_world := w'; sh_locks := sh_locks s |}.
Proof.
  intros Hon Hlen Hfs Hca Hrec Hn. split; [done|].
  exists (CHalted (Some (t, checkpoint_failed own)) (Some A) [A] o).
  split; [unfold σ; destruct own; constructor|]. apply crun_crep.
  eapply (move_holder _ _ σ s); try done. split; [by destruct own|]. exists f', fw', D.
  split; [done|]. split; [|done]. intros f2 w2 H1 H2. apply recovers_one. by eapply Hrec.
Qed.

Lemma checkpoint_stops w : recovers (λ X, X = A) p wl w → stops p wl σ w.
Proof. clear Hrun. intros Hr. apply up_stops. destruct own; by apply recovers_one. Qed.

End CheckpointMoves.

Lemma phase_published A db f fw first rs g t B L D :
  phase A db f fw first rs g (Some (t, Published)) B L D →
  g = Returns t ∧ B = A ∧ L = a_pages A ∧ D = in_log rs.
Proof. by inversion 1. Qed.

Lemma sim_after_publish σ s ths t :
  crun σ s ths → ths !! t = Some Published →
  wp (tstep t Published AGo) (csim t ths σ (sh_world s)) (csim_crash σ) s.
Proof.
  intros Hrun Hpc. destruct (holder_up _ _ _ _ _ Hrun Hpc eq_refl) as (A & g & o & -> & Hup); [done..|].
  destruct Hup as (HA & Hcnt & Hpo & f & fw & first & rs & B & L & D & Hfs & Hco & Hph).
  destruct (phase_published _ _ _ _ _ _ _ _ _ _ _ Hph) as (-> & -> & -> & ->).
  assert (∀ s', s' = {| sh_db := sh_db s; sh_world := sh_world s;
      sh_locks := set_wal_lock None (sh_locks s) |} →
    csim t ths (CUp A (Returns t) o) (sh_world s) (Some (TvCommitted, Idle)) s') as Hret.
  { intros s' ->. split; [done|]. exists (CUp A Quiet o). split; [constructor|]. apply crun_crep.
    eapply (move_unlock _ _ (CUp A (Returns t) o) s); try done; [apply Hrun|].
    eapply up_intro; try done. constructor. }
  simpl. unfold after_publish, all_shards, unlock_wal. do 6 thread_step.
  destruct (db_auto_checkpoint_bytes (sh_db s)) as [limit|]; [|do 3 thread_step; by apply Hret].
  destruct (_ <=? _)%Z; [|do 3 thread_step; by apply Hret]. thread_step.
  destruct s as [db w l]. apply (checkpoint_goes A false t o _ ths _ Hrun Hpc); try done; [apply Hrun|].
  apply (up_intro _ _ _ _ _ _ _ _ _ _ _ _ _ HA Hcnt Hpo Hfs (flush_start _ _ _ _ _ _ _ Hco)).
  apply (ph_flushing _ _ _ _ _ _ false). intros i Hi%elem_of_seq. simpl in *. lia.
Qed.

(** *** Flushing *)

Lemma phase_flushing A db f fw first rs g t own todo B L D :
  phase A db f fw first rs g (Some (t, Flushing own todo)) B L D →
  g = checkpointing own t ∧ B = A ∧ L = a_pages A ∧
  D = to_flush (length (shards (db_pool db))) rs todo ∧
  ∀ i, i ∈ todo → i < length (shards (db_pool db)).
Proof. inversion 1; by subst. Qed.

Lemma phase_shard A db f fw first rs g t own todo i ids B L D :
  phase A db f fw first rs g (Some (t, FlushingShard own todo i ids)) B L D →
  g = checkpointing own t ∧ B = A ∧ L = a_pages A ∧
  D = to_flush_in (length (shards (db_pool db))) rs todo i ids ∧
  ∀ j, j ∈ i :: todo → j < length (shards (db_pool db)).
Proof. inversion 1; by subst. Qed.

Lemma sim_list_shard σ s ths t own i todo :
  crun σ s ths → ths !! t = Some (Flushing own (i :: todo)) →
  wp (tstep t (Flushing own (i :: todo)) AGo) (csim t ths σ (sh_world s)) (csim_crash σ) s.
Proof.
  intros Hrun Hpc. destruct (holder_up _ _ _ _ _ Hrun Hpc eq_refl) as (A & g & o & -> & Hup); [done..|].
  destruct Hup as (HA & Hcnt & Hpo & f & fw & first & rs & B & L & D & Hfs & Hco & Hph).
  destruct (phase_flushing _ _ _ _ _ _ _ _ _ _ _ _ _ Hph) as (-> & -> & -> & -> & Hlt).
  destruct (lookup_lt_is_Some_2 (shards (db_pool (sh_db s))) i) as [sh Hi]; [apply Hlt; constructor|].
  simpl. unfold list_shard. do 2 thread_step. apply wp_with_pool. eapply wp_on_shard; [exact Hi|].
  do 2 pool_step. cbn [fst snd]. rewrite with_st_same, list_insert_id by done. thread_step.
  assert (set_db_pool {| shards := shards (db_pool (sh_db s)) |} (sh_db s) = sh_db s) as ->
    by by destruct s as [[? [] ? ? ? ? ?] ? ?].
  eapply (checkpoint_goes A own t o s); try done; [apply Hrun|].
  eapply up_intro; [done..| |by constructor].
  eapply core_dirty; [exact Hco|by intros id []|].
  eapply pool_inv_mono; [|eapply pool_inv_list_keys; [apply Hco|exact Hi]].
  intros id [[Hin [Ei|Htodo]%elem_of_cons] Hk]; (split; [done|]); [right; split; [done|]|by left].
  by apply Hk.
Qed.

(** Whatever the checkpoint has written so far, the files hold [A]. *)
Lemma core_written_recovers A L D hs db f fw first rs f' w' :
  core A L D hs db f fw first rs → on_files p wl db → pages_written D f f' → db_files db w' f' fw →
  recovers (λ X, X = A) p wl w'.
Proof.
  intros Hco Hon Hpw [Hf Hfw]%on_files_at; [|done]. eapply durable_recovers; [|done..].
  by eapply core_durable.
Qed.

Lemma sim_flush_page σ s ths t own todo i id ids :
  crun σ s ths → ths !! t = Some (FlushingShard own todo i (id :: ids)) →
  wp (tstep t (FlushingShard own todo i (id :: ids)) AGo) (csim t ths σ (sh_world s)) (csim_crash σ) s.
Proof.
  intros Hrun Hpc. destruct (holder_up _ _ _ _ _ Hrun Hpc eq_refl) as (A & g & o & -> & Hup); [done..|].
  destruct Hup as (HA & Hcnt & Hpo & f & fw & first & rs & B & L & D & Hfs & Hco & Hph).
  destruct (phase_shard _ _ _ _ _ _ _ _ _ _ _ _ _ _ _ Hph) as (-> & -> & -> & -> & Hlt).
  pose proof (cr_files _ _ _ _ _ Hrun) as Hon. pose proof (on_files_ne p wl Hne _ Hon) as Hd.
  simpl. apply wp_checkpoint_io. apply wp_with_pool.
  eapply wp_mono; [eapply (wp_flush_one _ (a_disk_wf A _ HA Hcnt) _ _ _ _ _ _ i id
    (a_pages_wf A _ HA Hcnt) (co_pool _ _ _ _ _ _ _ _ _ Hco) (proj1 Hfs));
    [apply Hlt; constructor|intros; apply few_of, Hrun]| |].
  - intros r [pl w'] (f' & [Hw' Hpw] & Hlen & Hr). cbn [fst snd] in *.
    pose proof (files_data _ _ _ _ _ _ Hfs Hd Hw') as Hfs'. destruct r as [[]|e].
    + eapply (checkpoint_goes A own t o s); try done.
      eapply (up_intro _ _ _ _ _ _ f' fw first rs A); try done; [|constructor; simpl; by rewrite Hlen].
      eapply core_dirty; [|by intros id' []|].
      { eapply core_written; [exact Hco|exact Hpw|]. eapply pool_inv_mono; [|exact Hr]. by intros ? []. }
      simpl. rewrite Hlen. eapply pool_inv_mono; [|exact Hr].
      intros id' [[Hin Hor] Hn]. split; [done|]. destruct Hor as [|[Ei [->|]%elem_of_cons]]; [by left| |by right].
      by destruct (Hn Ei).
    + destruct Hr as [Hio Hpool]. eapply (checkpoint_fails A own t o s); try done.
      intros f2 w2 Hpw2 Hfs2. eapply core_written_recovers; [exact Hco|done| |exact Hfs2].
      by eapply pages_written_trans.
  - intros [pl w'] (_ & f' & [Hw' Hpw]). apply checkpoint_stops.
    eapply core_written_recovers; [exact Hco|done|exact Hpw|]. by eapply files_data.
Qed.

Lemma sim_shard_done σ s ths t own todo i :
  crun σ s ths → ths !! t = Some (FlushingShard own todo i []) →
  wp (tstep t (FlushingShard own todo i []) AGo) (csim t ths σ (sh_world s)) (csim_crash σ) s.
Proof.
  intros Hrun Hpc. destruct (holder_up _ _ _ _ _ Hrun Hpc eq_refl) as (A & g & o & -> & Hup); [done..|].
  destruct Hup as (HA & Hcnt & Hpo & f & fw & first & rs & B & L & D & Hfs & Hco & Hph).
  destruct (phase_shard _ _ _ _ _ _ _ _ _ _ _ _ _ _ _ Hph) as (-> & -> & -> & -> & Hlt).
  simpl. thread_step. destruct s as [db w l].
  apply (checkpoint_goes A own t o _ ths _ Hrun Hpc); try done; [apply Hrun|].
  eapply up_intro; [done..| |constructor; intros j Hj; apply Hlt; by constructor].
  eapply core_dirty; [exact Hco|by intros id []|].
  eapply pool_inv_mono; [|apply Hco]. intros id [Hin [Hor|[_ []%not_elem_of_nil]]]. by split.
Qed.

(** *** The file *)

Lemma core_nothing_dirty A D hs db f fw first rs :
  core A (a_pages A) D hs db f fw first rs → (∀ id, ¬ D id) →
  pool_inv (a_pages A) (λ _, False) hs f (db_pool db) ∧ ∀ id q, a_pages A !! id = Some q → disk_has f id q.
Proof.
  intros Hco HD. assert (pool_inv (a_pages A) (λ _, False) hs f (db_pool db)) as Hpool.
  { eapply pool_inv_mono; [|apply Hco]. intros id Hid. by destruct (HD id). }
  split; [done|]. intros id q Hq. apply (a_pages_stored A); [apply (co_durable _ _ _ _ _ _ _ _ _ Hco)|done|].
  by eapply pool_inv_nothing_dirty.
Qed.

Lemma durable_flushed A f fw first rs :
  durable A f fw first rs → (∀ id q, a_pages A !! id = Some q → disk_has f id q) →
  flushed A fw first rs (file_sync f).
Proof. intros Hd Hp. eapply flushed_sync; [exact Hd|apply pages_written_refl|done]. Qed.

Lemma sim_flush_sync σ s ths t own :
  crun σ s ths → ths !! t = Some (Flushing own []) →
  wp (tstep t (Flushing own []) AGo) (csim t ths σ (sh_world s)) (csim_crash σ) s.
Proof.
  intros Hrun Hpc. destruct (holder_up _ _ _ _ _ Hrun Hpc eq_refl) as (A & g & o & -> & Hup); [done..|].
  destruct Hup as (HA & Hcnt & Hpo & f & fw & first & rs & B & L & D & Hfs & Hco & Hph).
  destruct (phase_flushing _ _ _ _ _ _ _ _ _ _ _ _ _ Hph) as (-> & -> & -> & -> & _).
  destruct (core_nothing_dirty _ _ _ _ _ _ _ _ Hco) as [Hpool Hdisk]; [by intros id [_ []%not_elem_of_nil]|].
  pose proof (cr_files _ _ _ _ _ Hrun) as Hon. pose proof (on_files_ne p wl Hne _ Hon) as Hd.
  pose proof (durable_flushed _ _ _ _ _ (co_durable _ _ _ _ _ _ _ _ _ Hco) Hdisk) as Hfl.
  assert (core A (a_pages A) (λ _, False) (handles (shard_count s) ths) (sh_db s) f fw first rs) as Hco'
    by by eapply core_dirty.
  simpl. apply wp_checkpoint_io. unfold flush_sync. do 2 thread_step. case_decide as En.
  { destruct (pi_count _ _ _ _ _ Hpool) as [k Hk]. cbn [fst] in En. rewrite Hk in En.
    by apply Nat.pow_nonzero in En. }
  apply wp_with_world. eapply wp_sync_all; [apply Hfs| |].
  - intros w' Hw'. pose proof (files_data _ _ _ _ _ _ Hfs Hd Hw') as Hfs'. cbn [fst snd].
    eapply (checkpoint_goes A own t o s); try done. eapply up_intro; [done..| |by constructor].
    destruct Hco'. split; try done; [apply Hfl|]. by eapply pool_inv_disk; [|exact Hpool].
  - intros Hio w' Hw'. pose proof (files_same _ _ _ _ _ Hfs Hw') as Hfs'. split.
    + apply checkpoint_stops. eapply core_written_recovers; [exact Hco|done|apply pages_written_refl|done].
    + intros code. cbn [fst snd]. eapply (checkpoint_fails A own t o s) with (D := λ _, False); try done.
      intros f2 w2 Hpw2 Hfs2. by eapply core_written_recovers.
Qed.

Lemma phase_header A db f fw first rs g t own B L D :
  phase A db f fw first rs g (Some (t, WritingHeader own)) B L D →
  g = checkpointing own t ∧ B = A ∧ L = a_pages A ∧ D = (λ _, False) ∧ flushed A fw first rs f.
Proof. inversion 1; by subst. Qed.

Lemma phase_sync A db f fw first rs g t own B L D :
  phase A db f fw first rs g (Some (t, SyncingHeader own)) B L D →
  g = checkpointing own t ∧ B = A ∧ L = a_pages A ∧ D = (λ _, False) ∧
  ∃ f1, flushed A fw first rs f1 ∧ f = file_apply (WriteAt 0 (header_of A)) f1.
Proof. inversion 1; subst; eauto 10. Qed.

Lemma phase_reset A db f fw first rs g t own B L D :
  phase A db f fw first rs g (Some (t, ResettingLog own)) B L D →
  g = checkpointing own t ∧ B = A ∧ L = a_pages A ∧ D = (λ _, False) ∧
  ∃ f1, flushed A fw first rs f1 ∧ f = file_sync (file_apply (WriteAt 0 (header_of A)) f1).
Proof. inversion 1; subst; eauto 10. Qed.

(** The header, or part of it, does not disturb the pages. *)
Lemma pool_inv_header A hs f pl n :
  a_wf A → pool_inv (a_pages A) (λ _, False) hs f pl →
  pool_inv (a_pages A) (λ _, False) hs (file_apply (WriteAt 0 (take n (header_of A))) f) pl.
Proof.
  intros HA. apply pool_inv_disk. intros id q Hq Hhas. pose proof (a_pages_pos _ _ _ HA Hq).
  apply (disk_has_write_ne f id HEADER (seal q)); unfold HEADER; try lia; [|done].
  unfold header_of. rewrite length_take. pose proof (encode_wf {| page_count := a_count A |}) as E.
  unfold page_wf in E. lia.
Qed.

Lemma sim_header σ s ths t own :
  crun σ s ths → ths !! t = Some (WritingHeader own) →
  wp (tstep t (WritingHeader own) AGo) (csim t ths σ (sh_world s)) (csim_crash σ) s.
Proof.
  intros Hrun Hpc. destruct (holder_up _ _ _ _ _ Hrun Hpc eq_refl) as (A & g & o & -> & Hup); [done..|].
  destruct Hup as (HA & Hcnt & Hpo & f & fw & first & rs & B & L & D & Hfs & Hco & Hph).
  destruct (phase_header _ _ _ _ _ _ _ _ _ _ _ _ Hph) as (-> & -> & -> & -> & Hfl).
  pose proof (cr_files _ _ _ _ _ Hrun) as Hon. pose proof (on_files_ne p wl Hne _ Hon) as Hd.
  assert (∀ n, core A (a_pages A) (λ _, False) (handles (shard_count s) ths) (sh_db s)
    (file_apply (WriteAt 0 (take n (header_of A))) f) fw first rs) as Hco'.
  { intros n. pose proof (flushed_header _ _ _ _ _ (co_durable _ _ _ _ _ _ _ _ _ Hco) _ n Hfl).
    destruct Hco. split; try done. by apply pool_inv_header. }
  simpl. apply wp_checkpoint_io, wp_with_world.
  eapply wp_write_file_header; [apply Hfs| |]; rewrite Hcnt; fold (header_of A).
  - intros w' Hw'. pose proof (files_data _ _ _ _ _ _ Hfs Hd Hw') as Hfs'. cbn [fst snd].
    specialize (Hco' PAGE_SIZE).
    rewrite firstn_all2 in * by (unfold header_of; rewrite encode_wf; done).
    eapply (checkpoint_goes A own t o s); try done. by eapply up_intro; [done..|by econstructor].
  - intros Hio n w' Hw'. pose proof (files_data _ _ _ _ _ _ Hfs Hd Hw') as Hfs'. split.
    + apply checkpoint_stops. eapply core_written_recovers; [exact (Hco' n)|done|apply pages_written_refl|done].
    + intros e. cbn [fst snd]. eapply (checkpoint_fails A own t o s) with (D := λ _, False); try done.
      * split; [done|done|apply (Hco' n)].
      * intros f2 w2 Hpw2 Hfs2. by eapply core_written_recovers; [exact (Hco' n)|..].
Qed.

Lemma sim_sync_header σ s ths t own :
  crun σ s ths → ths !! t = Some (SyncingHeader own) →
  wp (tstep t (SyncingHeader own) AGo) (csim t ths σ (sh_world s)) (csim_crash σ) s.
Proof.
  intros Hrun Hpc. destruct (holder_up _ _ _ _ _ Hrun Hpc eq_refl) as (A & g & o & -> & Hup); [done..|].
  destruct Hup as (HA & Hcnt & Hpo & f & fw & first & rs & B & L & D & Hfs & Hco & Hph).
  destruct (phase_sync _ _ _ _ _ _ _ _ _ _ _ _ Hph) as (-> & -> & -> & -> & f1 & Hfl & Ef).
  pose proof (cr_files _ _ _ _ _ Hrun) as Hon. pose proof (on_files_ne p wl Hne _ Hon) as Hd.
  destruct (core_nothing_dirty _ _ _ _ _ _ _ _ Hco) as [Hpool Hdisk]; [by intros id []|].
  pose proof (durable_flushed _ _ _ _ _ (co_durable _ _ _ _ _ _ _ _ _ Hco) Hdisk) as Hfl'.
  simpl. apply wp_checkpoint_io, wp_with_world. eapply wp_sync_all; [apply Hfs| |].
  - intros w' Hw'. pose proof (files_data _ _ _ _ _ _ Hfs Hd Hw') as Hfs'. cbn [fst snd].
    eapply (checkpoint_goes A own t o s); try done.
    eapply up_intro; [done..| |by econstructor; [exact Hfl|rewrite Ef]].
    destruct Hco. split; try done; [apply Hfl'|]. by eapply pool_inv_disk; [|exact Hpool].
  - intros Hio w' Hw'. pose proof (files_same _ _ _ _ _ Hfs Hw') as Hfs'. split.
    + apply checkpoint_stops. eapply core_written_recovers; [exact Hco|done|apply pages_written_refl|done].
    + intros code. cbn [fst snd]. eapply (checkpoint_fails A own t o s) with (D := λ _, False); try done.
      intros f2 w2 Hpw2 Hfs2. by eapply core_written_recovers.
Qed.

(** The log is empty again. *)
Lemma reset_core A hs db f1 f fw first rs wal fw' D :
  core A (a_pages A) (λ _, False) hs db f fw first rs → flushed A fw first rs f1 →
  f = file_sync (file_apply (WriteAt 0 (header_of A)) f1) →
  f_entry_synced fw' = f_entry_synced fw → wal_rep wal fw' (seq_at first (length rs)) [] [] →
  D = in_log [] →
  core A (a_pages A) D hs (set_db_wal wal db) f fw' (seq_at first (length rs)) [].
Proof.
  intros Hco Hfl -> He Hrep ->. pose proof (co_durable _ _ _ _ _ _ _ _ _ Hco) as Hd. split; try done.
  - apply durable_alone; [apply Hd|by apply clean_settled|apply Hd| |apply seq_at_range| |].
    + rewrite He. apply Hd.
    + by eapply rep_log.
    + by eapply (flushed_header_state A f1 fw first rs (fl_durable _ _ _ _ _ Hfl)).
  - simpl. apply Hco.
  - intros r []%not_elem_of_nil.
  - eapply pool_inv_mono; [|apply Hco]. done.
Qed.

Lemma sim_reset σ s ths t own :
  crun σ s ths → ths !! t = Some (ResettingLog own) →
  wp (tstep t (ResettingLog own) AGo) (csim t ths σ (sh_world s)) (csim_crash σ) s.
Proof.
  intros Hrun Hpc. destruct (holder_up _ _ _ _ _ Hrun Hpc eq_refl) as (A & g & o & -> & Hup); [done..|].
  destruct Hup as (HA & Hcnt & Hpo & f & fw & first & rs & B & L & D & Hfs & Hco & Hph).
  destruct (phase_reset _ _ _ _ _ _ _ _ _ _ _ _ Hph) as (-> & -> & -> & -> & f1 & Hfl & Ef).
  pose proof (cr_files _ _ _ _ _ Hrun) as Hon. pose proof (on_files_ne p wl Hne _ Hon) as Hd.
  pose proof (co_durable _ _ _ _ _ _ _ _ _ Hco) as Hdu.
  assert (∀ w' fw', f_entry_synced fw' = f_entry_synced fw → torn_reset fw' first rs →
    w_files w' !! p = Some f → w_files w' !! wl = Some fw' → recovers (λ X, X = A) p wl w') as Hrec.
  { intros w' fw' He Htorn Hfa Hfb. eapply (reset_recovers A f fw first rs); try done.
    - subst f. by apply clean_settled.
    - apply Hdu.
    - subst f. by eapply (flushed_header_state A f1 fw first rs (fl_durable _ _ _ _ _ Hfl)).
    - rewrite He. apply Hdu. }
  simpl. do 2 thread_step. apply wp_with_wal.
  eapply wp_mono; [eapply wp_wal_reset; [apply Hco|apply Hfs|apply Hdu]| |].
  - intros [r wal] w' (Hwf & fw' & Hw' & He & Hr). cbn [fst snd] in *.
    destruct (files_wal _ _ _ _ _ _ Hfs Hd Hw') as [Hfa Hfb].
    assert (db_files (set_db_wal wal (sh_db s)) w' f fw') as Hfs' by (split; [done|simpl; by rewrite Hwf]).
    assert (on_files p wl (set_db_wal wal (sh_db s))) as Hon' by (split; [apply Hon|simpl; rewrite Hwf; apply Hon]).
    destruct r as [[]|e].
    + unfold unlock_wal. do 3 thread_step. split; [by destruct own|]. exists (CUp A Quiet o).
      split; [destruct own; constructor|]. apply crun_crep.
      eapply (move_unlock _ _ (CUp A (checkpointing own t) o) s); try done.
      eapply up_intro; [done..|by eapply reset_core|constructor].
    + thread_step. eapply (checkpoint_fails A own t o s) with (D := λ _, False); try done.
      * split; [done|done|apply Hco].
      * intros f2 w2 ->%pages_written_none [Hfa2 Hfb2]%on_files_at; [|done]. destruct Hr as (_ & _ & ?).
        by eapply Hrec.
      * apply Hr.
  - intros w' (_ & fw' & Hw' & He & Htorn). apply checkpoint_stops. cbn [fst snd].
    destruct (on_files_at _ _ _ _ (files_wal _ _ _ _ _ _ Hfs Hd Hw') Hon) as [Hfa Hfb]. by eapply Hrec.
Qed.

(** ** Reporting a failure *)

Lemma sim_failing σ s ths t ev :
  crun σ s ths → ths !! t = Some (Failing ev) →
  wp (tstep t (Failing ev) AGo) (csim t ths σ (sh_world s)) (csim_crash σ) s.
Proof.
  intros Hrun Hpc. pose proof (holder_data _ _ _ _ _ Hrun Hpc eq_refl) as Hd.
  destruct σ as [A g o|r v P o| |]; try done.
  { destruct Hd as (_ & _ & _ & f & fw & first & rs & B & L & D & _ & _ & Hph). by inversion Hph. }
  destruct Hd as [Hr Hd]. destruct r as [[u ev']|]; [|by destruct Hr as [_ [?|[? ?]]]].
  destruct Hr as [Hr Hev]. simplify_eq.
  simpl. unfold unlock_wal. thread_step. thread_step. unfold poison. do 4 thread_step.
  split; [done|]. exists (CHalted None v P o). split; [constructor|]. apply crun_crep.
  eapply (move_unlock _ _ (CHalted (Some (u, ev')) v P o) s); try done; [apply Hrun|].
  split; [by split; [|left]|]. destruct Hd as (f & fw & D & ? & ? & Hv). exists f, fw, D.
  split; [done|]. split; [done|]. destruct v; [|done]. by destruct Hv.
Qed.

(** ** Any step *)

Lemma sim_step σ s ths t pc a :
  crun σ s ths → ths !! t = Some pc → action_ok a pc (sh_db s) →
  wp (tstep t pc a) (csim t ths σ (sh_world s)) (csim_crash σ) s.
Proof.
  intros Hrun Hpc Hok.
  destruct pc as [| | |h|h| | |txn|txn pages|count images|[|r images]| | |own [|i todo]|own todo i [|id ids]|own|own|own|ev];
    destruct a; try (by apply wp_ret); try (by eapply sim_enter; eauto).
  - by apply sim_begin_read.
  - by apply sim_fetch.
  - by apply sim_end_read.
  - by apply sim_look.
  - by apply sim_drop.
  - by apply sim_lock_write.
  - by apply sim_locked.
  - by apply sim_txn_read.
  - destruct Hok. by apply sim_put.
  - by apply sim_alloc.
  - by apply sim_rollback.
  - by apply sim_commit.
  - by apply sim_log.
  - by apply sim_publish_lock.
  - by apply sim_publish_end.
  - by apply sim_publish_image.
  - by apply sim_after_publish.
  - by apply sim_lock_checkpoint.
  - by apply sim_flush_sync.
  - by apply sim_list_shard.
  - by apply sim_shard_done.
  - by apply sim_flush_page.
  - by apply sim_header.
  - by apply sim_sync_header.
  - by apply sim_reset.
  - by apply sim_failing.
Qed.

(** ** Runs *)

Lemma crun_plan σ s ths plan : crun σ s ths → crun σ (plan_shared plan s) ths.
Proof. intros []. by split; try done; destruct σ. Qed.

Lemma crun_stops σ s ths : crun σ s ths → stops p wl σ (sh_world s).
Proof.
  intros [_ _ _ Hon Hd]. destruct σ as [A g o|r v P o| |]; try done.
  - destruct Hd as (HA & _ & _ & f & fw & first & rs & B & L & D & Hfs & Hco & Hph).
    apply up_stops. eapply core_recovers; try done. apply pages_written_refl.
  - destruct Hd as (_ & f & fw & D & Hfs & Hrec & _). apply halted_stops.
    eapply Hrec; [apply pages_written_refl|done].
Qed.

(** A database just opened, before any thread has used it. *)
Lemma fresh_crun A db w n :
  db_inv A db w → on_files p wl db → (Z.of_nat n + 1 < 2 ^ 32)%Z →
  crun (CUp A Quiet []) {| sh_db := db; sh_world := w; sh_locks := unlocked |} (replicate n Idle).
Proof.
  intros (Hpo & f & fw & first & rs & Hfs & Hdb) Hon Hn.
  pose proof (idle_locks n) as Hl.
  split; [done|by rewrite length_replicate|done|done|].
  eapply (data_inv_handles p wl _ _ (λ _, [])).
  { intros i. by rewrite (handles_none _ _ _ _ Hl). }
  pose proof (dp_durable _ _ _ _ _ _ Hdb) as Hdu.
  eapply up_intro; [apply Hdu|apply Hdb|done|exact Hfs| |constructor].
  split; try done; apply Hdb.
Qed.

Variables (options : Options) (n : nat).
Hypothesis Hwl : wal_path_for p = Ok wl.
Hypothesis Hn : (Z.of_nat n + 1 < 2 ^ 32)%Z.

(** A crash of the machine, and what opening finds after it. *)
Lemma reopen_simulates (P : list AState) w w1 r w' :
  recovers_checked (λ X, X ∈ P) p wl w → reboot w w1 → log_genuine p w w1 → db_open p options w1 = (r, w') →
  ∃ A, A ∈ P ∧
    match r with
    | Done (Ok db) => db_inv A db w' ∧ on_files p wl db
    | _ => recovers_checked (λ X, X ∈ [A]) p wl w'
    end.
Proof.
  intros Hr Hre Hg E.
  destruct (recovers_checked_reboot _ _ _ _ _ Hr Hre (Hg _ Hwl)) as (A & b & bw & first & rs & HP & Hro & Hf & Hfw).
  exists A. split; [done|].
  pose proof (open_simulates p wl options Hwl _ _ _ _ _ _ _ _ Hro Hf Hfw E) as Hs.
  destruct r as [[db|e]| |]; by inversion Hs; subst.
Qed.

(** A process that stopped, and what opening finds without a reboot. *)
Lemma revive_opens s w (P : list AState) plan r w' :
  crep s (CDown P) → s = CStop w ∨ s = CReviving w → db_open p options (set_plan plan w) = (r, w') →
  ∃ A, A ∈ P ∧
    match r with
    | Done (Ok db) => db_inv A db w' ∧ on_files p wl db
    | _ => restartable (λ X, X ∈ [A]) p wl w'
    end.
Proof.
  intros Hrep Hs E. assert (restartable (λ X, X ∈ P) p wl w) as Hr
    by (destruct Hs as [->| ->]; [by apply recovers_restartable|done]).
  apply (restart_open (λ A, A ∈ P) p wl) in E as (A & HA & HE); [|done|exact Hr]. exists A. split; [done|].
  destruct r as [[db|e]| |]; [done|apply restartable_one, HE|done|apply restartable_one, HE].
Qed.

Lemma cstep_simulates s ev s' σ :
  crep s σ → cstep p options n s ev s' → ∃ σ', cspec_step σ ev σ' ∧ crep s' σ'.
Proof.
  intros Hrep Hst.
  destruct Hst as [t pc a plan s ths ev pc' s' Hpc Hok E|t pc a plan s ths s' Hpc Hok E|s ths
    |w w1 db w' Hre Hg E|w w1 r w' Hre Hg E Hr|w w1 Hre Hg|s plan w db w' Hs E|s plan w r w' Hs E Hr|w];
    destruct σ as [A g o|r0 v P o| |P]; try done; try (by exists CLost; split; [constructor|]);
    try (by destruct Hs as [->| ->]).
  - apply (wp_Done _ _ _ _ _ _ (sim_step _ _ _ _ _ _ (crun_plan _ _ _ plan Hrep) Hpc Hok) E).
  - apply (wp_Done _ _ _ _ _ _ (sim_step _ _ _ _ _ _ (crun_plan _ _ _ plan Hrep) Hpc Hok) E).
  - exact (wp_Crashed _ _ _ _ _ (sim_step _ _ _ _ _ _ (crun_plan _ _ _ plan Hrep) Hpc Hok) E).
  - exact (wp_Crashed _ _ _ _ _ (sim_step _ _ _ _ _ _ (crun_plan _ _ _ plan Hrep) Hpc Hok) E).
  - by eapply crun_stops.
  - by eapply crun_stops.
  - destruct (reopen_simulates _ _ _ _ _ Hrep Hre Hg E) as (A & HP & Hinv & Hon).
    exists (CUp A Quiet []). split; [by constructor|]. by apply fresh_crun.
  - destruct (reopen_simulates _ _ _ _ _ Hrep Hre Hg E) as (A & HP & Hs).
    exists (CDown [A]). split; [by constructor|]. destruct r as [[db|e]| |]; try done.
    by destruct (Hr db).
  - destruct (revive_opens _ _ _ _ _ _ Hrep Hs E) as (A & HP & Hinv & Hon).
    exists (CUp A Quiet []). split; [by constructor|]. by apply fresh_crun.
  - destruct (revive_opens _ _ _ _ _ _ Hrep Hs E) as (A & HP & HE).
    exists (CDown [A]). split; [by constructor|]. destruct r as [[db|e]| |]; try done.
    by destruct (Hr db).
Qed.

Lemma csteps_simulate s evs s' σ :
  csteps p options n s evs s' → crep s σ → ∃ σ', cspec_steps σ evs σ' ∧ crep s' σ'.
Proof.
  intros Hst. revert σ. induction Hst as [s|s ev s1 evs s2 Hs _ IH]; intros σ Hrep.
  - exists σ. by split; [constructor|].
  - destruct (cstep_simulates _ _ _ _ Hrep Hs) as (σ1 & Hσ1 & Hrep1).
    destruct (IH _ Hrep1) as (σ2 & Hσ2 & Hrep2). exists σ2. split; [by econstructor|done].
Qed.

(** No step panics, and only the operating system makes one fail. *)
Lemma tstep_safe σ s ths t pc a plan :
  crep (CRun s ths) σ → σ ≠ CLost → ths !! t = Some pc → action_ok a pc (sh_db s) →
  let r := (tstep t pc a (plan_shared plan s)).1 in
  r ≠ Panicked ∧ ∀ pc', r = Done (Some (TvFailure, pc')) → ¬ Forall (λ x, x = IoOk) plan.
Proof.
  intros Hrep Hlost Hpc Hok. destruct σ as [A g o|r v P o| |]; try done;
    pose proof (sim_step _ _ _ _ _ _ (crun_plan _ _ _ plan Hrep) Hpc Hok) as Hw; unfold wp in Hw;
    destruct (tstep t pc a (plan_shared plan s)) as [[[[ev pc1]|]| |] ?]; simpl in *;
    (split; [done|]); intros pc' [= -> ->] || intros pc' [=]; by apply Hw.
Qed.

End Steps.
