(* ===== verification/Conformance.v ===== *)
(** * The format fixture

    [tests/format_compat.rs] keeps a database written by an earlier build.
    The test that writes it and the test that reads it, as programs over the
    operations of [Database]: the model writes the files of the repository
    byte for byte, and reads them back. *)

From S2P Require Import Prelude Errors BTree Checksum Page FileHeader FileSys Disk WalRecord WalLog Recovery.
From S2P Require Import BufferPool PoolCache Database.

(** ** The tests *)

(** [Result::unwrap] and [assert!]. *)
Definition unwrap {S A} (m : M S (Result A)) : M S A :=
  let! r := m in
  match r with Ok a => ret a | Err _ => panic end.

Definition assert {S} (b : bool) : M S unit := if b then ret tt else panic.

(** The scope of [db]. *)
Definition with_db {A} (m : M (Database * World) A) (db : Database) : M World A := λ w,
  let '(r, (_, w')) := m (db, w) in (r, w').

Section FormatCompat.
Context `{Cpu} `{HashOrder}.

Abbreviation DW := (Database * World)%type.

Definition PAGES : nat := 3.

Definition expected_payload (id : Z) : bytes :=
  (λ i, byte.of_Z (u64_add (u64_mul id 31) (Z.of_nat i))) <$> List.seq 0 64.

(** The loops over [1..=PAGES]. *)
Fixpoint fill_pages (ids : list Z) (txn : WriteTxn) : M DW WriteTxn :=
  match ids with
  | [] => ret txn
  | id :: ids =>
      let '(allocated, txn) := allocate_page Heap txn in
      let! _ := assert (allocated =? id)%Z in
      let! txn := unwrap (page_mut id (payload_write 0 (expected_payload id)) txn) in
      fill_pages ids txn
  end.

Fixpoint check_pages (ids : list Z) : M DW unit :=
  match ids with
  | [] => ret tt
  | id :: ids =>
      let! page := unwrap (read_txn_read_page id) in
      let! _ := assert (bool_decide (take 64 (payload page) = expected_payload id)) in
      check_pages ids
  end.

Definition write_fixture (p : path) : M World unit :=
  let! db := unwrap (db_open p default_options) in
  with_db (
    let! txn := unwrap begin_write in
    let! txn := fill_pages (Z.of_nat <$> List.seq 1 PAGES) txn in
    let! _ := unwrap (commit txn) in
    unwrap close) db.

Definition reads_format_v1_fixture (p : path) : M World unit :=
  let options := {| buffer_pool_pages := buffer_pool_pages default_options; create_if_missing := false;
                    auto_checkpoint_bytes := auto_checkpoint_bytes default_options |} in
  let! db := unwrap (db_open p options) in
  with_db (
    let! count := db_page_count in
    let! _ := assert (count =? 1 + Z.of_nat PAGES)%Z in
    let! _ := unwrap begin_read in
    check_pages (Z.of_nat <$> List.seq 1 PAGES)) db.

End FormatCompat.

(** ** The fixture *)

Module Fixture.
#[local] Existing Instance PageWitness.cpu.
#[local] Existing Instance PoolWitness.order.

Definition file_path : path := [Normal "tests"; Normal "fixtures"; Normal "format-v1.oxen"].
Definition wal_path : path := [Normal "tests"; Normal "fixtures"; Normal "format-v1.oxen-wal"].

(** A page of the file: its first bytes, then zeros. *)
Definition padded (l : list Z) : bytes := resize PAGE_SIZE Byte.x00 (byte.of_Z <$> l).

Definition header : list Z :=
  [147; 218; 234; 175; 111; 120; 101; 110; 68; 66; 0; 0; 1; 0; 0; 0; 0; 16; 0; 0; 4]%Z.

Definition page1 : list Z :=
  [207; 77; 138; 6; 2; 0; 0; 0; 1; 0; 0; 0; 0; 0; 0; 0; 0; 0; 0; 0; 0; 0; 0; 0; 31; 32; 33; 34;
   35; 36; 37; 38; 39; 40; 41; 42; 43; 44; 45; 46; 47; 48; 49; 50; 51; 52; 53; 54; 55; 56; 57; 58;
   59; 60; 61; 62; 63; 64; 65; 66; 67; 68; 69; 70; 71; 72; 73; 74; 75; 76; 77; 78; 79; 80; 81; 82;
   83; 84; 85; 86; 87; 88; 89; 90; 91; 92; 93; 94]%Z.

Definition page2 : list Z :=
  [199; 52; 8; 79; 2; 0; 0; 0; 2; 0; 0; 0; 0; 0; 0; 0; 0; 0; 0; 0; 0; 0; 0; 0; 62; 63; 64; 65; 66;
   67; 68; 69; 70; 71; 72; 73; 74; 75; 76; 77; 78; 79; 80; 81; 82; 83; 84; 85; 86; 87; 88; 89; 90;
   91; 92; 93; 94; 95; 96; 97; 98; 99; 100; 101; 102; 103; 104; 105; 106; 107; 108; 109; 110; 111;
   112; 113; 114; 115; 116; 117; 118; 119; 120; 121; 122; 123; 124; 125]%Z.

Definition page3 : list Z :=
  [134; 25; 3; 218; 2; 0; 0; 0; 3; 0; 0; 0; 0; 0; 0; 0; 0; 0; 0; 0; 0; 0; 0; 0; 93; 94; 95; 96;
   97; 98; 99; 100; 101; 102; 103; 104; 105; 106; 107; 108; 109; 110; 111; 112; 113; 114; 115;
   116; 117; 118; 119; 120; 121; 122; 123; 124; 125; 126; 127; 128; 129; 130; 131; 132; 133; 134;
   135; 136; 137; 138; 139; 140; 141; 142; 143; 144; 145; 146; 147; 148; 149; 150; 151; 152; 153;
   154; 155; 156]%Z.

Definition log : list Z :=
  [231; 28; 130; 138; 111; 120; 101; 110; 87; 65; 76; 0; 1; 0; 0; 0; 5; 0; 0; 0; 0; 0; 0; 0]%Z.

Definition format_v1_oxen : bytes := padded header ++ padded page1 ++ padded page2 ++ padded page3.
Definition format_v1_oxen_wal : bytes := byte.of_Z <$> log.

Definition no_files : World := {| w_files := ∅; w_plan := [] |}.

Definition shipped : World :=
  {| w_files := {[ file_path := file_at_rest format_v1_oxen; wal_path := file_at_rest format_v1_oxen_wal ]};
     w_plan := [] |}.

(** The test that writes the fixture, run on no files, leaves exactly the
    two files that are in the repository, all of it durable; the test that
    reads them passes on them. *)
Theorem fixture_round_trip :
  write_fixture file_path no_files = (Done tt, shipped) ∧
  (reads_format_v1_fixture file_path shipped).1 = Done tt.
Proof.
  split; [vm_cast_no_check (eq_refl (Done tt, shipped))|vm_cast_no_check (eq_refl (@Done unit tt))].
Qed.

End Fixture.
