(* ===== verification/UnitTests.v ===== *)
(** * The unit tests of the formats (the test modules of error.rs,
    checksum/mod.rs, page.rs, file_header.rs and wal/record.rs)

    The tests that ship with the functions on values, as executable
    definitions.  They pass on every CPU; the exhaustive ones, which flip
    every bit of a page or cut a record at every length, do so because of the
    theorems about checksums and not by enumeration. *)

From S2P Require Import Prelude Errors Checksum Page FileHeader FileSys Disk WalRecord.

(** ** What tests use *)

(** [assert_eq!] on numbers and bytes; [contains] on strings. *)
Definition z_eqb (a b : Z) : bool := (a =? b)%Z.

Definition contains (needle s : string) : bool :=
  match String.index 0 needle s with Some _ => true | None => false end.

(** [byte ^= 1 << bit]. *)
Definition flip_bit (bit : nat) (b : byte) : byte :=
  byte.of_Z (Z.lxor (byte.unsigned b) (Z.shiftl 1 (Z.of_nat bit))).

(** [matches!(r, Err(e) if ...)]. *)
Definition fails_with {E A} (f : E → bool) (r : result E A) : bool :=
  match r with Ok _ => false | Err e => f e end.

Definition is_unsupported_format (e : Error) : bool :=
  match e with UnsupportedFormat _ => true | _ => false end.

Definition is_invalid (e : DecodeError) : bool :=
  match e with Invalid _ => true | Incomplete => false end.

(** ** error.rs *)

Definition display_includes_kind_and_detail : bool :=
  bool_decide (error_to_string (corruption "page 7 checksum mismatch") =
               "data corruption detected: page 7 checksum mismatch").

Definition io_errors_keep_their_source : bool :=
  let err := from_io_error NotFound in
  match err with Io _ => true | _ => false end && bool_decide (is_Some (error_source err)).

Section Tests.
Context `{Cpu}.

(** ** checksum/mod.rs *)

Definition standard_check_value : bool :=
  z_eqb (crc32c (byte.of_Z <$> seqZ 49 9)) 0xE3069283.

Definition empty_input : bool := z_eqb (crc32c []) 0.

Definition rfc3720_vectors : bool :=
  z_eqb (crc32c (replicate 32 Byte.x00)) 0x8A9136AA &&
  z_eqb (crc32c (replicate 32 Byte.xff)) 0x62A8AB43 &&
  z_eqb (crc32c (byte.of_Z <$> seqZ 0 32)) 0x46DD794E &&
  z_eqb (crc32c (byte.of_Z <$> reverse (seqZ 0 32))) 0x113FDB5C.

Definition incremental_matches_one_shot : bool :=
  let data := (λ i, byte.of_Z (i * 31 mod 251)) <$> seqZ 0 1000 in
  forallb (λ split,
    z_eqb (crc_finalize (crc_update (crc_update crc_new (take split data)) (drop split data)))
          (crc32c data)) [0; 1; 7; 500; 999; 1000].

(** The inputs the implementations are compared on. *)
Definition crc_test_data : bytes :=
  (λ i, byte.of_Z (Z.shiftr (wrap_u32 (i * 2654435761)) 13)) <$> seqZ 0 5000.

Definition crc_test_lengths : list nat := List.seq 0 65 ++ [511; 4095; 4096; 4097; 4992].

Definition crc_test_seeds : list Z := [0; 0xFFFFFFFF; 0x12345678]%Z.

Definition on_test_inputs (f : Z → bytes → bool) : bool :=
  forallb (λ start, forallb (λ len, forallb (λ seed,
    f seed (slice start (start + len) crc_test_data))
  crc_test_seeds) crc_test_lengths) (List.seq 0 8).

Definition slice8_matches_bytewise_reference : bool :=
  on_test_inputs (λ seed input, z_eqb (update_slice8 seed input) (update_bytewise seed input)).

Definition hardware_matches_bytewise_reference : bool :=
  match hw_update 0 [] with
  | None => true
  | Some _ =>
      on_test_inputs (λ seed input,
        bool_decide (hw_update seed input = Some (update_bytewise seed input)))
  end.

Definition detects_single_bit_flip : bool :=
  let data := replicate 4096 Byte.x5a in
  let original := crc32c data in
  negb (z_eqb (crc32c (alter (flip_bit 0) 2048 data)) original).

(** ** page.rs *)

Definition page_offsets : bool :=
  z_eqb (file_offset HEADER) 0 && z_eqb (file_offset 3) (3 * 4096).

Definition zeroed_page_is_all_zero : bool :=
  forallb (λ b, bool_decide (b = Byte.x00)) (as_bytes zeroed).

Definition writes_are_visible : bool :=
  bool_decide (as_bytes (raw_write 100 [Byte.x2a] zeroed) !! 100 = Some Byte.x2a).

Definition HELLO : bytes := [Byte.x68; Byte.x65; Byte.x6c; Byte.x6c; Byte.x6f].

Definition sealed_page (id : Z) : Page :=
  seal (payload_write 0 HELLO (set_lsn 77 (page_new id Heap))).

Definition sealed_page_round_trips : bool :=
  let page := sealed_page 9 in
  match verify 9 page with
  | Ok header =>
      bool_decide (page_type header = Heap) && z_eqb (header_page_id header) 9 && z_eqb (lsn header) 77
  | Err _ => false
  end &&
  bool_decide (take 5 (payload page) = HELLO) &&
  bool_decide (length (payload page) = PAGE_SIZE - PAGE_HEADER_SIZE).

(** A page with one bit flipped. *)
Definition flip_page (byte bit : nat) (p : Page) : Page :=
  raw_write byte [flip_bit bit (byte_at byte p)] p.

Definition every_single_bit_flip_is_detected : bool :=
  let original := sealed_page 9 in
  forallb (λ byte, forallb (λ bit, is_err (verify 9 (flip_page byte bit original))) (List.seq 0 8))
    (List.seq 0 PAGE_SIZE).

Definition misdirected_page_is_rejected : bool :=
  fails_with is_corruption (verify 10 (sealed_page 9)).

Definition zeroed_page_is_rejected : bool := is_err (verify 1 zeroed).

Definition unknown_page_type_is_rejected_even_with_valid_checksum : bool :=
  let page := seal (raw_write TYPE_OFFSET [byte.of_Z 200] (sealed_page 9)) in
  fails_with (λ err, contains "unknown page type 200" (error_to_string err)) (verify 9 page).

Definition unsealed_modification_is_rejected : bool :=
  is_err (verify 9 (payload_write 0 [Byte.x6a] (sealed_page 9))).

(** ** file_header.rs *)

(** Rewrites a field and recomputes the checksum. *)
Definition tamper (lo : nat) (value : bytes) (p : Page) : Page :=
  let p := set_range lo value p in
  set_range 0 (u32_to_le_bytes (crc32c (drop 4 (data p)))) p.

Definition round_trip : bool :=
  match decode (encode {| page_count := 12345 |}) with
  | Ok header => z_eqb (page_count header) 12345
  | Err _ => false
  end.

Definition rejects_foreign_file : bool := fails_with is_unsupported_format (decode zeroed).

Definition rejects_corrupted_header : bool :=
  fails_with is_corruption (decode (flip_page 20 4 (encode file_header_new))).

Definition rejects_future_format_version : bool :=
  fails_with (λ err, contains "version 2" (error_to_string err))
    (decode (tamper 12 (u32_to_le_bytes 2) (encode file_header_new))).

Definition rejects_other_page_size : bool :=
  fails_with is_unsupported_format (decode (tamper 16 (u32_to_le_bytes 8192) (encode file_header_new))).

Definition rejects_zero_page_count : bool :=
  fails_with is_corruption (decode (tamper 20 (u64_to_le_bytes 0) (encode file_header_new))).

(** ** wal/record.rs *)

(** [page.payload_mut().fill(fill)]. *)
Definition payload_fill (fill : byte) (p : Page) : Page :=
  payload_write 0 (replicate (PAGE_SIZE - PAGE_HEADER_SIZE) fill) p.

Definition image (txn id : Z) (fill : byte) : WalRecord :=
  PageImage txn id (seal (payload_fill fill (page_new id Heap))).

Definition encode_record (r : WalRecord) (sq : Z) : bytes := record_encode r sq [].

#[global] Instance WalRecord_eq_dec : EqDecision WalRecord.
Proof. solve_decision. Defined.

Definition page_image_round_trips : bool :=
  let record := image 3 9 Byte.xab in
  let bytes := encode_record record 41 in
  bool_decide (length bytes = PAGE_IMAGE_LEN) &&
  match record_decode bytes with
  | Ok decoded =>
      z_eqb (seq decoded) 41 && bool_decide (WalRecord.record decoded = record) &&
      bool_decide (rec_len decoded = PAGE_IMAGE_LEN)
  | Err _ => false
  end.

Definition commit_round_trips : bool :=
  let record := Commit (2 ^ 64 - 1) in
  match record_decode (encode_record record 0) with
  | Ok decoded => bool_decide (WalRecord.record decoded = record)
  | Err _ => false
  end.

Definition decodes_first_of_several_records : bool :=
  let bytes := record_encode (image 2 3 Byte.x01) 6 (encode_record (Commit 1) 5) in
  match record_decode bytes with
  | Ok first =>
      z_eqb (seq first) 5 &&
      match record_decode (drop (rec_len first) bytes) with
      | Ok second => z_eqb (seq second) 6
      | Err _ => false
      end
  | Err _ => false
  end.

Definition every_truncation_is_incomplete : bool :=
  forallb (λ record,
    let bytes := encode_record record 1 in
    forallb (λ cut, match record_decode (take cut bytes) with Err Incomplete => true | _ => false end)
      (List.seq 0 (length bytes))) [image 1 1 Byte.x07; Commit 1].

Definition every_single_bit_flip_is_rejected : bool :=
  forallb (λ record,
    let original := encode_record record 1 in
    forallb (λ byte, forallb (λ bit, is_err (record_decode (alter (flip_bit bit) byte original)))
        (List.seq 0 8))
      (List.seq 0 (length original))) [image 1 1 Byte.x07; Commit 1].

Definition zeroed_bytes_are_invalid : bool := fails_with is_invalid (record_decode (zeros 64)).

Definition mismatched_type_and_length_is_invalid : bool :=
  let bytes := <[16 := TYPE_PAGE_IMAGE]> (encode_record (Commit 1) 1) in
  let bytes := splice 4 (u32_to_le_bytes (crc32c (drop 8 bytes))) bytes in
  fails_with is_invalid (record_decode bytes).

(** All of them. *)
Definition unit_tests : list bool :=
  [display_includes_kind_and_detail; io_errors_keep_their_source;
   standard_check_value; empty_input; rfc3720_vectors; incremental_matches_one_shot;
   slice8_matches_bytewise_reference; hardware_matches_bytewise_reference; detects_single_bit_flip;
   page_offsets; zeroed_page_is_all_zero; writes_are_visible; sealed_page_round_trips;
   every_single_bit_flip_is_detected; misdirected_page_is_rejected; zeroed_page_is_rejected;
   unknown_page_type_is_rejected_even_with_valid_checksum; unsealed_modification_is_rejected;
   round_trip; rejects_foreign_file; rejects_corrupted_header; rejects_future_format_version;
   rejects_other_page_size; rejects_zero_page_count;
   page_image_round_trips; commit_round_trips; decodes_first_of_several_records;
   every_truncation_is_incomplete; every_single_bit_flip_is_rejected; zeroed_bytes_are_invalid;
   mismatched_type_and_length_is_invalid].

(** ** They pass *)

Lemma flip_bit_ne (bit : nat) (b : byte) : bit < 8 → flip_bit bit b ≠ b.
Proof. destruct b; do 8 (destruct bit as [|bit]; [by vm_compute|]); lia. Qed.

Lemma forallb_seq (f : nat → bool) lo n :
  (∀ i, lo ≤ i < lo + n → f i = true) → forallb f (List.seq lo n) = true.
Proof. intros Hf. apply forallb_forall. intros i Hi%in_seq. by apply Hf. Qed.

(** Checksums that can be computed are computed on the reference. *)
Lemma crc32c_reference bs : crc32c bs = u32_not (update_bytewise (u32_not 0) bs).
Proof. rewrite crc32c_ref, update_bytewise_ref. done. Qed.

Lemma crc_vectors : standard_check_value && empty_input && rfc3720_vectors = true.
Proof. unfold standard_check_value, empty_input, rfc3720_vectors. rewrite !crc32c_reference. by vm_compute. Qed.

Lemma on_test_inputs_intro f :
  (∀ seed input, u32_range seed → f seed input = true) → on_test_inputs f = true.
Proof.
  intros Hf. apply forallb_forall. intros start _. apply forallb_forall. intros len _.
  apply forallb_forall. intros seed Hs. apply Hf. unfold u32_range.
  repeat destruct Hs as [<-|Hs]; try lia. done.
Qed.

Lemma implementations_tests : slice8_matches_bytewise_reference && hardware_matches_bytewise_reference = true.
Proof.
  apply andb_true_iff. split.
  - apply on_test_inputs_intro. intros seed input Hs. unfold z_eqb.
    by rewrite update_slice8_ref, update_bytewise_ref, Z.eqb_refl.
  - unfold hardware_matches_bytewise_reference. destruct (hw_update 0 []) eqn:E; [|done].
    apply on_test_inputs_intro. intros seed input Hs. apply bool_decide_eq_true_2.
    rewrite update_bytewise_ref. unfold hw_update in *.
    destruct cpu_arch, cpu_feature_detected; try done; by rewrite ?update_aarch64_ref, ?update_x86_64_ref.
Qed.

Lemma incremental_test : incremental_matches_one_shot = true.
Proof.
  unfold incremental_matches_one_shot. apply forallb_forall. intros split _. unfold z_eqb.
  rewrite crc_update_app by apply crc_new_range. rewrite take_drop. apply Z.eqb_refl.
Qed.

Lemma flip_test : detects_single_bit_flip = true.
Proof.
  unfold detects_single_bit_flip. apply negb_true_iff, Z.eqb_neq.
  replace (replicate 4096 Byte.x5a) with (replicate 2048 Byte.x5a ++ [Byte.x5a] ++ replicate 2047 Byte.x5a)
    by reflexivity.
  replace (alter _ _ _) with (replicate 2048 Byte.x5a ++ [Byte.x5b] ++ replicate 2047 Byte.x5a) by reflexivity.
  by apply crc32c_window; [|simpl; lia|].
Qed.

(** *** Pages *)

Definition page_body (id : Z) : Page := payload_write 0 HELLO (set_lsn 77 (page_new id Heap)).

Lemma page_body_wf id : page_wf (page_body id).
Proof. apply payload_write_wf; [unfold HELLO; page_lia|auto with oxen]. Qed.

Lemma test_sealed_page_wf id : page_wf (sealed_page id).
Proof. apply seal_wf, page_body_wf. Qed.

Lemma test_sealed_page_verifies :
  verify 9 (sealed_page 9) = Ok {| page_type := Heap; header_page_id := 9; lsn := 77 |}.
Proof.
  apply (verify_seal (page_body 9) {| page_type := Heap; header_page_id := 9; lsn := 77 |} (page_body_wf 9)).
  apply payload_write_header; [auto with oxen|unfold HELLO; page_lia|].
  exact (set_lsn_header 77 _ _ (page_new_wf 9 Heap) ltac:(done) (page_new_header 9 Heap ltac:(done))).
Qed.

(** Sealing again after a change is sealing the changed page. *)
Lemma seal_set_range lo v p :
  page_wf p → 4 ≤ lo → lo + length v ≤ PAGE_SIZE → seal (set_range lo v (seal p)) = seal (set_range lo v p).
Proof.
  intros Hp Hlo Hin.
  assert (page_wf (set_range lo v p) ∧ page_wf (set_range lo v (seal p))) as [W1 W2]
    by (split; apply set_range_wf; auto with oxen).
  assert (drop 4 (data (set_range lo v (seal p))) = drop 4 (data (set_range lo v p))) as Ed.
  { pose proof (seal_wf p Hp) as Hs. unfold page_wf in Hp, Hs. apply list_eq. intros i. rewrite !lookup_drop.
    unfold set_range. cbn [data]. destruct (decide (4 + i < lo ∨ lo + length v ≤ 4 + i)).
    - rewrite !lookup_splice_ne by lia. rewrite <- !lookup_drop. by rewrite seal_drop.
    - by rewrite !lookup_splice_eq by lia. }
  apply page_eq_split.
  - unfold seal at 1 3. rewrite !slice_set_range_same by (done || page_lia). by rewrite Ed.
  - by rewrite !seal_drop by done.
Qed.

(** A change of one byte is noticed. *)
Lemma byte_change_fails off x p :
  page_wf p → checksum_ok p → off < PAGE_SIZE → x ≠ byte_at off p → ¬ checksum_ok (set_range off [x] p).
Proof.
  intros Hp Hc Hoff Hx. apply checksum_window; simpl; [done|done|lia|lia|lia|].
  intros E. apply Hx. rewrite <- E. by rewrite byte_at_set_range_same.
Qed.

Lemma verify_bad_checksum id p : page_wf p → ¬ checksum_ok p → is_err (verify id p) = true.
Proof. intros Hp Hc. destruct (verify id p) eqn:E; [|done]. by apply verify_ok_checksum in E. Qed.

Lemma sealed_page_checksum id : checksum_ok (sealed_page id).
Proof. apply seal_checksum_ok, page_body_wf. Qed.

Lemma page_flip_test : every_single_bit_flip_is_detected = true.
Proof.
  apply forallb_seq. intros byte Hbyte. apply forallb_seq. intros bit Hbit.
  apply verify_bad_checksum; [apply set_range_wf; [simpl; lia|apply test_sealed_page_wf]|].
  apply byte_change_fails; [apply test_sealed_page_wf|apply sealed_page_checksum|lia|]. apply flip_bit_ne. lia.
Qed.

Lemma page_round_trip_test : sealed_page_round_trips = true.
Proof.
  unfold sealed_page_round_trips. rewrite test_sealed_page_verifies. cbn [page_type header_page_id lsn].
  rewrite !bool_decide_eq_true_2; [done|..|done].
  - unfold payload. rewrite length_drop, (test_sealed_page_wf 9). done.
  - change (take 5 (payload (sealed_page 9))) with (slice 24 29 (data (sealed_page 9))).
    unfold sealed_page. rewrite seal_slice by (apply page_body_wf || lia).
    apply slice_set_range_same; [auto with oxen|done|page_lia].
Qed.

Lemma misdirected_test : misdirected_page_is_rejected = true.
Proof.
  unfold misdirected_page_is_rejected. destruct (verify 10 (sealed_page 9)) as [h|e] eqn:E.
  - apply verify_ok_id in E; [|apply test_sealed_page_wf].
    pose proof (verify_ok_id _ _ _ (test_sealed_page_wf 9) test_sealed_page_verifies). lia.
  - by eapply verify_err_corruption.
Qed.

Lemma zeroed_test : zeroed_page_is_rejected = true.
Proof.
  unfold zeroed_page_is_rejected. destruct (verify 1 zeroed) as [h|e] eqn:E; [|done].
  apply verify_ok_iff in E as (_ & (E & _) & _); [|apply zeroed_wf]. by destruct (page_type h).
Qed.

Lemma unknown_type_test : unknown_page_type_is_rejected_even_with_valid_checksum = true.
Proof.
  unfold unknown_page_type_is_rejected_even_with_valid_checksum, raw_write, sealed_page.
  fold (page_body 9). rewrite seal_set_range by (apply page_body_wf || unfold TYPE_OFFSET; simpl; page_lia).
  set (q := set_range _ _ (page_body 9)).
  assert (page_wf q) as Hq by (apply set_range_wf; [unfold TYPE_OFFSET; simpl; page_lia|apply page_body_wf]).
  pose proof (seal_checksum_ok q Hq) as Hc. unfold verify. unfold checksum_ok in Hc. rewrite Hc, Z.eqb_refl.
  unfold decode_header. rewrite seal_byte_at by (done || unfold TYPE_OFFSET; lia).
  unfold q. rewrite byte_at_set_range_same by (apply page_body_wf || unfold TYPE_OFFSET; page_lia).
  vm_compute. reflexivity.
Qed.

Lemma unsealed_test : unsealed_modification_is_rejected = true.
Proof.
  apply verify_bad_checksum; [apply payload_write_wf; [simpl; page_lia|apply test_sealed_page_wf]|].
  apply byte_change_fails; [apply test_sealed_page_wf|apply sealed_page_checksum|page_lia|].
  unfold sealed_page. rewrite seal_byte_at by (apply page_body_wf || page_lia). by vm_compute.
Qed.

(** *** The file header *)

Lemma tamper_encode lo v h :
  4 ≤ lo → lo + length v ≤ PAGE_SIZE → tamper lo v (encode h) = seal (set_range lo v (header_body h)).
Proof. intros. rewrite encode_seal. apply (seal_set_range lo v (header_body h)); [apply header_body_wf|done..]. Qed.

(** What is left of [decode] when the checksum is right. *)
Lemma decode_seal p :
  page_wf p → decode (seal p) =
    if bool_decide (slice 4 12 (data p) ≠ MAGIC) then Err (UnsupportedFormat "not an oxenDB database file")
    else
      let version := read_u32 (data p) 12 16 in
      if negb (version =? FORMAT_VERSION)%Z then
        Err (UnsupportedFormat ("file format version " +:+ pretty version +:+
               ", this build supports version " +:+ pretty FORMAT_VERSION))
      else
        let page_size := read_u32 (data p) 16 20 in
        if negb (page_size =? Z.of_nat PAGE_SIZE)%Z then
          Err (UnsupportedFormat ("page size " +:+ pretty page_size +:+
                 ", this build supports " +:+ pretty (Z.of_nat PAGE_SIZE)))
        else
          let count := from_le_bytes (slice 20 28 (data p)) in
          if (count =? 0)%Z then Err (corruption "file header reports zero pages")
          else Ok {| page_count := count |}.
Proof.
  intros Hp. pose proof (seal_checksum_ok p Hp) as Hc. unfold checksum_ok in Hc.
  unfold decode, as_bytes. cbv zeta. unfold read_u32. rewrite Hc, Z.eqb_refl.
  change (negb true) with false. cbv iota.
  by rewrite !seal_slice by (done || lia).
Qed.

Lemma header_tests :
  round_trip && rejects_foreign_file && rejects_future_format_version && rejects_other_page_size &&
  rejects_zero_page_count = true.
Proof.
  unfold round_trip, rejects_future_format_version, rejects_other_page_size, rejects_zero_page_count.
  rewrite decode_encode by done. rewrite !tamper_encode by page_lia.
  rewrite !decode_seal by (apply set_range_wf; [page_lia|apply header_body_wf]).
  vm_compute. reflexivity.
Qed.

Lemma corrupted_header_test : rejects_corrupted_header = true.
Proof.
  unfold rejects_corrupted_header. set (p := flip_page 20 4 (encode file_header_new)).
  assert (page_wf (encode file_header_new)) as W by auto with oxen.
  assert (page_wf p) as Hp by (apply set_range_wf; [page_lia|done]).
  assert (¬ checksum_ok p) as Hc.
  { apply byte_change_fails; [done| |page_lia|apply flip_bit_ne; lia].
    rewrite encode_seal. apply seal_checksum_ok, header_body_wf. }
  assert (slice 4 12 (data p) = MAGIC) as Hm.
  { unfold p, flip_page, raw_write. rewrite slice_set_range_ne by (done || page_lia).
    rewrite encode_seal, seal_slice by (apply header_body_wf || lia). by vm_compute. }
  pose proof (decode_check_order p Hp) as Ho. cbv zeta in Ho.
  destruct (decode p) as [h|[]]; simpl in *; tauto.
Qed.

(** *** Records *)

Lemma test_image_wf txn id fill : u64_range txn → u64_range id → record_wf (image txn id fill).
Proof.
  intros. split; [done|]. split; [done|]. apply seal_wf, payload_write_wf; [page_lia|auto with oxen].
Qed.

Lemma encode_record_bytes r sq : encode_record r sq = record_bytes r sq.
Proof. unfold encode_record. by rewrite record_encode_app. Qed.

Lemma test_commit_wf txn : u64_range txn → record_wf (Commit txn).
Proof. done. Qed.

Lemma decode_encode_record r sq :
  record_wf r → u64_range sq →
  record_decode (encode_record r sq) = Ok {| seq := sq; record := r; rec_len := record_size r |}.
Proof.
  intros. rewrite encode_record_bytes, <- (app_nil_r (record_bytes r sq)). by apply record_decode_complete.
Qed.

Lemma record_round_trip_tests : page_image_round_trips && commit_round_trips = true.
Proof.
  unfold page_image_round_trips, commit_round_trips.
  rewrite !decode_encode_record by (done || by apply test_image_wf). cbn [seq record rec_len].
  rewrite encode_record_bytes, length_record_bytes by (by apply test_image_wf).
  rewrite !bool_decide_eq_true_2 by done. done.
Qed.

Lemma several_records_test : decodes_first_of_several_records = true.
Proof.
  unfold decodes_first_of_several_records. rewrite record_encode_app, encode_record_bytes.
  rewrite record_decode_complete by done. cbn [seq rec_len].
  rewrite drop_app_length' by (by rewrite length_record_bytes).
  rewrite <- (app_nil_r (record_bytes (image _ _ _) _)), record_decode_complete by (done || by apply test_image_wf).
  done.
Qed.

(** The two records the exhaustive tests run on. *)
Lemma forall_records (f : WalRecord → bool) :
  (∀ r, record_wf r → f r = true) → forallb f [image 1 1 Byte.x07; Commit 1] = true.
Proof. intros Hf. simpl. rewrite !Hf; [done|done|by apply test_image_wf]. Qed.

Lemma truncation_test : every_truncation_is_incomplete = true.
Proof.
  apply forall_records. intros r Hr. apply forallb_seq. intros cut Hcut.
  rewrite encode_record_bytes, length_record_bytes in * by done.
  by rewrite record_decode_truncated by (done || lia).
Qed.

Lemma record_flip_test : every_single_bit_flip_is_rejected = true.
Proof.
  apply forall_records. intros r Hr. apply forallb_seq. intros i Hi. apply forallb_seq. intros bit Hbit.
  rewrite encode_record_bytes, length_record_bytes in * by done.
  destruct (lookup_lt_is_Some_2 (record_bytes r 1) i) as [b Hb]; [rewrite length_record_bytes by done; lia|].
  assert (alter (flip_bit bit) i (record_bytes r 1) = <[i := flip_bit bit b]> (record_bytes r 1)) as ->.
  { apply list_eq. intros j. destruct (decide (i = j)) as [->|Hne].
    - rewrite list_lookup_alter_eq, list_lookup_insert_eq, Hb by (by eapply lookup_lt_Some). done.
    - by rewrite list_lookup_alter_ne, list_lookup_insert_ne. }
  rewrite <- (app_nil_r (<[i := _]> _)). apply record_decode_one_byte; [done|lia|].
  rewrite Hb. intros [= E]. by apply (flip_bit_ne bit b); [lia|].
Qed.

Lemma bad_records_tests : zeroed_bytes_are_invalid && mismatched_type_and_length_is_invalid = true.
Proof.
  unfold zeroed_bytes_are_invalid, mismatched_type_and_length_is_invalid, encode_record, record_encode, record_decode.
  cbv zeta. rewrite !crc32c_reference. vm_compute. reflexivity.
Qed.

Lemma plain_tests :
  display_includes_kind_and_detail && io_errors_keep_their_source && page_offsets &&
  zeroed_page_is_all_zero && writes_are_visible = true.
Proof. vm_compute. reflexivity. Qed.

(** The unit tests of the formats pass on every CPU: among them every
    single bit flip of a page and of a record is rejected, every truncation
    of a record is incomplete, and the three implementations of the checksum
    agree on the inputs of the tests and with the published vectors. *)
Theorem unit_tests_pass : Forall (λ passes, passes = true) unit_tests.
Proof.
  pose proof crc_vectors as [[? ?]%andb_true_iff ?]%andb_true_iff.
  pose proof implementations_tests as [? ?]%andb_true_iff.
  pose proof header_tests as [[[[? ?]%andb_true_iff ?]%andb_true_iff ?]%andb_true_iff ?]%andb_true_iff.
  pose proof record_round_trip_tests as [? ?]%andb_true_iff. pose proof bad_records_tests as [? ?]%andb_true_iff.
  pose proof plain_tests as [[[[? ?]%andb_true_iff ?]%andb_true_iff ?]%andb_true_iff ?]%andb_true_iff.
  pose proof (conj incremental_test (conj flip_test (conj page_flip_test page_round_trip_test))).
  pose proof (conj misdirected_test (conj zeroed_test (conj unknown_type_test unsealed_test))).
  pose proof (conj corrupted_header_test (conj several_records_test (conj truncation_test record_flip_test))).
  destruct_and!. unfold unit_tests. repeat (apply Forall_cons_2; [assumption|]). constructor.
Qed.

End Tests.
