(* ===== verification/StorageTests.v ===== *)
(** * The unit tests of the storage layer (the test modules of disk.rs,
    wal/log.rs and recovery.rs)

    The tests that ship with the components that do I/O, as programs over
    their operations, each run in an empty directory.  A failed assertion is a
    panic; the tests pass if none panics. *)

From S2P Require Import Prelude Errors BTree Checksum Page FileHeader FileSys Disk WalRecord WalLog Recovery.
From S2P Require Import BufferPool PoolCache Database Conformance UnitTests.

(** ** What tests use *)

(** [TempDir::new().path().join(name)], in a directory of its own. *)
Definition temp_path (name : string) : path := [RootDir; Normal "tmp"; Normal name].

Definition empty_dir : World := {| w_files := ∅; w_plan := [] |}.

(** A test passes if it returns. *)
Definition passes {A} (test : M World A) : bool :=
  match (test empty_dir).1 with Done _ => true | _ => false end.

(** [assert!(matches!(r, Err(e) if f(e)))], [assert_eq!] on numbers, and a [for] loop. *)
Definition expect_err {S A} (f : Error → bool) (m : M S (Result A)) : M S unit :=
  let! r := m in assert (fails_with f r).

Definition assert_eq {S} (a b : Z) : M S unit := assert (z_eqb a b).

Fixpoint each {S A} (body : A → M S unit) (xs : list A) : M S unit :=
  match xs with
  | [] => ret tt
  | x :: xs => let! _ := body x in each body xs
  end.

Definition any_error (e : Error) : bool := true.
Definition is_io (e : Error) : bool := match e with Io _ => true | _ => false end.

(** [std::fs::write], [std::fs::read] and [std::fs::remove_file], unwrapped. *)
Definition fs_write (p : path) (b : bytes) : M World unit :=
  modify (λ w, set_files (<[p := file_apply (WriteAt 0 b)
    (file_apply (SetLen 0) (default file_new (w_files w !! p)))]> (w_files w)) w).

Definition fs_read (p : path) : M World bytes :=
  let! f := gets (λ w, w_files w !! p) in
  match f with Some f => ret (f_cur f) | None => panic end.

Definition fs_remove (p : path) : M World unit :=
  let! f := gets (λ w, w_files w !! p) in
  match f with
  | Some _ => modify (λ w, set_files (delete p (w_files w)) w)
  | None => panic
  end.

(** The first byte of a payload. *)
Definition first_byte (p : Page) : Z := byte.unsigned (default Byte.x00 (payload p !! 0)).

Definition all_bytes (b : byte) (p : Page) : bool := forallb (λ x, bool_decide (x = b)) (payload p).

Section Tests.
Context `{Cpu}.

(** ** disk.rs *)

Definition heap_page (id : PageId) (fill : byte) : Page := payload_fill fill (page_new id Heap).

(** Calls of methods that also update a value, unwrapped. *)
Definition set_count (count : Z) (d : DiskManager) : M World DiskManager :=
  let '(r, d) := set_page_count count d in
  let! _ := unwrap (lift r) in
  ret d.

Definition put_page (id : PageId) (page : Page) (d : DiskManager) : M World unit :=
  unwrap (let! '(r, _) := write_page id page d in ret r).

Definition create_with_pages (p : path) (pages : nat) : M World DiskManager :=
  let! disk := unwrap (disk_create p) in
  let! disk := set_count (1 + Z.of_nat pages) disk in
  let! _ := each (λ id, put_page id (heap_page id (byte.of_Z id)) disk) (seqZ 1 (Z.of_nat pages)) in
  let! _ := unwrap (write_file_header disk) in
  let! _ := unwrap (disk_sync disk) in
  ret disk.

Definition create_then_open_empty_database : M World unit :=
  let p := temp_path "db.oxen" in
  let! _ := unwrap (disk_create p) in
  let! disk := unwrap (disk_open p) in
  assert_eq (dm_page_count disk) 1.

Definition create_refuses_to_overwrite : M World unit :=
  let p := temp_path "db.oxen" in
  let! _ := unwrap (disk_create p) in
  expect_err is_io (disk_create p).

Definition pages_persist_across_reopen : M World unit :=
  let p := temp_path "db.oxen" in
  let! _ := create_with_pages p 3 in
  let! disk := unwrap (disk_open p) in
  let! _ := assert_eq (dm_page_count disk) 4 in
  each (λ id,
    let! page := unwrap (read_page id disk) in
    assert (all_bytes (byte.of_Z id) page)) (seqZ 1 3).

Definition page_count_is_persisted_only_by_write_file_header : M World unit :=
  let p := temp_path "db.oxen" in
  let! disk := unwrap (disk_create p) in
  let! disk := set_count 3 disk in
  let! _ := put_page 2 (heap_page 2 Byte.x01) disk in
  let! _ := unwrap (disk_sync disk) in
  let! disk := unwrap (disk_open p) in
  assert_eq (dm_page_count disk) 1.

Definition set_page_count_refuses_to_shrink : M World unit :=
  let! disk := unwrap (disk_create (temp_path "db.oxen")) in
  let! disk := set_count 5 disk in
  let '(r, disk) := set_page_count 4 disk in
  let! _ := expect_err is_invalid_argument (lift r) in
  assert_eq (dm_page_count disk) 5.

Definition rejects_header_and_out_of_bounds_pages : M World unit :=
  let! disk := unwrap (disk_create (temp_path "db.oxen")) in
  let! _ := expect_err is_invalid_argument (read_page HEADER disk) in
  let! _ := expect_err is_invalid_argument (read_page 1 disk) in
  let page := heap_page 5 Byte.x00 in
  expect_err is_invalid_argument (let! '(r, _) := write_page 5 page disk in ret r).

Definition rejects_writing_page_to_wrong_location : M World unit :=
  let! disk := create_with_pages (temp_path "db.oxen") 2 in
  let page := heap_page 2 Byte.x00 in
  expect_err is_invalid_argument (let! '(r, _) := write_page 1 page disk in ret r).

Definition detects_on_disk_corruption : M World unit :=
  let p := temp_path "db.oxen" in
  let! _ := create_with_pages p 1 in
  let! file := unwrap (open_file p) in
  let! _ := unwrap (write_all_at file [Byte.xff] (file_offset 1 + 1000)) in
  let! disk := unwrap (disk_open p) in
  expect_err is_corruption (read_page 1 disk).

Definition detects_truncated_file : M World unit :=
  let p := temp_path "db.oxen" in
  let! _ := create_with_pages p 2 in
  let! file := unwrap (open_file p) in
  let! _ := unwrap (set_len file (2 * Z.of_nat PAGE_SIZE)) in
  expect_err is_corruption (disk_open p).

Definition tolerates_file_longer_than_header : M World unit :=
  let p := temp_path "db.oxen" in
  let! _ := unwrap (disk_create p) in
  let! file := unwrap (open_file p) in
  let! _ := unwrap (set_len file (2 * Z.of_nat PAGE_SIZE)) in
  let! disk := unwrap (disk_open p) in
  assert_eq (dm_page_count disk) 1.

(** [b"just some text"]. *)
Definition JUST_SOME_TEXT : bytes :=
  byte.of_Z <$> [106; 117; 115; 116; 32; 115; 111; 109; 101; 32; 116; 101; 120; 116]%Z.

Definition rejects_non_database_file : M World unit :=
  let p := temp_path "notes.txt" in
  let! _ := fs_write p JUST_SOME_TEXT in
  expect_err is_unsupported_format (disk_open p).

Definition disk_tests : list (M World unit) :=
  [create_then_open_empty_database; create_refuses_to_overwrite; pages_persist_across_reopen;
   page_count_is_persisted_only_by_write_file_header; set_page_count_refuses_to_shrink;
   rejects_header_and_out_of_bounds_pages; rejects_writing_page_to_wrong_location;
   detects_on_disk_corruption; detects_truncated_file; tolerates_file_longer_than_header;
   rejects_non_database_file].

(** ** wal/log.rs *)

(** [image] is that of wal/record.rs. *)
Definition records_of (opened : OpenedWal) : list WalRecord := WalRecord.record <$> opened_records opened.

(** [wal.append(record).unwrap()], [wal.flush().unwrap()] and
    [wal.reset().unwrap()]. *)
Definition append_ok (r : WalRecord) (wal : Wal) : M World Wal :=
  let '(res, wal) := wal_append r wal in
  let! _ := unwrap (lift res) in
  ret wal.

Definition flush_ok (wal : Wal) : M World Wal :=
  let! '(res, wal) := wal_flush wal in
  let! _ := unwrap (lift res) in
  ret wal.

Definition reset_ok (wal : Wal) : M World Wal :=
  let! '(res, wal) := wal_reset wal in
  let! _ := unwrap (lift res) in
  ret wal.

Fixpoint append_all (rs : list WalRecord) (wal : Wal) : M World Wal :=
  match rs with
  | [] => ret wal
  | r :: rs => let! wal := append_ok r wal in append_all rs wal
  end.

(** Creates a log and flushes some records. *)
Definition logged (p : path) (rs : list WalRecord) : M World Wal :=
  let! wal := unwrap (wal_create p) in
  let! wal := append_all rs wal in
  flush_ok wal.

Definition assert_records (opened : OpenedWal) (rs : list WalRecord) : M World unit :=
  assert (bool_decide (records_of opened = rs)).

Definition flushed_records_survive_reopen : M World unit :=
  let p := temp_path "db.oxen-wal" in
  let written := [image 1 1 Byte.x01; image 1 2 Byte.x02; Commit 1] in
  let! _ := logged p written in
  let! opened := unwrap (wal_open p) in
  let! _ := assert_records opened written in
  let! _ := assert (match opened_discarded opened with None => true | Some _ => false end) in
  assert_eq (next_seq (opened_wal opened)) 3.

Definition unflushed_records_are_lost : M World unit :=
  let p := temp_path "db.oxen-wal" in
  let! wal := logged p [Commit 1] in
  let! _ := append_ok (Commit 2) wal in
  let! opened := unwrap (wal_open p) in
  assert_records opened [Commit 1].

(** [lo..hi] by steps of 97. *)
Definition sampled (lo hi : nat) : list nat :=
  (λ k, lo + 97 * k) <$> List.seq 0 ((hi - lo + 96) / 97).

Definition torn_tail_is_discarded_at_every_cut : M World unit :=
  let p := temp_path "db.oxen-wal" in
  let! wal := logged p [Commit 1] in
  let! wal := append_ok (image 2 5 Byte.x09) wal in
  let! _ := flush_ok wal in
  let! full := fs_read p in
  let first_end := WAL_HEADER_SIZE + length (encode_record (Commit 1) 0) in
  let cuts := List.seq first_end 64 ++ sampled (first_end + 64) (length full) ++
              List.seq (length full - 8) 8 in
  each (λ cut,
    let! _ := fs_write p (take cut full) in
    let! opened := unwrap (wal_open p) in
    let! _ := assert_records opened [Commit 1] in
    let! _ := assert (bool_decide (is_Some (opened_discarded opened) ↔ first_end < cut)) in
    let! len := unwrap (metadata_len p) in
    assert_eq len (Z.of_nat first_end)) cuts.

Definition appends_after_torn_tail_are_readable : M World unit :=
  let p := temp_path "db.oxen-wal" in
  let! _ := logged p [Commit 1] in
  let! contents := fs_read p in
  let! _ := fs_write p (contents ++ replicate 100 Byte.xee) in
  let! opened := unwrap (wal_open p) in
  let! _ := assert (match opened_discarded opened with
                    | Some tail => z_eqb (tail_bytes tail) 100 | None => false end) in
  let! wal := append_ok (Commit 2) (opened_wal opened) in
  let! _ := flush_ok wal in
  let! opened := unwrap (wal_open p) in
  assert_records opened [Commit 1; Commit 2].

Definition reset_empties_log_and_continues_sequence : M World unit :=
  let p := temp_path "db.oxen-wal" in
  let! wal := logged p [Commit 1; Commit 2] in
  let! wal := reset_ok wal in
  let! _ := assert_eq (durable_len wal) (Z.of_nat WAL_HEADER_SIZE) in
  let! wal := append_ok (Commit 3) wal in
  let! _ := flush_ok wal in
  let! opened := unwrap (wal_open p) in
  let! _ := assert_records opened [Commit 3] in
  assert (match opened_records opened with r :: _ => z_eqb (seq r) 2 | [] => false end).

Definition stale_records_behind_new_header_are_ignored : M World unit :=
  let p := temp_path "db.oxen-wal" in
  let! _ := logged p [Commit 1] in
  let! contents := fs_read p in
  let! _ := fs_write p (splice 0 (encode_header 1) contents) in
  let! opened := unwrap (wal_open p) in
  let! _ := assert_records opened [] in
  assert_eq (next_seq (opened_wal opened)) 1.

Definition reset_with_pending_records_is_refused : M World unit :=
  let! wal := unwrap (wal_create (temp_path "db.oxen-wal")) in
  let! wal := append_ok (Commit 1) wal in
  expect_err is_invalid_argument (let! '(r, _) := wal_reset wal in ret r).

(** [b"not a wal"]. *)
Definition NOT_A_WAL : bytes := byte.of_Z <$> [110; 111; 116; 32; 97; 32; 119; 97; 108]%Z.

Definition rejects_bad_headers : M World unit :=
  let p := temp_path "db.oxen-wal" in
  let! _ := fs_write p NOT_A_WAL in
  let! _ := expect_err is_unsupported_format (wal_open p) in
  let! _ := fs_write p (alter (flip_bit 0) 20 (encode_header 0)) in
  expect_err is_corruption (wal_open p).

Definition log_tests : list (M World unit) :=
  [flushed_records_survive_reopen; unflushed_records_are_lost; torn_tail_is_discarded_at_every_cut;
   appends_after_torn_tail_are_readable; reset_empties_log_and_continues_sequence;
   stale_records_behind_new_header_are_ignored; reset_with_pending_records_is_refused;
   rejects_bad_headers].

(** ** recovery.rs *)

Definition sealed_heap (id : PageId) (fill : byte) : Page := seal (heap_page id fill).

Definition page_record (txn : TxnId) (page : Page) : WalRecord := PageImage txn (page_id page) page.

Definition header_image (txn : TxnId) (count : Z) : WalRecord :=
  PageImage txn HEADER (encode {| page_count := count |}).

Definition decoded_records (rs : list WalRecord) : list DecodedRecord :=
  imap (λ sq r, {| seq := Z.of_nat sq; record := r; rec_len := 0 |}) rs.

Definition new_db : M World path :=
  let p := temp_path "db.oxen" in
  let! _ := unwrap (disk_create p) in
  ret p.

Definition assert_stats (stats : RecoveryStats) (committed : nat) (incomplete : Z) (restored : nat) : M World unit :=
  assert (bool_decide (committed_txns stats = committed) && z_eqb (incomplete_txns stats) incomplete &&
          bool_decide (pages_restored stats = restored)).

(** [assert_eq!(disk.read_page(id).unwrap().payload()[0], v)]. *)
Definition assert_page (id : PageId) (v : Z) (disk : DiskManager) : M World unit :=
  let! page := unwrap (read_page id disk) in
  assert_eq (first_byte page) v.

Definition replays_committed_and_ignores_incomplete : M World unit :=
  let! p := new_db in
  let records := decoded_records
    [header_image 1 3; page_record 1 (sealed_heap 1 (byte.of_Z 10));
     page_record 1 (sealed_heap 2 (byte.of_Z 20)); Commit 1; page_record 2 (sealed_heap 1 (byte.of_Z 99))] in
  let! stats := unwrap (replay p records) in
  let! _ := assert_stats stats 1 1 3 in
  let! disk := unwrap (disk_open p) in
  let! _ := assert_eq (dm_page_count disk) 3 in
  let! _ := assert_page 1 10 disk in
  assert_page 2 20 disk.

Definition later_commits_win : M World unit :=
  let! p := new_db in
  let records := decoded_records
    [header_image 1 2; page_record 1 (sealed_heap 1 Byte.x01); Commit 1;
     page_record 2 (sealed_heap 1 Byte.x02); Commit 2] in
  let! _ := unwrap (replay p records) in
  let! disk := unwrap (disk_open p) in
  assert_page 1 2 disk.

Definition repairs_torn_data_page_and_header : M World unit :=
  let! p := new_db in
  let records := decoded_records [header_image 1 2; page_record 1 (sealed_heap 1 Byte.x05); Commit 1] in
  let! _ := unwrap (replay p records) in
  let! file := unwrap (open_file p) in
  let! _ := unwrap (write_all_at file (replicate 512 Byte.xaa) 0) in
  let! _ := unwrap (write_all_at file (replicate 512 Byte.xbb) (Z.of_nat PAGE_SIZE + 2048)) in
  let! _ := expect_err any_error (disk_open p) in
  let! _ := unwrap (replay p records) in
  let! disk := unwrap (disk_open p) in
  assert_page 1 5 disk.

Definition replay_is_idempotent : M World unit :=
  let! p := new_db in
  let records := decoded_records [header_image 1 2; page_record 1 (sealed_heap 1 Byte.x05); Commit 1] in
  let! _ := unwrap (replay p records) in
  let! first := fs_read p in
  let! _ := unwrap (replay p records) in
  let! second := fs_read p in
  assert (bool_decide (second = first)).

Definition empty_log_touches_nothing : M World unit :=
  let! p := new_db in
  let! before := fs_read p in
  let! stats := unwrap (replay p []) in
  let! _ := assert_stats stats 0 0 0 in
  let! after := fs_read p in
  assert (bool_decide (after = before)).

Definition refuses_invalid_committed_image : M World unit :=
  let! p := new_db in
  let bad := payload_write 0 [Byte.x06] (sealed_heap 1 Byte.x05) in
  let records := decoded_records [page_record 1 bad; Commit 1] in
  expect_err is_corruption (replay p records).

Definition recovery_tests : list (M World unit) :=
  [replays_committed_and_ignores_incomplete; later_commits_win; repairs_torn_data_page_and_header;
   replay_is_idempotent; empty_log_touches_nothing; refuses_invalid_committed_image].

End Tests.

Module StorageRuns.
#[local] Existing Instance PageWitness.cpu.
Lemma disk_tests_run : forallb passes disk_tests = true.
Proof. vm_cast_no_check (eq_refl true). Qed.
Lemma log_tests_run : forallb passes log_tests = true.
Proof. vm_cast_no_check (eq_refl true). Qed.
Lemma recovery_tests_run : forallb passes recovery_tests = true.
Proof. vm_cast_no_check (eq_refl true). Qed.
End StorageRuns.
