(* ===== verification/PoolTests.v ===== *)
(** * The unit tests of the buffer pool (the test module of buffer_pool.rs)

    The single-threaded tests of the pool as programs over its operations,
    run like those of the storage layer.  The two tests in which threads
    increment counters are the theorem [increments_are_not_lost] of
    PoolClients.v, for any number of threads, pages and increments. *)

From S2P Require Import Prelude Errors BTree Checksum Page FileHeader FileSys Disk WalRecord WalLog Recovery.
From S2P Require Import BufferPool PoolCache Database Conformance UnitTests StorageTests.

Section PoolTests.
Context `{Cpu} `{HashOrder}.

Abbreviation PW := (BufferPool * World)%type.

(** ** What the tests use *)

(** The scope of [pool]. *)
Definition with_new_pool {A} (capacity : nat) (m : M PW A) : M World A :=
  let! pool := unwrap (lift (pool_new capacity)) in
  λ w, let '(r, (_, w')) := m (pool, w) in (r, w').

Definition beside_pool {A} (m : M World A) : M PW A := zoom snd (λ w s, (s.1, w)) m.

Definition setup (pages : nat) : M World DiskManager :=
  let! disk := unwrap (disk_create (temp_path "db.oxen")) in
  let! disk := set_count (1 + Z.of_nat pages) disk in
  let! _ := each (λ id, put_page id (heap_page id (byte.of_Z id)) disk) (seqZ 1 (Z.of_nat pages)) in
  let! _ := unwrap (write_file_header disk) in
  ret disk.

Definition reopen_disk : M World DiskManager := unwrap (disk_open (temp_path "db.oxen")).

(** [pool.fetch_page(id).unwrap()], [handle.read()], [handle.write()] and the
    end of the handle's scope. *)
Definition fetch_handle (id : PageId) (d : DiskManager) : M PW PageHandle := unwrap (pool_fetch_page id d).
Definition read_handle (h : PageHandle) : M PW Page := shard_for (handle_page h) (handle_read h).
Definition write_handle (f : Page → Page) (h : PageHandle) : M PW unit := shard_for (handle_page h) (handle_write h f).
Definition close_handle (h : PageHandle) : M PW unit := shard_for (handle_page h) (handle_drop h).

(** The same on a temporary handle, dropped at the end of the statement. *)
Definition fetch_and_drop (id : PageId) (d : DiskManager) : M PW unit :=
  let! h := fetch_handle id d in close_handle h.
Definition read_fetched (id : PageId) (d : DiskManager) : M PW Page :=
  let! h := fetch_handle id d in
  let! page := read_handle h in
  let! _ := close_handle h in
  ret page.
Definition write_fetched (id : PageId) (b : Z) (d : DiskManager) : M PW unit :=
  let! h := fetch_handle id d in
  let! _ := write_handle (payload_write 0 [byte.of_Z b]) h in
  close_handle h.

Definition set_first (b : Z) (p : Page) : Page := payload_write 0 [byte.of_Z b] p.

(** [lock_state().pin_counts[i]], [read_frame(i).dirty] and [page_table.get]. *)
Definition pin_count_of (h : PageHandle) : M PW Z :=
  shard_for (handle_page h) (with_state (index pin_counts (handle_frame h))).
Definition is_dirty (h : PageHandle) : M PW bool :=
  let! frame := shard_for (handle_page h) (read_frame (handle_frame h)) in ret (frame_dirty frame).
Definition cached_at (id : PageId) : M PW (option FrameId) :=
  shard_for id (with_state (gets (λ s, page_table s !! id))).

Definition cached_page_count : M PW nat :=
  gets (λ s, sum_list ((λ sh, size (page_table (shard_state sh))) <$> shards s.1)).

(** ** The tests *)

Definition rejects_zero_capacity : M World unit :=
  let! _ := setup 0 in
  expect_err is_invalid_argument (lift (pool_new 0)).

Definition fetch_reads_page_from_disk : M World unit :=
  let! disk := setup 2 in
  with_new_pool 4 (
    let! handle := fetch_handle 2 disk in
    let! _ := assert_eq (handle_page handle) 2 in
    let! page := read_handle handle in
    let! _ := assert (all_bytes Byte.x02 page) in
    close_handle handle).

Definition repeated_fetch_shares_one_frame : M World unit :=
  let! disk := setup 1 in
  with_new_pool 4 (
    let! a := fetch_handle 1 disk in
    let! b := fetch_handle 1 disk in
    let! _ := assert (handle_frame a =? handle_frame b) in
    let! _ := write_handle (set_first 99) a in
    let! page := read_handle b in
    let! _ := assert_eq (first_byte page) 99 in
    let! pins := pin_count_of a in
    let! _ := assert_eq pins 2 in
    let! _ := close_handle b in
    close_handle a).

Definition dropping_handles_unpins : M World unit :=
  let! disk := setup 1 in
  with_new_pool 4 (
    let! handle := fetch_handle 1 disk in
    let! second := fetch_handle 1 disk in
    let! _ := close_handle handle in
    let! pins := pin_count_of handle in
    let! _ := assert_eq pins 1 in
    let! _ := close_handle second in
    let! pins := pin_count_of handle in
    assert_eq pins 0).

Definition write_guard_marks_frame_dirty : M World unit :=
  let! disk := setup 1 in
  with_new_pool 4 (
    let! handle := fetch_handle 1 disk in
    let! dirty := is_dirty handle in
    let! _ := assert (negb dirty) in
    let! _ := write_handle id handle in
    let! dirty := is_dirty handle in
    let! _ := assert dirty in
    close_handle handle).

Definition evicts_unpinned_pages_when_full : M World unit :=
  let! disk := setup 5 in
  with_new_pool 2 (
    let! _ := each (λ id,
      let! page := read_fetched id disk in
      assert (all_bytes (byte.of_Z id) page)) (seqZ 1 5) in
    let! count := cached_page_count in
    assert (count =? 2)).

Definition dirty_pages_survive_eviction : M World unit :=
  let! disk := setup 3 in
  with_new_pool 1 (
    let! _ := write_fetched 1 200 disk in
    let! _ := fetch_and_drop 2 disk in
    let! _ := fetch_and_drop 3 disk in
    let! page := read_fetched 1 disk in
    assert_eq (first_byte page) 200).

Definition pinned_pages_are_not_evicted : M World unit :=
  let! disk := setup 3 in
  with_new_pool 2 (
    let! pinned := fetch_handle 1 disk in
    let! _ := write_handle (set_first 42) pinned in
    let! _ := each (λ id, fetch_and_drop id disk) [2; 3; 2; 3]%Z in
    let! page := read_handle pinned in
    let! _ := assert_eq (first_byte page) 42 in
    let! at_ := cached_at 1 in
    let! _ := assert (bool_decide (at_ = Some (handle_frame pinned))) in
    close_handle pinned).

Definition flush_page_writes_to_disk : M World unit :=
  let! disk := setup 1 in
  with_new_pool 4 (
    let! handle := fetch_handle 1 disk in
    let! _ := write_handle (set_first 123) handle in
    let! _ := unwrap (pool_flush_page 1 disk) in
    let! dirty := is_dirty handle in
    let! _ := assert (negb dirty) in
    let! page := unwrap (beside_pool (read_page 1 disk)) in
    let! _ := assert_eq (first_byte page) 123 in
    close_handle handle).

Definition flush_page_of_uncached_page_is_a_no_op : M World unit :=
  let! disk := setup 1 in
  with_new_pool 4 (unwrap (pool_flush_page 1 disk)).

Definition flush_all_persists_across_reopen : M World unit :=
  let! disk := setup 3 in
  let! _ := with_new_pool 4 (
    let! _ := each (λ id, write_fetched id (100 + id) disk) (seqZ 1 3) in
    unwrap (flush_all disk)) in
  let! disk := reopen_disk in
  with_new_pool 4 (
    each (λ id,
      let! page := read_fetched id disk in
      assert_eq (first_byte page) (100 + id)) (seqZ 1 3)).

Definition install_replaces_cached_page : M World unit :=
  let! disk := setup 1 in
  with_new_pool 4 (
    let! handle := fetch_handle 1 disk in
    let! _ := unwrap (pool_install_page 1 (set_first 55 (page_new 1 Heap)) disk) in
    let! page := read_handle handle in
    let! _ := assert_eq (first_byte page) 55 in
    let! dirty := is_dirty handle in
    let! _ := assert dirty in
    close_handle handle).

Definition install_uncached_page_does_not_read_disk : M World unit :=
  let! disk := setup 1 in
  with_new_pool 4 (
    let! _ := unwrap (pool_install_page 1 (set_first 66 (page_new 1 Heap)) disk) in
    let! page := read_fetched 1 disk in
    assert_eq (first_byte page) 66).

Definition installed_page_is_unpinned_and_evictable : M World unit :=
  let! disk := setup 2 in
  with_new_pool 1 (
    let! _ := unwrap (pool_install_page 1 (set_first 77 (page_new 1 Heap)) disk) in
    let! _ := fetch_and_drop 2 disk in
    let! page := unwrap (beside_pool (read_page 1 disk)) in
    assert_eq (first_byte page) 77).

Definition install_rejects_mismatched_page_id : M World unit :=
  let! disk := setup 1 in
  with_new_pool 4 (expect_err is_invalid_argument (pool_install_page 1 (page_new 2 Heap) disk)).

(** [HashSet::len] of the values of a [Vec]. *)
Definition distinct (l : list Z) : nat := size (list_to_set l : gset Z).

Definition page_id_hasher_spreads_sequential_ids : bool :=
  let hashes := hash_one <$> seqZ 0 4096 in
  (distinct ((λ h, Z.land h 0xFFF) <$> hashes) =? 4096) &&
  (120 <? distinct ((λ h, Z.shiftr h 57) <$> hashes)).

Definition shard_count_scales_with_capacity : bool :=
  (shard_count_for 1 =? 1) && (shard_count_for 127 =? 1) && (shard_count_for 128 =? 2) &&
  (shard_count_for 1000 =? 8) && (shard_count_for 4096 =? 64) && (shard_count_for (2 ^ 20) =? 64).

Definition capacity_is_split_exactly_across_shards : M World unit :=
  let! _ := setup 0 in
  each (λ capacity,
    with_new_pool capacity (
      let! pool := gets fst in
      let! _ := assert (pool_capacity pool =? capacity) in
      assert (forallb (λ sh, 0 <? length (shard_frames sh)) (shards pool)))) [1; 63; 128; 1000; 4097].

Definition full_pool_reports_exhaustion : M World unit :=
  let! disk := setup 2 in
  with_new_pool 1 (
    let! _held := fetch_handle 1 disk in
    let! _ := expect_err is_resource_exhausted (pool_fetch_page 2 disk) in
    close_handle _held).

Definition failed_read_returns_frame_to_free_list : M World unit :=
  let! disk := setup 1 in
  with_new_pool 1 (
    let! _ := expect_err any_error (pool_fetch_page 50 disk) in
    fetch_and_drop 1 disk).

Definition pool_tests : list (M World unit) :=
  [rejects_zero_capacity; fetch_reads_page_from_disk; repeated_fetch_shares_one_frame;
   dropping_handles_unpins; write_guard_marks_frame_dirty; evicts_unpinned_pages_when_full;
   dirty_pages_survive_eviction; pinned_pages_are_not_evicted; flush_page_writes_to_disk;
   flush_page_of_uncached_page_is_a_no_op; flush_all_persists_across_reopen; install_replaces_cached_page;
   install_uncached_page_does_not_read_disk; installed_page_is_unpinned_and_evictable;
   install_rejects_mismatched_page_id; capacity_is_split_exactly_across_shards; full_pool_reports_exhaustion;
   failed_read_returns_frame_to_free_list].

(** Equal low bits of two hashes mean equal low bits of the ids. *)
Lemma low_hashes_distinct (k : Z) :
  (0 ≤ k ≤ 64)%Z → NoDup ((λ h, Z.land h (Z.ones k)) <$> (hash_one <$> seqZ 0 (2 ^ k))).
Proof.
  intros Hk. rewrite <- list_fmap_compose. apply NoDup_fmap_2_strong; [|apply NoDup_seqZ].
  intros a b Ha%elem_of_seqZ Hb%elem_of_seqZ E. simpl in E. rewrite !Z.land_ones in E by lia.
  rewrite <- (Z.mod_small a (2 ^ k)), <- (Z.mod_small b (2 ^ k)) by lia.
  by rewrite (hash_invert k a), (hash_invert k b), E.
Qed.

Lemma distinct_NoDup l : NoDup l → distinct l = length l.
Proof. apply (size_list_to_set (C := gset Z)). Qed.

Lemma distinct_ge l l' : NoDup l' → l' ⊆ l → length l' ≤ distinct l.
Proof.
  intros Hnd Hsub. rewrite <- (distinct_NoDup l') by done. unfold distinct.
  apply (subseteq_size (C := gset Z)). intros x. rewrite !elem_of_list_to_set. apply Hsub.
Qed.

(** The first 256 ids already have all 128 tags. *)
Lemma tags_all : seqZ 0 128 ⊆ (λ h, Z.shiftr h 57) <$> (hash_one <$> seqZ 0 4096).
Proof.
  intros t Ht.
  assert (forallb (λ t, existsb (Z.eqb t) ((λ h, Z.shiftr h 57) <$> (hash_one <$> seqZ 0 256))) (seqZ 0 128)
          = true) as Hall by (vm_compute; reflexivity).
  apply list_elem_of_In, (proj1 (forallb_forall _ _) Hall), existsb_exists in Ht as (x & Hx%list_elem_of_In & ->%Z.eqb_eq).
  revert Hx. rewrite !list_elem_of_fmap. intros (h & -> & (id & -> & Hid%elem_of_seqZ)%list_elem_of_fmap).
  eexists; split; [done|]. apply list_elem_of_fmap. eexists; split; [done|]. apply elem_of_seqZ. lia.
Qed.

Lemma hasher_test : page_id_hasher_spreads_sequential_ids = true.
Proof.
  unfold page_id_hasher_spreads_sequential_ids. apply andb_true_iff. split.
  - pose proof (low_hashes_distinct 12 ltac:(lia)) as Hnd.
    change (Z.ones 12) with 0xFFF%Z in Hnd. change (2 ^ 12)%Z with 4096%Z in Hnd.
    by rewrite (distinct_NoDup _ Hnd), !length_fmap, length_seqZ.
  - apply Nat.ltb_lt. pose proof (distinct_ge _ _ (NoDup_seqZ 0 128) tags_all) as Hd.
    rewrite length_seqZ in Hd. lia.
Qed.

(** A capacity of at least 64 full shards gives 64 shards. *)
Lemma shard_count_max cap : MAX_SHARDS * TARGET_SHARD_FRAMES ≤ cap → shard_count_for cap = MAX_SHARDS.
Proof.
  intros Hc. unfold shard_count_for.
  assert (MAX_SHARDS ≤ cap / TARGET_SHARD_FRAMES).
  { apply Nat.div_le_lower_bound; [done|]. by rewrite Nat.mul_comm. }
  rewrite Nat.max_l, Nat.min_r by (unfold MAX_SHARDS in *; lia). done.
Qed.

Lemma shard_count_test : shard_count_scales_with_capacity = true.
Proof.
  unfold shard_count_scales_with_capacity.
  rewrite (shard_count_max (2 ^ 20)) by (apply (Nat.pow_le_mono_r 2 12 20); lia).
  vm_compute. reflexivity.
Qed.

End PoolTests.

Module PoolRuns.
#[local] Existing Instance PageWitness.cpu.
#[local] Existing Instance PoolWitness.order.
Lemma pool_tests_run : forallb passes pool_tests = true.
Proof. vm_cast_no_check (eq_refl true). Qed.
End PoolRuns.
