(* ===== verification/DbTests.v ===== *)
(** * The unit tests of the database (the test modules of db/mod.rs and db/txn.rs)

    The single-threaded tests of [Database] and its transactions, run like
    those of the storage layer.  Two of them loop over many commits; they take
    the number of rounds as an argument.  [readers_never_see_a_partial_commit]
    is the theorem [readers_see_whole_transfers] of Clients.v. *)

From S2P Require Import Prelude Errors BTree Checksum Page FileHeader FileSys Disk WalRecord WalLog Recovery.
From S2P Require Import BufferPool PoolCache PoolClients Database Conformance UnitTests StorageTests PoolTests.

Section DbTests.
Context `{Cpu} `{HashOrder}.

Abbreviation DW := (Database * World)%type.

(** ** db/mod.rs *)

(** [Options { field, ..Options::default() }]. *)
Definition with_pool_pages (n : nat) (o : Options) : Options :=
  {| buffer_pool_pages := n; create_if_missing := create_if_missing o;
     auto_checkpoint_bytes := auto_checkpoint_bytes o |}.
Definition with_create (b : bool) (o : Options) : Options :=
  {| buffer_pool_pages := buffer_pool_pages o; create_if_missing := b;
     auto_checkpoint_bytes := auto_checkpoint_bytes o |}.
Definition with_auto_checkpoint (limit : option Z) (o : Options) : Options :=
  {| buffer_pool_pages := buffer_pool_pages o; create_if_missing := create_if_missing o;
     auto_checkpoint_bytes := limit |}.

(** [Database::open_report] and [lock_wal().durable_len()]. *)
Definition open_report : M DW OpenReport := gets (λ s, db_report s.1).
Definition wal_durable_len : M DW Z := gets (λ s, durable_len (db_wal s.1)).

Definition app_oxen : path := temp_path "app.oxen".

(** [err.to_string().contains(text)]. *)
Definition says (text : string) (e : Error) : bool := contains text (error_to_string e).

Definition wal_path_is_next_to_database : bool :=
  match wal_path_for [RootDir; Normal "a"; Normal "b"; Normal "app.oxen"] with
  | Ok p => bool_decide (p = [RootDir; Normal "a"; Normal "b"; Normal "app.oxen-wal"])
  | Err _ => false
  end &&
  is_err (wal_path_for [RootDir]).

Definition creates_then_reopens : M World unit :=
  let! db := unwrap (db_open app_oxen default_options) in
  let! _ := with_db (
    let! report := open_report in
    let! _ := assert (created report) in
    let! count := db_page_count in
    assert_eq count 1) db in
  let! data_exists := path_exists app_oxen in
  let! _ := assert data_exists in
  let! wal_path := unwrap (lift (wal_path_for app_oxen)) in
  let! wal_exists := path_exists wal_path in
  let! _ := assert wal_exists in
  let! db := unwrap (db_open app_oxen default_options) in
  with_db (
    let! report := open_report in
    assert (negb (created report))) db.

Definition refuses_to_create_when_asked_not_to : M World unit :=
  expect_err (says "does not exist") (db_open app_oxen (with_create false default_options)).

Definition missing_wal_is_recreated : M World unit :=
  let! _ := unwrap (db_open app_oxen default_options) in
  let! wal_path := unwrap (lift (wal_path_for app_oxen)) in
  let! _ := fs_remove wal_path in
  let! _ := unwrap (db_open app_oxen default_options) in
  let! wal_exists := path_exists wal_path in
  assert wal_exists.

Definition orphaned_wal_is_refused : M World unit :=
  let! _ := unwrap (db_open app_oxen default_options) in
  let! _ := fs_remove app_oxen in
  expect_err (says "does not") (db_open app_oxen default_options).

Definition checkpoint_and_close_leave_an_empty_wal : M World unit :=
  let! db := unwrap (db_open app_oxen default_options) in
  let! _ := with_db (let! _ := unwrap checkpoint in unwrap close) db in
  let! wal_path := unwrap (lift (wal_path_for app_oxen)) in
  let! wal := fs_read wal_path in
  assert (length wal =? WAL_HEADER_SIZE).

Definition rejects_zero_sized_buffer_pool : M World unit :=
  expect_err any_error (db_open app_oxen (with_pool_pages 0 default_options)).

Definition db_tests : list (M World unit) :=
  [creates_then_reopens; refuses_to_create_when_asked_not_to; missing_wal_is_recreated;
   orphaned_wal_is_refused; checkpoint_and_close_leave_an_empty_wal; rejects_zero_sized_buffer_pool].

(** ** db/txn.rs *)

Definition t_oxen : path := temp_path "t.oxen".

Definition open (p : path) : M World Database := unwrap (db_open p (with_pool_pages 16 default_options)).

(** The rest of a test, on the database at [path]. *)
Definition on_open_db (m : M DW unit) : M World unit :=
  let! db := open t_oxen in with_db m db.

(** [write_u64(txn.page_mut(id).unwrap(), value)]. *)
Definition put_u64 (id : PageId) (value : Z) (txn : WriteTxn) : M DW WriteTxn :=
  unwrap (page_mut id (write_u64 value) txn).

(** [assert_eq!(db.begin_read().unwrap().read_page(id, read_u64).unwrap(), value)]. *)
Definition assert_reads (id : PageId) (value : Z) : M DW unit :=
  let! page := unwrap (read_txn_read_page id) in
  assert_eq (read_u64 page) value.

Definition commit_new_page (value : Z) : M DW PageId :=
  let! txn := unwrap begin_write in
  let '(id, txn) := allocate_page Heap txn in
  let! txn := put_u64 id value txn in
  let! _ := unwrap (commit txn) in
  ret id.

Definition commit_value (id : PageId) (value : Z) : M DW unit :=
  let! txn := unwrap begin_write in
  let! txn := put_u64 id value txn in
  unwrap (commit txn).

Definition committed_changes_are_visible : M World unit :=
  on_open_db (
    let! id := commit_new_page 42 in
    let! count := db_page_count in
    let! _ := assert_eq count 2 in
    let! _ := unwrap begin_read in
    assert_reads id 42).

Definition writer_sees_its_own_changes : M World unit :=
  on_open_db (
    let! id := commit_new_page 1 in
    let! txn := unwrap begin_write in
    let! txn := put_u64 id 2 txn in
    let! page := unwrap (write_txn_read_page id txn) in
    assert_eq (read_u64 page) 2).

Definition uncommitted_changes_are_invisible_to_readers : M World unit :=
  on_open_db (
    let! id := commit_new_page 1 in
    let! txn := unwrap begin_write in
    let! txn := put_u64 id 2 txn in
    let '(new_id, txn) := allocate_page Heap txn in
    let! _ := unwrap begin_read in
    let! _ := assert_reads id 1 in
    let! _ := expect_err any_error (read_txn_read_page new_id) in
    let! count := read_txn_page_count in
    assert_eq count 2).

Definition rollback_discards_changes_and_allocations : M World unit :=
  on_open_db (
    let! id := commit_new_page 1 in
    let! txn := unwrap begin_write in
    let! txn := put_u64 id 2 txn in
    let '(_, txn) := allocate_page Heap txn in
    let! _ := rollback txn in
    let! txn := unwrap begin_write in
    let! txn := put_u64 id 3 txn in
    let! _ := rollback txn in
    let! _ := unwrap begin_read in
    let! _ := assert_reads id 1 in
    let! count := read_txn_page_count in
    let! _ := assert_eq count 2 in
    let! id := commit_new_page 5 in
    assert_eq id 2).

(** [(0..5).map(|i| commit_new_page(&db, 100 + i)).collect()]. *)
Fixpoint commit_new_pages (values : list Z) : M DW (list PageId) :=
  match values with
  | [] => ret []
  | v :: values =>
      let! id := commit_new_page v in
      let! ids := commit_new_pages values in
      ret (id :: ids)
  end.

Definition commits_survive_reopen_without_checkpoint : M World unit :=
  let! db := open t_oxen in
  let! ids := with_db (commit_new_pages ((λ i, 100 + i)%Z <$> seqZ 0 5)) db in
  on_open_db (
    let! report := open_report in
    let! _ := assert (committed_txns (recovery_stats report) =? 5) in
    let! count := db_page_count in
    let! _ := assert_eq count 6 in
    let! _ := unwrap begin_read in
    each (λ '(i, id), assert_reads id (100 + i)) (zip (seqZ 0 5) ids)).

Definition commits_survive_close_and_reopen : M World unit :=
  let! db := open t_oxen in
  let! id := with_db (
    let! id := commit_new_page 7 in
    let! _ := unwrap close in
    ret id) db in
  on_open_db (
    let! report := open_report in
    let! _ := assert (committed_txns (recovery_stats report) =? 0) in
    let! _ := unwrap begin_read in
    assert_reads id 7).

Fixpoint allocate_values (values : list Z) (txn : WriteTxn) : M DW WriteTxn :=
  match values with
  | [] => ret txn
  | i :: values =>
      let '(id, txn) := allocate_page Heap txn in
      let! txn := put_u64 id i txn in
      allocate_values values txn
  end.

(** The test has 100 pages, in 16 frames. *)
Definition many_pages_through_a_small_buffer_pool (pages : Z) : M World unit :=
  let! _ := on_open_db (
    let! txn := unwrap begin_write in
    let! txn := allocate_values (seqZ 0 pages) txn in
    let! _ := unwrap (commit txn) in
    let! _ := unwrap checkpoint in
    let! _ := unwrap begin_read in
    each (λ i, assert_reads (1 + i) i) (seqZ 0 pages)) in
  on_open_db (
    let! _ := unwrap begin_read in
    each (λ i, assert_reads (1 + i) i) (seqZ 0 pages)).

Definition malformed_page_is_rejected_before_logging : M World unit :=
  on_open_db (
    let! id := commit_new_page 1 in
    let! wal_len_before := wal_durable_len in
    let! txn := unwrap begin_write in
    let! txn := unwrap (page_mut id (set_range 4 [Byte.x00]) txn) in
    let! _ := expect_err is_invalid_argument (commit txn) in
    let! wal_len := wal_durable_len in
    let! _ := assert_eq wal_len wal_len_before in
    let! _ := unwrap begin_read in
    assert_reads id 1).

Definition header_page_is_not_accessible : M World unit :=
  on_open_db (
    let! txn := unwrap begin_write in
    let! _ := expect_err any_error (page_mut HEADER id txn) in
    expect_err any_error (page_mut 1 id txn)).

(** The test has 200 commits. *)
Definition auto_checkpoint_bounds_wal_size (commits : Z) : M World unit :=
  let limit := (64 * 1024)%Z in
  let options := with_auto_checkpoint (Some limit) (with_pool_pages 16 default_options) in
  let! db := unwrap (db_open t_oxen options) in
  let! id := with_db (
    let! id := commit_new_page 0 in
    let! _ := each (λ i,
      let! _ := commit_value id i in
      let! len := wal_durable_len in
      assert (len <? limit + 8192)%Z) (seqZ 1 commits) in
    ret id) db in
  on_open_db (
    let! _ := unwrap begin_read in
    assert_reads id commits).

Definition auto_checkpoint_can_be_disabled : M World unit :=
  let! db := unwrap (db_open t_oxen (with_auto_checkpoint None default_options)) in
  with_db (
    let! id := commit_new_page 0 in
    let! _ := each (commit_value id) (seqZ 0 20) in
    let! len := wal_durable_len in
    assert (20 * 4096 <? len)%Z) db.

Definition poisoned_database_refuses_transactions : M World unit :=
  on_open_db (
    let! _ := poison in
    let! _ := expect_err is_poisoned begin_read in
    let! _ := expect_err is_poisoned begin_write in
    expect_err is_poisoned checkpoint).

Definition txn_tests : list (M World unit) :=
  [committed_changes_are_visible; writer_sees_its_own_changes; uncommitted_changes_are_invisible_to_readers;
   rollback_discards_changes_and_allocations; commits_survive_reopen_without_checkpoint;
   commits_survive_close_and_reopen; many_pages_through_a_small_buffer_pool 17;
   malformed_page_is_rejected_before_logging; header_page_is_not_accessible;
   auto_checkpoint_bounds_wal_size 17; auto_checkpoint_can_be_disabled;
   poisoned_database_refuses_transactions].

End DbTests.

(** ** The runs *)

Module TestRuns.
#[local] Existing Instance PageWitness.cpu.
#[local] Existing Instance PoolWitness.order.

Lemma wal_path_test : wal_path_is_next_to_database = true.
Proof. vm_compute. reflexivity. Qed.

Lemma db_tests_run : forallb passes db_tests = true.
Proof. vm_cast_no_check (eq_refl true). Qed.

Lemma txn_tests_run : forallb passes txn_tests = true.
Proof. vm_cast_no_check (eq_refl true). Qed.

(** The tests of the disk manager, the log, recovery, the buffer pool and
    the database pass: run in an empty directory, none of them panics. *)
Theorem component_tests_pass :
  Forall (λ test, passes test = true)
    (disk_tests ++ log_tests ++ recovery_tests ++ pool_tests ++ db_tests ++ txn_tests) ∧
  page_id_hasher_spreads_sequential_ids = true ∧ shard_count_scales_with_capacity = true ∧
  wal_path_is_next_to_database = true.
Proof.
  split; [|split_and!; [apply hasher_test|apply shard_count_test|apply wal_path_test]].
  rewrite !Forall_app, !Forall_forall.
  split_and!; intros t Ht%list_elem_of_In; revert t Ht; apply forallb_forall.
  - apply StorageRuns.disk_tests_run.
  - apply StorageRuns.log_tests_run.
  - apply StorageRuns.recovery_tests_run.
  - apply PoolRuns.pool_tests_run.
  - apply db_tests_run.
  - apply txn_tests_run.
Qed.

End TestRuns.
