(* ===== verification/Guarantees.v ===== *)
(** * What the database guarantees

    The properties a client relies on, each from an open database in a
    committed state: atomic and durable commits, recovery, checkpoints that
    change nothing, coherent reads, and the refinement of the abstract machine
    by whole runs with failures, crashes and reopenings. *)

From S2P Require Import Prelude Errors BTree Checksum Page FileHeader FileSys Disk WalRecord.
From S2P Require Import WalLog Recovery BufferPool PoolCache Database DbState Checkpoint.
From S2P Require Import Commit Reopen Restart Transactions System.

Section Opening.
Context `{Cpu}.

(** Without I/O failures opening succeeds. *)
Lemma open_run A p wl options f bw first rs w :
  wal_path_for p = Ok wl → 0 < buffer_pool_pages options → reopenable A f bw first rs →
  w_files w !! p = Some f → w_files w !! wl = Some (file_at_rest bw) → io_ok w →
  ∃ db w', db_open p options w = (Done (Ok db), w') ∧ db_inv A db w' ∧ on_files p wl db.
Proof.
  intros Hwl Hb Hro Hf Hfw Hio.
  pose proof (wp_db_open A p wl options f bw first rs w Hwl Hro Hf Hfw) as Hw. unfold wp in Hw.
  destruct (db_open p options w) as [[[db|e]| |] w'].
  - destruct Hw as [(Hinv & ? & ?) _]. by exists db, w'.
  - destruct Hw as [[?|?] _]; [done|lia].
  - done.
  - by destruct Hw.
Qed.

Lemma reboot_open P p wl options w w1 :
  wal_path_for p = Ok wl → 0 < buffer_pool_pages options →
  recovers P p wl w → reboot w w1 → io_ok w1 →
  ∃ A db w2, P A ∧ db_open p options w1 = (Done (Ok db), w2) ∧ db_inv A db w2 ∧ on_files p wl db.
Proof.
  intros Hwl Hb Hr Hre Hio.
  destruct (recovers_reboot p wl _ _ _ Hr Hre) as (A & b & bw & first & rs & HP & Hro & Hf & Hfw).
  destruct (open_run A p wl options _ _ _ _ w1 Hwl Hb Hro Hf Hfw Hio) as (db & w2 & E & Hinv & Hon).
  by exists A, db, w2.
Qed.

Lemma reboot_open_checked P p wl options w w1 :
  wal_path_for p = Ok wl → 0 < buffer_pool_pages options →
  recovers_checked P p wl w → reboot w w1 → genuine_log wl w w1 → io_ok w1 →
  ∃ A db w2, P A ∧ db_open p options w1 = (Done (Ok db), w2) ∧ db_inv A db w2 ∧ on_files p wl db.
Proof.
  intros Hwl Hb Hr Hre Hg Hio.
  destruct (recovers_checked_reboot p wl _ _ _ Hr Hre Hg) as (A & b & bw & first & rs & HP & Hro & Hf & Hfw).
  destruct (open_run A p wl options _ _ _ _ w1 Hwl Hb Hro Hf Hfw Hio) as (db & w2 & E & Hinv & Hon).
  by exists A, db, w2.
Qed.

End Opening.

Section Guarantees.
Context `{Cpu} `{HashOrder}.
Variables (p wl : path) (options : Options).
Hypotheses (Hwl : wal_path_for p = Ok wl) (Hpages : 0 < buffer_pool_pages options).
Implicit Types A : AState.
Implicit Types txn : WriteTxn.

(** However a commit ends, the files recover to one of two states. *)
Lemma commit_any_end A txn db w r s :
  db_inv A db w → on_files p wl db → txn_rep A txn → commit_room db txn →
  commit txn (db, w) = (r, s) → recovers_checked (λ X, X = A ∨ X = txn_state A txn) p wl s.2.
Proof.
  intros Hinv [E1 E2] Htxn Hroom E. pose proof (wp_commit A txn db w Hinv Htxn Hroom) as Hw.
  assert (∀ X s', db_inv X s'.1 s'.2 → same_paths db s'.1 → recovers (λ Y, Y = X) p wl s'.2) as Hdb.
  { intros X s' Hs' [E1' E2']. apply db_inv_recovers in Hs'. by rewrite E1', E2', E1, E2 in Hs'. }
  unfold wp in Hw. rewrite E in Hw. destruct r as [[[]|e]| |]; [| |done|].
  - destruct Hw as [Hp [_ [Hs|(_ & _ & Hs)]]]; [|rewrite E1, E2 in Hs];
      (eapply recovers_weaken; [|by eauto]); auto.
  - destruct Hw as [Hp [(_ & _ & ->)|(_ & _ & Hs)]]; [|by rewrite E1, E2 in Hs].
    eapply recovers_weaken; [|by eapply Hdb]. auto.
  - destruct Hw as [_ Hs]. by rewrite E1, E2 in Hs.
Qed.

Lemma commit_ok_end A txn db w s :
  db_inv A db w → on_files p wl db → txn_rep A txn → commit_room db txn →
  commit txn (db, w) = (Done (Ok tt), s) → recovers (λ X, X = txn_state A txn) p wl s.2.
Proof.
  intros Hinv [E1 E2] Htxn Hroom E.
  destruct (wp_Done _ _ _ _ _ _ (wp_commit A txn db w Hinv Htxn Hroom) E) as [[P1 P2] [_ Hs]].
  destruct Hs as [Hs%db_inv_recovers|(_ & _ & Hs)]; [|by rewrite E1, E2 in Hs].
  by rewrite P1, P2, E1, E2 in Hs.
Qed.

(** C1. Commits are atomic: whatever happens during a commit (it returns, any
    system call fails, or the machine stops at any point), and whichever of the
    blocks that were not synced the crash keeps, in any order and with holes
    between them, the next open, if no system call fails in it, finds all of
    the transaction's changes or none of them.  The one thing assumed of the crash is that it does not leave, in
    the log, bytes that were never written together and yet match a record's
    checksum ([genuine_log]). *)
Theorem commit_crash_atomic A txn db w (r : exec (Result unit)) s w1 :
  db_inv A db w → on_files p wl db → txn_rep A txn → commit_room db txn →
  commit txn (db, w) = (r, s) → reboot s.2 w1 → genuine_log wl s.2 w1 → io_ok w1 →
  r ≠ Panicked ∧
  ∃ db' w2, db_open p options w1 = (Done (Ok db'), w2) ∧
    (db_inv A db' w2 ∨ db_inv (txn_state A txn) db' w2).
Proof.
  intros Hinv Hon Htxn Hroom E Hre Hg Hio. split.
  - intros ->. pose proof (wp_commit A txn db w Hinv Htxn Hroom) as Hw. unfold wp in Hw. by rewrite E in Hw.
  - pose proof (commit_any_end A txn db w r s Hinv Hon Htxn Hroom E) as Hr.
    destruct (reboot_open_checked _ p wl options _ _ Hwl Hpages Hr Hre Hg Hio)
      as (X & db' & w2 & [->| ->] & Eo & Hdb & _); exists db', w2; auto.
Qed.

(** C8. Commits are durable: once [commit] has returned [Ok], the
    transaction's changes survive every crash. *)
Theorem commit_durable A txn db w s w1 :
  db_inv A db w → on_files p wl db → txn_rep A txn → commit_room db txn →
  commit txn (db, w) = (Done (Ok tt), s) → reboot s.2 w1 → io_ok w1 →
  ∃ db' w2, db_open p options w1 = (Done (Ok db'), w2) ∧ db_inv (txn_state A txn) db' w2.
Proof.
  intros Hinv Hon Htxn Hroom E Hre Hio. pose proof (commit_ok_end A txn db w s Hinv Hon Htxn Hroom E) as Hr.
  destruct (reboot_open _ p wl options _ _ Hwl Hpages Hr Hre Hio)
    as (X & db' & w2 & -> & Eo & Hdb & _). by exists db', w2.
Qed.

(** C10. A killed process loses nothing that matters: when a process dies at
    any point of a commit while the machine runs on, or the commit fails and
    the process gives up, then however many later attempts to open the
    database fail or are killed as well, the next one that is not finds all of
    the transaction's changes or none of them, and all of them if the commit
    had returned [Ok].  The database is then as durable as any other. *)
Theorem killed_commit_reopens A txn db w (r : exec (Result unit)) s w1 :
  db_inv A db w → on_files p wl db → txn_rep A txn → commit_room db txn →
  commit txn (db, w) = (r, s) → rtc (failed_open p options) s.2 w1 →
  ∃ db' w2, db_open p options (set_plan [] w1) = (Done (Ok db'), w2) ∧
    (db_inv (txn_state A txn) db' w2 ∨ r ≠ Done (Ok tt) ∧ db_inv A db' w2).
Proof.
  intros Hinv Hon Htxn Hroom E Hatt.
  assert (recovers_checked (λ X, X = txn_state A txn ∨ r ≠ Done (Ok tt) ∧ X = A) p wl s.2) as Hr.
  { assert (r = Done (Ok tt) ∨ r ≠ Done (Ok tt)) as [->|Hne] by (destruct r as [[[]|]| |]; auto; by right).
    - eapply recovers_weaken; [|by apply (commit_ok_end A txn db w s)]. auto.
    - eapply recovers_checked_mono; [|by apply (commit_any_end A txn db w r s)]. naive_solver. }
  apply recovers_restartable in Hr. apply (restartable_attempts _ p wl options _ w1) in Hr; [|done..].
  destruct (restart_run _ p wl options (set_plan [] w1) Hwl Hpages Hr) as (X & db' & w2 & HX & Eo & Hdb);
    [constructor|]. exists db', w2. split; [done|]. destruct HX as [->|[Hne ->]]; auto.
Qed.

(** C14. Without I/O failures a commit always returns: [Ok], with the database
    in the transaction's state, if every page verifies once sealed, and
    otherwise an invalid-argument error, with nothing changed. *)
Theorem commit_completes A txn db w :
  db_inv A db w → txn_rep A txn → commit_room db txn → io_ok w →
  (txn_valid txn ∧ ∃ db' w', commit txn (db, w) = (Done (Ok tt), (db', w')) ∧
     db_inv (txn_state A txn) db' w' ∧ same_paths db db') ∨
  (¬ txn_valid txn ∧ ∃ e, commit txn (db, w) = (Done (Err e), (db, w)) ∧
     is_invalid_argument e = true).
Proof.
  intros Hinv Htxn Hroom Hio. pose proof (wp_commit A txn db w Hinv Htxn Hroom) as Hw.
  unfold wp in Hw. destruct (commit txn (db, w)) as [[[[]|e]| |] [db' w']].
  - destruct Hw as [Hp [Hv [Hs|[? _]]]]; [|done]. left. split; [done|]. by exists db', w'.
  - destruct Hw as [_ [(He & Hv & [= -> ->])|[? _]]]; [|done]. right. split; [done|]. by exists e.
  - done.
  - by destruct Hw.
Qed.

(** C15. A commit that returns an error, with no other thread at work, was
    either refused before anything changed, because a page does not verify, and
    database and files are what they were; or the database is poisoned, and a
    [begin_read], [begin_write] or [checkpoint] called after it is refused.
    (What threads that had passed the check before the failure may still do is
    the subject of [Races].) *)
Theorem failed_commit_halts A txn db w e db' w' :
  db_inv A db w → txn_rep A txn → commit_room db txn →
  commit txn (db, w) = (Done (Err e), (db', w')) →
  (¬ txn_valid txn ∧ db' = db ∧ w' = w) ∨
  ((∃ e, begin_read (db', w') = (Done (Err (Poisoned e)), (db', w'))) ∧
   (∃ e, begin_write (db', w') = (Done (Err (Poisoned e)), (db', w'))) ∧
   (∃ e, checkpoint (db', w') = (Done (Err (Poisoned e)), (db', w')))).
Proof.
  intros Hinv Htxn Hroom E.
  destruct (wp_Done _ _ _ _ _ _ (wp_commit A txn db w Hinv Htxn Hroom) E)
    as [_ [(_ & Hv & [= -> ->])|(_ & Hpo & _)]]; [by left|right].
  by apply poisoned_refuses.
Qed.

(** C9. Recovery after a crash of the machine can be interrupted by another
    one: however an open that runs after a reboot ends (it returns, it fails, or
    the machine stops at any point of it), the next open after a second reboot,
    if no system call fails in it, finds the same state. *)
Theorem open_restartable A w w1 w2 w3 (r : exec (Result Database)) :
  recovers (λ X, X = A) p wl w → reboot w w1 → db_open p options w1 = (r, w2) →
  reboot w2 w3 → io_ok w3 →
  ∃ db w4, db_open p options w3 = (Done (Ok db), w4) ∧ db_inv A db w4.
Proof.
  intros Hr Hre E Hre2 Hio.
  destruct (recovers_reboot p wl _ _ _ Hr Hre) as (X & b & bw & first & rs & -> & Hro & Hf & Hfw).
  pose proof (wp_db_open A p wl options _ _ _ _ w1 Hwl Hro Hf Hfw) as Hw. unfold wp in Hw. rewrite E in Hw.
  assert (recovers (λ X, X = A) p wl w2) as Hr2 
    by (destruct r as [[db|e]| |]; [apply Hw|apply Hw|done|apply Hw]).
  destruct (reboot_open _ p wl options _ _ Hwl Hpages Hr2 Hre2 Hio)
    as (X & db & w4 & -> & Eo & Hdb & _). by exists db, w4.
Qed.

(** C11. A checkpoint changes nothing a client can see.  When it succeeds the
    data file alone holds the committed state and the log is empty; when it
    fails the database is poisoned; and wherever it is cut short, the next
    open finds the same state. *)
Theorem checkpoint_preserves A db w (r : exec (Result unit)) db' w' :
  db_inv A db w → on_files p wl db → checkpoint (db, w) = (r, (db', w')) →
  r ≠ Panicked ∧ recovers (λ X, X = A) p wl w' ∧
  match r with
  | Done (Ok _) => db_inv A db' w' ∧ on_files p wl db' ∧
      ∃ f fw, w_files w' !! p = Some f ∧ w_files w' !! wl = Some fw ∧
        file_state (f_synced f) A ∧ length (f_synced fw) = WAL_HEADER_SIZE
  | Done (Err _) => ¬ io_ok w ∧ db_poisoned db' = true
  | _ => ¬ io_ok w
  end.
Proof.
  intros Hinv Hon E. pose proof Hinv as (Hpo & f & fw & first & rs & Hfs & Hdb).
  assert (checkpoint (db, w) = checkpoint_locked (db, w)) as Ec.
  { unfold checkpoint, bind_ok, bind, db_check_poisoned, gets. simpl. by rewrite Hpo. }
  pose proof (wp_checkpoint_locked A db w f fw first rs Hfs Hdb) as Hw. pose proof Hon as [E1 E2].
  unfold wp in Hw. rewrite <- Ec, E in Hw. unfold checkpoint_crash, halted in Hw. rewrite E1, E2 in Hw.
  destruct r as [[[]|e]| |]; [|by destruct Hw as (_ & ? & ? & ?)|done|by destruct Hw].
  destruct Hw as (Hp & _ & Epo & _ & f' & fw' & first' & [Hf' Hfw'] & Hdb').
  assert (on_files p wl db') as Hon' by by eapply same_paths_files. destruct Hon' as [E1' E2'].
  simpl in Hf', Hfw', Hdb'. rewrite E1' in Hf'. rewrite E2' in Hfw'.
  pose proof (dp_durable _ _ _ _ _ _ Hdb') as Hdu. split; [done|]. split; [by eapply durable_recovers|].
  split; [|split; [done|]].
  - split; [simpl in *; congruence|]. exists f', fw', first', []. split; [|done].
    split; [by rewrite E1'|by rewrite E2'].
  - exists f', fw'. split; [done|]. split; [done|]. split; [exact (du_state _ _ _ _ _ Hdu)|].
    destruct (du_log _ _ _ _ _ Hdu) as (Hcur & -> & _). rewrite Hcur. simpl.
    by rewrite app_nil_r, length_encode_header.
Qed.

(** Reads are coherent: a read transaction gets exactly the committed
    contents of the page, an error if the page does not exist, and otherwise
    fails only if the operating system does; however the buffer pool evicts
    pages meanwhile, the committed state stays what it was. *)
Theorem reads_committed A db w id :
  db_inv A db w → (0 ≤ id)%Z →
  match read_txn_read_page id (db, w) with
  | (Done (Ok q), (db', w')) => a_pages A !! id = Some q ∧ db_inv A db' w'
  | (Done (Err e), (db', w')) =>
      (¬ io_ok w ∨ (is_invalid_argument e = true ∧ a_pages A !! id = None)) ∧ db_inv A db' w'
  | (Panicked, _) => False
  | (Crashed, _) => ¬ io_ok w
  end.
Proof.
  intros Hinv Hid. pose proof (ps_read_txn_read_page (A := A) db w id Hinv Hid) as Hw. unfold wp in Hw.
  destruct (read_txn_read_page id (db, w)) as [[[q|e]| |] [db' w']].
  - by destruct Hw as (? & _ & _ & ?).
  - by destruct Hw as (? & _ & _ & ?).
  - done.
  - by destruct Hw.
Qed.

(** A write transaction works on a private copy: after [page_mut] it
    sees the changed page, every other page as before, and the committed
    state of the database is untouched. *)
Theorem page_mut_private A txn db w id change txn' db' w' :
  db_inv A db w → txn_rep A txn → (0 ≤ id)%Z → (∀ q, page_wf q → page_wf (change q)) →
  page_mut id change txn (db, w) = (Done (Ok txn'), (db', w')) →
  db_inv A db' w' ∧ txn_rep A txn' ∧
  ∃ q, txn_view A txn id = Some q ∧
    ∀ j, txn_view A txn' j = if decide (j = id) then Some (change q) else txn_view A txn j.
Proof.
  intros Hinv Htxn Hid Hch E.
  destruct (wp_Done _ _ _ _ _ _ (ps_page_mut (A := A) txn db w id change Hinv Htxn Hid Hch) E)
    as (? & _ & _ & ? & _ & ?). done.
Qed.

(** C12. Closing is optional: a process that exits between two operations
    loses nothing, and the next open, without any reboot and if no system call
    fails in it, returns a database in the same state on the same files. *)
Theorem reopen_same_state A db w :
  db_inv A db w → on_files p wl db → io_ok w →
  ∃ db' w', db_open p options w = (Done (Ok db'), w') ∧ db_inv A db' w' ∧ on_files p wl db'.
Proof.
  intros Hinv Hon Hio.
  destruct (db_inv_reopenable p wl _ _ _ Hinv Hon) as (f & bw & first & rs & Hro & Hf & Hfw).
  by eapply open_run.
Qed.

(** Runs from a newly created database. *)
Lemma created_simulates w db w' evs s :
  w_files w !! p = None → w_files w !! wl = None → io_ok w → create_if_missing options = true →
  db_open p options w = (Done (Ok db), w') → steps p options (Up db w' None) evs s →
  ∃ σ, spec_steps (SUp empty_state None) evs σ ∧ represents p wl s σ.
Proof.
  intros Hp Hw Hio Hc E Hst. eapply steps_simulate; [done..|]. by eapply created_represents.
Qed.

Lemma protected_kept evs σ :
  spec_steps (SUp empty_state None) evs σ → protected evs → σ ≠ SLost.
Proof. intros Hσ [H1 H2] ->. by destruct (spec_lost _ _ Hσ). Qed.

(** C2. The implementation refines the abstract machine: every run of one
    client that starts with a newly created database, with any operations
    within the limits of 64-bit offsets, I/O failures, crashes, reboots and
    reopenings, is a run of the machine with the same events, and ends in a
    state that represents the machine's.  The machine says nothing ([SLost])
    after two events only, which the code does not protect against: the machine
    stops after a process that replaces a killed one has failed to open the
    database ([EvStopReviving]), or a crash leaves bytes in the log that were
    never written together and match a checksum ([EvForged]). *)
Theorem system_refines w db w' evs s :
  w_files w !! p = None → w_files w !! wl = None → io_ok w → create_if_missing options = true →
  db_open p options w = (Done (Ok db), w') → steps p options (Up db w' None) evs s →
  ∃ σ, spec_steps (SUp empty_state None) evs σ ∧ represents p wl s σ ∧ (protected evs → σ ≠ SLost).
Proof.
  intros Hp Hw Hio Hc E Hst.
  destruct (created_simulates w db w' evs s) as (σ & Hσ & Hrep); try done.
  exists σ. split; [done|]. split; [done|]. by eapply protected_kept.
Qed.

(** C16. Nothing panics: in every state that a run of one client reaches from
    a newly created database, with any failures, crashes and reopenings but
    neither [EvStopReviving] nor [EvForged], no operation within the limits of
    64-bit offsets panics: no index out of range, no unwrap of nothing, and
    the pin count that [unpin] asserts in debug builds is never zero. *)
Theorem no_operation_panics w db w' evs db1 w1 t o :
  w_files w !! p = None → w_files w !! wl = None → io_ok w → create_if_missing options = true →
  db_open p options w = (Done (Ok db), w') → steps p options (Up db w' None) evs (Up db1 w1 t) →
  protected evs → within_limits o t db1 → (run o t (db1, w1)).1 ≠ Panicked.
Proof.
  intros Hp Hw Hio Hc E Hst Hpr Hl.
  destruct (created_simulates w db w' evs (Up db1 w1 t)) as (σ & Hσ & Hrep); try done.
  pose proof (run_simulates p wl o t db1 w1 σ Hrep (protected_kept _ _ Hσ Hpr) Hl) as Hr. unfold wp in Hr.
  by destruct (run o t (db1, w1)) as [[] ?].
Qed.

End Guarantees.

(** ** Witnesses *)

Module DbWitness.
#[local] Existing Instance PageWitness.cpu.
#[local] Existing Instance PoolWitness.order.

Definition db_path : path := [RootDir; Normal "data"; Normal "app.oxen"].
Definition log_path : path := [RootDir; Normal "data"; Normal "app.oxen-wal"].
Definition options : Options :=
  {| buffer_pool_pages := 4; create_if_missing := true; auto_checkpoint_bytes := None |}.

(** A database just created, under the plan [plan] for what follows. *)
Definition header_file : file := file_at_rest (data (encode {| page_count := 1 |})).
Definition log : file := file_at_rest (encode_header 0).
Definition start_world (plan : list io_fate) : World :=
  {| w_files := {[ db_path := header_file; log_path := log ]}; w_plan := plan |}.
Definition start_db : Database :=
  {| db_disk := {| dm_file := db_path; dm_page_count := 1 |};
     db_pool := {| shards := new_shards 4 |}; db_auto_checkpoint_bytes := None;
     db_wal := reopened log_path 0 []; next_txn := 1; db_poisoned := false;
     db_report := default_report |}.

Lemma path_ok : wal_path_for db_path = Ok log_path.
Proof. reflexivity. Qed.

Lemma options_ok : 0 < buffer_pool_pages options.
Proof. simpl. lia. Qed.

Lemma header_state : file_state (f_cur header_file) empty_state.
Proof.
  split; [|intros id q; simpl; by rewrite lookup_empty]. split.
  - apply has_header_page. pose proof (encode_wf {| page_count := 1 |}) as E.
    unfold page_wf in E. unfold header_file, file_at_rest, f_cur. lia.
  - apply page_of_single, encode_wf.
Qed.

Lemma start_open plan :
  open_post empty_state db_path log_path options (start_world plan) (Ok start_db) (start_world plan).
Proof.
  apply (assembled empty_state db_path log_path options default_report header_file log 0
    {| dm_file := db_path; dm_page_count := 1 |} (reopened log_path 0 [])); try done.
  - apply empty_state_wf.
  - apply header_state.
Qed.

Lemma start_inv plan : db_inv empty_state start_db (start_world plan).
Proof. apply start_open. Qed.

Lemma start_files : on_files db_path log_path start_db.
Proof. done. Qed.

(** A transaction that allocates page 1. *)
Definition txn0 : WriteTxn := {| dirty := []; txn_page_count := 1 |}.
Definition txn1 : WriteTxn := (allocate_page Heap txn0).2.

Lemma txn1_rep : txn_rep empty_state txn1.
Proof.
  apply (allocate_page_spec empty_state txn0 Heap empty_state_wf); [|simpl; lia].
  apply (txn_rep_empty empty_state empty_state_wf).
Qed.

Lemma page1_valid : is_ok (verify 1 (seal (page_new 1 Heap))) = true.
Proof. vm_compute. reflexivity. Qed.

Lemma txn1_valid : txn_valid txn1.
Proof. intros id q [= -> ->]%list_elem_of_singleton. apply page1_valid. Qed.

Lemma start_room : commit_room start_db txn1.
Proof. split; vm_compute; reflexivity. Qed.

(** The mildest and the harshest crash: everything or nothing unsynced is
    lost. *)
Definition forget (plan : list io_fate) (w : World) : World :=
  {| w_files := (λ f, file_at_rest (f_synced f)) <$> w_files w; w_plan := plan |}.

Lemma lost_content f : crash_content f (f_synced f).
Proof.
  unfold crash_content. generalize (f_synced f).
  induction (f_pending f) as [|o ops IH]; intros b; econstructor; [apply torn_lost|apply IH].
Qed.

Lemma reboot_forget plan w : reboot w (forget plan w).
Proof.
  intros q. simpl. rewrite lookup_fmap. destruct (w_files w !! q) as [f|]; simpl; [|done].
  exists (f_synced f). split; [apply lost_content|done].
Qed.

Lemma genuine_forget plan q w : genuine_log q w (forget plan w).
Proof.
  intros f b Hf. simpl. rewrite lookup_fmap, Hf. intros [= <-]. apply no_forgery_synced.
Qed.

(** A crash that loses the first sector of a write behind the log's header and
    keeps the others. *)
Definition holed (f : file) : bytes :=
  match f_pending f with
  | [WriteAt off src] =>
      if decide (off = length (f_synced f) ∧ off = WAL_HEADER_SIZE ∧ 1000 ≤ length src)
      then f_synced f ++ replicate 488 Byte.x00 ++ drop 488 src
      else f_synced f
  | _ => f_synced f
  end.

Definition tear (w : World) : World :=
  {| w_files := map_imap (λ q f, Some (file_at_rest
       (if decide (q = log_path) then holed f else f_synced f))) (w_files w); w_plan := [] |}.

Lemma holed_content f : crash_content f (holed f).
Proof.
  unfold holed. destruct (f_pending f) as [|[off src|] [|]] eqn:E; try apply lost_content.
  case_decide as Hd; [|apply lost_content]. destruct Hd as (Hoff & Ehd & Hlen).
  unfold crash_content. rewrite E. econstructor; [|constructor]. apply torn_mixed.
  - unfold within_sector. rewrite Ehd. intros Es%eq_sym. change (WAL_HEADER_SIZE / SECTOR) with 0 in Es.
    apply Nat.div_small_iff in Es; unfold SECTOR in *; lia.
  - rewrite Hoff, write_bytes_append. unfold slice. len.
  - intros i x. rewrite Hoff, write_bytes_append. intros Hx.
    apply lookup_app_Some in Hx as [Hx|[Hi Hx]]; [by left|right].
    apply lookup_app_Some in Hx as [Hx|[Hi2 Hx]].
    + right. apply lookup_replicate in Hx as [-> _]. split; [lia|done].
    + left. rewrite lookup_app_r by lia. rewrite length_replicate in Hi2, Hx.
      rewrite lookup_drop in Hx. rewrite <- Hx. f_equal. lia.
Qed.

Lemma reboot_tear w : reboot w (tear w).
Proof.
  intros q. simpl. rewrite map_lookup_imap. destruct (w_files w !! q) as [f|]; simpl; [|done].
  eexists. split; [|done]. case_decide; [apply holed_content|apply lost_content].
Qed.

(** Whether all records that verify in [b] are in [x] or in [y]. *)
Fixpoint genuineb (b x y : bytes) : bool :=
  match record_decode b with
  | Ok d => bool_decide (take (rec_len d) b = take (rec_len d) x) ||
            bool_decide (take (rec_len d) b = take (rec_len d) y)
  | Err _ => true
  end &&
  match b with [] => true | _ :: b => genuineb b (tail x) (tail y) end.

Lemma genuineb_sound b x y off d :
  genuineb b x y = true → record_decode (drop off b) = Ok d →
  slice off (off + rec_len d) b = slice off (off + rec_len d) x ∨
  slice off (off + rec_len d) b = slice off (off + rec_len d) y.
Proof.
  unfold slice. replace (off + rec_len d - off) with (rec_len d) by lia.
  revert off x y. induction b as [|c b IH]; intros off x y Hg E.
  { by rewrite drop_nil in E. }
  simpl in Hg. apply andb_true_iff in Hg as [Hd Hg]. destruct off as [|off]; simpl in E.
  - rewrite !drop_0. rewrite E in Hd. by apply orb_true_iff in Hd as [?%bool_decide_eq_true_1|?%bool_decide_eq_true_1]; auto.
  - assert (∀ z : bytes, drop off (tail z) = drop (S off) z) as Ht by (intros [|]; [simpl; by rewrite drop_nil|done]).
    rewrite <- !Ht. by apply IH.
Qed.

(** The commit of [txn1] without failures. *)
Lemma commit_txn1 db w :
  db_inv empty_state db w → on_files db_path log_path db → commit_room db txn1 → io_ok w →
  ∃ db' w', commit txn1 (db, w) = (Done (Ok tt), (db', w')) ∧
    db_inv (txn_state empty_state txn1) db' w' ∧ on_files db_path log_path db'.
Proof.
  intros Hinv Hon Hroom Hio. pose proof (wp_commit empty_state txn1 _ _ Hinv txn1_rep Hroom) as Hw.
  unfold wp in Hw. destruct (commit txn1 _) as [[[[]|e]| |] [db' w']].
  - destruct Hw as [Hp [_ [Hs|[? _]]]]; [|done]. exists db', w'.
    split; [done|]. split; [done|]. by apply (same_paths_files db_path log_path db).
  - destruct Hw as [_ [(_ & Hv & _)|[? _]]]; [|done]. destruct Hv. apply txn1_valid.
  - done.
  - by destruct Hw.
Qed.

Lemma commit_ok :
  ∃ db' w', commit txn1 (start_db, start_world []) = (Done (Ok tt), (db', w')) ∧
    db_inv (txn_state empty_state txn1) db' w' ∧ on_files db_path log_path db'.
Proof. apply commit_txn1; [apply start_inv|apply start_files|apply start_room|constructor]. Qed.

(** Creating the database in an empty directory. *)
Lemma create_ok :
  ∃ db w, db_open db_path options DiskWitness.empty_world = (Done (Ok db), w) ∧
    db_inv empty_state db w ∧ on_files db_path log_path db.
Proof.
  pose proof (wp_db_open_new db_path log_path options DiskWitness.empty_world path_ok
    (lookup_empty _) (lookup_empty _) (Forall_nil_2 _) eq_refl) as Hw. unfold wp in Hw.
  destruct (db_open db_path options _) as [[[db|e]| |] w].
  - destruct Hw as [(Hinv & ? & ?) _]. by exists db, w.
  - destruct Hw as [[[]|] _]; [constructor|done].
  - done.
  - done.
Qed.

Lemma created_room db w :
  db_open db_path options DiskWitness.empty_world = (Done (Ok db), w) → commit_room db txn1.
Proof.
  intros E. assert (match (db_open db_path options DiskWitness.empty_world).1 with
    | Done (Ok db) => durable_len (db_wal db) = 24%Z ∧ next_txn db = 1%Z
    | _ => True
    end) as Hr by (vm_compute; split; reflexivity).
  rewrite E in Hr. destruct Hr as [Hr1 Hr2]. unfold commit_room. rewrite Hr1, Hr2.
  split; vm_compute; reflexivity.
Qed.

(** Its first transaction, up to the commit. *)
Lemma first_txn db w :
  db_inv empty_state db w →
  steps db_path options (Up db w None) [EvBegin; EvAlloc 1 Heap] (Up db (set_plan [] w) (Some txn1)).
Proof.
  intros Hinv. eapply steps_cons.
  { eapply (st_op _ _ OpBegin []); [done|]. simpl. unfold bind.
    by rewrite (wp_begin_write empty_state). }
  eapply steps_cons; [|constructor]. by eapply (st_op _ _ (OpAlloc Heap) []).
Qed.

Definition protectedb (evs : list event) : bool :=
  forallb (λ ev, match ev with EvStopReviving | EvForged => false | _ => true end) evs.

Lemma protectedb_sound evs : protectedb evs = true → protected evs.
Proof. intros Hb%Is_true_true_2%forallb_True. split; intros Hin; by destruct (proj1 (Forall_forall _ _) Hb _ Hin). Qed.

(** The commit, a crash that loses whatever it can, and the next open. *)
Lemma first_commit db w :
  db_inv empty_state db w → on_files db_path log_path db → commit_room db txn1 →
  ∃ s, steps db_path options (Up db (set_plan [] w) (Some txn1)) [EvCommit; EvCrash; EvOpen] s.
Proof.
  intros Hinv Hon Hroom.
  destruct (commit_txn1 db (set_plan [] w)) as (db1 & w1 & E1 & Hinv1 & [P1 P2]); [done..|constructor|].
  apply db_inv_recovers in Hinv1. rewrite P1, P2 in Hinv1.
  destruct (reboot_open _ db_path log_path options w1 (forget [] w1) path_ok options_ok Hinv1
    (reboot_forget [] w1) (Forall_nil_2 _)) as (A & db2 & w2 & -> & E2 & _).
  exists (Up db2 w2 None). eapply steps_cons.
  { eapply (st_op _ _ OpCommit []); [done|]. simpl. unfold bind, set_plan in *. simpl. by rewrite E1. }
  eapply steps_cons; [apply st_stop|]. eapply steps_cons; [|constructor].
  eapply st_open; [apply reboot_forget|intros ? _; apply genuine_forget|exact E2].
Qed.
End DbWitness.

Section Witnesses.
#[local] Existing Instance PageWitness.cpu.
#[local] Existing Instance PoolWitness.order.
Import DbWitness.

(** The machine stops in the fsync of the log, and the log comes back with a
    hole in it. *)
Definition torn_log : option (file * bytes) :=
  (λ f, (f, holed f)) <$> w_files (commit txn1 (start_db, start_world [IoOk; IoCrash 0])).2.2 !! log_path.

Lemma torn_log_computes :
  match torn_log with
  | Some (f, b) =>
      (1024 <? length b) && genuineb (drop 24 b) (drop 24 (f_synced f)) (drop 24 (f_cur f)) &&
      negb (bool_decide (b = f_cur f))
  | None => false
  end = true.
Proof. vm_compute. reflexivity. Qed.

Lemma torn_log_genuine :
  let s := (commit txn1 (start_db, start_world [IoOk; IoCrash 0])).2 in genuine_log log_path s.2 (tear s.2).
Proof.
  pose proof torn_log_computes as Hc. unfold torn_log in Hc. cbv zeta.
  destruct (commit txn1 _) as [r s]. intros f b Hf. simpl in *. rewrite map_lookup_imap. rewrite Hf in *. simpl in *.
  intros [= <-] off d Hoff E.
  apply andb_true_iff in Hc as [[_ Hc]%andb_true_iff _].
  assert (24 + (off - 24) = off) as Eo by (unfold WAL_HEADER_SIZE in *; lia).
  unfold slice. replace (off + rec_len d - off) with (off - 24 + rec_len d - (off - 24)) by lia.
  rewrite <- Eo, <- !drop_drop, Eo. apply (genuineb_sound _ _ _ (off - 24) d Hc). by rewrite drop_drop, Eo.
Qed.

Lemma commit_crash_atomic_witness :
  let s := (commit txn1 (start_db, start_world [IoOk; IoCrash 0])).2 in
  ∃ db' w2, db_open db_path options (tear s.2) = (Done (Ok db'), w2) ∧
    (db_inv empty_state db' w2 ∨ db_inv (txn_state empty_state txn1) db' w2).
Proof.
  exact (proj2 (commit_crash_atomic db_path log_path options path_ok options_ok empty_state txn1
    start_db (start_world [IoOk; IoCrash 0]) _ _ _ (start_inv _) start_files txn1_rep start_room
    (surjective_pairing _) (reboot_tear _) torn_log_genuine (Forall_nil_2 _))).
Defined.

(** The process is killed in the fsync of the log, and so is the next one
    while it opens the log. *)
Lemma killed_twice_computes :
  succeeds (db_open db_path options
    (set_plan [IoCrash 0] (commit txn1 (start_db, start_world [IoOk; IoCrash 0])).2.2)).1 = false.
Proof. vm_compute. reflexivity. Qed.

Lemma killed_twice :
  ∃ r s w1, commit txn1 (start_db, start_world [IoOk; IoCrash 0]) = (r, s) ∧
    failed_open db_path options s.2 w1.
Proof.
  pose proof killed_twice_computes as Hno.
  destruct (commit txn1 (start_db, start_world [IoOk; IoCrash 0])) as [r s].
  eexists r, s, _. split; [done|]. exact (failed_open_run db_path options [IoCrash 0] s.2 Hno).
Qed.

Lemma killed_commit_reopens_witness :
  ∃ w1 db' w2, db_open db_path options (set_plan [] w1) = (Done (Ok db'), w2) ∧
    (db_inv (txn_state empty_state txn1) db' w2 ∨ db_inv empty_state db' w2).
Proof.
  destruct killed_twice as (r & s & w1 & E & Hf).
  destruct (killed_commit_reopens db_path log_path options path_ok options_ok empty_state txn1
    start_db (start_world [IoOk; IoCrash 0]) r s w1 (start_inv _) start_files txn1_rep start_room
    E (rtc_once _ _ Hf)) as (db' & w2 & E' & Hdb).
  exists w1, db', w2. split; [exact E'|]. destruct Hdb as [Hdb|[_ Hdb]]; [left|right]; exact Hdb.
Defined.

Lemma commit_durable_witness :
  ∃ s db' w2, commit txn1 (start_db, start_world []) = (Done (Ok tt), s) ∧
    db_open db_path options (forget [] s.2) = (Done (Ok db'), w2) ∧
    db_inv (txn_state empty_state txn1) db' w2.
Proof.
  destruct commit_ok as (db1 & w1 & E & _).
  destruct (commit_durable db_path log_path options path_ok options_ok empty_state txn1
    start_db (start_world []) (db1, w1) _ (start_inv _) start_files txn1_rep start_room E
    (reboot_forget [] _) (Forall_nil_2 _)) as (db' & w2 & Eo & Hdb).
  exact (ex_intro _ (db1, w1) (ex_intro _ db' (ex_intro _ w2 (conj E (conj Eo Hdb))))).
Defined.

Lemma commit_completes_witness :
  ∃ db' w', commit txn1 (start_db, start_world []) = (Done (Ok tt), (db', w')) ∧
    db_inv (txn_state empty_state txn1) db' w'.
Proof.
  destruct (commit_completes empty_state txn1 start_db (start_world []) (start_inv _) txn1_rep
    start_room (Forall_nil_2 _)) as [(_ & db' & w' & E & Hdb & _)|[Hv _]].
  - exists db', w'. exact (conj E Hdb).
  - destruct (Hv txn1_valid).
Defined.

(** The write to the log fails. *)
Lemma failing_commit :
  (commit txn1 (start_db, start_world [IoFail 5 0])).1 = Done (Err (Io (Os 5))).
Proof. vm_compute. reflexivity. Qed.

Lemma failed_commit_halts_witness :
  let s := (commit txn1 (start_db, start_world [IoFail 5 0])).2 in
  ∃ e, begin_write (s.1, s.2) = (Done (Err (Poisoned e)), (s.1, s.2)).
Proof.
  intros s. destruct (failed_commit_halts empty_state txn1 start_db (start_world [IoFail 5 0])
    (Io (Os 5)) s.1 s.2 (start_inv _) txn1_rep start_room) as [[Hv _]|(_ & Hw & _)].
  - rewrite <- surjective_pairing. unfold s. rewrite <- failing_commit. apply surjective_pairing.
  - destruct (Hv txn1_valid).
  - exact Hw.
Defined.

(** The first attempt to open stops at its second system call. *)
Lemma open_restartable_witness :
  let w1 := forget [IoOk; IoCrash 0] (start_world []) in
  let w2 := (db_open db_path options w1).2 in
  ∃ db w4, db_open db_path options (forget [] w2) = (Done (Ok db), w4) ∧ db_inv empty_state db w4.
Proof.
  exact (open_restartable db_path log_path options path_ok options_ok empty_state (start_world []) _ _ _ _
    (db_inv_recovers _ _ _ (start_inv [])) (reboot_forget [IoOk; IoCrash 0] _) (surjective_pairing _)
    (reboot_forget [] _) (Forall_nil_2 _)).
Defined.

Lemma checkpoint_preserves_witness :
  recovers (λ X, X = empty_state) db_path log_path
    (checkpoint (start_db, start_world [IoOk; IoOk; IoFail 5 0])).2.2.
Proof.
  exact (proj1 (proj2 (checkpoint_preserves db_path log_path empty_state start_db
    (start_world [IoOk; IoOk; IoFail 5 0]) _ _ _ (start_inv _) start_files
    (eq_trans (surjective_pairing _) (f_equal (pair _) (surjective_pairing _)))))).
Defined.

Lemma reads_committed_witness :
  ∃ db' w', match read_txn_read_page 1 (db', w') with
            | (Done (Ok q), _) => q = seal (page_new 1 Heap)
            | (Done (Err _), _) => ¬ io_ok w'
            | (Panicked, _) => False
            | (Crashed, _) => ¬ io_ok w'
            end.
Proof.
  destruct commit_ok as (db' & w' & _ & Hinv & _). exists db', w'.
  pose proof (reads_committed (txn_state empty_state txn1) db' w' 1 Hinv ltac:(lia)) as Hr.
  destruct (read_txn_read_page 1 (db', w')) as [[[q|e]| |] [? ?]]; [| |exact Hr|exact Hr].
  - destruct Hr as [Hq _]. rewrite txn_state_lookup in Hq. by injection Hq.
  - destruct Hr as [[Hr|[_ Hr]] _]; [exact Hr|]. by rewrite txn_state_lookup in Hr.
Defined.

Lemma page_mut_private_witness :
  ∃ txn', page_mut 1 (set_lsn 7) txn1 (start_db, start_world []) =
            (Done (Ok txn'), (start_db, start_world [])) ∧
    txn_view empty_state txn' 1 = Some (set_lsn 7 (page_new 1 Heap)).
Proof.
  eexists. split; [reflexivity|].
  destruct (page_mut_private empty_state txn1 start_db (start_world []) 1 (set_lsn 7) _ _ _
    (start_inv _) txn1_rep ltac:(lia) (set_lsn_wf 7) eq_refl) as (_ & _ & q & Hq & Hv).
  rewrite Hv. injection Hq as <-. reflexivity.
Defined.

Lemma reopen_same_state_witness :
  ∃ db' w', db_open db_path options (start_world []) = (Done (Ok db'), w') ∧
    db_inv empty_state db' w' ∧ on_files db_path log_path db'.
Proof.
  exact (reopen_same_state db_path log_path options path_ok options_ok empty_state start_db
    (start_world []) (start_inv _) start_files (Forall_nil_2 _)).
Defined.

Lemma system_refines_witness :
  let evs := [EvBegin; EvAlloc 1 Heap; EvCommit; EvCrash; EvOpen] in
  ∃ db w s σ, db_open db_path options DiskWitness.empty_world = (Done (Ok db), w) ∧
    steps db_path options (Up db w None) evs s ∧
    spec_steps (SUp empty_state None) evs σ ∧ represents db_path log_path s σ ∧ σ ≠ SLost.
Proof.
  intros evs. assert (protected evs) as Hpr by (by apply protectedb_sound). destruct create_ok as (db & w & E & Hinv & Hon).
  destruct (first_commit db w Hinv Hon (created_room db w E)) as [s Hs].
  pose proof (steps_app _ _ _ _ _ _ _ (first_txn db w Hinv) Hs) as Hst.
  destruct (system_refines db_path log_path options path_ok DiskWitness.empty_world db w evs s
    (lookup_empty _) (lookup_empty _) (Forall_nil_2 _) eq_refl E Hst) as (σ & Hσ & Hrep & Hup).
  exists db, w, s, σ. exact (conj E (conj Hst (conj Hσ (conj Hrep (Hup Hpr))))).
Defined.

(** A read while that transaction is open. *)
Lemma no_operation_panics_witness :
  ∃ db w, db_open db_path options DiskWitness.empty_world = (Done (Ok db), w) ∧
    (run (OpRead 1) (Some txn1) (db, set_plan [] w)).1 ≠ Panicked.
Proof.
  destruct create_ok as (db & w & E & Hinv & _). exists db, w. split; [exact E|].
  exact (no_operation_panics db_path log_path options path_ok DiskWitness.empty_world db w _ _ _ _
    (OpRead 1) (lookup_empty _) (lookup_empty _) (Forall_nil_2 _) eq_refl E (first_txn db w Hinv)
    (protectedb_sound [EvBegin; EvAlloc 1 Heap] eq_refl) ltac:(simpl; lia)).
Defined.

End Witnesses.
