(* ===== verification/Isolation.v ===== *)
(** * What concurrent clients may rely on

    Consequences of the simulation for the threads of one process: the traces
    they produce are serial, readers see snapshots, the locks exclude, calls
    terminate and do not deadlock. *)

From S2P Require Import Prelude Errors BTree Checksum Page FileHeader FileSys Disk WalRecord.
From S2P Require Import WalLog Recovery BufferPool PoolCache Database DbState Checkpoint.
From S2P Require Import Commit Reopen Restart Transactions System Threads Concurrent Serial Guarantees.

(** The process right after the database has been created. *)
Definition created_system (db : Database) (w : World) (n : nat) : csystem :=
  CRun {| sh_db := db; sh_world := w; sh_locks := unlocked |} (replicate n Idle).

(** A thread that had passed the poison check before a commit or checkpoint
    failed, and goes on after it: the failure is the last one since the
    database was opened. *)
Definition fails (failed : bool) (ev : cevent) : bool :=
  match ev with
  | CvThread _ TvFailure => true
  | CvOpen => false
  | _ => failed
  end.

Definition stale (ev : cevent) : bool :=
  match ev with CvThread _ (TvBeginRead | TvCheckpointStart) => true | _ => false end.

(** What the code does not protect against: such a thread, and the two events
    of the machine that [cstep] names. *)
Definition uncovered (failed : bool) (ev : cevent) : bool :=
  match ev with
  | CvStopReviving | CvForged => true
  | _ => failed && stale ev
  end.

(** Runs without any of them. *)
Fixpoint covered (failed : bool) (evs : list cevent) : bool :=
  match evs with
  | [] => true
  | ev :: evs => negb (uncovered failed ev) && covered (fails failed ev) evs
  end.

Lemma covered_app failed evs evs' :
  covered failed (evs ++ evs') = covered failed evs && covered (foldl fails failed evs) evs'.
Proof.
  revert failed. induction evs as [|ev evs IH]; intros failed; [done|]. simpl. by rewrite IH, andb_assoc.
Qed.

(** Who can go on without its client: every thread inside a call. *)
Definition client_waits (pc : thread) : bool :=
  match pc with Idle | ReadOpen | WriteOpen _ => true | _ => false end.

(** ** Traces of the abstract machine *)

Section Traces.
Context `{Cpu}.

(** The machine vouches for what happens, and knows of the failure. *)
Definition reports (r : option (tid * tevent)) : bool :=
  match r with
  | Some (_, ev) => match ev with TvCommitted | TvCommitFailed | TvCheckpointFailed => true | _ => false end
  | None => true
  end.

Definition vouches (failed : bool) (σ : cspec) : Prop :=
  match σ with
  | CLost => False
  | CHalted r _ _ _ => failed = true ∧ reports r = true
  | _ => True
  end.

Lemma vouches_step failed σ ev σ' :
  cspec_step σ ev σ' → vouches failed σ → negb (uncovered failed ev) = true → vouches (fails failed ev) σ'.
Proof.
  intros Hst Hs Hev. destruct Hst; try destruct σ; simpl in *; try done; destruct Hs as [-> Hr]; try done.
  by destruct ev.
Qed.

Lemma vouches_steps failed σ evs σ' :
  cspec_steps σ evs σ' → vouches failed σ → covered failed evs = true →
  vouches (foldl fails failed evs) σ'.
Proof.
  intros Hst. revert failed. induction Hst as [σ|σ ev σ1 evs σ2 Hst _ IH]; intros failed Hs Hno; [done|].
  apply andb_true_iff in Hno as [Hev Hno]. apply IH; [by eapply vouches_step|done].
Qed.

Lemma cspec_steps_app σ evs evs' σ' :
  cspec_steps σ (evs ++ evs') σ' → ∃ σ1, cspec_steps σ evs σ1 ∧ cspec_steps σ1 evs' σ'.
Proof.
  revert σ. induction evs as [|ev evs IH]; intros σ; simpl.
  - intros Hst. exists σ. split; [constructor|done].
  - inversion 1 as [|? ? σ1 ? ? Hst Hrest]; subst. destruct (IH _ Hrest) as (σ2 & ? & ?).
    exists σ2. split; [by econstructor|done].
Qed.

(** While a reader is open the state it sees stands still. *)
Lemma reader_pins_state failed σ ev σ' A t :
  cspec_step σ ev σ' → vouches (fails failed ev) σ' → view σ = Some A → t ∈ opened σ →
  ev ≠ CvCrash → ev ≠ CvThread t TvEndRead → view σ' = Some A ∧ t ∈ opened σ'.
Proof.
  intros Hst Hs Hv Ht Hcr Hend. destruct Hst; try done.
  - destruct σ; try done; (split; [done|]); by constructor.
  - destruct σ; try done; (split; [done|]); apply list_elem_of_filter; (split; [congruence|done]).
  - by apply not_elem_of_nil in Ht.
Qed.

(** The reads of a transaction that is still open. *)
Lemma snapshot_trace failed σ evs σ' A t :
  cspec_steps σ evs σ' → vouches failed σ → covered failed evs = true →
  view σ = Some A → t ∈ opened σ → CvCrash ∉ evs → CvThread t TvEndRead ∉ evs →
  ∀ id p, CvThread t (TvRead id p) ∈ evs → a_pages A !! id = Some p.
Proof.
  intros Hst. revert failed. induction Hst as [σ|σ ev σ1 evs σ2 Hst Hrest IH];
    intros failed Hs Hno Hv Ht Hcr Hend id p Hin; [by apply not_elem_of_nil in Hin|].
  apply not_elem_of_cons in Hcr as [Hcr Hcrs]. apply not_elem_of_cons in Hend as [Hend Hends].
  apply andb_true_iff in Hno as [Hev Hno]. pose proof (vouches_step _ _ _ _ Hst Hs Hev) as Hs1.
  destruct (reader_pins_state _ _ _ _ _ _ Hst Hs1 Hv Ht (not_eq_sym Hcr) (not_eq_sym Hend)) as [Hv1 Ht1].
  apply elem_of_cons in Hin as [<-|Hin]; [|by eapply IH].
  inversion Hst; subst; [congruence|by destruct Hs|done].
Qed.

(** A transaction that begins is given the committed state. *)
Lemma begin_read_view failed failed' σ t σ' :
  cspec_step σ (CvThread t TvBeginRead) σ' → vouches failed σ → vouches failed' σ' →
  ∃ A, view σ = Some A ∧ view σ' = Some A ∧ t ∈ opened σ'.
Proof.
  intros Hb Hs Hs'. inversion Hb; subst; try done; [|by destruct Hs]. exists A.
  destruct σ; try done; (split_and!; [done|done|]); constructor.
Qed.

(** The state its reads come from. *)
Lemma open_reads σ0 evs t evs' σ' :
  cspec_steps σ0 (evs ++ CvThread t TvBeginRead :: evs') σ' → vouches false σ0 →
  covered false (evs ++ CvThread t TvBeginRead :: evs') = true →
  CvCrash ∉ evs' → CvThread t TvEndRead ∉ evs' →
  ∃ σ A, cspec_steps σ0 evs σ ∧ vouches (foldl fails false evs) σ ∧ view σ = Some A ∧
    ∀ id q, CvThread t (TvRead id q) ∈ evs' → a_pages A !! id = Some q.
Proof.
  intros (σ & H1 & H2)%cspec_steps_app Hs0 Hno Hcr Hend. inversion H2 as [|? ? σ1 ? ? Hb Hrest]; subst.
  rewrite covered_app in Hno. apply andb_true_iff in Hno as [Hno1 Hno2].
  apply andb_true_iff in Hno2 as [Hev Hno2]. pose proof (vouches_steps _ _ _ _ H1 Hs0 Hno1) as Hs.
  pose proof (vouches_step _ _ _ _ Hb Hs Hev) as Hs1.
  destruct (begin_read_view _ _ _ _ _ Hb Hs Hs1) as (A & Hv & Hv1 & Ht1). exists σ, A.
  split_and!; try done. by eapply snapshot_trace.
Qed.

End Traces.

(** ** What steps do to locks and call stacks *)

Lemma returns_on_db {A} (m : M (Database * World) A) Q s :
  (∀ a db w, Q a {| sh_db := db; sh_world := w; sh_locks := sh_locks s |}) → returns (on_db m) Q s.
Proof.
  intros HQ a s'. unfold on_db, zoom. destruct (m _) as [r [db w]]. intros [= _ <-]. apply HQ.
Qed.

(** [locks_step] runs a step symbolically, leaving the locks visible. *)
Ltac locks_step :=
  lazymatch goal with
  | |- returns (bind _ _) _ _ => apply returns_bind
  | |- returns (ret _) _ _ => apply returns_ret
  | |- returns blocked _ _ => apply returns_ret
  | |- returns (goes _ _) _ _ => apply returns_ret
  | |- returns (gets _) _ _ => apply returns_gets
  | |- returns all_shards _ _ => apply returns_gets
  | |- returns (set_locks _) _ _ => apply returns_modify
  | |- returns (unlock_publish_read _) _ _ => apply returns_modify
  | |- returns unlock_publish_write _ _ => apply returns_modify
  | |- returns (on_db _) _ _ => apply returns_on_db; intros
  | |- returns (match ?x with _ => _ end) _ _ => destruct x eqn:?
  | |- returns (let '(_, _) := ?x in _) _ _ => destruct x eqn:?
  | |- returns (unlock_wal _) _ _ => unfold unlock_wal
  | |- returns (checked _ _) _ _ => unfold checked
  | |- returns (lock_wal _ _) _ _ => unfold lock_wal
  | |- returns (lock_publish_read _ _) _ _ => unfold lock_publish_read
  | |- returns (lock_publish_write _ _) _ _ => unfold lock_publish_write
  | |- returns (read_fetch _) _ _ => unfold read_fetch
  | |- returns (txn_read _ _) _ _ => unfold txn_read
  | |- returns (txn_put _ _ _) _ _ => unfold txn_put
  | |- returns (commit_seal _) _ _ => unfold commit_seal
  | |- returns (commit_log _ _) _ _ => unfold commit_log
  | |- returns (publish_count _ _) _ _ => unfold publish_count
  | |- returns (publish_image _ _) _ _ => unfold publish_image
  | |- returns after_publish _ _ => unfold after_publish
  | |- returns (checkpoint_io _ _ _) _ _ => unfold checkpoint_io
  | |- returns (list_shard _ _ _) _ _ => unfold list_shard
  end.

Section Shape.
Context `{Cpu} `{HashOrder}.

(** Every step keeps the locks in order. *)
Lemma tstep_locks t pc a s ths :
  locks_ok (sh_locks s) ths → ths !! t = Some pc →
  returns (tstep t pc a) (λ r s',
    match r with
    | None => True
    | Some (_, pc') => locks_ok (sh_locks s') (<[t := pc']> ths)
    end) s.
Proof.
  intros Hok Hpc.
  destruct pc as [| | |h|h| | |txn|txn pages|count images|[|r images]| | |own [|i todo]|own todo i [|id ids]|own|own|own|ev];
    destruct a; cbn [tstep]; repeat locks_step; try done; simpl;
    try (by eapply locks_same; eauto); try (by eapply lock_wal_ok; eauto);
    try (by eapply unlock_wal_ok; eauto); try (by eapply lock_write_ok; eauto).
  - by eapply lock_read_ok.
  - by eapply unlock_read_ok.
  - replace (set_publish_writer None _) with (sh_locks s) by (destruct (sh_locks s); simpl in *; by subst).
    by eapply locks_same.
  - by eapply unlock_write_ok.
  - by eapply unlock_write_ok.
Qed.

(** A call reports an error for a page that does not verify, or after a step
    that failed. *)
Lemma tstep_reports t pc a s :
  returns (tstep t pc a) (λ r _,
    match r with
    | None => True
    | Some (ev, pc') =>
        (ev = TvCommitFailed → pc = Failing ev ∨ ∃ txn, pc = WriteOpen txn ∧ a = ACommit ∧ ¬ txn_valid txn) ∧
        (ev = TvCheckpointFailed → pc = Failing ev) ∧ (∀ ev', pc' = Failing ev' → ev = TvFailure)
    end) s.
Proof.
  destruct pc as [| | |h|h| | |txn|txn pages|count images|[|r images]| | |own [|i todo]|own todo i [|id ids]|own|own|own|ev];
    destruct a; cbn [tstep]; repeat locks_step; try done; simpl; try (by destruct own);
    try (by split_and!; [by left|done|done]).
  split_and!; [|done|done]. intros _. right. exists txn. split; [done|]. split; [done|]. intros Hv.
  pose proof (seal_dirty_spec (dirty txn)) as Hs. simplify_eq/=.
  match goal with E : seal_dirty _ = Err _ |- _ => rewrite E in Hs end.
  destruct Hs as (_ & id & q & Hin & Eq). by rewrite (Hv _ _ Hin) in Eq.
Qed.

Variables (p : path) (options : Options) (n : nat).

(** So in any run, also one with failures, they are. *)
Lemma csteps_locks s evs s' :
  csteps p options n s evs s' →
  (∀ sh ths, s = CRun sh ths → locks_ok (sh_locks sh) ths) →
  ∀ sh ths, s' = CRun sh ths → locks_ok (sh_locks sh) ths.
Proof.
  induction 1 as [s|s ev s1 evs s2 Hst _ IH]; intros Hs; [done|]. apply IH. intros sh ths ->.
  inversion Hst as [t pc a plan sh0 ths0 ev0 pc' sh1 Hpc Hok E| | |w w1 db w' Hre Hg E| | |? ? ? ? ? ? E| |]; subst.
  - exact (tstep_locks t pc a (plan_shared plan sh0) ths0 (Hs _ _ eq_refl) Hpc _ _ E).
  - apply idle_locks.
  - apply idle_locks.
Qed.

(** *** Termination *)

(** How far a call has to go: a stage, then two counters. *)
Definition call_rank (pc : thread) : nat * (nat * nat) :=
  match pc with
  | Idle | ReadOpen | WriteOpen _ => (0, (0, 0))
  | ReadWaiting | ReadSeen _ | WriteLocked | Failing _ => (1, (0, 0))
  | ReadPinned _ | WriteWaiting | ResettingLog _ => (2, (0, 0))
  | SyncingHeader _ => (3, (0, 0))
  | WritingHeader _ => (4, (0, 0))
  | Flushing _ todo => (5, (2 * length todo, 0))
  | FlushingShard _ todo _ ids => (5, (2 * length todo + 1, length ids))
  | Published | CheckpointWaiting => (6, (0, 0))
  | Publishing images => (7, (length images, 0))
  | PublishWaiting _ images => (8, (0, 0))
  | Logging _ _ => (9, (0, 0))
  end.

Definition rank_lt (x y : nat * (nat * nat)) : Prop :=
  x.1 < y.1 ∨ x.1 = y.1 ∧ (x.2.1 < y.2.1 ∨ x.2.1 = y.2.1 ∧ x.2.2 < y.2.2).

Lemma rank_lt_wf : well_founded rank_lt.
Proof.
  intros [a [b c]]. revert b c. induction (lt_wf a) as [a _ IHa]. intros b.
  induction (lt_wf b) as [b _ IHb]. intros c. induction (lt_wf c) as [c _ IHc].
  constructor. intros [a' [b' c']] [Ha|[Ha [Hb|[Hb Hc]]]]; simpl in *; subst; auto.
Qed.

(** Every step of a call brings it closer to its end. *)
Lemma tstep_rank t pc s :
  client_waits pc = false →
  returns (tstep t pc AGo) (λ r _,
    match r with None => True | Some (_, pc') => rank_lt (call_rank pc') (call_rank pc) end) s.
Proof.
  intros Hpc.
  destruct pc as [| | |h|h| | |txn|txn pages|count images|[|r images]| | |own [|i todo]|own todo i [|id ids]|own|own|own|ev];
    try done; cbn [tstep]; repeat locks_step; try done; unfold rank_lt; simpl; try (destruct own; simpl); lia.
Qed.

(** *** Progress *)

(** A thread that can go on. *)
Definition enabled (s : Shared) (t : tid) (pc : thread) : Prop :=
  ∀ plan, (tstep t pc AGo (plan_shared plan s)).1 ≠ Done None.

Lemma enabled_returns s t pc :
  (∀ plan, returns (tstep t pc AGo) (λ r _, r ≠ None) (plan_shared plan s)) → enabled s t pc.
Proof.
  intros Hr plan E. destruct (tstep t pc AGo (plan_shared plan s)) as [r s'] eqn:Et. simpl in E.
  subst r. by apply (Hr plan _ _ Et).
Qed.

(** What a call may have to wait for. *)
Definition waits_for (pc : thread) (l : Locks) : Prop :=
  match pc with
  | ReadWaiting => publish_writer l ≠ None
  | WriteWaiting | CheckpointWaiting => wal_lock l ≠ None
  | PublishWaiting _ _ => publish_writer l ≠ None ∨ publish_readers l ≠ []
  | _ => False
  end.

#[global] Instance waits_for_dec pc l : Decision (waits_for pc l).
Proof. destruct pc; apply _. Defined.

Lemma enabled_unless s t pc :
  client_waits pc = false → ¬ waits_for pc (sh_locks s) → enabled s t pc.
Proof.
  intros Hpc Hw. apply enabled_returns. intros plan.
  destruct pc as [| | |h|h| | |txn|txn pages|count images|[|r images]| | |own [|i todo]|own todo i [|id ids]|own|own|own|ev];
    try done; cbn [tstep]; repeat locks_step; try done; simpl in *; destruct Hw; try congruence;
    try (by left; congruence); by right; congruence.
Qed.

(** The publish lock is held by threads that can go on, or by readers. *)
Lemma publish_progress s ths :
  locks_ok (sh_locks s) ths →
  publish_writer (sh_locks s) ≠ None ∨ publish_readers (sh_locks s) ≠ [] →
  ∃ t pc, ths !! t = Some pc ∧ (client_waits pc = false ∧ enabled s t pc ∨ pc = ReadOpen).
Proof.
  intros Hl [Hw|Hr].
  - destruct (publish_writer (sh_locks s)) as [u|] eqn:E; [|done].
    apply (lk_writer _ _ Hl) in E as (pc & Hpc & Hh). destruct pc; try done.
    eexists _, _. split; [done|]. left. split; [done|]. by apply enabled_unless; [|intros []].
  - destruct (publish_readers (sh_locks s)) as [|u us] eqn:E; [done|].
    assert (u ∈ publish_readers (sh_locks s)) as Hu by (rewrite E; constructor).
    apply (lk_readers _ _ Hl) in Hu as (pc & Hpc & Hh). exists u, pc. split; [done|].
    destruct pc; try done; [by right|left..]; (split; [done|]); by apply enabled_unless; [|intros []].
Qed.

(** The WAL lock is held by a thread that can go on, waits for the publish
    lock, or has an open transaction. *)
Lemma wal_progress s ths :
  locks_ok (sh_locks s) ths → wal_lock (sh_locks s) ≠ None →
  ∃ t pc, ths !! t = Some pc ∧
    (client_waits pc = false ∧ enabled s t pc ∨ pc = ReadOpen ∨ ∃ txn, pc = WriteOpen txn).
Proof.
  intros Hl Hw. destruct (wal_lock (sh_locks s)) as [u|] eqn:E; [|done].
  apply (lk_wal _ _ Hl) in E as (pc & Hpc & Hh).
  destruct (client_waits pc) eqn:Ec; [exists u, pc; split; [done|]; destruct pc; try done; eauto|].
  destruct (decide (waits_for pc (sh_locks s))) as [Hwait|Hn].
  - destruct (publish_progress s ths Hl) as (t & q & Ht & Hq); [by destruct pc|].
    exists t, q. split; [done|]. tauto.
  - exists u, pc. split; [done|]. left. split; [done|]. by apply enabled_unless.
Qed.

End Shape.

(** ** Guarantees *)

Section Clients.
Context `{Cpu} `{HashOrder}.
Variables (p wl : path) (options : Options) (n : nat) (w w' : World) (db : Database).
Hypothesis Hwl : wal_path_for p = Ok wl.
Hypothesis Hp : w_files w !! p = None.
Hypothesis Hw : w_files w !! wl = None.
Hypothesis Hio : io_ok w.
Hypothesis Hcreate : create_if_missing options = true.
Hypothesis Hopen : db_open p options w = (Done (Ok db), w').
Hypothesis Hn : (Z.of_nat n + 1 < 2 ^ 32)%Z.

Let start : csystem := created_system db w' n.

Lemma start_crep : crep p wl start (CUp empty_state Quiet []).
Proof.
  pose proof (created_represents p wl options Hwl w db w' Hp Hw Hio Hcreate Hopen) as Hr.
  inversion Hr; subst. by apply fresh_crun.
Qed.

Lemma start_runs evs s' :
  csteps p options n start evs s' →
  ∃ σ', cspec_steps (CUp empty_state Quiet []) evs σ' ∧ crep p wl s' σ'.
Proof.
  intros Hst. eapply csteps_simulate; [by eapply wal_path_ne|done|done|done|apply start_crep].
Qed.

(** C3. The threads of a process, whatever their interleaving, I/O errors and
    crashes, do what the abstract machine does: write transactions take effect
    one after the other, each at one instant and only when no reader is open;
    readers see committed states; after a crash the database is in the state
    of the last commit, or of the one whose records were being written, and of
    the latter for certain once they are.  Actions stay within the limits of
    64-bit offsets.  The machine says nothing any more ([CLost]) only after an
    event the code does not protect against ([covered]): a thread that passed
    the poison check before a failure goes on after it, the machine stops after
    a process that replaces a killed one has failed to open the database, or a
    crash leaves bytes in the log that were never written together and match a
    checksum. *)
Theorem threads_serializable evs s' :
  csteps p options n start evs s' →
  ∃ σ', cspec_steps (CUp empty_state Quiet []) evs σ' ∧ crep p wl s' σ' ∧
    (covered false evs = true → σ' ≠ CLost).
Proof.
  intros Hst. destruct (start_runs _ _ Hst) as (σ' & Hσ & Hr). exists σ'. split; [done|]. split; [done|].
  intros Hc ->. by apply (vouches_steps _ _ _ _ Hσ I Hc).
Qed.

(** C4. Snapshot isolation: in a run without the events the code does not
    protect against ([covered]), everything a read transaction reads while it
    is open, whatever other threads commit or checkpoint in the meantime and
    whether they fail or not, comes from the one state that was committed when
    it began. *)
Theorem snapshot_reads evs t evs' s' :
  csteps p options n start (evs ++ CvThread t TvBeginRead :: evs') s' →
  covered false (evs ++ CvThread t TvBeginRead :: evs') = true →
  CvCrash ∉ evs' → CvThread t TvEndRead ∉ evs' →
  ∃ σ A, cspec_steps (CUp empty_state Quiet []) evs σ ∧ view σ = Some A ∧
    ∀ id q, CvThread t (TvRead id q) ∈ evs' → a_pages A !! id = Some q.
Proof.
  intros Hst Hno Hcr Hend. destruct (start_runs _ _ Hst) as (σ' & Hσ & _).
  destruct (open_reads _ _ _ _ _ Hσ I Hno Hcr Hend) as (σ & A & ? & _ & ? & ?). by exists σ, A.
Qed.

(** Mutual exclusion, in every reachable state, failed or not: at most one
    thread is inside a write transaction or a checkpoint, and no read
    transaction is open while a commit is being published. *)
Theorem locks_exclude evs s ths :
  csteps p options n start evs (CRun s ths) →
  (∀ t u pc qc, ths !! t = Some pc → ths !! u = Some qc →
     holds_wal pc = true → holds_wal qc = true → t = u) ∧
  (∀ t u pc qc, ths !! t = Some pc → ths !! u = Some qc →
     holds_publish pc = true → holds_read qc = false).
Proof.
  intros Hst. assert (locks_ok (sh_locks s) ths) as Hl.
  { eapply (csteps_locks p options n); [done| |done]. intros sh ths' [= <- <-]. apply idle_locks. }
  split.
  - intros t u pc qc Ht Hu H1 H2. pose proof (wal_owner _ _ _ _ Hl Ht H1).
    pose proof (wal_owner _ _ _ _ Hl Hu H2). congruence.
  - intros t u pc qc Ht Hu H1. destruct (holds_read qc) eqn:E; [|done].
    assert (publish_writer (sh_locks s) = Some t) as Ew by (apply (lk_writer _ _ Hl); eauto).
    assert (u ∈ publish_readers (sh_locks s)) as Hin by (apply (lk_readers _ _ Hl); eauto).
    rewrite (lk_excl _ _ Hl) in Hin by congruence. by apply not_elem_of_nil in Hin.
Qed.

(** C17. No deadlock: in every reachable state in which some call is in
    progress, either one of them can go on, or the calls wait for a client to
    finish a transaction it has open. *)
Theorem no_deadlock evs s ths t pc :
  csteps p options n start evs (CRun s ths) → ths !! t = Some pc → client_waits pc = false →
  ∃ u qc, ths !! u = Some qc ∧
    (client_waits qc = false ∧ enabled s u qc ∨ qc = ReadOpen ∨ ∃ txn, qc = WriteOpen txn).
Proof.
  intros Hst Ht Hpc. assert (locks_ok (sh_locks s) ths) as Hl.
  { eapply (csteps_locks p options n); [done| |done]. intros sh ths' [= <- <-]. apply idle_locks. }
  destruct (decide (waits_for pc (sh_locks s))) as [Hwait|Hno].
  - destruct pc; try done; try (by apply wal_progress);
      (destruct (publish_progress s ths Hl) as (u & q & Hu & Hq); [simpl in Hwait; tauto|]);
      exists u, q; (split; [done|]); tauto.
  - exists t, pc. split; [done|]. left. split; [done|]. by apply enabled_unless.
Qed.

(** C21. In a run without the events the code does not protect against
    ([covered]), no step of a thread within the limits of 64-bit offsets
    panics.  A commit reports an error only if one of its pages does not verify
    once sealed, or after a step of it has failed; a checkpoint only after a
    step of it has failed; and a step fails only if the operating system
    reported an error in it: not for want of buffer frames, however many pages
    readers keep pinned. *)
Theorem threads_fail_only_by_io evs s ths t pc a plan :
  csteps p options n start evs (CRun s ths) → covered false evs = true →
  ths !! t = Some pc → action_ok a pc (sh_db s) →
  match tstep t pc a (plan_shared plan s) with
  | (Panicked, _) => False
  | (Done (Some (ev, pc')), _) =>
      (ev = TvCommitFailed → pc = Failing ev ∨ ∃ txn, pc = WriteOpen txn ∧ a = ACommit ∧ ¬ txn_valid txn) ∧
      (ev = TvCheckpointFailed → pc = Failing ev) ∧
      (∀ ev', pc' = Failing ev' → ev = TvFailure) ∧
      (ev = TvFailure → ¬ Forall (λ x, x = IoOk) plan)
  | _ => True
  end.
Proof.
  intros Hst Hno Ht Ha. destruct (start_runs _ _ Hst) as (σ & Hσ & Hrep).
  pose proof (vouches_steps _ _ _ _ Hσ I Hno) as Hs.
  destruct (tstep_safe p wl ltac:(by eapply wal_path_ne) σ s ths t pc a plan) as [Hnp Hf]; try done; [by intros ->|].
  pose proof (tstep_reports t pc a (plan_shared plan s)) as Hr. unfold returns in Hr.
  destruct (tstep t pc a (plan_shared plan s)) as [[[[ev pc']|]| |] s1]; try done. simpl in *.
  destruct (Hr _ _ eq_refl) as (? & ? & ?). split_and!; try done. intros ->. by eapply Hf.
Qed.

End Clients.

Section Termination.
Context `{Cpu} `{HashOrder}.

(** C22. Calls terminate: there is no infinite sequence of steps inside one
    call of the library, whatever happens between them. *)
Theorem calls_terminate :
  well_founded (λ pc' pc, client_waits pc = false ∧
    ∃ t s ev s', tstep t pc AGo s = (Done (Some (ev, pc')), s')).
Proof.
  apply (wf_projected rank_lt call_rank); [|apply rank_lt_wf].
  intros pc' pc (Hpc & t & s & ev & s' & E). exact (tstep_rank t pc s Hpc _ _ E).
Qed.

End Termination.

(** ** A process with two threads *)

Module ThreadWitness.
#[local] Existing Instance PageWitness.cpu.
#[local] Existing Instance PoolWitness.order.
Import DbWitness.

(** A database whose pool has a single frame, shared by two threads. *)
Definition tiny : Options :=
  {| buffer_pool_pages := 1; create_if_missing := true; auto_checkpoint_bytes := None |}.

(** The client's change to a page. *)
Definition mark (q : Page) : Page := {| data := <[100 := Byte.x07]> (data q) |}.

Lemma mark_wf q : page_wf q → page_wf (mark q).
Proof. unfold page_wf. simpl. by rewrite length_insert. Qed.

Definition marked (q : Page) : bool := bool_decide (byte_at 100 q = Byte.x07).

Definition go (t : tid) : job := (t, AGo, []).

(** Thread 0 commits two empty pages, ... *)
Definition first_pages : list job :=
  [(0, ABeginWrite, []); go 0; go 0; (0, AAlloc Heap, []); (0, AAlloc Heap, []);
   (0, ACommit, [])] ++ replicate 7 (go 0).

(** ... checkpoints, ... *)
Definition first_checkpoint : list job := (0, ACheckpoint, []) :: replicate 8 (go 0).

(** ... and marks both in one transaction. *)
Definition mark_both : list job :=
  [(0, ABeginWrite, []); go 0; go 0; (0, APut 1 mark, []); (0, APut 2 mark, [])].

Lemma changes_marks jobs :
  Forall (λ j : job, match j.1.2 with APut _ change => change = mark | _ => True end) jobs →
  changes_ok jobs.
Proof.
  intros Hj t id change plan Hin. rewrite Forall_forall in Hj. specialize (Hj _ Hin). simpl in Hj.
  subst change. apply mark_wf.
Qed.

(** Outcomes of evaluated runs. *)
Definition check {A} (f : A → bool) (x : option A) : bool :=
  match x with Some a => f a | None => false end.

Lemma check_true {A} (f : A → bool) x : check f x = true → ∃ a, x = Some a ∧ f a = true.
Proof. destruct x; simpl; eauto. done. Qed.

Definition opened_ok (x : exec (Result Database) * World) : option (Database * World) :=
  match x with (Done (Ok db), w) => Some (db, w) | _ => None end.

Lemma opened_ok_Some x db w : opened_ok x = Some (db, w) → x = (Done (Ok db), w).
Proof. destruct x as [[[]| |] ?]; simpl; congruence. Qed.

Definition run_jobs (jobs : list job) : option (list cevent * Shared * list thread) :=
  '(db, w) ← opened_ok (db_open db_path tiny DiskWitness.empty_world);
  schedule jobs {| sh_db := db; sh_world := w; sh_locks := unlocked |} (replicate 2 Idle).

(** What [run_jobs] computes is a run of the system. *)
Lemma run_jobs_sound jobs evs s ths :
  changes_ok jobs → run_jobs jobs = Some (evs, s, ths) →
  ∃ db w, db_open db_path tiny DiskWitness.empty_world = (Done (Ok db), w) ∧
    csteps db_path tiny 2 (created_system db w 2) evs (CRun s ths).
Proof.
  intros Hch ([db w] & Hb & E)%bind_Some. apply opened_ok_Some in Hb.
  exists db, w. split; [exact Hb|]. exact (schedule_sound _ _ _ _ _ _ _ _ _ Hch E).
Qed.

(** Thread 1 opens a read transaction; thread 0 marks the pages and waits for
    the reader before it publishes; the reader reads. *)
Definition reader_reads : list job :=
  first_pages ++ [(1, ABeginRead, []); go 1] ++ mark_both ++
  [(0, ACommit, []); go 0; (1, AFetch 1, []); go 1; go 1; (1, AFetch 2, [])].

(** The events before and after thread [t] opens its first read transaction. *)
Fixpoint split_begin (t : tid) (evs : list cevent) : option (list cevent * list cevent) :=
  match evs with
  | [] => None
  | ev :: evs =>
      match ev with
      | CvThread u TvBeginRead => if decide (u = t) then Some ([], evs) else None
      | _ => '(l, r) ← split_begin t evs; Some (ev :: l, r)
      end
  end.

Lemma split_begin_sound t evs l r :
  split_begin t evs = Some (l, r) → evs = l ++ CvThread t TvBeginRead :: r.
Proof.
  revert l. induction evs as [|ev evs IH]; intros l; [done|]. simpl. intros E.
  assert (ev = CvThread t TvBeginRead ∧ l = [] ∧ r = evs ∨
          ∃ l', split_begin t evs = Some (l', r) ∧ l = ev :: l') as [(-> & -> & ->)|(l' & E' & ->)].
  { destruct ev as [u []| | | | |]; try (case_decide; naive_solver);
      right; apply bind_Some in E as ([l' r'] & E' & [= <- <-]); eauto. }
  - done.
  - by rewrite (IH _ E').
Qed.

(** No crash, and [t] does not end. *)
Definition calm (t : tid) (ev : cevent) : bool :=
  match ev with
  | CvThread u TvEndRead => bool_decide (u ≠ t)
  | CvCrash => false
  | _ => true
  end.

Lemma calm_notin t evs ev : forallb (calm t) evs = true → calm t ev = false → ev ∉ evs.
Proof. intros Hf Hc Hin. rewrite forallb_forall in Hf. rewrite Hf in Hc; [done|by apply list_elem_of_In]. Qed.

(** The page [id] as [t] read it. *)
Definition page_read (t : tid) (id : PageId) (evs : list cevent) : option Page :=
  head (omap (λ ev, match ev with
    | CvThread u (TvRead i q) => if decide (u = t ∧ i = id) then Some q else None
    | _ => None end) evs).

Lemma page_read_sound t id evs q : page_read t id evs = Some q → CvThread t (TvRead id q) ∈ evs.
Proof.
  unfold page_read. intros E. apply head_Some_elem_of, list_elem_of_omap in E as (ev & Hin & E).
  destruct ev as [u []| | | | |]; try done. case_decide as Hd; [|done]. by destruct Hd as [-> ->]; simplify_eq.
Qed.

Lemma reader_reads_computes :
  check (λ x, covered false x.1.1 && check (λ y, forallb (calm 1) y.2 &&
      check (λ q, negb (marked q)) (page_read 1 1 y.2)) (split_begin 1 x.1.1) &&
    match x.2 with [PublishWaiting _ _; ReadPinned _] => true | _ => false end)
    (run_jobs reader_reads) = true.
Proof. vm_compute. reflexivity. Qed.

(** The run, with the writer waiting for the reader. *)
Lemma reader_reads_run :
  ∃ db w l r s count images h q,
    db_open db_path tiny DiskWitness.empty_world = (Done (Ok db), w) ∧
    csteps db_path tiny 2 (created_system db w 2) (l ++ CvThread 1 TvBeginRead :: r)
      (CRun s [PublishWaiting count images; ReadPinned h]) ∧
    covered false (l ++ CvThread 1 TvBeginRead :: r) = true ∧ forallb (calm 1) r = true ∧
    CvThread 1 (TvRead 1 q) ∈ r ∧ marked q = false.
Proof.
  destruct (check_true _ _ reader_reads_computes) as ([[evs s] ths] & E & [[Hn Hc]%andb_true_iff Ht]%andb_true_iff).
  destruct (run_jobs_sound reader_reads evs s ths) as (db & w & Eo & Hst);
    [apply changes_marks; repeat constructor|exact E|]. clear E.
  destruct (check_true _ _ Hc) as ([l r] & Hs%split_begin_sound & [Hf Hq]%andb_true_iff).
  destruct (check_true _ _ Hq) as (q & Hq'%page_read_sound & Hm%negb_true_iff). cbn [fst snd] in *.
  destruct ths as [|[] [|[] []]]; try discriminate Ht. rewrite Hs in Hst, Hn.
  eexists db, w, l, r, s, _, _, _, q. split; [exact Eo|]. split; [exact Hst|]. auto.
Qed.

Lemma threads_serializable_witness :
  ∃ db w evs s σ', csteps db_path tiny 2 (created_system db w 2) evs s ∧
    cspec_steps (CUp empty_state Quiet []) evs σ' ∧ crep db_path log_path s σ' ∧ σ' ≠ CLost.
Proof.
  destruct reader_reads_run as (db & w & l & r & s & count & images & h & q & Eo & Hst & Hn & _).
  destruct (threads_serializable db_path log_path tiny 2 DiskWitness.empty_world w db path_ok
    eq_refl eq_refl (Forall_nil_2 _) eq_refl Eo ltac:(lia) _ _ Hst) as (σ' & Hσ & Hr & Hl).
  exists db, w. eexists _, _, σ'. split; [exact Hst|]. split; [exact Hσ|]. split; [exact Hr|exact (Hl Hn)].
Defined.

Lemma snapshot_reads_witness :
  ∃ l σ A q, cspec_steps (CUp empty_state Quiet []) l σ ∧ view σ = Some A ∧
    a_pages A !! 1%Z = Some q ∧ marked q = false.
Proof.
  destruct reader_reads_run as (db & w & l & r & s & count & images & h & q & Eo & Hst & Hn & Hf & Hq & Hm).
  destruct (snapshot_reads db_path log_path tiny 2 DiskWitness.empty_world w db path_ok
    eq_refl eq_refl (Forall_nil_2 _) eq_refl Eo ltac:(lia) l 1 r _ Hst) as (σ & A & Hσ & Hv & Hreads).
  - exact Hn.
  - by apply (calm_notin 1).
  - by apply (calm_notin 1).
  - exists l, σ, A, q. split; [exact Hσ|]. split; [exact Hv|]. split; [by apply Hreads|exact Hm].
Defined.

Lemma locks_exclude_witness :
  ∃ count images h, holds_wal (PublishWaiting count images) = true ∧
    holds_publish (PublishWaiting count images) = false ∧ holds_wal (ReadPinned h) = false.
Proof.
  destruct reader_reads_run as (db & w & l & r & s & count & images & h & q & Eo & Hst & _).
  exists count, images, h. split; [done|].
  destruct (locks_exclude db_path tiny 2 w db _ _ _ Hst) as [Hw Hp]. split.
  - destruct (holds_publish (PublishWaiting count images)) eqn:E; [|done].
    by specialize (Hp 0 1 _ _ eq_refl eq_refl E).
  - destruct (holds_wal (ReadPinned h)) eqn:E; [|done].
    by specialize (Hw 0 1 _ _ eq_refl eq_refl eq_refl E).
Defined.

Lemma no_deadlock_witness :
  ∃ s count images h u qc, [PublishWaiting count images; ReadPinned h] !! u = Some qc ∧
    (client_waits qc = false ∧ enabled s u qc ∨ qc = ReadOpen ∨ ∃ txn, qc = WriteOpen txn).
Proof.
  destruct reader_reads_run as (db & w & l & r & s & count & images & h & q & Eo & Hst & _).
  exists s, count, images, h.
  exact (no_deadlock db_path tiny 2 w db _ _ _ 0 _ Hst eq_refl eq_refl).
Defined.

Lemma threads_fail_only_by_io_witness :
  ∃ s count images, let r := (tstep 0 (PublishWaiting count images) AGo (plan_shared [] s)).1 in
    r ≠ Panicked ∧ ∀ pc', r ≠ Done (Some (TvFailure, pc')).
Proof.
  destruct reader_reads_run as (db & w & l & r & s & count & images & h & q & Eo & Hst & Hn & _).
  exists s, count, images. cbv zeta.
  pose proof (threads_fail_only_by_io db_path log_path tiny 2 DiskWitness.empty_world w db path_ok
    eq_refl eq_refl (Forall_nil_2 _) eq_refl Eo ltac:(lia) _ s _ 0 _ AGo [] Hst Hn eq_refl I) as Hr.
  revert Hr. generalize (tstep 0 (PublishWaiting count images) AGo (plan_shared [] s)). clear.
  intros [[[[ev pc]|]| |] s1] Hr; [..|destruct Hr|]; (split; [discriminate|]); intros pc' E; [|discriminate E..].
  injection E as -> ->. destruct Hr as (_ & _ & _ & Hio). apply (Hio eq_refl). constructor.
Defined.

End ThreadWitness.
