(* ===== verification/Clients.v ===== *)
(** * What clients' own invariants are worth (src/crates/oxendb/src/db/txn.rs)

    A client that keeps some relation between the pages of a database in every
    write transaction it commits may count on it in every read transaction:
    whatever the threads do at the same time, whatever fails and whenever the
    machine stops, in every run that is [covered], a reader finds a state in
    which the relation holds.  The
    transfers of the stress test in the source, which keep the sum of two
    numbers, are an instance. *)

From S2P Require Import Prelude Errors BTree Checksum Page FileHeader FileSys Disk WalRecord.
From S2P Require Import WalLog Recovery BufferPool PoolCache PoolThreads PoolShared PoolClients Database.
From S2P Require Import DbState Checkpoint Commit Reopen Restart Transactions System Threads Concurrent.
From S2P Require Import Serial Guarantees Isolation.

(** ** Transactions of a trace *)

Section Bodies.
Context `{Cpu}.

(** What one call of a write transaction does to its view, if the view is one
    in which the call can have had its effect. *)
Definition body_step (V : AState) (ev : tevent) : option AState :=
  match ev with
  | TvTxnRead id p => if decide (a_pages V !! id = Some p) then Some V else None
  | TvPut id change => (λ p, put id (change p) V) <$> a_pages V !! id
  | TvAlloc id ty => if decide (id = a_count V) then Some (alloc ty V) else None
  | _ => Some V
  end.

Fixpoint run_body (body : list tevent) (V : AState) : option AState :=
  match body with
  | [] => Some V
  | ev :: body => V ← body_step V ev; run_body body V
  end.

Lemma run_body_app body body' V : run_body (body ++ body') V = V' ← run_body body V; run_body body' V'.
Proof. revert V. induction body as [|ev body IH]; intros V; simpl; [done|]. by destruct (body_step V ev); simpl. Qed.

(** A body that went through. *)
Lemma body_read_inv id p body V V' :
  run_body (TvTxnRead id p :: body) V = Some V' → a_pages V !! id = Some p ∧ run_body body V = Some V'.
Proof. simpl. by case_decide. Qed.

Lemma body_put_inv id change body V V' :
  run_body (TvPut id change :: body) V = Some V' →
  ∃ p, a_pages V !! id = Some p ∧ run_body body (put id (change p) V) = Some V'.
Proof. simpl. destruct (a_pages V !! id) as [p|]; [|done]. by exists p. Qed.

Lemma body_alloc_inv id ty body V V' :
  run_body (TvAlloc id ty :: body) V = Some V' → id = a_count V ∧ run_body body (alloc ty V) = Some V'.
Proof. simpl. by case_decide. Qed.

(** The calls that belong to the body of a transaction. *)
Definition in_body (ev : tevent) : bool :=
  match ev with TvTxnRead _ _ | TvPut _ _ | TvAlloc _ _ => true | _ => false end.

(** The write transaction that is open, after an event. *)
Definition txn_after (cur : option (tid * list tevent)) (ev : cevent) : option (tid * list tevent) :=
  match ev, cur with
  | CvThread t TvBegin, _ => Some (t, [])
  | CvThread t ev, Some (u, body) =>
      if decide (u = t ∧ in_body ev = true) then Some (u, body ++ [ev]) else cur
  | _, _ => cur
  end.

(** The body that an event starts to commit. *)
Definition commits (cur : option (tid * list tevent)) (ev : cevent) : list (list tevent) :=
  match ev, cur with
  | CvThread t TvCommitStart, Some (u, body) => if decide (u = t) then [body] else []
  | _, _ => []
  end.

(** The bodies of the transactions whose commit gets as far as the log. *)
Fixpoint bodies (cur : option (tid * list tevent)) (evs : list cevent) : list (list tevent) :=
  match evs with
  | [] => []
  | ev :: evs => commits cur ev ++ bodies (txn_after cur ev) evs
  end.

Section Invariant.
Variable inv : AState → Prop.

(** A transaction that keeps [inv]. *)
Definition keeps (body : list tevent) : Prop :=
  ∀ A V, inv A → run_body body A = Some V → inv (sealed V).

(** All that the machine may take for the committed state satisfies [inv]. *)
Definition upholds (cur : option (tid * list tevent)) (σ : cspec) : Prop :=
  match σ with
  | CUp A g _ =>
      inv A ∧
      match g with
      | InTxn t V => ∃ body, cur = Some (t, body) ∧ run_body body A = Some V
      | Logs _ V | Logged _ V => inv (sealed V)
      | _ => True
      end
  | CHalted _ v P _ => (∀ A, v = Some A → inv A) ∧ Forall inv P
  | CLost => False
  | CDown P => Forall inv P
  end.

Lemma txn_grows t body ev :
  in_body ev = true → txn_after (Some (t, body)) (CvThread t ev) = Some (t, body ++ [ev]).
Proof. intros E. destruct ev; try done; simpl; by rewrite decide_True. Qed.

Lemma txn_stays cur t ev : in_body ev = false → ev ≠ TvBegin → txn_after cur (CvThread t ev) = cur.
Proof. intros E Hb. destruct ev, cur as [[u body]|]; try done; simpl; rewrite decide_False by naive_solver; done. Qed.

(** A call of the open transaction. *)
Lemma upholds_body cur A V V' o t ev :
  upholds cur (CUp A (InTxn t V) o) → in_body ev = true → body_step V ev = Some V' →
  upholds (txn_after cur (CvThread t ev)) (CUp A (InTxn t V') o).
Proof.
  intros (HA & body & -> & E) Hb Hs. split; [done|]. exists (body ++ [ev]). split; [by apply txn_grows|].
  rewrite run_body_app, E. simpl. by rewrite Hs.
Qed.

Lemma upholds_step cur σ ev σ' :
  cspec_step σ ev σ' → upholds cur σ → σ' ≠ CLost → Forall keeps (commits cur ev) →
  upholds (txn_after cur ev) σ'.
Proof.
  intros Hst Hu Hlost Hk. destruct Hst; try rewrite txn_stays by done; try done;
    try (by destruct σ); try (by destruct Hu); try (by eapply upholds_body; [done..|]; simpl; rewrite ?decide_True).
  - destruct Hu as [HA _]. split; [done|]. by exists [].
  - eapply upholds_body; [done..|]. simpl. by rewrite H0.
  - destruct Hu as (HA & body & -> & E). split; [done|]. simpl in Hk. rewrite decide_True in Hk by done.
    rewrite Forall_singleton in Hk. by eapply Hk.
  - destruct Hu as [HA HV]. split; [by intros ? [= <-]|]. by repeat constructor.
  - destruct Hu as [HA _]. split; [done|]. by repeat constructor.
  - destruct Hu as [HA _]. split; [by intros ? [= <-]|]. by repeat constructor.
  - destruct Hu as [HA _]. split; [by intros ? [= <-]|]. by repeat constructor.
  - destruct Hu as [HA Hg]. destruct g; by repeat constructor.
  - split; [|done]. by eapply Forall_forall.
  - constructor; [|constructor]. by eapply Forall_forall.
Qed.

Lemma upholds_steps cur failed σ evs σ' :
  cspec_steps σ evs σ' → upholds cur σ → vouches failed σ → covered failed evs = true →
  Forall keeps (bodies cur evs) → ∃ cur', upholds cur' σ'.
Proof.
  intros Hst. revert cur failed. induction Hst as [σ|σ ev σ1 evs σ2 Hst _ IH];
    intros cur failed Hu Hs Hno Hk; [by exists cur|].
  apply andb_true_iff in Hno as [Hev Hno]. apply Forall_app in Hk as [Hk1 Hk].
  pose proof (vouches_step _ _ _ _ Hst Hs Hev) as Hs1.
  eapply IH; [eapply upholds_step|..]; try done. by intros ->.
Qed.

Lemma upholds_view cur σ A : upholds cur σ → view σ = Some A → inv A.
Proof. destruct σ as [A0 [] o| | |]; simpl; naive_solver. Qed.


End Invariant.
Lemma bodies_app_l cur evs evs' : ∃ rest, bodies cur (evs ++ evs') = bodies cur evs ++ rest.
Proof.
  revert cur. induction evs as [|ev evs IH]; intros cur; simpl; [by eexists|].
  destruct (IH (txn_after cur ev)) as [rest ->]. exists rest. by rewrite app_assoc.
Qed.

End Bodies.

(** ** Transfers *)

Section Transfers.
Context `{Cpu}.
Variables (a b : PageId) (total : Z).

(** The transaction that sets the two numbers up. *)
Definition open_accounts : list tevent :=
  [TvAlloc a Heap; TvAlloc b Heap; TvPut a (write_u64 total); TvPut b (write_u64 0)].

(** The one that moves [amount], having read the pages [pf] and [pt]. *)
Definition transfer (from to : PageId) (amount : Z) (pf pt : Page) : list tevent :=
  TvTxnRead from pf ::
  if (amount <=? read_u64 pf)%Z then
    [TvPut from (write_u64 (read_u64 pf - amount)); TvTxnRead to pt;
     TvPut to (write_u64 (u64_add (read_u64 pt) amount))]
  else [].

(** What all of them keep. *)
Definition balanced (A : AState) : Prop :=
  ∀ pa pb, a_pages A !! a = Some pa → a_pages A !! b = Some pb →
    page_wf pa ∧ page_wf pb ∧ (read_u64 pa + read_u64 pb = total)%Z.

Definition is_transfer (body : list tevent) : Prop :=
  body = open_accounts ∨
  ∃ from to amount pf pt, (from = a ∧ to = b ∨ from = b ∧ to = a) ∧ (0 ≤ amount)%Z ∧
    body = transfer from to amount pf pt.

Hypothesis Hab : a ≠ b.
Hypothesis Htotal : u64_range total.

(** Sealing does not touch the numbers. *)
Lemma balanced_sealed V pa pb :
  a_pages V !! a = Some pa → a_pages V !! b = Some pb → page_wf pa → page_wf pb →
  (read_u64 pa + read_u64 pb = total)%Z → balanced (sealed V).
Proof.
  intros Ha Hb Hwa Hwb E qa qb Hqa Hqb. unfold sealed in Hqa, Hqb. simpl in Hqa, Hqb.
  rewrite lookup_fmap, Ha in Hqa. rewrite lookup_fmap, Hb in Hqb. injection Hqa as <-. injection Hqb as <-.
  split_and!; [auto with oxen..|]. by rewrite !read_u64_seal.
Qed.

Lemma open_accounts_keeps : keeps balanced open_accounts.
Proof.
  intros A V _ (Ea & (Eb & (pa & Hpa & (pb & Hpb & E)%body_put_inv)%body_put_inv)%body_alloc_inv)%body_alloc_inv.
  simpl in Hpa, Hpb, Eb. injection E as <-.
  rewrite lookup_insert_ne, <- Ea, lookup_insert_eq in Hpa by lia. injection Hpa as <-.
  rewrite lookup_insert_ne, <- Eb, lookup_insert_eq in Hpb by done. injection Hpb as <-.
  eapply balanced_sealed; simpl; [by rewrite lookup_insert_ne, lookup_insert_eq by done|by rewrite lookup_insert_eq|..].
  - apply write_u64_wf, page_new_wf.
  - apply write_u64_wf, page_new_wf.
  - rewrite !read_write_u64; [lia|apply page_new_wf|unfold u64_range; lia|apply page_new_wf|done].
Qed.

(** A transfer on a state where both numbers are there. *)
Lemma transfer_moves from to amount pf pt A V :
  from ≠ to → (0 ≤ amount)%Z → run_body (transfer from to amount pf pt) A = Some V →
  a_pages A !! from = Some pf ∧
  (V = A ∨
   a_pages A !! to = Some pt ∧ (amount ≤ read_u64 pf)%Z ∧
   V = put to (write_u64 (u64_add (read_u64 pt) amount) pt)
         (put from (write_u64 (read_u64 pf - amount) pf) A)).
Proof.
  intros Hne Ham [Hf E]%body_read_inv. split; [done|]. destruct (Z.leb_spec amount (read_u64 pf)) as [Hle|].
  2:{ left. simpl in E. congruence. }
  right. apply body_put_inv in E as (p & Hp & [Ht (q & Hq & E)%body_put_inv]%body_read_inv).
  rewrite Hf in Hp. injection Hp as <-. rewrite Ht in Hq. injection Hq as <-. injection E as <-.
  simpl in Ht. rewrite lookup_insert_ne in Ht by done. done.
Qed.

Lemma transfer_keeps from to amount pf pt :
  (from = a ∧ to = b ∨ from = b ∧ to = a) → (0 ≤ amount)%Z → keeps balanced (transfer from to amount pf pt).
Proof.
  intros Hft Ham A V HA E.
  apply transfer_moves in E as [Hf E]; [|naive_solver|done]. destruct E as [->|(Ht & Hle & ->)].
  - intros pa pb Hpa Hpb. simpl in *. rewrite lookup_fmap in Hpa, Hpb.
    destruct (a_pages A !! a) as [qa|] eqn:Ea, (a_pages A !! b) as [qb|] eqn:Eb; try done.
    destruct (HA _ _ Ea Eb) as (? & ? & ?). injection Hpa as <-. injection Hpb as <-.
    split_and!; [auto with oxen..|]. by rewrite !read_u64_seal.
  - assert (page_wf pf ∧ page_wf pt ∧ (read_u64 pf + read_u64 pt = total)%Z) as (Hwf & Hwt & Es).
    { destruct Hft as [[-> ->]|[-> ->]]; [by apply HA|]. destruct (HA _ _ Ht Hf) as (? & ? & ?). split_and!; [done..|lia]. }
    pose proof (read_u64_range _ Hwf). pose proof (read_u64_range _ Hwt). unfold u64_range in *.
    assert (u64_add (read_u64 pt) amount = read_u64 pt + amount)%Z as Ew
      by (apply wrap_u64_id; unfold u64_range; lia).
    set (pf' := write_u64 _ pf). set (pt' := write_u64 _ pt).
    assert (page_wf pf' ∧ page_wf pt') as [Hwf' Hwt'] by (split; by apply write_u64_wf).
    assert (read_u64 pf' = read_u64 pf - amount ∧ read_u64 pt' = read_u64 pt + amount)%Z as [Rf Rt].
    { unfold pf', pt'. rewrite Ew, !read_write_u64 by (done || unfold u64_range; lia). done. }
    destruct Hft as [[-> ->]|[-> ->]]; eapply balanced_sealed; simpl;
      rewrite ?lookup_insert_eq, ?lookup_insert_ne, ?lookup_insert_eq by done; try done; lia.
Qed.

Lemma transfers_keep body : is_transfer body → keeps balanced body.
Proof.
  intros [->|(from & to & amount & pf & pt & Hft & Ham & ->)]; [apply open_accounts_keeps|by apply transfer_keeps].
Qed.

Lemma balanced_empty : balanced empty_state.
Proof. intros pa pb Hpa. simpl in Hpa. by rewrite lookup_empty in Hpa. Qed.

End Transfers.

(** ** Invariants of clients *)

Section Readers.
Context `{Cpu} `{HashOrder}.
Variables (p wl : path) (options : Options) (n : nat) (w w' : World) (db : Database).
Hypothesis Hwl : wal_path_for p = Ok wl.
Hypothesis Hp : w_files w !! p = None.
Hypothesis Hw : w_files w !! wl = None.
Hypothesis Hio : io_ok w.
Hypothesis Hcreate : create_if_missing options = true.
Hypothesis Hopen : db_open p options w = (Done (Ok db), w').
Hypothesis Hn : (Z.of_nat n + 1 < 2 ^ 32)%Z.

Let start : csystem := created_system db w' n.

Lemma reads_uphold (inv : AState → Prop) evs t evs' s' :
  inv empty_state → csteps p options n start (evs ++ CvThread t TvBeginRead :: evs') s' →
  Forall (keeps inv) (bodies None (evs ++ CvThread t TvBeginRead :: evs')) →
  covered false (evs ++ CvThread t TvBeginRead :: evs') = true →
  CvCrash ∉ evs' → CvThread t TvEndRead ∉ evs' →
  ∃ A, inv A ∧ ∀ id q, CvThread t (TvRead id q) ∈ evs' → a_pages A !! id = Some q.
Proof.
  intros Hinv Hst Hk Hno Hcr Hend. destruct (start_runs p wl _ _ _ _ _ Hwl Hp Hw Hio Hcreate Hopen Hn _ _ Hst) as (σ' & Hσ & _).
  destruct (open_reads _ _ _ _ _ Hσ I Hno Hcr Hend) as (σ & A & Hσ1 & _ & Hv & Hreads).
  rewrite covered_app in Hno. apply andb_true_iff in Hno as [Hno _].
  destruct (bodies_app_l None evs (CvThread t TvBeginRead :: evs')) as [rest E]. rewrite E in Hk.
  apply Forall_app in Hk as [Hk _].
  destruct (upholds_steps inv None false _ _ _ Hσ1) as [cur Hu]; [by split|done..|].
  exists A. split; [by eapply upholds_view|done].
Qed.

(** C5. Consistency: if a relation between the pages holds in the empty
    database and every write transaction whose commit gets as far as the log
    keeps it, then, in a run without the events the code does not protect
    against ([covered]), every read transaction reads from a state in which it
    holds, whatever other threads are doing, whatever has failed, and however
    often the machine has stopped and the database has been reopened before.  A
    transaction need only keep the relation on states in which its own reads
    were possible. *)
Theorem client_invariants_hold (inv : AState → Prop) evs t evs' s' :
  inv empty_state → csteps p options n start (evs ++ CvThread t TvBeginRead :: evs') s' →
  Forall (keeps inv) (bodies None (evs ++ CvThread t TvBeginRead :: evs')) →
  covered false (evs ++ CvThread t TvBeginRead :: evs') = true →
  CvCrash ∉ evs' → CvThread t TvEndRead ∉ evs' →
  ∃ A, inv A ∧ ∀ id q, CvThread t (TvRead id q) ∈ evs' → a_pages A !! id = Some q.
Proof. apply reads_uphold. Qed.

(** Readers never see a partial commit: two pages hold numbers that are
    set up in one transaction and moved around by transactions that take from
    one what they add to the other.  A read transaction that looks at both
    sees the same total at any time, also after a crash in the middle of a
    transfer. *)
Theorem readers_see_whole_transfers (a b : PageId) (total : Z) evs t evs' s' qa qb :
  a ≠ b → u64_range total → csteps p options n start (evs ++ CvThread t TvBeginRead :: evs') s' →
  Forall (is_transfer a b total) (bodies None (evs ++ CvThread t TvBeginRead :: evs')) →
  covered false (evs ++ CvThread t TvBeginRead :: evs') = true →
  CvCrash ∉ evs' → CvThread t TvEndRead ∉ evs' →
  CvThread t (TvRead a qa) ∈ evs' → CvThread t (TvRead b qb) ∈ evs' →
  (read_u64 qa + read_u64 qb = total)%Z.
Proof.
  intros Hab Ht Hst Hk Hno Hcr Hend Ha Hb.
  destruct (reads_uphold (balanced a b total) evs t evs' s' (balanced_empty a b total) Hst) as (A & HA & Hreads);
    [|done..|by destruct (HA _ _ (Hreads _ _ Ha) (Hreads _ _ Hb)) as (_ & _ & ?)].
  eapply Forall_impl; [exact Hk|]. by apply transfers_keep.
Qed.

End Readers.

(** ** Example *)

Module ClientWitness.
#[local] Existing Instance PageWitness.cpu.
#[local] Existing Instance PoolWitness.order.
Import DbWitness ThreadWitness.

(** Thread 0 sets up two pages; while it commits a transfer of 7, whose
    records are already in the log, thread 1 reads both. *)
Definition account1 : Page := @seal PageWitness.cpu (write_u64 1000 (page_new 1 Heap)).
Definition account2 : Page := @seal PageWitness.cpu (write_u64 0 (page_new 2 Heap)).

Definition set_up : list job :=
  [(0, ABeginWrite, []); go 0; go 0; (0, AAlloc Heap, []); (0, AAlloc Heap, []);
   (0, APut 1 (write_u64 1000), []); (0, APut 2 (write_u64 0), []); (0, ACommit, [])] ++ replicate 7 (go 0).

Definition moves_seven : list job :=
  [(0, ABeginWrite, []); go 0; go 0; (0, ATxnRead 1, []);
   (0, APut 1 (write_u64 (read_u64 account1 - 7)), []); (0, ATxnRead 2, []);
   (0, APut 2 (write_u64 (u64_add (read_u64 account2) 7)), []); (0, ACommit, []); go 0].

Definition reads_both : list job :=
  [(1, ABeginRead, []); go 1; (1, AFetch 1, []); go 1; go 1; (1, AFetch 2, []); go 1].

Definition transfers : list job := set_up ++ moves_seven ++ reads_both.

Lemma transfers_ok : changes_ok transfers.
Proof.
  assert (Forall (λ j : job, match j.1.2 with APut _ change => ∃ v, change = write_u64 v | _ => True end)
    transfers) as Hj by (repeat constructor; by eexists).
  intros t id change plan Hin. rewrite Forall_forall in Hj. destruct (Hj _ Hin) as [v ->].
  intros q. apply write_u64_wf.
Qed.

Lemma transfers_bodies :
  (λ x, bodies None x.1.1) <$> run_jobs transfers =
  Some [open_accounts 1 2 1000; transfer 1 2 7 account1 account2].
Proof. vm_compute. reflexivity. Qed.

Lemma transfers_computes :
  check (λ x, covered false x.1.1 && check (λ y, forallb (calm 1) y.2 &&
      check (λ q, true) (page_read 1 1 y.2) && check (λ q, true) (page_read 1 2 y.2))
    (split_begin 1 x.1.1)) (run_jobs transfers) = true.
Proof. vm_compute. reflexivity. Qed.

Lemma transfers_run :
  ∃ db w l r s q1 q2,
    db_open db_path tiny DiskWitness.empty_world = (Done (Ok db), w) ∧
    csteps db_path tiny 2 (created_system db w 2) (l ++ CvThread 1 TvBeginRead :: r) s ∧
    bodies None (l ++ CvThread 1 TvBeginRead :: r) =
      [open_accounts 1 2 1000; transfer 1 2 7 account1 account2] ∧
    covered false (l ++ CvThread 1 TvBeginRead :: r) = true ∧ forallb (calm 1) r = true ∧
    CvThread 1 (TvRead 1 q1) ∈ r ∧ CvThread 1 (TvRead 2 q2) ∈ r.
Proof.
  destruct (check_true _ _ transfers_computes) as ([[evs s] ths] & E & [Hn Hc]%andb_true_iff).
  destruct (run_jobs_sound transfers evs s ths transfers_ok E) as (db & w & Eo & Hst).
  pose proof transfers_bodies as Eb. rewrite E in Eb. injection Eb as Eb. clear E.
  destruct (check_true _ _ Hc) as ([l r] & Hs%split_begin_sound & [[Hf Hq1]%andb_true_iff Hq2]%andb_true_iff).
  destruct (check_true _ _ Hq1) as (q1 & Hr1%page_read_sound & _).
  destruct (check_true _ _ Hq2) as (q2 & Hr2%page_read_sound & _). cbn [fst snd] in *. subst evs.
  exists db, w, l, r, (CRun s ths), q1, q2.
  split; [exact Eo|]. split; [exact Hst|]. split; [exact Eb|]. auto.
Qed.

Lemma transfers_are_transfers :
  Forall (is_transfer 1 2 1000) [open_accounts 1 2 1000; transfer 1 2 7 account1 account2].
Proof.
  constructor; [by left|]. constructor; [|constructor]. right.
  exists 1%Z, 2%Z, 7%Z, account1, account2. split; [by left|]. split; [lia|reflexivity].
Qed.

Lemma total_ok : u64_range 1000.
Proof. unfold u64_range. lia. Qed.

Lemma client_invariants_hold_witness :
  ∃ A q1 q2, balanced 1 2 1000 A ∧ a_pages A !! 1%Z = Some q1 ∧ a_pages A !! 2%Z = Some q2.
Proof.
  destruct transfers_run as (db & w & l & r & s & q1 & q2 & Eo & Hst & Eb & Hn & Hf & H1 & H2).
  destruct (client_invariants_hold db_path log_path tiny 2 DiskWitness.empty_world w db path_ok
    eq_refl eq_refl (Forall_nil_2 _) eq_refl Eo ltac:(lia) (balanced 1 2 1000) l 1 r s
    (balanced_empty 1 2 1000) Hst) as (A & HA & Hreads).
  - rewrite Eb. eapply Forall_impl; [exact transfers_are_transfers|].
    apply transfers_keep; [lia|exact total_ok].
  - exact Hn.
  - by apply (calm_notin 1).
  - by apply (calm_notin 1).
  - exists A, q1, q2. split; [exact HA|]. split; [by apply Hreads|by apply Hreads].
Defined.

Lemma readers_see_whole_transfers_witness :
  ∃ q1 q2, (read_u64 q1 + read_u64 q2 = 1000)%Z.
Proof.
  destruct transfers_run as (db & w & l & r & s & q1 & q2 & Eo & Hst & Eb & Hn & Hf & H1 & H2).
  exists q1, q2.
  refine (readers_see_whole_transfers db_path log_path tiny 2 DiskWitness.empty_world w db path_ok
    eq_refl eq_refl (Forall_nil_2 _) eq_refl Eo ltac:(lia) 1 2 1000 l 1 r s q1 q2 ltac:(lia) total_ok Hst
    _ Hn _ _ H1 H2).
  - rewrite Eb. exact transfers_are_transfers.
  - by apply (calm_notin 1).
  - by apply (calm_notin 1).
Defined.
End ClientWitness.
