(* ===== verification/LogSize.v ===== *)
(** * The size of the log (src/crates/oxendb/src/db/mod.rs, db/txn.rs)

    [auto_checkpoint_bytes] bounds the log: however many threads commit,
    whatever fails and however often the machine stops, the log of a healthy
    database that no thread is writing to is below the limit, or empty. *)

From S2P Require Import Prelude Errors BTree Checksum Page FileHeader FileSys Disk WalRecord.
From S2P Require Import WalLog Recovery BufferPool PoolCache Database DbState Checkpoint.
From S2P Require Import Commit Reopen Restart Transactions System Threads Concurrent Serial Guarantees.
From S2P Require Import Isolation.

(** ** What operations leave alone *)

Section Preserved.
Context `{Cpu} `{HashOrder}.
Variable R : Database → Database → Prop.
Context `{!PreOrder R}.

(** [m] takes a database only to related ones. *)
Definition preserves {A} (m : M (Database * World) A) : Prop := ∀ s, R s.1 (m s).2.1.

Lemma preserves_ret {A} (a : A) : preserves (ret a).
Proof. by intros s. Qed.

Lemma preserves_panic {A} : preserves (panic : M _ A).
Proof. by intros s. Qed.

Lemma preserves_gets {A} (f : _ → A) : preserves (gets f).
Proof. by intros s. Qed.

Lemma preserves_bind {A B} (m : M _ A) (k : A → M _ B) :
  preserves m → (∀ a, preserves (k a)) → preserves (bind m k).
Proof.
  intros Hm Hk s. unfold bind. specialize (Hm s). destruct (m s) as [[a| |] s']; [|done..].
  etransitivity; [exact Hm|apply Hk].
Qed.

Lemma preserves_bind_ok {A B} (m : M _ (Result A)) (k : A → M _ (Result B)) :
  preserves m → (∀ a, preserves (k a)) → preserves (bind_ok m k).
Proof. intros Hm Hk. apply preserves_bind; [done|]. intros [a|e]; [apply Hk|apply preserves_ret]. Qed.

Lemma preserves_for_each {A} (body : A → M _ (Result unit)) xs :
  (∀ x, preserves (body x)) → preserves (for_each body xs).
Proof.
  intros Hb. induction xs as [|x xs IH]; cbn [for_each]; [apply preserves_ret|].
  by apply preserves_bind_ok.
Qed.

Lemma preserves_with_world {A} (m : M World A) : preserves (with_world m).
Proof. intros s. unfold with_world, zoom. by destruct (m s.2). Qed.

Hypothesis R_pool : ∀ db pl, R db (set_db_pool pl db).

Lemma preserves_with_pool {A} (m : M (BufferPool * World) A) : preserves (with_pool m).
Proof. intros s. unfold with_pool, zoom. destruct (m _) as [r [pl w]]. apply R_pool. Qed.

End Preserved.

(** [preserve] proves that an operation leaves alone what [R] speaks of. *)
Ltac preserve :=
  lazymatch goal with
  | |- preserves _ (bind _ _) => refine (preserves_bind _ _ _ _ (λ _, _))
  | |- preserves _ (bind_ok _ _) => refine (preserves_bind_ok _ _ _ _ (λ _, _))
  | |- preserves _ (for_each _ _) => refine (preserves_for_each _ _ _ (λ _, _))
  | |- preserves _ (ret _) => refine (preserves_ret _ _)
  | |- preserves _ (lift _) => refine (preserves_ret _ _)
  | |- preserves _ panic => refine (preserves_panic _)
  | |- preserves _ (gets _) => refine (preserves_gets _ _)
  | |- preserves _ (with_world _) => refine (preserves_with_world _ _)
  | |- preserves _ (with_pool _) => by refine (preserves_with_pool _ _ _)
  | |- preserves _ (match ?x with _ => _ end) => destruct x
  | |- preserves _ (modify _) => intros ?; by split_and?
  | |- preserves _ db_page_count => refine (preserves_gets _ _)
  | |- preserves _ read_txn_page_count => refine (preserves_gets _ _)
  | |- preserves _ db_check_poisoned => refine (preserves_gets _ _)
  | |- preserves _ (write_txn_read_page _ _) => unfold write_txn_read_page
  | |- preserves _ (page_mut _ _ _) => unfold page_mut
  | |- preserves _ (install_image _ _) => unfold install_image
  | |- preserves _ (flush_sync _) => unfold flush_sync
  | |- preserves _ next_txn_id => unfold next_txn_id
  | |- preserves _ (with_wal _) => unfold with_wal
  | |- preserves _ (with_wal_pure _) => unfold with_wal_pure
  | |- preserves _ (log _ _) => unfold log
  end.

(** ** The log between commits *)

Definition same_limit (db db' : Database) : Prop :=
  db_auto_checkpoint_bytes db' = db_auto_checkpoint_bytes db.

Definition same_log (db db' : Database) : Prop :=
  db_wal db' = db_wal db ∧ db_poisoned db' = db_poisoned db ∧ same_limit db db'.

#[global] Instance same_limit_preorder : PreOrder same_limit.
Proof. split; [by intros ?|]. unfold same_limit. intros ? ? ?. congruence. Qed.

#[global] Instance same_log_preorder : PreOrder same_log.
Proof. split; [by intros ?|]. unfold same_log, same_limit. intros ? ? ?. intuition congruence. Qed.

(** A log whose size is in order. *)
Definition settled (db : Database) : Prop :=
  db_poisoned db = true ∨
  match db_auto_checkpoint_bytes db with
  | Some limit => (durable_len (db_wal db) < Z.max limit (Z.of_nat WAL_HEADER_SIZE + 1))%Z
  | None => True
  end.

Lemma settled_same db db' : same_log db db' → settled db → settled db'.
Proof. unfold settled. by intros (-> & -> & ->). Qed.

(** A thread that has written to the log and not yet looked at its size, or
    found it too long. *)
Definition owes_checkpoint (pc : thread) : bool :=
  match pc with
  | PublishWaiting _ _ | Publishing _ | Published | Flushing _ _ | FlushingShard _ _ _ _
  | WritingHeader _ | SyncingHeader _ | ResettingLog _ | Failing _ => true
  | _ => false
  end.

Section Steps.
Context `{Cpu} `{HashOrder}.

Lemma returns_kept {A} R (m : M (Database * World) A) Q s :
  preserves R m →
  (∀ a db w, R (sh_db s) db → Q a {| sh_db := db; sh_world := w; sh_locks := sh_locks s |}) →
  returns (on_db m) Q s.
Proof.
  intros Hm HQ a s'. unfold on_db, zoom. specialize (Hm (sh_db s, sh_world s)).
  destruct (m _) as [r [db w]]. intros [= _ <-]. by apply HQ.
Qed.

(** Resetting the log empties it. *)
Lemma reset_len wal w :
  returns (wal_reset wal) (λ x _, x.1 = Ok tt → durable_len x.2 = Z.of_nat WAL_HEADER_SIZE) w.
Proof.
  unfold wal_reset. destruct (wal_check_poisoned wal); [|by apply returns_ret].
  case_match; [by apply returns_ret|]. apply returns_bind, returns_always.
  intros [[]|e] s; by apply returns_ret.
Qed.

Lemma settled_empty db : durable_len (db_wal db) = Z.of_nat WAL_HEADER_SIZE → settled db.
Proof. intros E. right. rewrite E. case_match; lia. Qed.

Lemma reset_settles Q s :
  (∀ r db w, same_limit (sh_db s) db → (r = Ok tt → settled db) →
     Q r {| sh_db := db; sh_world := w; sh_locks := sh_locks s |}) →
  returns (on_db (with_wal wal_reset)) Q s.
Proof.
  intros HQ r s'. unfold on_db, zoom, with_wal, bind, gets, with_world, zoom. cbn [fst snd].
  destruct (wal_reset (db_wal (sh_db s)) (sh_world s)) as [[[r' wal]| |] w] eqn:E; try done.
  intros [= -> <-]. apply HQ; [done|]. intros ->. apply settled_empty. by apply (reset_len _ _ _ _ E).
Qed.

(** [size_step] is [locks_step] with the log kept in sight. *)
Ltac size_step :=
  lazymatch goal with
  | |- returns (on_db (with_wal wal_reset)) _ _ => apply reset_settles; intros
  | |- returns (on_db poison) _ _ => apply returns_modify
  | |- returns (on_db (log _ _)) _ _ => apply (returns_kept same_limit); [repeat preserve|intros ? ? ? ?]
  | |- returns (on_db _) _ _ => apply (returns_kept same_log); [repeat preserve|intros ? ? ? ?]
  | |- _ => locks_step
  end.

(** What a step does to the size of the log. *)
Lemma tstep_size t pc a s :
  returns (tstep t pc a) (λ r s',
    match r with
    | None => True
    | Some (_, pc') =>
        same_limit (sh_db s) (sh_db s') ∧
        (owes_checkpoint pc' = true ∨ settled (sh_db s') ∨
         owes_checkpoint pc = false ∧ same_log (sh_db s) (sh_db s'))
    end) s.
Proof.
  destruct pc as [| | |h|h| | |txn|txn pages|count images|[|r images]| | |own [|i todo]|own todo i [|id ids]|own|own|own|ev];
    destruct a; cbn [tstep]; repeat size_step; try done; cbn [owes_checkpoint sh_db];
    unfold same_log in *; destruct_and?; unfold same_limit in *; cbn [sh_db] in *;
    (split; [simpl; congruence|]); try (by left); right; try (by right; split_and!; simpl; congruence); left.
  - right. rewrite Heqo. apply Z.leb_gt in Heqb. lia.
  - right. by rewrite Heqo.
  - subst. match goal with u : () |- _ => destruct u end. auto.
  - by left.
Qed.

(** A database that has just been opened has an empty log. *)
Definition empty_log (options : Options) (r : Result Database) : Prop :=
  match r with
  | Ok db => db_auto_checkpoint_bytes db = auto_checkpoint_bytes options ∧
             durable_len (db_wal db) = Z.of_nat WAL_HEADER_SIZE
  | Err _ => True
  end.

Lemma assemble_log d wal options report :
  durable_len wal = Z.of_nat WAL_HEADER_SIZE → empty_log options (assemble d wal options report).
Proof. intros E. unfold assemble. by destruct (pool_new _). Qed.

Lemma create_len p w :
  returns (wal_create p) (λ r _, match r with
    | Ok wal => durable_len wal = Z.of_nat WAL_HEADER_SIZE | Err _ => True end) w.
Proof.
  unfold wal_create. repeat (apply returns_bind_ok, returns_always; intros [?|?] ?; [|done]).
  by apply returns_ret.
Qed.

Lemma created_log p options d report w :
  returns (let? wal := wal_create p in lift (assemble d wal options report)) (λ r _, empty_log options r) w.
Proof.
  apply returns_bind_ok. eapply returns_mono; [apply create_len|]. intros [wal|e] w' E; [|done].
  by apply returns_ret, assemble_log.
Qed.

Lemma opened_log p options w : returns (db_open p options) (λ r _, empty_log options r) w.
Proof.
  unfold db_open, open_existing, db_create.
  apply returns_bind_ok, returns_always. intros [wl|?] ?; [|done].
  apply returns_bind, returns_always. intros [] ?.
  - apply returns_bind, returns_always. intros [] ?; simpl.
    + do 3 (apply returns_bind_ok, returns_always; intros [?|?] ?; [|done]).
      apply returns_bind. eapply returns_mono; [apply reset_len|]. intros [[[]|e] wal] w' E; apply returns_ret; [|done].
      by apply assemble_log, E.
    + apply returns_bind_ok, returns_always. intros [?|?] ?; [|done]. apply created_log.
  - destruct (create_if_missing options); simpl; [|by apply returns_ret].
    apply returns_bind, returns_always. intros [] ?; [by apply returns_ret|].
    apply returns_bind_ok, returns_always. intros [?|?] ?; [|done]. apply created_log.
Qed.

(** ** Runs *)

Variables (p : path) (options : Options) (n : nat).

(** The log is in order, or a thread is about to put it in order. *)
Definition log_ok (s : csystem) : Prop :=
  match s with
  | CRun sh ths =>
      db_auto_checkpoint_bytes (sh_db sh) = auto_checkpoint_bytes options ∧
      (settled (sh_db sh) ∨ ∃ t pc, ths !! t = Some pc ∧ owes_checkpoint pc = true)
  | _ => True
  end.

Lemma opened_log_ok db w w' k :
  db_open p options w = (Done (Ok db), w') →
  log_ok (CRun {| sh_db := db; sh_world := w'; sh_locks := unlocked |} (replicate k Idle)).
Proof. intros E. destruct (opened_log _ _ _ _ _ E) as [E1 E2]. split; [done|]. left. by apply settled_empty. Qed.

Lemma log_ok_step s ev s' : cstep p options n s ev s' → log_ok s → log_ok s'.
Proof.
  intros Hst Hok. destruct Hst as [t pc a plan sh ths ev pc' sh' Hpc _ E| | |w w1 db w' _ _ E| | |s plan w db w' _ E| |];
    try done; [|by eapply opened_log_ok..].
  destruct Hok as [Ea Hok], (tstep_size t pc a _ _ _ E) as [El Hs].
  unfold same_limit in El. simpl in El. split; [congruence|].
  assert (t < length ths) as Ht by by eapply lookup_lt_Some.
  destruct Hs as [Ho|[Hs|[Hpc0 Hs]]]; [right; exists t, pc'; by rewrite list_lookup_insert_eq|by left|].
  destruct Hok as [Hset|(u & qc & Hu & Ho)]; [left; by eapply settled_same|].
  right. exists u, qc. split; [|done]. rewrite list_lookup_insert_ne; [done|]. intros ->. congruence.
Qed.

Lemma log_ok_steps s evs s' : csteps p options n s evs s' → log_ok s → log_ok s'.
Proof. induction 1; [done|]. intros. eauto using log_ok_step. Qed.

(** C13. [auto_checkpoint_bytes] bounds the log.  In every state that threads
    can reach, through commits, checkpoints, failures, crashes and
    reopenings, in which no thread has the log locked and the database is not
    poisoned, the log is below the limit, or has just been emptied. *)
Theorem auto_checkpoint_bounds_log db w w' evs s ths limit :
  db_open p options w = (Done (Ok db), w') →
  csteps p options n (created_system db w' n) evs (CRun s ths) →
  auto_checkpoint_bytes options = Some limit →
  wal_lock (sh_locks s) = None → db_poisoned (sh_db s) = false →
  (durable_len (db_wal (sh_db s)) < Z.max limit (Z.of_nat WAL_HEADER_SIZE + 1))%Z.
Proof.
  intros Eo Hst Hl Hw Hp. destruct (log_ok_steps _ _ _ Hst) as [Ea Hok]; [by eapply opened_log_ok|].
  assert (locks_ok (sh_locks s) ths) as Hlk.
  { eapply (csteps_locks p options n); [done| |done]. intros sh ths' [= <- <-]. apply idle_locks. }
  destruct Hok as [[?|Hs]|(t & pc & Ht & Ho)]; [congruence|by rewrite Ea, Hl in Hs|].
  assert (wal_lock (sh_locks s) = Some t); [|congruence].
  apply (lk_wal _ _ Hlk). exists pc. split; [done|]. by destruct pc.
Qed.

End Steps.

(** ** Example *)

Module LogSizeWitness.
#[local] Existing Instance PageWitness.cpu.
#[local] Existing Instance PoolWitness.order.
Import DbWitness ThreadWitness.

(** A limit of 5000 bytes, and a commit that goes beyond it. *)
Definition capped : Options :=
  {| buffer_pool_pages := 1; create_if_missing := true; auto_checkpoint_bytes := Some 5000%Z |}.

Definition one_page : list job :=
  [(0, ABeginWrite, []); go 0; go 0; (0, AAlloc Heap, []); (0, ACommit, [])] ++ replicate 13 (go 0).

Lemma one_page_computes :
  check (λ y : Database * World,
    check (λ x : list cevent * Shared * list thread,
      bool_decide (wal_lock (sh_locks x.1.2) = None) && negb (db_poisoned (sh_db x.1.2)))
    (schedule one_page {| sh_db := y.1; sh_world := y.2; sh_locks := unlocked |} (replicate 2 Idle)))
  (opened_ok (db_open db_path capped DiskWitness.empty_world)) = true.
Proof. vm_compute. reflexivity. Qed.

Lemma auto_checkpoint_bounds_log_witness :
  ∃ s, wal_lock (sh_locks s) = None ∧ (durable_len (db_wal (sh_db s)) < 5000)%Z.
Proof.
  destruct (check_true _ _ one_page_computes) as ([db w] & Eo%opened_ok_Some & Hc).
  destruct (check_true _ _ Hc) as ([[evs s] ths] & E & [Hw Hp]%andb_true_iff). cbn [fst snd] in *.
  apply bool_decide_eq_true_1 in Hw. apply negb_true_iff in Hp. exists s. split; [exact Hw|].
  refine (auto_checkpoint_bounds_log db_path capped 2 db DiskWitness.empty_world w evs s ths 5000
    Eo (schedule_sound _ _ _ _ _ _ _ _ _ _ E) eq_refl Hw Hp).
  apply changes_marks. repeat constructor.
Defined.
End LogSizeWitness.
