(* ===== verification/Solo.v ===== *)
(** * One thread at a time

    The steps of [Threads] put together again: a commit or a checkpoint whose
    steps no other thread interleaves with does exactly what the method of
    [Database] does, whatever the operating system answers.  The two readings
    of the code, as one atomic call and as a sequence of locked steps, are the
    same program. *)

From S2P Require Import Prelude Errors BTree Checksum Page FileHeader FileSys Disk WalRecord.
From S2P Require Import WalLog Recovery BufferPool PoolCache Database DbState Checkpoint.
From S2P Require Import Commit Reopen Restart Transactions System Threads Concurrent Serial Guarantees.
From S2P Require Import Isolation.

Section Solo.
Context `{Cpu} `{HashOrder}.

#[global] Instance with_pool_map : MonadMap (@with_pool).
Proof.
  split.
  - intros A a [[] w]. done.
  - intros A B m k [db w]. unfold bind, with_pool, zoom. simpl.
    destruct (m (db_pool db, w)) as [[a| |] [pl w']]; [|done..]. simpl.
    by destruct (k a (pl, w')) as [r [pl' w'']].
Qed.

#[global] Instance with_pool_proper {A} : Proper (meq ==> meq) (@with_pool A).
Proof. intros m m' E s. unfold with_pool, zoom. by rewrite E. Qed.

Lemma on_shard_for_each {A} i (body : A → M (Shard * World) (Result unit)) xs s :
  is_Some (shards s.1 !! i) →
  on_shard i (for_each body xs) s = for_each (λ x, on_shard i (body x)) xs s.
Proof.
  revert s. induction xs as [|x xs IH]; intros [[l] w] [sh Hi]; cbn [for_each fst shards] in *.
  - unfold on_shard. cbn [fst snd shards]. rewrite Hi. cbn. by rewrite list_insert_id.
  - unfold bind_ok. rewrite on_shard_bind. unfold bind.
    destruct (on_shard i (body x) ({| shards := l |}, w)) as [r [[l'] w']] eqn:E.
    assert (is_Some (l' !! i)) as Hi'.
    { unfold on_shard in E. cbn [fst snd shards] in E. rewrite Hi in E.
      destruct (body x (sh, w)) as [r' [sh' w1]]. injection E as _ <- _.
      rewrite list_lookup_insert_eq by (by eapply lookup_lt_Some). eauto. }
    destruct r as [[[]|e]| |]; [by apply IH| |done..].
    destruct Hi' as [sh' Hi']. unfold on_shard, ret. cbn [fst snd shards]. rewrite Hi'.
    by rewrite list_insert_id.
Qed.

(** [flush_cached] on a shard, as the steps of a checkpoint. *)
Lemma flush_shard_steps i d :
  meq (with_pool (on_shard i (flush_cached d)))
      (let! ids := with_pool (on_shard i (with_state (gets (λ s, hash_keys (page_table s))))) in
       for_each (λ id, with_pool (on_shard i (shard_flush_page id d))) ids).
Proof.
  transitivity (let! ids := with_pool (on_shard i (with_state (gets (λ s, hash_keys (page_table s))))) in
    with_pool (for_each (λ id, on_shard i (shard_flush_page id d)) ids)).
  - rewrite <- (mm_bind (F := @with_pool)). apply with_pool_proper. intros [pl w].
    unfold flush_cached. rewrite on_shard_bind. unfold bind.
    destruct (on_shard i _ (pl, w)) as [[ids| |] s'] eqn:E; [|done..].
    apply on_shard_for_each. unfold on_shard in E. cbn [fst snd] in E.
    destruct (shards pl !! i) as [sh|] eqn:Hi; [|done]. simpl in E. injection E as _ <-.
    simpl. rewrite list_lookup_insert_eq by (by eapply lookup_lt_Some). eauto.
  - apply bind_proper; [reflexivity|]. intros ids. apply (mm_for_each (@with_pool)).
Qed.

(** ** What is left of a call *)

Abbreviation DW := (Database * World)%type.

Definition poison_and (ev : tevent) : M DW tevent := let! _ := poison in ret ev.

(** [checkpoint_locked] and its caller, once the rest of [write_checkpoint]
    has run. *)
Definition finish (own : bool) (m : M DW (Result unit)) : M DW tevent :=
  let! r := m in
  match r with Ok _ => ret (checkpoint_done own) | Err _ => poison_and (checkpoint_failed own) end.

Definition from_sync (d : DiskManager) : M DW (Result unit) :=
  let? _ := with_world (disk_sync d) in with_wal wal_reset.

Definition from_header (d : DiskManager) : M DW (Result unit) :=
  let? _ := with_world (write_file_header d) in from_sync d.

Definition from_flush (todo : list nat) (d : DiskManager) : M DW (Result unit) :=
  let? _ := for_each (λ i, with_pool (on_shard i (flush_cached d))) todo in
  let? _ := flush_sync d in
  from_header d.

Definition from_shard (todo : list nat) (i : nat) (ids : list PageId) (d : DiskManager) :
    M DW (Result unit) :=
  let? _ := for_each (λ id, with_pool (on_shard i (shard_flush_page id d))) ids in
  from_flush todo d.

Definition on_disk (own : bool) (m : DiskManager → M DW (Result unit)) : M DW tevent :=
  let! d := gets (λ s, db_disk s.1) in finish own (m d).

Definition returning : M DW tevent := let! _ := maybe_auto_checkpoint in ret TvCommitted.

Definition publishing (m : M DW (Result unit)) : M DW tevent :=
  let! r := m in
  match r with Ok _ => returning | Err _ => poison_and TvCommitFailed end.

Definition commit_event (r : Result unit) : tevent :=
  match r with Ok _ => TvCommitted | Err _ => TvCommitFailed end.

(** [commit] once the pages are sealed. *)
Definition log_and_publish (txn : WriteTxn) (pages : list (PageId * Page)) : M DW (Result unit) :=
  let! id := next_txn_id in
  let! count := db_page_count in
  let grew := (count <? txn_page_count txn)%Z in
  let images := commit_images id grew (txn_page_count txn) pages in
  let! logged := log id images in
  match logged with
  | Err e => let! _ := poison in ret (Err e)
  | Ok _ =>
      let! published := publish (txn_page_count txn) images in
      match published with
      | Err e => let! _ := poison in ret (Err e)
      | Ok _ => let! _ := maybe_auto_checkpoint in ret (Ok tt)
      end
  end.

(** The rest of a commit or checkpoint, as the methods of [Database] have it. *)
Definition rest (pc : thread) : M DW tevent :=
  match pc with
  | Logging txn pages =>
      let! r := log_and_publish txn pages in
      ret (commit_event r)
  | PublishWaiting count images => publishing (publish count images)
  | Publishing images =>
      let! d := gets (λ s, db_disk s.1) in publishing (for_each (install_image d) images)
  | Published => returning
  | Flushing own todo => on_disk own (from_flush todo)
  | FlushingShard own todo i ids => on_disk own (from_shard todo i ids)
  | WritingHeader own => on_disk own from_header
  | SyncingHeader own => on_disk own from_sync
  | ResettingLog own => finish own (with_wal wal_reset)
  | Failing ev => poison_and ev
  | _ => panic
  end.

(** Visiting the shards keeps their number. *)
Lemma each_shard_length {A} (f : A → nat) (m : A → M (Shard * World) (Result unit)) xs s :
  length (shards (for_each (λ x, on_shard (f x) (m x)) xs s).2.1) = length (shards s.1).
Proof.
  revert s. induction xs as [|x xs IH]; intros s; [done|]. cbn [for_each]. unfold bind_ok, bind.
  pose proof (on_shard_length (f x) (m x) s) as E.
  destruct (on_shard (f x) (m x) s) as [[[[]|e]| |] s']; simpl in *; [by rewrite IH|done..].
Qed.

(** The places it speaks of. *)
Definition finishing (pc : thread) : bool :=
  match pc with
  | Idle | ReadWaiting | ReadOpen | ReadPinned _ | ReadSeen _ | WriteWaiting | WriteLocked
  | WriteOpen _ | CheckpointWaiting => false
  | _ => true
  end.

(** [write_checkpoint] from its first step. *)
Lemma write_checkpoint_steps d s :
  (let? _ := with_pool (flush_all d) in from_header d) s =
  from_flush (List.seq 0 (length (shards (db_pool s.1)))) d s.
Proof.
  unfold from_flush. rewrite <- bind_ok_assoc.
  enough (with_pool (flush_all d) s =
    (let? _ := for_each (λ i, with_pool (on_shard i (flush_cached d)))
                 (List.seq 0 (length (shards (db_pool s.1)))) in flush_sync d) s) as E
    by (unfold bind_ok, bind at 1 3; by rewrite E).
  set (xs := List.seq 0 _).
  transitivity ((let? _ := with_pool (for_each (λ i, on_shard i (flush_cached d)) xs) in flush_sync d) s).
  2: { apply bind_ok_proper; [apply (mm_for_each (@with_pool))|reflexivity]. }
  destruct s as [db w]. unfold with_pool, zoom, flush_all, bind_ok, bind, gets. cbn [fst snd] in *.
  fold xs.
  pose proof (each_shard_length (λ i, i) (λ _, flush_cached d) xs (db_pool db, w)) as El.
  cbn beta in El. destruct (for_each _ xs (db_pool db, w)) as [[[[]|e]| |] [pl w']]; [|done..]. cbn [fst snd] in *.
  unfold flush_sync, bind, gets. simpl. rewrite El. case_decide; [done|].
  unfold with_world, zoom. simpl. by destruct (disk_sync d w').
Qed.

(** ** The steps of a thread that runs alone *)

(** The locks of a thread that is the only one to hold any. *)
Definition alone_locks (t : tid) (pc : thread) : Locks :=
  {| wal_lock := Some t; publish_readers := [];
     publish_writer := if holds_publish pc then Some t else None |}.

Definition dw (s : Shared) : DW := (sh_db s, sh_world s).

(** A step, and what is left before and after it. *)
Definition agrees (t : tid) (before : exec tevent * DW) (x : exec outcome * Shared) : Prop :=
  match x with
  | (Done (Some (ev, pc')), s') =>
      if client_waits pc' then before = (Done ev, dw s') ∧ sh_locks s' = unlocked
      else before = rest pc' (dw s') ∧ sh_locks s' = alone_locks t pc' ∧ finishing pc' = true
  | (Done None, s') => False
  | (Panicked, s') => before = (Panicked, dw s')
  | (Crashed, s') => before = (Crashed, dw s')
  end.

(** A call run to its end, no other thread interfering. *)
Fixpoint run_alone (fuel : nat) (t : tid) (pc : thread) (a : action) : M Shared (option tevent) :=
  match fuel with
  | O => ret None
  | S fuel =>
      let! r := tstep t pc a in
      match r with
      | None => ret None
      | Some (ev, pc') => if client_waits pc' then ret (Some ev) else run_alone fuel t pc' AGo
      end
  end.

(** The outcome of a method and of the run of its steps. *)
Definition same_outcome {A} (f : A → tevent) (x : exec A * DW) (y : exec (option tevent) * Shared) : Prop :=
  x.2 = dw y.2 ∧
  match x.1, y.1 with
  | Done a, Done ev => ev = Some (f a) ∧ sh_locks y.2 = unlocked
  | Panicked, Panicked | Crashed, Crashed => True
  | _, _ => False
  end.

Definition checkpoint_event (own : bool) (r : Result unit) : tevent :=
  match r with Ok _ => checkpoint_done own | Err _ => checkpoint_failed own end.

Ltac run_step :=
  unfold checkpoint_io, on_disk, finish, publishing, poison_and, on_db, zoom, bind_ok, bind, gets, goes,
    unlock_wal, unlock_publish_write, set_locks, modify, ret, lift, dw;
  cbn [fst snd sh_db sh_world sh_locks].

Lemma checkpoint_io_agrees t own m k pc s :
  sh_locks s = alone_locks t pc → finishing pc = true → holds_publish pc = false →
  client_waits pc = false →
  (∀ d s, db_disk (m d s).2.1 = db_disk s.1) →
  rest pc = on_disk own k →
  agrees t (on_disk own (λ d, let? _ := m d in k d) (dw s)) (checkpoint_io own m pc s).
Proof.
  intros Hl Hw Hp Hc Hd Hr. unfold agrees. destruct s as [db w l]. simpl in Hl. run_step.
  specialize (Hd (db_disk db) (db, w)). cbn [fst] in Hd.
  destruct (m (db_disk db) (db, w)) as [[[[]|e]| |] [db' w']]; cbn [fst snd sh_db sh_world] in *; [| |done..].
  - rewrite Hc, Hr. run_step. rewrite Hd. auto.
  - simpl. split; [done|]. split; [|done]. rewrite Hl. unfold alone_locks. by rewrite Hp.
Qed.

Lemma with_pool_disk {A} (m : M (BufferPool * World) A) s : db_disk (with_pool m s).2.1 = db_disk s.1.
Proof. unfold with_pool, zoom. by destruct (m _) as [r [pl w']]. Qed.

Lemma with_world_disk {A} (m : M World A) s : db_disk (with_world m s).2.1 = db_disk s.1.
Proof. unfold with_world, zoom. by destruct (m _) as [r w']. Qed.

Lemma flush_sync_disk d s : db_disk (flush_sync d s).2.1 = db_disk s.1.
Proof. unfold flush_sync, bind, gets. case_decide; [done|apply with_world_disk]. Qed.

Lemma install_image_disk d r s : db_disk (install_image d r s).2.1 = db_disk s.1.
Proof. unfold install_image. destruct r; [|done]. case_match; [apply with_pool_disk|done]. Qed.

Lemma on_disk_proper own k k' :
  (∀ d, meq (k d) (k' d)) → meq (on_disk own k) (on_disk own k').
Proof. intros E s. unfold on_disk, finish, bind, gets. by rewrite E. Qed.

Lemma from_flush_cons i todo d :
  meq (from_flush (i :: todo) d)
      (let! ids := with_pool (on_shard i (with_state (gets (λ s, hash_keys (page_table s))))) in
       from_shard todo i ids d).
Proof.
  unfold from_flush at 1. cbn [for_each]. rewrite bind_ok_assoc, flush_shard_steps.
  unfold bind_ok at 1. by rewrite bind_assoc.
Qed.

Lemma from_shard_cons todo i id ids d :
  meq (from_shard todo i (id :: ids) d)
      (let? _ := with_pool (on_shard i (shard_flush_page id d)) in from_shard todo i ids d).
Proof. unfold from_shard at 1. cbn [for_each]. by rewrite bind_ok_assoc. Qed.

Lemma list_shard_agrees t own todo i s :
  sh_locks s = alone_locks t (Flushing own (i :: todo)) →
  agrees t (on_disk own (from_flush (i :: todo)) (dw s)) (list_shard own todo i s).
Proof.
  intros Hl. rewrite (on_disk_proper _ _ _ (from_flush_cons i todo)).
  unfold list_shard. destruct s as [db w l]. simpl in Hl. unfold agrees. run_step.
  set (m := with_pool _). pose proof (with_pool_disk _ (db, w) : db_disk (m (db, w)).2.1 = _) as Hd.
  destruct (m (db, w)) as [[ids| |] [db' w']]; cbn [fst snd sh_db sh_world] in *; [|done..].
  cbn [client_waits rest]. run_step. by rewrite Hd.
Qed.

Lemma publish_image_agrees t r images s :
  sh_locks s = alone_locks t (Publishing (r :: images)) →
  agrees t (rest (Publishing (r :: images)) (dw s)) (publish_image r images s).
Proof.
  intros Hl. unfold publish_image, agrees. cbn [rest for_each]. destruct s as [db w l]. simpl in Hl. run_step.
  pose proof (install_image_disk (db_disk db) r (db, w)) as Hd.
  destruct (install_image (db_disk db) r (db, w)) as [[[[]|e]| |] [db' w']];
    cbn [fst snd sh_db sh_world] in *; [| |done..].
  - cbn [client_waits rest]. run_step. by rewrite Hd.
  - cbn [client_waits rest]. run_step. by rewrite Hl.
Qed.

Lemma publish_count_agrees t count images s :
  sh_locks s = alone_locks t (PublishWaiting count images) →
  agrees t (rest (PublishWaiting count images) (dw s))
    (lock_publish_write t (publish_count count images) s).
Proof.
  intros Hl. unfold lock_publish_write, publish_count, publish, agrees. cbn [rest].
  destruct s as [db w l]. simpl in Hl. run_step. rewrite Hl. simpl.
  unfold publish, bind, gets. cbn [fst snd].
  destruct (set_page_count count (db_disk db)) as [[[]|e] d] eqn:E; run_step; cbn [client_waits rest]; run_step; done.
Qed.

Lemma checkpoint_locked_rest own s :
  (let! r := checkpoint_locked in ret (checkpoint_event own r)) s =
  rest (Flushing own (List.seq 0 (length (shards (db_pool s.1))))) s.
Proof.
  cbn [rest]. unfold on_disk, finish, checkpoint_locked, write_checkpoint.
  fold (from_sync (db_disk s.1)).
  unfold bind at 1 2 3 5 6, gets. rewrite <- write_checkpoint_steps. unfold from_header, from_sync.
  destruct (bind_ok _ _ s) as [[[[]|e]| |] s']; done.
Qed.

Lemma after_publish_agrees t s :
  sh_locks s = alone_locks t Published →
  agrees t (rest Published (dw s)) (after_publish s).
Proof.
  intros Hl. unfold after_publish, agrees. cbn [rest]. destruct s as [db w l]. simpl in Hl.
  unfold returning, maybe_auto_checkpoint, all_shards. run_step.
  destruct (db_auto_checkpoint_bytes db) as [limit|]; [|simpl; by rewrite Hl].
  destruct (limit <=? durable_len (db_wal db))%Z; [|simpl; by rewrite Hl].
  change (client_waits (Flushing _ _)) with false. split; [|done].
  etransitivity; [|exact (checkpoint_locked_rest false (db, w))]. unfold bind.
  by destruct (checkpoint_locked (db, w)) as [[[]| |] ?].
Qed.

Lemma commit_log_agrees t txn pages s :
  sh_locks s = alone_locks t (Logging txn pages) →
  agrees t (rest (Logging txn pages) (dw s)) (commit_log txn pages s).
Proof.
  intros Hl. destruct s as [db w l]. simpl in Hl. unfold commit_log, log_and_publish, agrees. cbn [rest].
  unfold log_and_publish, db_page_count, next_txn_id, set_next_txn. run_step.
  destruct (log _ _ _) as [[[[]|e]| |] [db' w']]; cbn [fst snd sh_db sh_world client_waits]; [| |done..].
  - split; [|done]. cbn [rest]. unfold publishing, bind.
    destruct (publish _ _ _) as [[[[]|e]| |] s'']; [|done..].
    unfold returning, bind. by destruct (maybe_auto_checkpoint s'') as [[]].
  - by rewrite Hl.
Qed.

(** Every step brings the call as far as the method would be. *)
Lemma tstep_agrees t pc s :
  finishing pc = true → sh_locks s = alone_locks t pc →
  agrees t (rest pc (dw s)) (tstep t pc AGo s).
Proof.
  intros Hf Hl.
  destruct pc as [| | |h|h| | |txn|txn pages|count images|[|r images]| | |own [|i todo]|own todo i [|id ids]|own|own|own|ev];
    try discriminate Hf; cbn [tstep].
  - by apply commit_log_agrees.
  - by apply publish_count_agrees.
  - unfold agrees. cbn [rest]. run_step. by rewrite Hl.
  - by apply publish_image_agrees.
  - by apply after_publish_agrees.
  - apply (checkpoint_io_agrees t own flush_sync); try done. apply flush_sync_disk.
  - by apply list_shard_agrees.
  - unfold agrees. cbn [rest]. run_step. done.
  - cbn [rest]. rewrite (on_disk_proper _ _ _ (from_shard_cons todo i id ids)).
    apply checkpoint_io_agrees; try done. intros d s'. apply with_pool_disk.
  - apply checkpoint_io_agrees; try done. intros d s'. apply with_world_disk.
  - apply checkpoint_io_agrees; try done. intros d s'. apply with_world_disk.
  - unfold agrees. cbn [rest]. destruct s as [db w l]. simpl in Hl. run_step.
    destruct (with_wal wal_reset (db, w)) as [[[[]|e]| |] [db' w']]; simpl; by rewrite ?Hl; destruct own.
  - unfold agrees. cbn [rest]. destruct s as [db w l]. simpl in Hl. run_step. simpl. by rewrite Hl.
Qed.

(** The first step, and the rest. *)
Lemma run_alone_step t pc a s before :
  agrees t before (tstep t pc a s) →
  (∀ ev pc' s', tstep t pc a s = (Done (Some (ev, pc')), s') → finishing pc' = true →
     sh_locks s' = alone_locks t pc' →
     ∃ n, ∀ fuel, n ≤ fuel → same_outcome (λ ev, ev) (rest pc' (dw s')) (run_alone fuel t pc' AGo s')) →
  ∃ n, ∀ fuel, n ≤ fuel → same_outcome (λ ev, ev) before (run_alone fuel t pc a s).
Proof.
  intros Ha Hk.
  assert (∃ n, ∀ fuel, n ≤ fuel → same_outcome (λ ev, ev) before
    ((let! r := tstep t pc a in
      match r with
      | None => ret None
      | Some (ev, pc') => if client_waits pc' then ret (Some ev) else run_alone fuel t pc' AGo
      end) s)) as (n & Hn).
  { unfold bind. destruct (tstep t pc a s) as [[[[ev pc']|]| |] s'] eqn:E; simpl in Ha; [|done|by subst; exists 0..].
    destruct (client_waits pc') eqn:Ec; [by destruct Ha as [-> Hl]; exists 0|].
    destruct Ha as (-> & Hl & Hf). by eapply Hk. }
  exists (S n). intros [|fuel] Hf; [lia|]. apply Hn. lia.
Qed.

Lemma run_alone_rest t pc s :
  finishing pc = true → sh_locks s = alone_locks t pc →
  ∃ n, ∀ fuel, n ≤ fuel → same_outcome (λ ev, ev) (rest pc (dw s)) (run_alone fuel t pc AGo s).
Proof.
  remember (call_rank pc) as k eqn:Ek. revert pc s Ek.
  induction (rank_lt_wf k) as [k _ IH]. intros pc s -> Hf Hl.
  apply run_alone_step; [by apply tstep_agrees|]. intros ev pc' s' E Hf' Hl'.
  apply (IH (call_rank pc')); [|done..].
  exact (tstep_rank t pc s ltac:(by destruct pc) _ _ E).
Qed.

Lemma run_alone_from {A} (f : A → tevent) (m : M DW A) t pc a s :
  agrees t ((let! x := m in ret (f x)) (dw s)) (tstep t pc a s) →
  ∃ n, ∀ fuel, n ≤ fuel → same_outcome f (m (dw s)) (run_alone fuel t pc a s).
Proof.
  intros Ha. apply run_alone_step in Ha as (n & Hn); [|intros; by apply run_alone_rest].
  exists n. intros fuel Hf. specialize (Hn fuel Hf). unfold bind in Hn.
  by destruct (m (dw s)) as [[x| |] s'].
Qed.

(** The first step of a commit. *)
Lemma commit_seal_agrees t txn s :
  sh_locks s = alone_locks t (WriteOpen txn) →
  agrees t ((let! r := commit txn in ret (commit_event r)) (dw s)) (commit_seal txn s).
Proof.
  intros Hl. destruct s as [db w l]. simpl in Hl. unfold commit, commit_seal, agrees.
  case_decide; [run_step; simpl; by rewrite Hl|]. run_step.
  destruct (seal_dirty (dirty txn)) as [pages|e]; [|simpl; by rewrite Hl]. by cbn [client_waits].
Qed.

Lemma checkpoint_agrees t s :
  sh_locks s = unlocked →
  agrees t ((let! r := checkpoint_locked in ret (checkpoint_event true r)) (dw s))
    (tstep t CheckpointWaiting AGo s).
Proof.
  intros Hl. rewrite checkpoint_locked_rest. destruct s as [db w l]. simpl in Hl. subst l.
  cbn [tstep]. unfold lock_wal, all_shards. unfold agrees. run_step. done.
Qed.

(** C23. The steps of [commit], run by a thread that no other interferes with,
    are [WriteTxn::commit] as one call: the same answer, the same database and
    the same files, whatever the operating system answers to each call and
    also when it stops half-way; and every lock is released at the end. *)
Theorem commit_is_its_steps t txn s :
  sh_locks s = alone_locks t (WriteOpen txn) →
  ∃ n, ∀ fuel, n ≤ fuel →
    same_outcome commit_event (commit txn (dw s)) (run_alone fuel t (WriteOpen txn) ACommit s).
Proof. intros Hl. by apply run_alone_from, commit_seal_agrees. Qed.

(** The same for [Database::checkpoint]. *)
Theorem checkpoint_is_its_steps t s :
  sh_locks s = unlocked → db_poisoned (sh_db s) = false →
  ∃ n, ∀ fuel, n ≤ fuel →
    same_outcome (checkpoint_event true) (checkpoint (dw s)) (run_alone fuel t Idle ACheckpoint s).
Proof.
  intros Hl Hp. destruct (run_alone_from _ _ _ _ _ _ (checkpoint_agrees t s Hl)) as (n & Hn).
  exists (S n). intros [|fuel] Hf; [lia|]. cbn [run_alone tstep].
  unfold checkpoint, checked, db_check_poisoned. unfold checkpoint_event at 1. run_step. rewrite Hp.
  destruct s as [db w l]. apply Hn. lia.
Qed.


End Solo.

Module SoloWitness.
#[local] Existing Instance PageWitness.cpu.
#[local] Existing Instance PoolWitness.order.
Import DbWitness.

(** A thread about to commit, and one about to checkpoint, whose disk fails
    at the fourth call. *)
Definition about_to_commit (t : tid) : Shared :=
  {| sh_db := start_db; sh_world := start_world [IoOk; IoOk; IoOk; IoFail 5 0];
     sh_locks := alone_locks t (WriteOpen txn1) |}.

Definition about_to_checkpoint : Shared :=
  {| sh_db := start_db; sh_world := start_world [IoOk; IoOk; IoOk; IoFail 5 0]; sh_locks := unlocked |}.

Lemma commit_is_its_steps_witness :
  ∃ n, same_outcome commit_event (commit txn1 (dw (about_to_commit 0)))
    (run_alone n 0 (WriteOpen txn1) ACommit (about_to_commit 0)).
Proof.
  destruct (commit_is_its_steps 0 txn1 (about_to_commit 0) eq_refl) as (n & Hn).
  exists n. by apply Hn.
Defined.

Lemma checkpoint_is_its_steps_witness :
  ∃ n, same_outcome (checkpoint_event true) (checkpoint (dw about_to_checkpoint))
    (run_alone n 0 Idle ACheckpoint about_to_checkpoint).
Proof.
  destruct (checkpoint_is_its_steps 0 about_to_checkpoint eq_refl eq_refl) as (n & Hn).
  exists n. by apply Hn.
Defined.
End SoloWitness.
