(* ===== verification/Races.v ===== *)
(** * Where the guarantees end

    Executions, checked by evaluation, at the boundary of what [System] and
    [Serial] prove.  In the first three a transaction is torn: two need a thread
    that had passed the poison check before a commit failed, the third a log
    that is replayed before it has reached the disk.  In the last a crash while
    the database is being created leaves a file that cannot be opened. *)

From S2P Require Import Prelude Errors BTree Checksum Page FileHeader FileSys Disk WalRecord.
From S2P Require Import WalLog Recovery BufferPool PoolCache Database DbState Checkpoint.
From S2P Require Import Commit Reopen Restart Transactions System Threads Concurrent Serial Guarantees.
From S2P Require Import Isolation.

Module Races.
#[local] Existing Instance PageWitness.cpu.
#[local] Existing Instance PoolWitness.order.
Import DbWitness ThreadWitness.

(** The commit, whose second page finds the only frame occupied by the first
    and cannot write it back. *)
Definition commit_fails : list job :=
  [(0, ACommit, []); go 0; go 0; go 0; (0, AGo, [IoFail 5 0])].

(** A database in which the first page is marked and the second is not. *)
Definition half_marked (db : Database) (w : World) : bool :=
  match (read_txn_read_page 1 (db, w)).1, (read_txn_read_page 2 (db, w)).1 with
  | Done (Ok p1), Done (Ok p2) => marked p1 && negb (marked p2)
  | _, _ => false
  end.

(** A trace without its silent steps, and with the marks of the pages that are
    read. *)
Inductive note : Type :=
  | Does (t : tid) (ev : tevent)
  | Reads (t : tid) (id : PageId) (mark : bool)
  | Machine (ev : cevent).

Definition outline : list cevent → list note :=
  omap (λ ev, match ev with
              | CvThread _ TvTau => None
              | CvThread t (TvRead id q) => Some (Reads t id (marked q))
              | CvThread t ev => Some (Does t ev)
              | ev => Some (Machine ev)
              end).

(** Thread 0 commits two new pages, neither of them marked; and the
    transaction that marks both, up to the failure of its commit, which comes
    after the log has the records. *)
Definition two_pages : list note :=
  Does 0 <$> [TvBegin; TvAlloc 1 Heap; TvAlloc 2 Heap; TvCommitStart; TvLogged; TvCommit; TvPublished;
              TvCommitted].

Definition fails_to_mark : list note :=
  Does 0 <$> [TvBegin; TvPut 1 mark; TvPut 2 mark; TvCommitStart; TvLogged; TvCommit; TvFailure].

(** ** A checkpoint that was waiting *)

Definition stale_checkpoint : list job :=
  first_pages ++ mark_both ++ [(1, ACheckpoint, [])] ++ commit_fails ++ [go 0] ++ replicate 8 (go 1).

Lemma stale_checkpoint_trace :
  (λ x, outline x.1.1) <$> run_jobs stale_checkpoint =
  Some (two_pages ++ fails_to_mark ++
    [Does 0 TvCommitFailed; Does 1 TvCheckpointStart; Does 1 TvCheckpoint]).
Proof. vm_compute. reflexivity. Qed.

Definition reopens_half_marked (w : World) : bool :=
  check (λ x, half_marked x.1 x.2) (opened_ok (db_open db_path tiny w)).

Lemma stale_checkpoint_computes :
  check (λ x, reopens_half_marked (forget [] (sh_world x.1.2))) (run_jobs stale_checkpoint) = true.
Proof. vm_compute. reflexivity. Qed.

(** C37. [Database::checkpoint] checks the poison flag before it waits for the
    WAL lock and not after.  In this run one transaction, the only one to change
    the two pages after they were created, marks both; its commit fails after
    the first page is published and reports the error; the checkpoint that
    waited meanwhile takes the lock and succeeds, and with it the log that would
    have completed the transaction is gone.  After a reboot that loses nothing
    but what was not synced, the database opens with the first page marked and
    the second not. *)
Theorem stale_checkpoint_tears_commit :
  ∃ db w evs s ths w1 db' w',
    db_open db_path tiny DiskWitness.empty_world = (Done (Ok db), w) ∧
    csteps db_path tiny 2 (created_system db w 2) evs (CRun s ths) ∧
    outline evs = two_pages ++ fails_to_mark ++
      [Does 0 TvCommitFailed; Does 1 TvCheckpointStart; Does 1 TvCheckpoint] ∧
    reboot (sh_world s) w1 ∧ genuine_log log_path (sh_world s) w1 ∧
    db_open db_path tiny w1 = (Done (Ok db'), w') ∧ half_marked db' w' = true.
Proof.
  destruct (check_true _ _ stale_checkpoint_computes) as ([[evs s] ths] & E & Hr).
  pose proof stale_checkpoint_trace as Et. rewrite E in Et. injection Et as Et.
  destruct (run_jobs_sound stale_checkpoint evs s ths) as (db & w & Eo & Hst);
    [apply changes_marks; repeat constructor|exact E|].
  destruct (check_true _ _ Hr) as ([db' w'] & Er%opened_ok_Some & Hm).
  exists db, w, evs, s, ths, (forget [] (sh_world s)), db', w'.
  split; [exact Eo|]. split; [exact Hst|]. split; [exact Et|]. split; [apply reboot_forget|].
  split; [apply genuine_forget|]. split; [exact Er|exact Hm].
Qed.

(** ** A reader that was waiting *)

Definition stale_reader : list job :=
  first_pages ++ mark_both ++ [(1, ABeginRead, [])] ++ commit_fails ++
  [go 1; (1, AFetch 1, []); go 1; go 1; (1, AFetch 2, []); go 1].

Lemma stale_reader_trace :
  (λ x, outline x.1.1) <$> run_jobs stale_reader =
  Some (two_pages ++ fails_to_mark ++ [Does 1 TvBeginRead; Reads 1 1 true; Reads 1 2 false]).
Proof. vm_compute. reflexivity. Qed.

(** C38. [ReadTxn::new] checks the poison flag before it waits for the publish
    lock and not after, and [publish] releases the lock before [commit] sets the
    flag.  In this run one transaction, the only one to change the two pages
    after they were created, marks both; its commit fails after the first page
    is published; the reader that waited meanwhile opens its transaction, and
    reads the first page marked and the second not. *)
Theorem stale_reader_sees_half_commit :
  ∃ db w evs s ths,
    db_open db_path tiny DiskWitness.empty_world = (Done (Ok db), w) ∧
    csteps db_path tiny 2 (created_system db w 2) evs (CRun s ths) ∧
    outline evs = two_pages ++ fails_to_mark ++ [Does 1 TvBeginRead; Reads 1 1 true; Reads 1 2 false].
Proof.
  pose proof stale_reader_trace as Et. destruct (run_jobs stale_reader) as [[[evs s] ths]|] eqn:E; [|discriminate Et].
  injection Et as Et. destruct (run_jobs_sound stale_reader evs s ths) as (db & w & Eo & Hst);
    [apply changes_marks; repeat constructor|exact E|].
  exists db, w, evs, s, ths. split; [exact Eo|]. split; [exact Hst|exact Et].
Qed.

(** ** Replaying a log that is not on disk *)

(** A reboot that finds the data file as it was written and of the log only
    what was synced. *)
Definition log_lost (w : World) : World :=
  {| w_files := map_imap (λ q f, Some (file_at_rest
       (if decide (q = log_path) then f_synced f else foldl apply_op (f_synced f) (f_pending f)))) (w_files w);
     w_plan := [] |}.

Lemma reboot_log_lost w : reboot w (log_lost w).
Proof.
  intros q. simpl. rewrite map_lookup_imap. destruct (w_files w !! q) as [f|]; simpl; [|done].
  eexists. split; [|done]. unfold crash_content. case_decide; generalize (f_synced f);
    induction (f_pending f) as [|o ops IH]; intros b; econstructor; try apply IH;
    [apply torn_lost|apply torn_done].
Qed.

Lemma genuine_log_lost w : genuine_log log_path w (log_lost w).
Proof.
  intros f b Hf. simpl. rewrite map_lookup_imap, Hf. simpl. intros [= <-]. apply no_forgery_synced.
Qed.

(** Calls of one client, one after the other, without failures. *)
Definition within_limitsb (o : op) (t : option WriteTxn) (db : Database) : bool :=
  match o, t with
  | OpRead id, _ | OpTxnRead id, _ | OpPut id _, _ => (0 <=? id)%Z
  | OpAlloc _, Some txn => (txn_page_count txn <? 2 ^ 52)%Z
  | OpCommit, Some txn => bool_decide (commit_room db txn)
  | _, _ => true
  end.

Fixpoint calls (ops : list op) (db : Database) (w : World) (t : option WriteTxn) :
    option (list event * (Database * World * option WriteTxn)) :=
  match ops with
  | [] => Some ([], (db, w, t))
  | o :: ops =>
      if negb (within_limitsb o t db) then None
      else
        match run o t (db, set_plan [] w) with
        | (Done (ev, t'), (db', w')) =>
            '(evs, x) ← calls ops db' w' t'; Some (ev :: evs, x)
        | _ => None
        end
  end.

Definition marks (o : op) : Prop := match o with OpPut _ change => change = mark | _ => True end.

Lemma within_limitsb_sound o t db : marks o → within_limitsb o t db = true → within_limits o t db.
Proof.
  destruct o, t; simpl; try done; try lia; try (by intros _ ?%bool_decide_eq_true_1);
    intros -> ?; (split; [lia|apply mark_wf]).
Qed.

Lemma calls_sound ops db w t evs db' w' t' :
  Forall marks ops → calls ops db w t = Some (evs, (db', w', t')) →
  steps db_path tiny (Up db w t) evs (Up db' w' t').
Proof.
  intros Ho. revert db w t evs. induction Ho as [|o ops Hm _ IH]; intros db w t evs; simpl.
  { intros [= <- <- <- <-]. constructor. }
  destruct (within_limitsb o t db) eqn:Hl; simpl; [|done].
  destruct (run o t (db, set_plan [] w)) as [[[ev t1]| |] [db1 w1]] eqn:E; try done.
  intros ([evs1 x] & Er & [= <- ->])%bind_Some. econstructor; [|by apply IH].
  eapply st_op; [by apply within_limitsb_sound|done].
Qed.

(** Two pages are created and checkpointed, and a transaction marks both. *)
Definition about_to_commit : list op :=
  [OpBegin; OpAlloc Heap; OpAlloc Heap; OpCommit; OpCheckpoint; OpBegin; OpPut 1 mark; OpPut 2 mark].

Definition ready : option (list event * (Database * World * option WriteTxn)) :=
  '(db, w) ← opened_ok (db_open db_path tiny DiskWitness.empty_world); calls about_to_commit db w None.

Definition about_to_commit_events : list event :=
  [EvBegin; EvAlloc 1 Heap; EvAlloc 2 Heap; EvCommit; EvCheckpoint; EvBegin; EvPut 1 mark; EvPut 2 mark].

Lemma ready_trace : fst <$> ready = Some about_to_commit_events.
Proof. vm_compute. reflexivity. Qed.

Lemma ready_run :
  ∃ db w s, db_open db_path tiny DiskWitness.empty_world = (Done (Ok db), w) ∧
    ready = Some (about_to_commit_events, s) ∧
    steps db_path tiny (Up db w None) about_to_commit_events (Up s.1.1 s.1.2 s.2).
Proof.
  pose proof ready_trace as Et. destruct ready as [[evs [[db1 w1] t1]]|] eqn:E; [|discriminate Et].
  injection Et as ->. apply bind_Some in E as ([db w] & Eo%opened_ok_Some & E).
  exists db, w, (db1, w1, t1). split; [exact Eo|]. split; [done|].
  eapply calls_sound; [|exact E]. repeat constructor.
Qed.

(** The process is killed inside the fsync of the log; the next one replays
    the log and is killed after the first page. *)
Definition killed (txn : WriteTxn) (s : Database * World) : exec (Result unit) * (Database * World) :=
  commit txn (s.1, set_plan [IoOk; IoCrash 0] s.2).

Definition restarted (w : World) : exec (Result Database) * World :=
  db_open db_path tiny (set_plan [IoOk; IoOk; IoOk; IoOk; IoCrash 0] w).

(** The state left by a run that is interrupted. *)
Definition crashed_in {A S} (x : exec A * S) : option S :=
  match x.1 with Crashed => Some x.2 | _ => None end.

Lemma crashed_in_Some {A S} (x : exec A * S) s : crashed_in x = Some s → x = (Crashed, s).
Proof. destruct x as [[] ?]; simpl; unfold crashed_in; simpl; congruence. Qed.

Lemma unsynced_replay_computes :
  check (λ x, within_limitsb OpCommit x.2.2 x.2.1.1 &&
    check (λ txn, check (λ y, check (λ w2, reopens_half_marked (log_lost w2))
      (crashed_in (restarted y.2))) (crashed_in (killed txn x.2.1))) x.2.2) ready = true.
Proof. vm_compute. reflexivity. Qed.

Lemma crashed_commit txn db w s' : commit txn (db, w) = (Crashed, s') → run OpCommit (Some txn) (db, w) = (Crashed, s').
Proof. intros E. simpl. unfold bind. by rewrite E. Qed.

(** C39. [Wal::open] hands the records it finds to replay without syncing the
    log.  In this run one transaction, the only one to change the two pages
    after they were created, marks both; the process is killed in the second
    system call of its commit, the fsync of the log, so that the records have
    only reached the page cache; the next process is killed in the fifth system
    call of its open, while it replays them; then the machine stops.  The reboot
    finds a page of the transaction on disk and its records not, and the
    database opens with the first page marked and the second not.  The whole is
    a run of [System] with the event [EvStopReviving], after which [spec]
    promises nothing. *)
Theorem unsynced_replay_tears_commit :
  ∃ db w db0 w0 txn db1 w1 w2 w3 db' w',
    db_open db_path tiny DiskWitness.empty_world = (Done (Ok db), w) ∧
    steps db_path tiny (Up db w None)
      [EvBegin; EvAlloc 1 Heap; EvAlloc 2 Heap; EvCommit; EvCheckpoint; EvBegin; EvPut 1 mark; EvPut 2 mark]
      (Up db0 w0 (Some txn)) ∧
    commit txn (db0, set_plan [IoOk; IoCrash 0] w0) = (Crashed, (db1, w1)) ∧
    db_open db_path tiny (set_plan [IoOk; IoOk; IoOk; IoOk; IoCrash 0] w1) = (Crashed, w2) ∧
    reboot w2 w3 ∧ genuine_log log_path w2 w3 ∧
    db_open db_path tiny w3 = (Done (Ok db'), w') ∧ half_marked db' w' = true ∧
    steps db_path tiny (Up db0 w0 (Some txn)) [EvCrash; EvOpenFailed; EvStopReviving; EvOpen] (Up db' w' None).
Proof.
  destruct ready_run as (db & w & [[db0 w0] t0] & Eo & Er & Hst).
  destruct (check_true _ _ unsynced_replay_computes) as (x & E & [Hl Hc]%andb_true_iff).
  rewrite Er in E. injection E as <-.
  destruct (check_true _ _ Hc) as (txn & Et & Hc1). simpl in Et. subst t0.
  destruct (check_true _ _ Hc1) as ([db1 w1] & E1%crashed_in_Some & Hc2).
  destruct (check_true _ _ Hc2) as (w2 & E2%crashed_in_Some & Hc3).
  destruct (check_true _ _ Hc3) as ([db4 w4] & E4%opened_ok_Some & Hm).
  exists db, w, db0, w0, txn, db1, w1, w2, (log_lost w2), db4, w4.
  split; [exact Eo|]. split; [exact Hst|]. split; [exact E1|]. split; [exact E2|].
  split; [apply reboot_log_lost|]. split; [apply genuine_log_lost|]. split; [exact E4|]. split; [exact Hm|].
  eapply steps_cons; [eapply (st_op_crash _ _ OpCommit); [by apply within_limitsb_sound|exact (crashed_commit _ _ _ _ E1)]|].
  eapply steps_cons; [eapply st_revive_failed; [by left|exact E2|discriminate]|].
  eapply steps_cons; [apply st_stop_reviving|]. eapply steps_cons; [|constructor].
  eapply st_open; [apply reboot_log_lost| |exact E4]. intros ? [= <-]. apply genuine_log_lost.
Qed.

(** ** A crash during creation *)

Section Stuck.
Variables (p wl : path).
Hypothesis Hwl : wal_path_for p = Ok wl.

(** A data file without contents, and no log. *)
Definition stuck (w : World) : Prop := w_files w !! p = Some (file_at_rest []) ∧ w_files w !! wl = None.

(** What may happen to it: the machine stops, or a process tries to open it. *)
Definition later (w w' : World) : Prop :=
  reboot w w' ∨ ∃ options plan r, db_open p options (set_plan plan w) = (r, w').

Lemma stuck_open options w :
  stuck w → db_open p options w = (let? disk := disk_open p in
                                   let? wal := wal_create wl in
                                   lift (assemble disk wal options default_report)) w.
Proof.
  intros [Hf Hw]. unfold db_open, open_existing. rewrite Hwl. unfold bind_ok, lift, bind, ret, path_exists, gets.
  rewrite Hf. simpl. by rewrite Hw.
Qed.

Lemma empty_refused w :
  w_files w !! p = Some (file_at_rest []) →
  wp (disk_open p) (λ r _, io_ok w → ∃ msg, r = Err (UnsupportedFormat msg)) (λ _, True) w.
Proof.
  intros Hf. unfold disk_open. wp_step. apply wp_open_file; rewrite ?Hf.
  2:{ intros Hn w' _. split; [done|]. intros code Hio. by destruct Hn. }
  intros w1 [E1 I1]. wp_step. eapply wp_metadata_len; [by rewrite E1| |].
  2:{ intros Hn w' _. split; [done|]. intros code Hio. destruct Hn. auto. }
  intros w2 _. rewrite (proj2 (Z.ltb_lt _ _)) by (rewrite PAGE_SIZE_val; simpl; lia). wp_step. eauto.
Qed.

Lemma stuck_refused options w r w' :
  stuck w → db_open p options w = (r, w') →
  (∀ db, r ≠ Done (Ok db)) ∧ stuck w' ∧
  (io_ok w → ∃ msg, r = Done (Err (UnsupportedFormat msg))).
Proof.
  intros Hs E. rewrite (stuck_open options w Hs) in E. destruct Hs as [Hf Hw].
  pose proof (wp_disk_open p _ w Hf) as Hd. unfold wp in Hd. unfold bind_ok, bind, ret in E.
  destruct (disk_open p w) as [[[d|e]| |] w1] eqn:Ed; [|injection E as <- <-..].
  - destruct Hd as (_ & h & (Hp & _) & _). unfold has_page in Hp. rewrite PAGE_SIZE_val in Hp. simpl in Hp. lia.
  - destruct Hd as ([Hfs _] & _). split; [done|]. split; [split; by rewrite Hfs|].
    intros Hio. pose proof (empty_refused w Hf) as He. unfold wp in He. rewrite Ed in He.
    destruct (He Hio) as [msg [= ->]]. by exists msg.
  - done.
  - destruct Hd as (Hn & Hfs & _). split; [done|]. split; [split; by rewrite Hfs|]. by intros Hio.
Qed.

Lemma stuck_later w w' : stuck w → later w w' → stuck w'.
Proof.
  intros [Hf Hw] [Hr|(options & plan & r & E)]; [|by eapply stuck_refused in E as (_ & ? & _)].
  pose proof (Hr p) as Hp. pose proof (Hr wl) as Hl. rewrite Hf in Hp. rewrite Hw in Hl. split.
  - destruct (w_files w' !! p) as [f|]; [|done]. destruct Hp as (b & Hb & ->).
    by apply crash_content_clean in Hb as ->.
  - by destruct (w_files w' !! wl).
Qed.

End Stuck.

Definition is_stuck (w : World) : bool :=
  match w_files w !! db_path, w_files w !! log_path with
  | Some {| f_cur := []; f_synced := []; f_pending := []; f_entry_synced := true |}, None => true
  | _, _ => false
  end.

Lemma is_stuck_sound w : is_stuck w = true → stuck db_path log_path w.
Proof.
  unfold is_stuck, stuck. destruct (w_files w !! db_path) as [[[] [] [] []]|], (w_files w !! log_path); try done.
Qed.

Lemma half_created_computes :
  check (λ w, is_stuck (forget [] w))
    (crashed_in (db_open db_path tiny {| w_files := ∅; w_plan := [IoOk; IoCrash 0] |})) = true.
Proof. vm_compute. reflexivity. Qed.

(** C40. [DiskManager::create] creates the file before it writes the header.  A
    crash between the two may leave an empty data file, and then the database
    cannot be opened any more: after any number of reboots and of attempts to
    open it, with any options, whatever fails in them, no open succeeds; one in
    which nothing fails reports an unsupported format. *)
Theorem crash_in_create_is_permanent :
  ∃ w1 w2,
    db_open db_path tiny {| w_files := ∅; w_plan := [IoOk; IoCrash 0] |} = (Crashed, w1) ∧
    reboot w1 w2 ∧
    ∀ w3 options plan, rtc (later db_path) w2 w3 →
      (∀ db w4, db_open db_path options (set_plan plan w3) ≠ (Done (Ok db), w4)) ∧
      ∃ msg w4, db_open db_path options (set_plan [] w3) = (Done (Err (UnsupportedFormat msg)), w4).
Proof.
  destruct (check_true _ _ half_created_computes) as (w1 & E1%crashed_in_Some & Hs%is_stuck_sound).
  exists w1, (forget [] w1).
  split; [exact E1|]. split; [apply reboot_forget|]. intros w3 options plan Hat.
  assert (stuck db_path log_path w3) as Hs3.
  { clear -Hat Hs. induction Hat as [|w w' w'' Hl _ IH]; [exact Hs|]. by apply IH, (stuck_later _ _ path_ok w). }
  split.
  - intros db w4 E. destruct (stuck_refused _ _ path_ok options (set_plan plan w3) _ _ Hs3 E) as [Hn _].
    exact (Hn db eq_refl).
  - destruct (db_open db_path options (set_plan [] w3)) as [r w4] eqn:E.
    destruct (stuck_refused _ _ path_ok options (set_plan [] w3) _ _ Hs3 E) as (_ & _ & Hm).
    destruct (Hm (Forall_nil_2 _)) as [msg ->]. by exists msg, w4.
Qed.
End Races.
